(* ===== verification/_CoqProject ===== *)
-Q . S2P
Prelude.v
RustStd.v
Codecs.v
Core.v
Wire.v
Serde.v
Event.v
Extensions.v
Routing.v
Json.v
Cbor.v
Fs.v
Channel.v
Duplex.v
Transfer.v
Pulls.v
Recovery.v
Identity.v
Tls.v
Transport.v
Net.v
Discovery.v
BTree.v
Cli.v
Tests.v
Vectors.v
