(* ===== verification/Prelude.v ===== *)
(** * furcate-mesh: a verification development

    furcate-mesh is a peer-to-peer fabric for small machines: peers are Ed25519
    public keys; they find each other by mDNS or a seed list, gossip JSON events
    over Zenoh, route inference requests to each other, and move model files by
    content hash. This library models its Rust crates and proves what each of
    them promises to the others.

    ** The program and its parts

    - furcate-mesh-core (src/crates/furcate-mesh-core/src): [PeerId], the hybrid
      logical clock, [MeshConfig], the wire codecs, the [MeshEvent] enum every
      other crate exchanges, and the traits and types for extensions.
    - furcate-mesh-routing: a table of peers fed by announcements and heartbeats,
      and the decision where to run a request.
    - furcate-mesh-transfer: a sender task that streams a file in hashed chunks as
      query replies, and [pull], which reassembles, re-hashes and caches them.
    - furcate-mesh-identity: the key file and the raw-public-key TLS configs.
    - furcate-mesh-transport: event keys, publication and subscriptions.
    - furcate-mesh-discovery: seeds and mDNS.
    - furcate-mesh-cli: the commands, which compose the others: [peer up] and
      [peer id], [peers], [model push], [model pull] and [model list],
      [route inspect].

    Core's types flow through all of them: discovery finds peers, transport
    carries [MeshEvent]s between them, transfer moves the announced models, identity
    authenticates the connections. Routing is meant to be fed with the announcements
    and heartbeats, but no crate calls it yet: its theorems are about any sequence of
    calls.

    ** The files

    - Prelude.v: Rust's [Result] with the [?] operator ([let?]), bytes, integer
      bounds, the hint database [furcate] and shared lemmas.
    - RustStd.v: the standard library the sources use: [str] methods,
      [Path::join], [f64] comparison (IEEE binary64) and formatting, decimal
      integers, [sort_by], durations.
    - Codecs.v: the hex and base64 crates as classes of operations with classes of
      laws (their texts are those of RFC 4648), and reference instances.
    - Core.v: core/src/lib.rs: modules [PeerId] and [Hlc], [MeshConfig], [MeshError].
    - Wire.v: core/src/wire.rs: [hex_array], [base64url_bytes_bytes] and
      [base64url_bytes_opt] over the serde data model [Value].
    - Serde.v: what [derive(Deserialize)] generates: the visitors of structs and of
      internally tagged enums, with the order in which they report errors.
    - Event.v: the [MeshEvent] enum of core/src/lib.rs and its derived serde form.
    - Extensions.v: core/src/extensions.rs: the announcement, offer and outcome
      types with their derived codecs, the two traits as classes.
    - Routing.v: routing/src/lib.rs: [Router], [record_announce],
      [record_heartbeat], [route]. [Instant::now] is an argument; the iteration
      order of the hash map is a list [iter] that is any permutation of the table.
    - Json.v: serde_json as a class: the text of a tree is given up to the digits of
      its floats, and is read back as the same tree with each float as the crate reads
      its digits; floats that are not finite are written as null and never read. The
      reference instance is a printer and a recursive-descent parser, proved to read
      back what it prints.
    - Cbor.v: core/src/wire.rs, module [cbor]: ciborium is a class, exact on floats.
    - Fs.v: the environment: files, directories, open files, sent samples, and an
      oracle of failures, partial and deferred writes and short reads; a state and
      error monad ([let!]) and its proof rules ([keeps], [emits], [consumed],
      [respects]).
    - Channel.v: a bounded [tokio::sync::mpsc] channel between a task and a consumer
      that reads or leaves whenever it likes, as a step relation with its invariant,
      its bound on runs and its idle states.
    - Duplex.v: two programs that shake hands, write and read on one connection, in
      every interleaving, with an exhaustive exploration that is proved sound.
    - Transfer.v: transfer/src/lib.rs: [root_hash], [stream_file_chunks], [serve],
      [pull_with_options]. BLAKE3 is a class, the Zenoh session a record.
    - Pulls.v: [pull_with_options] as a state machine with one step per operation
      it awaits, and a service that runs many pulls at once as a step relation on
      a list of machines over one world, with a rely-guarantee rule.
    - Recovery.v: any number of runs of the service on one disk, each killed at any
      point, and the pull that follows.
    - Identity.v: identity/src/lib.rs, the keys: [load], [save], [load_or_generate].
      The key crates are a class.
    - Tls.v: identity/src/lib.rs, TLS: the traits of rustls as classes, the two
      verifiers as their instances, the config builders, and a handshake that only
      goes through the traits. rustls's own functions are a class.
    - Transport.v: transport/src/lib.rs: [key_for], [publish], [subscribe], and the
      forwarding task over its channel. Zenoh's key-expression matching is a class
      with the documented wildcard semantics.
    - Net.v: [std::net::SocketAddr] as text: its parser and its [Display], for IPv4
      and IPv6.
    - Discovery.v: discovery/src/lib.rs: [parse_seed], [resolve_to_peer],
      [register_local], [run], and the task over its channel. The mDNS daemon is a
      record.
    - BTree.v: [BTreeMap] as a sorted list over a class of ordered keys.
    - Cli.v: cli/src/main.rs: [main] and the commands, with their output, error
      contexts and tables; what a process meets (arrivals, clock readings, the
      drawn key, Ctrl-C) is the record [Surroundings].
    - Tests.v: the repository's [#[test]] functions, as computations that return or
      panic, and that they pass for every lawful crate; the TLS tests as pairs of
      programs of Duplex.v.
    - Vectors.v: core/tests/protocol_vectors.rs over Fs.v and [serde_json::Value].

    Functions keep their source names; a method [T::f] is [T.f] in a module or
    [T_f]. An async function is the sequence of its awaits in one task; what other
    tasks and machines do enters as explicit inputs (replies, samples, browse
    events, the failure oracle). Tasks interleave in Pulls.v (pulls over one disk),
    in Channel.v with its two uses (a task and its consumer) and in Duplex.v (the two
    ends of a connection).

    ** What the theorems show

    - Transfer: whatever fails and whatever peers reply, [pull] only caches bytes
      that hash to the digest, and an error leaves every file but its [.partial]
      one alone ([pull_ok_verified], [pull_error_leaves_cache]); without failures
      it computes exactly an abstract function of the replies
      ([pull_refines_fate]); sender and receiver compose to the identity on
      non-empty files, for any arrival order ([transfer_roundtrip]); the sender's
      chunks are right under every failure ([stream_chunks_sound]).
    - Concurrency: the machine computes what [pull_with_options] computes
      ([pull_machine_complete]). For pulls of different digests, in any
      interleaving: the cache is never wrong, whatever fails
      ([concurrent_pulls_sound]); the number of operations is bounded and every
      run can be completed ([concurrent_pulls_terminate]); without failures each
      pull does what it does alone ([concurrent_pulls_isolated]). For two pulls of
      one digest a run is exhibited that caches an empty file
      ([same_digest_race]). After any number of runs, each killed at any point, the
      next pull of a digest succeeds with the right bytes ([crash_recovery]).
    - Routing: the decision is characterised on every branch, is deterministic,
      and is sound and complete for the gossip history the table refines
      ([route_correct], [router_refines_history], [route_forward_sound],
      [announced_routable]).
    - Events and codecs: round trips for all ten variants, canonicity of the hex
      form, well-typedness of whatever decodes, independence of field order and of
      unknown fields; the CBOR path is exact for every float ([cbor_roundtrip]);
      the extension types round-trip ([extensions_roundtrip]).
    - Identity: whoever connects, the verifiers accept exactly the expected keys with
      a signature that verifies, over TLS 1.3 only ([tls_authenticates],
      [handshake_iff]), and the repository's handshake tests hold in every
      interleaving ([tls_handshake_tests_pass]); a saved key loads back and survives
      restarts.
    - Transport: keys do not collide, the wildcard subscriptions select exactly
      their kind of event as far as names have no verbatim chunk, a published event is
      sent as its JSON text, tag first, and
      arrives ([publish_subscribe_roundtrip]), and the consumer of a
      subscription receives every sample in order ([subscription_channel]).
    - Discovery: the seed grammar and its round trip for every socket address
      ([seed_roundtrip]), what mDNS advertises is what it resolves to
      ([advertise_resolve_roundtrip]), and what the consumer of the task receives, in every
      interleaving ([discovery_channel]).
    - Commands: push and pull compose to a copy of the file ([push_then_pull]);
      what push announces is what it serves ([push_announces_what_it_serves]); a
      peer that is up is listed by whoever hears it ([heartbeats_listed]); the
      listings are exact, sorted snapshots ([listings_correct]); the printed
      address is stable ([peer_id_stable]).
    - Limits of the code: a saturated clock does not advance, NaN loads break the
      routing order, a heartbeat with an infinite load is lost
      ([nonfinite_load_lost]), empty files cannot be pulled, a cached path is not
      re-verified, a failed chmod exposes the key and a failed stat replaces it
      ([stat_failure_replaces_identity]), a write that
      fails half-way bricks the identity ([torn_save_bricks_identity]), a zero
      heartbeat interval, a window of 2^63 seconds and an unread discovery channel
      defeat the commands that meet them ([zero_period_silences],
      [long_window_panics], [undrained_push_unadvertised]).

    ** Bounds and fuel

    Machine integers are [Z] with their ranges written out. [hash_loop] and
    [stream_loop] carry fuel: a round reads at least one byte unless the file is
    at its end, so one round more than the file has bytes suffices; the out-of-fuel
    error is unreachable because [root_hash_correct] and [stream_chunks_sound]
    trace every error to a failing operation, and the machine of Pulls.v, which has
    no fuel, agrees with [hash_loop]. All other loops are structural. The
    round trip assumes files shorter than 2^63 bytes, the limit of file offsets.

    ** What is not modelled

    The parsing of arguments (clap) and the Windows branches. Third-party crates
    (hex, base64, serde_json, ciborium, blake3, ed25519-dalek, rustls, zenoh,
    mdns-sd, tokio's scheduler) are parameters whose laws are the hypotheses; each
    class has a reference instance, so the laws can hold. Logging is dropped except
    where a command has no other effect. Paths have no links, and an open file is
    its path: the theorems on concurrent pulls are about different digests, which
    share no path, and the run of [same_digest_race] uses no handle after a rename.
    The background tasks of the commands act after the foreground has started them.
    TLS is modelled at the certificate and signature checks; the record layer and
    the cryptography are rustls's, a parameter. A crash is the death of the process:
    what was written stays written, in order. The digits of a float in a JSON text
    are left open. *)

From Stdlib Require Export ZArith Lia.
From Stdlib.Strings Require Byte.
From stdpp Require Export sorting base tactics countable gmap strings list.

(** ** Rust results and the [?] operator *)

(** [std::result::Result]. *)
Inductive result (T E : Type) : Type :=
| Ok (v : T)
| Err (e : E).
Arguments Ok {T E} v.
Arguments Err {T E} e.

Definition rbind {T U E} (m : result T E) (k : T -> result U E) : result U E :=
  match m with Ok v => k v | Err e => Err e end.

Definition map_err {T E F} (f : E -> F) (m : result T E) : result T F :=
  match m with Ok v => Ok v | Err e => Err (f e) end.

Definition map_ok {T U E} (f : T -> U) (m : result T E) : result U E :=
  match m with Ok v => Ok (f v) | Err e => Err e end.

Definition or_else {T E F} (m : result T E) (k : E -> result T F) : result T F :=
  match m with Ok v => Ok v | Err e => k e end.

Definition ok_or {T E} (e : E) (o : option T) : result T E :=
  match o with Some v => Ok v | None => Err e end.

Definition is_ok {T E} (m : result T E) : bool :=
  match m with Ok _ => true | Err _ => false end.

Definition is_err {T E} (m : result T E) : bool := negb (is_ok m).

(** [Result::ok]. *)
Definition to_option {T E} (m : result T E) : option T :=
  match m with Ok v => Some v | Err _ => None end.

(** [iter.map(f).collect::<Result<_>>()]: stops at the first error. *)
Fixpoint collect_results {T U E} (f : T -> result U E) (l : list T)
    : result (list U) E :=
  match l with
  | [] => Ok []
  | x :: l' => rbind (f x) (fun y => map_ok (cons y) (collect_results f l'))
  end.

Declare Scope rust_scope.
Delimit Scope rust_scope with rust.

Notation "'let?' x ':=' m 'in' k" := (rbind m (fun x => k))
  (at level 10, x pattern, m at level 100, k at level 200,
   format "'[v' 'let?'  x  ':='  m  'in' '/' k ']'") : rust_scope.
#[global] Open Scope rust_scope.

#[global] Instance result_eq_dec {T E} `{EqDecision T} `{EqDecision E} :
  EqDecision (result T E).
Proof. solve_decision. Defined.

(** ** Bytes *)

(** [u8]: the 256 byte values. *)
Abbreviation u8 := Byte.byte.

#[global] Instance byte_eq_dec : EqDecision u8 := Byte.byte_eq_dec.

#[global] Program Instance byte_countable : Countable u8 :=
  inj_countable Byte.to_N Byte.of_N _.
Next Obligation. exact Byte.of_to_N. Qed.

#[global] Instance byte_inhabited : Inhabited u8 := populate Byte.x00.

(** The bytes of a [&str] (its UTF-8 representation) and back. *)
Definition str_bytes (s : string) : list u8 := String.list_byte_of_string s.
Definition bytes_str (b : list u8) : string := String.string_of_list_byte b.

(** ** Machine integers

    An integer of width [w] is a [Z]; the bounds are explicit. *)

Definition u8_max : Z := 255.
Definition u16_max : Z := 65535.
Definition u32_max : Z := 4294967295.
Definition u64_max : Z := 18446744073709551615.

Definition in_range (max n : Z) : bool := (0 <=? n)%Z && (n <=? max)%Z.

(** [uN::saturating_add]. *)
Definition saturating_add (max a b : Z) : Z := Z.min max (a + b).

(** ** Automation *)

Create HintDb furcate.
Create Rewrite HintDb furcate.

(** Case analysis on a [match] scrutinee, keeping the equation. *)
Ltac case_on :=
  match goal with
  | |- context [match ?x with _ => _ end] => destruct x eqn:?
  | H : context [match ?x with _ => _ end] |- _ => destruct x eqn:?
  end.

(** Push a hypothesis [rbind _ _ = Ok _] through the binds. *)
Ltac inv_ok :=
  repeat match goal with
  | H : rbind ?m _ = Ok _ |- _ =>
      destruct m eqn:?; cbn [rbind] in H; [|discriminate H]
  | H : map_ok _ ?m = Ok _ |- _ =>
      destruct m eqn:?; cbn [map_ok] in H; [|discriminate H]
  | H : map_err _ ?m = Ok _ |- _ =>
      destruct m eqn:?; cbn [map_err] in H; [|discriminate H]
  | H : ok_or _ ?m = Ok _ |- _ =>
      destruct m eqn:?; cbn [ok_or] in H; [|discriminate H]
  | H : Ok _ = Ok _ |- _ => injection H as H; subst
  | H : Err _ = Ok _ |- _ => discriminate H
  end.

(** ** Shared lemmas *)

Lemma rbind_ok {T U E} (m : result T E) (k : T -> result U E) u :
  rbind m k = Ok u <-> exists t, m = Ok t /\ k t = Ok u.
Proof. destruct m; cbn; naive_solver. Qed.

Lemma map_err_ok_iff {T E F} (f : E -> F) (m : result T E) x : map_err f m = Ok x <-> m = Ok x.
Proof. destruct m; cbn; naive_solver. Qed.

Lemma rbind_tt_ok {T E} (m : result unit E) (k : result T E) x :
  (let? _ := m in k) = Ok x <-> m = Ok tt /\ k = Ok x.
Proof. destruct m as [[]|]; cbn; naive_solver. Qed.

Lemma map_err_ok {T E F} (f : E -> F) (m : result T E) v :
  map_err f m = Ok v <-> m = Ok v.
Proof. destruct m; cbn; naive_solver. Qed.

Lemma to_option_some {T E} (m : result T E) v :
  to_option m = Some v <-> m = Ok v.
Proof. destruct m; cbn; naive_solver. Qed.

Lemma ok_or_ok {T E} (e : E) (o : option T) v :
  ok_or e o = Ok v <-> o = Some v.
Proof. destruct o; cbn; naive_solver. Qed.

Lemma collect_results_ok {T U E} (f : T -> result U E) l us :
  collect_results f l = Ok us <-> Forall2 (fun x u => f x = Ok u) l us.
Proof.
  revert us; induction l as [|x l IH]; intros us; cbn.
  - split; [intros [= <-]; constructor | by inversion 1].
  - split.
    + intros H; inv_ok; constructor; [done|]. by apply IH.
    + inversion 1 as [|?? ? ? Hx Hl]; subst. rewrite Hx; cbn.
      apply IH in Hl. by rewrite Hl.
Qed.

Lemma in_range_spec max n : in_range max n = true <-> (0 <= n <= max)%Z.
Proof. unfold in_range. rewrite andb_true_iff, !Z.leb_le. lia. Qed.

Lemma str_bytes_str b : str_bytes (bytes_str b) = b.
Proof. apply String.list_byte_of_string_of_list_byte. Qed.

Lemma bytes_str_bytes s : bytes_str (str_bytes s) = s.
Proof. apply String.string_of_list_byte_of_string. Qed.

(** Strings: the lemmas on [+:+] used throughout. *)

Lemma str_app_cons c (a b : string) : String c a +:+ b = String c (a +:+ b).
Proof. done. Qed.

Lemma str_app_nil_l (b : string) : "" +:+ b = b.
Proof. done. Qed.

Lemma str_app_assoc (a b c : string) : (a +:+ b) +:+ c = a +:+ (b +:+ c).
Proof. induction a as [|x a IH]; [done|]. exact (f_equal (String x) IH). Qed.

Lemma str_app_nil_r (a : string) : a +:+ "" = a.
Proof. induction a as [|x a IH]; [done|]. exact (f_equal (String x) IH). Qed.

Lemma str_length_app (a b : string) :
  String.length (a +:+ b) = String.length a + String.length b.
Proof. induction a as [|x a IH]; [done|]. exact (f_equal S IH). Qed.

(** Equal-length prefixes of equal strings are equal. *)
Lemma str_app_inj_length (a1 a2 b1 b2 : string) :
  String.length a1 = String.length a2 ->
  a1 +:+ b1 = a2 +:+ b2 -> a1 = a2 /\ b1 = b2.
Proof.
  revert a2; induction a1 as [|x a1 IH]; intros [|y a2] Hl H;
    try discriminate Hl; [done|].
  injection H as Hxy H'. injection Hl as Hl.
  destruct (IH _ Hl H') as [-> ->]. by subst.
Qed.

Lemma str_app_inj_l (a b1 b2 : string) : a +:+ b1 = a +:+ b2 -> b1 = b2.
Proof. intros H. by apply str_app_inj_length in H as [_ ?]. Qed.

#[export] Hint Rewrite @str_bytes_str @bytes_str_bytes str_length_app str_app_cons str_app_nil_l : furcate.
