(* ===== verification/RustStd.v ===== *)
(** * The parts of the Rust standard library the sources use

    [&str] methods, [Path::join] on Unix, [f64] comparison, [slice::sort_by],
    [Instant]/[Duration] arithmetic and decimal formatting. A [&str] is its
    sequence of UTF-8 bytes (a [string]); every predicate used on it only looks
    at ASCII characters, so that looking at bytes is looking at chars. *)

From Stdlib Require Import Ascii SpecFloat.
From stdpp Require Import pretty.
From S2P Require Import Prelude.

(** ** Characters and strings *)

Definition is_ascii_uppercase (c : ascii) : bool :=
  let n := nat_of_ascii c in (65 <=? n) && (n <=? 90).

Definition is_ascii_digit (c : ascii) : bool :=
  let n := nat_of_ascii c in (48 <=? n) && (n <=? 57).

Definition to_ascii_lowercase_char (c : ascii) : ascii :=
  if is_ascii_uppercase c then ascii_of_nat (nat_of_ascii c + 32) else c.

Fixpoint str_map (f : ascii -> ascii) (s : string) : string :=
  match s with
  | "" => ""
  | String c s' => String (f c) (str_map f s')
  end.

Definition to_ascii_lowercase : string -> string := str_map to_ascii_lowercase_char.

(** [s.chars().all(p)] and [s.chars().any(p)]. *)
Fixpoint str_all (p : ascii -> bool) (s : string) : bool :=
  match s with
  | "" => true
  | String c s' => p c && str_all p s'
  end.

Fixpoint str_any (p : ascii -> bool) (s : string) : bool :=
  match s with
  | "" => false
  | String c s' => p c || str_any p s'
  end.

(** [str::split_once] on a char: splits at the first occurrence. *)
Fixpoint split_once (sep : ascii) (s : string) : option (string * string) :=
  match s with
  | "" => None
  | String c s' =>
      if Ascii.eqb c sep then Some ("", s')
      else match split_once sep s' with
           | Some (a, b) => Some (String c a, b)
           | None => None
           end
  end.

(** [str::strip_prefix]. *)
Fixpoint strip_prefix (p s : string) : option string :=
  match p, s with
  | "", _ => Some s
  | String a p', String b s' =>
      if Ascii.eqb a b then strip_prefix p' s' else None
  | _, "" => None
  end.

(** [str::starts_with]. *)
Definition starts_with (p s : string) : bool :=
  match strip_prefix p s with Some _ => true | None => false end.

(** [format!("{n}")] of an unsigned integer. *)
Definition fmt_uint (n : Z) : string := pretty (Z.to_N n).

(** ** Paths (Unix) *)

Fixpoint last_char (s : string) : option ascii :=
  match s with
  | "" => None
  | String c "" => Some c
  | String _ s' => last_char s'
  end.

Definition is_absolute (p : string) : bool :=
  match p with String "/" _ => true | _ => false end.

(** [Path::join]: an absolute argument replaces the base; otherwise a
    separator is added unless the base is empty or already ends in one. *)
Definition path_join (base p : string) : string :=
  if is_absolute p then p
  else match last_char base with
       | None => base +:+ p
       | Some "/"%char => base +:+ p
       | Some _ => base +:+ "/" +:+ p
       end.

(** ** [f64]

    IEEE-754 binary64 values, as the standard library's executable
    specification of floats. *)

Abbreviation f64 := spec_float.

Definition f64_MAX : f64 := S754_finite false 9007199254740991 971.
Definition f64_zero : f64 := S754_zero false.

(** [f64::partial_cmp]. *)
Definition partial_cmp (a b : f64) : option comparison := SFcompare a b.

(** [n as f64] for an unsigned integer: round to nearest even. *)
Definition int_as_f64 (n : Z) : f64 := binary_normalize 53 1024 n 0 false.

Definition is_nan (a : f64) : bool :=
  match a with S754_nan => true | _ => false end.

Definition is_finite (a : f64) : bool :=
  match a with S754_zero _ | S754_finite _ _ _ => true | _ => false end.

#[global] Instance f64_eq_dec : EqDecision f64.
Proof. solve_decision. Defined.

(** [Ordering::then_with]. *)
Definition then_with (c d : comparison) : comparison :=
  match c with Eq => d | _ => c end.

(** ** [slice::sort_by]

    A stable sort. For comparison functions that are not total orders the
    library leaves the resulting order unspecified (it may panic); this
    definition is one of the allowed outcomes. *)

Fixpoint insert_by {A} (cmp : A -> A -> comparison) (x : A) (l : list A) : list A :=
  match l with
  | [] => [x]
  | y :: l' =>
      match cmp x y with
      | Gt => y :: insert_by cmp x l'
      | _ => x :: y :: l'
      end
  end.

Fixpoint sort_by {A} (cmp : A -> A -> comparison) (l : list A) : list A :=
  match l with
  | [] => []
  | x :: l' => insert_by cmp x (sort_by cmp l')
  end.

(** ** Time

    An [Instant] is a count of nanoseconds on the monotonic clock, a
    [Duration] a non-negative count of nanoseconds. *)

Definition nanos_per_sec : Z := 1000000000.

Definition Duration_from_secs (s : Z) : Z := s * nanos_per_sec.

(** [Instant::duration_since], which saturates to zero. *)
Definition duration_since (now earlier : Z) : Z := Z.max 0 (now - earlier).

(** ** Lemmas: strings *)

Lemma str_all_app p a b : str_all p (a +:+ b) = str_all p a && str_all p b.
Proof.
  induction a as [|c a IH]; [done|].
  change (p c && str_all p (a +:+ b) = (p c && str_all p a) && str_all p b).
  by rewrite IH, andb_assoc.
Qed.

Lemma str_any_negb_all p s : str_any p s = negb (str_all (fun c => negb (p c)) s).
Proof. induction s as [|c s IH]; cbn; [done|]. rewrite IH. by destruct (p c). Qed.

Lemma str_all_impl (p q : ascii -> bool) s :
  (forall c, p c = true -> q c = true) -> str_all p s = true -> str_all q s = true.
Proof.
  intros Hpq. induction s as [|c s IH]; cbn; [done|].
  rewrite !andb_true_iff. naive_solver.
Qed.

Lemma str_length_map f s : String.length (str_map f s) = String.length s.
Proof. induction s as [|c s IH]; cbn; congruence. Qed.

Lemma str_map_id_on (f : ascii -> ascii) (p : ascii -> bool) s :
  (forall c, p c = true -> f c = c) -> str_all p s = true -> str_map f s = s.
Proof.
  intros Hf. induction s as [|c s IH]; cbn; [done|].
  rewrite andb_true_iff. intros [Hc Hs]. by rewrite Hf, IH.
Qed.

Lemma to_ascii_lowercase_fixed s :
  str_any is_ascii_uppercase s = false -> to_ascii_lowercase s = s.
Proof.
  rewrite str_any_negb_all, negb_false_iff.
  apply str_map_id_on. intros c Hc. unfold to_ascii_lowercase_char.
  by destruct (is_ascii_uppercase c).
Qed.

Lemma strip_prefix_app p s : strip_prefix p (p +:+ s) = Some s.
Proof.
  induction p as [|c p IH]; [done|].
  change (strip_prefix (String c p) (String c (p +:+ s)) = Some s); cbn.
  by rewrite Ascii.eqb_refl.
Qed.

Lemma starts_with_app p r s : s = p +:+ r -> starts_with p s = true.
Proof. intros ->. unfold starts_with. by rewrite strip_prefix_app. Qed.

Lemma strip_prefix_some p s r : strip_prefix p s = Some r <-> s = p +:+ r.
Proof.
  split; [|intros ->; apply strip_prefix_app].
  revert s; induction p as [|c p IH]; intros s H; cbn in H.
  - by injection H.
  - destruct s as [|d s]; [done|].
    destruct (Ascii.eqb_spec c d) as [->|]; [|done].
    exact (f_equal (String d) (IH _ H)).
Qed.

(** A separator-free prefix is what [split_once] returns. *)
Lemma split_once_app sep a b :
  str_all (fun c => negb (Ascii.eqb c sep)) a = true ->
  split_once sep (a +:+ String sep b) = Some (a, b).
Proof.
  induction a as [|c a IH]; intros H.
  - change (split_once sep (String sep b) = Some ("", b)); cbn.
    by rewrite Ascii.eqb_refl.
  - cbn in H. apply andb_true_iff in H as [Hc Ha].
    change (split_once sep (String c (a +:+ String sep b)) = Some (String c a, b)); cbn.
    destruct (Ascii.eqb c sep); [done|]. by rewrite IH.
Qed.

Lemma split_once_none sep a :
  str_all (fun c => negb (Ascii.eqb c sep)) a = true -> split_once sep a = None.
Proof.
  induction a as [|c a IH]; cbn; [done|].
  rewrite andb_true_iff. intros [Hc Ha]. destruct (Ascii.eqb c sep); [done|].
  by rewrite IH.
Qed.

Lemma split_once_some sep s a b :
  split_once sep s = Some (a, b) ->
  s = a +:+ String sep b /\ str_all (fun c => negb (Ascii.eqb c sep)) a = true.
Proof.
  revert a; induction s as [|c s IH]; intros a H; cbn in H; [done|].
  destruct (Ascii.eqb_spec c sep) as [->|Hne].
  - injection H as <- <-. done.
  - destruct (split_once sep s) as [[a' b']|] eqn:E; [|done].
    injection H as <- <-. destruct (IH _ eq_refl) as [-> Ha]. split; [done|].
    cbn. destruct (Ascii.eqb_spec c sep); [done|]. by rewrite Ha.
Qed.

(** ** Lemmas: sorting *)

Section SortBy.
Context {A : Type} (cmp : A -> A -> comparison).

Lemma insert_by_perm x l : insert_by cmp x l ≡ₚ x :: l.
Proof.
  induction l as [|y l IH]; cbn; [done|].
  destruct (cmp x y); [done..|]. rewrite IH. apply Permutation_swap.
Qed.

Lemma sort_by_perm l : sort_by cmp l ≡ₚ l.
Proof. induction l as [|x l IH]; cbn; [done|]. by rewrite insert_by_perm, IH. Qed.

(** On the elements satisfying [P] the comparison is a total preorder. *)
Context (P : A -> Prop).
Let le x y := cmp x y <> Gt.
Hypothesis le_trans : forall x y z, P x -> P y -> P z -> le x y -> le y z -> le x z.
Hypothesis le_total : forall x y, P x -> P y -> le x y \/ le y x.

Lemma insert_by_sorted x l :
  P x -> Forall P l -> StronglySorted le l -> StronglySorted le (insert_by cmp x l).
Proof.
  intros Px. induction l as [|y l IH]; intros Pl Hs; cbn.
  { repeat constructor. }
  apply Forall_cons in Pl as [Py Pl].
  apply StronglySorted_inv in Hs as [Hs Hy].
  assert (cmp x y <> Gt -> StronglySorted le (x :: y :: l)) as Hfront.
  { intros Hxy. constructor; [by constructor|]. constructor; [done|].
    rewrite Forall_forall in Hy, Pl |- *. intros z Hz. eapply le_trans; eauto. }
  destruct (cmp x y) eqn:E; try (apply Hfront; congruence).
  constructor; [by apply IH|].
  rewrite insert_by_perm. constructor; [|done].
  destruct (le_total x y Px Py) as [Hxy|Hyx]; [by destruct Hxy|done].
Qed.

Lemma sort_by_sorted l : Forall P l -> StronglySorted le (sort_by cmp l).
Proof.
  induction l as [|x l IH]; intros Pl; cbn; [constructor|].
  apply Forall_cons in Pl as [Px Pl]. apply insert_by_sorted; [done| |by apply IH].
  by rewrite sort_by_perm.
Qed.

(** The first element of the sorted list is a least element. *)
Lemma sort_by_head_least l x l' :
  Forall P l -> sort_by cmp l = x :: l' -> x ∈ l /\ (forall y, y ∈ l -> le x y).
Proof.
  intros Pl E. pose proof (sort_by_sorted l Pl) as Hs.
  pose proof (sort_by_perm l) as Hp. rewrite E in Hs, Hp.
  apply StronglySorted_inv in Hs as [_ Hx]. rewrite Forall_forall in Hx.
  assert (x ∈ l) as Hin by (rewrite <- Hp; left).
  split; [done|]. intros y Hy. rewrite <- Hp in Hy.
  apply elem_of_cons in Hy as [->|Hy]; [|by apply Hx].
  rewrite Forall_forall in Pl. destruct (le_total x x); eauto.
Qed.
End SortBy.

(** ** Comparison functions that are total preorders *)

Class OrdCmp {A} (cmp : A -> A -> comparison) : Prop := {
  ord_opp x y : cmp y x = CompOpp (cmp x y);
  ord_trans x y z : cmp x y <> Gt -> cmp y z <> Gt -> cmp x z <> Gt;
}.

Arguments ord_opp {A} cmp {_} x y.
Arguments ord_trans {A} cmp {_} x y z.

Section OrdCmp.
Context {A : Type}.

Lemma ord_total (cmp : A -> A -> comparison) `{!OrdCmp cmp} x y :
  cmp x y <> Gt \/ cmp y x <> Gt.
Proof. rewrite (ord_opp cmp x y). destruct (cmp x y); cbn; auto. Qed.

Lemma ord_refl (cmp : A -> A -> comparison) `{!OrdCmp cmp} x : cmp x x = Eq.
Proof. pose proof (ord_opp cmp x x) as E. by destruct (cmp x x). Qed.

(** Equality of two related elements squeezes what lies between them. *)
Lemma ord_squeeze (cmp : A -> A -> comparison) `{!OrdCmp cmp} x y z :
  cmp x y <> Gt -> cmp y z <> Gt -> cmp x z = Eq -> cmp x y = Eq /\ cmp y z = Eq.
Proof.
  intros Hxy Hyz Hxz.
  assert (cmp z x <> Gt) as Hzx by (rewrite (ord_opp cmp x z), Hxz; done).
  pose proof (ord_trans cmp _ _ _ Hzx Hxy) as Hzy. rewrite (ord_opp cmp y z) in Hzy.
  pose proof (ord_trans cmp _ _ _ Hyz Hzx) as Hyx. rewrite (ord_opp cmp x y) in Hyx.
  destruct (cmp x y), (cmp y z); cbn in *; split; congruence.
Qed.

(** Ordering by a numeric key, and lexicographic composition. *)
Lemma OrdCmp_key (f : A -> Z) : OrdCmp (fun x y => Z.compare (f x) (f y)).
Proof.
  split.
  - intros x y. apply Z.compare_antisym.
  - intros x y z. unfold not. rewrite !Z.compare_gt_iff. lia.
Qed.

Lemma OrdCmp_then (c d : A -> A -> comparison) :
  OrdCmp c -> OrdCmp d -> OrdCmp (fun x y => then_with (c x y) (d x y)).
Proof.
  intros Hc Hd. split.
  - intros x y. rewrite (ord_opp c x y), (ord_opp d x y). by destruct (c x y).
  - intros x y z Hxy Hyz.
    assert (c x y <> Gt) as Cxy by (intros E; by rewrite E in Hxy).
    assert (c y z <> Gt) as Cyz by (intros E; by rewrite E in Hyz).
    pose proof (ord_trans c _ _ _ Cxy Cyz) as Cxz.
    destruct (c x z) eqn:E; cbn; [|done..].
    destruct (ord_squeeze c x y z Cxy Cyz E) as [Exy Eyz].
    rewrite Exy in Hxy. rewrite Eyz in Hyz. by eapply (ord_trans d).
Qed.

Lemma OrdCmp_ext (c d : A -> A -> comparison) :
  (forall x y, c x y = d x y) -> OrdCmp c -> OrdCmp d.
Proof.
  intros E Hc. split; intros *; rewrite <- !E; [apply (ord_opp c)|apply (ord_trans c)].
Qed.

Lemma OrdCmp_comap {B} (f : A -> B) (c : B -> B -> comparison) :
  OrdCmp c -> OrdCmp (fun x y => c (f x) (f y)).
Proof. intros Hc. split; intros *; [apply (ord_opp c)|apply (ord_trans c)]. Qed.

End OrdCmp.

(** ** [f64] comparison is the lexicographic order of an integer key

    Class (negative infinity to positive infinity), then exponent, then
    mantissa, the last two negated for negative numbers. *)

Definition f64_key (a : f64) : Z * Z * Z :=
  match a with
  | S754_nan => (0, 0, 0)
  | S754_infinity s => (if s then -2 else 2, 0, 0)
  | S754_zero _ => (0, 0, 0)
  | S754_finite true m e => (-1, -e, - Zpos m)
  | S754_finite false m e => (1, e, Zpos m)
  end%Z.

Definition f64_key_cmp (a b : f64) : comparison :=
  then_with (Z.compare (f64_key a).1.1 (f64_key b).1.1)
    (then_with (Z.compare (f64_key a).1.2 (f64_key b).1.2)
               (Z.compare (f64_key a).2 (f64_key b).2)).

Lemma partial_cmp_key a b :
  is_nan a = false -> is_nan b = false -> partial_cmp a b = Some (f64_key_cmp a b).
Proof.
  intros Ha Hb. unfold partial_cmp, f64_key_cmp.
  destruct a as [[]|[]| |[] ma ea]; try discriminate Ha;
  destruct b as [[]|[]| |[] mb eb]; try discriminate Hb; cbn; try done.
  - f_equal. rewrite Z.compare_opp, (Z.compare_antisym ea eb).
    destruct (Z.compare ea eb); cbn; try done.
  - f_equal. by destruct (Z.compare ea eb).
Qed.

#[global] Instance f64_key_cmp_ord : OrdCmp f64_key_cmp.
Proof.
  apply (OrdCmp_then (fun a b => Z.compare (f64_key a).1.1 (f64_key b).1.1)).
  - apply (OrdCmp_key (fun a => (f64_key a).1.1)).
  - apply (OrdCmp_then (fun a b => Z.compare (f64_key a).1.2 (f64_key b).1.2)).
    + apply (OrdCmp_key (fun a => (f64_key a).1.2)).
    + apply (OrdCmp_key (fun a => (f64_key a).2)).
Qed.

(** [f64::MAX] is at least every finite number. *)
Lemma f64_MAX_le_infinity : partial_cmp f64_MAX (S754_infinity false) = Some Lt.
Proof. done. Qed.

(** ** Paths *)

(** Relative paths are appended to one prefix that depends on the base alone. *)
Lemma path_join_relative base :
  exists pre, String.length base <= String.length pre /\
    forall p, is_absolute p = false -> path_join base p = pre +:+ p.
Proof.
  assert (forall c, exists pre, String.length base <= String.length pre /\ forall p, is_absolute p = false ->
    (if Ascii.eqb c "/" then base +:+ p else base +:+ "/" +:+ p) = pre +:+ p) as Hpre.
  { intros c. destruct (Ascii.eqb c "/"); [by exists base|]. exists (base +:+ "/").
    split; [rewrite str_length_app; lia|]. intros p _. by rewrite str_app_assoc. }
  destruct (last_char base) as [c|] eqn:El.
  - destruct (Hpre c) as (pre & Hl & Hp). exists pre. split; [done|]. intros p Hr.
    rewrite <- Hp by done. unfold path_join. rewrite Hr, El.
    by destruct c as [[] [] [] [] [] [] [] []].
  - exists base. split; [done|]. intros p Hr. unfold path_join. by rewrite Hr, El.
Qed.

(** ** Formatting a float with two decimals

    [{x:.2}]: the exact value, rounded to hundredths with ties to even. *)

Definition round_half_even (num den : Z) : Z :=
  let q := (num / den)%Z in
  match (2 * (num mod den) ?= den)%Z with
  | Lt => q
  | Gt => (q + 1)%Z
  | Eq => if Z.even q then q else (q + 1)%Z
  end.

(** [|x| * 100] as an integer, for a finite [x = m * 2^e]. *)
Definition hundredths (m : positive) (e : Z) : Z :=
  if (0 <=? e)%Z then (Zpos m * 2 ^ e * 100)%Z
  else round_half_even (Zpos m * 100) (2 ^ (- e)).

Definition fmt_fixed2 (x : f64) : string :=
  let sign (s : bool) := if s then "-" else "" in
  match x with
  | S754_zero s => sign s +:+ "0.00"
  | S754_infinity s => sign s +:+ "inf"
  | S754_nan => "NaN"
  | S754_finite s m e =>
      let h := hundredths m e in
      let cents := (h mod 100)%Z in
      sign s +:+ fmt_uint (h / 100) +:+ "." +:+ (if (cents <? 10)%Z then "0" else "") +:+ fmt_uint cents
  end.

(** [{s:>n}]: spaces on the left up to the width. *)
Definition pad_left (n : nat) (s : string) : string :=
  Nat.iter (n - String.length s) (String " "%char) s.

Lemma round_half_even_close num den :
  (0 < den)%Z -> (2 * Z.abs (num - round_half_even num den * den) <= den)%Z.
Proof.
  intros Hd. pose proof (Z.div_mod num den) as Hdm. pose proof (Z.mod_pos_bound num den Hd) as Hb.
  unfold round_half_even. set (q := (num / den)%Z) in *. set (r := (num mod den)%Z) in *.
  destruct (Z.compare_spec (2 * r) den); [destruct (Z.even q)|..]; lia.
Qed.

(** ** Rounding integers *)

Lemma shr_1_nonneg m : (0 <= shr_m m)%Z -> (0 <= shr_m (shr_1 m))%Z.
Proof. destruct m as [[|[p|p|]|p] r s]; cbn; lia. Qed.

Lemma shr_nonneg mrs e n : (0 <= shr_m mrs)%Z -> (0 <= shr_m (shr mrs e n).1)%Z.
Proof.
  intros Hm. destruct n as [|p|p]; try done. cbn. revert mrs Hm.
  induction p as [p IH|p IH|]; intros mrs Hm; cbn; auto using shr_1_nonneg.
Qed.

Lemma shr_fexp_nonneg m e l : (0 <= m)%Z -> (0 <= shr_m (shr_fexp 53 1024 m e l).1)%Z.
Proof. intros Hm. apply shr_nonneg. by destruct l as [|[]]. Qed.

(** Rounding an integer gives a number: zero, a finite one or an infinity. *)
Lemma int_as_f64_not_nan n : is_nan (int_as_f64 n) = false.
Proof.
  assert (forall sx p e, is_nan (binary_round 53 1024 sx p e) = false) as Hr.
  { intros sx p e. unfold binary_round. destruct (shl_align p e _) as [mz ez].
    unfold binary_round_aux.
    pose proof (shr_fexp_nonneg (Zpos mz) ez loc_Exact ltac:(done)) as H1.
    destruct (shr_fexp 53 1024 (Zpos mz) ez loc_Exact) as [mrs e1]. cbn [fst] in H1.
    assert (0 <= round_nearest_even (shr_m mrs) (loc_of_shr_record mrs))%Z as H2.
    { unfold round_nearest_even. destruct (loc_of_shr_record mrs) as [|[]]; repeat case_match; lia. }
    pose proof (shr_fexp_nonneg _ e1 loc_Exact H2) as H3.
    destruct (shr_fexp 53 1024 _ e1 loc_Exact) as [mrs2 e2]. cbn [fst] in H3.
    destruct (shr_m mrs2) as [|q|q]; [done| |lia]. by destruct (e2 <=? _)%Z. }
  unfold int_as_f64, binary_normalize. by destruct n.
Qed.

(** ** Decimal numbers and their digits *)

(** [char::to_digit]. *)
Definition to_digit (radix : Z) (c : ascii) : option Z :=
  let n := Z.of_N (N_of_ascii c) in
  let v := if (48 <=? n)%Z && (n <=? 57)%Z then Some (n - 48)%Z
           else if (97 <=? n)%Z && (n <=? 122)%Z then Some (n - 87)%Z
           else if (65 <=? n)%Z && (n <=? 90)%Z then Some (n - 55)%Z
           else None in
  match v with
  | Some d => if (d <? radix)%Z then Some d else None
  | None => None
  end.

(** Unbounded decimal numbers: the value of a digit string. *)
Fixpoint dec_value (acc : Z) (s : string) : Z :=
  match s with
  | "" => acc
  | String c s' => dec_value (acc * 10 + default 0 (to_digit 10 c)) s'
  end%Z.

Lemma to_digit_nonneg c : (0 <= default 0 (to_digit 10 c))%Z.
Proof. destruct c as [[] [] [] [] [] [] [] []]; vm_compute; discriminate. Qed.

Lemma dec_value_ge s acc : (0 <= acc)%Z -> (acc <= dec_value acc s)%Z.
Proof.
  revert acc; induction s as [|c s IH]; intros acc Ha; cbn; [lia|].
  pose proof (to_digit_nonneg c) as Hd.
  set (d := default 0%Z (to_digit 10 c)) in *. specialize (IH (acc * 10 + d)%Z ltac:(lia)). lia.
Qed.

Lemma pretty_char_value x : (x < 10)%N ->
  is_ascii_digit (pretty_N_char x) = true /\ default 0%Z (to_digit 10 (pretty_N_char x)) = Z.of_N x.
Proof.
  intros Hx. assert (x = 0 \/ x = 1 \/ x = 2 \/ x = 3 \/ x = 4 \/ x = 5 \/ x = 6 \/ x = 7 \/ x = 8 \/ x = 9)%N
    as Hc by lia. repeat destruct Hc as [->|Hc]; [by split..|subst; by split].
Qed.

Lemma pretty_go_value x s :
  str_all is_ascii_digit s = true ->
  str_all is_ascii_digit (pretty_N_go x s) = true /\
  dec_value 0 (pretty_N_go x s) = dec_value (Z.of_N x) s /\
  String.length s <= String.length (pretty_N_go x s).
Proof.
  revert s. induction (N.lt_wf_0 x) as [x _ IH]; intros s Hs.
  destruct (decide (x = 0%N)) as [->|Hx]; [by rewrite pretty_N_go_0|].
  rewrite pretty_N_go_step by lia.
  destruct (pretty_char_value (x mod 10)) as [Hc Hv]; [by apply N.mod_lt|].
  destruct (IH (x / 10)%N) with (s := String (pretty_N_char (x mod 10)) s) as (Hd & Hdv & Hl).
  { apply N.div_lt; lia. }
  { cbn [str_all]. by rewrite Hc, Hs. }
  split_and!; [done| |cbn [String.length] in Hl; lia]. rewrite Hdv. cbn [dec_value]. rewrite Hv. f_equal.
  pose proof (N.div_mod x 10 ltac:(done)). lia.
Qed.

Lemma fmt_uint_value n :
  (0 <= n)%Z -> str_all is_ascii_digit (fmt_uint n) = true /\
  dec_value 0 (fmt_uint n) = n /\ 0 < String.length (fmt_uint n).
Proof.
  intros Hn. unfold fmt_uint, pretty, pretty_N. case_decide as Hz.
  - assert (n = 0%Z) as -> by lia. cbn. split_and!; [done..|lia].
  - destruct (pretty_go_value (Z.to_N n) "" eq_refl) as (Hd & Hv & _).
    cbn [dec_value] in Hv. rewrite Z2N.id in Hv by done. split_and!; [done..|].
    destruct (pretty_N_go (Z.to_N n) ""); cbn in *; lia.
Qed.
