(* ===== verification/Codecs.v ===== *)
(** * The text codecs the sources call: the [hex] and [base64] crates

    Both crates are third-party, so their functions are operations of a type
    class and what their documentation promises is a second class of laws; the
    rest of the development is proved against those two classes. The modules
    [RefHex] and [RefBase64] are executable instances that discharge the laws
    and on which concrete inputs are evaluated. *)

From Stdlib Require Import Ascii.
From S2P Require Import Prelude RustStd.

#[local] Ltac Zify.zify_post_hook ::= Z.to_euclidean_division_equations.

(** ** The texts of RFC 4648 *)

Module Rfc4648.

(** Section 8, with lower-case digits. *)
Definition digit (n : N) : ascii :=
  if (n <? 10)%N then ascii_of_N (48 + n) else ascii_of_N (87 + n).

Fixpoint base16 (bs : list u8) : string :=
  match bs with
  | [] => ""
  | b :: bs' =>
      let n := Byte.to_N b in
      String (digit (n / 16)) (String (digit (n mod 16)) (base16 bs'))
  end.

(** The alphabet of section 5, and its unpadded text. *)
Definition sextet_char (n : N) : ascii :=
  if (n <? 26)%N then ascii_of_N (65 + n)
  else if (n <? 52)%N then ascii_of_N (71 + n)
  else if (n <? 62)%N then ascii_of_N (n - 4)
  else if (n =? 62)%N then "-" else "_".

Fixpoint to_sextets (l : list N) : list N :=
  match l with
  | [] => []
  | [a] => [a / 4; a mod 4 * 16]
  | [a; b] => [a / 4; a mod 4 * 16 + b / 16; b mod 16 * 4]
  | a :: b :: c :: l' =>
      a / 4 :: a mod 4 * 16 + b / 16 :: b mod 16 * 4 + c / 64 :: c mod 64 :: to_sextets l'
  end%N.

Fixpoint sextets_str (l : list N) : string :=
  match l with
  | [] => ""
  | n :: l' => String (sextet_char n) (sextets_str l')
  end.

Definition base64url (b : list u8) : string := sextets_str (to_sextets (Byte.to_N <$> b)).

End Rfc4648.

(** ** [hex] *)

(** [hex::FromHexError]. *)
Inductive FromHexError :=
| InvalidHexCharacter (index : nat)
| OddLength
| InvalidStringLength.

Class HexCrate := {
  hex_encode : list u8 -> string;
  hex_decode : string -> result (list u8) FromHexError;
  (** [hex::decode_to_slice(s, &mut out)] with [out.len() = n]: the contents
      of [out] on success. *)
  hex_decode_to_slice : string -> nat -> result (list u8) FromHexError;
}.

Definition is_lower_hex (c : ascii) : bool :=
  let n := nat_of_ascii c in ((48 <=? n) && (n <=? 57)) || ((97 <=? n) && (n <=? 102)).

Definition is_hex_digit (c : ascii) : bool :=
  let n := nat_of_ascii c in is_lower_hex c || ((65 <=? n) && (n <=? 70)).

(** What the crate documents: two lowercase digits per byte; decoding accepts
    upper and lower case, and rejects odd lengths and non-digits. *)
Class HexLaws `{HexCrate} : Prop := {
  hex_encode_text bs : hex_encode bs = Rfc4648.base16 bs;
  hex_decode_encode bs : hex_decode (hex_encode bs) = Ok bs;
  hex_decode_accepts s :
    is_ok (hex_decode s) = true <->
    Nat.even (String.length s) = true /\ str_all is_hex_digit s = true;
  hex_encode_decode s bs :
    hex_decode s = Ok bs -> hex_encode bs = to_ascii_lowercase s;
  hex_decode_to_slice_ok s n bs :
    hex_decode_to_slice s n = Ok bs <-> hex_decode s = Ok bs /\ length bs = n;
}.

(** ** [base64] *)

Class Base64Crate := {
  (** [URL_SAFE_NO_PAD.encode], [URL_SAFE_NO_PAD.decode], [URL_SAFE.decode];
      a decode error carries its [Display] text. *)
  no_pad_encode : list u8 -> string;
  no_pad_decode : string -> result (list u8) string;
  url_safe_decode : string -> result (list u8) string;
}.

Definition is_base64url (c : ascii) : bool :=
  let n := nat_of_ascii c in
  ((65 <=? n) && (n <=? 90)) || ((97 <=? n) && (n <=? 122)) ||
  ((48 <=? n) && (n <=? 57)) || (n =? 45) || (n =? 95).

(** The canonical padding of an unpadded text. *)
Definition base64_pad (s : string) : string :=
  match String.length s mod 4 with
  | 2 => "=="
  | 3 => "="
  | _ => ""
  end.

(** The engines' documented defaults: [URL_SAFE_NO_PAD] produces and requires the
    unpadded text, [URL_SAFE] requires canonical padding, and neither accepts
    non-zero trailing bits, so each text decodes from one encoding only. *)
Class Base64Laws `{Base64Crate} : Prop := {
  no_pad_encode_text b : no_pad_encode b = Rfc4648.base64url b;
  no_pad_decode_encode b : no_pad_decode (no_pad_encode b) = Ok b;
  no_pad_decode_canonical s b : no_pad_decode s = Ok b -> s = no_pad_encode b;
  url_safe_decode_ok s b :
    url_safe_decode s = Ok b <->
    s = no_pad_encode b +:+ base64_pad (no_pad_encode b);
}.

(** ** Bytes as numbers *)

Definition byte_of_N (n : N) : u8 := default Byte.x00 (Byte.of_N n).

Lemma byte_to_N_lt b : (Byte.to_N b < 256)%N.
Proof. pose proof (Byte.to_N_bounded b). lia. Qed.

Lemma byte_of_to_N b : byte_of_N (Byte.to_N b) = b.
Proof. unfold byte_of_N. by rewrite Byte.of_to_N. Qed.

Lemma byte_to_of_N n : (n < 256)%N -> Byte.to_N (byte_of_N n) = n.
Proof.
  intros Hn. unfold byte_of_N. destruct (Byte.of_N n) as [b|] eqn:E; cbn.
  - by apply Byte.to_of_N.
  - apply Byte.of_N_None_iff in E. lia.
Qed.

(** ** Reference hex *)

Module RefHex.
Import Rfc4648.

Definition digit_val (c : ascii) : option N :=
  let n := N_of_ascii c in
  if (48 <=? n)%N && (n <=? 57)%N then Some (n - 48)%N
  else if (97 <=? n)%N && (n <=? 102)%N then Some (n - 87)%N
  else if (65 <=? n)%N && (n <=? 70)%N then Some (n - 55)%N
  else None.

Fixpoint decode_from (i : nat) (s : string) : result (list u8) FromHexError :=
  match s with
  | "" => Ok []
  | String _ "" => Err OddLength
  | String a (String b s') =>
      let? h := ok_or (InvalidHexCharacter i) (digit_val a) in
      let? l := ok_or (InvalidHexCharacter (S i)) (digit_val b) in
      map_ok (cons (byte_of_N (16 * h + l))) (decode_from (S (S i)) s')
  end.

Definition decode (s : string) : result (list u8) FromHexError :=
  if Nat.even (String.length s) then decode_from 0 s else Err OddLength.

Definition decode_to_slice (s : string) (n : nat) : result (list u8) FromHexError :=
  let? bs := decode s in
  if decide (length bs = n) then Ok bs else Err InvalidStringLength.

#[export] Instance crate : HexCrate := {|
  hex_encode := base16; hex_decode := decode; hex_decode_to_slice := decode_to_slice |}.

Lemma digit_bytes b :
  let n := Byte.to_N b in
  digit_val (digit (n / 16)) = Some (n / 16)%N /\
  digit_val (digit (n mod 16)) = Some (n mod 16)%N /\
  is_lower_hex (digit (n / 16)) = true /\ is_lower_hex (digit (n mod 16)) = true.
Proof. destruct b; repeat split; reflexivity. Qed.

Lemma digit_val_spec c :
  match digit_val c with
  | Some h => is_hex_digit c = true /\ digit h = to_ascii_lowercase_char c /\ (h < 16)%N
  | None => is_hex_digit c = false
  end.
Proof. destruct c as [[] [] [] [] [] [] [] []]; cbn; repeat split; done. Qed.

(** Induction over a text two characters at a time. *)
Lemma string_ind2 (P : string -> Prop) :
  P "" -> (forall a, P (String a "")) ->
  (forall a b s, P s -> P (String a (String b s))) -> forall s, P s.
Proof.
  intros H0 H1 H2. fix IH 1. intros [|a [|b s]]; [done|apply H1|apply H2, IH].
Qed.

Lemma decode_from_encode i bs : decode_from i (base16 bs) = Ok bs.
Proof.
  revert i; induction bs as [|b bs IH]; intros i; cbn -[N.div N.modulo]; [done|].
  destruct (digit_bytes b) as (-> & -> & _ & _). cbn -[N.div N.modulo N.mul].
  rewrite IH; cbn -[N.div N.modulo N.mul].
  rewrite <- N.div_mod by done. by rewrite byte_of_to_N.
Qed.

Lemma encode_length bs : String.length (base16 bs) = 2 * length bs.
Proof. induction bs as [|b bs IH]; cbn -[N.div N.modulo]; lia. Qed.

Lemma decode_from_spec i s :
  Nat.even (String.length s) = true ->
  match decode_from i s with
  | Ok bs => str_all is_hex_digit s = true /\ base16 bs = to_ascii_lowercase s
  | Err _ => str_all is_hex_digit s = false
  end.
Proof.
  revert i; induction s as [|a|a b s IH] using string_ind2; intros i Hev;
    cbn -[N.mul]; [done|done|].
  pose proof (digit_val_spec a) as Ha. pose proof (digit_val_spec b) as Hb.
  destruct (digit_val a) as [h|]; cbn -[N.mul]; [|by rewrite Ha].
  destruct Ha as (Ha & Ea & Lh).
  destruct (digit_val b) as [l|]; cbn -[N.mul]; [|by rewrite Hb, andb_false_r].
  destruct Hb as (Hb & Eb & Ll).
  specialize (IH (S (S i)) Hev). rewrite Ha, Hb.
  destruct (decode_from _ s) as [bs|]; cbn -[N.mul N.div N.modulo]; [|done].
  destruct IH as [Hs Es]. split; [done|].
  rewrite byte_to_of_N by lia.
  replace ((16 * h + l) / 16)%N with h by lia.
  replace ((16 * h + l) mod 16)%N with l by lia.
  by rewrite Ea, Eb, Es.
Qed.

#[export] Instance laws : HexLaws.
Proof.
  split; cbn [hex_encode hex_decode hex_decode_to_slice crate].
  - done.
  - intros bs. unfold decode. rewrite encode_length.
    replace (Nat.even (2 * length bs)) with true; [apply decode_from_encode|].
    symmetry. apply Nat.even_spec. by exists (length bs).
  - intros s. unfold decode. destruct (Nat.even _) eqn:E; [|naive_solver].
    pose proof (decode_from_spec 0 s E). destruct (decode_from 0 s); cbn; naive_solver.
  - intros s bs. unfold decode. destruct (Nat.even _) eqn:E; [|done].
    pose proof (decode_from_spec 0 s E). destruct (decode_from 0 s); naive_solver.
  - intros s n bs. unfold decode_to_slice. rewrite rbind_ok.
    split; [intros (t & Ht & H)|intros [-> <-]].
    + case_decide; naive_solver.
    + eexists; split; [done|]. by rewrite decide_True.
Qed.

End RefHex.

(** ** Reference base64url *)

Module RefBase64.
Import Rfc4648.

Definition char_sextet (c : ascii) : option N :=
  let n := N_of_ascii c in
  if (65 <=? n)%N && (n <=? 90)%N then Some (n - 65)%N
  else if (97 <=? n)%N && (n <=? 122)%N then Some (n - 71)%N
  else if (48 <=? n)%N && (n <=? 57)%N then Some (n + 4)%N
  else if (n =? 45)%N then Some 62%N
  else if (n =? 95)%N then Some 63%N
  else None.

Fixpoint from_sextets (l : list N) : option (list N) :=
  match l with
  | [] => Some []
  | [_] => None
  | [s; t] => if (t mod 16 =? 0)%N then Some [s * 4 + t / 16]%N else None
  | [s; t; u] =>
      if (u mod 4 =? 0)%N then Some [s * 4 + t / 16; t mod 16 * 16 + u / 4]%N else None
  | s :: t :: u :: v :: l' =>
      match from_sextets l' with
      | Some r => Some (s * 4 + t / 16 :: t mod 16 * 16 + u / 4 :: u mod 4 * 64 + v :: r)%N
      | None => None
      end
  end.

Fixpoint str_sextets (s : string) : option (list N) :=
  match s with
  | "" => Some []
  | String c s' =>
      match char_sextet c, str_sextets s' with
      | Some n, Some l => Some (n :: l)
      | _, _ => None
      end
  end.

Definition decode (s : string) : result (list u8) string :=
  match str_sextets s with
  | None => Err "Invalid symbol"
  | Some l =>
      match from_sextets l with
      | None => Err "Invalid length or trailing bits"
      | Some ns => Ok (byte_of_N <$> ns)
      end
  end.

(** The text before the first padding character. *)
Fixpoint body (s : string) : string :=
  match s with
  | "" => ""
  | String c s' => if Ascii.eqb c "=" then "" else String c (body s')
  end.

Definition decode_padded (s : string) : result (list u8) string :=
  if decide (s = body s +:+ base64_pad (body s)) then decode (body s)
  else Err "Invalid padding".

#[export] Instance crate : Base64Crate := {|
  no_pad_encode := base64url; no_pad_decode := decode; url_safe_decode := decode_padded |}.

Lemma sextet_char_spec n :
  (n < 64)%N -> char_sextet (sextet_char n) = Some n /\
  is_base64url (sextet_char n) = true.
Proof.
  intros Hn.
  assert (n ∈ (N.of_nat <$> seq 0 64)) as Hin.
  { apply list_elem_of_fmap. exists (N.to_nat n). rewrite elem_of_seq. lia. }
  assert (Forall (fun m => char_sextet (sextet_char m) = Some m /\
                           is_base64url (sextet_char m) = true) (N.of_nat <$> seq 0 64))
    as HF by (cbn; repeat (apply Forall_cons_2; [by split|]); apply Forall_nil; done).
  rewrite Forall_forall in HF. exact (HF n Hin).
Qed.

Lemma char_sextet_spec c n :
  char_sextet c = Some n -> sextet_char n = c /\ (n < 64)%N.
Proof.
  destruct c as [[] [] [] [] [] [] [] []]; cbn; intros [= <-]; split; done.
Qed.

Lemma list_ind3 {A} (P : list A -> Prop) :
  P [] -> (forall a, P [a]) -> (forall a b, P [a; b]) ->
  (forall a b c l, P l -> P (a :: b :: c :: l)) -> forall l, P l.
Proof.
  intros H0 H1 H2 H3. fix IH 1. intros [|a [|b [|c l]]]; [done|apply H1|apply H2|apply H3, IH].
Qed.

Lemma list_ind4 {A} (P : list A -> Prop) :
  P [] -> (forall a, P [a]) -> (forall a b, P [a; b]) -> (forall a b c, P [a; b; c]) ->
  (forall a b c d l, P l -> P (a :: b :: c :: d :: l)) -> forall l, P l.
Proof.
  intros H0 H1 H2 H3 H4. fix IH 1.
  intros [|a [|b [|c [|d l]]]]; [done|apply H1|apply H2|apply H3|apply H4, IH].
Qed.

Ltac split_forall :=
  repeat match goal with
  | H : Forall _ (_ :: _) |- _ => apply Forall_cons in H as [? H]
  end; repeat apply Forall_cons_2.

Lemma to_sextets_lt l :
  Forall (fun n => n < 256)%N l -> Forall (fun n => n < 64)%N (to_sextets l).
Proof.
  induction l as [|a|a b|a b c l IH] using list_ind3; intros H; cbn -[N.div N.modulo N.mul];
    split_forall; auto; lia.
Qed.

Lemma from_to_sextets l :
  Forall (fun n => n < 256)%N l -> from_sextets (to_sextets l) = Some l.
Proof.
  induction l as [|a|a b|a b c l IH] using list_ind3; intros H;
    cbn -[N.div N.modulo N.mul N.eqb]; split_forall; [done|..].
  - rewrite (proj2 (N.eqb_eq _ 0)) by lia. repeat f_equal; lia.
  - rewrite (proj2 (N.eqb_eq _ 0)) by lia. repeat f_equal; lia.
  - rewrite IH by done. repeat f_equal; lia.
Qed.

Lemma to_from_sextets l r :
  Forall (fun n => n < 64)%N l -> from_sextets l = Some r ->
  to_sextets r = l /\ Forall (fun n => n < 256)%N r.
Proof.
  revert r; induction l as [|s|s t|s t u|s t u v l IH] using list_ind4; intros r H;
    cbn -[N.div N.modulo N.mul N.eqb N.add]; intros E; split_forall; try discriminate E.
  - by injection E as <-.
  - destruct (N.eqb_spec (t mod 16) 0); [injection E as <-|done].
    split; [cbn -[N.div N.modulo N.mul N.add]; repeat f_equal; lia|].
    repeat constructor; lia.
  - destruct (N.eqb_spec (u mod 4) 0); [injection E as <-|done].
    split; [cbn -[N.div N.modulo N.mul N.add]; repeat f_equal; lia|].
    repeat constructor; lia.
  - destruct (from_sextets l) as [r'|] eqn:E'; [injection E as <-|done].
    destruct (IH r') as [<- Hr]; [done..|].
    split; [cbn -[N.div N.modulo N.mul N.add]; repeat f_equal; lia|].
    repeat (constructor; [lia|]). done.
Qed.

Lemma str_sextets_str l :
  Forall (fun n => n < 64)%N l -> str_sextets (sextets_str l) = Some l.
Proof.
  induction 1 as [|n l Hn Hl IH]; cbn; [done|].
  destruct (sextet_char_spec n Hn) as [-> _]. by rewrite IH.
Qed.

Lemma sextets_str_sextets s l :
  str_sextets s = Some l -> sextets_str l = s /\ Forall (fun n => n < 64)%N l.
Proof.
  revert l; induction s as [|c s IH]; intros l; cbn.
  { intros [= <-]. by split. }
  destruct (char_sextet c) as [n|] eqn:Ec; [|done].
  destruct (str_sextets s) as [l'|]; [|done]. intros [= <-].
  apply char_sextet_spec in Ec as [<- Hn]. destruct (IH l' eq_refl) as [<- Hl].
  split; [done|by constructor].
Qed.

Lemma bytes_lt b : Forall (fun n => n < 256)%N (Byte.to_N <$> b).
Proof. apply Forall_fmap, Forall_true. intros x. apply byte_to_N_lt. Qed.

Lemma decode_encode b : decode (base64url b) = Ok b.
Proof.
  pose proof (bytes_lt b) as Hb. unfold decode, base64url.
  rewrite str_sextets_str by (by apply to_sextets_lt).
  rewrite from_to_sextets by done. f_equal. rewrite <- list_fmap_compose.
  rewrite <- (list_fmap_id b) at 2. apply list_fmap_ext. intros i x _. apply byte_of_to_N.
Qed.

Lemma encode_decode s b : decode s = Ok b -> s = base64url b.
Proof.
  unfold decode, base64url. destruct (str_sextets s) as [l|] eqn:Es; [|done].
  destruct (from_sextets l) as [r|] eqn:El; [|done]. intros [= <-].
  apply sextets_str_sextets in Es as [<- Hl].
  destruct (to_from_sextets l r Hl El) as [<- Hr]. f_equal. f_equal.
  rewrite <- list_fmap_compose. rewrite <- (list_fmap_id r) at 1.
  apply list_fmap_ext. intros i x Hx. cbn. symmetry. apply byte_to_of_N.
  eapply Forall_lookup_1 in Hr; eauto.
Qed.

Lemma encode_alphabet b : str_all is_base64url (base64url b) = true.
Proof.
  unfold base64url. pose proof (to_sextets_lt _ (bytes_lt b)) as H. revert H.
  generalize (to_sextets (Byte.to_N <$> b)). induction 1 as [|n l Hn Hl IH]; cbn; [done|].
  destruct (sextet_char_spec n Hn) as [_ ->]. done.
Qed.

Lemma body_app s p :
  str_all is_base64url s = true -> body (s +:+ String "=" p) = s /\ body s = s.
Proof.
  induction s as [|c s IH]; [done|]. rewrite str_app_cons; cbn.
  rewrite andb_true_iff. intros [Hc Hs].
  assert (Ascii.eqb c "=" = false) as ->
    by (destruct c as [[] [] [] [] [] [] [] []]; done).
  destruct (IH Hs) as [E1 E2]. by rewrite E1, E2.
Qed.

Lemma body_pad s : str_all is_base64url s = true -> body (s +:+ base64_pad s) = s.
Proof.
  intros Hs. unfold base64_pad.
  destruct (_ mod 4) as [|[|[|[|]]]];
    rewrite ?str_app_nil_r; by apply (body_app s "" Hs) || apply (body_app s "=" Hs).
Qed.

#[export] Instance laws : Base64Laws.
Proof.
  split; cbn [no_pad_encode no_pad_decode url_safe_decode crate].
  - done.
  - apply decode_encode.
  - apply encode_decode.
  - intros s b. unfold decode_padded. split.
    + case_decide as E; [|done]. intros Hb%encode_decode. by rewrite <- Hb.
    + intros ->. rewrite body_pad by apply encode_alphabet.
      rewrite decide_True by done. apply decode_encode.
Qed.

(** The vectors of the source's own tests. *)
Example encode_vector :
  base64url [Byte.x01; Byte.x02; Byte.x03; Byte.x04; Byte.x05] = "AQIDBAU".
Proof. reflexivity. Qed.

Example decode_standard_alphabet : is_err (decode "+/==") = true /\ is_err (decode_padded "+/==") = true.
Proof. split; reflexivity. Qed.

End RefBase64.

(** ** What follows from the texts *)

Section Texts.
Import Rfc4648.

Lemma hex_encode_length `{HexLaws} bs : String.length (hex_encode bs) = 2 * length bs.
Proof. rewrite hex_encode_text. apply RefHex.encode_length. Qed.

Lemma hex_encode_lower `{HexLaws} bs : str_all is_lower_hex (hex_encode bs) = true.
Proof.
  rewrite hex_encode_text. induction bs as [|b bs IH]; cbn -[N.div N.modulo]; [done|].
  destruct (RefHex.digit_bytes b) as (_ & _ & -> & ->). done.
Qed.

Lemma hex_encode_app `{HexLaws} bs cs : hex_encode (bs ++ cs) = hex_encode bs +:+ hex_encode cs.
Proof.
  rewrite !hex_encode_text. induction bs as [|b bs IH]; [done|]. cbn -[N.div N.modulo]. by rewrite IH.
Qed.

Lemma no_pad_alphabet `{Base64Laws} b : str_all is_base64url (no_pad_encode b) = true.
Proof. rewrite no_pad_encode_text. apply RefBase64.encode_alphabet. Qed.

End Texts.
