(* ===== verification/Core.v ===== *)
(** * furcate-mesh-core: peer ids, the hybrid logical clock, configuration

    Models crates/furcate-mesh-core/src/lib.rs except the wire forms (Wire.v,
    Event.v). A [PeerId] is 32 bytes with the derived lexicographic order; the
    clock keeps its machine widths ([u64] milliseconds, [u32] counter). *)

From S2P Require Import Prelude RustStd Codecs.

(** ** [[u8; 32]] *)

Record array32 := mk_array32 {
  arr_bytes : list u8;
  arr_len : (length arr_bytes =? 32) = true;
}.

(** [Vec<u8>::try_into::<[u8; 32]>()]. *)
Definition array32_try_from (l : list u8) : option array32 :=
  match decide ((length l =? 32) = true) with
  | left H => Some (mk_array32 l H)
  | right _ => None
  end.

(** The array [[b; 32]]. *)
Definition array32_repeat (b : u8) : array32 := mk_array32 (replicate 32 b) eq_refl.

(** Derived [Ord] on byte arrays: lexicographic. *)
Fixpoint bytes_cmp (a b : list u8) : comparison :=
  match a, b with
  | [], [] => Eq
  | [], _ => Lt
  | _, [] => Gt
  | x :: a', y :: b' => then_with (N.compare (Byte.to_N x) (Byte.to_N y)) (bytes_cmp a' b')
  end.

(** ** [PeerId] *)

Module PeerId.

Record PeerId := from_bytes { as_bytes : array32 }.

Inductive PeerIdError := WrongLength | Malformed.

(** Derived [Ord]. *)
Definition cmp (p q : PeerId) : comparison :=
  bytes_cmp (arr_bytes (as_bytes p)) (arr_bytes (as_bytes q)).

Section Hex.
Context `{HexCrate}.

Definition to_hex (p : PeerId) : string := hex_encode (arr_bytes (as_bytes p)).

(** [hex::encode(&self.0[..3])]. *)
Definition short (p : PeerId) : string := hex_encode (take 3 (arr_bytes (as_bytes p))).

Definition from_hex (s : string) : result PeerId PeerIdError :=
  let? bytes := map_err (fun _ => Malformed) (hex_decode s) in
  let? arr := ok_or WrongLength (array32_try_from bytes) in
  Ok (from_bytes arr).

(** [Debug] and [Display]. *)
Definition fmt_debug (p : PeerId) : string := "PeerId(" +:+ short p +:+ ")".
Definition fmt_display (p : PeerId) : string := to_hex p.

(** [Display] of the error ([thiserror]). *)
Definition fmt_error (e : PeerIdError) : string :=
  match e with
  | WrongLength => "peer id must be 32 bytes (64 hex chars)"
  | Malformed => "peer id is not valid hex"
  end.

End Hex.
End PeerId.

Abbreviation PeerId := PeerId.PeerId.
Abbreviation PeerIdError := PeerId.PeerIdError.

(** ** [HybridLogicalClock] *)

Module Hlc.

Record HybridLogicalClock := mk { wall_ms : Z; counter : Z }.

(** The [u64]/[u32] ranges of the fields. *)
Definition wf (c : HybridLogicalClock) : Prop :=
  (0 <= wall_ms c <= u64_max)%Z /\ (0 <= counter c <= u32_max)%Z.

(** Derived [Ord]: by field, in declaration order. *)
Definition cmp (a b : HybridLogicalClock) : comparison :=
  then_with (Z.compare (wall_ms a) (wall_ms b)) (Z.compare (counter a) (counter b)).

(** [now]: the argument is [SystemTime::now().duration_since(UNIX_EPOCH)] in
    nanoseconds, [None] when the system clock is before the epoch. *)
Definition now (since_epoch : option Z) : HybridLogicalClock :=
  let wall_ms :=
    match since_epoch with
    | None => 0%Z
    | Some d =>
        let ms := (d / 1000000)%Z in
        if in_range u64_max ms then ms else u64_max
    end in
  mk wall_ms 0.

Definition bump_past (self other : HybridLogicalClock) : HybridLogicalClock :=
  let self := match cmp other self with Gt => other | _ => self end in
  mk (wall_ms self) (saturating_add u32_max (counter self) 1).

End Hlc.

Abbreviation HybridLogicalClock := Hlc.HybridLogicalClock.

(** ** [MeshConfig] and [MeshError] *)

Record MeshConfig := mk_MeshConfig {
  heartbeat_interval_secs : Z;
  peer_dead_after_secs : Z;
  max_hops : Z;
  mdns_domain : string;
}.

Definition MeshConfig_default : MeshConfig := {|
  heartbeat_interval_secs := 5;
  peer_dead_after_secs := 30;
  max_hops := 1;
  mdns_domain := "local.";
|}.

Inductive MeshError :=
| MeIdentity (msg : string)
| MeDiscovery (msg : string)
| MeTransport (msg : string)
| MeTransfer (msg : string)
| MeConfig (msg : string)
| MeIo (msg : string)
| MeEncoding (msg : string).

(** ** Lemmas: arrays and their order *)

Lemma array32_ext (a b : array32) : arr_bytes a = arr_bytes b -> a = b.
Proof.
  destruct a as [la Ha], b as [lb Hb]; cbn; intros ->. f_equal.
  apply (Eqdep_dec.UIP_dec Bool.bool_dec).
Qed.

Lemma array32_length (a : array32) : length (arr_bytes a) = 32.
Proof. destruct a as [l Hl]; cbn. by apply Nat.eqb_eq. Qed.

Lemma array32_try_from_ok l a :
  array32_try_from l = Some a <-> arr_bytes a = l.
Proof.
  unfold array32_try_from. split.
  - destruct (decide _); [|done]. by intros [= <-].
  - intros <-. destruct (decide _) as [H|[]]; [|apply arr_len].
    f_equal. by apply array32_ext.
Qed.

Lemma array32_try_from_none l : array32_try_from l = None <-> length l <> 32.
Proof.
  unfold array32_try_from. destruct (decide _) as [Hd|Hd];
    pose proof Hd as Hd'; rewrite Nat.eqb_eq in Hd'; naive_solver.
Qed.

#[global] Instance array32_eq_dec : EqDecision array32.
Proof.
  intros a b. destruct (decide (arr_bytes a = arr_bytes b)) as [E|E].
  - left. by apply array32_ext.
  - right. congruence.
Defined.

#[global] Instance PeerId_eq_dec : EqDecision PeerId.
Proof. solve_decision. Defined.

#[global] Program Instance PeerId_countable : Countable PeerId :=
  inj_countable (fun p => arr_bytes (PeerId.as_bytes p))
    (fun l => PeerId.from_bytes <$> array32_try_from l) _.
Next Obligation.
  intros [a]; cbn. by rewrite (proj2 (array32_try_from_ok _ a) eq_refl).
Qed.

#[global] Instance PeerIdError_eq_dec : EqDecision PeerIdError.
Proof. solve_decision. Defined.

#[global] Instance Hlc_eq_dec : EqDecision HybridLogicalClock.
Proof. solve_decision. Defined.

Lemma bytes_cmp_eq a b : bytes_cmp a b = Eq <-> a = b.
Proof.
  revert b; induction a as [|x a IH]; intros [|y b]; cbn; try (split; done).
  destruct (N.compare_spec (Byte.to_N x) (Byte.to_N y)) as [E|E|E]; cbn.
  - rewrite IH. apply (f_equal byte_of_N) in E. rewrite !byte_of_to_N in E.
    split; [by intros ->; subst|naive_solver].
  - split; [done|]. intros [= -> _]. lia.
  - split; [done|]. intros [= -> _]. lia.
Qed.

Lemma bytes_cmp_antisym a b : bytes_cmp b a = CompOpp (bytes_cmp a b).
Proof.
  revert b; induction a as [|x a IH]; intros [|y b]; cbn; try done.
  rewrite (N.compare_antisym (Byte.to_N x)).
  destruct (N.compare _ _); cbn; [apply IH|done|done].
Qed.

Lemma bytes_cmp_lt_trans a b c :
  bytes_cmp a b = Lt -> bytes_cmp b c = Lt -> bytes_cmp a c = Lt.
Proof.
  revert b c; induction a as [|x a IH]; intros [|y b] [|z c]; cbn; try done.
  destruct (N.compare_spec (Byte.to_N x) (Byte.to_N y)) as [E|E|E];
  destruct (N.compare_spec (Byte.to_N y) (Byte.to_N z)) as [F|F|F]; cbn; try done;
    intros H1 H2.
  - rewrite E, F, N.compare_refl; cbn. eauto.
  - by rewrite (proj2 (N.compare_lt_iff _ _)) by lia.
  - by rewrite (proj2 (N.compare_lt_iff _ _)) by lia.
  - by rewrite (proj2 (N.compare_lt_iff _ _)) by lia.
Qed.

(** The derived order on peer ids is a strict total order. *)
Lemma PeerId_cmp_eq p q : PeerId.cmp p q = Eq <-> p = q.
Proof.
  unfold PeerId.cmp. rewrite bytes_cmp_eq. split; [|by intros ->].
  destruct p, q; cbn. intros E. f_equal. by apply array32_ext.
Qed.

Lemma PeerId_cmp_antisym p q : PeerId.cmp q p = CompOpp (PeerId.cmp p q).
Proof. apply bytes_cmp_antisym. Qed.

Lemma PeerId_cmp_lt_trans p q r :
  PeerId.cmp p q = Lt -> PeerId.cmp q r = Lt -> PeerId.cmp p r = Lt.
Proof. apply bytes_cmp_lt_trans. Qed.

#[export] Hint Resolve PeerId_cmp_lt_trans : furcate.

(** ** Peer ids and hex *)

Section PeerIdHex.
Context `{HexLaws}.

Lemma to_hex_length p : String.length (PeerId.to_hex p) = 64.
Proof. unfold PeerId.to_hex. by rewrite hex_encode_length, array32_length. Qed.

Lemma to_hex_lower p : str_all is_lower_hex (PeerId.to_hex p) = true.
Proof. apply hex_encode_lower. Qed.

Lemma from_hex_inv s p :
  PeerId.from_hex s = Ok p <-> hex_decode s = Ok (arr_bytes (PeerId.as_bytes p)).
Proof.
  unfold PeerId.from_hex. rewrite rbind_ok. setoid_rewrite map_err_ok.
  setoid_rewrite rbind_ok. setoid_rewrite ok_or_ok.
  setoid_rewrite array32_try_from_ok. split.
  - intros (l & Hl & a & <- & [= <-]). done.
  - intros Hl. eexists. split; [exact Hl|]. exists (PeerId.as_bytes p). by destruct p.
Qed.

(** Decoding is injective up to case. *)
Lemma hex_decode_lower_inj s t bs :
  hex_decode s = Ok bs -> hex_decode t = Ok bs -> to_ascii_lowercase s = to_ascii_lowercase t.
Proof. intros Hs%hex_encode_decode Ht%hex_encode_decode. congruence. Qed.

Lemma to_hex_inj p q : PeerId.to_hex p = PeerId.to_hex q -> p = q.
Proof.
  unfold PeerId.to_hex. intros E. apply (f_equal hex_decode) in E.
  rewrite !hex_decode_encode in E. injection E as E.
  destruct p, q; cbn in E. f_equal. by apply array32_ext.
Qed.

Lemma str_all_lowercase s :
  str_all is_lower_hex (to_ascii_lowercase s) = true -> str_all is_hex_digit s = true.
Proof.
  induction s as [|c s IH]; cbn; [done|]. rewrite !andb_true_iff. intros [Hc Hs].
  split; [|by apply IH]. by destruct c as [[] [] [] [] [] [] [] []].
Qed.

Lemma from_hex_ok_lower s p :
  PeerId.from_hex s = Ok p -> to_ascii_lowercase s = PeerId.to_hex p.
Proof. rewrite from_hex_inv. intros Hd. symmetry. by apply hex_encode_decode. Qed.

Lemma from_hex_of_lower s p :
  to_ascii_lowercase s = PeerId.to_hex p -> PeerId.from_hex s = Ok p.
Proof.
  intros E. assert (String.length s = 64) as Hlen.
  { rewrite <- (str_length_map to_ascii_lowercase_char). fold (to_ascii_lowercase s).
    rewrite E. apply to_hex_length. }
  assert (is_ok (hex_decode s) = true) as Hok.
  { apply hex_decode_accepts. rewrite Hlen. split; [done|].
    apply str_all_lowercase. rewrite E. apply to_hex_lower. }
  destruct (hex_decode s) as [bs|] eqn:Hd; [|done].
  apply from_hex_inv. rewrite Hd. f_equal.
  apply hex_encode_decode in Hd. rewrite E in Hd.
  apply (f_equal hex_decode) in Hd. unfold PeerId.to_hex in Hd.
  rewrite !hex_decode_encode in Hd. by injection Hd.
Qed.

(** C25: [PeerId::from_hex] accepts exactly the 64-character hex texts of peer
    ids, in any mix of cases: it returns a peer id iff the lower-cased input is
    that id's [to_hex]. In particular [from_hex(to_hex(p))] is [p], and two ids
    are never read from texts that differ only in case. *)
Theorem from_hex_iff_to_hex s p :
  PeerId.from_hex s = Ok p <-> to_ascii_lowercase s = PeerId.to_hex p.
Proof. split; [apply from_hex_ok_lower | apply from_hex_of_lower]. Qed.

(** The errors of [from_hex]: [Malformed] exactly for odd lengths or
    non-hex characters, [WrongLength] exactly for well-formed hex that is not
    64 characters long. *)
Theorem from_hex_errors s :
  (PeerId.from_hex s = Err PeerId.Malformed <->
     ~ (Nat.even (String.length s) = true /\ str_all is_hex_digit s = true)) /\
  (PeerId.from_hex s = Err PeerId.WrongLength <->
     (Nat.even (String.length s) = true /\ str_all is_hex_digit s = true) /\
     String.length s <> 64).
Proof.
  rewrite <- hex_decode_accepts. unfold PeerId.from_hex.
  destruct (hex_decode s) as [bs|e] eqn:Hd; cbn; [|naive_solver].
  assert (String.length s = 2 * length bs) as Hlen.
  { rewrite <- hex_encode_length, (hex_encode_decode _ _ Hd). symmetry. apply str_length_map. }
  destruct (array32_try_from bs) as [a|] eqn:Ha; cbn.
  - apply array32_try_from_ok in Ha as <-. rewrite array32_length in Hlen.
    naive_solver lia.
  - apply array32_try_from_none in Ha. naive_solver lia.
Qed.

End PeerIdHex.

#[local] Existing Instances RefHex.crate RefHex.laws.

Lemma from_hex_iff_to_hex_witness :
  PeerId.from_hex "ABABABABABABABABABABABABABABABABABABABABABABABABABABABABABABABAB"
  = Ok (PeerId.from_bytes (array32_repeat Byte.xab)).
Proof. apply from_hex_iff_to_hex. vm_compute. reflexivity. Defined.

Lemma from_hex_errors_witness :
  PeerId.from_hex "deadbeef" = Err PeerId.WrongLength /\
  PeerId.from_hex "zz" = Err PeerId.Malformed.
Proof.
  split; apply from_hex_errors.
  - split; [split; reflexivity|]. cbn. lia.
  - intros [_ E]. discriminate E.
Defined.

(** ** The clock *)

Module HlcFacts.
Import Hlc.

Definition lt (a b : HybridLogicalClock) : Prop := cmp a b = Lt.

Lemma lt_spec a b :
  lt a b <-> (wall_ms a < wall_ms b \/ (wall_ms a = wall_ms b /\ counter a < counter b))%Z.
Proof.
  unfold lt, cmp.
  destruct (Z.compare_spec (wall_ms a) (wall_ms b)); cbn;
    rewrite ?Z.compare_lt_iff; intuition (lia || discriminate).
Qed.

Lemma cmp_eq a b : cmp a b = Eq <-> a = b.
Proof.
  destruct a as [wa ca], b as [wb cb]; unfold cmp; cbn.
  destruct (Z.compare_spec wa wb); cbn; rewrite ?Z.compare_eq_iff;
    split; congruence || intros [=]; lia.
Qed.

Lemma cmp_antisym a b : cmp b a = CompOpp (cmp a b).
Proof.
  unfold cmp. rewrite (Z.compare_antisym (wall_ms a)), (Z.compare_antisym (counter a)).
  by destruct (Z.compare (wall_ms a) _).
Qed.

(** The larger of the two clocks, the one [bump_past] continues from. *)
Definition later (a b : HybridLogicalClock) : HybridLogicalClock :=
  match cmp b a with Gt => b | _ => a end.

Lemma bump_past_later a b :
  bump_past a b = mk (wall_ms (later a b)) (saturating_add u32_max (counter (later a b)) 1).
Proof. done. Qed.

Lemma later_cases a b : (later a b = a \/ later a b = b) /\ ~ lt (later a b) a /\ ~ lt (later a b) b.
Proof.
  unfold later, lt. destruct (cmp b a) eqn:E.
  - apply cmp_eq in E as ->. split; [by left|].
    assert (cmp a a = Eq) as -> by by apply cmp_eq. done.
  - split; [by left|]. assert (cmp a a = Eq) as -> by by apply cmp_eq.
    rewrite (cmp_antisym b a), E. done.
  - split; [by right|]. assert (cmp b b = Eq) as -> by by apply cmp_eq.
    by rewrite E.
Qed.

Lemma not_lt_bump c d :
  ~ lt c d -> (counter c < u32_max)%Z ->
  lt d (mk (wall_ms c) (saturating_add u32_max (counter c) 1)).
Proof.
  rewrite !lt_spec; cbn. unfold saturating_add. lia.
Qed.

(** C26: [bump_past] keeps the field ranges, never moves the clock backwards,
    and, unless the later of the two clocks has exhausted its [u32] counter,
    moves it strictly past both the local clock and the observed one. *)
Theorem bump_past_advances self other :
  wf self -> wf other ->
  wf (bump_past self other) /\
  ~ lt (bump_past self other) self /\ ~ lt (bump_past self other) other /\
  ((counter (later self other) < u32_max)%Z ->
   lt self (bump_past self other) /\ lt other (bump_past self other)).
Proof.
  intros Ws Wo. rewrite bump_past_later.
  destruct (later_cases self other) as (Hc & Hs & Ho).
  assert (wf (later self other)) as [Ww Wc] by (destruct Hc as [-> | ->]; done).
  repeat split; cbn; try (unfold saturating_add; lia).
  - revert Hs. rewrite !lt_spec; cbn. unfold saturating_add. lia.
  - revert Ho. rewrite !lt_spec; cbn. unfold saturating_add. lia.
  - by apply not_lt_bump.
  - by apply not_lt_bump.
Qed.

Lemma bump_past_advances_witness :
  lt (mk 200 0) (bump_past (mk 100 0) (mk 200 0)).
Proof.
  apply (bump_past_advances (mk 100 0) (mk 200 0)); repeat split; vm_compute; congruence.
Defined.

(** When the later clock's counter is [u32::MAX], [bump_past] returns that
    clock itself: the saturating increment yields no clock after the observed
    event, so the promise that the next local event sorts after it fails. *)
Theorem bump_past_saturates self other :
  counter (later self other) = u32_max ->
  bump_past self other = later self other /\
  ~ (lt self (bump_past self other) /\ lt other (bump_past self other)).
Proof.
  intros Hc. assert (bump_past self other = later self other) as E.
  { rewrite bump_past_later, Hc. by destruct (later self other); cbn in *; subst. }
  split; [done|]. rewrite E. intros [H1 H2].
  destruct (later_cases self other) as ([Hl|Hl] & _ & _); rewrite Hl in H1, H2.
  - apply lt_spec in H1. lia.
  - apply lt_spec in H2. lia.
Qed.

Lemma bump_past_saturates_witness :
  bump_past (mk 100 0) (mk 200 u32_max) = mk 200 u32_max.
Proof.
  apply (bump_past_saturates (mk 100 0) (mk 200 u32_max)). reflexivity.
Defined.

(** [now] always yields an in-range clock with counter 0: a clock before
    the epoch reads as 0 and a millisecond count beyond [u64] as [u64::MAX]. *)
Theorem now_wf (since_epoch : option Z) :
  (forall d, since_epoch = Some d -> (0 <= d)%Z) ->
  wf (now since_epoch) /\ counter (now since_epoch) = 0%Z /\
  (since_epoch = None -> wall_ms (now since_epoch) = 0%Z) /\
  (forall d, since_epoch = Some d ->
     wall_ms (now since_epoch) = Z.min (d / 1000000) u64_max).
Proof.
  intros Hd. unfold now, wf; cbn.
  unfold u64_max, u32_max.
  destruct since_epoch as [d|]; cbn; [|repeat split; intros; simplify_eq; lia].
  specialize (Hd d eq_refl). pose proof (Z.div_pos d 1000000 Hd ltac:(lia)).
  unfold in_range.
  destruct (Z.leb_spec 0 (d / 1000000)), (Z.leb_spec (d / 1000000) 18446744073709551615);
    cbn; repeat split; intros; simplify_eq; lia.
Qed.

Lemma now_wf_witness : wf (now (Some 1700000000000000000%Z)).
Proof. apply (now_wf (Some 1700000000000000000%Z)). intros d [= <-]. lia. Defined.

End HlcFacts.
