(* ===== verification/Wire.v ===== *)
(** * furcate-mesh-core/src/wire.rs: the field codecs

    The [serde] data model as a tree of [Value]s: what a serializer is driven
    with and what a deserializer offers. [hex_array], [base64url_bytes_bytes]
    and [base64url_bytes_opt] are the functions of the source over that tree;
    the text forms of the tree (JSON, CBOR) belong to other crates. *)

From Stdlib Require Import Ascii.
From S2P Require Import Prelude RustStd Codecs Core.

(** ** The serde data model *)

Inductive Value :=
| VNull
| VBool (b : bool)
| VInt (n : Z)
| VFloat (f : f64)
| VStr (s : string)
| VArr (l : list Value)
| VObj (l : list (string * Value)).

(** [serde::de::Error] constructors. *)
Inductive DeError :=
| InvalidType
| InvalidLength (n : nat)
| InvalidValue (s : string)
| Custom (msg : string)
| MissingField (name : string)
| DuplicateField (name : string)
| UnknownVariant (name : string).

(** Primitive [Deserialize] impls. Integers reject floats and out-of-range
    values; [f64] also accepts integers. *)
Definition de_str (v : Value) : result string DeError :=
  match v with VStr s => Ok s | _ => Err InvalidType end.

Definition de_uint (max : Z) (v : Value) : result Z DeError :=
  match v with
  | VInt n => if in_range max n then Ok n else Err (InvalidValue "integer out of range")
  | _ => Err InvalidType
  end.

Definition de_f64 (v : Value) : result f64 DeError :=
  match v with
  | VFloat f => Ok f
  | VInt n => Ok (int_as_f64 n)
  | _ => Err InvalidType
  end.

Definition de_bool (v : Value) : result bool DeError :=
  match v with VBool b => Ok b | _ => Err InvalidType end.

(** [Option<T>]: null is [None]. *)
Definition de_option {T} (de : Value -> result T DeError) (v : Value)
    : result (option T) DeError :=
  match v with VNull => Ok None | _ => map_ok Some (de v) end.

(** ** [wire::hex_array] *)

Module hex_array.
Section Codec.
Context `{HexCrate}.

Definition serialize (bytes : array32) : Value := VStr (hex_encode (arr_bytes bytes)).

Definition fmt_hex_error (e : FromHexError) : string :=
  match e with
  | InvalidHexCharacter i => "Invalid character at position " +:+ fmt_uint (Z.of_nat i)
  | OddLength => "Odd number of digits"
  | InvalidStringLength => "Invalid string length"
  end.

(** The [out] array has 32 bytes before and after [decode_to_slice], so the
    conversion back to an array cannot fail. *)
Definition deserialize (d : Value) : result array32 DeError :=
  let? s := de_str d in
  if decide (String.length s <> 64) then Err (InvalidLength (String.length s))
  else if str_any is_ascii_uppercase s then Err (InvalidValue s)
  else
    let? out := map_err (fun e => Custom (fmt_hex_error e)) (hex_decode_to_slice s 32) in
    ok_or (InvalidLength (length out)) (array32_try_from out).

End Codec.
End hex_array.

(** ** [wire::base64url_bytes_bytes] *)

Module base64url_bytes_bytes.
Section Codec.
Context `{Base64Crate}.

Definition serialize (bytes : list u8) : Value := VStr (no_pad_encode bytes).

Definition deserialize (d : Value) : result (list u8) DeError :=
  let? s := de_str d in
  map_err Custom (or_else (no_pad_decode s) (fun _ => url_safe_decode s)).

End Codec.
End base64url_bytes_bytes.

(** ** [wire::base64url_bytes_opt] *)

Module base64url_bytes_opt.
Section Codec.
Context `{Base64Crate}.

Definition serialize (value : option (list u8)) : Value :=
  match value with
  | Some b => VStr (no_pad_encode b)
  | None => VNull
  end.

Definition deserialize (d : Value) : result (option (list u8)) DeError :=
  let? opt := de_option de_str d in
  match opt with
  | None => Ok None
  | Some s =>
      map_ok Some (map_err Custom (or_else (no_pad_decode s) (fun _ => url_safe_decode s)))
  end.

End Codec.
End base64url_bytes_opt.

(** ** Facts *)

Section HexArray.
Context `{HexLaws}.

Lemma lower_hex_not_upper s :
  str_all is_lower_hex s = true -> str_any is_ascii_uppercase s = false.
Proof.
  intros Hs. rewrite str_any_negb_all, negb_false_iff. revert Hs. apply str_all_impl.
  by intros [[] [] [] [] [] [] [] []].
Qed.

Lemma hex_array_roundtrip a : hex_array.deserialize (hex_array.serialize a) = Ok a.
Proof.
  unfold hex_array.deserialize, hex_array.serialize; cbn.
  rewrite hex_encode_length, array32_length, decide_False by (intros []; done).
  rewrite lower_hex_not_upper by apply hex_encode_lower.
  rewrite (proj2 (hex_decode_to_slice_ok _ 32 (arr_bytes a)));
    [|by rewrite hex_decode_encode, array32_length]; cbn.
  by rewrite (proj2 (array32_try_from_ok _ a) eq_refl).
Qed.

Lemma hex_array_canonical v a :
  hex_array.deserialize v = Ok a -> v = hex_array.serialize a.
Proof.
  unfold hex_array.deserialize, hex_array.serialize.
  destruct v as [| | | |s| |]; cbn; try done.
  case_decide; [done|]. destruct (str_any _ s) eqn:Hu; [done|].
  intros E. inv_ok. apply array32_try_from_ok in Heqo as <-.
  match goal with
  | Hd : hex_decode_to_slice _ _ = Ok _ |- _ => apply hex_decode_to_slice_ok in Hd as [Hd _]
  end.
  f_equal. symmetry. erewrite hex_encode_decode by eassumption.
  by apply to_ascii_lowercase_fixed.
Qed.

(** The wire form of a 32-byte value is canonical: [hex_array::deserialize]
    accepts a value exactly when it is the one [hex_array::serialize] writes for
    the array it returns. So it rejects upper case, other lengths and non-hex
    text, and two implementations never exchange different texts for one id. *)
Theorem hex_array_bijective v a :
  hex_array.deserialize v = Ok a <-> v = hex_array.serialize a.
Proof. split; [apply hex_array_canonical | intros ->; apply hex_array_roundtrip]. Qed.

End HexArray.

Section Base64.
Context `{Base64Laws}.

Lemma no_pad_has_no_padding b : str_all (fun c => negb (Ascii.eqb c "="%char)) (no_pad_encode b) = true.
Proof.
  generalize (no_pad_alphabet b). apply str_all_impl.
  by intros [[] [] [] [] [] [] [] []].
Qed.

(** Either engine accepts a text exactly when it is the canonical unpadded
    encoding, or that encoding with its canonical padding. *)
Lemma decode_either_ok s b :
  or_else (no_pad_decode s) (fun _ => url_safe_decode s) = Ok b <->
  s = no_pad_encode b \/ s = no_pad_encode b +:+ base64_pad (no_pad_encode b).
Proof.
  destruct (no_pad_decode s) as [b'|e] eqn:Hd; cbn.
  - apply no_pad_decode_canonical in Hd as ->. split.
    + intros [= ->]. by left.
    + intros [E|E].
      * apply (f_equal no_pad_decode) in E. by rewrite !no_pad_decode_encode in E.
      * (* the padded text is itself unpadded only when there is nothing to pad *)
        unfold base64_pad in E.
        destruct (_ mod 4) as [|[|[|[|]]]] in E; rewrite ?str_app_nil_r in E;
          try (apply (f_equal no_pad_decode) in E; by rewrite !no_pad_decode_encode in E);
          pose proof (no_pad_has_no_padding b') as Hn; rewrite E, str_all_app, andb_false_r in Hn;
          done.
  - rewrite url_safe_decode_ok. split; [by right|].
    intros [->|E]; [|done]. by rewrite no_pad_decode_encode in Hd.
Qed.

Lemma base64_roundtrip b :
  base64url_bytes_bytes.deserialize (base64url_bytes_bytes.serialize b) = Ok b.
Proof.
  unfold base64url_bytes_bytes.deserialize, base64url_bytes_bytes.serialize; cbn.
  apply map_err_ok, decode_either_ok. by left.
Qed.

(** [base64url_bytes_bytes]: a value decodes to [b] exactly when it is the
    unpadded base64url string that [serialize] writes for [b], or that string
    with its canonical [=] padding. *)
Theorem base64url_accepts v b :
  base64url_bytes_bytes.deserialize v = Ok b <->
  v = base64url_bytes_bytes.serialize b \/
  v = VStr (no_pad_encode b +:+ base64_pad (no_pad_encode b)).
Proof.
  unfold base64url_bytes_bytes.deserialize, base64url_bytes_bytes.serialize.
  destruct v as [| | | |s| |]; cbn; try (split; [done|naive_solver]).
  rewrite map_err_ok, decode_either_ok. naive_solver.
Qed.

Lemma base64_opt_roundtrip o :
  base64url_bytes_opt.deserialize (base64url_bytes_opt.serialize o) = Ok o.
Proof.
  unfold base64url_bytes_opt.deserialize. destruct o as [b'|]; cbn; [|done].
  by rewrite (proj2 (decode_either_ok _ b')) by (by left).
Qed.

(** [base64url_bytes_opt] round-trips every option, reads [null] as [None],
    and reads a present value exactly as [base64url_bytes_bytes] does. *)
Theorem base64url_opt_roundtrip o v b :
  base64url_bytes_opt.deserialize (base64url_bytes_opt.serialize o) = Ok o /\
  (base64url_bytes_opt.deserialize v = Ok None <-> v = VNull) /\
  (base64url_bytes_opt.deserialize v = Ok (Some b) <->
   base64url_bytes_bytes.deserialize v = Ok b).
Proof.
  split; [apply base64_opt_roundtrip|].
  unfold base64url_bytes_opt.deserialize, base64url_bytes_bytes.deserialize.
  destruct v as [| | | |s| |]; cbn; try (split; split; naive_solver).
  destruct (or_else _ _); cbn; split; split; naive_solver.
Qed.

End Base64.

#[local] Existing Instances RefHex.crate RefHex.laws RefBase64.crate RefBase64.laws.

Lemma hex_array_bijective_witness :
  hex_array.deserialize (VStr "ABABABABABABABABABABABABABABABABABABABABABABABABABABABABABABABAB")
  <> Ok (array32_repeat Byte.xab) /\
  hex_array.deserialize (VStr "abababababababababababababababababababababababababababababababab")
  = Ok (array32_repeat Byte.xab).
Proof.
  split; [intros E; apply (hex_array_bijective _ (array32_repeat Byte.xab)) in E; discriminate E|].
  apply (hex_array_bijective _ (array32_repeat Byte.xab)). reflexivity.
Defined.

Definition five_bytes : list u8 := [Byte.x01; Byte.x02; Byte.x03; Byte.x04; Byte.x05].

Lemma base64url_accepts_witness :
  base64url_bytes_bytes.deserialize (VStr "AQIDBAU") = Ok five_bytes /\
  base64url_bytes_bytes.deserialize (VStr "AQIDBAU=") = Ok five_bytes.
Proof.
  split; apply (base64url_accepts _ five_bytes); [left|right]; reflexivity.
Defined.

Lemma base64url_opt_roundtrip_witness :
  base64url_bytes_opt.deserialize (VStr "AQIDBAU") = Ok (Some five_bytes).
Proof.
  exact (proj1 (base64url_opt_roundtrip (Some five_bytes) VNull five_bytes)).
Defined.
