(* ===== verification/Serde.v ===== *)
(** * [derive(Deserialize)]: struct and enum visitors

    The visitors serde derives, over the [Value] trees of Wire.v. A struct takes
    its fields by name from a map or by position from a sequence. A map is read
    entry by entry: unknown keys are skipped, a second entry for a field is an
    error, a value its field's decoder rejects is an error, and only at the end
    are missing fields noticed; so the error reported is the first in the order of
    the input. A sequence is read field by field, with surplus elements noticed at
    the end. *)

From S2P Require Import Prelude RustStd Codecs Core Wire.

(** ** Structs *)

(** A field's decoder, of which the scan of a map only needs the error. *)
Definition check {T} (de : Value -> result T DeError) (v : Value) : result unit DeError :=
  map_ok (fun _ => tt) (de v).

Definition field_list : Type := list (string * (Value -> result unit DeError)).

Fixpoint checker (fields : field_list) (name : string) : option (Value -> result unit DeError) :=
  match fields with
  | [] => None
  | (f, c) :: fields => if decide (f = name) then Some c else checker fields name
  end.

(** The [visit_map] loop; [seen] are the fields that already have a value. *)
Fixpoint scan_map (fields : field_list) (seen : list string) (es : list (string * Value))
    : result unit DeError :=
  match es with
  | [] => Ok tt
  | (k, v) :: es =>
      match checker fields k with
      | None => scan_map fields seen es
      | Some c =>
          if decide (k ∈ seen) then Err (DuplicateField k)
          else let? _ := c v in scan_map fields (k :: seen) es
      end
  end.

(** What a visitor holds for a field: its value, or the error of its absence. *)
Definition slot : Type := result Value DeError.

Definition entries_of (name : string) (es : list (string * Value)) : list Value :=
  snd <$> filter (fun e => fst e = name) es.

Definition map_slot (es : list (string * Value)) (name : string) : slot :=
  match entries_of name es with
  | v :: _ => Ok v
  | [] => Err (MissingField name)
  end.

Definition seq_slot (vs : list Value) (i : nat) : slot :=
  match vs !! i with
  | Some v => Ok v
  | None => Err (InvalidLength i)
  end.

Definition visit_struct {T} (fields : field_list) (v : Value)
    (build : list slot -> result T DeError) : result T DeError :=
  match v with
  | VObj es =>
      let? _ := scan_map fields [] es in
      build (map_slot es <$> fields.*1)
  | VArr vs =>
      let? x := build (seq_slot vs <$> seq 0 (length fields)) in
      if decide (length vs <= length fields) then Ok x else Err (InvalidLength (length vs))
  | _ => Err InvalidType
  end.

(** The [i]-th field, through its decoder. *)
Definition get_slot (slots : list slot) (i : nat) : slot :=
  default (Err (InvalidLength i)) (slots !! i).

Definition field {T} (slots : list slot) (i : nat) (de : Value -> result T DeError)
    : result T DeError :=
  let? v := get_slot slots i in de v.

(** A field marked [#[serde(default)]]. *)
Definition field_default {T} (dflt : T) (slots : list slot) (i : nat)
    (de : Value -> result T DeError) : result T DeError :=
  match get_slot slots i with
  | Ok v => de v
  | Err _ => Ok dflt
  end.

(** An [Option] field without that mark: an absent key of a map reads as [None],
    but a sequence that ends before the field is an error. *)
Definition field_option {T} (slots : list slot) (i : nat)
    (de : Value -> result T DeError) : result (option T) DeError :=
  match get_slot slots i with
  | Ok v => de_option de v
  | Err (MissingField _) => Ok None
  | Err e => Err e
  end.

(** [Vec<T>], and [Option<T>] on the writing side. *)
Definition de_vec {T} (de : Value -> result T DeError) (v : Value) : result (list T) DeError :=
  match v with
  | VArr l => collect_results de l
  | _ => Err InvalidType
  end.

Definition ser_option {T} (ser : T -> Value) (o : option T) : Value :=
  match o with Some x => ser x | None => VNull end.

(** ** Internally tagged enums

    The tag is one entry of a map, read where it occurs while the other entries
    are kept for the variant, or the first element of a sequence. *)

Section Tagged.
Context {V : Type} (tag_name : string) (de_tag : Value -> result V DeError).

Fixpoint scan_tag (tag : option V) (es : list (string * Value))
    : result (option V * list (string * Value)) DeError :=
  match es with
  | [] => Ok (tag, [])
  | (k, v) :: es =>
      if decide (k = tag_name) then
        match tag with
        | Some _ => Err (DuplicateField tag_name)
        | None => let? t := de_tag v in scan_tag (Some t) es
        end
      else map_ok (fun r => (r.1, (k, v) :: r.2)) (scan_tag tag es)
  end.

Definition take_tag (v : Value) : result (V * Value) DeError :=
  match v with
  | VObj es =>
      let? (tag, rest) := scan_tag None es in
      let? t := ok_or (MissingField tag_name) tag in
      Ok (t, VObj rest)
  | VArr (tv :: vs) => let? t := de_tag tv in Ok (t, VArr vs)
  | VArr [] => Err (MissingField tag_name)
  | _ => Err InvalidType
  end.

(** A tag that is taken was read from the entry of that name, the only one. *)
Lemma scan_tag_some t es r :
  scan_tag (Some t) es = Ok r <-> r = (Some t, es) /\ tag_name ∉ es.*1.
Proof.
  revert r; induction es as [|[k v] es IH]; intros r; cbn.
  { split; [intros [= <-]|intros [-> _]]; [split; [done|apply not_elem_of_nil]|done]. }
  rewrite not_elem_of_cons. case_decide as Hk; [naive_solver|].
  destruct (scan_tag (Some t) es) as [[tg rest]|e]; cbn.
  - destruct (proj1 (IH (tg, rest)) eq_refl) as [[= -> ->] Hn]. naive_solver.
  - split; [done|]. intros (-> & _ & Hn). by specialize (proj2 (IH (Some t, es)) (conj eq_refl Hn)).
Qed.

Lemma scan_tag_none es t rest :
  scan_tag None es = Ok (Some t, rest) <->
  exists l v r, es = l ++ (tag_name, v) :: r /\ tag_name ∉ l.*1 /\ tag_name ∉ r.*1 /\
    de_tag v = Ok t /\ rest = l ++ r.
Proof.
  revert rest; induction es as [|[k v] es IH]; intros rest; cbn.
  { split; [done|]. by intros ([|??] & ? & ? & [=] & _). }
  case_decide as Hk.
  - subst k. rewrite rbind_ok. setoid_rewrite scan_tag_some. split.
    + intros (x & Hx & [= <- ->] & Hn). exists [], v, es. split_and!; try done. apply not_elem_of_nil.
    + intros ([|[k w] l] & u & r & [= ? ?] & Hl & Hr & Ht & ->); subst; [by exists t|].
      by rewrite fmap_cons, not_elem_of_cons in Hl; destruct Hl.
  - destruct (scan_tag None es) as [[tg rs]|e] eqn:E; cbn.
    + split.
      * intros [= -> <-]. destruct (proj1 (IH rs) eq_refl) as (l & u & r & -> & Hl & Hr & Ht & ->).
        exists ((k, v) :: l), u, r. split_and!; try done. rewrite fmap_cons. apply not_elem_of_cons. done.
      * intros ([|[k' w] l] & u & r & [= ? ?] & Hl & Hr & Ht & ->); subst; [done|].
        rewrite fmap_cons, not_elem_of_cons in Hl. destruct Hl as [_ Hl].
        assert (@Ok _ DeError (tg, rs) = Ok (Some t, l ++ r)) as [= -> ->]; [|done].
        apply IH. by exists l, u, r.
    + split; [done|]. intros ([|[k' w] l] & u & r & [= ? ?] & Hl & Hr & Ht & ->); subst; [done|].
      rewrite fmap_cons, not_elem_of_cons in Hl. destruct Hl as [_ Hl].
      assert (@Err (option V * list (string * Value)) _ e = Ok (Some t, l ++ r)); [|done].
      apply IH. by exists l, u, r.
Qed.

Lemma take_tag_map es t w :
  take_tag (VObj es) = Ok (t, w) <->
  exists l v r, es = l ++ (tag_name, v) :: r /\ tag_name ∉ l.*1 /\ tag_name ∉ r.*1 /\
    de_tag v = Ok t /\ w = VObj (l ++ r).
Proof.
  cbn. rewrite rbind_ok. split.
  - intros ([tg rest] & E & Hk). apply rbind_ok in Hk as (x & Hx%ok_or_ok & [= <- <-]). subst tg.
    apply scan_tag_none in E as (l & v & r & ?). exists l, v, r. naive_solver.
  - intros (l & v & r & Hes & Hl & Hr & Ht & ->). exists (Some t, l ++ r). split; [|done].
    apply scan_tag_none. by exists l, v, r.
Qed.
End Tagged.

(** ** Facts *)

Lemma checker_in fields k : is_Some (checker fields k) <-> k ∈ fields.*1.
Proof.
  induction fields as [|[f c] fields IH]; cbn.
  - split; [by intros [? [=]]|by intros ?%elem_of_nil].
  - rewrite elem_of_cons. case_decide as Hf; [naive_solver|]. rewrite IH. naive_solver.
Qed.

(** The keys of a map that are fields. *)
Definition known (fields : field_list) (es : list (string * Value)) : list string :=
  filter (fun k => is_Some (checker fields k)) es.*1.

Definition accepts (fields : field_list) (e : string * Value) : Prop :=
  forall c, checker fields e.1 = Some c -> c e.2 = Ok tt.

(** The scan succeeds exactly when no field occurs twice and every decoder accepts:
    a condition in which the order of the entries plays no part. *)
Lemma scan_map_ok fields seen es :
  scan_map fields seen es = Ok tt <->
  Forall (accepts fields) es /\ NoDup (known fields es) /\
  Forall (fun k => k ∉ seen) (known fields es).
Proof.
  unfold known. revert seen; induction es as [|[k v] es IH]; intros seen; cbn [scan_map].
  { split; [intros _; split_and!; constructor|done]. }
  rewrite Forall_cons. unfold accepts at 1. cbn [fst snd fmap list_fmap].
  destruct (checker fields k) as [c|] eqn:Hc.
  - rewrite filter_cons_True by done. rewrite NoDup_cons, Forall_cons.
    case_decide as Hs; [naive_solver|]. rewrite rbind_ok. setoid_rewrite IH. split.
    + intros ([] & Hcv & HF & Hnd & Hseen). split_and!; try done; [naive_solver| |].
      * intros Hin. rewrite Forall_forall in Hseen. specialize (Hseen _ Hin). set_solver.
      * eapply Forall_impl; [exact Hseen|]. set_solver.
    + intros ([Hcv HF] & [Hk Hnd] & _ & Hseen). exists tt. split_and!; [by apply Hcv|done..|].
      rewrite Forall_forall in Hseen |- *. intros x Hx. specialize (Hseen x Hx).
      rewrite not_elem_of_cons. split; [|done]. by intros ->.
  - rewrite filter_cons_False by (rewrite Hc; by intros []). rewrite IH. naive_solver.
Qed.

Lemma entries_of_perm name es es' :
  es ≡ₚ es' -> entries_of name es ≡ₚ entries_of name es'.
Proof. intros E. unfold entries_of. by rewrite E. Qed.

Lemma entries_of_length name es : length (entries_of name es) = length (filter (fun k => k = name) es.*1).
Proof.
  unfold entries_of. rewrite length_fmap. induction es as [|[k v] es IH]; [done|].
  cbn [fmap list_fmap fst]. destruct (decide (k = name)).
  - rewrite !filter_cons_True by done. cbn. by rewrite IH.
  - by rewrite !filter_cons_False by done.
Qed.

Lemma filter_eq_length (P : string -> Prop) `{forall k, Decision (P k)} ks name :
  NoDup (filter P ks) -> P name -> length (filter (fun k => k = name) ks) <= 1.
Proof.
  intros Hnd Hp. induction ks as [|k ks IH]; [cbn; lia|].
  rewrite !filter_cons in *. destruct (decide (k = name)) as [->|Hk].
  - rewrite decide_True in Hnd by done. apply NoDup_cons in Hnd as [Hx _].
    replace (filter (fun k => k = name) ks) with (@nil string); [cbn; lia|].
    destruct (filter (fun k => k = name) ks) as [|y l] eqn:E; [done|]. destruct Hx.
    assert (y ∈ filter (fun k => k = name) ks) as [-> Hin]%list_elem_of_filter by (rewrite E; left).
    by apply list_elem_of_filter.
  - apply IH. case_decide; [by apply NoDup_cons in Hnd as [_ ?]|done].
Qed.

(** A field of a scanned map has at most one entry. *)
Lemma scan_map_unique fields es name :
  scan_map fields [] es = Ok tt -> name ∈ fields.*1 -> length (entries_of name es) <= 1.
Proof.
  intros (_ & Hnd & _)%scan_map_ok Hn%checker_in. rewrite entries_of_length.
  by eapply (filter_eq_length (fun k => is_Some (checker fields k))).
Qed.

Lemma known_perm fields es es' : es ≡ₚ es' -> known fields es ≡ₚ known fields es'.
Proof. intros E. by apply filter_Permutation, fmap_Permutation. Qed.

Lemma scan_map_perm fields es es' :
  es ≡ₚ es' -> scan_map fields [] es = Ok tt -> scan_map fields [] es' = Ok tt.
Proof.
  intros E. rewrite !scan_map_ok. intros (HF & Hnd & _). split_and!.
  - by rewrite <- (Forall_Permutation _ _ (fun _ => reflexivity _) _ _ E).
  - by rewrite <- (known_perm fields _ _ E).
  - apply Forall_forall. intros k _. apply not_elem_of_nil.
Qed.

Lemma map_slot_perm fields es es' name :
  es ≡ₚ es' -> scan_map fields [] es = Ok tt -> name ∈ fields.*1 ->
  map_slot es name = map_slot es' name.
Proof.
  intros E Hs Hn. pose proof (scan_map_unique _ _ _ Hs Hn) as Hl.
  pose proof (entries_of_perm name _ _ E) as Hp. unfold map_slot.
  destruct (entries_of name es) as [|v [|w l]]; cbn in Hl; [| |lia].
  - by apply Permutation_nil_l in Hp as <-.
  - by apply Permutation_singleton_l in Hp as <-.
Qed.

(** A struct that is read from a map is read from every permutation of it. *)
Lemma visit_struct_perm {T} fields es es' (build : list slot -> result T DeError) x :
  es ≡ₚ es' -> visit_struct fields (VObj es) build = Ok x ->
  visit_struct fields (VObj es') build = Ok x.
Proof.
  intros E. cbn. destruct (scan_map fields [] es) as [[]|] eqn:Hs; [|done]. cbn [rbind]. intros Hb.
  rewrite (scan_map_perm _ _ _ E Hs). cbn [rbind]. rewrite <- Hb. f_equal.
  apply list_fmap_ext. intros i name Hi. symmetry. eapply map_slot_perm; [done..|].
  by eapply list_elem_of_lookup_2.
Qed.

Lemma entries_of_app name es es' : entries_of name (es ++ es') = entries_of name es ++ entries_of name es'.
Proof. unfold entries_of. by rewrite filter_app, fmap_app. Qed.

Lemma entries_of_cons_eq name v es : entries_of name ((name, v) :: es) = v :: entries_of name es.
Proof. unfold entries_of. by rewrite filter_cons_True. Qed.

Lemma entries_of_nil name es : name ∉ es.*1 -> entries_of name es = [].
Proof.
  induction es as [|[k v] es IH]; [done|]. rewrite fmap_cons, not_elem_of_cons. intros [Hk Hn].
  unfold entries_of in *. rewrite filter_cons_False by (cbn in *; congruence). auto.
Qed.

(** An entry under a key that is no field changes nothing. *)
Lemma scan_map_unknown fields seen es k v :
  k ∉ fields.*1 -> scan_map fields seen (es ++ [(k, v)]) = scan_map fields seen es.
Proof.
  intros Hk. revert seen; induction es as [|[k' v'] es IH]; intros seen; cbn.
  - destruct (checker fields k) eqn:Hc; [|done]. destruct Hk. apply checker_in. by rewrite Hc.
  - destruct (checker fields k'); [|apply IH]. case_decide; [done|].
    destruct (r v'); cbn; [apply IH|done].
Qed.

Lemma visit_struct_unknown {T} fields es k v (build : list slot -> result T DeError) :
  k ∉ fields.*1 -> visit_struct fields (VObj (es ++ [(k, v)])) build = visit_struct fields (VObj es) build.
Proof.
  intros Hk. cbn. rewrite scan_map_unknown by done. destruct (scan_map fields [] es); [|done]. cbn.
  f_equal. apply list_fmap_ext. intros i name Hi. unfold map_slot. rewrite entries_of_app.
  replace (entries_of name [(k, v)]) with (@nil Value); [by rewrite app_nil_r|].
  unfold entries_of. rewrite filter_cons_False; [done|]. cbn. intros ->.
  by apply Hk, (list_elem_of_lookup_2 _ i).
Qed.

Lemma check_ok {T} (de : Value -> result T DeError) v x : de v = Ok x -> check de v = Ok tt.
Proof. unfold check. by intros ->. Qed.

Lemma field_inv {T} fs i (de : Value -> result T DeError) x :
  field fs i de = Ok x -> exists v, de v = Ok x.
Proof. unfold field. destruct (get_slot fs i) as [v|]; cbn; [eauto|done]. Qed.

Lemma visit_struct_inv {T} fields v (build : list slot -> result T DeError) x :
  visit_struct fields v build = Ok x -> exists fs, build fs = Ok x.
Proof.
  destruct v as [| | | | |vs|es]; cbn; try done.
  - intros (y & Hy & E)%rbind_ok. case_decide; [|done]. injection E as <-. eauto.
  - intros (y & _ & E)%rbind_ok. eauto.
Qed.

Lemma field_written {T} l i v (de : Value -> result T DeError) x :
  l !! i = Some (Ok v) -> de v = Ok x -> field l i de = Ok x.
Proof. unfold field, get_slot. by intros ->. Qed.

Lemma field_default_written {T} d l i v (de : Value -> result T DeError) x :
  l !! i = Some (Ok v) -> de v = Ok x -> field_default d l i de = Ok x.
Proof. unfold field_default, get_slot. by intros ->. Qed.

Lemma field_option_written {T} l i v (de : Value -> result T DeError) x :
  l !! i = Some (Ok v) -> de_option de v = Ok x -> field_option l i de = Ok x.
Proof. unfold field_option, get_slot. by intros ->. Qed.

(** ** What a visitor reads

    The values a decoder is given are values of the input. *)

Definition child (v u : Value) : Prop :=
  match v with
  | VArr vs => u ∈ vs
  | VObj es => u ∈ es.*2
  | _ => False
  end.

Definition slots_from (v : Value) (fs : list slot) : Prop :=
  forall i u, get_slot fs i = Ok u -> child v u.

Lemma entries_of_child name es u : u ∈ entries_of name es -> u ∈ es.*2.
Proof.
  unfold entries_of. intros (e & -> & [_ He]%list_elem_of_filter)%list_elem_of_fmap.
  by apply list_elem_of_fmap_2.
Qed.

Lemma visit_struct_from {T} fields v (build : list slot -> result T DeError) x :
  visit_struct fields v build = Ok x -> exists fs, build fs = Ok x /\ slots_from v fs.
Proof.
  unfold slots_from, get_slot. destruct v as [| | | | |vs|es]; cbn; try done.
  - intros (y & Hy & E)%rbind_ok. case_decide; [|done]. injection E as <-.
    eexists. split; [done|]. intros i u. rewrite list_lookup_fmap.
    destruct (seq 0 _ !! i) as [j|]; cbn; [|done]. unfold seq_slot.
    destruct (vs !! j) eqn:Ej; [|done]. intros [= <-]. by eapply list_elem_of_lookup_2.
  - intros (y & _ & E)%rbind_ok. eexists. split; [done|]. intros i u. rewrite list_lookup_fmap.
    destruct (fields.*1 !! i) as [name|]; cbn; [|done]. unfold map_slot.
    destruct (entries_of name es) as [|w l] eqn:Ew; [done|]. intros [= <-].
    apply (entries_of_child name). rewrite Ew. left.
Qed.

Lemma field_from {T} v fs i (de : Value -> result T DeError) x :
  slots_from v fs -> field fs i de = Ok x -> exists u, child v u /\ de u = Ok x.
Proof.
  unfold field. intros Hf (u & Hu & Hd)%rbind_ok. exists u. split; [by eapply Hf|done].
Qed.

Lemma take_tag_from {V} name (de_tag : Value -> result V DeError) v t w u :
  take_tag name de_tag v = Ok (t, w) -> child w u -> child v u.
Proof.
  destruct v as [| | | | |[|tv vs]|es]; try done.
  - cbn. intros (x & _ & [= <- <-])%rbind_ok. by right.
  - intros (l & tv & r & -> & _ & _ & _ & ->)%take_tag_map. cbn. rewrite !fmap_app. set_solver.
Qed.

(** ** Integers, options, vectors *)

Lemma de_uint_ok max n : (0 <= n <= max)%Z -> de_uint max (VInt n) = Ok n.
Proof. intros Hn. cbn. by rewrite (proj2 (in_range_spec max n) Hn). Qed.

Lemma de_uint_inv max v n : de_uint max v = Ok n -> (0 <= n <= max)%Z.
Proof.
  destruct v; cbn; try done. destruct (in_range max n0) eqn:E; [|done].
  intros [= <-]. by apply in_range_spec.
Qed.

Lemma field_uint_inv fs i max n : field fs i (de_uint max) = Ok n -> (0 <= n <= max)%Z.
Proof. intros [v Hv]%field_inv. by eapply de_uint_inv. Qed.

Lemma field_option_uint_inv fs i max o n :
  field_option fs i (de_uint max) = Ok o -> o = Some n -> (0 <= n <= max)%Z.
Proof.
  unfold field_option. intros E ->. destruct (get_slot fs i) as [x|[]]; try done.
  unfold de_option in E. destruct x; try done.
  destruct (de_uint max (VInt n0)) eqn:Eu; [|done]. injection E as <-. by eapply de_uint_inv.
Qed.

Lemma de_option_ser {T} (ser : T -> Value) (de : Value -> result T DeError) o :
  (forall x, o = Some x -> ser x <> VNull /\ de (ser x) = Ok x) ->
  de_option de (ser_option ser o) = Ok o.
Proof.
  destruct o as [x|]; cbn; [|done]. intros Hx. destruct (Hx x eq_refl) as [Hn Hd].
  destruct (ser x); try done; cbn [de_option]; by rewrite Hd.
Qed.

Lemma de_vec_ser {T} (ser : T -> Value) (de : Value -> result T DeError) l :
  (forall x, de (ser x) = Ok x) -> de_vec de (VArr (ser <$> l)) = Ok l.
Proof.
  intros Hd. cbn. induction l as [|x l IH]; cbn; [done|]. by rewrite Hd, IH.
Qed.

(** Reading back a written map: its keys are distinct, every decoder accepts its
    own value, and [slots] are the fields found. *)
Lemma visit_struct_written {T} fields es slots (build : list slot -> result T DeError) x :
  bool_decide (NoDup es.*1) = true -> Forall (accepts fields) es ->
  map_slot es <$> fields.*1 = slots -> build slots = Ok x ->
  visit_struct fields (VObj es) build = Ok x.
Proof.
  intros Hnd%bool_decide_eq_true HF <- Hb. cbn. rewrite (proj2 (scan_map_ok fields [] es)); [done|].
  split_and!; [done|by apply NoDup_filter|]. apply Forall_forall. intros k _. apply not_elem_of_nil.
Qed.

(** Leaves, for each written entry, that its decoder accepts it. *)
Ltac accept_fields :=
  repeat (apply Forall_cons_2);
  lazymatch goal with
  | |- Forall _ [] => apply Forall_nil_2
  | |- accepts _ _ => let c := fresh "c" in intros c [= <-]; cbn [snd]; eapply check_ok
  end.
