(* ===== verification/Event.v ===== *)
(** * [MeshEvent] and its wire form

    The event enum of crates/furcate-mesh-core/src/lib.rs with the form its
    serde attributes give it: internally tagged by [kind] with kebab-case
    variant names, peer ids through [hex_array], opaque bytes through the
    base64url codecs, an absent [raw] omitted. *)

From Stdlib Require Import SpecFloat.
From S2P Require Import Prelude RustStd Codecs Core Wire Serde.

(** ** The enum *)

Inductive MeshEvent :=
| Heartbeat (peer : PeerId) (clock : HybridLogicalClock) (load : f64)
| ModelAnnounce (peer : PeerId) (clock : HybridLogicalClock)
    (model_name digest_blake3 format : string)
| WorkOffer (from to : PeerId) (request : list u8) (hops : Z)
| WorkResult (from to : PeerId) (response : list u8)
| AgentState (peer : PeerId) (clock : HybridLogicalClock) (agent_id : string) (state : list u8)
| SensorReading (peer : PeerId) (clock : HybridLogicalClock)
    (sensor_id metric : string) (value : f64) (unit_ : string) (raw : option (list u8))
| Command (to : PeerId) (clock : HybridLogicalClock) (verb : string) (params : list u8)
| Attestation (peer : PeerId) (clock : HybridLogicalClock) (format : string) (evidence : list u8)
| OtaOffer (to : PeerId) (clock : HybridLogicalClock) (image_id : string) (version : Z)
    (url sha256 : string) (size : Z)
| OtaStatus (peer : PeerId) (clock : HybridLogicalClock) (image_id state detail : string).

(** The machine ranges of the integer fields. *)
Definition event_wf (e : MeshEvent) : Prop :=
  match e with
  | Heartbeat _ c _ | ModelAnnounce _ c _ _ _ | AgentState _ c _ _
  | SensorReading _ c _ _ _ _ _ | Command _ c _ _ | Attestation _ c _ _
  | OtaStatus _ c _ _ _ => Hlc.wf c
  | WorkOffer _ _ _ hops => (0 <= hops <= u8_max)%Z
  | WorkResult _ _ _ => True
  | OtaOffer _ c _ version _ _ size =>
      Hlc.wf c /\ (0 <= version <= u32_max)%Z /\ (0 <= size <= u64_max)%Z
  end.

(** The variant identifiers and their kebab-case names. *)
Inductive variant :=
| KHeartbeat | KModelAnnounce | KWorkOffer | KWorkResult | KAgentState
| KSensorReading | KCommand | KAttestation | KOtaOffer | KOtaStatus.

Definition variant_of (e : MeshEvent) : variant :=
  match e with
  | Heartbeat _ _ _ => KHeartbeat
  | ModelAnnounce _ _ _ _ _ => KModelAnnounce
  | WorkOffer _ _ _ _ => KWorkOffer
  | WorkResult _ _ _ => KWorkResult
  | AgentState _ _ _ _ => KAgentState
  | SensorReading _ _ _ _ _ _ _ => KSensorReading
  | Command _ _ _ _ => KCommand
  | Attestation _ _ _ _ => KAttestation
  | OtaOffer _ _ _ _ _ _ _ => KOtaOffer
  | OtaStatus _ _ _ _ _ => KOtaStatus
  end.

Definition variant_name (k : variant) : string :=
  match k with
  | KHeartbeat => "heartbeat"
  | KModelAnnounce => "model-announce"
  | KWorkOffer => "work-offer"
  | KWorkResult => "work-result"
  | KAgentState => "agent-state"
  | KSensorReading => "sensor-reading"
  | KCommand => "command"
  | KAttestation => "attestation"
  | KOtaOffer => "ota-offer"
  | KOtaStatus => "ota-status"
  end.

Definition all_variants : list variant :=
  [KHeartbeat; KModelAnnounce; KWorkOffer; KWorkResult; KAgentState;
   KSensorReading; KCommand; KAttestation; KOtaOffer; KOtaStatus].

(** The variant a tag names, if any. *)
Definition variant_of_name (s : string) : option variant :=
  List.find (fun k => bool_decide (variant_name k = s)) all_variants.

(** The [kind] tag of an event. *)
Definition kind (e : MeshEvent) : string := variant_name (variant_of e).

Section Codec.
Context `{HexCrate, Base64Crate}.

(** [#[serde(transparent)] struct PeerId(#[serde(with = "hex_array")] [u8; 32])]. *)
Definition ser_peer (p : PeerId) : Value := hex_array.serialize (PeerId.as_bytes p).
Definition de_peer (v : Value) : result PeerId DeError :=
  map_ok PeerId.from_bytes (hex_array.deserialize v).

Definition clock_fields : field_list :=
  [("wall_ms", check (de_uint u64_max)); ("counter", check (de_uint u32_max))].

Definition ser_clock (c : HybridLogicalClock) : Value :=
  VObj [("wall_ms", VInt (Hlc.wall_ms c)); ("counter", VInt (Hlc.counter c))].

Definition de_clock (v : Value) : result HybridLogicalClock DeError :=
  visit_struct clock_fields v (fun fs =>
    let? wall_ms := field fs 0 (de_uint u64_max) in
    let? counter := field fs 1 (de_uint u32_max) in
    Ok (Hlc.mk wall_ms counter)).

Definition ser_bytes : list u8 -> Value := base64url_bytes_bytes.serialize.
Definition de_bytes : Value -> result (list u8) DeError := base64url_bytes_bytes.deserialize.

(** The fields of each variant, in declaration order, with their decoders. *)
Definition variant_fields (k : variant) : field_list :=
  match k with
  | KHeartbeat =>
      [("peer", check de_peer); ("clock", check de_clock); ("load", check de_f64)]
  | KModelAnnounce =>
      [("peer", check de_peer); ("clock", check de_clock); ("model_name", check de_str);
       ("digest_blake3", check de_str); ("format", check de_str)]
  | KWorkOffer =>
      [("from", check de_peer); ("to", check de_peer); ("request", check de_bytes);
       ("hops", check (de_uint u8_max))]
  | KWorkResult =>
      [("from", check de_peer); ("to", check de_peer); ("response", check de_bytes)]
  | KAgentState =>
      [("peer", check de_peer); ("clock", check de_clock); ("agent_id", check de_str);
       ("state", check de_bytes)]
  | KSensorReading =>
      [("peer", check de_peer); ("clock", check de_clock); ("sensor_id", check de_str);
       ("metric", check de_str); ("value", check de_f64); ("unit", check de_str);
       ("raw", check base64url_bytes_opt.deserialize)]
  | KCommand =>
      [("to", check de_peer); ("clock", check de_clock); ("verb", check de_str);
       ("params", check de_bytes)]
  | KAttestation =>
      [("peer", check de_peer); ("clock", check de_clock); ("format", check de_str);
       ("evidence", check de_bytes)]
  | KOtaOffer =>
      [("to", check de_peer); ("clock", check de_clock); ("image_id", check de_str);
       ("version", check (de_uint u32_max)); ("url", check de_str); ("sha256", check de_str);
       ("size", check (de_uint u64_max))]
  | KOtaStatus =>
      [("peer", check de_peer); ("clock", check de_clock); ("image_id", check de_str);
       ("state", check de_str); ("detail", check de_str)]
  end.

(** The serialized fields of an event, the tag apart. *)
Definition ser_fields (e : MeshEvent) : list (string * Value) :=
  match e with
  | Heartbeat peer clock load =>
      [("peer", ser_peer peer); ("clock", ser_clock clock); ("load", VFloat load)]
  | ModelAnnounce peer clock model_name digest_blake3 format =>
      [("peer", ser_peer peer); ("clock", ser_clock clock); ("model_name", VStr model_name);
       ("digest_blake3", VStr digest_blake3); ("format", VStr format)]
  | WorkOffer from to request hops =>
      [("from", ser_peer from); ("to", ser_peer to); ("request", ser_bytes request);
       ("hops", VInt hops)]
  | WorkResult from to response =>
      [("from", ser_peer from); ("to", ser_peer to); ("response", ser_bytes response)]
  | AgentState peer clock agent_id state =>
      [("peer", ser_peer peer); ("clock", ser_clock clock); ("agent_id", VStr agent_id);
       ("state", ser_bytes state)]
  | SensorReading peer clock sensor_id metric value unit_ raw =>
      [("peer", ser_peer peer); ("clock", ser_clock clock); ("sensor_id", VStr sensor_id);
       ("metric", VStr metric); ("value", VFloat value); ("unit", VStr unit_)] ++
      match raw with None => [] | Some _ => [("raw", base64url_bytes_opt.serialize raw)] end
  | Command to clock verb params =>
      [("to", ser_peer to); ("clock", ser_clock clock); ("verb", VStr verb);
       ("params", ser_bytes params)]
  | Attestation peer clock format evidence =>
      [("peer", ser_peer peer); ("clock", ser_clock clock); ("format", VStr format);
       ("evidence", ser_bytes evidence)]
  | OtaOffer to clock image_id version url sha256 size =>
      [("to", ser_peer to); ("clock", ser_clock clock); ("image_id", VStr image_id);
       ("version", VInt version); ("url", VStr url); ("sha256", VStr sha256); ("size", VInt size)]
  | OtaStatus peer clock image_id state detail =>
      [("peer", ser_peer peer); ("clock", ser_clock clock); ("image_id", VStr image_id);
       ("state", VStr state); ("detail", VStr detail)]
  end.

Definition ser_event (e : MeshEvent) : Value := VObj (("kind", VStr (kind e)) :: ser_fields e).

(** Decode the fields of variant [k] from its slots. *)
Definition de_variant (k : variant) (fs : list slot) : result MeshEvent DeError :=
  let get {T} i (de : Value -> result T DeError) := field fs i de in
  match k with
  | KHeartbeat =>
    let? peer := get 0 de_peer in let? clock := get 1 de_clock in
    let? load := get 2 de_f64 in Ok (Heartbeat peer clock load)
  | KModelAnnounce =>
    let? peer := get 0 de_peer in let? clock := get 1 de_clock in
    let? name := get 2 de_str in let? digest := get 3 de_str in
    let? format := get 4 de_str in Ok (ModelAnnounce peer clock name digest format)
  | KWorkOffer =>
    let? from := get 0 de_peer in let? to := get 1 de_peer in
    let? request := get 2 de_bytes in let? hops := get 3 (de_uint u8_max) in
    Ok (WorkOffer from to request hops)
  | KWorkResult =>
    let? from := get 0 de_peer in let? to := get 1 de_peer in
    let? response := get 2 de_bytes in Ok (WorkResult from to response)
  | KAgentState =>
    let? peer := get 0 de_peer in let? clock := get 1 de_clock in
    let? agent_id := get 2 de_str in let? state := get 3 de_bytes in
    Ok (AgentState peer clock agent_id state)
  | KSensorReading =>
    let? peer := get 0 de_peer in let? clock := get 1 de_clock in
    let? sensor_id := get 2 de_str in let? metric := get 3 de_str in
    let? value := get 4 de_f64 in let? unit_ := get 5 de_str in
    let? raw := field_default None fs 6 base64url_bytes_opt.deserialize in
    Ok (SensorReading peer clock sensor_id metric value unit_ raw)
  | KCommand =>
    let? to := get 0 de_peer in let? clock := get 1 de_clock in
    let? verb := get 2 de_str in let? params := get 3 de_bytes in
    Ok (Command to clock verb params)
  | KAttestation =>
    let? peer := get 0 de_peer in let? clock := get 1 de_clock in
    let? format := get 2 de_str in let? evidence := get 3 de_bytes in
    Ok (Attestation peer clock format evidence)
  | KOtaOffer =>
    let? to := get 0 de_peer in let? clock := get 1 de_clock in
    let? image_id := get 2 de_str in let? version := get 3 (de_uint u32_max) in
    let? url := get 4 de_str in let? sha256 := get 5 de_str in
    let? size := get 6 (de_uint u64_max) in
    Ok (OtaOffer to clock image_id version url sha256 size)
  | KOtaStatus =>
    let? peer := get 0 de_peer in let? clock := get 1 de_clock in
    let? image_id := get 2 de_str in let? state := get 3 de_str in
    let? detail := get 4 de_str in Ok (OtaStatus peer clock image_id state detail)
  end.

(** The tag: the name of a variant. *)
Definition de_tag (v : Value) : result variant DeError :=
  let? k := de_str v in
  ok_or (UnknownVariant k) (variant_of_name k).

Definition de_event (v : Value) : result MeshEvent DeError :=
  let? (k, rest) := take_tag "kind" de_tag v in
  visit_struct (variant_fields k) rest (de_variant k).

End Codec.

(** ** Facts *)

Section Facts.
Context `{HexLaws, Base64Laws}.

Lemma de_peer_ser p : de_peer (ser_peer p) = Ok p.
Proof. unfold de_peer, ser_peer. rewrite hex_array_roundtrip. by destruct p. Qed.

Lemma de_clock_ser c : Hlc.wf c -> de_clock (ser_clock c) = Ok c.
Proof.
  intros [Hw%de_uint_ok Hc%de_uint_ok].
  apply visit_struct_written with (slots := [Ok (VInt (Hlc.wall_ms c)); Ok (VInt (Hlc.counter c))]);
    [reflexivity|accept_fields; eassumption|reflexivity|].
  do 2 (erewrite field_written; [|reflexivity|eassumption]; cbn [rbind]). by destruct c.
Qed.

Lemma de_bytes_ser b : de_bytes (ser_bytes b) = Ok b.
Proof. apply base64_roundtrip. Qed.

(** The slots a variant's visitor sees on the event's own serialization. *)
Definition slots (e : MeshEvent) : list slot :=
  match e with
  | SensorReading _ _ _ _ _ _ None => (Ok <$> (snd <$> ser_fields e)) ++ [Err (MissingField "raw")]
  | _ => Ok <$> (snd <$> ser_fields e)
  end.

Lemma variant_of_name_kind e : variant_of_name (kind e) = Some (variant_of e).
Proof. by destruct e. Qed.

Lemma de_tag_kind e : de_tag (VStr (kind e)) = Ok (variant_of e).
Proof. unfold de_tag. cbn [de_str rbind]. by rewrite variant_of_name_kind. Qed.

Lemma ser_fields_keys e :
  bool_decide (NoDup (ser_fields e).*1) = true /\ "kind" ∉ (ser_fields e).*1.
Proof.
  split; [|apply (bool_decide_unpack _)]; by destruct e as [| | | | |? ? ? ? ? ? []| | | |].
Qed.

Lemma take_tag_ser e : take_tag "kind" de_tag (ser_event e) = Ok (variant_of e, VObj (ser_fields e)).
Proof.
  apply take_tag_map. exists [], (VStr (kind e)), (ser_fields e).
  split_and!; [done|apply not_elem_of_nil|apply ser_fields_keys|apply de_tag_kind|done].
Qed.

Lemma map_slots_ser e : map_slot (ser_fields e) <$> (variant_fields (variant_of e)).*1 = slots e.
Proof. by destruct e as [| | | | |? ? ? ? ? ? []| | | |]. Qed.

(** Decoders on written values, for any event within its ranges. *)
Ltac decode_value :=
  first [ apply de_peer_ser | apply de_bytes_ser | apply de_clock_ser; tauto
        | apply de_uint_ok; tauto | apply base64_opt_roundtrip | reflexivity ].

Lemma ser_fields_accepted e :
  event_wf e -> Forall (accepts (variant_fields (variant_of e))) (ser_fields e).
Proof.
  destruct e as [| | | | |? ? ? ? ? ? []| | | |]; intros W; cbn [event_wf] in W;
    cbn [ser_fields app]; accept_fields; decode_value.
Qed.

Ltac decode_fields :=
  repeat (erewrite field_written; [|reflexivity|decode_value]; cbn [rbind]).

Lemma de_variant_ser e : event_wf e -> de_variant (variant_of e) (slots e) = Ok e.
Proof.
  destruct e as [| | | | |? ? ? ? ? ? []| | | |]; intros W; cbn [event_wf] in W;
    cbn [variant_of de_variant slots ser_fields]; decode_fields; try done.
  erewrite field_default_written; [|reflexivity|apply base64_opt_roundtrip]. done.
Qed.

Lemma de_event_ser e : event_wf e -> de_event (ser_event e) = Ok e.
Proof.
  intros W. unfold de_event. rewrite take_tag_ser; cbn [rbind].
  eapply visit_struct_written; [apply ser_fields_keys|by apply ser_fields_accepted|
    apply map_slots_ser|by apply de_variant_ser].
Qed.

(** C6: every event of the enum survives its wire form: decoding what
    [Serialize] writes gives back exactly the same event, for all ten variants,
    with [raw] present or omitted. *)
Theorem event_roundtrip e : event_wf e -> de_event (ser_event e) = Ok e.
Proof. apply de_event_ser. Qed.

Lemma de_clock_wf v c : de_clock v = Ok c -> Hlc.wf c.
Proof.
  intros [fs E]%visit_struct_inv. inv_ok.
  split; cbn; eapply field_uint_inv; eassumption.
Qed.

Lemma field_clock_wf fs i c : field fs i de_clock = Ok c -> Hlc.wf c.
Proof. intros [v Hv]%field_inv. by eapply de_clock_wf. Qed.

Lemma de_variant_inv k fs e : de_variant k fs = Ok e -> variant_of e = k /\ event_wf e.
Proof.
  assert (forall A B C : Prop, A -> B -> C -> A /\ B /\ C) as and3 by tauto.
  destruct k; cbn [de_variant]; intros E; inv_ok; cbn [variant_of event_wf]; split; auto;
    eauto using field_clock_wf, field_uint_inv.
Qed.

Lemma variant_of_name_inv s k : variant_of_name s = Some k -> variant_name k = s.
Proof. intros [_ E]%List.find_some. by apply bool_decide_eq_true in E. Qed.

Lemma de_tag_inv v k : de_tag v = Ok k -> v = VStr (variant_name k).
Proof.
  unfold de_tag. intros (s & Hs & Hk%ok_or_ok)%rbind_ok. apply variant_of_name_inv in Hk as ->.
  destruct v; try done. by injection Hs as ->.
Qed.

Lemma de_event_inv v e :
  de_event v = Ok e -> event_wf e /\ exists rest, take_tag "kind" de_tag v = Ok (variant_of e, rest).
Proof.
  unfold de_event. intros ([k rest] & Ht & [fs E]%visit_struct_inv)%rbind_ok.
  apply de_variant_inv in E as [<- W]. eauto.
Qed.

Lemma de_event_wf v e : de_event v = Ok e -> event_wf e.
Proof. by intros [? _]%de_event_inv. Qed.

(** The floats of an event are read from values of the input. *)
Definition event_floats (e : MeshEvent) : list f64 :=
  match e with
  | Heartbeat _ _ load => [load]
  | SensorReading _ _ _ _ value _ _ => [value]
  | _ => []
  end.

Lemma de_event_floats v e :
  de_event v = Ok e -> Forall (fun f => exists u, child v u /\ de_f64 u = Ok f) (event_floats e).
Proof.
  unfold de_event. intros ([k rest] & Ht & (fs & E & Hf)%visit_struct_from)%rbind_ok.
  assert (forall i f, field fs i de_f64 = Ok f -> exists u, child v u /\ de_f64 u = Ok f) as Hfld.
  { intros i f (u & Hu & Hd)%(field_from rest); [|done]. exists u. split; [by eapply take_tag_from|done]. }
  destruct k; cbn [de_variant] in E; inv_ok; cbn [event_floats]; repeat constructor; eauto.
Qed.

(** C27: what the decoder returns is a well-formed event of the variant the input's tag
    names, whatever the input: every integer field is within its [u8], [u32] or [u64]
    range. The input is a map with exactly one [kind] entry, which is the event's own
    tag, or a sequence that starts with that tag and has at most one element per field
    behind it; nothing else decodes. *)
Theorem de_event_sound v e :
  de_event v = Ok e ->
  event_wf e /\
  match v with
  | VObj es => entries_of "kind" es = [VStr (kind e)]
  | VArr vs => exists rest, vs = VStr (kind e) :: rest /\
      length rest <= length (variant_fields (variant_of e))
  | _ => False
  end.
Proof.
  intros He. apply de_event_inv in He as Hi. destruct Hi as [W [rest Ht]]. split; [done|].
  destruct v as [| | | | |[|tv vs]|es]; try done.
  - unfold de_event in He. rewrite Ht in He. cbn [rbind] in He.
    cbn in Ht. apply rbind_ok in Ht as (k & Htag & [= -> <-]).
    rewrite (de_tag_inv _ _ Htag). exists vs. split; [done|].
    cbn [visit_struct] in He. apply rbind_ok in He as (y & _ & Hl). by case_decide.
  - apply take_tag_map in Ht as (l & tv & r & -> & Hl & Hr & Htag & _).
    rewrite entries_of_app, entries_of_cons_eq, !entries_of_nil by done.
    by rewrite (de_tag_inv _ _ Htag).
Qed.

(** The order of the fields of an event is irrelevant, the tag's position
    included: a permutation of the entries of a map that decodes decodes to the
    same event. (The error for a map that does not decode may differ.) *)
Theorem de_event_field_order es es' e :
  es ≡ₚ es' -> de_event (VObj es) = Ok e -> de_event (VObj es') = Ok e.
Proof.
  intros E. unfold de_event. rewrite !rbind_ok. intros ([k rest] & Ht & Hv).
  apply take_tag_map in Ht as (l & tv & r & -> & Hl & Hr & Htag & ->).
  assert (("kind", tv) ∈ es') as (l1 & r1 & ->)%list_elem_of_split.
  { rewrite <- E. apply elem_of_app. right. left. }
  apply Permutation_app_inv in E.
  assert ("kind" ∉ (l1 ++ r1).*1) as Hn.
  { rewrite <- E, fmap_app, elem_of_app. tauto. }
  rewrite fmap_app, elem_of_app in Hn.
  exists (k, VObj (l1 ++ r1)). split; [|by eapply visit_struct_perm].
  apply take_tag_map. exists l1, tv, r1. tauto.
Qed.

(** Additive wire evolution: an entry whose key is neither the tag nor a
    field of the variant does not change the decoded event, so events of a
    newer minor version are read as before. *)
Theorem de_event_ignores_unknown e k v :
  event_wf e -> k <> "kind" -> k ∉ (variant_fields (variant_of e)).*1 ->
  de_event (VObj ((("kind", VStr (kind e)) :: ser_fields e) ++ [(k, v)])) = Ok e.
Proof.
  intros W Hk Hn. unfold de_event.
  erewrite (proj2 (take_tag_map "kind" de_tag _ _ _)).
  2:{ exists [], (VStr (kind e)), (ser_fields e ++ [(k, v)]). split_and!;
        [done|apply not_elem_of_nil| |apply de_tag_kind|done].
      rewrite fmap_app. apply not_elem_of_app. split; [apply ser_fields_keys|]. cbn. set_solver. }
  cbn [rbind app]. rewrite visit_struct_unknown by done. generalize (de_event_ser e W).
  unfold de_event. by rewrite take_tag_ser.
Qed.

End Facts.

#[local] Existing Instances RefHex.crate RefHex.laws RefBase64.crate RefBase64.laws.

Module Witness.

Definition pid (b : u8) : PeerId := PeerId.from_bytes (array32_repeat b).
Definition reading : MeshEvent :=
  SensorReading (pid Byte.x03) (Hlc.mk 99 0) "bme280-0" "temperature_c"
    (S754_finite false 43 (-1)) "C" (Some [Byte.x01; Byte.x02; Byte.x03]).

Lemma event_roundtrip_witness : de_event (ser_event reading) = Ok reading.
Proof. apply event_roundtrip. repeat split; vm_compute; congruence. Defined.

(** A map with its entries reversed and an unknown one, and a sequence. *)
Lemma de_event_sound_witness :
  let es := ("firmware", VNull) :: rev (("kind", VStr (kind reading)) :: ser_fields reading) in
  let vs := [VStr "work-result"; ser_peer (pid Byte.x01); ser_peer (pid Byte.x02); VStr "AQI"] in
  (de_event (VObj es) = Ok reading /\ event_wf reading /\ entries_of "kind" es = [VStr "sensor-reading"]) /\
  exists e, de_event (VArr vs) = Ok e /\ kind e = "work-result" /\
    length (tail vs) <= length (variant_fields (variant_of e)).
Proof.
  intros es vs. assert (de_event (VObj es) = Ok reading) as Hes by (vm_compute; reflexivity).
  split; [split; [exact Hes|exact (de_event_sound (VObj es) reading Hes)]|].
  set (e := WorkResult (pid Byte.x01) (pid Byte.x02) [Byte.x01; Byte.x02]).
  assert (de_event (VArr vs) = Ok e) as Hvs by (vm_compute; reflexivity).
  exists e. split; [exact Hvs|]. split; [reflexivity|].
  destruct (de_event_sound (VArr vs) e Hvs) as (_ & rest & Hr & Hl). by rewrite Hr.
Defined.

Lemma de_event_field_order_witness :
  de_event (VObj (rev (("kind", VStr (kind reading)) :: ser_fields reading))) = Ok reading.
Proof.
  apply (de_event_field_order (("kind", VStr (kind reading)) :: ser_fields reading));
    [apply Permutation_rev|vm_compute; reflexivity].
Defined.

(** The error is the first in the order of the input: a wrong type before a
    duplicate, an unknown tag before a second one. *)
Example first_error_reported :
  de_event (VObj [("load", VStr "x"); ("kind", VStr "heartbeat"); ("peer", VNull)]) = Err InvalidType /\
  de_event (VObj [("kind", VStr "nope"); ("kind", VStr "heartbeat")]) = Err (UnknownVariant "nope") /\
  de_event (VObj [("kind", VStr "heartbeat"); ("kind", VStr "nope")]) = Err (DuplicateField "kind") /\
  de_event (VArr [VStr "heartbeat"]) = Err (InvalidLength 0).
Proof. split_and!; reflexivity. Qed.

Lemma de_event_ignores_unknown_witness :
  de_event (VObj ((("kind", VStr (kind reading)) :: ser_fields reading)
                    ++ [("firmware", VStr "1.2")])) = Ok reading.
Proof.
  apply de_event_ignores_unknown.
  - repeat split; vm_compute; congruence.
  - discriminate.
  - apply (bool_decide_unpack _). vm_compute. exact I.
Defined.

End Witness.
