(* ===== verification/Extensions.v ===== *)
(** * furcate-mesh-core/src/extensions.rs: the extension surface

    The types exchanged with discovery backends and work brokers, with the form
    their derived serde implementations give them, and the two traits as classes.
    No crate of the workspace implements either trait, so the classes have no
    instance from the sources.

    The integer [max_price] is a [u128]. [WorkOutcome] is externally tagged: a
    map with the variant's name as its only key. *)

From S2P Require Import Prelude RustStd Codecs Core Wire Serde Event.

Definition u128_max : Z := 2 ^ 128 - 1.

(** ** Discovery *)

Record PeerAnnouncement := mk_PeerAnnouncement {
  peer : PeerId;
  endpoint : option string;
  labels : list string;
}.

Inductive DiscoveryError :=
| Setup (msg : string)
| Terminated (msg : string).

Definition fmt_DiscoveryError (e : DiscoveryError) : string :=
  match e with
  | Setup m => "setup: " +:+ m
  | Terminated m => "terminated: " +:+ m
  end.

(** The items of the stream, in order. *)
Definition AnnouncementStream : Type := list (result PeerAnnouncement DiscoveryError).

Class DiscoveryBackend (Self : Type) := {
  start : Self -> result AnnouncementStream DiscoveryError;
}.

(** ** Work brokerage *)

Record WorkOffer := mk_WorkOffer {
  work_type : string;
  request : list u8;
  max_price : option Z;
  deadline_secs : option Z;
}.

(** The machine ranges of the integer fields. *)
Definition offer_wf (o : WorkOffer) : Prop :=
  (forall p, max_price o = Some p -> (0 <= p <= u128_max)%Z) /\
  (forall s, deadline_secs o = Some s -> (0 <= s <= u32_max)%Z).

Inductive WorkOutcome :=
| Completed (response : list u8) (executor : PeerId)
| OutcomeFailed (reason : string)
| Refused (reason : string).

Inductive WorkBrokerError :=
| Unreachable (msg : string)
| Transient (msg : string)
| Failed (msg : string).

Definition fmt_WorkBrokerError (e : WorkBrokerError) : string :=
  match e with
  | Unreachable m => "unreachable: " +:+ m
  | Transient m => "transient: " +:+ m
  | Failed m => "broker failed: " +:+ m
  end.

Class WorkBroker (Self : Type) := {
  offer : Self -> WorkOffer -> result WorkOutcome WorkBrokerError;
}.

(** ** Derived codecs *)

Section Codec.
Context `{HexCrate, Base64Crate}.

Definition announcement_fields : field_list :=
  [("peer", check de_peer); ("endpoint", check (de_option de_str));
   ("labels", check (de_vec de_str))].

Definition ser_announcement (a : PeerAnnouncement) : Value :=
  VObj [("peer", ser_peer (peer a)); ("endpoint", ser_option VStr (endpoint a));
        ("labels", VArr (VStr <$> labels a))].

Definition de_announcement (v : Value) : result PeerAnnouncement DeError :=
  visit_struct announcement_fields v (fun fs =>
    let? peer := field fs 0 de_peer in
    let? endpoint := field_option fs 1 de_str in
    let? labels := field_default [] fs 2 (de_vec de_str) in
    Ok (mk_PeerAnnouncement peer endpoint labels)).

Definition offer_fields : field_list :=
  [("work_type", check de_str); ("request", check de_bytes);
   ("max_price", check (de_option (de_uint u128_max)));
   ("deadline_secs", check (de_option (de_uint u32_max)))].

Definition ser_offer (o : WorkOffer) : Value :=
  VObj [("work_type", VStr (work_type o)); ("request", ser_bytes (request o));
        ("max_price", ser_option VInt (max_price o));
        ("deadline_secs", ser_option VInt (deadline_secs o))].

Definition de_offer (v : Value) : result WorkOffer DeError :=
  visit_struct offer_fields v (fun fs =>
    let? work_type := field fs 0 de_str in
    let? request := field fs 1 de_bytes in
    let? max_price := field_option fs 2 (de_uint u128_max) in
    let? deadline_secs := field_option fs 3 (de_uint u32_max) in
    Ok (mk_WorkOffer work_type request max_price deadline_secs)).

Definition completed_fields : field_list :=
  [("response", check de_bytes); ("executor", check de_peer)].
Definition reason_fields : field_list := [("reason", check de_str)].

Definition ser_outcome (o : WorkOutcome) : Value :=
  match o with
  | Completed response executor =>
      VObj [("Completed", VObj [("response", ser_bytes response); ("executor", ser_peer executor)])]
  | OutcomeFailed reason => VObj [("Failed", VObj [("reason", VStr reason)])]
  | Refused reason => VObj [("Refused", VObj [("reason", VStr reason)])]
  end.

Definition de_completed (v : Value) : result WorkOutcome DeError :=
  visit_struct completed_fields v (fun fs =>
    let? response := field fs 0 de_bytes in
    let? executor := field fs 1 de_peer in
    Ok (Completed response executor)).

Definition de_reason (mk : string -> WorkOutcome) (v : Value) : result WorkOutcome DeError :=
  visit_struct reason_fields v (fun fs =>
    let? reason := field fs 0 de_str in
    Ok (mk reason)).

(** The variant is named by the only key of the map; a string names a variant
    without content, which none of these is. *)
Definition de_outcome (v : Value) : result WorkOutcome DeError :=
  match v with
  | VObj [(k, content)] =>
      if decide (k = "Completed") then de_completed content
      else if decide (k = "Failed") then de_reason OutcomeFailed content
      else if decide (k = "Refused") then de_reason Refused content
      else Err (UnknownVariant k)
  | VObj _ => Err (InvalidValue "map with a single key")
  | VStr k =>
      if decide (k ∈ ["Completed"; "Failed"; "Refused"]) then Err InvalidType
      else Err (UnknownVariant k)
  | _ => Err InvalidType
  end.

End Codec.

(** ** Facts *)

Section Facts.
Context `{HexLaws, Base64Laws}.

Lemma de_announcement_ser a : de_announcement (ser_announcement a) = Ok a.
Proof.
  destruct a as [p e ls].
  pose proof (de_option_ser VStr de_str e ltac:(done)) as He.
  pose proof (de_vec_ser VStr de_str ls ltac:(done)) as Hl.
  eapply visit_struct_written;
    [reflexivity|accept_fields; [apply de_peer_ser|exact He|exact Hl]|reflexivity|].
  erewrite field_written; [|reflexivity|apply de_peer_ser]; cbn [rbind].
  erewrite field_option_written; [|reflexivity|exact He]; cbn [rbind].
  by erewrite field_default_written; [|reflexivity|exact Hl].
Qed.

Lemma de_offer_ser o : offer_wf o -> de_offer (ser_offer o) = Ok o.
Proof.
  destruct o as [t r p s]. intros [Hp Hs]. cbn [max_price deadline_secs] in *.
  assert (forall max n, (forall x, n = Some x -> (0 <= x <= max)%Z) ->
    de_option (de_uint max) (ser_option VInt n) = Ok n) as Hopt.
  { intros max n Hn. apply de_option_ser. intros x ->. split; [done|by apply de_uint_ok, Hn]. }
  apply Hopt in Hp, Hs. clear Hopt.
  eapply visit_struct_written;
    [reflexivity|accept_fields; [reflexivity|apply de_bytes_ser|exact Hp|exact Hs]|reflexivity|].
  erewrite field_written; [|reflexivity|reflexivity]; cbn [rbind].
  erewrite field_written; [|reflexivity|apply de_bytes_ser]; cbn [rbind].
  erewrite field_option_written; [|reflexivity|exact Hp]; cbn [rbind].
  by erewrite field_option_written; [|reflexivity|exact Hs].
Qed.

Lemma de_outcome_ser o : de_outcome (ser_outcome o) = Ok o.
Proof.
  destruct o as [r p|m|m]; [|reflexivity..].
  unfold de_outcome, ser_outcome. rewrite decide_True by done.
  eapply visit_struct_written;
    [reflexivity|accept_fields; [apply de_bytes_ser|apply de_peer_ser]|reflexivity|].
  erewrite field_written; [|reflexivity|apply de_bytes_ser]; cbn [rbind].
  by erewrite field_written; [|reflexivity|apply de_peer_ser].
Qed.

(** The extension types survive their derived wire forms: every peer
    announcement, every work offer with a [u128] price and [u32] deadline, present
    or not, and every outcome are read back exactly as written. *)
Theorem extensions_roundtrip a o out :
  offer_wf o ->
  de_announcement (ser_announcement a) = Ok a /\
  de_offer (ser_offer o) = Ok o /\
  de_outcome (ser_outcome out) = Ok out.
Proof. intros Ho. split_and!; [apply de_announcement_ser|by apply de_offer_ser|apply de_outcome_ser]. Qed.

(** What is accepted as an offer is within the machine ranges, whatever the
    input; keys that are missing or null read as no limit and no deadline. *)
Lemma de_offer_wf v o : de_offer v = Ok o -> offer_wf o.
Proof.
  intros [fs E]%visit_struct_inv. inv_ok. split; cbn; intros ? Hx; by eapply field_option_uint_inv.
Qed.

(** Only a map with one key that names a variant is an outcome. *)
Lemma de_outcome_tagged v o :
  de_outcome v = Ok o ->
  exists k content, v = VObj [(k, content)] /\ k ∈ ["Completed"; "Failed"; "Refused"].
Proof.
  unfold de_outcome. destruct v as [| | | |s| |[|[k c] [|? ?]]]; try done;
    repeat case_decide; try done; intros _; exists k, c; (split; [done|]); subst; set_solver.
Qed.

End Facts.

#[local] Existing Instances RefHex.crate RefHex.laws RefBase64.crate RefBase64.laws.

Module ExtensionsWitness.

Definition big_offer : WorkOffer :=
  mk_WorkOffer "inference:tensor" [Byte.x01; Byte.xff] (Some u128_max) None.

Lemma extensions_roundtrip_witness :
  de_offer (ser_offer big_offer) = Ok big_offer /\
  de_outcome (ser_outcome (Refused "price too low")) = Ok (Refused "price too low").
Proof.
  destruct (extensions_roundtrip
    (mk_PeerAnnouncement (PeerId.from_bytes (array32_repeat Byte.x07)) None ["npu=hailo"])
    big_offer (Refused "price too low")) as (_ & Ho & Hout).
  - split; cbn; [intros ? [= <-]; unfold u128_max; lia|done].
  - by split.
Defined.

(** Absent options are [None] in a map, an error in a sequence. *)
Example missing_options :
  de_offer (VObj [("work_type", VStr "t"); ("request", VStr "")])
  = Ok (mk_WorkOffer "t" [] None None) /\
  de_offer (VArr [VStr "t"; VStr ""]) = Err (InvalidLength 2).
Proof. split; reflexivity. Qed.

End ExtensionsWitness.
