(* ===== verification/Routing.v ===== *)
(** * furcate-mesh-routing: the work-stealing router

    Models crates/furcate-mesh-routing/src/lib.rs. The peer table behind the
    [RwLock] is a finite map; every operation holds the lock for its whole body,
    so an execution is a sequence of operations. [Instant::now()] readings are
    arguments, and so is the sequence in which [HashMap::iter] yields the
    entries (any permutation of the map). *)

From Stdlib Require Import SpecFloat.
From S2P Require Import Prelude RustStd Codecs Core.

(** ** Data *)

Inductive RoutingError :=
| NoSuchModel (model_name : string)
| HopBudget (max_hops : Z).

Inductive Decision :=
| Local
| Forward (to : PeerId).

Record PeerState := mk_PeerState {
  load : f64;
  last_seen : Z;
  models : list string;
}.

Record Router := mk_Router {
  cfg : MeshConfig;
  local : PeerId;
  state : gmap PeerId PeerState;
}.

#[global] Instance Decision_eq_dec : EqDecision Decision.
Proof. solve_decision. Defined.
#[global] Instance RoutingError_eq_dec : EqDecision RoutingError.
Proof. solve_decision. Defined.

#[global] Instance PeerState_eq_dec : EqDecision PeerState.
Proof. solve_decision. Defined.

(** ** Operations *)

Definition Router_new (local : PeerId) (cfg : MeshConfig) : Router :=
  mk_Router cfg local ∅.

Definition with_state (r : Router) (s : gmap PeerId PeerState) : Router :=
  mk_Router (cfg r) (local r) s.

(** [t_insert] is the reading inside [or_insert_with] (taken only for a new
    entry), [t_seen] the one at the end. *)
Definition record_announce (r : Router) (peer : PeerId) (model_name : string)
    (t_insert t_seen : Z) : Router :=
  if decide (peer = local r) then r
  else
    let entry := default (mk_PeerState f64_MAX t_insert []) (state r !! peer) in
    let entry :=
      if negb (existsb (fun m => bool_decide (m = model_name)) (models entry))
      then mk_PeerState (load entry) (last_seen entry) (models entry ++ [model_name])
      else entry in
    let entry := mk_PeerState (load entry) t_seen (models entry) in
    with_state r (<[peer := entry]> (state r)).

Definition record_heartbeat (r : Router) (peer : PeerId) (ld : f64)
    (t_insert t_seen : Z) : Router :=
  if decide (peer = local r) then r
  else
    let entry := default (mk_PeerState ld t_insert []) (state r !! peer) in
    with_state r (<[peer := mk_PeerState ld t_seen (models entry)]> (state r)).

(** The two filters of [route]. *)
Definition is_live (r : Router) (now : Z) (s : PeerState) : bool :=
  (duration_since now (last_seen s) <? Duration_from_secs (peer_dead_after_secs (cfg r)))%Z.

Definition advertises (model_name : string) (s : PeerState) : bool :=
  existsb (fun m => bool_decide (m = model_name)) (models s).

Definition candidates (r : Router) (model_name : string) (now : Z)
    (iter : list (PeerId * PeerState)) : list (PeerId * f64) :=
  (fun '(p, s) => (p, load s)) <$>
    List.filter (fun '(_, s) => advertises model_name s)
      (List.filter (fun '(_, s) => is_live r now s) iter).

Definition candidate_cmp (a b : PeerId * f64) : comparison :=
  then_with (default Eq (partial_cmp a.2 b.2)) (PeerId.cmp a.1 b.1).

Definition route (r : Router) (model_name : string) (local_has : bool) (hops_so_far now : Z)
    (iter : list (PeerId * PeerState)) : result Decision RoutingError :=
  if local_has then Ok Local
  else if (max_hops (cfg r) <=? hops_so_far)%Z then Err (HopBudget (max_hops (cfg r)))
  else
    match sort_by candidate_cmp (candidates r model_name now iter) with
    | [] => Err (NoSuchModel model_name)
    | (to, _) :: _ => Ok (Forward to)
    end.

(** ** Specification of the decision *)

(** A peer the router may forward to. *)
Definition eligible (r : Router) (model_name : string) (now : Z) (p : PeerId) (s : PeerState)
    : Prop :=
  state r !! p = Some s /\ is_live r now s = true /\ advertises model_name s = true.

(** [p] with load [x] is preferred to [q] with load [y]: less loaded, or
    equally loaded and not after it in peer order. *)
Definition preferred (p : PeerId) (x : f64) (q : PeerId) (y : f64) : Prop :=
  partial_cmp x y = Some Lt \/ (partial_cmp x y = Some Eq /\ PeerId.cmp p q <> Gt).

Definition no_nan_loads (r : Router) : Prop :=
  forall p s, state r !! p = Some s -> is_nan (load s) = false.

(** ** The comparison *)

#[global] Instance PeerId_cmp_ord : OrdCmp PeerId.cmp.
Proof.
  split; [intros x y; apply PeerId_cmp_antisym|].
  intros x y z Hxy Hyz.
  destruct (PeerId.cmp x y) eqn:E1; [apply PeerId_cmp_eq in E1 as ->; done| |done].
  destruct (PeerId.cmp y z) eqn:E2; [apply PeerId_cmp_eq in E2 as <-; congruence| |done].
  by rewrite (PeerId_cmp_lt_trans _ _ _ E1 E2).
Qed.

(** The comparison used when no load is NaN. *)
Definition cand_ord (a b : PeerId * f64) : comparison :=
  then_with (f64_key_cmp a.2 b.2) (PeerId.cmp a.1 b.1).

#[global] Instance cand_ord_OrdCmp : OrdCmp cand_ord.
Proof.
  apply (OrdCmp_then (fun a b => f64_key_cmp a.2 b.2)).
  - apply (OrdCmp_comap snd), _.
  - apply (OrdCmp_comap fst), _.
Qed.

Definition not_nan (a : PeerId * f64) : Prop := is_nan a.2 = false.

Lemma candidate_cmp_ord a b : not_nan a -> not_nan b -> candidate_cmp a b = cand_ord a b.
Proof. intros Ha Hb. unfold candidate_cmp, cand_ord. by rewrite partial_cmp_key. Qed.

Lemma candidate_cmp_trans a b c :
  not_nan a -> not_nan b -> not_nan c ->
  candidate_cmp a b <> Gt -> candidate_cmp b c <> Gt -> candidate_cmp a c <> Gt.
Proof. intros Ha Hb Hc. rewrite !candidate_cmp_ord by done. apply (ord_trans cand_ord). Qed.

Lemma candidate_cmp_total a b :
  not_nan a -> not_nan b -> candidate_cmp a b <> Gt \/ candidate_cmp b a <> Gt.
Proof. intros Ha Hb. rewrite !candidate_cmp_ord by done. apply (ord_total cand_ord). Qed.

Lemma candidate_cmp_preferred p x q y :
  is_nan x = false -> is_nan y = false ->
  candidate_cmp (p, x) (q, y) <> Gt <-> preferred p x q y.
Proof.
  intros Hx Hy. unfold candidate_cmp, preferred; cbn.
  rewrite partial_cmp_key by done; cbn. destruct (f64_key_cmp x y); cbn; naive_solver.
Qed.

(** Preference decides between two peers: at most one is preferred. *)
Lemma preferred_antisym p x q y :
  is_nan x = false -> is_nan y = false ->
  preferred p x q y -> preferred q y p x -> p = q.
Proof.
  intros Hx Hy. rewrite <- !candidate_cmp_preferred by done.
  rewrite !candidate_cmp_ord by done. unfold cand_ord; cbn.
  rewrite (ord_opp f64_key_cmp x y), (ord_opp PeerId.cmp p q).
  destruct (f64_key_cmp x y); cbn; [|done..].
  destruct (PeerId.cmp p q) eqn:E; cbn; [|done..]. intros _ _. by apply PeerId_cmp_eq.
Qed.

(** ** Candidates *)

Lemma elem_of_candidates r model now iter p x :
  iter ≡ₚ map_to_list (state r) ->
  (p, x) ∈ candidates r model now iter <->
  exists s, eligible r model now p s /\ load s = x.
Proof.
  intros Hp. unfold candidates, eligible. rewrite list_elem_of_fmap. split.
  - intros ([q s] & [= -> ->] & Hin). apply list_elem_of_In in Hin.
    rewrite !filter_In in Hin. destruct Hin as [[Hin Hl] Ha].
    apply list_elem_of_In in Hin. rewrite Hp in Hin.
    apply elem_of_map_to_list in Hin. eauto.
  - intros (s & (Hs & Hl & Ha) & <-). exists (p, s). split; [done|].
    apply list_elem_of_In. rewrite !filter_In. repeat split; [|done..].
    apply list_elem_of_In. rewrite Hp. by apply elem_of_map_to_list.
Qed.

Lemma candidates_not_nan r model now iter :
  no_nan_loads r -> iter ≡ₚ map_to_list (state r) ->
  Forall not_nan (candidates r model now iter).
Proof.
  intros Hn Hp. apply Forall_forall. intros [p x] Hin.
  apply elem_of_candidates in Hin as (s & (Hs & _) & <-); [|done]. by eapply Hn.
Qed.

Lemma sort_by_nil {A} (cmp : A -> A -> comparison) l : sort_by cmp l = [] <-> l = [].
Proof.
  split; [|by intros ->]. intros E. pose proof (sort_by_perm cmp l) as P.
  rewrite E in P. by apply Permutation_nil_l in P.
Qed.

(** ** The decision is the specified one *)

Section Route.
Context (r : Router) (model : string) (hops now : Z) (iter : list (PeerId * PeerState)).
Hypothesis Hiter : iter ≡ₚ map_to_list (state r).

Lemma route_none :
  (hops < max_hops (cfg r))%Z ->
  route r model false hops now iter = Err (NoSuchModel model) <->
  forall p s, ~ eligible r model now p s.
Proof.
  intros Hh. unfold route. rewrite (proj2 (Z.leb_gt _ _)) by lia.
  destruct (sort_by _ _) as [|[to x] l] eqn:E.
  - apply sort_by_nil in E. split; [|done]. intros _ p s He.
    assert ((p, load s) ∈ candidates r model now iter) as Hin
      by (apply elem_of_candidates; eauto).
    rewrite E in Hin. by apply elem_of_nil in Hin.
  - split; [done|]. intros Hn. exfalso.
    assert ((to, x) ∈ candidates r model now iter) as Hin
      by (rewrite <- (sort_by_perm candidate_cmp), E; left).
    apply elem_of_candidates in Hin as (s & He & _); [|done]. by eapply Hn.
Qed.

Lemma route_cases :
  (hops < max_hops (cfg r))%Z ->
  route r model false hops now iter = Err (NoSuchModel model) \/
  exists to, route r model false hops now iter = Ok (Forward to).
Proof.
  intros Hh. unfold route. rewrite (proj2 (Z.leb_gt _ _)) by lia.
  destruct (sort_by _ _) as [|[to x] l]; eauto.
Qed.

(** Even with NaN loads the target is an eligible peer. *)
Lemma route_forward_eligible local_has to :
  route r model local_has hops now iter = Ok (Forward to) ->
  local_has = false /\ (hops < max_hops (cfg r))%Z /\ exists s, eligible r model now to s.
Proof.
  unfold route. destruct local_has; [done|].
  destruct (Z.leb_spec (max_hops (cfg r)) hops); [done|].
  destruct (sort_by _ _) as [|[p x] l] eqn:E; [done|]. intros [= ->].
  assert ((to, x) ∈ candidates r model now iter) as Hin
    by (rewrite <- (sort_by_perm candidate_cmp), E; left).
  apply elem_of_candidates in Hin as (s & He & _); [|done]. eauto.
Qed.

Hypothesis Hnan : no_nan_loads r.

Lemma route_forward_least to :
  route r model false hops now iter = Ok (Forward to) ->
  exists s, eligible r model now to s /\
    forall q s', eligible r model now q s' -> preferred to (load s) q (load s').
Proof.
  unfold route. destruct (_ <=? _)%Z; [done|].
  destruct (sort_by _ _) as [|[p x] l] eqn:E; [done|]. intros [= ->].
  destruct (sort_by_head_least candidate_cmp not_nan candidate_cmp_trans
              candidate_cmp_total _ _ _ (candidates_not_nan _ _ _ _ Hnan Hiter) E) as [Hin Hle].
  apply elem_of_candidates in Hin as (s & He & <-); [|done].
  exists s. split; [done|]. intros q s' He'.
  apply candidate_cmp_preferred; [by eapply Hnan, He|by eapply Hnan, He'|].
  apply Hle, elem_of_candidates; eauto.
Qed.

Lemma route_forward_iff to :
  (hops < max_hops (cfg r))%Z ->
  route r model false hops now iter = Ok (Forward to) <->
  exists s, eligible r model now to s /\
    forall q s', eligible r model now q s' -> preferred to (load s) q (load s').
Proof.
  intros Hh. split; [apply route_forward_least|]. intros (s & He & Hbest).
  destruct (route_cases Hh) as [E|[p E]].
  - destruct (proj1 (route_none Hh) E to s He).
  - rewrite E. destruct (route_forward_least p E) as (s' & He' & Hbest').
    do 2 f_equal. apply (preferred_antisym p (load s') to (load s)); eauto;
      by eapply Hnan, He || eapply Hnan, He'.
Qed.

End Route.

(** C5: [Router::route] on every branch. With the model loaded locally it
    serves locally; otherwise an exhausted hop budget is reported first; then,
    if no live peer advertises the model, [NoSuchModel]; and it forwards to a
    peer exactly when that peer is live, advertises the model, and is the least
    loaded such peer, ties broken by [PeerId] order (loads not NaN). *)
Theorem route_correct r model local_has hops now iter :
  iter ≡ₚ map_to_list (state r) -> no_nan_loads r ->
  (local_has = true -> route r model local_has hops now iter = Ok Local) /\
  (local_has = false -> (max_hops (cfg r) <= hops)%Z ->
     route r model local_has hops now iter = Err (HopBudget (max_hops (cfg r)))) /\
  (local_has = false -> (hops < max_hops (cfg r))%Z ->
     (route r model local_has hops now iter = Err (NoSuchModel model) <->
        forall p s, ~ eligible r model now p s) /\
     (forall to, route r model local_has hops now iter = Ok (Forward to) <->
        exists s, eligible r model now to s /\
          forall q s', eligible r model now q s' -> preferred to (load s) q (load s'))).
Proof.
  intros Hi Hn. split; [by intros ->|]. split.
  - intros -> Hh. unfold route. by rewrite (proj2 (Z.leb_le _ _) Hh).
  - intros -> Hh. split; [by apply route_none|]. intros to. by apply route_forward_iff.
Qed.

(** The decision does not depend on the order in which the hash map
    yields its entries, so two routers with the same table pick the same
    target (loads not NaN). *)
Theorem route_deterministic r model local_has hops now iter1 iter2 :
  iter1 ≡ₚ map_to_list (state r) -> iter2 ≡ₚ map_to_list (state r) -> no_nan_loads r ->
  route r model local_has hops now iter1 = route r model local_has hops now iter2.
Proof.
  intros H1 H2 Hn. destruct local_has; [done|].
  destruct (Z.le_gt_cases (max_hops (cfg r)) hops) as [Hh|Hh].
  { unfold route. by rewrite (proj2 (Z.leb_le _ _) Hh). }
  destruct (route_cases r model hops now iter1 Hh) as [E|[p E]]; rewrite E; symmetry.
  - apply route_none; [done..|]. by apply (route_none r model hops now iter1).
  - apply route_forward_iff; [done..|]. by apply (route_forward_iff r model hops now iter1).
Qed.

(** ** Executions: the table is a function of the gossip received *)

(** One recorded gossip message, with the clock readings of its handler. *)
Inductive gossip :=
| GAnnounce (peer : PeerId) (model_name : string) (t_insert t_seen : Z)
| GHeartbeat (peer : PeerId) (ld : f64) (t_insert t_seen : Z).

Definition apply_gossip (r : Router) (g : gossip) : Router :=
  match g with
  | GAnnounce p m t0 t => record_announce r p m t0 t
  | GHeartbeat p l t0 t => record_heartbeat r p l t0 t
  end.

Definition run (r : Router) (h : list gossip) : Router := foldl apply_gossip r h.

Definition gossip_peer (g : gossip) : PeerId :=
  match g with GAnnounce p _ _ _ | GHeartbeat p _ _ _ => p end.

Definition gossip_time (g : gossip) : Z :=
  match g with GAnnounce _ _ _ t | GHeartbeat _ _ _ t => t end.

(** What a history says about a peer: the messages it sent, the loads it
    reported, the models it announced. *)
Definition messages_of (p : PeerId) (h : list gossip) : list gossip :=
  filter (fun g => gossip_peer g = p) h.

Definition loads_of (p : PeerId) (h : list gossip) : list f64 :=
  omap (fun g => match g with GHeartbeat _ l _ _ => Some l | _ => None end) (messages_of p h).

Definition announced (h : list gossip) (p : PeerId) (m : string) : Prop :=
  exists t0 t, GAnnounce p m t0 t ∈ h.

(** The abstract view of one peer after a history. *)
Record peer_view (h : list gossip) (p : PeerId) (s : PeerState) : Prop := {
  view_load : load s = default f64_MAX (last (loads_of p h));
  view_seen : last (gossip_time <$> messages_of p h) = Some (last_seen s);
  view_models : forall m, m ∈ models s <-> announced h p m;
  view_nodup : NoDup (models s);
}.

Definition table_view (h : list gossip) (r : Router) : Prop :=
  forall p, match state r !! p with
            | Some s => p <> local r /\ peer_view h p s
            | None => p = local r \/ messages_of p h = []
            end.

Lemma messages_of_snoc p h g :
  messages_of p (h ++ [g]) =
  messages_of p h ++ (if decide (gossip_peer g = p) then [g] else []).
Proof.
  unfold messages_of. by rewrite filter_app.
Qed.

Lemma announced_snoc h g p m :
  announced (h ++ [g]) p m <->
  announced h p m \/ exists t0 t, g = GAnnounce p m t0 t.
Proof.
  unfold announced. setoid_rewrite elem_of_app. setoid_rewrite list_elem_of_singleton.
  naive_solver.
Qed.

Lemma announced_no_messages h p m : messages_of p h = [] -> ~ announced h p m.
Proof.
  intros E (t0 & t & Hin).
  assert (GAnnounce p m t0 t ∈ messages_of p h) as H
    by (apply list_elem_of_filter; done).
  rewrite E in H. by apply elem_of_nil in H.
Qed.

Lemma existsb_bool_decide (x : string) l :
  existsb (fun m => bool_decide (m = x)) l = true <-> x ∈ l.
Proof.
  rewrite existsb_exists. setoid_rewrite bool_decide_eq_true.
  rewrite list_elem_of_In. naive_solver.
Qed.

(** A message about another peer leaves a peer's view alone. *)
Lemma peer_view_other h g p s :
  gossip_peer g <> p -> peer_view h p s -> peer_view (h ++ [g]) p s.
Proof.
  intros Hg [Hl Hs Hm Hd].
  split; unfold loads_of; rewrite ?messages_of_snoc, ?decide_False, ?app_nil_r by done; auto.
  intros m. rewrite announced_snoc, Hm. split; [by left|].
  intros [?|(t0 & t & ->)]; done.
Qed.

(** The state of a peer the router does not know yet, as an empty view. *)
Lemma empty_view_models h p m : messages_of p h = [] -> m ∈ @nil string <-> announced h p m.
Proof.
  intros E. split; [by intros ?%elem_of_nil|]. by intros ?%announced_no_messages.
Qed.

Lemma announce_view h p m t0 t s :
  (forall x, x ∈ models s <-> announced h p x) -> NoDup (models s) ->
  load s = default f64_MAX (last (loads_of p h)) ->
  let ms := if negb (existsb (fun x => bool_decide (x = m)) (models s))
            then models s ++ [m] else models s in
  peer_view (h ++ [GAnnounce p m t0 t]) p (mk_PeerState (load s) t ms).
Proof.
  intros Hm Hd Hl ms.
  assert (forall x, x ∈ ms <-> x ∈ models s \/ x = m) as Hms.
  { intros x. unfold ms. destruct (existsb _ _) eqn:E; cbn.
    - apply existsb_bool_decide in E. naive_solver.
    - rewrite elem_of_app, list_elem_of_singleton. done. }
  split; cbn; unfold loads_of; rewrite ?messages_of_snoc, ?decide_True by done.
  - rewrite omap_app; cbn. by rewrite app_nil_r.
  - rewrite fmap_app. apply last_snoc.
  - intros x. rewrite Hms, Hm, announced_snoc. naive_solver.
  - unfold ms. destruct (existsb _ _) eqn:E; cbn; [done|].
    apply NoDup_app. repeat split; [done| |apply NoDup_singleton].
    intros x Hx ->%list_elem_of_singleton.
    apply existsb_bool_decide in Hx. congruence.
Qed.

Lemma heartbeat_view h p l t0 t ms :
  (forall x, x ∈ ms <-> announced h p x) -> NoDup ms ->
  peer_view (h ++ [GHeartbeat p l t0 t]) p (mk_PeerState l t ms).
Proof.
  intros Hm Hd. split; cbn; unfold loads_of; rewrite ?messages_of_snoc, ?decide_True by done.
  - rewrite omap_app. symmetry. exact (f_equal (default f64_MAX) (last_snoc l _)).
  - rewrite fmap_app. apply last_snoc.
  - intros x. rewrite Hm, announced_snoc. naive_solver.
  - done.
Qed.

Lemma local_apply_gossip r g : local (apply_gossip r g) = local r /\ cfg (apply_gossip r g) = cfg r.
Proof.
  destruct g; cbn; unfold record_announce, record_heartbeat; case_decide; done.
Qed.

(** One message: the table stays the view of the extended history. *)
Lemma table_view_step h r g : table_view h r -> table_view (h ++ [g]) (apply_gossip r g).
Proof.
  intros Hv p. rewrite (proj1 (local_apply_gossip r g)). pose proof (Hv p) as Hp.
  destruct (decide (gossip_peer g = p)) as [<-|Hne].
  - destruct (decide (gossip_peer g = local r)) as [Hl|Hl].
    + assert (apply_gossip r g = r) as ->.
      { destruct g; cbn in *; unfold record_announce, record_heartbeat; by rewrite decide_True. }
      destruct (state r !! _) as [s|]; [naive_solver|by left].
    + destruct g as [p m t0 t|p l t0 t]; cbn in *;
        unfold record_announce, record_heartbeat; rewrite decide_False by done; cbn;
        rewrite lookup_insert_eq; split; try done;
        destruct (state r !! p) as [s|]; cbn.
      * destruct Hp as [_ [Hld _ Hm Hd]].
        pose proof (announce_view h p m t0 t s Hm Hd Hld) as V. by destruct (negb _).
      * destruct Hp as [|Hp]; [done|].
        apply (announce_view h p m t0 t (mk_PeerState f64_MAX t0 [])); cbn.
        -- intros x. by apply empty_view_models.
        -- constructor.
        -- unfold loads_of. by rewrite Hp.
      * destruct Hp as [_ [_ _ Hm Hd]]. by apply heartbeat_view.
      * destruct Hp as [|Hp]; [done|]. apply heartbeat_view; [|constructor].
        intros x. by apply empty_view_models.
  - assert (state (apply_gossip r g) !! p = state r !! p) as ->.
    { destruct g; cbn in *; unfold record_announce, record_heartbeat; case_decide; cbn; try done;
        by rewrite lookup_insert_ne. }
    destruct (state r !! p) as [s|].
    + destruct Hp as [? ?]. split; [done|]. by apply peer_view_other.
    + destruct Hp as [?|Hp]; [by left|right].
      by rewrite messages_of_snoc, decide_False, app_nil_r.
Qed.

Lemma local_run r h : local (run r h) = local r /\ cfg (run r h) = cfg r.
Proof.
  revert r; induction h as [|g h IH]; intros r; [done|].
  change (run r (g :: h)) with (run (apply_gossip r g) h).
  destruct (IH (apply_gossip r g)) as [-> ->]. apply local_apply_gossip.
Qed.

Lemma table_view_run l c h : table_view h (run (Router_new l c) h).
Proof.
  induction h as [|g h IH] using rev_ind.
  - intros p; cbn. rewrite lookup_empty. by right.
  - unfold run in *. rewrite foldl_app; cbn. by apply table_view_step.
Qed.

(** C13: refinement of the peer table by the gossip history. After any sequence
    of recorded announcements and heartbeats, a peer other than the local one
    that sent a message is in the table with exactly: the load of its last
    heartbeat ([f64::MAX] before any), the time of its last message, and its
    announced models without duplicates; nobody else is in the table. *)
Theorem router_refines_history l c h p :
  match state (run (Router_new l c) h) !! p with
  | Some s => p <> l /\ peer_view h p s
  | None => p = l \/ messages_of p h = []
  end.
Proof.
  pose proof (table_view_run l c h p) as V.
  by rewrite (proj1 (local_run _ h)) in V.
Qed.

(** Who may be forwarded to, in terms of the history alone. *)
Lemma eligible_history l c h model now p :
  (exists s, eligible (run (Router_new l c) h) model now p s) <->
  p <> l /\ announced h p model /\
  exists g, last (messages_of p h) = Some g /\
    (duration_since now (gossip_time g) < Duration_from_secs (peer_dead_after_secs c))%Z.
Proof.
  pose proof (local_run (Router_new l c) h) as [El Ec]; cbn in El, Ec.
  pose proof (table_view_run l c h p) as V. rewrite El in V. unfold eligible, is_live, advertises.
  rewrite Ec. destruct (state (run (Router_new l c) h) !! p) as [s|].
  - destruct V as [Hne [_ Hseen Hm _]]. rewrite fmap_last in Hseen.
    destruct (last (messages_of p h)) as [g|]; [|done]. injection Hseen as Hseen. split.
    + intros (s' & [= <-] & Hl%Z.ltb_lt & Ha). apply existsb_bool_decide, Hm in Ha.
      split_and!; [done..|]. exists g. by rewrite Hseen.
    + intros (_ & Ha & g' & [= <-] & Hl). exists s. split; [done|]. rewrite <- Hseen.
      split; [by apply Z.ltb_lt|]. by apply existsb_bool_decide, Hm.
  - split; [by intros (? & [=] & _)|]. intros (Hne & _ & g & Hg & _).
    destruct V as [->|V]; [done|]. by rewrite V in Hg.
Qed.

(** C30: soundness of forwarding against the history, for any loads: if the
    router forwards a request, then not to itself, the request still had hop
    budget, the target announced the model, and the last message received from
    it is younger than [peer_dead_after_secs]. *)
Theorem route_forward_sound l c h model local_has hops now iter to :
  iter ≡ₚ map_to_list (state (run (Router_new l c) h)) ->
  route (run (Router_new l c) h) model local_has hops now iter = Ok (Forward to) ->
  local_has = false /\ (hops < max_hops c)%Z /\ to <> l /\ announced h to model /\
  exists g, last (messages_of to h) = Some g /\
    (now - gossip_time g < peer_dead_after_secs c * nanos_per_sec)%Z.
Proof.
  intros Hi Hr. apply route_forward_eligible in Hr as (Hl & Hh & Hs); [|done].
  apply eligible_history in Hs as (Hne & Ha & g & Hg & Hlt).
  rewrite (proj2 (local_run (Router_new l c) h)) in Hh. repeat split; try done.
  exists g. split; [done|]. unfold duration_since, Duration_from_secs in Hlt. lia.
Qed.

(** A heartbeat or announcement is never ignored for liveness: right after
    recording a message of another peer at time [t], that peer is live until
    the dead interval has passed, and announcing a model makes it eligible. *)
Theorem announce_makes_eligible r p m t0 t now :
  p <> local r -> (t <= now < t + Duration_from_secs (peer_dead_after_secs (cfg r)))%Z ->
  exists s, eligible (record_announce r p m t0 t) m now p s.
Proof.
  intros Hp Ht. unfold record_announce. rewrite decide_False by done.
  eexists. split; [apply lookup_insert_eq|]. split.
  - unfold is_live, duration_since; cbn. apply Z.ltb_lt. lia.
  - apply existsb_bool_decide; cbn. destruct (existsb _ _) eqn:E; cbn.
    + by apply existsb_bool_decide.
    + apply elem_of_app. right. by apply list_elem_of_singleton.
Qed.


(** ** NaN loads *)

Module Nan.

Definition pid (b : u8) : PeerId := PeerId.from_bytes (array32_repeat b).
Definition tenth : f64 := S754_finite false 7205759403792794 (-56).
Definition ninetenths : f64 := S754_finite false 8106479329266893 (-53).

(** Three peers advertising a model; the second reported NaN. *)
Definition history : list gossip :=
  [GAnnounce (pid Byte.x01) "llama" 0 0; GHeartbeat (pid Byte.x01) ninetenths 0 0;
   GAnnounce (pid Byte.x02) "llama" 0 0; GHeartbeat (pid Byte.x02) S754_nan 0 0;
   GAnnounce (pid Byte.x03) "llama" 0 0; GHeartbeat (pid Byte.x03) tenth 0 0]%Z.
Definition router : Router := run (Router_new (pid Byte.x00) MeshConfig_default) history.
Definition entry (b : u8) (l : f64) : PeerId * PeerState := (pid b, mk_PeerState l 0 ["llama"]).
Definition a := entry Byte.x01 ninetenths.
Definition b := entry Byte.x02 S754_nan.
Definition c := entry Byte.x03 tenth.

Lemma pids_distinct :
  pid Byte.x03 <> pid Byte.x02 /\ pid Byte.x03 <> pid Byte.x01 /\
  pid Byte.x02 <> pid Byte.x01 /\ pid Byte.x01 <> pid Byte.x00 /\
  pid Byte.x02 <> pid Byte.x00 /\ pid Byte.x03 <> pid Byte.x00.
Proof. repeat split; discriminate. Qed.

(** A fresh peer's announcement followed by its heartbeat. *)
Lemma announce_then_heartbeat r p l :
  p <> local r -> state r !! p = None ->
  state (run r [GAnnounce p "llama" 0 0; GHeartbeat p l 0 0]) =
  <[p := mk_PeerState l 0 ["llama"]]> (state r).
Proof.
  intros Hp Hn. cbn. unfold record_announce. rewrite decide_False by done.
  unfold record_heartbeat; cbn. rewrite decide_False by done.
  rewrite lookup_insert_eq, Hn; cbn. by rewrite insert_insert_eq.
Qed.

Lemma router_state :
  state router = <[pid Byte.x03 := c.2]> (<[pid Byte.x02 := b.2]> (<[pid Byte.x01 := a.2]> ∅)).
Proof.
  destruct pids_distinct as (H32 & H31 & H21 & H10 & H20 & H30).
  unfold router. set (r0 := Router_new _ _).
  set (r1 := run r0 [GAnnounce (pid Byte.x01) "llama" 0 0; GHeartbeat (pid Byte.x01) ninetenths 0 0]%Z).
  set (r2 := run r1 [GAnnounce (pid Byte.x02) "llama" 0 0; GHeartbeat (pid Byte.x02) S754_nan 0 0]%Z).
  change (run r0 history) with
    (run r2 [GAnnounce (pid Byte.x03) "llama" 0 0; GHeartbeat (pid Byte.x03) tenth 0 0]%Z).
  assert (state r1 = <[pid Byte.x01 := a.2]> ∅) as E1 by (by apply announce_then_heartbeat).
  assert (local r1 = pid Byte.x00) as L1 by apply local_run.
  assert (state r2 = <[pid Byte.x02 := b.2]> (<[pid Byte.x01 := a.2]> ∅)) as E2.
  { rewrite <- E1. apply announce_then_heartbeat; [by rewrite L1|].
    by rewrite E1, lookup_insert_ne. }
  assert (local r2 = pid Byte.x00) as L2 by (unfold r2; rewrite (proj1 (local_run r1 _)); done).
  rewrite <- E2. apply announce_then_heartbeat; [by rewrite L2|].
  by rewrite E2, !lookup_insert_ne.
Qed.

Lemma router_iter : [c; b; a] ≡ₚ map_to_list (state router).
Proof.
  destruct pids_distinct as (H32 & H31 & H21 & _). rewrite router_state.
  rewrite !map_to_list_insert, map_to_list_empty; [done|..];
    rewrite ?lookup_insert_ne by done; apply lookup_empty.
Qed.

(** A NaN load breaks the determinism the sort is meant to give: the
    comparison [route] sorts by is then cyclic (not an order), and two iteration
    orders of the same table are answered with different targets. *)
Theorem nan_load_breaks_order :
  candidate_cmp (pid Byte.x01, ninetenths) (pid Byte.x02, S754_nan) = Lt /\
  candidate_cmp (pid Byte.x02, S754_nan) (pid Byte.x03, tenth) = Lt /\
  candidate_cmp (pid Byte.x03, tenth) (pid Byte.x01, ninetenths) = Lt /\
  [a; b; c] ≡ₚ map_to_list (state router) /\ [b; a; c] ≡ₚ map_to_list (state router) /\
  route router "llama" false 0 0 [a; b; c] = Ok (Forward (pid Byte.x01)) /\
  route router "llama" false 0 0 [b; a; c] = Ok (Forward (pid Byte.x02)).
Proof.
  rewrite <- router_iter. unfold route, candidates, is_live.
  rewrite (proj2 (local_run _ history) : cfg router = MeshConfig_default).
  repeat split; try (vm_compute; reflexivity); solve_Permutation.
Qed.

End Nan.

(** ** Witnesses *)

Module Witness.
Import Nan.

(** Two peers serve the model; the second is less loaded. *)
Definition h2 : list gossip :=
  ([GAnnounce (pid Byte.x01) "llama" 0 0; GHeartbeat (pid Byte.x01) ninetenths 0 0] ++
   [GAnnounce (pid Byte.x02) "llama" 0 0; GHeartbeat (pid Byte.x02) tenth 0 0])%Z.
Definition r2 : Router := run (Router_new (pid Byte.x00) MeshConfig_default) h2.
Definition s1 : PeerState := mk_PeerState ninetenths 0 ["llama"].
Definition s2 : PeerState := mk_PeerState tenth 0 ["llama"].

Lemma r2_state : state r2 = <[pid Byte.x02 := s2]> (<[pid Byte.x01 := s1]> ∅).
Proof.
  destruct pids_distinct as (_ & _ & H21 & H10 & H20 & _).
  unfold r2, run, h2. rewrite foldl_app. fold (run (Router_new (pid Byte.x00) MeshConfig_default)
    [GAnnounce (pid Byte.x01) "llama" 0 0; GHeartbeat (pid Byte.x01) ninetenths 0 0]%Z).
  set (r1 := run _ _).
  assert (state r1 = <[pid Byte.x01 := s1]> ∅) as E1 by (by apply announce_then_heartbeat).
  assert (local r1 = pid Byte.x00) as L1 by apply local_run.
  rewrite <- E1. apply announce_then_heartbeat; [by rewrite L1|].
  by rewrite E1, lookup_insert_ne.
Qed.

Lemma r2_lookup p s : state r2 !! p = Some s -> (p = pid Byte.x01 /\ s = s1) \/ (p = pid Byte.x02 /\ s = s2).
Proof.
  rewrite r2_state. rewrite !lookup_insert_Some, lookup_empty. naive_solver.
Qed.

Lemma r2_no_nan : no_nan_loads r2.
Proof. intros p s [[_ ->]|[_ ->]]%r2_lookup; done. Qed.

Lemma route_correct_witness :
  route r2 "llama" false 0 0 (map_to_list (state r2)) = Ok (Forward (pid Byte.x02)).
Proof.
  destruct pids_distinct as (_ & _ & H21 & _).
  apply (route_correct r2 "llama" false 0 0 (map_to_list (state r2)) ltac:(done) r2_no_nan);
    [done|vm_compute; reflexivity|].
  exists s2. split.
  - split; [by rewrite r2_state, lookup_insert_eq|]. split; vm_compute; reflexivity.
  - intros q s' (Hq & _). apply r2_lookup in Hq as [[-> ->]|[-> ->]].
    + left. vm_compute. reflexivity.
    + right. split; [vm_compute; reflexivity|]. rewrite (ord_refl PeerId.cmp). done.
Defined.

Lemma route_deterministic_witness :
  route r2 "llama" false 0 0 (map_to_list (state r2)) =
  route r2 "llama" false 0 0 (rev (map_to_list (state r2))).
Proof.
  apply (route_deterministic r2 "llama" false 0 0 (map_to_list (state r2))
           (rev (map_to_list (state r2)))).
  - done.
  - symmetry. apply Permutation_rev.
  - exact r2_no_nan.
Defined.

(** A single announcing peer, whose table has one iteration order. *)
Definition h1 : list gossip := [GAnnounce (pid Byte.x01) "llama" 0 0]%Z.
Definition it1 : list (PeerId * PeerState) := [(pid Byte.x01, mk_PeerState f64_MAX 0 ["llama"])].

Lemma it1_perm : it1 ≡ₚ map_to_list (state (run (Router_new (pid Byte.x00) MeshConfig_default) h1)).
Proof.
  destruct pids_distinct as (_ & _ & _ & H10 & _). unfold h1, run; cbn [foldl apply_gossip].
  unfold record_announce. rewrite decide_False by done. cbn [with_state state Router_new].
  rewrite lookup_empty; cbn.
  by rewrite map_to_list_insert, map_to_list_empty by apply lookup_empty.
Qed.

Lemma route_forward_sound_witness :
  route (run (Router_new (pid Byte.x00) MeshConfig_default) h1) "llama" false 0 0 it1 =
    Ok (Forward (pid Byte.x01)) /\
  announced h1 (pid Byte.x01) "llama".
Proof.
  assert (route (run (Router_new (pid Byte.x00) MeshConfig_default) h1) "llama" false 0 0 it1 =
    Ok (Forward (pid Byte.x01))) as Hr by (vm_compute; reflexivity).
  split; [exact Hr|].
  apply (route_forward_sound (pid Byte.x00) MeshConfig_default h1 "llama" false 0 0 it1
           (pid Byte.x01) it1_perm Hr).
Defined.


Lemma announce_makes_eligible_witness :
  exists s, eligible (record_announce (Router_new (pid Byte.x00) MeshConfig_default)
                        (pid Byte.x01) "llama" 5 5) "llama" 6 (pid Byte.x01) s.
Proof.
  apply announce_makes_eligible; [discriminate|]. vm_compute. split; congruence.
Defined.

End Witness.
