(* ===== verification/Json.v ===== *)
(** * The [serde_json] text codec

    A third-party crate: [to_vec] and [from_slice] are operations of a class over
    the [Value] trees of Wire.v, and its laws are what the crate documents. The text
    that is written is the compact JSON of the tree, [json_text]; only the digits of a
    float are left to the crate. Such a text is read back as the same tree, up to the
    crate's limit on nesting, with every float as the crate reads its digits
    ([reread_float]): exact float round trips need its [float_roundtrip] feature, which
    the workspace does not enable. Floats that are not finite are written as [null] and
    never read: numbers beyond the range of [f64] are an error. [RefJson] is a printer
    and parser of such texts. *)

From Stdlib Require Import Ascii SpecFloat.
From S2P Require Import Prelude RustStd Codecs Core Wire Event.

(** ** Trees *)

(** Trees with a JSON text: floats finite, integers within [i64]/[u64]. *)
Fixpoint json_ok (v : Value) : bool :=
  match v with
  | VNull | VBool _ | VStr _ => true
  | VInt n => (- (2 ^ 63) <=? n)%Z && (n <=? u64_max)%Z
  | VFloat f => is_finite f
  | VArr l => forallb json_ok l
  | VObj l => forallb (fun kv => json_ok kv.2) l
  end.

Fixpoint no_floats (v : Value) : bool :=
  match v with
  | VNull | VBool _ | VStr _ | VInt _ => true
  | VFloat _ => false
  | VArr l => forallb no_floats l
  | VObj l => forallb (fun kv => no_floats kv.2) l
  end.

(** What is written of a tree: [null] in place of the floats that are not finite. *)
Fixpoint nullify (v : Value) : Value :=
  match v with
  | VFloat f => if is_finite f then VFloat f else VNull
  | VArr l => VArr (map nullify l)
  | VObj l => VObj (map (fun kv => (kv.1, nullify kv.2)) l)
  | _ => v
  end.

(** All floats of a tree are finite. *)
Fixpoint finite_floats (v : Value) : bool :=
  match v with
  | VNull | VBool _ | VStr _ | VInt _ => true
  | VFloat f => is_finite f
  | VArr l => forallb finite_floats l
  | VObj l => forallb (fun kv => finite_floats kv.2) l
  end.

(** The tree with each float replaced by what [read] makes of it. *)
Fixpoint reread (read : f64 -> f64) (v : Value) : Value :=
  match v with
  | VFloat f => VFloat (read f)
  | VArr l => VArr (map (reread read) l)
  | VObj l => VObj (map (fun kv => (kv.1, reread read kv.2)) l)
  | _ => v
  end.

(** How deep arrays and objects are nested. *)
Fixpoint depth (v : Value) : nat :=
  match v with
  | VArr l => S (list_max (map depth l))
  | VObj l => S (list_max (map (fun kv => depth kv.2) l))
  | _ => 0
  end.

(** The crates that read trees stop at some depth, the JSON one at 128. *)
Definition shallow (v : Value) : bool := depth v <? 128.

(** ** The text *)

Definition quote : ascii := ascii_of_nat 34.
Definition backslash : ascii := ascii_of_nat 92.

Definition quoted (s : string) : string := String quote (s +:+ String quote "").

(** Characters written as they are: printable ASCII without the quote and the
    backslash. *)
Definition plain_char (c : ascii) : bool :=
  let n := nat_of_ascii c in (32 <=? n) && (n <=? 126) && negb (n =? 34) && negb (n =? 92).

(** The escapes of the crate: the two-character ones where JSON has them, and
    [\u00xx] for the other control characters. *)
Definition escape_char (c : ascii) : string :=
  let short d := String backslash (String d "") in
  let n := nat_of_ascii c in
  if (n =? 34) || (n =? 92) then short c
  else if n =? 8 then short "b"%char
  else if n =? 9 then short "t"%char
  else if n =? 10 then short "n"%char
  else if n =? 12 then short "f"%char
  else if n =? 13 then short "r"%char
  else if n <? 32 then String backslash ("u00" +:+ Rfc4648.base16 [byte_of_ascii c])
  else String c "".

Fixpoint escape (s : string) : string :=
  match s with
  | "" => ""
  | String c s' => escape_char c +:+ escape s'
  end.

Fixpoint join (sep : string) (l : list string) : string :=
  match l with
  | [] => ""
  | [x] => x
  | x :: l' => x +:+ sep +:+ join sep l'
  end.

Lemma join_cons sep x y l : join sep (x :: y :: l) = x +:+ sep +:+ join sep (y :: l).
Proof. done. Qed.

Definition fmt_int (n : Z) : string :=
  if (n <? 0)%Z then "-" +:+ fmt_uint (- n) else fmt_uint n.

(** [fmt] writes the finite floats. *)
Section Text.
Context (fmt : f64 -> string).

Fixpoint json_text (v : Value) : string :=
  match v with
  | VNull => "null"
  | VBool b => if b then "true" else "false"
  | VInt n => fmt_int n
  | VFloat f => fmt f
  | VStr s => quoted (escape s)
  | VArr l => "[" +:+ join "," (map json_text l) +:+ "]"
  | VObj l => "{" +:+ join "," (map (fun kv => quoted (escape kv.1) +:+ ":" +:+ json_text kv.2) l) +:+ "}"
  end.

End Text.

Definition is_number_char (c : ascii) : bool :=
  is_ascii_digit c || bool_decide (c ∈ ["-"; "+"; "."; "e"; "E"]%char).

(** ** The crate *)

Class JsonCrate := {
  (** [to_vec] and [from_slice]; an error carries its [Display] text. *)
  json_to_vec : Value -> result (list u8) string;
  json_from_slice : list u8 -> result Value string;
  (** How a finite float is written. *)
  json_float : f64 -> string;
}.

(** What the crate reads from the text it writes for a float. *)
Definition reread_float `{JsonCrate} (f : f64) : f64 :=
  match json_from_slice (str_bytes (json_float f)) with
  | Ok (VFloat g) => g
  | _ => f
  end.

Class JsonLaws `{JsonCrate} : Prop := {
  json_layout v : json_ok v = true -> json_to_vec v = Ok (str_bytes (json_text json_float v));
  json_read v :
    json_ok v = true -> shallow v = true ->
    json_from_slice (str_bytes (json_text json_float v)) = Ok (reread reread_float v);
  json_nonfinite v : json_to_vec v = json_to_vec (nullify v);
  json_finite bs v : json_from_slice bs = Ok v -> finite_floats v = true;
  json_float_text f : is_finite f = true -> str_all is_number_char (json_float f) = true;
}.

(** [serde_json::from_slice::<T>]: parse, then drive [T]'s visitor. *)
Definition fmt_de_error (e : DeError) : string :=
  match e with
  | InvalidType => "invalid type"
  | InvalidLength n => "invalid length " +:+ fmt_uint (Z.of_nat n)
  | InvalidValue s => "invalid value: " +:+ s
  | Custom m => m
  | MissingField f => "missing field `" +:+ f +:+ "`"
  | DuplicateField f => "duplicate field `" +:+ f +:+ "`"
  | UnknownVariant k => "unknown variant `" +:+ k +:+ "`"
  end.

Definition from_slice_as `{JsonCrate} {T} (de : Value -> result T DeError) (bs : list u8)
    : result T string :=
  let? v := json_from_slice bs in map_err fmt_de_error (de v).

(** ** Induction on trees *)

Lemma Value_ind_nested (P : Value -> Prop) :
  P VNull -> (forall b, P (VBool b)) -> (forall n, P (VInt n)) -> (forall f, P (VFloat f)) ->
  (forall s, P (VStr s)) -> (forall l, Forall P l -> P (VArr l)) ->
  (forall l, Forall (fun kv => P kv.2) l -> P (VObj l)) -> forall v, P v.
Proof.
  intros H1 H2 H3 H4 H5 H6 H7. fix IH 1.
  intros [|b|n|f|s|l|l]; [exact H1|apply H2|apply H3|apply H4|apply H5| |].
  - apply H6. induction l as [|v l IHl]; constructor; [apply IH|exact IHl].
  - apply H7. induction l as [|kv l IHl]; constructor; [apply IH|exact IHl].
Qed.

Lemma reread_same read (P : Value -> bool) v :
  (forall f, P (VFloat f) = true -> read f = f) ->
  (forall l, P (VArr l) = forallb P l) -> (forall l, P (VObj l) = forallb (fun kv => P kv.2) l) ->
  P v = true -> reread read v = v.
Proof.
  intros Hf Ha Ho. induction v as [| | |f| |l IH|l IH] using Value_ind_nested; cbn; try done.
  - intros Hp. by rewrite Hf.
  - rewrite Ha. intros Hl. f_equal. revert Hl. induction IH as [|x l Hx _ IHl]; cbn; [done|].
    rewrite andb_true_iff. intros [H1 H2]. by rewrite Hx, IHl.
  - rewrite Ho. intros Hl. f_equal. revert Hl. induction IH as [|[k x] l Hx _ IHl]; cbn in *; [done|].
    rewrite andb_true_iff. intros [H1 H2]. by rewrite Hx, IHl.
Qed.

Lemma reread_no_floats read v : no_floats v = true -> reread read v = v.
Proof. by apply reread_same. Qed.

Lemma reread_exact read v :
  (forall f, is_finite f = true -> read f = f) -> finite_floats v = true -> reread read v = v.
Proof. intros Hf. by apply reread_same. Qed.

Lemma forallb_Forall_impl {A} (P : A -> Prop) (f g : A -> bool) l :
  (forall x, P x -> f x = true -> g x = true) -> Forall P l -> forallb f l = true -> forallb g l = true.
Proof.
  intros Hfg. induction 1 as [|x l Hx Hl IH]; cbn; [done|]. rewrite !andb_true_iff. naive_solver.
Qed.

Lemma json_ok_finite v : json_ok v = true -> finite_floats v = true.
Proof.
  induction v as [| | | | |l IH|l IH] using Value_ind_nested; cbn; try done;
    by apply forallb_Forall_impl with (2 := IH).
Qed.

Lemma nullify_finite v : finite_floats v = true -> nullify v = v.
Proof.
  induction v as [| | |f| |l IH|l IH] using Value_ind_nested; cbn; try done; [by intros ->|..];
    intros Hf; f_equal; revert Hf; induction IH as [|x l Hx Hl IHl]; cbn; try done;
    rewrite andb_true_iff; intros [Hf1 Hf2]; f_equal; auto. 
  destruct x; cbn in *. by rewrite Hx.
Qed.

Lemma nullify_is_finite v : finite_floats (nullify v) = true.
Proof.
  induction v as [| | |f| |l IH|l IH] using Value_ind_nested; cbn; try done;
    [by destruct (is_finite f) eqn:E|..];
    induction IH as [|x l Hx Hl IHl]; cbn; [done| |done|]; by rewrite Hx, IHl.
Qed.

(** Writing and reading back, and the exact round trip of trees without floats. *)
Lemma json_roundtrip `{JsonLaws} v :
  json_ok v = true -> shallow v = true ->
  exists bs, json_to_vec v = Ok bs /\ json_from_slice bs = Ok (reread reread_float v).
Proof. intros Hok Hs. eexists. split; [by apply json_layout|by apply json_read]. Qed.

Lemma json_roundtrip_exact `{JsonLaws} v :
  json_ok v = true -> shallow v = true -> no_floats v = true ->
  exists bs, json_to_vec v = Ok bs /\ json_from_slice bs = Ok v.
Proof.
  intros Hok Hs Hn. destruct (json_roundtrip v Hok Hs) as (bs & Hb & Hr). exists bs.
  by rewrite reread_no_floats in Hr.
Qed.

Lemma reread_float_finite `{JsonLaws} f : is_finite f = true -> is_finite (reread_float f) = true.
Proof.
  intros Hf. pose proof (json_read (VFloat f) Hf eq_refl) as Hr.
  apply json_finite in Hr. exact Hr.
Qed.

(** A plain string is written between quotes. *)
Lemma escape_plain s : str_all plain_char s = true -> escape s = s.
Proof.
  induction s as [|c s IH]; cbn [str_all escape]; [done|]. intros [Hc Hs]%andb_true_iff.
  rewrite IH by done. replace (escape_char c) with (String c ""); [done|].
  revert Hc. by destruct c as [[] [] [] [] [] [] [] []].
Qed.

Lemma json_string `{JsonLaws} s :
  str_all plain_char s = true -> json_to_vec (VStr s) = Ok (str_bytes (quoted s)).
Proof. intros Hs. rewrite json_layout by done. cbn [json_text]. by rewrite escape_plain. Qed.

(** Events nest no deeper than their clocks. *)
Lemma event_shallow `{HexCrate, Base64Crate} e : shallow (ser_event e) = true.
Proof. by destruct e as [| | | | |? ? ? ? ? ? []| | | |]. Qed.

(** ** A reference instance

    A printer and a recursive-descent parser of compact texts. A float is written as
    [m]E[e] for [m * 2^e]: the laws leave its digits to the crate. *)

Module RefJson.

Definition float_text (f : f64) : string :=
  match f with
  | S754_zero s => if s then "-0.0" else "0.0"
  | S754_finite s m e => fmt_int (if s then Zneg m else Zpos m) +:+ String "E" (fmt_int e)
  | _ => ""
  end.

Abbreviation text := (json_text float_text).

Definition parse_uint (s : string) : option Z :=
  if negb (s =? "")%string && str_all is_ascii_digit s then Some (dec_value 0 s) else None.

Definition parse_int (s : string) : option Z :=
  match s with
  | String "-" s' => Z.opp <$> parse_uint s'
  | _ => parse_uint s
  end.

Definition parse_number (s : string) : option Value :=
  match split_once "E" s with
  | Some (m, e) =>
      match parse_int m, parse_int e with
      | Some (Zpos p), Some e => Some (VFloat (S754_finite false p e))
      | Some (Zneg p), Some e => Some (VFloat (S754_finite true p e))
      | _, _ => None
      end
  | None =>
      if (s =? "0.0")%string then Some (VFloat (S754_zero false))
      else if (s =? "-0.0")%string then Some (VFloat (S754_zero true))
      else VInt <$> parse_int s
  end.

(** The longest prefix of number characters. *)
Fixpoint take_number (s : string) : string * string :=
  match s with
  | "" => ("", "")
  | String c s' =>
      if is_number_char c then let (t, r) := take_number s' in (String c t, r) else ("", s)
  end.

Definition unescape (c : ascii) : ascii :=
  match c with
  | "b"%char => ascii_of_nat 8
  | "t"%char => ascii_of_nat 9
  | "n"%char => ascii_of_nat 10
  | "f"%char => ascii_of_nat 12
  | "r"%char => ascii_of_nat 13
  | _ => c
  end.

Definition push (c : ascii) (x : option (string * string)) : option (string * string) :=
  match x with Some (t, r) => Some (String c t, r) | None => None end.

(** The rest of a string literal. *)
Fixpoint parse_string (s : string) : option (string * string) :=
  match s with
  | "" => None
  | String c s' =>
      if Ascii.eqb c quote then Some ("", s')
      else if Ascii.eqb c backslash then
        match s' with
        | String "u" (String _ (String _ (String h (String l s'')))) =>
            match RefHex.decode (String h (String l "")) with
            | Ok [b] => push (ascii_of_byte b) (parse_string s'')
            | _ => None
            end
        | String d s'' => push (unescape d) (parse_string s'')
        | "" => None
        end
      else push c (parse_string s')
  end.

(** Items separated by commas, up to the closing character. *)
Fixpoint parse_seq {A} (p : string -> option (A * string)) (close : ascii) (n : nat) (s : string)
    : option (list A * string) :=
  match n with
  | 0 => None
  | S n =>
      match p s with
      | Some (a, String c s') =>
          if Ascii.eqb c close then Some ([a], s')
          else if Ascii.eqb c "," then
            match parse_seq p close n s' with Some (l, r) => Some (a :: l, r) | None => None end
          else None
      | _ => None
      end
  end.

Definition parse_list {A} (p : string -> option (A * string)) (close : ascii) (s : string)
    : option (list A * string) :=
  match s with
  | String c s' => if Ascii.eqb c close then Some ([], s') else parse_seq p close (String.length s) s
  | "" => None
  end.

Definition parse_field (p : string -> option (Value * string)) (s : string)
    : option (string * Value * string) :=
  match s with
  | String c s' =>
      if Ascii.eqb c quote then
        match parse_string s' with
        | Some (k, String d r) =>
            if Ascii.eqb d ":" then
              match p r with Some (v, r') => Some (k, v, r') | None => None end
            else None
        | _ => None
        end
      else None
  | "" => None
  end.

Definition keyword (w : string) (v : Value) (s : string) : option (Value * string) :=
  match strip_prefix w s with Some r => Some (v, r) | None => None end.

Fixpoint parse_value (fuel : nat) (s : string) : option (Value * string) :=
  match fuel, s with
  | S fuel, String c s' =>
      if Ascii.eqb c quote then
        match parse_string s' with Some (t, r) => Some (VStr t, r) | None => None end
      else if Ascii.eqb c "[" then
        match parse_list (parse_value fuel) "]" s' with Some (l, r) => Some (VArr l, r) | None => None end
      else if Ascii.eqb c "{" then
        match parse_list (parse_field (parse_value fuel)) "}" s' with
        | Some (l, r) => Some (VObj l, r)
        | None => None
        end
      else if Ascii.eqb c "n" then keyword "null" VNull s
      else if Ascii.eqb c "t" then keyword "true" (VBool true) s
      else if Ascii.eqb c "f" then keyword "false" (VBool false) s
      else
        let (t, r) := take_number s in
        match parse_number t with Some v => Some (v, r) | None => None end
  | _, _ => None
  end.

Definition to_vec (v : Value) : result (list u8) string :=
  if json_ok (nullify v) then Ok (str_bytes (text (nullify v))) else Err "number out of range".

(** The whole input is one value; a value is no deeper than its text is long. *)
Definition from_slice (bs : list u8) : result Value string :=
  let s := bytes_str bs in
  match parse_value (String.length s) s with
  | Some (v, "") => Ok v
  | _ => Err "syntax error"
  end.

Example nested_text :
  text (VObj [("a", VArr [VInt (-7); VFloat (S754_finite false 5 (-3)); VNull]); ("b", VBool true)]) =
  "{" +:+ quoted "a" +:+ ":[-7,5E-3,null]," +:+ quoted "b" +:+ ":true}".
Proof. reflexivity. Qed.

#[export] Instance crate : JsonCrate :=
  {| json_to_vec := to_vec; json_from_slice := from_slice; json_float := float_text |}.

(** *** Numbers *)

Definition stops (s : string) : bool :=
  match s with "" => true | String c _ => negb (is_number_char c) end.

Lemma take_number_app t r :
  str_all is_number_char t = true -> stops r = true -> take_number (t +:+ r) = (t, r).
Proof.
  intros Ht Hr. induction t as [|c t IH]; cbn [str_all] in Ht.
  - rewrite str_app_nil_l. destruct r as [|c r]; [done|]. cbn in *. by destruct (is_number_char c).
  - apply andb_true_iff in Ht as [Hc Ht]. rewrite str_app_cons. cbn [take_number]. rewrite Hc.
    by rewrite IH.
Qed.

Lemma parse_uint_fmt n : (0 <= n)%Z -> parse_uint (fmt_uint n) = Some n.
Proof.
  intros Hn. destruct (fmt_uint_value n Hn) as (Hd & Hv & Hl). unfold parse_uint.
  rewrite Hd, Hv. destruct (fmt_uint n); [cbn in Hl; lia|done].
Qed.

Lemma parse_int_fmt n : parse_int (fmt_int n) = Some n.
Proof.
  unfold fmt_int. destruct (Z.ltb_spec n 0).
  - change ("-" +:+ ?s) with (String "-" s). cbn [parse_int].
    rewrite parse_uint_fmt by lia. cbn. f_equal. lia.
  - pose proof (parse_uint_fmt n ltac:(lia)) as Hp. pose proof (fmt_uint_value n ltac:(lia)) as (Hd & _).
    destruct (fmt_uint n) as [|c t]; [done|]. cbn [str_all] in Hd. apply andb_true_iff in Hd as [Hc _].
    revert Hc Hp. unfold parse_int. by destruct c as [[] [] [] [] [] [] [] []].
Qed.

Lemma digits_number s : str_all is_ascii_digit s = true -> str_all is_number_char s = true.
Proof. apply str_all_impl. intros c Hc. unfold is_number_char. by rewrite Hc. Qed.

Lemma fmt_int_chars n :
  str_all (fun c => negb (Ascii.eqb c "E")) (fmt_int n) = true /\
  str_all is_number_char (fmt_int n) = true /\ fmt_int n <> "".
Proof.
  assert (forall m, (0 <= m)%Z -> str_all (fun c => negb (Ascii.eqb c "E")) (fmt_uint m) = true /\
    str_all is_number_char (fmt_uint m) = true /\ fmt_uint m <> "") as Hu.
  { intros m Hm. destruct (fmt_uint_value m Hm) as (Hd & _ & Hl). split_and!.
    - revert Hd. apply str_all_impl. by intros [[] [] [] [] [] [] [] []].
    - by apply digits_number.
    - intros E. rewrite E in Hl. cbn in Hl. lia. }
  unfold fmt_int. destruct (Z.ltb_spec n 0); [|by apply Hu].
  destruct (Hu (- n)%Z ltac:(lia)) as (H1 & H2 & _). rewrite !str_all_app, H1, H2. done.
Qed.

Lemma float_text_number f : is_finite f = true -> str_all is_number_char (float_text f) = true.
Proof.
  destruct f as [[]| | |s m e]; try done. intros _. cbn [float_text].
  rewrite str_all_app. cbn [str_all]. rewrite (proj1 (proj2 (fmt_int_chars _))).
  by rewrite (proj1 (proj2 (fmt_int_chars _))).
Qed.

Lemma parse_number_float f : is_finite f = true -> parse_number (float_text f) = Some (VFloat f).
Proof.
  destruct f as [[]| | |s m e]; try done. intros _. unfold parse_number. cbn [float_text].
  rewrite (split_once_app "E" _ _ (proj1 (fmt_int_chars _))), !parse_int_fmt. by destruct s.
Qed.

Lemma parse_number_int n : parse_number (fmt_int n) = Some (VInt n).
Proof.
  unfold parse_number. rewrite (split_once_none "E" _ (proj1 (fmt_int_chars n))), parse_int_fmt.
  assert (forall t, parse_int t = None -> (fmt_int n =? t)%string = false) as Hne.
  { intros t Ht. apply String.eqb_neq. intros E. by rewrite <- E, parse_int_fmt in Ht. }
  by rewrite !Hne.
Qed.

(** *** Strings *)

Lemma parse_escaped_char c t r :
  parse_string (escape_char c +:+ r) = push c (parse_string r) /\
  parse_string (String quote t) = Some ("", t).
Proof. split; [|done]. by destruct c as [[] [] [] [] [] [] [] []]. Qed.

Lemma parse_escaped s r : parse_string (escape s +:+ String quote r) = Some (s, r).
Proof.
  induction s as [|c s IH]; cbn [escape].
  - rewrite str_app_nil_l. by apply (parse_escaped_char quote).
  - rewrite str_app_assoc. rewrite (proj1 (parse_escaped_char _ "" _)), IH. done.
Qed.

(** *** Sequences *)

(** The text starts with some other character. *)
Definition opens (close : ascii) (s : string) : bool :=
  match s with "" => false | String c _ => negb (Ascii.eqb c close) end.

Section Seq.
Context {A : Type} (p : string -> option (A * string)) (pr : A -> string) (close : ascii).

Let reads (x : A) : Prop :=
  forall c r, c = close \/ c = ","%char -> p (pr x +:+ String c r) = Some (x, String c r).

Lemma parse_seq_join x l n r :
  close <> ","%char -> length (x :: l) <= n -> Forall reads (x :: l) ->
  parse_seq p close n (join "," (map pr (x :: l)) +:+ String close r) = Some (x :: l, r).
Proof.
  intros Hc. revert x n. induction l as [|y l IH]; intros x [|n] Hn [Hx Hl]%Forall_cons;
    cbn [length] in Hn; try lia.
  - cbn [map join parse_seq]. by rewrite Hx, Ascii.eqb_refl by auto.
  - cbn [map]. rewrite join_cons, !str_app_assoc. cbn [parse_seq].
    change ("," +:+ ?t) with (String "," t). rewrite Hx by auto.
    destruct (Ascii.eqb_spec "," close) as [<-|_]; [done|]. cbn [Ascii.eqb Bool.eqb].
    change (pr y :: map pr l) with (map pr (y :: l)). rewrite IH; [done|cbn [length]; lia|done].
Qed.

Lemma join_length l :
  Forall (fun x => opens close (pr x) = true) l -> length l <= String.length (join "," (map pr l)).
Proof.
  induction 1 as [|x l Hx Hl IH]; [done|]. destruct l as [|y l].
  - cbn [map join length]. destruct (pr x); [done|cbn [String.length]; lia].
  - cbn [map] in *. rewrite join_cons, !str_length_app. cbn [length] in *.
    change (String.length ",") with 1. lia.
Qed.

Lemma parse_list_join l r :
  close <> ","%char -> Forall reads l -> Forall (fun x => opens close (pr x) = true) l ->
  parse_list p close (join "," (map pr l) +:+ String close r) = Some (l, r).
Proof.
  intros Hc Hr Ho. destruct l as [|x l].
  - cbn [map join]. rewrite str_app_nil_l. cbn [parse_list]. by rewrite Ascii.eqb_refl.
  - pose proof (join_length _ Ho) as Hlen.
    pose proof (parse_seq_join x l (String.length (join "," (map pr (x :: l)) +:+ String close r)) r Hc
      ltac:(rewrite str_length_app; lia) Hr) as Hs.
    assert (opens close (join "," (map pr (x :: l)) +:+ String close r) = true) as Hj.
    { apply Forall_cons in Ho as [Ho _]. destruct l as [|y l]; cbn [map]; [|rewrite join_cons];
        cbn [join]; by destruct (pr x). }
    destruct (join "," (map pr (x :: l)) +:+ String close r) as [|c t]; [done|].
    cbn [opens] in Hj. unfold parse_list. by destruct (Ascii.eqb c close).
Qed.

End Seq.

Lemma join_member sep x l : x ∈ l -> String.length x <= String.length (join sep l).
Proof.
  induction l as [|y l IH]; [by intros ?%elem_of_nil|]. intros [->|Hx]%elem_of_cons.
  - destruct l; [done|]. rewrite join_cons, !str_length_app. lia.
  - specialize (IH Hx). destruct l; [by apply elem_of_nil in Hx|].
    rewrite join_cons, !str_length_app. lia.
Qed.

(** *** Values *)

Lemma parse_value_number fuel t v r :
  0 < fuel -> t <> "" -> str_all is_number_char t = true -> parse_number t = Some v ->
  stops r = true -> parse_value fuel (t +:+ r) = Some (v, r).
Proof.
  intros Hf Hne Hc Hp Hr. destruct fuel as [|fuel]; [lia|]. pose proof (take_number_app t r Hc Hr) as Ht.
  destruct t as [|c t]; [done|]. cbn [str_all] in Hc. apply andb_true_iff in Hc as [Hc _].
  rewrite str_app_cons in *. cbn [parse_value]. rewrite Ht, Hp.
  revert Hc. by destruct c as [[] [] [] [] [] [] [] []].
Qed.

Lemma float_text_nonempty f : is_finite f = true -> float_text f <> "".
Proof.
  destruct f as [[]| | |s m e]; try done. intros _. cbn [float_text].
  destruct (fmt_int_chars (if s then Z.neg m else Z.pos m)) as (_ & _ & H). by destruct (fmt_int _).
Qed.

Lemma number_opens t : str_all is_number_char t = true -> t <> "" -> opens "]" t = true.
Proof.
  destruct t as [|c t]; [done|]. cbn [str_all]. intros [Hc _]%andb_true_iff _. revert Hc.
  by destruct c as [[] [] [] [] [] [] [] []].
Qed.

Lemma text_opens v : finite_floats v = true -> opens "]" (text v) = true.
Proof.
  destruct v as [|[]|n|f| | |]; try done; cbn [json_text finite_floats]; intros Hf.
  - apply number_opens; apply (fmt_int_chars n).
  - apply number_opens; [by apply float_text_number|by apply float_text_nonempty].
Qed.

Lemma separator_stops c r : c = "]"%char \/ c = "}"%char \/ c = ","%char -> stops (String c r) = true.
Proof. by intros [->|[->| ->]]. Qed.

(** A value is read back whatever the separator behind it. *)
Definition reads_back (v : Value) : Prop :=
  forall fuel r, finite_floats v = true -> String.length (text v) <= fuel -> stops r = true ->
    parse_value fuel (text v +:+ r) = Some (v, r).

Definition member_text (kv : string * Value) : string := quoted (escape kv.1) +:+ ":" +:+ text kv.2.

Lemma joined_length {A} (f : A -> string) x l :
  x ∈ l -> String.length (f x) <= String.length (join "," (map f l)).
Proof. intros Hx. by apply join_member, list_elem_of_In, in_map, list_elem_of_In. Qed.

Lemma parse_array l : Forall reads_back l -> reads_back (VArr l).
Proof.
  rewrite Forall_forall. intros IH fuel r Hv Hf Hr. cbn [json_text finite_floats] in *.
  rewrite forallb_forall in Hv. rewrite !str_app_assoc. change ("[" +:+ ?t) with (String "[" t) in *.
  change ("]" +:+ r) with (String "]" r) in *. destruct fuel as [|fuel]; [cbn in Hf; lia|].
  cbn [String.length] in Hf. rewrite str_length_app in Hf. cbn [parse_value].
  change (Ascii.eqb "[" quote) with false. cbn [Ascii.eqb Bool.eqb].
  rewrite parse_list_join; [done..| |]; rewrite Forall_forall; intros x Hx;
    pose proof (Hv x (proj1 (list_elem_of_In _ _) Hx)) as Hfin; [|by apply text_opens].
  intros c r' Hc. pose proof (joined_length text x l Hx).
  apply IH; [done..|lia|]. apply separator_stops. naive_solver.
Qed.

Lemma parse_object l : Forall (fun kv => reads_back kv.2) l -> reads_back (VObj l).
Proof.
  rewrite Forall_forall. intros IH fuel r Hv Hf Hr. cbn [json_text finite_floats] in *.
  change (fun kv => quoted (escape kv.1) +:+ ":" +:+ text kv.2) with member_text in *.
  rewrite forallb_forall in Hv. rewrite !str_app_assoc. change ("{" +:+ ?t) with (String "{" t) in *.
  change ("}" +:+ r) with (String "}" r) in *. destruct fuel as [|fuel]; [cbn in Hf; lia|].
  cbn [String.length] in Hf. rewrite str_length_app in Hf. cbn [parse_value].
  change (Ascii.eqb "{" quote) with false. cbn [Ascii.eqb Bool.eqb].
  rewrite parse_list_join; [done..| |by rewrite Forall_forall].
  rewrite Forall_forall. intros [k x] Hx c r' Hc. pose proof (joined_length member_text _ l Hx) as Hm.
  assert (String.length (text x) <= String.length (member_text (k, x))) as Hm'.
  { unfold member_text. rewrite !str_length_app. cbn [snd]. lia. }
  unfold member_text at 1, quoted. cbn [fst snd].
  rewrite !str_app_cons, !str_app_assoc, str_app_cons. cbn [parse_field].
  rewrite Ascii.eqb_refl, str_app_nil_l, parse_escaped, str_app_cons, str_app_nil_l.
  cbn [Ascii.eqb Bool.eqb]. rewrite (IH _ Hx : reads_back x); [done| |cbn [snd]; lia|].
  - apply (Hv (k, x)), list_elem_of_In, Hx.
  - apply separator_stops. naive_solver.
Qed.

Lemma parse_text v : reads_back v.
Proof.
  induction v as [|b|n|f|s|l IH|l IH] using Value_ind_nested;
    [..|by apply parse_array|by apply parse_object]; intros fuel r Hv Hf Hr;
    cbn [json_text finite_floats] in *.
  - destruct fuel; [cbn in Hf; lia|done].
  - destruct fuel; [destruct b; cbn in Hf; lia|by destruct b].
  - destruct (fmt_int_chars n) as (_ & Hn & Hne). apply parse_value_number; try done.
    + destruct (fmt_int n); [done|cbn [String.length] in Hf; lia].
    + apply parse_number_int.
  - pose proof (float_text_nonempty f Hv). apply parse_value_number; try done.
    + destruct (float_text f); [done|cbn [String.length] in Hf; lia].
    + by apply float_text_number.
    + by apply parse_number_float.
  - destruct fuel; [cbn in Hf; lia|]. unfold quoted. rewrite str_app_cons, str_app_assoc, str_app_cons.
    cbn [parse_value]. rewrite Ascii.eqb_refl, str_app_nil_l. by rewrite parse_escaped.
Qed.

Lemma from_slice_text v : finite_floats v = true -> from_slice (str_bytes (text v)) = Ok v.
Proof.
  intros Hv. unfold from_slice. rewrite bytes_str_bytes.
  pose proof (parse_text v (String.length (text v)) "" Hv (le_n _) eq_refl) as Hp.
  rewrite str_app_nil_r in Hp. by rewrite Hp.
Qed.

(** *** What is read has finite floats *)

Lemma parse_seq_all {A} (P : A -> bool) p close n s l r :
  (forall s x r, p s = Some (x, r) -> P x = true) ->
  parse_seq p close n s = Some (l, r) -> forallb P l = true.
Proof.
  intros Hp. revert s l r. induction n as [|n IH]; intros s l r; [done|]. cbn [parse_seq].
  destruct (p s) as [[x [|c s']]|] eqn:Es; try done. apply Hp in Es.
  destruct (Ascii.eqb c close); [intros [= <- <-]; cbn [forallb]; by rewrite Es|].
  destruct (Ascii.eqb c ","); [|done]. destruct (parse_seq p close n s') as [[l' r']|] eqn:El; [|done].
  intros [= <- <-]. cbn [forallb]. rewrite Es. by apply IH in El.
Qed.

Lemma parse_list_all {A} (P : A -> bool) p close s l r :
  (forall s x r, p s = Some (x, r) -> P x = true) ->
  parse_list p close s = Some (l, r) -> forallb P l = true.
Proof.
  intros Hp. destruct s as [|c s]; [done|]. cbn [parse_list].
  destruct (Ascii.eqb c close); [by intros [= <- <-]|by apply parse_seq_all].
Qed.

Lemma parse_number_finite s v : parse_number s = Some v -> finite_floats v = true.
Proof.
  unfold parse_number. destruct (split_once "E" s) as [[m e]|].
  - destruct (parse_int m) as [[]|], (parse_int e); naive_solver.
  - repeat case_match; try naive_solver. destruct (parse_int s); naive_solver.
Qed.

Lemma keyword_some w v s v' r : keyword w v s = Some (v', r) -> v' = v.
Proof. unfold keyword. destruct (strip_prefix w s); naive_solver. Qed.

Lemma parse_value_finite fuel s v r : parse_value fuel s = Some (v, r) -> finite_floats v = true.
Proof.
  revert s v r. induction fuel as [|fuel IH]; intros [|c s] v r; try done. cbn [parse_value].
  destruct (Ascii.eqb c quote); [destruct (parse_string s) as [[]|]; naive_solver|].
  destruct (Ascii.eqb c "[").
  { destruct (parse_list _ _ s) as [[l r']|] eqn:El; [|done]. intros [= <- <-].
    by apply (parse_list_all finite_floats) in El. }
  destruct (Ascii.eqb c "{").
  { destruct (parse_list _ _ s) as [[l r']|] eqn:El; [|done]. intros [= <- <-].
    apply (parse_list_all (fun kv => finite_floats kv.2)) in El; [done|]. clear -IH.
    intros [|c s] kv r; [done|]. unfold parse_field. destruct (Ascii.eqb c quote); [|done].
    destruct (parse_string s) as [[k [|d t]]|]; try done. destruct (Ascii.eqb d ":"); [|done].
    destruct (parse_value fuel t) as [[]|] eqn:E; [|done]. intros [= <- <-]. by apply IH in E. }
  repeat (destruct (Ascii.eqb c _); [by intros ->%keyword_some|]).
  destruct (take_number _) as [t r']. destruct (parse_number t) eqn:E; [|done].
  intros [= <- <-]. by apply parse_number_finite in E.
Qed.

Lemma reread_float_exact f : is_finite f = true -> reread_float f = f.
Proof.
  intros Hf. unfold reread_float. cbn [json_from_slice crate json_float].
  by rewrite (from_slice_text (VFloat f) Hf : from_slice (str_bytes (float_text f)) = _).
Qed.

#[export] Instance laws : JsonLaws.
Proof.
  split; cbn [json_to_vec json_from_slice json_float crate].
  - intros v Hok. unfold to_vec. by rewrite nullify_finite, Hok by (by apply json_ok_finite).
  - intros v Hok _. apply json_ok_finite in Hok as Hf. rewrite from_slice_text by done.
    by rewrite (reread_exact _ _ reread_float_exact Hf).
  - intros v. unfold to_vec. by rewrite (nullify_finite (nullify v)) by apply nullify_is_finite.
  - intros bs v. unfold from_slice. destruct (parse_value _ _) as [[u []]|] eqn:E; try done.
    intros [= <-]. by apply parse_value_finite in E.
  - apply float_text_number.
Qed.

End RefJson.
