(* ===== verification/Cbor.v ===== *)
(** * furcate-mesh-core/src/wire.rs, module [cbor]

    The compact wire form of events. [ciborium] is a third-party crate: writing
    and reading one item are operations of a class over the same [Value] trees the
    JSON path uses. CBOR has a form for every float, the non-finite ones included,
    and for the integers from [-2^64] to [2^64 - 1], and the crate reads back what
    it wrote, down to a depth (its own limit is 256). *)

From Stdlib Require Import SpecFloat.
From S2P Require Import Prelude RustStd Codecs Core Wire Event Json.

(** ** The crate *)

Class CborCrate := {
  (** [ser::into_writer] into a vector and [de::from_reader] from a slice; an
      error carries its [Display] text. *)
  into_writer : Value -> result (list u8) string;
  from_reader : list u8 -> result Value string;
}.

(** Trees with a CBOR form. *)
Fixpoint cbor_ok (v : Value) : bool :=
  match v with
  | VNull | VBool _ | VStr _ | VFloat _ => true
  | VInt n => (- (2 ^ 64) <=? n)%Z && (n <=? u64_max)%Z
  | VArr l => forallb cbor_ok l
  | VObj l => forallb (fun kv => cbor_ok kv.2) l
  end.

Class CborLaws `{CborCrate} : Prop := {
  cbor_item_roundtrip v :
    cbor_ok v = true -> shallow v = true -> exists bs, into_writer v = Ok bs /\ from_reader bs = Ok v;
}.

(** ** The codec *)

Module cbor.
Section Codec.
Context `{HexCrate, Base64Crate, CborCrate}.

Definition to_vec (event : MeshEvent) : result (list u8) MeshError :=
  map_err (fun e => MeEncoding ("cbor encode: " +:+ e)) (into_writer (ser_event event)).

(** The item is read while [MeshEvent]'s visitor is driven with it, so either
    can fail. *)
Definition from_slice (bytes : list u8) : result MeshEvent MeshError :=
  map_err (fun e => MeEncoding ("cbor decode: " +:+ e))
    (let? v := from_reader bytes in map_err fmt_de_error (de_event v)).

End Codec.
End cbor.

(** ** Facts *)

Section Facts.
Context `{HexLaws, Base64Laws, CborLaws}.

Lemma cbor_uint max n : (max <= u64_max)%Z -> (0 <= n <= max)%Z ->
  ((- (2 ^ 64) <=? n)%Z && (n <=? u64_max)%Z) = true.
Proof. intros Hm Hn. rewrite andb_true_iff, !Z.leb_le. lia. Qed.

Lemma cbor_clock c : Hlc.wf c -> cbor_ok (ser_clock c) = true.
Proof.
  intros [Hw Hc]. cbn [cbor_ok ser_clock forallb snd].
  by rewrite (cbor_uint u64_max), (cbor_uint u32_max).
Qed.

(** Every event of the right machine ranges has a CBOR form. *)
Lemma cbor_event e : event_wf e -> cbor_ok (ser_event e) = true.
Proof.
  intros W. assert (forall c, Hlc.wf c -> cbor_ok (ser_clock c) = true) as Hc by apply cbor_clock.
  destruct e as [| | | | |? ? ? ? ? ? []| | | |]; cbn [event_wf] in W;
    cbn [cbor_ok ser_event ser_fields app forallb snd]; rewrite ?Hc by tauto; try reflexivity.
  - by rewrite (cbor_uint u8_max).
  - destruct W as (_ & Hv & Hs). by rewrite (cbor_uint u32_max), (cbor_uint u64_max).
Qed.

(** The CBOR path carries every event exactly, NaN and infinite floats included. *)
Lemma cbor_roundtrip e :
  event_wf e -> exists bs, cbor.to_vec e = Ok bs /\ cbor.from_slice bs = Ok e.
Proof.
  intros W. destruct (cbor_item_roundtrip _ (cbor_event e W) (event_shallow e)) as (bs & Hw & Hr).
  exists bs. unfold cbor.to_vec, cbor.from_slice. rewrite Hw, Hr. cbn [rbind map_err].
  by rewrite de_event_ser.
Qed.

End Facts.

(** ** A reference instance

    An injective byte encoding of trees, through the countability of trees. *)

Module RefCbor.

Definition f64_code (f : f64) : Z * Z * Z :=
  match f with
  | S754_zero s => (0, if s then 1 else 0, 0)
  | S754_infinity s => (1, if s then 1 else 0, 0)
  | S754_nan => (2, 0, 0)
  | S754_finite s m e => (if s then 4 else 3, Zpos m, e)
  end%Z.

Definition f64_decode (c : Z * Z * Z) : option f64 :=
  match c with
  | (0, s, _) => Some (S754_zero (Z.eqb s 1))
  | (1, s, _) => Some (S754_infinity (Z.eqb s 1))
  | (2, _, _) => Some S754_nan
  | (t, Zpos m, e) => Some (S754_finite (Z.eqb t 4) m e)
  | _ => None
  end%Z.

#[local] Program Instance f64_countable : Countable f64 := inj_countable f64_code f64_decode _.
Next Obligation. by intros [[]|[]| |[] m e]. Qed.

Abbreviation leaf := (bool + Z + f64 + string)%type.

Fixpoint tree_of (v : Value) : gen_tree leaf :=
  match v with
  | VNull => GenNode 2 []
  | VBool b => GenLeaf (inl (inl (inl b)))
  | VInt n => GenLeaf (inl (inl (inr n)))
  | VFloat f => GenLeaf (inl (inr f))
  | VStr s => GenLeaf (inr s)
  | VArr l => GenNode 0 (map tree_of l)
  | VObj l => GenNode 1 (map (fun kv => GenNode 3 [GenLeaf (inr kv.1); tree_of kv.2]) l)
  end.

Fixpoint value_of (t : gen_tree leaf) : Value :=
  match t with
  | GenLeaf (inl (inl (inl b))) => VBool b
  | GenLeaf (inl (inl (inr n))) => VInt n
  | GenLeaf (inl (inr f)) => VFloat f
  | GenLeaf (inr s) => VStr s
  | GenNode 0 l => VArr (map value_of l)
  | GenNode 1 l =>
      VObj (map (fun t => match t with
                          | GenNode _ [GenLeaf (inr k); tv] => (k, value_of tv)
                          | _ => ("", VNull)
                          end) l)
  | GenNode _ _ => VNull
  end.

Lemma value_of_tree v : value_of (tree_of v) = v.
Proof.
  induction v as [| | | | |l IH|l IH] using Value_ind_nested; cbn; try done; f_equal;
    rewrite map_map; induction IH as [|x l Hx Hl IHl]; cbn; [done| |done|];
    rewrite Hx, IHl; by destruct x.
Qed.

Fixpoint pos_bytes (p : positive) : list u8 :=
  match p with
  | xH => []
  | xO p' => Byte.x30 :: pos_bytes p'
  | xI p' => Byte.x31 :: pos_bytes p'
  end.

Fixpoint bytes_pos (l : list u8) : positive :=
  match l with
  | [] => xH
  | Byte.x31 :: l' => xI (bytes_pos l')
  | _ :: l' => xO (bytes_pos l')
  end.

Lemma bytes_pos_bytes p : bytes_pos (pos_bytes p) = p.
Proof. induction p as [p IH|p IH|]; cbn; by rewrite ?IH. Qed.

Definition item_bytes (v : Value) : list u8 := pos_bytes (encode (tree_of v)).

Definition bytes_item (bs : list u8) : result Value string :=
  ok_or "syntax error" (value_of <$> decode (bytes_pos bs)).

Lemma bytes_item_bytes v : bytes_item (item_bytes v) = Ok v.
Proof.
  unfold bytes_item, item_bytes. rewrite bytes_pos_bytes, decode_encode; cbn. by rewrite value_of_tree.
Qed.

Definition write (v : Value) : result (list u8) string :=
  if cbor_ok v then Ok (item_bytes v) else Err "integer too large".

#[export] Instance crate : CborCrate :=
  {| into_writer := write; from_reader := bytes_item |}.

#[export] Instance laws : CborLaws.
Proof.
  split. intros v Hok _. cbn. unfold write. rewrite Hok. eexists. split; [reflexivity|].
  apply bytes_item_bytes.
Qed.

End RefCbor.

(** A heartbeat whose load is not a number, which JSON writes as [null], has a CBOR form. *)
Module CborWitness.
#[local] Existing Instances RefHex.crate RefHex.laws RefBase64.crate RefBase64.laws
  RefCbor.crate RefCbor.laws.

Definition nan_beat : MeshEvent :=
  Heartbeat (PeerId.from_bytes (array32_repeat Byte.x03)) (Hlc.mk 99 0) S754_nan.

Example nan_beat_cbor :
  json_ok (ser_event nan_beat) = false /\
  exists bs, cbor.to_vec nan_beat = Ok bs /\ cbor.from_slice bs = Ok nan_beat.
Proof. split; [reflexivity|]. apply cbor_roundtrip. repeat split; vm_compute; congruence. Qed.

End CborWitness.
