(* ===== verification/Fs.v ===== *)
(** * The process's environment: file system, open files and sent samples

    What [std::fs], [std::path] and [tokio::fs] do for the sources, as state
    passing over a [World]. A [World] also carries the oracle of everything the
    environment decides: [w_outcomes], which makes any operation fail with any
    error (a write possibly after part of the bytes reached the disk, and
    possibly reporting the error only at the next write or flush, as tokio's
    background writes do), and [w_reads], the sizes of short reads. Theorems
    quantify over the oracle; [quiet] is the oracle that never fails.

    Paths are Unix paths compared as text up to trailing separators: there are
    no links, and an open file stands for its path, so a path has at most one
    task working on it (Pulls.v says where that matters). *)

From Stdlib Require Import Ascii.
From S2P Require Import Prelude RustStd.

(** ** State *)

(** [std::io::Error], as far as the sources look at it. *)
Inductive IoError :=
| NotFound
| AlreadyExists
| NotADirectory
| IsADirectory
| InvalidInput
| InvalidData
| IoOther (msg : string).

#[global] Instance IoError_eq_dec : EqDecision IoError.
Proof. solve_decision. Defined.

(** [Display], through the error's kind. *)
Definition fmt_io_error (e : IoError) : string :=
  match e with
  | NotFound => "entity not found"
  | AlreadyExists => "entity already exists"
  | NotADirectory => "not a directory"
  | IsADirectory => "is a directory"
  | InvalidInput => "invalid input parameter"
  | InvalidData => "invalid data"
  | IoOther msg => msg
  end.

(** What the environment decides for one operation. A failing write has put
    [written] bytes on disk; [deferred] failures are reported by the file's
    next write or flush. *)
Inductive outcome :=
| Pass
| Fault (e : IoError) (written : nat) (deferred : bool).

(** A regular file: its bytes and its permission bits. *)
Record File := mk_file { f_content : list u8; f_mode : Z }.

(** A message handed to the network: a publication or a query reply. *)
Record Sample := mk_sample {
  s_key : string;
  s_payload : list u8;
  s_attachment : option (list u8);
}.

Record World := mk_world {
  w_files : gmap string File;
  w_dirs : gset string;
  w_default_mode : Z;
  w_sent : list Sample;
  w_outcomes : list outcome;
  w_reads : list nat;
}.

Definition set_files (m : gmap string File) (w : World) : World :=
  mk_world m (w_dirs w) (w_default_mode w) (w_sent w) (w_outcomes w) (w_reads w).
Definition set_dirs (d : gset string) (w : World) : World :=
  mk_world (w_files w) d (w_default_mode w) (w_sent w) (w_outcomes w) (w_reads w).
Definition set_sent (l : list Sample) (w : World) : World :=
  mk_world (w_files w) (w_dirs w) (w_default_mode w) l (w_outcomes w) (w_reads w).
Definition set_outcomes (l : list outcome) (w : World) : World :=
  mk_world (w_files w) (w_dirs w) (w_default_mode w) (w_sent w) l (w_reads w).
Definition set_reads (l : list nat) (w : World) : World :=
  mk_world (w_files w) (w_dirs w) (w_default_mode w) (w_sent w) (w_outcomes w) l.

(** ** Effects: a state and error monad *)

Definition io (A E : Type) : Type := World -> result A E * World.

Definition io_ret {A E} (a : A) : io A E := fun w => (Ok a, w).
Definition io_fail {A E} (e : E) : io A E := fun w => (Err e, w).

(** [?]: continue with the value, or return the error. *)
Definition io_bind {A B E} (m : io A E) (k : A -> io B E) : io B E := fun w =>
  match m w with
  | (Ok a, w') => k a w'
  | (Err e, w') => (Err e, w')
  end.

Definition io_map_err {A E F} (f : E -> F) (m : io A E) : io A F := fun w =>
  match m w with (r, w') => (map_err f r, w') end.

(** [let _ = m]: the result is dropped. *)
Definition io_ignore {A E F} (m : io A E) : io unit F := fun w =>
  match m w with (_, w') => (Ok tt, w') end.

(** [match m { r => .. }]: the result as a value. *)
Definition io_try {A E F} (m : io A E) : io (result A E) F := fun w =>
  match m w with (r, w') => (Ok r, w') end.

Definition io_lift {A E} (r : result A E) : io A E := fun w => (r, w).

Notation "'let!' x ':=' m 'in' k" := (io_bind m (fun x => k))
  (at level 10, x pattern, m at level 100, k at level 200,
   format "'[v' 'let!'  x  ':='  m  'in' '/' k ']'") : rust_scope.

(** Consume one outcome of the oracle; an exhausted oracle lets everything pass. *)
Definition next_outcome : io outcome IoError := fun w =>
  match w_outcomes w with
  | [] => (Ok Pass, w)
  | o :: l => (Ok o, set_outcomes l w)
  end.

(** Run [m] unless the environment makes the operation fail. *)
Definition guarded {A} (m : io A IoError) : io A IoError :=
  let! o := next_outcome in
  match o with Pass => m | Fault e _ _ => io_fail e end.

(** ** Paths and directories *)

(** The path without its trailing separators; the root becomes [""]. *)
Fixpoint strip_slashes (p : string) : string :=
  match p with
  | "" => ""
  | String c p' =>
      match strip_slashes p' with
      | "" => if Ascii.eqb c "/" then "" else String c ""
      | p'' => String c p''
      end
  end.

(** The text before the last separator, if there is one. *)
Fixpoint before_last_slash (p : string) : option string :=
  match p with
  | "" => None
  | String c p' =>
      match before_last_slash p' with
      | Some q => Some (String c q)
      | None => if Ascii.eqb c "/" then Some "" else None
      end
  end.

(** The directory an entry lives in; [""] is the root or the working directory. *)
Definition parent_dir (p : string) : string :=
  match before_last_slash (strip_slashes p) with
  | Some q => strip_slashes q
  | None => ""
  end.

Definition dir_exists (w : World) (d : string) : bool :=
  bool_decide (d = "" \/ d ∈ w_dirs w).

Definition is_dir (w : World) (p : string) : bool :=
  match p with "" => false | _ => dir_exists w (strip_slashes p) end.

Definition is_file (w : World) (p : string) : bool :=
  bool_decide (is_Some (w_files w !! p)).

(** Every directory on the way to [p], [p] included: [pre] is the text already
    walked over. *)
Fixpoint prefixes (pre p : string) : list string :=
  match p with
  | "" => [pre]
  | String c p' =>
      (if Ascii.eqb c "/" then [pre] else []) ++ prefixes (pre +:+ String c "") p'
  end.

Definition ancestors (p : string) : list string :=
  filter (fun q => q <> "") (prefixes "" (strip_slashes p)).

(** [fs::create_dir_all]. *)
Definition create_dir_all (p : string) : io unit IoError :=
  let! o := next_outcome in
  let dirs := ancestors p in
  let add l : World -> World := fun w => set_dirs (w_dirs w ∪ list_to_set l) w in
  match o with
  | Fault e n _ => fun w => (Err e, add (take n dirs) w)
  | Pass => fun w =>
      if is_file w (strip_slashes p) then (Err AlreadyExists, w)
      else if existsb (is_file w) dirs then (Err NotADirectory, w)
      else (Ok tt, add dirs w)
  end.

(** [Path::exists]: false also when the metadata cannot be read. *)
Definition path_exists {E} (p : string) : io bool E := fun w =>
  match guarded (fun w => (Ok (is_file w p || is_dir w p), w)) w with
  | (Ok b, w') => (Ok b, w')
  | (Err _, w') => (Ok false, w')
  end.

(** ** Whole-file operations *)

Definition remove_file (p : string) : io unit IoError := guarded (fun w =>
  match w_files w !! p with
  | Some _ => (Ok tt, set_files (delete p (w_files w)) w)
  | None => (Err (if is_dir w p then IsADirectory else NotFound), w)
  end).

(** [fs::rename], atomic; replaces an existing file. *)
Definition rename (src dst : string) : io unit IoError := guarded (fun w =>
  match w_files w !! src with
  | None => (Err NotFound, w)
  | Some f =>
      if is_dir w dst then (Err IsADirectory, w)
      else if dir_exists w (parent_dir dst) then
        (Ok tt, set_files (<[dst := f]> (delete src (w_files w))) w)
      else (Err NotFound, w)
  end).

(** The effect of a successful [open] with [create] and [truncate]: a new file
    gets the process's default mode, an existing one keeps its own. *)
Definition truncated (w : World) (p : string) : File :=
  mk_file [] (default (w_default_mode w) (f_mode <$> w_files w !! p)).

Definition create_truncate (p : string) : io unit IoError := fun w =>
  if is_dir w p then (Err IsADirectory, w)
  else if dir_exists w (parent_dir p) then
    (Ok tt, set_files (<[p := truncated w p]> (w_files w)) w)
  else (Err NotFound, w).

(** [fs::write]: create or truncate, then write everything; a failing write may
    leave a prefix. *)
Definition fs_write (p : string) (data : list u8) : io unit IoError :=
  let! _ := guarded (create_truncate p) in
  let! o := next_outcome in
  let put bs : World -> World := fun w =>
    set_files (alter (fun f => mk_file bs (f_mode f)) p (w_files w)) w in
  match o with
  | Pass => fun w => (Ok tt, put data w)
  | Fault e n _ => fun w => (Err e, put (take n data) w)
  end.

(** [fs::read]. *)
Definition fs_read (p : string) : io (list u8) IoError := guarded (fun w =>
  match w_files w !! p with
  | Some f => (Ok (f_content f), w)
  | None => (Err (if is_dir w p then IsADirectory else NotFound), w)
  end).

(** [fs::set_permissions(p, Permissions::from_mode(mode))]. *)
Definition set_mode (p : string) (mode : Z) : io unit IoError := guarded (fun w =>
  match w_files w !! p with
  | Some f => (Ok tt, set_files (<[p := mk_file (f_content f) mode]> (w_files w)) w)
  | None => (Err NotFound, w)
  end).

(** ** Open files *)

(** A file opened for writing: its position, and a background write's error
    that has not been reported yet. *)
Record Writer := mk_writer { wr_path : string; wr_pos : Z; wr_err : option IoError }.

(** [OpenOptions::new().create(true).truncate(true).write(true).read(true).open(p)]. *)
Definition open_truncate (p : string) : io Writer IoError :=
  let! _ := guarded (create_truncate p) in io_ret (mk_writer p 0 None).

(** [seek(SeekFrom::Start(off))]: offsets beyond [i64::MAX] are invalid. *)
Definition seek_start (h : Writer) (off : Z) : io Writer IoError :=
  guarded (fun w =>
    if (off <? 2 ^ 63)%Z then (Ok (mk_writer (wr_path h) off (wr_err h)), w)
    else (Err InvalidInput, w)).

(** Bytes written at an offset: a gap is filled with zeros. *)
Definition splice (old : list u8) (off : nat) (data : list u8) : list u8 :=
  match data with
  | [] => old
  | _ => resize off Byte.x00 old ++ data ++ drop (off + length data) old
  end.

Definition put_at (h : Writer) (data : list u8) (w : World) : World :=
  set_files (alter (fun f => mk_file (splice (f_content f) (Z.to_nat (wr_pos h)) data) (f_mode f))
               (wr_path h) (w_files w)) w.

(** [write_all]: reports a pending error first. *)
Definition write_all (h : Writer) (data : list u8) : io Writer IoError :=
  match data with
  | [] => io_ret h
  | _ =>
      match wr_err h with
      | Some e => io_fail e
      | None =>
          let! o := next_outcome in
          let moved err := mk_writer (wr_path h) (wr_pos h + Z.of_nat (length data)) err in
          match o with
          | Pass => fun w => (Ok (moved None), put_at h data w)
          | Fault e n true => fun w => (Ok (moved (Some e)), put_at h (take n data) w)
          | Fault e n false => fun w => (Err e, put_at h (take n data) w)
          end
      end
  end.

(** [flush]: every byte written is in the file, or the pending error comes out. *)
Definition flush (h : Writer) : io unit IoError :=
  match wr_err h with
  | Some e => io_fail e
  | None => guarded (io_ret tt)
  end.

(** A file opened for reading. *)
Record Reader := mk_reader { rd_path : string; rd_pos : nat }.

(** [File::open]; opening a directory succeeds and reading it fails. *)
Definition open_read (p : string) : io Reader IoError := guarded (fun w =>
  if is_file w p || is_dir w p then (Ok (mk_reader p 0), w) else (Err NotFound, w)).

Definition content_of (w : World) (p : string) : list u8 :=
  default [] (f_content <$> w_files w !! p).

(** [metadata().len()]. *)
Definition metadata_len (h : Reader) : io Z IoError :=
  guarded (fun w => (Ok (Z.of_nat (length (content_of w (rd_path h)))), w)).

(** [read(&mut buf)] with [buf.len() = cap]: between one byte and as many as are
    left and fit, as the environment decides; none at the end of the file. *)
Definition file_read (h : Reader) (cap : Z) : io (list u8 * Reader) IoError :=
  guarded (fun w =>
    if is_file w (rd_path h) then
      let rest := drop (rd_pos h) (content_of w (rd_path h)) in
      let most := Z.to_nat (Z.min cap (Z.of_nat (length rest))) in
      let (n, w') := match w_reads w with
                     | [] => (most, w)
                     | k :: ks => (Nat.min most (Nat.max 1 k), set_reads ks w)
                     end in
      (Ok (take n rest, mk_reader (rd_path h) (rd_pos h + n)), w')
    else (Err IsADirectory, w)).

(** ** The network *)

(** Hand a sample to the network. *)
Definition send (s : Sample) : io unit IoError :=
  guarded (fun w => (Ok tt, set_sent (w_sent w ++ [s]) w)).

(** ** Reasoning about effects *)

(** The oracle that never fails. *)
Definition quiet (w : World) : Prop := w_outcomes w = [].

(** [keeps I m]: [m] preserves the file-system property [I] whatever happens;
    [keeps_err I m]: it does when it returns an error. *)
Definition keeps {A E} (I : gmap string File -> Prop) (m : io A E) : Prop :=
  forall w r w', m w = (r, w') -> I (w_files w) -> I (w_files w').
Definition keeps_err {A E} (I : gmap string File -> Prop) (m : io A E) : Prop :=
  forall w e w', m w = (Err e, w') -> I (w_files w) -> I (w_files w').

(** [allows w e]: the environment can make an operation fail with [e]. *)
Definition allows (w : World) (e : IoError) : Prop :=
  exists n d, Fault e n d ∈ w_outcomes w.

(** The oracle is only ever consumed. *)
Definition consumed (w w' : World) : Prop := w_outcomes w' `suffix_of` w_outcomes w.

#[global] Instance consumed_preorder : PreOrder consumed.
Proof. split; [by intros w; unfold consumed|]. unfold consumed. intros w1 w2 w3 H1 H2. by transitivity (w_outcomes w2). Qed.

Lemma consumed_allows w w' e : consumed w w' -> allows w' e -> allows w e.
Proof. intros [l Hl] (n & d & Hin). exists n, d. rewrite Hl. apply elem_of_app. by right. Qed.

Lemma consumed_quiet w w' : consumed w w' -> quiet w -> quiet w'.
Proof. unfold quiet. intros [l Hl] Hq. rewrite Hq in Hl. by destruct l, (w_outcomes w'). Qed.

Lemma io_bind_ok {A B E} (m : io A E) (k : A -> io B E) w b w' :
  io_bind m k w = (Ok b, w') <-> exists a w1, m w = (Ok a, w1) /\ k a w1 = (Ok b, w').
Proof. unfold io_bind. destruct (m w) as [[a|e] w1]; naive_solver. Qed.

Lemma io_bind_err {A B E} (m : io A E) (k : A -> io B E) w e w' :
  io_bind m k w = (Err e, w') <->
  m w = (Err e, w') \/ exists a w1, m w = (Ok a, w1) /\ k a w1 = (Err e, w').
Proof. unfold io_bind. destruct (m w) as [[a|e1] w1]; naive_solver. Qed.

(** One step of a computation whose first operation is known. *)
Lemma io_bind_step {A B E} (m : io A E) (k : A -> io B E) w a w1 :
  m w = (Ok a, w1) -> io_bind m k w = k a w1.
Proof. unfold io_bind. by intros ->. Qed.

Lemma io_bind_stop {A B E} (m : io A E) (k : A -> io B E) w e w1 :
  m w = (Err e, w1) -> io_bind m k w = (Err e, w1).
Proof. unfold io_bind. by intros ->. Qed.

Lemma io_bind_assoc {A B C E} (m : io A E) (f : A -> io B E) (k : B -> io C E) w :
  io_bind (io_bind m f) k w = io_bind m (fun a => io_bind (f a) k) w.
Proof. unfold io_bind. by destruct (m w) as [[a|e] w1]. Qed.

Lemma io_map_err_step {A E F} (f : E -> F) (m : io A E) w r w1 :
  m w = (r, w1) -> io_map_err f m w = (map_err f r, w1).
Proof. unfold io_map_err. by intros ->. Qed.

Lemma io_map_err_inv {A E F} (f : E -> F) (m : io A E) w r w1 :
  io_map_err f m w = (r, w1) -> exists r', m w = (r', w1) /\ r = map_err f r'.
Proof. unfold io_map_err. destruct (m w). naive_solver. Qed.

Lemma io_map_err_ok {A E F} (f : E -> F) (m : io A E) w a w1 :
  io_map_err f m w = (Ok a, w1) <-> m w = (Ok a, w1).
Proof. unfold io_map_err. destruct (m w) as [[]]; naive_solver. Qed.

Lemma io_map_err_err {A E F} (f : E -> F) (m : io A E) w e w1 :
  io_map_err f m w = (Err e, w1) <-> exists e', m w = (Err e', w1) /\ e = f e'.
Proof. unfold io_map_err. destruct (m w) as [[]]; naive_solver. Qed.

Section Keeps.
Context (I : gmap string File -> Prop).

Lemma keeps_keeps_err {A E} (m : io A E) : keeps I m -> keeps_err I m.
Proof. intros H w e w'. apply H. Qed.

Lemma keeps_ret {A E} (a : A) : keeps I (io_ret (E := E) a).
Proof. by intros w r w' [= _ <-]. Qed.

Lemma keeps_fail {A E} (e : E) : keeps I (io_fail (A := A) e).
Proof. by intros w r w' [= _ <-]. Qed.

Lemma keeps_lift {A E} (x : result A E) : keeps I (io_lift x).
Proof. by intros w r w' [= _ <-]. Qed.

Lemma keeps_bind {A B E} (m : io A E) (k : A -> io B E) :
  keeps I m -> (forall a, keeps I (k a)) -> keeps I (io_bind m k).
Proof.
  intros Hm Hk w r w'. unfold io_bind. destruct (m w) as [[a|e] w1] eqn:E1.
  - intros H2 HI. eapply Hk; [done|]. by eapply Hm.
  - intros [= <- <-] HI. by eapply Hm.
Qed.

Lemma keeps_err_bind {A B E} (m : io A E) (k : A -> io B E) :
  keeps I m -> (forall a, keeps_err I (k a)) -> keeps_err I (io_bind m k).
Proof.
  intros Hm Hk w e w' [H|(a & w1 & H1 & H2)]%io_bind_err HI; [by eapply Hm|].
  eapply Hk; [done|]. by eapply Hm.
Qed.

(** The same, knowing something about the value. *)
Lemma keeps_bind_post {A B E} (P : A -> Prop) (m : io A E) (k : A -> io B E) :
  (forall w a w1, m w = (Ok a, w1) -> P a) ->
  keeps I m -> (forall a, P a -> keeps I (k a)) -> keeps I (io_bind m k).
Proof.
  intros HP Hm Hk w r w'. unfold io_bind. destruct (m w) as [[a|e] w1] eqn:E1.
  - intros H2 HI. eapply Hk; [by eapply HP|done|]. by eapply Hm.
  - intros [= <- <-] HI. by eapply Hm.
Qed.

Lemma keeps_err_bind_post {A B E} (P : A -> Prop) (m : io A E) (k : A -> io B E) :
  (forall w a w1, m w = (Ok a, w1) -> P a) ->
  keeps I m -> (forall a, P a -> keeps_err I (k a)) -> keeps_err I (io_bind m k).
Proof.
  intros HP Hm Hk w e w' [H|(a & w1 & H1 & H2)]%io_bind_err HI; [by eapply Hm|].
  eapply Hk; [by eapply HP|done|]. by eapply Hm.
Qed.

Lemma keeps_map_err {A E F} (f : E -> F) (m : io A E) : keeps I m -> keeps I (io_map_err f m).
Proof. intros Hm w r w' (r' & H & _)%io_map_err_inv. by eapply Hm. Qed.

Lemma keeps_err_map_err {A E F} (f : E -> F) (m : io A E) :
  keeps_err I m -> keeps_err I (io_map_err f m).
Proof. intros Hm w e w' (r' & H & Hr)%io_map_err_inv. destruct r'; [done|]. by eapply Hm. Qed.

Lemma keeps_ignore {A E F} (m : io A E) : keeps I m -> keeps I (io_ignore (F := F) m).
Proof.
  intros Hm w r w'. unfold io_ignore. destruct (m w) as [r1 w1] eqn:E1.
  intros [= _ <-]. by eapply Hm.
Qed.

Lemma keeps_next : keeps I next_outcome.
Proof. intros w r w'. unfold next_outcome. destruct (w_outcomes w); by intros [= _ <-]. Qed.

Lemma keeps_guarded {A} (m : io A IoError) : keeps I m -> keeps I (guarded m).
Proof.
  intros Hm. apply keeps_bind; [apply keeps_next|]. intros []; [done|apply keeps_fail].
Qed.

Lemma keeps_if {A E} (b : bool) (m1 m2 : io A E) :
  keeps I m1 -> keeps I m2 -> keeps I (if b then m1 else m2).
Proof. by destruct b. Qed.

End Keeps.

#[export] Hint Resolve keeps_keeps_err keeps_ret keeps_fail keeps_lift keeps_bind
  keeps_err_bind keeps_map_err keeps_err_map_err keeps_ignore keeps_next keeps_guarded
  keeps_if : furcate.

(** Operations that leave the files alone. *)

Ltac solve_keeps_leaf :=
  apply keeps_guarded; intros ? ? ?; repeat case_match; intros; simplify_eq/=; assumption.

Lemma keeps_create_dir_all I p : keeps I (create_dir_all p).
Proof.
  apply keeps_bind; [apply keeps_next|]. intros [|e n d] w r w'; cbn;
    repeat case_match; intros; simplify_eq; done.
Qed.

Lemma keeps_path_exists {E} I p : keeps I (path_exists (E := E) p).
Proof.
  intros w r w'. unfold path_exists.
  destruct (guarded _ w) as [r1 w1] eqn:E1. intros H HI.
  assert (w1 = w') as <- by (destruct r1; congruence).
  refine (keeps_guarded I _ _ w r1 w1 E1 HI). by intros ? ? ? [= _ <-].
Qed.

Lemma keeps_seek_start I h off : keeps I (seek_start h off).
Proof. solve_keeps_leaf. Qed.

Lemma keeps_flush I h : keeps I (flush h).
Proof. unfold flush. destruct (wr_err h); auto with furcate. Qed.

Lemma keeps_open_read I p : keeps I (open_read p).
Proof. solve_keeps_leaf. Qed.

Lemma keeps_metadata_len I h : keeps I (metadata_len h).
Proof. solve_keeps_leaf. Qed.

Lemma keeps_file_read I h cap : keeps I (file_read h cap).
Proof. solve_keeps_leaf. Qed.

Lemma keeps_send I s : keeps I (send s).
Proof. solve_keeps_leaf. Qed.

#[export] Hint Resolve keeps_create_dir_all keeps_path_exists keeps_seek_start keeps_flush
  keeps_open_read keeps_metadata_len keeps_file_read keeps_send : furcate.

(** Operations on [p] keep the properties that do not depend on [p]. *)
Definition off_path (p : string) (I : gmap string File -> Prop) : Prop :=
  forall m m', (forall q, q <> p -> m !! q = m' !! q) -> I m -> I m'.

Lemma off_path_lookup p q x : q <> p -> off_path p (fun m => m !! q = x).
Proof. intros Hq m m' Hm <-. symmetry. by apply Hm. Qed.

Section OffPath.
Context (p : string) (I : gmap string File -> Prop) (HI : off_path p I).

Lemma keeps_remove_file : keeps I (remove_file p).
Proof.
  apply keeps_guarded. intros w r w'. case_match; intros [= <- <-]; [|done]. cbn.
  apply HI. intros q Hq. by rewrite lookup_delete_ne.
Qed.

Lemma keeps_create_truncate : keeps I (create_truncate p).
Proof.
  intros w r w'. unfold create_truncate. repeat case_match; intros [= <- <-]; [done| |done].
  cbn. apply HI. intros q Hq. by rewrite lookup_insert_ne.
Qed.

Lemma keeps_open_truncate : keeps I (open_truncate p).
Proof. apply keeps_bind; eauto using keeps_create_truncate with furcate. Qed.

Lemma put_at_off h data w : wr_path h = p -> I (w_files w) -> I (w_files (put_at h data w)).
Proof. intros Hp. cbn. apply HI. intros q Hq. rewrite lookup_alter_ne; congruence. Qed.

Lemma keeps_write_all h data : wr_path h = p -> keeps I (write_all h data).
Proof.
  intros Hp. unfold write_all. destruct data as [|b data]; [auto with furcate|].
  destruct (wr_err h); [auto with furcate|].
  apply keeps_bind; [auto with furcate|].
  intros [|e n []] w r w' [= <- <-]; by apply put_at_off.
Qed.

Lemma keeps_fs_write data : keeps I (fs_write p data).
Proof.
  apply keeps_bind; [auto using keeps_create_truncate with furcate|]. intros _.
  apply keeps_bind; [auto with furcate|].
  intros [|e n d] w r w' [= <- <-]; cbn; apply HI; intros q Hq; by rewrite lookup_alter_ne.
Qed.

Lemma keeps_set_mode mode : keeps I (set_mode p mode).
Proof.
  apply keeps_guarded. intros w r w'. case_match; intros [= <- <-]; [|done]. cbn.
  apply HI. intros q Hq. by rewrite lookup_insert_ne.
Qed.

End OffPath.

#[export] Hint Resolve keeps_remove_file keeps_create_truncate keeps_open_truncate
  keeps_write_all keeps_fs_write keeps_set_mode off_path_lookup : furcate.

Lemma next_outcome_inv w r w' :
  next_outcome w = (r, w') -> exists o, r = Ok o /\ w_files w' = w_files w /\ w_dirs w' = w_dirs w.
Proof. unfold next_outcome. destruct (w_outcomes w); intros [= <- <-]; eauto. Qed.

(** A handle stays on its path. *)
Lemma open_truncate_path p w h w' : open_truncate p w = (Ok h, w') -> wr_path h = p.
Proof. by intros ([] & ? & _ & [= <- _])%io_bind_ok. Qed.

Lemma seek_start_path h off w h' w' : seek_start h off w = (Ok h', w') -> wr_path h' = wr_path h.
Proof.
  unfold seek_start, guarded. intros ([|] & ? & _ & Hk)%io_bind_ok; [|done]. revert Hk.
  destruct (off <? 2 ^ 63)%Z; [|done]. by intros [= <- _].
Qed.

Lemma seek_start_ok h off w h' w' :
  seek_start h off w = (Ok h', w') ->
  h' = mk_writer (wr_path h) off (wr_err h) /\ w_files w' = w_files w /\ (off < 2 ^ 63)%Z.
Proof.
  unfold seek_start, guarded. intros (o & w1 & Hn & Hk)%io_bind_ok.
  apply next_outcome_inv in Hn as (_ & _ & Hf & _). destruct o; [|done]. revert Hk.
  destruct (off <? 2 ^ 63)%Z eqn:E; [|done]. apply Z.ltb_lt in E. by intros [= <- <-].
Qed.

Lemma write_all_path h data w h' w' : write_all h data w = (Ok h', w') -> wr_path h' = wr_path h.
Proof.
  unfold write_all. destruct data; [by intros [= <- _]|]. destruct (wr_err h); [done|].
  intros ([|? ? []] & ? & _ & Hk)%io_bind_ok; try discriminate Hk; by injection Hk as <- _.
Qed.

Lemma rename_err_keeps I src dst : keeps_err I (rename src dst).
Proof.
  apply keeps_err_bind; [auto with furcate|]. intros [|e n d]; [|auto with furcate].
  intros w e w'. repeat case_match; naive_solver.
Qed.

(** A successful operation is its unguarded body in a world with the same files. *)
Lemma guarded_ok {A} (m : io A IoError) w a w' :
  guarded m w = (Ok a, w') ->
  exists w1, m w1 = (Ok a, w') /\ w_files w1 = w_files w /\ w_dirs w1 = w_dirs w /\
             w_reads w1 = w_reads w /\ w_sent w1 = w_sent w /\ consumed w w1.
Proof.
  unfold guarded, io_bind, next_outcome. destruct (w_outcomes w) as [|[|e n d] os] eqn:Eo;
    intros H; [exists w; by split_and!| |done].
  eexists; split; [exact H|]. repeat split; try done. exists [Pass]. by rewrite Eo.
Qed.

Lemma guarded_err {A} (m : io A IoError) w e w' :
  guarded m w = (Err e, w') ->
  allows w e \/ exists w1, m w1 = (Err e, w') /\ w_files w1 = w_files w /\ w_dirs w1 = w_dirs w.
Proof.
  unfold guarded, io_bind, next_outcome. destruct (w_outcomes w) as [|[|e1 n d] os] eqn:Eo;
    intros H; [right; eauto|right; eauto|].
  left. injection H as -> _. exists n, d. rewrite Eo. left.
Qed.

Lemma guarded_quiet {A} (m : io A IoError) w : quiet w -> guarded m w = m w.
Proof. unfold quiet, guarded, io_bind, next_outcome. by intros ->. Qed.

Lemma rename_ok src dst w w' :
  rename src dst w = (Ok tt, w') ->
  exists f, w_files w !! src = Some f /\ w_files w' = <[dst := f]> (delete src (w_files w)).
Proof.
  intros (w1 & H & Hf & _)%guarded_ok. revert H. rewrite Hf. repeat case_match; naive_solver.
Qed.

(** ** What the operations do when nothing fails *)

Lemma quiet_set_files m w : quiet w -> quiet (set_files m w).
Proof. done. Qed.

Lemma open_truncate_quiet p w :
  quiet w -> is_dir w p = false -> dir_exists w (parent_dir p) = true ->
  open_truncate p w =
    (Ok (mk_writer p 0 None), set_files (<[p := truncated w p]> (w_files w)) w).
Proof.
  intros Hq Hd Hp. unfold open_truncate, io_bind. rewrite guarded_quiet by done.
  unfold create_truncate. by rewrite Hd, Hp.
Qed.

Lemma seek_start_quiet h off w :
  quiet w -> seek_start h off w =
    (if (off <? 2 ^ 63)%Z then Ok (mk_writer (wr_path h) off (wr_err h)) else Err InvalidInput, w).
Proof.
  intros Hq. unfold seek_start. rewrite guarded_quiet by done. by destruct (off <? _)%Z.
Qed.

(** Writing to the file [p] whose bytes are [old]. *)
Lemma write_all_quiet p pos data w f :
  quiet w -> w_files w !! p = Some f ->
  exists pos', write_all (mk_writer p pos None) data w =
    (Ok (mk_writer p pos' None),
     set_files (<[p := mk_file (splice (f_content f) (Z.to_nat pos) data) (f_mode f)]> (w_files w)) w).
Proof.
  intros Hq Hf. destruct data as [|b data]; cbn [write_all].
  - exists pos. unfold io_ret; cbn [splice]. f_equal. destruct w; cbn in *. unfold set_files; cbn.
    f_equal. symmetry. apply insert_id. by destruct f.
  - eexists. cbn [wr_err]. unfold io_bind, next_outcome. rewrite Hq. f_equal.
    unfold put_at; cbn [wr_path wr_pos]. f_equal. apply map_eq. intros q.
    destruct (decide (q = p)) as [->|Hne].
    + by rewrite lookup_alter_eq, lookup_insert_eq, Hf.
    + by rewrite lookup_alter_ne, lookup_insert_ne.
Qed.

Lemma remove_file_quiet p w f :
  quiet w -> w_files w !! p = Some f ->
  remove_file p w = (Ok tt, set_files (delete p (w_files w)) w).
Proof. intros Hq Hf. unfold remove_file. rewrite guarded_quiet by done. by rewrite Hf. Qed.

Lemma rename_quiet src dst w f :
  quiet w -> w_files w !! src = Some f -> is_dir w dst = false ->
  dir_exists w (parent_dir dst) = true ->
  rename src dst w = (Ok tt, set_files (<[dst := f]> (delete src (w_files w))) w).
Proof.
  intros Hq Hf Hd Hp. unfold rename. rewrite guarded_quiet by done. by rewrite Hf, Hd, Hp.
Qed.

(** ** Reading *)

Lemma is_file_true w p : is_file w p = true <-> exists f, w_files w !! p = Some f.
Proof. unfold is_file. rewrite bool_decide_eq_true. done. Qed.

Lemma file_read_ok h cap w bs h' w' :
  (0 < cap)%Z -> file_read h cap w = (Ok (bs, h'), w') ->
  w_files w' = w_files w /\ w_dirs w' = w_dirs w /\ w_sent w' = w_sent w /\
  consumed w w' /\
  let rest := drop (rd_pos h) (content_of w (rd_path h)) in
  rest = bs ++ drop (rd_pos h') (content_of w (rd_path h)) /\
  h' = mk_reader (rd_path h) (rd_pos h + length bs) /\
  (Z.of_nat (length bs) <= cap)%Z /\ (bs = [] <-> rest = []) /\
  is_file w (rd_path h) = true.
Proof.
  intros Hcap (w1 & H & Hf & Hd & Hr & Hs & Ha)%guarded_ok.
  unfold is_file, content_of in *. rewrite Hf in H.
  destruct (bool_decide (is_Some (w_files w !! rd_path h))); [|discriminate H].
  set (c := default [] (f_content <$> w_files w !! rd_path h)) in *. cbn zeta in *.
  set (rest := drop (rd_pos h) c) in *.
  set (most := Z.to_nat (Z.min cap (Z.of_nat (length rest)))) in *.
  assert (exists n, n <= most /\ (0 < most -> 0 < n) /\ bs = take n rest /\
            h' = mk_reader (rd_path h) (rd_pos h + n) /\ w_files w' = w_files w1 /\
            w_dirs w' = w_dirs w1 /\ w_sent w' = w_sent w1 /\ w_outcomes w' = w_outcomes w1)
    as (n & Hn & Hpos & -> & -> & Hf' & Hd' & Hs' & Ho').
  { destruct (w_reads w1) as [|k ks]; injection H as <- <- <-;
      eexists; (split; [|split; [|repeat split]]); lia. }
  assert (length (take n rest) = n) as Hlen by (rewrite length_take; lia).
  split_and!; [congruence|congruence|congruence| | |by rewrite Hlen|lia| |done].
  - transitivity w1; [done|]. unfold consumed. by rewrite Ho'.
  - cbn [rd_pos]. rewrite <- drop_drop. fold rest. by rewrite take_drop.
  - rewrite <- !length_zero_iff_nil, Hlen. lia.
Qed.

Lemma file_read_err h cap w e w' :
  file_read h cap w = (Err e, w') ->
  allows w e \/ (e = IsADirectory /\ is_file w (rd_path h) = false).
Proof.
  intros [?|(w1 & H & Hf & Hd)]%guarded_err; [by left|right].
  unfold is_file in *. rewrite Hf in H. destruct (bool_decide _).
  - destruct (w_reads w1); discriminate H.
  - by injection H as <- _.
Qed.

Lemma open_read_ok p w h w' :
  open_read p w = (Ok h, w') ->
  h = mk_reader p 0 /\ w_files w' = w_files w /\ w_dirs w' = w_dirs w /\ w_sent w' = w_sent w /\
  consumed w w'.
Proof. intros (w1 & H & ?)%guarded_ok. revert H. case_match; naive_solver. Qed.

Lemma open_read_err p w e w' :
  open_read p w = (Err e, w') -> allows w e \/ (e = NotFound /\ is_file w p = false).
Proof.
  intros [?|(w1 & H & Hf & Hd)]%guarded_err; [by left|right].
  unfold is_file in *. rewrite Hf in H. by destruct (bool_decide _); [|case_match; simplify_eq].
Qed.

Lemma quiet_allows w e : quiet w -> ~ allows w e.
Proof. intros Hq (n & d & Hin). rewrite Hq in Hin. by apply elem_of_nil in Hin. Qed.

Lemma path_exists_ok {E} p w b w' :
  path_exists (E := E) p w = (Ok b, w') ->
  w_files w' = w_files w /\ w_dirs w' = w_dirs w /\
  (b = true -> is_file w p = true \/ is_dir w p = true).
Proof.
  unfold path_exists. destruct (guarded _ w) as [[b1|e] w1] eqn:E1; intros [= <- <-].
  - apply guarded_ok in E1 as (w2 & [= <- <-] & Hf & Hd & _). split_and!; [done..|].
    unfold is_file, is_dir, dir_exists. rewrite Hf, Hd. by intros [?|?]%orb_true_iff; [left|right].
  - split_and!; [| |done].
    + by refine (keeps_guarded (fun m => m = w_files w) _ _ w _ _ E1 eq_refl); intros ? ? ? [= _ <-].
    + revert E1. unfold guarded, io_bind, next_outcome.
      by destruct (w_outcomes w) as [|[|? ? ?] ?]; intros [= _ <-].
Qed.

Lemma create_dir_all_files p w r w' : create_dir_all p w = (r, w') -> w_files w' = w_files w.
Proof. intros Hr. by refine (keeps_create_dir_all (fun m => m = w_files w) p w r w' Hr eq_refl). Qed.

Lemma create_dir_all_quiet p w :
  quiet w -> existsb (is_file w) (strip_slashes p :: ancestors p) = false ->
  create_dir_all p w = (Ok tt, set_dirs (w_dirs w ∪ list_to_set (ancestors p)) w).
Proof.
  intros Hq Hx. cbn [existsb] in Hx. apply orb_false_iff in Hx as [Hs Ha].
  unfold create_dir_all, io_bind, next_outcome.
  rewrite Hq. by rewrite Hs, Ha.
Qed.

Lemma path_exists_quiet {E} p w :
  quiet w -> path_exists (E := E) p w = (Ok (is_file w p || is_dir w p), w).
Proof. intros Hq. unfold path_exists. by rewrite guarded_quiet. Qed.

Lemma flush_quiet p pos w : quiet w -> flush (mk_writer p pos None) w = (Ok tt, w).
Proof. intros Hq. cbn. by rewrite guarded_quiet. Qed.

Lemma metadata_len_ok h w n w' :
  metadata_len h w = (Ok n, w') ->
  n = Z.of_nat (length (content_of w (rd_path h))) /\
  w_files w' = w_files w /\ w_sent w' = w_sent w /\ consumed w w'.
Proof.
  intros (w1 & [= <- <-] & Hf & _ & _ & Hs & Hc)%guarded_ok. unfold content_of. by rewrite Hf.
Qed.

Lemma metadata_len_err h w e w' : metadata_len h w = (Err e, w') -> allows w e /\ w_sent w' = w_sent w.
Proof.
  unfold metadata_len, guarded, io_bind, next_outcome.
  destruct (w_outcomes w) as [|[|e1 n d] os] eqn:Eo; intros [= <- <-].
  split; [|done]. exists n, d. rewrite Eo. left.
Qed.

Lemma send_ok s w w' :
  send s w = (Ok tt, w') ->
  w_files w' = w_files w /\ w_sent w' = w_sent w ++ [s] /\ consumed w w'.
Proof. intros (w1 & [= <-] & Hf & _ & _ & Hs & Hc)%guarded_ok. cbn. by rewrite Hs. Qed.

(** A failing operation of [m] sends nothing. *)
Lemma guarded_err_sent {A} (m : io A IoError) w e w' :
  (forall w1 w2, m w1 = (Err e, w2) -> w_sent w2 = w_sent w1) ->
  guarded m w = (Err e, w') -> w_sent w' = w_sent w.
Proof.
  intros Hm. unfold guarded, io_bind, next_outcome.
  destruct (w_outcomes w) as [|[|e1 n d] os]; [apply Hm|intros H; by apply Hm in H|by intros [= _ <-]].
Qed.

Lemma file_read_err_sent h cap w e w' : file_read h cap w = (Err e, w') -> w_sent w' = w_sent w.
Proof. apply guarded_err_sent. intros w1 w2. repeat case_match; naive_solver. Qed.

Lemma open_read_err_sent p w e w' : open_read p w = (Err e, w') -> w_sent w' = w_sent w.
Proof. apply guarded_err_sent. intros w1 w2. repeat case_match; naive_solver. Qed.

Lemma send_err s w e w' : send s w = (Err e, w') -> allows w e /\ w_sent w' = w_sent w.
Proof.
  unfold send, guarded, io_bind, next_outcome.
  destruct (w_outcomes w) as [|[|e1 n d] os] eqn:Eo; intros [= <- <-].
  split; [|done]. exists n, d. rewrite Eo. left.
Qed.

(** ** What a computation sends *)

(** [emits K m]: [m] changes no file and only sends samples satisfying [K]. *)
Definition emits {A E} (K : Sample -> Prop) (m : io A E) : Prop :=
  forall w r w', m w = (r, w') ->
    w_files w' = w_files w /\ exists ss, w_sent w' = w_sent w ++ ss /\ Forall K ss.

Section Emits.
Context (K : Sample -> Prop).

Lemma emits_same {A E} (m : io A E) :
  (forall w r w', m w = (r, w') -> w_files w' = w_files w /\ w_sent w' = w_sent w) -> emits K m.
Proof.
  intros Hm w r w' [Hf Hs]%Hm. split; [done|]. exists []. by rewrite app_nil_r.
Qed.

Lemma emits_pure {A E} (x : result A E) : emits K (io_lift x).
Proof. apply emits_same. by intros w r w' [= _ <-]. Qed.

Lemma emits_bind {A B E} (m : io A E) (k : A -> io B E) :
  emits K m -> (forall a, emits K (k a)) -> emits K (io_bind m k).
Proof.
  intros Hm Hk w r w'. unfold io_bind. destruct (m w) as [[a|e] w1] eqn:E1.
  - intros E2. apply Hm in E1 as (Hf1 & s1 & Hs1 & HK1). apply Hk in E2 as (Hf2 & s2 & Hs2 & HK2).
    split; [congruence|]. exists (s1 ++ s2). rewrite Hs2, Hs1, app_assoc.
    split; [done|]. by apply Forall_app.
  - intros [= <- <-]. by eapply Hm.
Qed.

Lemma emits_map_err {A E F} (f : E -> F) (m : io A E) : emits K m -> emits K (io_map_err f m).
Proof. intros Hm w r w' (r' & H & _)%io_map_err_inv. by eapply Hm. Qed.

Lemma emits_ignore {A E F} (m : io A E) : emits K m -> emits K (io_ignore (F := F) m).
Proof.
  intros Hm w r w'. unfold io_ignore. destruct (m w) as [r1 w1] eqn:E1.
  intros [= _ <-]. by eapply Hm.
Qed.

Lemma emits_guarded {A} (m : io A IoError) : emits K m -> emits K (guarded m).
Proof.
  intros Hm. apply emits_bind; [|intros []; [done|apply (emits_pure (Err e))]].
  apply emits_same. intros w r w'. unfold next_outcome. destruct (w_outcomes w); by intros [= _ <-].
Qed.

Lemma emits_open_read p : emits K (open_read p).
Proof. apply emits_guarded, emits_same. intros ? ? ?. repeat case_match; intros; by simplify_eq/=. Qed.

Lemma emits_metadata_len h : emits K (metadata_len h).
Proof. apply emits_guarded, emits_same. by intros ? ? ? [= _ <-]. Qed.

Lemma emits_file_read h cap : emits K (file_read h cap).
Proof. apply emits_guarded, emits_same. intros ? ? ?. repeat case_match; intros; by simplify_eq/=. Qed.

Lemma emits_send s : K s -> emits K (send s).
Proof.
  intros Hs. apply emits_guarded. intros w r w' [= _ <-]. split; [done|].
  exists [s]. split; [done|]. by constructor.
Qed.

End Emits.

#[export] Hint Resolve emits_pure emits_bind emits_map_err emits_ignore emits_open_read
  emits_metadata_len emits_file_read emits_send : furcate.

(** ** Runs whose next operations pass *)

(** The next [k] operations do not fail. *)
Definition passing (k : nat) (w : World) : Prop := Forall (eq Pass) (take k (w_outcomes w)).

Definition tick (w : World) : World := set_outcomes (tail (w_outcomes w)) w.

Lemma tick_quiet w : quiet w -> tick w = w.
Proof. destruct w. unfold quiet, tick, set_outcomes. cbn. by intros ->. Qed.

Lemma passing_quiet k w : quiet w -> passing k w.
Proof. unfold passing, quiet. intros ->. rewrite take_nil. constructor. Qed.

Lemma next_pass k w :
  passing (S k) w -> next_outcome w = (Ok Pass, tick w) /\ passing k (tick w).
Proof.
  unfold passing, next_outcome, tick. destruct w as [f d m s os r]; cbn.
  destruct os as [|o os]; cbn; [rewrite take_nil; by split|].
  by intros [<- HF]%Forall_cons.
Qed.

Lemma guarded_pass {A} (m : io A IoError) k w : passing (S k) w -> guarded m w = m (tick w).
Proof. intros [Hn _]%next_pass. unfold guarded. by rewrite (io_bind_step _ _ _ _ _ Hn). Qed.

Lemma create_dir_all_pass k p w :
  passing (S k) w -> existsb (is_file w) (strip_slashes p :: ancestors p) = false ->
  create_dir_all p w = (Ok tt, set_dirs (w_dirs w ∪ list_to_set (ancestors p)) (tick w)).
Proof.
  intros [Hn _]%next_pass Hx. cbn [existsb] in Hx. apply orb_false_iff in Hx as [Hs Ha].
  unfold create_dir_all. erewrite io_bind_step by exact Hn. cbn beta iota zeta.
  change (is_file (tick w)) with (is_file w). by rewrite Hs, Ha.
Qed.

Lemma fs_write_pass k p data w :
  passing (S (S k)) w -> is_dir w p = false -> dir_exists w (parent_dir p) = true ->
  fs_write p data w =
    (Ok tt, set_files (<[p := mk_file data (f_mode (truncated w p))]> (w_files w)) (tick (tick w))).
Proof.
  intros Hp Hd Hpar. pose proof (next_pass _ _ Hp) as [_ Hp1].
  pose proof (next_pass _ _ Hp1) as [Hn2 _].
  unfold fs_write. erewrite io_bind_step.
  2:{ rewrite (guarded_pass _ _ _ Hp). unfold create_truncate.
      change (is_dir (tick w) p) with (is_dir w p). rewrite Hd.
      change (dir_exists (tick w)) with (dir_exists w). rewrite Hpar. reflexivity. }
  set (w1 := set_files _ (tick w)).
  assert (next_outcome w1 = (Ok Pass, set_files (w_files w1) (tick (tick w)))) as Hn.
  { revert Hn2. unfold next_outcome, w1, tick, set_files, set_outcomes. cbn.
    destruct (tail (w_outcomes w)) eqn:Et; [done|]. by intros [= ->]. }
  erewrite io_bind_step by exact Hn. cbn beta iota zeta. f_equal. unfold set_files at 1; cbn.
  unfold set_files; cbn. f_equal. apply map_eq. intros q. destruct (decide (q = p)) as [->|Hq].
  - by rewrite lookup_alter_eq, !lookup_insert_eq.
  - by rewrite lookup_alter_ne, !lookup_insert_ne.
Qed.

(** ** Relations every file-system operation respects

    A preorder on worlds that allows any change of the files and the oracle to move
    on is respected by every operation that neither sends nor creates directories;
    one that also allows new directories on the way to [p], by [create_dir_all p];
    one that also allows samples to be sent, by [send]. *)

Class FsEffect (R : World -> World -> Prop) : Prop := {
  fs_effect_preorder :: PreOrder R;
  fs_effect_outcomes w : R w (set_outcomes (tail (w_outcomes w)) w);
  fs_effect_reads w l : R w (set_reads l w);
  fs_effect_files w m : R w (set_files m w);
}.

Class DirEffect (R : World -> World -> Prop) (p : string) : Prop :=
  dir_effect w (l : list string) : l ⊆ ancestors p -> R w (set_dirs (w_dirs w ∪ list_to_set l) w).

Class SendEffect (R : World -> World -> Prop) : Prop :=
  send_effect w (s : Sample) : R w (set_sent (w_sent w ++ [s]) w).

Definition respects {A E} (R : World -> World -> Prop) (m : io A E) : Prop :=
  forall w r w', m w = (r, w') -> R w w'.

Section Respects.
Context (R : World -> World -> Prop) `{HR : !FsEffect R}.

Lemma respects_bind {A B E} (m : io A E) (k : A -> io B E) :
  respects R m -> (forall a, respects R (k a)) -> respects R (io_bind m k).
Proof using HR.
  intros Hm Hk w r w'. unfold io_bind. destruct (m w) as [[a|e] w1] eqn:E1.
  - intros H2. transitivity w1; [by eapply Hm|by eapply Hk].
  - intros [= _ <-]. by eapply Hm.
Qed.

Lemma respects_map_err {A E F} (f : E -> F) (m : io A E) :
  respects R m -> respects R (io_map_err f m).
Proof. intros Hm w r w' (r' & H & _)%io_map_err_inv. by eapply Hm. Qed.

Lemma respects_ignore {A E F} (m : io A E) : respects R m -> respects R (io_ignore (F := F) m).
Proof.
  intros Hm w r w'. unfold io_ignore. destruct (m w) as [r1 w1] eqn:E1.
  intros [= _ <-]. by eapply Hm.
Qed.

Lemma respects_lift {A E} (x : result A E) : respects R (io_lift x).
Proof using HR. by intros w r w' [= _ <-]. Qed.

Lemma respects_ret {A E} (a : A) : respects R (io_ret (E := E) a).
Proof using HR. by intros w r w' [= _ <-]. Qed.

Lemma respects_fail {A E} (e : E) : respects R (io_fail (A := A) e).
Proof using HR. by intros w r w' [= _ <-]. Qed.

Lemma respects_next : respects R next_outcome.
Proof using HR.
  intros w r w'. unfold next_outcome.
  destruct (w_outcomes w) as [|o l] eqn:Eo; intros [= _ <-]; [done|].
  replace l with (tail (w_outcomes w)) by (by rewrite Eo). apply fs_effect_outcomes.
Qed.

Lemma respects_guarded {A} (m : io A IoError) : respects R m -> respects R (guarded m).
Proof using HR.
  intros Hm. apply respects_bind; [apply respects_next|]. intros []; [done|apply respects_fail].
Qed.

(** A body that changes nothing, or one part of the world. *)
Ltac solve_respects :=
  intros ? ? ?; cbv beta zeta; repeat case_match; intros; simplify_eq/=;
  first [reflexivity | apply fs_effect_files | apply fs_effect_reads].

Lemma respects_create_dir_all p `{!DirEffect R p} : respects R (create_dir_all p).
Proof using All.
  apply respects_bind; [apply respects_next|]. intros [|e n d] w r w'; cbv beta zeta.
  - repeat case_match; intros [= _ <-]; [done..|by apply dir_effect].
  - intros [= _ <-]. apply dir_effect. intros q (i & Hi & _)%elem_of_take. by eapply list_elem_of_lookup_2.
Qed.

Lemma respects_path_exists {E} p : respects R (path_exists (E := E) p).
Proof using HR.
  intros w r w'. unfold path_exists. destruct (guarded _ w) as [r1 w1] eqn:E1. intros H.
  assert (w1 = w') as <- by (destruct r1; congruence).
  refine (respects_guarded _ _ w r1 w1 E1). by intros ? ? ? [= _ <-].
Qed.

Lemma respects_create_truncate p : respects R (create_truncate p).
Proof using HR. unfold create_truncate. solve_respects. Qed.

Lemma respects_open_truncate p : respects R (open_truncate p).
Proof using HR.
  apply respects_bind; [apply respects_guarded, respects_create_truncate|]. intros _. apply respects_ret.
Qed.

Lemma respects_seek_start h off : respects R (seek_start h off).
Proof using HR. apply respects_guarded. solve_respects. Qed.

Lemma respects_write_all h data : respects R (write_all h data).
Proof using HR.
  unfold write_all. destruct data as [|b data]; [apply respects_ret|].
  destruct (wr_err h); [apply respects_fail|]. apply respects_bind; [apply respects_next|].
  intros [|e n []]; solve_respects.
Qed.

Lemma respects_flush h : respects R (flush h).
Proof using HR.
  unfold flush. destruct (wr_err h); [apply respects_fail|apply respects_guarded, respects_ret].
Qed.

Lemma respects_open_read p : respects R (open_read p).
Proof using HR. apply respects_guarded. solve_respects. Qed.

Lemma respects_file_read h cap : respects R (file_read h cap).
Proof using HR. apply respects_guarded. solve_respects. Qed.

Lemma respects_remove_file p : respects R (remove_file p).
Proof using HR. apply respects_guarded. solve_respects. Qed.

Lemma respects_rename src dst : respects R (rename src dst).
Proof using HR. apply respects_guarded. solve_respects. Qed.

Lemma respects_fs_write p data : respects R (fs_write p data).
Proof using HR.
  apply respects_bind; [apply respects_guarded, respects_create_truncate|]. intros _.
  apply respects_bind; [apply respects_next|]. intros [|e n d]; solve_respects.
Qed.

Lemma respects_fs_read p : respects R (fs_read p).
Proof using HR. apply respects_guarded. solve_respects. Qed.

Lemma respects_metadata_len h : respects R (metadata_len h).
Proof using HR. apply respects_guarded. solve_respects. Qed.

Lemma respects_send s `{!SendEffect R} : respects R (send s).
Proof using All. apply respects_guarded. intros w r w' [= _ <-]. apply send_effect. Qed.

Lemma respects_set_mode p mode : respects R (set_mode p mode).
Proof using HR. apply respects_guarded. solve_respects. Qed.

End Respects.

#[export] Hint Resolve respects_bind respects_map_err respects_ignore respects_lift respects_ret
  respects_fail respects_next respects_guarded respects_create_dir_all respects_path_exists
  respects_open_truncate respects_seek_start respects_write_all respects_flush respects_open_read
  respects_file_read respects_remove_file respects_rename respects_fs_write respects_fs_read
  respects_set_mode respects_metadata_len respects_send : furcate.

(** Directories are only added, and only on the way to a path; nothing is sent. *)
Definition dirs_grow (w w' : World) : Prop := w_dirs w ⊆ w_dirs w'.
Definition dirs_within (p : string) (w w' : World) : Prop :=
  w_dirs w ⊆ w_dirs w' /\ w_dirs w' ⊆ w_dirs w ∪ list_to_set (ancestors p).
Definition same_sent (w w' : World) : Prop := w_sent w' = w_sent w.

#[export] Instance dirs_within_effect p : FsEffect (dirs_within p).
Proof.
  split; unfold dirs_within; cbn; [|set_solver..].
  split; [intros w; set_solver|intros ? ? ?; set_solver].
Qed.

#[export] Instance dirs_within_dir p : DirEffect (dirs_within p) p.
Proof. intros w l Hl. unfold dirs_within. cbn. split; [set_solver|]. set_solver. Qed.

(** Directories stay, and what did not fail does not. *)
Definition steady (w w' : World) : Prop := w_dirs w' = w_dirs w /\ consumed w w'.

#[export] Instance steady_effect : FsEffect steady.
Proof.
  split; unfold steady.
  - split; [by intros w|]. intros w1 w2 w3 [E1 C1] [E2 C2]. split; [congruence|by transitivity w2].
  - intros w. split; [done|]. unfold consumed. cbn. destruct (w_outcomes w) as [|o l]; [done|by exists [o]].
  - intros w l. split; [done|]. by change (consumed w w).
  - intros w m. split; [done|]. by change (consumed w w).
Qed.

#[export] Instance steady_send : SendEffect steady.
Proof. intros w s. split; [done|]. by change (consumed w w). Qed.

#[export] Instance same_sent_effect : FsEffect same_sent.
Proof. split; unfold same_sent; cbn; [split; [by intros w|intros ? ? ?; congruence]|done..]. Qed.

#[export] Instance same_sent_dir p : DirEffect same_sent p.
Proof. by intros w l _. Qed.

Lemma is_dir_grows w w' p : dirs_grow w w' -> is_dir w p = true -> is_dir w' p = true.
Proof.
  unfold dirs_grow, is_dir, dir_exists. destruct p; [done|]. rewrite !bool_decide_eq_true. set_solver.
Qed.

(** What [ancestors] walks over is no longer than the path. *)
Lemma strip_slashes_length p : String.length (strip_slashes p) <= String.length p.
Proof.
  induction p as [|c p IH]; cbn; [done|]. destruct (strip_slashes p); [|cbn in *; lia].
  destruct (Ascii.eqb c "/"); cbn; lia.
Qed.

Lemma prefixes_length pre p q :
  q ∈ prefixes pre p -> String.length q <= String.length pre + String.length p.
Proof.
  revert pre; induction p as [|c p IH]; intros pre; cbn.
  - rewrite list_elem_of_singleton. intros ->. lia.
  - rewrite elem_of_app. intros [Hq|Hq%IH].
    + destruct (Ascii.eqb c "/"); [|by apply elem_of_nil in Hq].
      apply list_elem_of_singleton in Hq as ->. lia.
    + rewrite str_length_app in Hq. cbn in Hq. lia.
Qed.
