(* ===== verification/Channel.v ===== *)
(** * Bounded channels between tasks

    [tokio::sync::mpsc] with a fixed capacity, between a task that sends and a
    consumer: a send waits while the channel is full and fails once the receiver is
    dropped. The sending task is a state machine that says what it does next; the
    step relation interleaves it with a consumer that receives or drops its receiver
    whenever it likes. The invariant relates every interleaving to the task running
    alone ([emits]), so the components' sequential definitions can be used in place
    of the interleaved ones. *)

From stdpp Require Import relations.
From S2P Require Import Prelude.

(** What a task does next: send an item (with the state after a successful and
    after a failed send), step on its own, wait for the receiver to be dropped
    ([Sender::closed]), or nothing more. *)
Inductive action (S A : Type) : Type :=
| Send (x : A) (sent closed : S)
| Tau (s : S)
| UntilClosed (s : S)
| Halt.
Arguments Send {S A} x sent closed.
Arguments Tau {S A} s.
Arguments UntilClosed {S A} s.
Arguments Halt {S A}.

(** The task, the items in the channel, those received, and whether the receiver
    is still there. *)
Record conf (S A : Type) := mk_conf {
  task_state : S;
  queue : list A;
  received : list A;
  alive : bool;
}.
Arguments mk_conf {S A} _ _ _ _.
Arguments task_state {S A} _.
Arguments queue {S A} _.
Arguments received {S A} _.
Arguments alive {S A} _.

Section Channel.
Context {S A : Type} (cap : nat) (task : S -> action S A).
Implicit Types (s : S) (c : conf S A).

Inductive chan_step : conf S A -> conf S A -> Prop :=
| step_tau s s' q r al :
    task s = Tau s' -> chan_step (mk_conf s q r al) (mk_conf s' q r al)
| step_send s x s1 s2 q r :
    task s = Send x s1 s2 -> length q < cap ->
    chan_step (mk_conf s q r true) (mk_conf s1 (q ++ [x]) r true)
| step_closed s x s1 s2 q r :
    task s = Send x s1 s2 -> chan_step (mk_conf s q r false) (mk_conf s2 q r false)
| step_until s s' q r :
    task s = UntilClosed s' -> chan_step (mk_conf s q r false) (mk_conf s' q r false)
| step_recv s x q r :
    chan_step (mk_conf s (x :: q) r true) (mk_conf s q (r ++ [x]) true)
| step_drop s q r :
    chan_step (mk_conf s q r true) (mk_conf s [] r false).

Definition start s : conf S A := mk_conf s [] [] true.

(** The task alone, with a channel that always has room. *)
Inductive emits : S -> list A -> S -> Prop :=
| emits_refl s : emits s [] s
| emits_tau s s' xs t : task s = Tau s' -> emits s' xs t -> emits s xs t
| emits_send s x s1 s2 xs t : task s = Send x s1 s2 -> emits s1 xs t -> emits s (x :: xs) t.

Lemma emits_trans s xs t ys u : emits s xs t -> emits t ys u -> emits s (xs ++ ys) u.
Proof. induction 1; cbn; eauto using emits_tau, emits_send. Qed.

Lemma emits_snoc_tau s xs t u : emits s xs t -> task t = Tau u -> emits s xs u.
Proof.
  intros He Ht. rewrite <- (app_nil_r xs). eapply emits_trans; [done|].
  eapply emits_tau; [done|constructor].
Qed.

Lemma emits_snoc_send s xs t x s1 s2 : emits s xs t -> task t = Send x s1 s2 -> emits s (xs ++ [x]) s1.
Proof. intros He Ht. eapply emits_trans; [done|]. eapply emits_send; [done|constructor]. Qed.

(** What holds in every interleaving. While the receiver is there, nothing is lost
    or reordered: the items received and those in the channel are what the task
    has sent. Afterwards, what was received is the beginning of it. *)
Record chan_inv s0 c : Prop := {
  inv_alive : alive c = true -> emits s0 (received c ++ queue c) (task_state c) /\ length (queue c) <= cap;
  inv_prefix : exists q t, emits s0 (received c ++ q) t;
}.

Lemma chan_inv_step s0 c c' : chan_inv s0 c -> chan_step c c' -> chan_inv s0 c'.
Proof.
  intros [Ha Hp] Hs. destruct Hs as [s s' q r al Ht|s x s1 s2 q r Ht Hl|s x s1 s2 q r Ht|s s' q r Ht|s x q r|s q r];
    cbn in *; split; cbn; try done.
  - intros Hal. destruct (Ha Hal) as [He Hq]. split; [by eapply emits_snoc_tau|done].
  - intros _. destruct (Ha eq_refl) as [He Hq]. rewrite app_assoc, length_app. split; [|cbn; lia].
    by eapply emits_snoc_send.
  - intros _. destruct (Ha eq_refl) as [He Hq]. rewrite <- app_assoc. split; [done|cbn in Hq; lia].
  - destruct (Ha eq_refl) as [He _]. exists q, s. by rewrite <- app_assoc.
Qed.

Lemma chan_reachable_inv s0 c : rtc chan_step (start s0) c -> chan_inv s0 c.
Proof.
  intros Hr. assert (chan_inv s0 (start s0)) as Hi.
  { split; cbn; [intros _; split; [constructor|lia]|exists [], s0; constructor]. }
  revert Hi. induction Hr as [|c1 c2 c3 Hs Hr IH]; [done|]. intros Hi. apply IH. by eapply chan_inv_step.
Qed.

(** A state in which nothing can happen but the consumer leaving: the channel is
    empty and the task has nothing more to send. *)
Definition idle c : Prop := alive c = true /\ forall c', chan_step c c' -> alive c' = false.

Lemma chan_idle c :
  0 < cap -> idle c ->
  queue c = [] /\ (task (task_state c) = Halt \/ exists s, task (task_state c) = UntilClosed s).
Proof.
  destruct c as [s q r al]; intros Hc [Hal Hn]; cbn in Hal |- *. subst al.
  assert (forall c', chan_step (mk_conf s q r true) c' -> alive c' = true -> False) as Hx
    by (intros c' Hs Hal; by rewrite (Hn c' Hs) in Hal).
  destruct q as [|x q].
  - split; [done|]. destruct (task s) as [x s1 s2|s'|s'|] eqn:Et; eauto; exfalso.
    + eapply Hx; [by eapply step_send|done].
    + eapply Hx; [by eapply step_tau|done].
  - exfalso. eapply Hx; [apply step_recv|done].
Qed.

(** Every run ends: a measure on the task's states that each of its own steps
    decreases bounds the steps of all interleavings. *)
Definition task_measure (m : S -> nat) : Prop :=
  forall s, match task s with
            | Send _ s1 s2 => m s1 < m s /\ m s2 < m s
            | Tau s' | UntilClosed s' => m s' < m s
            | Halt => True
            end.

Definition conf_measure (m : S -> nat) c : nat :=
  2 * m (task_state c) + length (queue c) + (if alive c then 1 else 0).

Lemma chan_step_measure m c c' :
  task_measure m -> chan_step c c' -> conf_measure m c' < conf_measure m c.
Proof.
  intros Hm Hs. unfold conf_measure.
  destruct Hs as [s s' q r al Ht|s x s1 s2 q r Ht Hl|s x s1 s2 q r Ht|s s' q r Ht|s x q r|s q r]; cbn;
    try (pose proof (Hm s) as Hms; rewrite Ht in Hms); rewrite ?length_app; cbn; try lia.
Qed.

Lemma chan_terminates m n s0 c :
  task_measure m -> nsteps chan_step n (start s0) c -> n <= 2 * m s0 + 1.
Proof.
  intros Hm Hn. assert (n + conf_measure m c <= conf_measure m (start s0)) as Hb.
  { induction Hn as [|n c1 c2 c3 Hs _ IH]; [lia|].
    pose proof (chan_step_measure m _ _ Hm Hs). lia. }
  unfold conf_measure at 2 in Hb. cbn in Hb. lia.
Qed.

(** A consumer that has received nothing lets at most [cap] items out. *)
Lemma chan_undrained s0 c :
  rtc chan_step (start s0) c -> alive c = true -> received c = [] ->
  exists xs, emits s0 xs (task_state c) /\ length xs <= cap.
Proof.
  intros [Ha _]%chan_reachable_inv Hal Hr. destruct (Ha Hal) as [He Hq]. rewrite Hr in He. eauto.
Qed.

End Channel.

(** A task that sends the items of a list in turn. *)
Definition list_task {A} (l : list A) : action (list A) A :=
  match l with
  | [] => Halt
  | x :: l' => Send x l' []
  end.

Lemma list_task_measure {A} : task_measure (@list_task A) length.
Proof. intros [|x l]; cbn; lia. Qed.

Lemma list_task_emits {A} (l xs t : list A) : emits list_task l xs t <-> l = xs ++ t.
Proof.
  split.
  - induction 1 as [|s s' xs t Ht|s x s1 s2 xs t Ht _ IH]; [done|by destruct s|].
    destruct s; [done|]. injection Ht as -> -> _. cbn. by rewrite IH.
  - intros ->. induction xs as [|x xs IH]; cbn; [constructor|]. by eapply emits_send.
Qed.
