(* ===== verification/Duplex.v ===== *)
(** * Two programs on one connection

    The two ends of a TLS connection as programs that perform the handshake, write and
    read, interleaved in every order, with what each end may observe of the other: a
    write to an end that is gone may be lost or fail, a read waits for its bytes and
    fails once no more can come. The step function lists all successors, so a
    statement on every run of concrete programs is checked by exploring them. *)

From stdpp Require Import relations.
From S2P Require Import Prelude RustStd.

(** One end: what it does next, with what it makes of the result. It ends with a value
    or, like a task that panics, with a message. *)
Inductive prog : Type :=
| Handshake (k : result unit string -> prog)
| Write (bytes : list u8) (k : result unit string -> prog)
| ReadExact (n : nat) (k : result (list u8) string -> prog)
| Done (r : result unit string).

Record duplex := mk_duplex {
  (** What the handshake may return at either end. *)
  client_verdicts : list (result unit string);
  server_verdicts : list (result unit string);
  client : prog;
  server : prog;
  to_server : list u8;
  to_client : list u8;
}.

Definition is_done (p : prog) : bool := match p with Done _ => true | _ => false end.

(** The steps of one end: its next program, and the bytes coming in and going out. *)
Definition moves (verdicts : list (result unit string)) (peer_done : bool) (p : prog)
    (inbox outbox : list u8) : list (prog * list u8 * list u8) :=
  match p with
  | Handshake k => (fun r => (k r, inbox, outbox)) <$> verdicts
  | Write bytes k =>
      (k (Ok tt), inbox, outbox ++ bytes) ::
      (if peer_done then [(k (Err "broken pipe"), inbox, outbox)] else [])
  | ReadExact n k =>
      if n <=? length inbox then [(k (Ok (take n inbox)), drop n inbox, outbox)]
      else if peer_done then [(k (Err "unexpected end of file"), inbox, outbox)] else []
  | Done _ => []
  end.

Definition successors (c : duplex) : list duplex :=
  ((fun '(p, inbox, outbox) =>
      mk_duplex (client_verdicts c) (server_verdicts c) p (server c) outbox inbox) <$>
     moves (client_verdicts c) (is_done (server c)) (client c) (to_client c) (to_server c)) ++
  ((fun '(p, inbox, outbox) =>
      mk_duplex (client_verdicts c) (server_verdicts c) (client c) p inbox outbox) <$>
     moves (server_verdicts c) (is_done (client c)) (server c) (to_server c) (to_client c)).

Definition duplex_step (c c' : duplex) : Prop := c' ∈ successors c.

(** Both ends have returned. *)
Definition succeeded (c : duplex) : bool :=
  match client c, server c with Done (Ok _), Done (Ok _) => true | _, _ => false end.

(** Every run takes fewer than [n] steps, and where it stops both ends have returned. *)
Definition always_succeeds (n : nat) (c : duplex) : Prop :=
  (forall m c', nsteps duplex_step m c c' -> m < n) /\
  (forall c', rtc duplex_step c c' -> nf duplex_step c' -> succeeded c' = true).

Fixpoint explore (n : nat) (c : duplex) : bool :=
  match n with
  | 0 => false
  | S n =>
      match successors c with
      | [] => succeeded c
      | cs => forallb (explore n) cs
      end
  end.

Lemma explore_step n c c' : explore (S n) c = true -> duplex_step c c' -> explore n c' = true.
Proof.
  unfold duplex_step. cbn [explore]. destruct (successors c) as [|d ds]; [by intros _ ?%elem_of_nil|].
  rewrite forallb_forall. intros Hall Hs. by apply Hall, list_elem_of_In.
Qed.

Lemma explore_sound n c : explore n c = true -> always_succeeds n c.
Proof.
  intros He. split.
  - intros m. revert n c He. induction m as [|m IH]; intros [|n] c He c' Hm; try done; [lia|].
    inversion Hm as [|? ? d ? Hs Hr]; subst. pose proof (IH n d (explore_step n c d He Hs) c' Hr). lia.
  - intros c' Hr. revert n He. induction Hr as [c|c d c' Hs _ IH]; intros [|n] He Hn; try done.
    + cbn [explore] in He. destruct (successors c) as [|d ds] eqn:E; [done|]. destruct Hn. exists d.
      unfold duplex_step. rewrite E. left.
    + exact (IH n (explore_step n c d He Hs) Hn).
Qed.

(** A run exists: some order of steps reaches a state where both ends have returned. *)
Lemma succeeds_reached n c :
  always_succeeds n c -> exists c', rtc duplex_step c c' /\ succeeded c' = true.
Proof.
  revert c. induction n as [|n IH]; intros c [Hb Hs]; [specialize (Hb 0 c (nsteps_O _ _)); lia|].
  destruct (successors c) as [|d ds] eqn:E.
  - exists c. split; [done|]. apply Hs; [done|]. intros [d Hd]. unfold duplex_step in Hd.
    rewrite E in Hd. by apply elem_of_nil in Hd.
  - assert (duplex_step c d) as Hd by (unfold duplex_step; rewrite E; left).
    destruct (IH d) as (c' & Hr & Hc'); [split|exists c'; split; [by eapply rtc_l|done]].
    + intros m c' Hm. specialize (Hb (S m) c' (nsteps_l _ _ _ _ _ Hd Hm)). lia.
    + intros c' Hr. apply Hs. by eapply rtc_l.
Qed.
