(* ===== verification/Transfer.v ===== *)
(** * furcate-mesh-transfer/src/lib.rs: content-addressed file transfer

    The sender (a queryable streaming a file in hashed chunks) and the receiver
    ([pull]: fetch the chunks into a [.partial] file, re-hash it, rename it into
    the cache). BLAKE3 and the Zenoh session are third-party: the hash is a class
    with its streaming law, the session a record of operations that the
    theorems quantify over. File-system effects are those of Fs.v, so every
    theorem without a [quiet] hypothesis covers any I/O failure at any point. *)

From S2P Require Import Prelude RustStd Codecs Core Wire Serde Event Json Fs.

(** ** BLAKE3 *)

Class Blake3Crate := {
  blake3_hash : list u8 -> list u8;
  blake3_hasher : Type;
  hasher_new : blake3_hasher;
  hasher_update : blake3_hasher -> list u8 -> blake3_hasher;
  hasher_finalize : blake3_hasher -> list u8;
}.

(** The incremental hasher computes the hash of the concatenated input, and a
    hash has 32 bytes. *)
Class Blake3Laws `{Blake3Crate} : Prop := {
  hasher_streams (chunks : list (list u8)) :
    hasher_finalize (fold_left hasher_update chunks hasher_new) = blake3_hash (concat chunks);
  blake3_length bs : length (blake3_hash bs) = 32;
}.

(** ** Constants and types *)

Definition CHUNK_SIZE : Z := 1024 * 1024.
Definition TRANSFER_ROOT : string := "furcate/mesh/transfer".
Definition DEFAULT_PULL_TIMEOUT : Z := Duration_from_secs (5 * 60).

Inductive TransferError :=
| Io (e : IoError)
| ChunkVerify (offset : Z)
| RootVerify (expected actual : string)
| PeerMissing (peer : PeerId) (digest : string)
| Transport (msg : string)
| MalformedReply (msg : string).

Record ChunkHeader := mk_ChunkHeader {
  offset : Z;
  chunk_hash : string;
  len : Z;
  last : bool;
}.

Definition header_wf (h : ChunkHeader) : Prop :=
  (0 <= offset h <= u64_max)%Z /\ (0 <= len h <= u32_max)%Z.

(** The derived [Serialize] and [Deserialize]. *)
Definition header_fields : field_list :=
  [("offset", check (de_uint u64_max)); ("chunk_hash", check de_str);
   ("len", check (de_uint u32_max)); ("last", check de_bool)].

Definition ser_header (h : ChunkHeader) : Value :=
  VObj [("offset", VInt (offset h)); ("chunk_hash", VStr (chunk_hash h));
        ("len", VInt (len h)); ("last", VBool (last h))].

Definition de_header (v : Value) : result ChunkHeader DeError :=
  visit_struct header_fields v (fun fs =>
    let? offset := field fs 0 (de_uint u64_max) in
    let? chunk_hash := field fs 1 de_str in
    let? len := field fs 2 (de_uint u32_max) in
    let? last := field fs 3 de_bool in
    Ok (mk_ChunkHeader offset chunk_hash len last)).

Record PullOptions := mk_PullOptions { timeout : Z }.
Definition PullOptions_default : PullOptions := mk_PullOptions DEFAULT_PULL_TIMEOUT.

(** A reply of the session's [get]: a sample with its attachment, or an error
    whose payload may be text. *)
Inductive Reply :=
| ReplyOk (payload : list u8) (attachment : option (list u8))
| ReplyErr (payload : option string).

(** The Zenoh session: [get selector timeout] gives the replies that arrive
    before the channel closes, in arrival order. *)
Record Session := mk_Session {
  session_get : string -> Z -> result (list Reply) string;
  declare_queryable : string -> result unit string;
}.

Record TransferService := mk_TransferService {
  cache_dir : string;
  session : Session;
  artefacts : gmap string string;
}.

Definition TransferService_new (cache_dir : string) (session : Session) : TransferService :=
  mk_TransferService cache_dir session ∅.

Definition register (self : TransferService) (digest_hex path : string) : TransferService :=
  mk_TransferService (cache_dir self) (session self) (<[digest_hex := path]> (artefacts self)).

Section Transfer.
Context `{HexCrate, Blake3Crate, JsonCrate}.

(** ** [ChunkVerifier] *)

Definition ChunkVerifier_hash (bytes : list u8) : string := hex_encode (blake3_hash bytes).

Definition ChunkVerifier_verify (header : ChunkHeader) (bytes : list u8)
    : result unit TransferError :=
  if decide (ChunkVerifier_hash bytes = chunk_hash header) then Ok tt
  else Err (ChunkVerify (offset header)).

(** ** [root_hash] *)

Fixpoint hash_loop (fuel : nat) (file : Reader) (hasher : blake3_hasher)
    : io blake3_hasher TransferError :=
  match fuel with
  | 0 => io_fail (Io (IoOther "out of fuel"))
  | S fuel =>
      let! (buf, file) := io_map_err Io (file_read file CHUNK_SIZE) in
      if decide (length buf = 0) then io_ret hasher
      else hash_loop fuel file (hasher_update hasher buf)
  end.

(** Each round reads at least a byte, so one more round than the file has bytes
    reaches its end. *)
Definition root_hash (path : string) : io string TransferError :=
  let! file := io_map_err Io (open_read path) in
  let! hasher := fun w => hash_loop (S (length (content_of w path))) file hasher_new w in
  io_ret (hex_encode (hasher_finalize hasher)).

(** ** The sender *)

Definition chunk_header (off : Z) (payload : list u8) (total_len : Z)
    : result ChunkHeader TransferError :=
  let n := Z.of_nat (length payload) in
  let last := (total_len <=? off + n)%Z in
  if (n <=? u32_max)%Z then Ok (mk_ChunkHeader off (ChunkVerifier_hash payload) n last)
  else Err (Transport "chunk length exceeds u32 (impossible at 1 MiB)").

Fixpoint stream_loop (fuel : nat) (reply_key : string) (file : Reader) (total_len off : Z)
    : io unit TransferError :=
  match fuel with
  | 0 => io_fail (Io (IoOther "out of fuel"))
  | S fuel =>
      let! (payload, file) := io_map_err Io (file_read file CHUNK_SIZE) in
      if decide (length payload = 0) then io_ret tt
      else
        let! header := io_lift (chunk_header off payload total_len) in
        let! header_json := io_lift (map_err (fun e => Transport ("encoding chunk header: " +:+ e))
                                       (json_to_vec (ser_header header))) in
        let! _ := io_map_err (fun e => Transport ("reply: " +:+ fmt_io_error e))
                    (send (mk_sample reply_key payload (Some header_json))) in
        if last header then io_ret tt
        else stream_loop fuel reply_key file total_len (off + Z.of_nat (length payload))
  end.

Definition stream_file_chunks (query_key path : string) : io unit TransferError :=
  let! file := io_map_err Io (open_read path) in
  let! total_len := io_map_err Io (metadata_len file) in
  fun w => stream_loop (S (length (content_of w path))) query_key file total_len 0 w.

(** One query of the serve loop; a stream error is only logged. *)
Definition handle_query (arts : gmap string string) (selector_key : string)
    : io unit TransferError :=
  match strip_prefix (TRANSFER_ROOT +:+ "/") selector_key with
  | None => io_ret tt
  | Some digest =>
      match arts !! digest with
      | Some p => io_ignore (stream_file_chunks selector_key p)
      | None => io_ret tt
      end
  end.

(** What the sender's process sees: registrations and queries, in order; the
    queryable's channel closes at the end of the list. *)
Inductive ServeEvent :=
| Register (digest_hex path : string)
| Query (key_expr : string).

Fixpoint serve_loop (arts : gmap string string) (evs : list ServeEvent)
    : io (gmap string string) TransferError :=
  match evs with
  | [] => io_ret arts
  | Register d p :: evs => serve_loop (<[d := p]> arts) evs
  | Query key :: evs => let! _ := handle_query arts key in serve_loop arts evs
  end.

Definition serve (self : TransferService) (evs : list ServeEvent)
    : io TransferService TransferError :=
  let key_expr := TRANSFER_ROOT +:+ "/*" in
  let! _ := io_lift (map_err (fun e => Transport ("declare_queryable " +:+ key_expr +:+ ": " +:+ e))
                       (declare_queryable (session self) key_expr)) in
  let! arts := serve_loop (artefacts self) evs in
  io_ret (mk_TransferService (cache_dir self) (session self) arts).

(** ** The receiver *)

(** The checked header and bytes of a reply. *)
Definition check_reply (reply : Reply) : result (ChunkHeader * list u8) TransferError :=
  match reply with
  | ReplyErr payload => Err (Transport ("reply error: " +:+ default "" payload))
  | ReplyOk payload attachment =>
      let? header_bytes :=
        ok_or (MalformedReply "reply missing chunk-header attachment") attachment in
      let? header := map_err (fun e => MalformedReply ("decoding chunk header: " +:+ e))
                       (from_slice_as de_header header_bytes) in
      let? _ := ChunkVerifier_verify header payload in
      Ok (header, payload)
  end.

(** The receive loop: the file handle, [got_last] and [got_any]. *)
Fixpoint recv_loop (replies : list Reply) (tmp_file : Writer) (got_last got_any : bool)
    : io (Writer * bool * bool) TransferError :=
  match replies with
  | [] => io_ret (tmp_file, got_last, got_any)
  | reply :: replies =>
      let! (header, chunk_bytes) := io_lift (check_reply reply) in
      let! tmp_file := io_map_err Io (seek_start tmp_file (offset header)) in
      let! tmp_file := io_map_err Io (write_all tmp_file chunk_bytes) in
      recv_loop replies tmp_file (if last header then true else got_last) true
  end.

Definition final_path_of (self : TransferService) (digest_hex : string) : string :=
  path_join (cache_dir self) digest_hex.
Definition tmp_path_of (self : TransferService) (digest_hex : string) : string :=
  path_join (cache_dir self) (digest_hex +:+ ".partial").

Definition pull_with_options (self : TransferService) (peer : PeerId) (digest_hex : string)
    (opts : PullOptions) : io string TransferError :=
  let! _ := io_map_err Io (create_dir_all (cache_dir self)) in
  let final_path := final_path_of self digest_hex in
  let! cached := path_exists final_path in
  if (cached : bool) then io_ret final_path
  else
    let tmp_path := tmp_path_of self digest_hex in
    let! tmp_file := io_map_err Io (open_truncate tmp_path) in
    let selector := TRANSFER_ROOT +:+ "/" +:+ digest_hex in
    let! replies := io_lift (map_err (fun e => Transport ("get " +:+ selector +:+ ": " +:+ e))
                               (session_get (session self) selector (timeout opts))) in
    let! (tmp_file, got_last, got_any) := recv_loop replies tmp_file false false in
    if negb got_any then
      let! _ := io_ignore (remove_file tmp_path) in
      io_fail (PeerMissing peer digest_hex)
    else if negb got_last then
      let! _ := io_ignore (remove_file tmp_path) in
      io_fail (MalformedReply "stream ended without a final chunk")
    else
      let! _ := io_map_err Io (flush tmp_file) in
      let! actual_root := root_hash tmp_path in
      if decide (actual_root <> digest_hex) then
        let! _ := io_ignore (remove_file tmp_path) in
        io_fail (RootVerify digest_hex actual_root)
      else
        let! _ := io_map_err Io (rename tmp_path final_path) in
        io_ret final_path.

Definition pull (self : TransferService) (peer : PeerId) (digest_hex : string)
    : io string TransferError :=
  pull_with_options self peer digest_hex PullOptions_default.

End Transfer.

(** ** Paths *)

Lemma path_join_app base d s :
  is_absolute s = false -> path_join base (d +:+ s) = path_join base d +:+ s.
Proof.
  intros Hs. unfold path_join.
  replace (is_absolute (d +:+ s)) with (is_absolute d)
    by (destruct d; [by rewrite str_app_nil_l|done]).
  repeat case_match; by rewrite ?str_app_assoc.
Qed.

Lemma tmp_path_partial self d : tmp_path_of self d = final_path_of self d +:+ ".partial".
Proof. by apply path_join_app. Qed.

Lemma tmp_ne_final self d : tmp_path_of self d <> final_path_of self d.
Proof.
  rewrite tmp_path_partial. intros H. apply (f_equal String.length) in H.
  rewrite str_length_app in H. cbn in H. lia.
Qed.

Section Facts.
Context `{HexLaws, Blake3Laws, JsonLaws}.

(** ** [root_hash] hashes the file *)

Lemma hash_loop_ok fuel h chunks w hasher w' :
  hash_loop fuel h (fold_left hasher_update chunks hasher_new) w = (Ok hasher, w') ->
  concat chunks ++ drop (rd_pos h) (content_of w (rd_path h)) = content_of w (rd_path h) ->
  hasher_finalize hasher = blake3_hash (content_of w (rd_path h)) /\
  w_files w' = w_files w /\ w_dirs w' = w_dirs w /\ consumed w w' /\
  is_file w (rd_path h) = true.
Proof.
  revert h chunks w; induction fuel as [|fuel IH]; intros h chunks w; cbn [hash_loop]; [done|].
  intros ([buf h1] & w1 & Hr & Hk)%io_bind_ok Hc.
  apply io_map_err_ok in Hr.
  apply file_read_ok in Hr as (Hf & Hd & _ & Hcon & Hrest & -> & _ & Hnil & Hfile); [|done].
  case_decide as Hlen.
  - apply nil_length_inv in Hlen as ->. injection Hk as <- <-.
    rewrite hasher_streams. rewrite (proj1 Hnil eq_refl), app_nil_r in Hc. by rewrite Hc.
  - change (hasher_update (fold_left hasher_update chunks hasher_new) buf)
      with (fold_left hasher_update [buf] (fold_left hasher_update chunks hasher_new)) in Hk.
    rewrite <- fold_left_app in Hk. apply IH in Hk as (Hfin & Hf1 & Hd1 & Hcon1 & _).
    + unfold content_of in *. rewrite Hf in Hfin. cbn [rd_path] in *.
      split_and!; [done|congruence|congruence|by transitivity w1|done].
    + unfold content_of in *. rewrite Hf. cbn [rd_path rd_pos] in *.
      rewrite concat_app; cbn. rewrite app_nil_r, <- app_assoc, <- Hrest. done.
Qed.

Lemma hash_loop_err fuel h hasher w e w' :
  hash_loop fuel h hasher w = (Err e, w') ->
  length (drop (rd_pos h) (content_of w (rd_path h))) < fuel ->
  exists e', e = Io e' /\ (allows w e' \/ is_file w (rd_path h) = false).
Proof.
  revert h hasher w; induction fuel as [|fuel IH]; intros h hasher w; cbn [hash_loop]; [lia|].
  intros [Hr|([buf h1] & w1 & Hr & Hk)]%io_bind_err Hfuel.
  - apply io_map_err_err in Hr as (e' & Hr & ->). apply file_read_err in Hr. naive_solver.
  - apply io_map_err_ok in Hr. apply file_read_ok in Hr as (Hf & Hd & _ & Hcon & Hrest & -> & _ & Hnil & Hfile); [|done].
    case_decide as Hlen; [done|].
    apply IH in Hk as (e' & -> & [Ha|Hn]).
    + exists e'. split; [done|]. left. by eapply consumed_allows.
    + unfold is_file in *. rewrite Hf in Hn. cbn [rd_path] in Hn. congruence.
    + unfold content_of in *. rewrite Hf. cbn [rd_path rd_pos] in *.
      rewrite Hrest, length_app in Hfuel. lia.
Qed.

Lemma root_hash_ok p w d w' :
  root_hash p w = (Ok d, w') ->
  d = ChunkVerifier_hash (content_of w p) /\ w_files w' = w_files w /\ w_dirs w' = w_dirs w /\
  consumed w w' /\ is_file w p = true.
Proof.
  intros (h & w1 & Ho & (hs & w2 & Hl & Hd)%io_bind_ok)%io_bind_ok.
  apply io_map_err_ok in Ho. apply open_read_ok in Ho as (-> & Hf & Hdirs & _ & Hcon).
  apply (hash_loop_ok _ _ []) in Hl as (Hfin & Hf2 & Hd2 & Hcon2 & Hfile); [|done].
  injection Hd as <- <-. unfold content_of, is_file in *. rewrite Hf in *.
  split_and!; [|congruence|congruence|by transitivity w1|done].
  unfold ChunkVerifier_hash. by rewrite Hfin.
Qed.

Lemma root_hash_err p w e w' :
  root_hash p w = (Err e, w') -> exists e', e = Io e' /\ (allows w e' \/ is_file w p = false).
Proof.
  intros [Ho|(h & w1 & Ho & Hl)]%io_bind_err.
  - apply io_map_err_err in Ho as (e' & Ho & ->). apply open_read_err in Ho. naive_solver.
  - apply io_map_err_ok in Ho. apply open_read_ok in Ho as (-> & Hf & _ & _ & Hcon).
    apply io_bind_err in Hl as [Hl|(hs & w2 & _ & [=])].
    apply hash_loop_err in Hl as (e' & -> & Ha); [|cbn [rd_pos rd_path]; rewrite drop_0; lia].
    exists e'. split; [done|]. unfold is_file in *. rewrite Hf in Ha.
    destruct Ha; [left; by eapply consumed_allows|by right].
Qed.

Lemma root_hash_quiet p w f :
  quiet w -> w_files w !! p = Some f ->
  exists w', root_hash p w = (Ok (ChunkVerifier_hash (f_content f)), w') /\
             w_files w' = w_files w /\ w_dirs w' = w_dirs w /\ quiet w'.
Proof.
  intros Hq Hf. destruct (root_hash p w) as [[d|e] w'] eqn:Er.
  - apply root_hash_ok in Er as (-> & ? & ? & Hc & _). unfold content_of. rewrite Hf.
    exists w'. split_and!; [done..|]. by eapply consumed_quiet.
  - apply root_hash_err in Er as (e' & _ & [Ha|Hn]); [by destruct (quiet_allows w e' Hq)|].
    unfold is_file in Hn. rewrite Hf in Hn. apply bool_decide_eq_false in Hn. destruct Hn; eauto.
Qed.

Lemma keeps_root_hash I p : keeps I (root_hash p).
Proof.
  assert (forall fuel h hs, keeps I (hash_loop fuel h hs)) as Hl.
  { induction fuel as [|fuel IH]; intros h hs; cbn [hash_loop]; [auto with furcate|].
    apply keeps_bind; [auto with furcate|]. intros [buf h1]. case_decide; auto with furcate. }
  apply keeps_bind; [auto with furcate|]. intros h. apply keeps_bind; [|auto with furcate].
  intros w r w'. apply Hl.
Qed.

Lemma respects_root_hash R `{!FsEffect R} p : respects R (root_hash p).
Proof.
  assert (forall fuel h hs, respects R (hash_loop fuel h hs)) as Hl.
  { induction fuel as [|fuel IH]; intros h hs; cbn [hash_loop]; [auto with furcate|].
    apply respects_bind; [done|auto with furcate|]. intros [buf h1]. case_decide; auto with furcate. }
  apply respects_bind; [done|auto with furcate|]. intros h.
  apply respects_bind; [done| |auto with furcate]. intros w r w'. apply Hl.
Qed.

(** ** Safety of [pull]: whatever fails, whatever the replies *)

Lemma keeps_recv_loop p I replies h gl ga :
  off_path p I -> wr_path h = p -> keeps I (recv_loop replies h gl ga).
Proof.
  intros HI. revert h gl ga; induction replies as [|r rs IH]; intros h gl ga Hp;
    cbn [recv_loop]; [auto with furcate|].
  apply keeps_bind; [auto with furcate|]. intros [hd b].
  apply (keeps_bind_post I (fun h1 => wr_path h1 = p)); [|auto with furcate|intros h1 Hp1].
  { intros w h1 w1 Hs%io_map_err_ok%seek_start_path. congruence. }
  apply (keeps_bind_post I (fun h2 => wr_path h2 = p)); [|eauto with furcate|auto].
  intros w h2 w1 Hs%io_map_err_ok%write_all_path. congruence.
Qed.

(** Until the rename, [pull] only touches the [.partial] file; a failing rename
    changes nothing. *)
Lemma pull_keeps_err self peer d opts I :
  off_path (tmp_path_of self d) I -> keeps_err I (pull_with_options self peer d opts).
Proof.
  intros HI. unfold pull_with_options. cbn zeta.
  apply keeps_err_bind; [auto with furcate|]. intros _.
  apply keeps_err_bind; [auto with furcate|]. intros []; [auto with furcate|].
  apply (keeps_err_bind_post I (fun h => wr_path h = tmp_path_of self d));
    [|eauto with furcate|intros h Hp].
  { by intros w h w1 Ho%io_map_err_ok%open_truncate_path. }
  apply keeps_err_bind; [auto with furcate|]. intros replies.
  apply keeps_err_bind; [by eapply keeps_recv_loop|]. intros [[h' gl] ga].
  destruct ga, gl; cbn [negb]; try (eauto 6 with furcate; fail).
  apply keeps_err_bind; [auto with furcate|]. intros _.
  apply keeps_err_bind; [apply keeps_root_hash|]. intros root.
  case_decide; [eauto 6 with furcate|].
  intros w e w' [Hr|(u & w1 & _ & [=])]%io_bind_err.
  refine (keeps_err_map_err I _ _ _ w e w' Hr). apply rename_err_keeps.
Qed.

(** C1: whatever the replies and whatever I/O fails, a successful [pull] returns
    the cache path, and either that path already existed and no file changed, or
    the file there hashes to the requested digest, its [.partial] file is gone and
    every other file is untouched. *)
Theorem pull_ok_verified self peer d opts w p w' :
  pull_with_options self peer d opts w = (Ok p, w') ->
  p = final_path_of self d /\
  ((w_files w' = w_files w /\ (is_file w p = true \/ is_dir w' p = true)) \/
   exists f, w_files w' !! p = Some f /\ ChunkVerifier_hash (f_content f) = d /\
     w_files w' !! tmp_path_of self d = None /\
     forall q, q <> p -> q <> tmp_path_of self d -> w_files w' !! q = w_files w !! q).
Proof.
  intros (u1 & w1 & Hc & (cached & w2 & He & Hk)%io_bind_ok)%io_bind_ok.
  apply io_map_err_ok, create_dir_all_files in Hc.
  apply path_exists_ok in He as (Hf2 & Hd2 & Hex). destruct cached.
  { injection Hk as <- <-. split; [done|]. left. split; [congruence|].
    unfold is_file, is_dir, dir_exists in *. rewrite Hc, <- Hd2 in Hex. auto. }
  apply io_bind_ok in Hk as (h & w3 & Ho & (rs & w4 & Hg & Hk)%io_bind_ok).
  apply io_map_err_ok in Ho. injection Hg as Hg <-.
  apply io_bind_ok in Hk as ([[h' gl] ga] & w5 & Hl & Hk).
  destruct ga; cbn [negb] in Hk; [|by apply io_bind_ok in Hk as (? & ? & _ & ?)].
  destruct gl; cbn [negb] in Hk; [|by apply io_bind_ok in Hk as (? & ? & _ & ?)].
  apply io_bind_ok in Hk as (u2 & w6 & Hfl & (root & w7 & Hr & Hk)%io_bind_ok).
  apply io_map_err_ok in Hfl. case_decide as Hd;
    [by apply io_bind_ok in Hk as (? & ? & _ & ?)|].
  apply io_bind_ok in Hk as ([] & w8 & Hren & [= <- <-]). split; [done|]. right.
  apply root_hash_ok in Hr as (-> & Hf7 & _ & _ & _).
  apply io_map_err_ok, rename_ok in Hren as (f & Hsrc & Hf8). exists f.
  pose proof (tmp_ne_final self d) as Hne. rewrite Hf8. split_and!.
  - by rewrite lookup_insert_eq.
  - revert Hd. unfold content_of. by rewrite <- Hf7, Hsrc.
  - by rewrite lookup_insert_ne, lookup_delete_eq by done.
  - intros q Hq Hqt. rewrite lookup_insert_ne, lookup_delete_ne by done. rewrite Hf7.
    set (I := fun m : gmap string File => m !! q = w_files w !! q).
    assert (off_path (tmp_path_of self d) I) as HI by (by apply off_path_lookup).
    refine (keeps_flush I _ _ _ _ Hfl _).
    refine (keeps_recv_loop _ I _ _ _ _ HI (open_truncate_path _ _ _ _ Ho) _ _ _ Hl _).
    refine (keeps_open_truncate _ I HI _ _ _ Ho _). unfold I. congruence.
Qed.

(** C11: whatever the replies and whatever I/O fails, a failing [pull] leaves
    every file except its own [.partial] file as it was; in particular nothing
    appears under the digest's cache path. *)
Theorem pull_error_leaves_cache self peer d opts w e w' q :
  pull_with_options self peer d opts w = (Err e, w') ->
  q <> tmp_path_of self d ->
  w_files w' !! q = w_files w !! q.
Proof.
  intros Hp Hq.
  exact (pull_keeps_err self peer d opts _ (off_path_lookup _ q (w_files w !! q) Hq) _ _ _ Hp eq_refl).
Qed.

(** [root_hash] of a file is the hex BLAKE3 of its whole contents, whatever
    the sizes of the reads; it returns unless an I/O operation fails, and then
    with that operation's error. *)
Theorem root_hash_correct p w f r w' :
  w_files w !! p = Some f -> root_hash p w = (r, w') ->
  w_files w' = w_files w /\
  match r with
  | Ok d => d = ChunkVerifier_hash (f_content f)
  | Err e => exists e', e = Io e' /\ allows w e'
  end.
Proof.
  intros Hf Hr. split; [by refine (keeps_root_hash (fun m => m = w_files w) p w r w' Hr eq_refl)|].
  destruct r as [d|e].
  - apply root_hash_ok in Hr as (-> & _). unfold content_of. by rewrite Hf.
  - apply root_hash_err in Hr as (e' & -> & [Ha|Hn]); [eauto|].
    unfold is_file in Hn. rewrite Hf in Hn. apply bool_decide_eq_false in Hn. destruct Hn; eauto.
Qed.

(** ** What [pull] computes when no I/O fails *)

(** The receive loop on the file's contents alone; an error carries the contents
    at that point. *)
Fixpoint assemble (acc : list u8) (got_last got_any : bool) (replies : list Reply)
    : result (list u8 * bool * bool) (TransferError * list u8) :=
  match replies with
  | [] => Ok (acc, got_last, got_any)
  | reply :: replies =>
      match check_reply reply with
      | Err e => Err (e, acc)
      | Ok (h, b) =>
          if (offset h <? 2 ^ 63)%Z then
            assemble (splice acc (Z.to_nat (offset h)) b) (if last h then true else got_last)
              true replies
          else Err (Io InvalidInput, acc)
      end
  end.

(** The fate of a digest that is not cached: it enters the cache, or it is refused
    and the [.partial] file is removed ([None]) or left with some contents. *)
Inductive fate :=
| Cached (content : list u8)
| Refused (e : TransferError) (leftover : option (list u8)).

Definition pull_fate (peer : PeerId) (d : string) (got : result (list Reply) string) : fate :=
  match got with
  | Err msg => Refused (Transport ("get " +:+ (TRANSFER_ROOT +:+ "/" +:+ d) +:+ ": " +:+ msg)) (Some [])
  | Ok replies =>
      match assemble [] false false replies with
      | Err (e, c) => Refused e (Some c)
      | Ok (_, _, false) => Refused (PeerMissing peer d) None
      | Ok (_, false, true) => Refused (MalformedReply "stream ended without a final chunk") None
      | Ok (c, true, true) =>
          if decide (ChunkVerifier_hash c = d) then Cached c
          else Refused (RootVerify d (ChunkVerifier_hash c)) None
      end
  end.

(** The world after [create_dir_all cache_dir], and what makes the cache usable
    and the digest not cached in it. *)
Definition with_cache (self : TransferService) (w : World) : World :=
  set_dirs (w_dirs w ∪ list_to_set (ancestors (cache_dir self))) w.

Record ready (self : TransferService) (d : string) (w : World) : Prop := {
  ready_cache : existsb (is_file w) (strip_slashes (cache_dir self) :: ancestors (cache_dir self)) = false;
  ready_absent : is_file w (final_path_of self d) || is_dir (with_cache self w) (final_path_of self d) = false;
  ready_tmp : is_dir (with_cache self w) (tmp_path_of self d) = false;
  ready_parent : dir_exists (with_cache self w) (parent_dir (final_path_of self d)) &&
                 dir_exists (with_cache self w) (parent_dir (tmp_path_of self d)) = true;
}.

Lemma recv_loop_quiet p replies : forall pos gl ga w f,
  quiet w -> w_files w !! p = Some f ->
  let put c := set_files (<[p := mk_file c (f_mode f)]> (w_files w)) w in
  match assemble (f_content f) gl ga replies with
  | Ok (c, gl', ga') => exists pos',
      recv_loop replies (mk_writer p pos None) gl ga w = (Ok (mk_writer p pos' None, gl', ga'), put c)
  | Err (e, c) => recv_loop replies (mk_writer p pos None) gl ga w = (Err e, put c)
  end.
Proof.
  induction replies as [|r rs IH]; intros pos gl ga w f Hq Hf; cbn [recv_loop assemble].
  - exists pos. unfold io_ret. f_equal. destruct w, f; cbn in *. unfold set_files; cbn.
    by rewrite insert_id.
  - assert (forall c, c = f_content f ->
      w = set_files (<[p := mk_file c (f_mode f)]> (w_files w)) w) as Hid.
    { intros c ->. destruct w, f; cbn in *. unfold set_files; cbn. by rewrite insert_id. }
    destruct (check_reply r) as [[h b]|e] eqn:Ec.
    2:{ erewrite io_bind_stop by done. f_equal. by apply Hid. }
    erewrite io_bind_step by done.
    destruct (offset h <? 2 ^ 63)%Z eqn:Eo.
    2:{ erewrite io_bind_stop; [|apply io_map_err_err; eexists; by rewrite seek_start_quiet, Eo].
        f_equal. by apply Hid. }
    destruct (write_all_quiet p (offset h) b w f Hq Hf) as [pos1 Hw].
    set (f1 := mk_file (splice (f_content f) (Z.to_nat (offset h)) b) (f_mode f)) in *.
    specialize (IH pos1 (if last h then true else gl) true (set_files (<[p := f1]> (w_files w)) w)
      f1 Hq (lookup_insert_eq (w_files w) p f1)).
    erewrite io_bind_step; [|by apply io_map_err_ok; rewrite seek_start_quiet, Eo].
    erewrite io_bind_step; [|by apply io_map_err_ok].
    change (splice (f_content f) (Z.to_nat (offset h)) b) with (f_content f1).
    destruct (assemble _ _ _ rs) as [[[c gl'] ga']|[e c]]; cbn zeta in IH;
      cbn [w_files set_files] in IH; rewrite insert_insert_eq in IH; exact IH.
Qed.

(** The common prefix of every [pull] of an absent digest. *)
Lemma remove_and_fail p e w f :
  quiet w -> w_files w !! p = Some f ->
  (let! _ := io_ignore (remove_file p) in io_fail (A := string) (E := TransferError) e) w =
    (Err e, set_files (delete p (w_files w)) w).
Proof.
  intros Hq Hf. unfold io_bind, io_ignore. by rewrite (remove_file_quiet p w f).
Qed.

Lemma pull_quiet self peer d opts w :
  quiet w -> ready self d w ->
  let final := final_path_of self d in
  let tmp := tmp_path_of self d in
  let file c := mk_file c (f_mode (truncated w tmp)) in
  exists w', w_dirs w' = w_dirs (with_cache self w) /\ quiet w' /\
  match pull_fate peer d (session_get (session self) (TRANSFER_ROOT +:+ "/" +:+ d) (timeout opts)) with
  | Cached c =>
      pull_with_options self peer d opts w = (Ok final, w') /\
      w_files w' = <[final := file c]> (delete tmp (w_files w))
  | Refused e leftover =>
      pull_with_options self peer d opts w = (Err e, w') /\
      w_files w' = match leftover with
                   | None => delete tmp (w_files w)
                   | Some c => <[tmp := file c]> (w_files w)
                   end
  end.
Proof.
  intros Hq [Hc Ha Ht [Hp1 Hp2]%andb_true_iff] final tmp file. unfold pull_with_options. cbn zeta.
  erewrite io_bind_step; [|apply io_map_err_ok; by apply create_dir_all_quiet].
  change (set_dirs _ w) with (with_cache self w). set (w1 := with_cache self w) in *.
  assert (quiet w1) as Hq1 by done.
  erewrite io_bind_step; [|by apply path_exists_quiet].
  change (is_file w1 (final_path_of self d)) with (is_file w (final_path_of self d)). rewrite Ha.
  erewrite io_bind_step; [|apply io_map_err_ok; by apply open_truncate_quiet].
  fold tmp. change (truncated w1 tmp) with (file []). change (w_files w1) with (w_files w).
  set (w2 := set_files _ w1). assert (quiet w2) as Hq2 by done.
  assert (w_files w2 !! tmp = Some (file [])) as Hf2 by apply lookup_insert_eq.
  unfold pull_fate. destruct (session_get _ _ _) as [rs|msg].
  2:{ exists w2. split_and!; [done..| |done]. by erewrite io_bind_stop. }
  erewrite io_bind_step by done.
  pose proof (recv_loop_quiet tmp rs 0 false false w2 _ Hq2 Hf2) as Hl. cbn [f_content file] in Hl.
  destruct (assemble [] false false rs) as [[[c gl] ga]|[e c]].
  2:{ eexists. split_and!; [| |erewrite io_bind_stop; [reflexivity|exact Hl]|]; [done..|].
      cbn. by rewrite insert_insert_eq. }
  destruct Hl as [pos Hl]. erewrite io_bind_step by exact Hl. cbn zeta. cbn [w_files set_files w2].
  rewrite insert_insert_eq. change (f_mode (file [])) with (f_mode (truncated w tmp)).
  fold (file c). set (w3 := set_files _ w2).
  assert (quiet w3) as Hq3 by done.
  assert (w_files w3 !! tmp = Some (file c)) as Hf3 by apply lookup_insert_eq.
  assert (delete tmp (w_files w3) = delete tmp (w_files w)) as Hdel by (by cbn; rewrite delete_insert_eq).
  destruct ga; cbn [negb].
  2:{ destruct gl; rewrite (remove_and_fail _ _ w3 _ Hq3 Hf3);
      (eexists; split_and!; [| |reflexivity|exact Hdel]; done). }
  destruct gl; cbn [negb].
  2:{ rewrite (remove_and_fail _ _ w3 _ Hq3 Hf3).
      eexists; split_and!; [| |reflexivity|exact Hdel]; done. }
  erewrite io_bind_step; [|apply io_map_err_ok; by apply flush_quiet].
  destruct (root_hash_quiet tmp w3 _ Hq3 Hf3) as (w4 & Hr & Hf4 & Hd4 & Hq4).
  erewrite io_bind_step by exact Hr. cbn [f_content file]. rewrite <- Hf4 in Hf3, Hdel.
  destruct (decide (ChunkVerifier_hash c = d)) as [Hd|Hd].
  - rewrite decide_False by auto.
    erewrite io_bind_step; [|apply io_map_err_ok; apply (rename_quiet _ _ _ _ Hq4 Hf3)];
      [| |]; unfold is_dir, dir_exists in *; rewrite ?Hd4; try done.
    + eexists; split_and!; [| |reflexivity|]; [done..|]. cbn. by rewrite Hdel.
    + by apply orb_false_iff in Ha as [_ ?].
  - rewrite decide_True by done. rewrite (remove_and_fail _ _ w4 _ Hq4 Hf3).
    eexists; split_and!; [| |reflexivity|]; done.
Qed.

(** ** The sender's stream *)

Lemma de_header_ser h : header_wf h -> de_header (ser_header h) = Ok h.
Proof.
  intros [Ho%de_uint_ok Hl%de_uint_ok]. destruct h as [o c l b]; cbn [offset len] in *.
  eapply visit_struct_written;
    [reflexivity|accept_fields; [exact Ho|reflexivity|exact Hl|reflexivity]|reflexivity|].
  erewrite field_written; [|reflexivity|exact Ho]; cbn [rbind].
  erewrite field_written; [|reflexivity|reflexivity]; cbn [rbind].
  by erewrite field_written; [|reflexivity|exact Hl].
Qed.

(** A header survives its trip through the attachment. *)
Lemma header_json h :
  header_wf h -> exists bs, json_to_vec (ser_header h) = Ok bs /\ from_slice_as de_header bs = Ok h.
Proof.
  intros Hwf. destruct (json_roundtrip_exact (ser_header h)) as (bs & Hb & Hs); [|done|done|].
  - destruct Hwf as [[Ho1 Ho2] [Hl1 Hl2]]. unfold u32_max, u64_max in *. cbn.
    rewrite !andb_true_r. rewrite !andb_true_iff, !Z.leb_le. unfold u64_max. lia.
  - exists bs. split; [done|]. unfold from_slice_as. rewrite Hs. cbn [rbind].
    by rewrite de_header_ser.
Qed.

(** [streams key total off rest ss rest']: the samples [ss], all on [key], carry
    the bytes of [rest] from file offset [off] on, in non-empty chunks of at most
    [CHUNK_SIZE] bytes whose attachments decode to their headers; the bytes
    [rest'] have not been sent. *)
Inductive streams (key : string) (total : Z) : Z -> list u8 -> list Sample -> list u8 -> Prop :=
| streams_end off rest : streams key total off rest [] rest
| streams_chunk off b rest bs ss rest' :
    b <> [] -> (Z.of_nat (length b) <= CHUNK_SIZE)%Z ->
    from_slice_as de_header bs =
      Ok (mk_ChunkHeader off (ChunkVerifier_hash b) (Z.of_nat (length b))
            (total <=? off + Z.of_nat (length b))%Z) ->
    streams key total (off + Z.of_nat (length b)) rest ss rest' ->
    streams key total off (b ++ rest) (mk_sample key b (Some bs) :: ss) rest'.

(** Labelling a chunk never fails within the file-size limit. *)
Lemma chunk_header_json off b total :
  let n := Z.of_nat (length b) in
  let hd := mk_ChunkHeader off (ChunkVerifier_hash b) n (total <=? off + n)%Z in
  (n <= CHUNK_SIZE)%Z -> (0 <= off)%Z -> (off + n <= u64_max)%Z ->
  chunk_header off b total = Ok hd /\
  exists bs, json_to_vec (ser_header hd) = Ok bs /\ from_slice_as de_header bs = Ok hd.
Proof.
  intros n hd Hcap Ho Hmax. unfold CHUNK_SIZE in Hcap. split.
  - unfold chunk_header. fold n. replace (n <=? u32_max)%Z with true; [done|].
    symmetry. apply Z.leb_le. unfold u32_max. lia.
  - apply header_json. unfold header_wf, hd, u32_max. cbn. lia.
Qed.

Lemma drop_nonempty {A} n (l : list A) : n < length l -> drop n l <> [].
Proof. intros Hn E. apply (f_equal length) in E. rewrite length_drop in E. cbn in E. lia. Qed.

Lemma stream_loop_spec fuel key h w r w' :
  let total := Z.of_nat (length (content_of w (rd_path h))) in
  let rest := drop (rd_pos h) (content_of w (rd_path h)) in
  stream_loop fuel key h total (Z.of_nat (rd_pos h)) w = (r, w') ->
  (total <= u64_max)%Z -> rd_pos h <= length (content_of w (rd_path h)) ->
  length rest < fuel -> is_file w (rd_path h) = true ->
  exists ss rest', w_sent w' = w_sent w ++ ss /\
    streams key total (Z.of_nat (rd_pos h)) rest ss rest' /\
    match r with
    | Ok _ => rest' = []
    | Err e => (rest <> [] -> rest' <> []) /\
        exists e', allows w e' /\ (e = Io e' \/ e = Transport ("reply: " +:+ fmt_io_error e'))
    end.
Proof.
  cbn zeta. revert h w; induction fuel as [|fuel IH]; intros h w Hrun Htot Hpos Hfuel Hfile; [lia|].
  cbn [stream_loop] in Hrun. unfold io_bind at 1 in Hrun.
  destruct (io_map_err Io (file_read h CHUNK_SIZE) w) as [[[b h1]|e] w1] eqn:Er.
  2:{ injection Hrun as <- <-. apply io_map_err_err in Er as (e' & Er & ->).
      pose proof (file_read_err_sent _ _ _ _ _ Er) as Hs.
      apply file_read_err in Er as [Ha|[_ Hn]]; [|congruence].
      eexists [], _. rewrite app_nil_r. split_and!; [done|apply streams_end|done|eauto]. }
  apply io_map_err_ok in Er.
  apply file_read_ok in Er as (Hf & _ & Hs & Hcon & Hrest & -> & Hcap & Hnil & _); [|done].
  case_decide as Hlen.
  { apply nil_length_inv in Hlen as ->. injection Hrun as <- <-. eexists [], _. rewrite app_nil_r.
    split_and!; [done|apply streams_end|by apply Hnil]. }
  set (c := content_of w (rd_path h)) in *. set (n := length b) in *.
  assert (n + rd_pos h <= length c) as Hn.
  { apply (f_equal length) in Hrest. rewrite length_app, length_drop in Hrest. lia. }
  destruct (chunk_header_json (Z.of_nat (rd_pos h)) b (Z.of_nat (length c)))
    as (Hhd & bs & Hj & Hde); [lia..|].
  rewrite Hhd in Hrun. erewrite io_bind_step in Hrun by reflexivity.
  rewrite Hj in Hrun. cbn [map_err] in Hrun. erewrite io_bind_step in Hrun by reflexivity.
  unfold io_bind at 1 in Hrun.
  destruct (io_map_err _ (send _) w1) as [[[]|e] w2] eqn:Es.
  2:{ injection Hrun as <- <-. apply io_map_err_err in Es as (e' & Es & ->).
      apply send_err in Es as [Ha Hs2]. eexists [], _. rewrite app_nil_r.
      split_and!; [congruence|apply streams_end|done|]. eauto using consumed_allows. }
  apply io_map_err_ok, send_ok in Es as (Hf2 & Hs2 & Hcon2).
  assert (b <> []) as Hb by (by intros ->).
  cbn [last] in Hrun. destruct (_ <=? _)%Z eqn:Elast.
  { injection Hrun as <- <-. eexists [_], []. split_and!; [by rewrite Hs2, Hs| |done].
    apply Z.leb_le in Elast. cbn [rd_pos] in Hrest.
    rewrite Hrest, drop_ge by lia. apply streams_chunk; [done..| |apply streams_end].
    rewrite Hde. do 2 f_equal. symmetry. by apply Z.leb_le. }
  specialize (IH (mk_reader (rd_path h) (rd_pos h + n)) w2). cbn [rd_path rd_pos] in IH.
  assert (content_of w2 (rd_path h) = c) as Hc by (unfold content_of, c; by rewrite Hf2, Hf).
  rewrite Hc, Nat2Z.inj_add in IH. destruct IH as (ss & rest' & Hss & Hst & Hr);
    [done|done|lia| | |].
  - apply (f_equal length) in Hrest. rewrite length_app in Hrest. cbn [rd_pos] in Hrest. lia.
  - unfold is_file in *. by rewrite Hf2, Hf.
  - eexists (_ :: ss), rest'. split_and!.
    + rewrite Hss, Hs2, Hs, <- app_assoc. done.
    + rewrite Hrest. cbn [rd_pos]. apply streams_chunk; [done..| |done].
      rewrite Hde. do 2 f_equal. done.
    + destruct r; [done|]. destruct Hr as (Hne & e' & Ha & He).
      split; [intros _; apply Hne, drop_nonempty; apply Z.leb_gt in Elast; lia|]. exists e'. split; [|done].
      eapply consumed_allows; [exact Hcon|]. by eapply consumed_allows.
Qed.

Lemma stream_spec key p w f r w' :
  w_files w !! p = Some f -> (Z.of_nat (length (f_content f)) <= u64_max)%Z ->
  stream_file_chunks key p w = (r, w') ->
  exists ss rest', w_sent w' = w_sent w ++ ss /\
    streams key (Z.of_nat (length (f_content f))) 0 (f_content f) ss rest' /\
    match r with
    | Ok _ => rest' = []
    | Err e => (f_content f <> [] -> rest' <> []) /\
        exists e', allows w e' /\ (e = Io e' \/ e = Transport ("reply: " +:+ fmt_io_error e'))
    end.
Proof.
  intros Hf Hlen Hrun.
  assert (is_file w p = true) as Hfile by (apply is_file_true; eauto).
  assert (content_of w p = f_content f) as Hc by (unfold content_of; by rewrite Hf).
  unfold stream_file_chunks in Hrun. unfold io_bind at 1 in Hrun.
  destruct (io_map_err Io (open_read p) w) as [[h|e] w1] eqn:Eo.
  2:{ injection Hrun as <- <-. apply io_map_err_err in Eo as (e' & Eo & ->).
      pose proof (open_read_err_sent _ _ _ _ Eo).
      apply open_read_err in Eo as [Ha|[_ Hn]]; [|congruence].
      eexists [], _. rewrite app_nil_r. split_and!; [done|apply streams_end|done|eauto]. }
  apply io_map_err_ok, open_read_ok in Eo as (-> & Hf1 & _ & Hs1 & Hc1).
  unfold io_bind in Hrun.
  destruct (io_map_err Io (metadata_len _) w1) as [[n|e] w2] eqn:Em.
  2:{ injection Hrun as <- <-. apply io_map_err_err in Em as (e' & [Ha Hs2]%metadata_len_err & ->).
      eexists [], _. rewrite app_nil_r.
      split_and!; [congruence|apply streams_end|done|eauto using consumed_allows]. }
  apply io_map_err_ok, metadata_len_ok in Em as (-> & Hf2 & Hs2 & Hc2). cbn [rd_path] in Hrun.
  assert (content_of w1 p = f_content f /\ content_of w2 p = f_content f) as [Hw1 Hw2].
  { unfold content_of in *. by rewrite Hf2, Hf1. }
  rewrite Hw1, Hw2 in Hrun.
  pose proof (stream_loop_spec (S (length (f_content f))) key (mk_reader p 0) w2 r w') as Hl.
  cbn [rd_path rd_pos] in Hl. cbn zeta in Hl. rewrite Hw2, drop_0 in Hl.
  destruct Hl as (ss & rest' & Hss & Hst & Hr); [done|done|lia|lia| |].
  { unfold is_file in *. by rewrite Hf2, Hf1. }
  exists ss, rest'. split_and!; [congruence|done|]. destruct r; [done|].
  destruct Hr as (Hne & e' & Ha & He). split; [done|]. exists e'. split; [|done].
  eapply consumed_allows; [exact Hc1|]. by eapply consumed_allows.
Qed.

(** ** Reassembly *)

Lemma splice_lookup old off data i :
  data <> [] ->
  splice old off data !! i =
    if decide (i < off) then resize off Byte.x00 old !! i
    else if decide (i < off + length data) then data !! (i - off) else old !! i.
Proof.
  intros Hd. unfold splice. destruct data as [|b data]; [done|].
  set (dd := b :: data). clearbody dd.
  destruct (decide (i < off)); [by rewrite lookup_app_l by (by rewrite length_resize)|].
  rewrite lookup_app_r, length_resize by (rewrite length_resize; lia).
  destruct (decide (i < off + length dd)); [by rewrite lookup_app_l by lia|].
  rewrite lookup_app_r, lookup_drop by lia. f_equal. lia.
Qed.

Lemma splice_length old off data :
  data <> [] -> length (splice old off data) = Nat.max (off + length data) (length old).
Proof.
  intros Hd. unfold splice. destruct data as [|b data]; [done|].
  rewrite !length_app, length_resize, length_drop. lia.
Qed.

(** A chunk of [content]: its offset and bytes. *)
Definition is_piece (content : list u8) (off : nat) (b : list u8) : Prop :=
  b <> [] /\ take (length b) (drop off content) = b /\ off + length b <= length content.

Lemma piece_lookup content off b i :
  is_piece content off b -> off <= i < off + length b -> b !! (i - off) = content !! i.
Proof.
  intros (_ & Hb & _) Hi. transitivity (take (length b) (drop off content) !! (i - off)); [by rewrite Hb|].
  rewrite lookup_take_lt, lookup_drop by lia. f_equal. lia.
Qed.

(** Writing a right piece keeps right what was right and makes its range right. *)
Lemma splice_piece content acc off b (done_at : nat -> Prop) :
  is_piece content off b -> length acc <= length content ->
  (forall i, done_at i -> i < length content -> acc !! i = content !! i) ->
  length (splice acc off b) <= length content /\
  forall i, done_at i \/ off <= i < off + length b -> i < length content ->
    splice acc off b !! i = content !! i.
Proof.
  intros Hp Hlen Hdone. pose proof Hp as (Hb & _ & Hle).
  split; [rewrite splice_length by done; lia|].
  intros i Hi Hin. rewrite splice_lookup by done.
  destruct (decide (i < off)) as [Hlt|Hge].
  - destruct Hi as [Hi|Hi]; [|lia]. specialize (Hdone i Hi Hin).
    rewrite <- Hdone. apply lookup_resize; [done|].
    apply lookup_lt_is_Some. rewrite Hdone. by apply lookup_lt_is_Some.
  - destruct (decide (i < off + length b)); [apply piece_lookup; [done|lia]|].
    destruct Hi as [Hi|Hi]; [by apply Hdone|lia].
Qed.

(** The reply a receiver gets for a sent sample. *)
Definition reply_of (s : Sample) : Reply := ReplyOk (s_payload s) (s_attachment s).

(** [carries content s off b]: the sample [s] is the chunk [b] of [content] at [off]. *)
Definition carries (content : list u8) (s : Sample) (off : nat) (b : list u8) : Prop :=
  is_piece content off b /\ s_payload s = b /\
  exists bs, s_attachment s = Some bs /\
    from_slice_as de_header bs =
      Ok (mk_ChunkHeader (Z.of_nat off) (ChunkVerifier_hash b) (Z.of_nat (length b))
            (Z.of_nat (length content) <=? Z.of_nat off + Z.of_nat (length b))%Z).

Lemma carries_check content s off b :
  carries content s off b ->
  check_reply (reply_of s) =
    Ok (mk_ChunkHeader (Z.of_nat off) (ChunkVerifier_hash b) (Z.of_nat (length b))
          (Z.of_nat (length content) <=? Z.of_nat off + Z.of_nat (length b))%Z, b).
Proof.
  intros (_ & Hb & bs & Ha & Hh). unfold reply_of, check_reply. rewrite Ha. cbn [ok_or rbind].
  rewrite Hh. cbn [map_err rbind]. unfold ChunkVerifier_verify. cbn [chunk_hash].
  rewrite Hb, decide_True by done. done.
Qed.

(** A stream's samples are chunks of the file, and they cover what is sent. *)
Lemma streams_pieces key pre rest ss rest' :
  streams key (Z.of_nat (length (pre ++ rest))) (Z.of_nat (length pre)) rest ss rest' ->
  Forall (fun s => s_key s = key /\ exists off b, carries (pre ++ rest) s off b) ss /\
  forall i, length pre <= i -> i + length rest' < length (pre ++ rest) ->
    exists s off b, s ∈ ss /\ carries (pre ++ rest) s off b /\ off <= i < off + length b.
Proof.
  remember (Z.of_nat (length (pre ++ rest))) as total eqn:Et.
  remember (Z.of_nat (length pre)) as off0 eqn:Eo. intros Hst. revert pre Et Eo.
  induction Hst as [off rest|off b rest bs ss rest' Hb Hcap Hh Hst IH]; intros pre -> ->.
  { split; [constructor|]. intros i Hi. rewrite length_app. lia. }
  rewrite app_assoc in *. destruct (IH (pre ++ b)) as [Hall Hcov];
    [done|rewrite length_app; lia|].
  assert (carries ((pre ++ b) ++ rest) (mk_sample key b (Some bs)) (length pre) b) as Hc.
  { split_and!; [|done|exists bs; by split]. rewrite <- app_assoc. split_and!; [done| |].
    - by rewrite drop_app_length, take_app_length.
    - rewrite !length_app. lia. }
  split; [constructor; [by eauto|done]|]. intros i Hi Hlt.
  destruct (decide (i < length pre + length b)).
  - eexists _, _, _. split_and!; [left|exact Hc|lia|lia].
  - destruct (Hcov i) as (s & o & b' & Hin & ?); [rewrite length_app; lia|done|].
    exists s, o, b'. split; [by right|done].
Qed.

(** Replies that are all chunks of [content], in any order and with repetitions,
    assemble to a file that is right wherever one of them reached. *)
Lemma assemble_pieces content replies acc gl ga (done_at : nat -> Prop) :
  (Z.of_nat (length content) < 2 ^ 63)%Z ->
  Forall (fun r => exists s off b, r = reply_of s /\ carries content s off b) replies ->
  length acc <= length content ->
  (forall i, done_at i -> i < length content -> acc !! i = content !! i) ->
  exists acc' gl' ga', assemble acc gl ga replies = Ok (acc', gl', ga') /\
    length acc' <= length content /\
    (ga = true \/ replies <> [] -> ga' = true) /\
    (gl = true -> gl' = true) /\
    (forall s off b, reply_of s ∈ replies -> carries content s off b ->
       off + length b = length content -> gl' = true) /\
    (forall i, i < length content ->
       done_at i \/ (exists s off b, reply_of s ∈ replies /\ carries content s off b /\
                                    off <= i < off + length b) ->
       acc' !! i = content !! i).
Proof.
  intros Hmax. revert acc gl ga done_at.
  induction replies as [|r rs IH]; intros acc gl ga done_at Hall Hlen Hdone; cbn [assemble].
  { exists acc, gl, ga. split_and!; try done; [by intros []|by intros ? ? ? ?%elem_of_nil|].
    intros i Hi [?|(? & ? & ? & []%elem_of_nil & _)]; auto. }
  apply Forall_cons in Hall as [(s & off & b & -> & Hc) Hall].
  pose proof Hc as ((Hb & _ & Hle) & _ & _).
  rewrite (carries_check _ _ _ _ Hc). cbn [offset last].
  replace (Z.of_nat off <? 2 ^ 63)%Z with true by (symmetry; apply Z.ltb_lt; lia).
  rewrite Nat2Z.id. set (lst := (_ <=? _)%Z).
  destruct (splice_piece content acc off b done_at) as [Hlen' Hdone']; [by apply Hc|done|done|].
  destruct (IH (splice acc off b) (if lst then true else gl) true _ Hall Hlen' Hdone')
    as (acc' & gl' & ga' & Hrun & Hl & Hga & Hgl & Hlast & Hcov).
  assert (forall s' off' b', reply_of s' = reply_of s -> carries content s' off' b' ->
            off' = off /\ b' = b) as Huniq.
  { intros s' off' b' Heq Hc'. apply carries_check in Hc, Hc'.
    rewrite Heq, Hc in Hc'. injection Hc' as Ho _ _ _ Hbb. split; [lia|done]. }
  exists acc', gl', ga'. split_and!; [done|done|auto|intros ->; apply Hgl; by destruct lst| |].
  - intros s' off' b' [Heq|Hin]%elem_of_cons Hc' Hend; [|by eapply Hlast].
    apply Huniq in Hc' as [-> ->]; [|done]. apply Hgl.
    replace lst with true; [done|]. symmetry. apply Z.leb_le. lia.
  - intros i Hi Hd. apply Hcov; [done|]. destruct Hd as [Hd|(s' & off' & b' & Hin & Hc' & Hr)];
      [by left; left|]. apply elem_of_cons in Hin as [Heq|Hin]; [|right; eauto 10].
    apply Huniq in Hc' as [-> ->]; [|done]. by left; right.
Qed.

Lemma streams_nil key total off ss rest' : streams key total off [] ss rest' -> ss = [].
Proof.
  intros Hst. remember [] as l eqn:El. destruct Hst; [done|]. by apply app_nil in El as [-> _].
Qed.

Lemma stream_quiet key p w f :
  quiet w -> w_files w !! p = Some f -> (Z.of_nat (length (f_content f)) <= u64_max)%Z ->
  exists w' ss, stream_file_chunks key p w = (Ok tt, w') /\ w_sent w' = w_sent w ++ ss /\
    streams key (Z.of_nat (length (f_content f))) 0 (f_content f) ss [].
Proof.
  intros Hq Hf Hlen. destruct (stream_file_chunks key p w) as [r w'] eqn:Er.
  destruct (stream_spec _ _ _ _ _ _ Hf Hlen Er) as (ss & rest' & Hs & Hst & Hr).
  destruct r as [[]|e]; [subst; eauto 10|].
  destruct Hr as (_ & e' & Ha & _). by destruct (quiet_allows w e' Hq).
Qed.

(** All chunks of a non-empty file, in any order, assemble to it. *)
Lemma assemble_stream key content ss replies :
  content <> [] -> (Z.of_nat (length content) < 2 ^ 63)%Z ->
  streams key (Z.of_nat (length content)) 0 content ss [] ->
  (forall r, r ∈ replies <-> r ∈ (reply_of <$> ss)) ->
  assemble [] false false replies = Ok (content, true, true).
Proof.
  intros Hne Hmax Hst Hrep.
  destruct (streams_pieces key [] content ss [] Hst) as [Hall Hcov]. cbn [app length] in Hall, Hcov.
  assert (Forall (fun r => exists s off b, r = reply_of s /\ carries content s off b) replies) as HF.
  { apply Forall_forall. intros r (s & -> & Hs)%Hrep%list_elem_of_fmap.
    rewrite Forall_forall in Hall. destruct (Hall s Hs) as (_ & off & b & Hc). eauto. }
  destruct (assemble_pieces content replies [] false false (fun _ => False) Hmax HF)
    as (acc & gl & ga & Hrun & Hlen & Hga & _ & Hgl & Hacc); [cbn; lia|done|].
  assert (forall i, i < length content -> exists s off b, reply_of s ∈ replies /\
            carries content s off b /\ off <= i < off + length b) as Hcov'.
  { intros i Hi. destruct (Hcov i) as (s & off & b & Hs & Hc & Hi'); [lia|lia|].
    exists s, off, b. split; [|done]. apply Hrep, list_elem_of_fmap. eauto. }
  assert (0 < length content) as Hpos by (destruct content; cbn; [done|lia]).
  rewrite Hrun. f_equal. f_equal; [f_equal|].
  - apply list_eq. intros i. destruct (decide (i < length content)); [by eauto|].
    rewrite !lookup_ge_None_2 by lia. done.
  - destruct (Hcov' (length content - 1)) as (s & off & b & Hs & Hc & Hi); [lia|].
    eapply Hgl; [done..|]. destruct Hc as ((_ & _ & Hle) & _). lia.
  - apply Hga. right. intros ->. destruct (Hcov' 0 Hpos) as (s & _ & _ & Hs & _).
    by apply elem_of_nil in Hs.
Qed.

(** A pull that is answered with the chunks of a file, in any order and number,
    caches the file. *)
Lemma pull_stream content ss d receiver peer opts replies w :
  let key := TRANSFER_ROOT +:+ "/" +:+ d in
  content <> [] -> (Z.of_nat (length content) < 2 ^ 63)%Z -> d = ChunkVerifier_hash content ->
  streams key (Z.of_nat (length content)) 0 content ss [] ->
  session_get (session receiver) key (timeout opts) = Ok replies ->
  (forall r, r ∈ replies <-> r ∈ (reply_of <$> ss)) ->
  quiet w -> ready receiver d w ->
  exists w' mode,
    pull_with_options receiver peer d opts w = (Ok (final_path_of receiver d), w') /\ quiet w' /\
    w_files w' !! final_path_of receiver d = Some (mk_file content mode).
Proof.
  intros key Hne Hmax Hd Hst Hget Hrep Hq Hready.
  destruct (pull_quiet receiver peer d opts w Hq Hready) as (w' & _ & Hq' & Hp).
  fold key in Hp. rewrite Hget in Hp. unfold pull_fate in Hp.
  rewrite (assemble_stream key _ ss replies Hne Hmax Hst Hrep), decide_True in Hp by done.
  destruct Hp as [Hp Hfiles]. eexists w', _. split_and!; [exact Hp|done|].
  by rewrite Hfiles, lookup_insert_eq.
Qed.

Lemma handle_query_hosted arts d src w :
  let key := TRANSFER_ROOT +:+ "/" +:+ d in
  arts !! d = Some src ->
  handle_query arts key w = (Ok tt, (stream_file_chunks key src w).2).
Proof.
  intros key Hd. unfold handle_query, key.
  rewrite <- str_app_assoc, strip_prefix_app, Hd, str_app_assoc.
  unfold io_ignore. by destruct (stream_file_chunks _ src w).
Qed.

Lemma serve_hosted self d src key w :
  declare_queryable (session self) (TRANSFER_ROOT +:+ "/*") = Ok tt ->
  key = TRANSFER_ROOT +:+ "/" +:+ d ->
  serve self [Register d src; Query key] w =
    (Ok (register self d src), (stream_file_chunks key src w).2).
Proof.
  intros Hdq ->. unfold serve. rewrite Hdq. erewrite io_bind_step by reflexivity.
  unfold io_bind. cbn [serve_loop]. unfold io_bind.
  by rewrite handle_query_hosted with (src := src) by apply lookup_insert_eq.
Qed.

(** C2: end to end. A sender that registered a non-empty file under its BLAKE3
    digest answers a query for it with samples such that, if a receiver's [get]
    delivers those chunks in any order and any number of times each, the receiver's
    [pull] succeeds and its cache holds the sender's bytes. *)
Theorem transfer_roundtrip sender src f w_s d :
  let key := TRANSFER_ROOT +:+ "/" +:+ d in
  quiet w_s -> w_files w_s !! src = Some f -> f_content f <> [] ->
  (Z.of_nat (length (f_content f)) < 2 ^ 63)%Z ->
  d = ChunkVerifier_hash (f_content f) ->
  declare_queryable (session sender) (TRANSFER_ROOT +:+ "/*") = Ok tt ->
  exists w_s' ss,
    serve sender [Register d src; Query key] w_s = (Ok (register sender d src), w_s') /\
    w_sent w_s' = w_sent w_s ++ ss /\
    forall receiver peer opts replies w_r,
      session_get (session receiver) key (timeout opts) = Ok replies ->
      (forall r, r ∈ replies <-> r ∈ (reply_of <$> ss)) ->
      quiet w_r -> ready receiver d w_r ->
      exists w_r' mode,
        pull_with_options receiver peer d opts w_r = (Ok (final_path_of receiver d), w_r') /\
        w_files w_r' !! final_path_of receiver d = Some (mk_file (f_content f) mode).
Proof.
  intros key Hq Hf Hne Hmax Hd Hdq.
  destruct (stream_quiet key src w_s f Hq Hf) as (w_s' & ss & Hrun & Hsent & Hst);
    [unfold u64_max; lia|].
  exists w_s', ss. split_and!; [by erewrite serve_hosted, Hrun|done|].
  intros receiver peer opts replies w_r Hget Hrep Hqr Hready.
  destruct (pull_stream (f_content f) ss d receiver peer opts replies w_r)
    as (w_r' & mode & Hp & _ & Hfiles); eauto.
Qed.

(** C12: when no I/O fails, [pull] of a digest that is not cached does what
    [pull_fate] computes from the replies alone: the first bad reply, a missing
    answer, a stream without final chunk or a wrong root hash refuse it with their
    own error, and otherwise the assembled bytes enter the cache; the [.partial]
    file remains exactly after transport errors and bad replies. *)
Theorem pull_refines_fate self peer d opts w :
  quiet w -> ready self d w ->
  let final := final_path_of self d in
  let tmp := tmp_path_of self d in
  let file c := mk_file c (f_mode (truncated w tmp)) in
  exists w',
  match pull_fate peer d (session_get (session self) (TRANSFER_ROOT +:+ "/" +:+ d) (timeout opts)) with
  | Cached c =>
      pull_with_options self peer d opts w = (Ok final, w') /\
      w_files w' = <[final := file c]> (delete tmp (w_files w))
  | Refused e leftover =>
      pull_with_options self peer d opts w = (Err e, w') /\
      w_files w' = match leftover with
                   | None => delete tmp (w_files w)
                   | Some c => <[tmp := file c]> (w_files w)
                   end
  end.
Proof. intros Hq Hr. destruct (pull_quiet self peer d opts w Hq Hr) as (w' & _ & _ & Hp). eauto. Qed.

(** C18: whatever I/O fails, the samples a query is answered with are
    consecutive hashed chunks of the file from its start, on the query's key, each
    with a header that decodes to its offset, hash, length and whether the file ends
    there. A stream that ends in success has sent the file to its last byte; one that
    ends in an error has not, unless the file is empty, and an operation failed with
    that error. *)
Theorem stream_chunks_sound key p w f r w' :
  w_files w !! p = Some f -> (Z.of_nat (length (f_content f)) <= u64_max)%Z ->
  stream_file_chunks key p w = (r, w') ->
  exists ss rest', w_sent w' = w_sent w ++ ss /\
    streams key (Z.of_nat (length (f_content f))) 0 (f_content f) ss rest' /\
    match r with
    | Ok _ => rest' = []
    | Err e => (f_content f <> [] -> rest' <> []) /\
        exists e', allows w e' /\ (e = Io e' \/ e = Transport ("reply: " +:+ fmt_io_error e'))
    end.
Proof. apply stream_spec. Qed.

(** C37: an empty file can be registered but not pulled: its stream has no
    chunk, so that a receiver sees no reply and reports the peer missing. *)
Theorem empty_file_unpullable src f w_s key receiver peer d opts w_r :
  quiet w_s -> w_files w_s !! src = Some f -> f_content f = [] ->
  quiet w_r -> ready receiver d w_r ->
  (forall w_s', stream_file_chunks key src w_s = (Ok tt, w_s') ->
    exists ss, w_sent w_s' = w_sent w_s ++ ss /\
      session_get (session receiver) (TRANSFER_ROOT +:+ "/" +:+ d) (timeout opts) =
        Ok (reply_of <$> ss)) ->
  exists w_r', pull_with_options receiver peer d opts w_r = (Err (PeerMissing peer d), w_r').
Proof.
  intros Hq Hf He Hqr Hready Hnet.
  destruct (stream_quiet key src w_s f Hq Hf) as (w_s' & ss & Hrun & Hsent & Hst);
    [rewrite He; cbn; unfold u64_max; lia|].
  rewrite He in Hst. apply streams_nil in Hst as ->.
  destruct (Hnet w_s' Hrun) as (ss & Hss & Hget). rewrite Hsent in Hss.
  apply app_inv_head in Hss as <-.
  destruct (pull_quiet receiver peer d opts w_r Hqr Hready) as (w' & _ & _ & Hp).
  rewrite Hget in Hp. cbn in Hp. destruct Hp as [Hp _]. eauto.
Qed.

(** ** The serve loop *)

Lemma emits_stream key p : emits (fun s => s_key s = key) (stream_file_chunks key p).
Proof.
  assert (forall fuel h total off, emits (fun s => s_key s = key) (stream_loop fuel key h total off)) as Hl.
  { induction fuel as [|fuel IH]; intros h total off; cbn [stream_loop];
      [apply (emits_pure _ (Err _))|].
    apply emits_bind; [auto with furcate|]. intros [b h1]. case_decide; [apply (emits_pure _ (Ok _))|].
    apply emits_bind; [auto with furcate|]. intros hd.
    apply emits_bind; [auto with furcate|]. intros bs.
    apply emits_bind; [auto with furcate|]. intros [].
    destruct (last hd); [apply (emits_pure _ (Ok _))|apply IH]. }
  apply emits_bind; [auto with furcate|]. intros h.
  apply emits_bind; [auto with furcate|]. intros n w r w'. apply Hl.
Qed.

(** Streaming changes no directory. *)
Lemma respects_stream R `{!FsEffect R, !SendEffect R} key p : respects R (stream_file_chunks key p).
Proof.
  assert (forall fuel h total off, respects R (stream_loop fuel key h total off)) as Hl.
  { induction fuel as [|fuel IH]; intros h total off; cbn [stream_loop]; [auto with furcate|].
    apply respects_bind; [done|auto with furcate|]. intros [b h1]. case_decide; [auto with furcate|].
    do 3 (apply respects_bind; [done|auto with furcate|]; intros).
    case_match; auto with furcate. }
  apply respects_bind; [done|auto with furcate|]. intros h.
  apply respects_bind; [done|auto with furcate|]. intros n w r w'. apply Hl.
Qed.

(** The artefact table after some events. *)
Definition registrations (arts : gmap string string) (evs : list ServeEvent) : gmap string string :=
  fold_left (fun m ev => match ev with Register d p => <[d := p]> m | Query _ => m end) evs arts.

Lemma handle_query_spec arts key w :
  exists w' ss, handle_query arts key w = (Ok tt, w') /\ w_files w' = w_files w /\
    w_sent w' = w_sent w ++ ss /\
    Forall (fun s => s_key s = key /\ exists d, key = TRANSFER_ROOT +:+ "/" +:+ d /\ is_Some (arts !! d)) ss.
Proof.
  unfold handle_query. destruct (strip_prefix _ key) as [d|] eqn:Ep.
  2:{ exists w, []. by rewrite app_nil_r. }
  destruct (arts !! d) as [p|] eqn:Ed; [|exists w, []; by rewrite app_nil_r].
  apply strip_prefix_some in Ep. rewrite str_app_assoc in Ep. unfold io_ignore.
  destruct (stream_file_chunks key p w) as [r w'] eqn:Es.
  apply emits_stream in Es as (Hf & ss & Hs & HK). exists w', ss. split_and!; [done..|].
  eapply Forall_impl; [exact HK|]. cbn. intros s Hk. split; [done|]. eauto.
Qed.

(** C36: the serve task survives every query: whatever I/O fails and whatever
    keys are queried, it processes all events, changes no file, ends with the
    latest registration of every digest, and everything it sends answers a query
    for a digest registered before that query. *)
Theorem serve_loop_answers arts evs w :
  exists w' ss, serve_loop arts evs w = (Ok (registrations arts evs), w') /\
    w_files w' = w_files w /\ w_sent w' = w_sent w ++ ss /\
    Forall (fun s => exists pre post d,
      evs = pre ++ Query (s_key s) :: post /\ s_key s = TRANSFER_ROOT +:+ "/" +:+ d /\
      is_Some (registrations arts pre !! d)) ss.
Proof.
  revert arts w; induction evs as [|[d p|key] evs IH]; intros arts w; cbn [serve_loop].
  - exists w, []. by rewrite app_nil_r.
  - destruct (IH (<[d := p]> arts) w) as (w' & ss & Hr & Hf & Hs & HK). exists w', ss.
    split_and!; [done..|]. eapply Forall_impl; [exact HK|].
    intros s (pre & post & d' & -> & Hk & Hd). by exists (Register d p :: pre), post, d'.
  - destruct (handle_query_spec arts key w) as (w1 & s1 & Hq & Hf1 & Hs1 & HK1).
    destruct (IH arts w1) as (w' & ss & Hr & Hf & Hs & HK). exists w', (s1 ++ ss).
    split_and!; [by erewrite io_bind_step|congruence|by rewrite Hs, Hs1, app_assoc|].
    apply Forall_app. split.
    + eapply Forall_impl; [exact HK1|]. intros s (-> & d & -> & Hd). by exists [], evs, d.
    + eapply Forall_impl; [exact HK|].
      intros s (pre & post & d' & -> & Hk & Hd). by exists (Query key :: pre), post, d'.
Qed.

(** A cached path is returned as it is: when a file is already at the
    digest's cache path, [pull] succeeds with it without contacting a peer and
    without looking at its bytes, which may hash to something else. *)
Theorem pull_cached_unverified self peer d opts w f :
  quiet w -> w_files w !! final_path_of self d = Some f ->
  existsb (is_file w) (strip_slashes (cache_dir self) :: ancestors (cache_dir self)) = false ->
  exists w', pull_with_options self peer d opts w = (Ok (final_path_of self d), w') /\
             w_files w' = w_files w.
Proof.
  intros Hq Hf Hc. exists (with_cache self w). split; [|done]. unfold pull_with_options.
  erewrite io_bind_step; [|apply io_map_err_ok; by apply create_dir_all_quiet]. cbn zeta.
  erewrite io_bind_step; [|by apply path_exists_quiet].
  assert (is_file w (final_path_of self d) = true) as Hfile by (apply is_file_true; eauto).
  change (is_file (set_dirs _ w) ?p) with (is_file w p). by rewrite Hfile.
Qed.
End Facts.

(** ** A reference hash, and concrete runs *)

Module RefBlake3.

(** Not BLAKE3: the first 32 bytes of the input, padded. It has the laws used. *)
Definition hash (bs : list u8) : list u8 := resize 32 Byte.x00 bs.

#[export] Instance crate : Blake3Crate := {|
  blake3_hash := hash; blake3_hasher := list u8; hasher_new := [];
  hasher_update := app; hasher_finalize := hash |}.

#[export] Instance laws : Blake3Laws.
Proof.
  split; [|intros bs; apply length_resize]. intros chunks. cbn. f_equal.
  rewrite <- (app_nil_l (concat chunks)). generalize (@nil u8).
  induction chunks as [|c cs IH]; intros acc; cbn; [by rewrite app_nil_r|].
  by rewrite IH, app_assoc.
Qed.

End RefBlake3.

Module TransferWitness.
#[local] Existing Instances RefHex.crate RefHex.laws RefBlake3.crate RefBlake3.laws
  RefJson.crate RefJson.laws.

Definition blob : list u8 := [Byte.x61; Byte.x62; Byte.x63].
Definition digest : string := ChunkVerifier_hash blob.
Definition peer : PeerId := PeerId.from_bytes (array32_repeat Byte.x00).

(** A sender's disk (with short reads of one byte) and a receiver's. *)
Definition sender_world : World :=
  mk_world {[ "/models/m" := mk_file blob 420 ]} {[ "/models" ]} 420 [] [] [1; 1].
Definition receiver_world : World := mk_world ∅ ∅ 420 [] [] [].
Definition stale_world : World :=
  mk_world {[ "/cache/" +:+ digest := mk_file [] 420 ]} {[ "/cache" ]} 420 [] [] [].
Definition opts : PullOptions := PullOptions_default.

Definition node (replies : list Reply) : TransferService :=
  TransferService_new "/cache" (mk_Session (fun _ _ => Ok replies) (fun _ => Ok tt)).

Lemma node_ready replies d :
  d = digest -> ready (node replies) d receiver_world.
Proof. intros ->. split; vm_compute; reflexivity. Qed.

Lemma transfer_roundtrip_witness :
  exists ss w_r' mode,
    pull_with_options (node (reply_of <$> ss)) peer digest opts receiver_world =
      (Ok (final_path_of (node (reply_of <$> ss)) digest), w_r') /\
    w_files w_r' !! final_path_of (node (reply_of <$> ss)) digest = Some (mk_file blob mode).
Proof.
  destruct (transfer_roundtrip (node []) "/models/m" (mk_file blob 420) sender_world digest)
    as (w_s' & ss & _ & _ & Hpull); try reflexivity; [done|].
  destruct (Hpull (node (reply_of <$> ss)) peer opts (reply_of <$> ss) receiver_world)
    as (w' & mode & Hp); try reflexivity; [by apply node_ready|].
  by exists ss, w', mode.
Defined.

Lemma pull_refines_fate_witness :
  exists w', pull_with_options (node []) peer digest opts receiver_world =
    (Err (PeerMissing peer digest), w') /\ w_files w' = ∅.
Proof.
  destruct (pull_refines_fate (node []) peer digest opts receiver_world) as (w' & Hp & Hf);
    [reflexivity|by apply node_ready|].
  exists w'. split; [exact Hp|]. rewrite Hf. apply delete_empty.
Defined.

(** The whole blob as one reply, and the same reply with a flipped byte. *)
Definition blob_header : list u8 := str_bytes (RefJson.text (ser_header (mk_ChunkHeader 0 digest 3 true))).
Definition good_reply : Reply := ReplyOk blob (Some blob_header).
Definition bad_reply : Reply := ReplyOk [Byte.x61; Byte.x62; Byte.x64] (Some blob_header).

(** Another model is already in the cache. *)
Definition used_world : World :=
  mk_world {[ "/cache/other" := mk_file [Byte.x01] 420 ]} {[ "/cache" ]} 420 [] [] [].

(** A pull that fetches the blob, and one that finds its path taken. *)
Lemma pull_ok_verified_witness :
  (exists w' f, pull_with_options (node [good_reply]) peer digest opts used_world =
      (Ok ("/cache/" +:+ digest), w') /\
    w_files w' !! ("/cache/" +:+ digest) = Some f /\ ChunkVerifier_hash (f_content f) = digest /\
    w_files w' !! "/cache/other" = Some (mk_file [Byte.x01] 420)) /\
  exists w', pull_with_options (node []) peer digest opts stale_world = (Ok ("/cache/" +:+ digest), w') /\
    w_files w' = w_files stale_world.
Proof.
  split.
  - assert (is_ok (pull_with_options (node [good_reply]) peer digest opts used_world).1 = true) as Hok
      by (vm_compute; reflexivity).
    destruct (pull_with_options (node [good_reply]) peer digest opts used_world) as [[p|e] w'] eqn:Hrun;
      [|discriminate Hok].
    destruct (pull_ok_verified (node [good_reply]) peer digest opts used_world p w' Hrun)
      as [-> [[_ [Hf|Hd]]|(f & Hf & Hh & _ & Hq)]].
    + exfalso. revert Hf. vm_compute. discriminate.
    + exfalso. revert Hd. apply (f_equal snd) in Hrun. cbn [snd] in Hrun. rewrite <- Hrun.
      vm_compute. discriminate.
    + exists w', f. split; [reflexivity|]. split; [exact Hf|]. split; [exact Hh|].
      rewrite Hq; [reflexivity|vm_compute; discriminate..].
  - exists (set_dirs {[ "/cache" ]} stale_world). split; vm_compute; reflexivity.
Defined.

(** The corrupt reply is refused and the other model stays as it was. *)
Lemma pull_error_leaves_cache_witness :
  exists w', pull_with_options (node [bad_reply]) peer digest opts used_world = (Err (ChunkVerify 0), w') /\
    w_files w' !! "/cache/other" = Some (mk_file [Byte.x01] 420) /\
    w_files w' !! ("/cache/" +:+ digest) = None.
Proof.
  assert ((pull_with_options (node [bad_reply]) peer digest opts used_world).1 = Err (ChunkVerify 0)) as He
    by (vm_compute; reflexivity).
  destruct (pull_with_options (node [bad_reply]) peer digest opts used_world) as [r w'] eqn:Hrun.
  cbn [fst] in He. subst r. exists w'. split; [reflexivity|].
  split; rewrite (pull_error_leaves_cache (node [bad_reply]) peer digest opts used_world _ w' _ Hrun);
    vm_compute; done.
Defined.

Lemma root_hash_correct_witness :
  exists w', root_hash "/models/m" sender_world = (Ok digest, w') /\ w_files w' = w_files sender_world.
Proof.
  assert (exists w', root_hash "/models/m" sender_world = (Ok digest, w')) as [w' Hrun]
    by (eexists; vm_compute; reflexivity).
  exists w'. split; [exact Hrun|].
  exact (proj1 (root_hash_correct "/models/m" sender_world (mk_file blob 420) (Ok digest) w' eq_refl Hrun)).
Defined.

(** Two short reads of one byte make three chunks of the three bytes; when the second send
    fails, one chunk is out and the rest is not. *)
Lemma stream_chunks_sound_witness :
  (exists w', stream_file_chunks "k" "/models/m" sender_world = (Ok tt, w') /\
     streams "k" 3 0 blob (w_sent w') [] /\ s_payload <$> w_sent w' = [[Byte.x61]; [Byte.x62]; [Byte.x63]]) /\
  let w := set_outcomes [Pass; Pass; Pass; Pass; Pass; Fault NotFound 0 false] sender_world in
  exists e w' rest', stream_file_chunks "k" "/models/m" w = (Err e, w') /\
    s_payload <$> w_sent w' = [[Byte.x61]] /\ streams "k" 3 0 blob (w_sent w') rest' /\ rest' <> [].
Proof.
  split.
  - destruct (stream_file_chunks "k" "/models/m" sender_world) as [r w'] eqn:Hrun.
    pose proof Hrun as Hr. vm_compute in Hr. injection Hr as Hr Hw.
    destruct (stream_chunks_sound "k" "/models/m" sender_world (mk_file blob 420) r w')
      as (ss & rest' & Hs & Hst & Hend); [reflexivity|vm_compute; discriminate|exact Hrun|].
    change (w_sent w' = ss) in Hs. subst ss. rewrite <- Hr in *. rewrite Hend in Hst.
    exists w'. split; [reflexivity|]. split; [exact Hst|]. rewrite <- Hw. reflexivity.
  - set (w := set_outcomes _ sender_world). cbv zeta.
    destruct (stream_file_chunks "k" "/models/m" w) as [r w'] eqn:Hrun.
    pose proof Hrun as Hr. vm_compute in Hr. injection Hr as Hr Hw.
    destruct (stream_chunks_sound "k" "/models/m" w (mk_file blob 420) r w')
      as (ss & rest' & Hs & Hst & Hend); [reflexivity|vm_compute; discriminate|exact Hrun|].
    change (w_sent w' = ss) in Hs. subst ss. rewrite <- Hr in *.
    eexists _, w', rest'. split; [reflexivity|]. split; [by rewrite <- Hw|].
    split; [exact Hst|]. by apply Hend.
Defined.

Lemma empty_file_unpullable_witness :
  exists w', pull_with_options (node []) peer digest opts receiver_world =
    (Err (PeerMissing peer digest), w').
Proof.
  apply (empty_file_unpullable "/cache/e" (mk_file [] 420)
    (mk_world {[ "/cache/e" := mk_file [] 420 ]} ∅ 420 [] [] []) "k");
    [reflexivity|reflexivity|reflexivity|reflexivity|by apply node_ready|].
  intros w' Hrun. exists []. split; [|reflexivity]. revert Hrun. vm_compute. by intros [= <-].
Defined.

Lemma pull_cached_unverified_witness :
  exists w', pull_with_options (node []) peer digest opts stale_world =
    (Ok (final_path_of (node []) digest), w') /\ w_files w' = w_files stale_world.
Proof.
  apply (pull_cached_unverified (node []) peer digest opts stale_world (mk_file [] 420));
    vm_compute; reflexivity.
Defined.

End TransferWitness.
