(* ===== verification/Pulls.v ===== *)
(** * Concurrent pulls

    [pull_with_options] takes [&self], so one service can run many pulls at once.
    Here it is a state machine with one step per operation it awaits: a state is
    what the function holds between two operations, [pull_step] performs the next
    one. A single machine run to its end computes what [pull_with_options] of
    Transfer.v computes ([pull_machine_complete]); a list of machines over one
    [World], stepped in any order, is the concurrent service.

    Open files are path-based, as in Fs.v: a handle is only used while its path
    still names the file it was opened on. Pulls of different digests never share
    a path; the theorem on two pulls of one digest ([same_digest_race]) is a trace
    in which no handle is used after the rename. *)

From S2P Require Import Prelude RustStd Codecs Core Wire Event Json Fs Transfer.

(** ** The machine *)

Section Machine.
Context `{HexCrate, Blake3Crate, JsonCrate}.

(** Where a pull is: the operation it performs next, with its live variables. *)
Inductive pull_pc :=
| PStart
| PCheck
| POpen
| PGet (tmp_file : Writer)
| PRecv (replies : list Reply) (tmp_file : Writer) (got_last got_any : bool)
| PSeek (header : ChunkHeader) (chunk_bytes : list u8) (replies : list Reply)
    (tmp_file : Writer) (got_last : bool)
| PWrite (header : ChunkHeader) (chunk_bytes : list u8) (replies : list Reply)
    (tmp_file : Writer) (got_last : bool)
| PFlush (tmp_file : Writer)
| PHashOpen
| PHash (file : Reader) (hasher : blake3_hasher)
| PCleanup (e : TransferError)
| PRename
| PDone (r : result string TransferError).

(** [?]: go on after the operation, or return its error. *)
Definition next {A} (x : result A TransferError * World) (k : A -> pull_pc) : pull_pc * World :=
  match x with
  | (Ok a, w) => (k a, w)
  | (Err e, w) => (PDone (Err e), w)
  end.

Section Step.
Context (self : TransferService) (peer : PeerId) (digest_hex : string) (opts : PullOptions).

Definition final_path : string := final_path_of self digest_hex.
Definition tmp_path : string := tmp_path_of self digest_hex.

Definition replies_of : result (list Reply) TransferError :=
  let selector := TRANSFER_ROOT +:+ "/" +:+ digest_hex in
  map_err (fun e => Transport ("get " +:+ selector +:+ ": " +:+ e))
    (session_get (session self) selector (timeout opts)).

(** What follows the last reply. *)
Definition after_replies (tmp_file : Writer) (got_last got_any : bool) : pull_pc :=
  if negb got_any then PCleanup (PeerMissing peer digest_hex)
  else if negb got_last then PCleanup (MalformedReply "stream ended without a final chunk")
  else PFlush tmp_file.

(** What follows the last read of the assembled file. *)
Definition after_hash (actual_root : string) : pull_pc :=
  if decide (actual_root <> digest_hex) then PCleanup (RootVerify digest_hex actual_root)
  else PRename.

Definition pull_step (pc : pull_pc) (w : World) : pull_pc * World :=
  match pc with
  | PStart => next (io_map_err Io (create_dir_all (cache_dir self)) w) (fun _ => PCheck)
  | PCheck =>
      next (path_exists final_path w) (fun b : bool => if b then PDone (Ok final_path) else POpen)
  | POpen => next (io_map_err Io (open_truncate tmp_path) w) PGet
  | PGet h => next (io_lift replies_of w) (fun rs => PRecv rs h false false)
  | PRecv [] h gl ga => (after_replies h gl ga, w)
  | PRecv (r :: rs) h gl _ => next (io_lift (check_reply r) w) (fun '(hd, b) => PSeek hd b rs h gl)
  | PSeek hd b rs h gl =>
      next (io_map_err Io (seek_start h (offset hd)) w) (fun h => PWrite hd b rs h gl)
  | PWrite hd b rs h gl =>
      next (io_map_err Io (write_all h b) w)
        (fun h => PRecv rs h (if last hd then true else gl) true)
  | PFlush h => next (io_map_err Io (flush h) w) (fun _ => PHashOpen)
  | PHashOpen => next (io_map_err Io (open_read tmp_path) w) (fun file => PHash file hasher_new)
  | PHash file hasher =>
      next (io_map_err Io (file_read file CHUNK_SIZE) w) (fun '(buf, file) =>
        if decide (length buf = 0) then after_hash (hex_encode (hasher_finalize hasher))
        else PHash file (hasher_update hasher buf))
  | PCleanup e => next (io_ignore (remove_file tmp_path) w) (fun _ => PDone (Err e))
  | PRename => next (io_map_err Io (rename tmp_path final_path) w) (fun _ => PDone (Ok final_path))
  | PDone r => (PDone r, w)
  end.

Fixpoint pull_run (n : nat) (s : pull_pc * World) : pull_pc * World :=
  match n with
  | 0 => s
  | S n => pull_run n (pull_step s.1 s.2)
  end.

(** [s] runs to the result and world [x]. *)
Definition computes (s : pull_pc * World) (x : result string TransferError * World) : Prop :=
  exists n, pull_run n s = (PDone x.1, x.2).

Lemma computes_done r w : computes (PDone r, w) (r, w).
Proof. by exists 0. Qed.

Lemma computes_step pc w x : computes (pull_step pc w) x -> computes (pc, w) x.
Proof. intros [n Hn]. by exists (S n). Qed.

Lemma computes_next {A} (m : io A TransferError) k k' w :
  (forall a w1, m w = (Ok a, w1) -> computes (k a, w1) (k' a w1)) ->
  computes (next (m w) k) (io_bind m k' w).
Proof.
  intros Hk. unfold io_bind, next. destruct (m w) as [[a|e] w1] eqn:E; [by apply Hk|].
  apply computes_done.
Qed.

Lemma cleanup_computes e w :
  computes (PCleanup e, w) ((let! _ := io_ignore (remove_file tmp_path) in io_fail e) w).
Proof. apply computes_step, computes_next. intros [] w1 _. apply computes_done. Qed.

Lemma recv_computes K rs h gl ga w :
  (forall h gl ga w, computes (after_replies h gl ga, w) (K (h, gl, ga) w)) ->
  computes (PRecv rs h gl ga, w) (io_bind (recv_loop rs h gl ga) K w).
Proof.
  intros HK. revert h gl ga w; induction rs as [|r rs IH]; intros h gl ga w;
    apply computes_step; [apply HK|].
  cbn [recv_loop]. rewrite io_bind_assoc. apply computes_next. intros [hd b] w1 _.
  apply computes_step. rewrite io_bind_assoc. apply computes_next. intros h1 w2 _.
  apply computes_step. rewrite io_bind_assoc. apply computes_next. intros h2 w3 _. apply IH.
Qed.

(** Enough fuel makes the loop run to the end of the file, as the machine does. *)
Lemma hash_computes K fuel file hasher w :
  length (drop (rd_pos file) (content_of w (rd_path file))) < fuel ->
  (forall hs w, computes (after_hash (hex_encode (hasher_finalize hs)), w) (K hs w)) ->
  computes (PHash file hasher, w) (io_bind (hash_loop fuel file hasher) K w).
Proof.
  intros Hf HK. revert file hasher w Hf; induction fuel as [|fuel IH];
    intros file hasher w Hf; [lia|]. apply computes_step.
  cbn [hash_loop]. rewrite io_bind_assoc. apply computes_next. intros [buf f1] w1 Hr%io_map_err_ok.
  apply file_read_ok in Hr as (Hfl & _ & _ & _ & Hrest & -> & _ & _ & _); [|done].
  case_decide as Hb; [apply HK|]. apply IH. unfold content_of in *. rewrite Hfl.
  cbn [rd_path rd_pos] in *. rewrite Hrest, length_app in Hf. lia.
Qed.

Lemma root_hash_computes K w :
  (forall root w, computes (after_hash root, w) (K root w)) ->
  computes (PHashOpen, w) (io_bind (root_hash tmp_path) K w).
Proof.
  intros HK. apply computes_step. unfold root_hash. rewrite io_bind_assoc. apply computes_next.
  intros h w1 Ho%io_map_err_ok. apply open_read_ok in Ho as (-> & _). rewrite io_bind_assoc.
  apply (hash_computes (fun hs => io_bind (io_ret (hex_encode (hasher_finalize hs))) K)).
  - cbn [rd_path rd_pos]. rewrite drop_0. lia.
  - intros hs w2. apply HK.
Qed.

Lemma pull_computes w : computes (PStart, w) (pull_with_options self peer digest_hex opts w).
Proof.
  apply computes_step, computes_next. intros [] w1 _.
  apply computes_step, computes_next. intros [] w2 _; [apply computes_done|].
  apply computes_step, computes_next. intros h w3 _.
  apply computes_step, computes_next. intros rs w4 _.
  apply recv_computes. clear. intros h gl ga w. unfold after_replies.
  destruct ga; cbn [negb]; [|apply cleanup_computes].
  destruct gl; cbn [negb]; [|apply cleanup_computes].
  apply computes_step, computes_next. intros [] w1 _.
  apply root_hash_computes. clear. intros root w. unfold after_hash.
  case_decide; [apply cleanup_computes|].
  apply computes_step, computes_next. intros [] w1 _. apply computes_done.
Qed.

End Step.
End Machine.

(** ** Many pulls over one cache *)

Section System.
Context `{HexCrate, Blake3Crate, JsonCrate}.

Record pull_task := mk_task {
  t_peer : PeerId;
  t_digest : string;
  t_opts : PullOptions;
  t_pc : pull_pc;
}.

Definition set_pc (pc : pull_pc) (t : pull_task) : pull_task :=
  mk_task (t_peer t) (t_digest t) (t_opts t) pc.

Definition running (pc : pull_pc) : bool := match pc with PDone _ => false | _ => true end.

Context (self : TransferService).

Definition task_tmp (t : pull_task) : string := tmp_path self (t_digest t).
Definition task_final (t : pull_task) : string := final_path self (t_digest t).

Definition task_step (t : pull_task) (w : World) : pull_task * World :=
  let (pc, w') := pull_step self (t_peer t) (t_digest t) (t_opts t) (t_pc t) w in (set_pc pc t, w').

(** One running pull performs its next operation. *)
Inductive pulls_step : list pull_task * World -> list pull_task * World -> Prop :=
| pulls_step_task ts i t t' w w' :
    ts !! i = Some t -> running (t_pc t) = true -> task_step t w = (t', w') ->
    pulls_step (ts, w) (<[i := t']> ts, w').

(** An execution: the pulls named by a list perform one operation each, in order. *)
Fixpoint schedule (order : list nat) (s : list pull_task * World) : list pull_task * World :=
  match order with
  | [] => s
  | i :: order =>
      schedule order
        match s.1 !! i with
        | Some t =>
            if running (t_pc t) then let (t', w') := task_step t s.2 in (<[i := t']> s.1, w') else s
        | None => s
        end
  end.

Lemma schedule_reachable order s : rtc pulls_step s (schedule order s).
Proof.
  revert s; induction order as [|i order IH]; intros [ts w]; cbn; [done|].
  destruct (ts !! i) as [t|] eqn:Hi; [|apply IH].
  destruct (running (t_pc t)) eqn:Hr; [|apply IH].
  destruct (task_step t w) as [t' w'] eqn:Hs. eapply rtc_l; [|apply IH]. by econstructor.
Qed.

(** A pull that has not begun. *)
Definition fresh (t : pull_task) : Prop := t_pc t = PStart.

(** Two pulls share no path. *)
Definition separate (t u : pull_task) : Prop :=
  task_tmp t <> task_tmp u /\ task_tmp t <> task_final u /\
  task_final t <> task_tmp u /\ task_final t <> task_final u.

Definition separated (ts : list pull_task) : Prop :=
  forall i j t u, i <> j -> ts !! i = Some t -> ts !! j = Some u -> separate t u.

Lemma task_step_same t w t' w' :
  task_step t w = (t', w') ->
  t_peer t' = t_peer t /\ t_digest t' = t_digest t /\ t_opts t' = t_opts t /\
  pull_step self (t_peer t) (t_digest t) (t_opts t) (t_pc t) w = (t_pc t', w').
Proof. unfold task_step. destruct (pull_step _ _ _ _ _ _) as [pc w1]. by intros [= <- <-]. Qed.

Lemma separated_insert ts i t t' :
  separated ts -> ts !! i = Some t -> t_digest t' = t_digest t -> separated (<[i := t']> ts).
Proof.
  intros Hs Hi Hd j k u v Hjk Hj Hk. unfold separate, task_tmp, task_final.
  assert (forall l x, <[i := t']> ts !! l = Some x -> exists y, ts !! l = Some y /\ t_digest x = t_digest y)
    as Hl.
  { intros l x. rewrite list_lookup_insert. case_decide as Hl'; [destruct Hl' as [<- _]; intros [= <-]|]; eauto. }
  apply Hl in Hj as (u' & Hu & ->), Hk as (v' & Hv & ->). exact (Hs j k u' v' Hjk Hu Hv).
Qed.

(** *** Rely and guarantee

    A property [J] of a task and the world holds of every task in every reachable
    state if the task's own steps keep it while changing only the task's files and
    the rest of the world as [R] says, and if it only depends on the task's files
    and survives such changes of the rest. *)
Section RelyGuarantee.
Context (J : pull_task -> World -> Prop) (R : World -> World -> Prop).
Context (guarantee : forall t w t' w',
  J t w -> task_step t w = (t', w') ->
  J t' w' /\ R w w' /\
  forall q, q <> task_tmp t -> q <> task_final t -> w_files w' !! q = w_files w !! q).
Context (rely : forall t w w',
  J t w -> R w w' ->
  w_files w' !! task_tmp t = w_files w !! task_tmp t ->
  w_files w' !! task_final t = w_files w !! task_final t -> J t w').

Definition all_tasks (s : list pull_task * World) : Prop :=
  separated s.1 /\ Forall (fun t => J t s.2) s.1.

Lemma all_tasks_step s s' : pulls_step s s' -> all_tasks s -> all_tasks s'.
Proof.
  intros [ts i t t' w w' Hi _ Hstep] [Hsep Hall]. cbn in *.
  pose proof (task_step_same _ _ _ _ Hstep) as (_ & Hd & _).
  pose proof (Forall_lookup_1 _ _ _ _ Hall Hi) as HJ. cbn in HJ.
  destruct (guarantee t w t' w' HJ Hstep) as (HJ' & HR & Hframe).
  split; cbn; [by eapply separated_insert|].
  apply Forall_lookup. intros j u. rewrite list_lookup_insert. case_decide as Hj.
  - destruct Hj as [<- _]. by intros [= <-].
  - intros Hu. assert (i <> j) as Hij.
    { intros ->. apply lookup_lt_Some in Hi. tauto. }
    pose proof (Hsep i j t u Hij Hi Hu) as (Htt & Htf & Hft & Hff).
    eapply rely; [exact (Forall_lookup_1 _ _ _ _ Hall Hu)|exact HR|apply Hframe; congruence..].
Qed.

Lemma all_tasks_reachable s s' : rtc pulls_step s s' -> all_tasks s -> all_tasks s'.
Proof. induction 1; [done|]. eauto using all_tasks_step. Qed.

End RelyGuarantee.
End System.

(** ** One step of a pull *)

Section StepFacts.
Context `{HexCrate, Blake3Crate, JsonCrate}.

(** The open files of a pull are its [.partial] file. *)
Definition handles_ok (tmp : string) (pc : pull_pc) : Prop :=
  match pc with
  | PGet h | PRecv _ h _ _ | PSeek _ _ _ h _ | PWrite _ _ _ h _ | PFlush h => wr_path h = tmp
  | PHash file _ => rd_path file = tmp
  | _ => True
  end.

Lemma renaming_dec (pc : pull_pc) : {pc = PRename} + {pc <> PRename}.
Proof. destruct pc; (left; reflexivity) || (right; discriminate). Qed.

Lemma next_inv {A} (x : result A TransferError * World) k pc w :
  next x k = (pc, w) ->
  (exists a, x = (Ok a, w) /\ pc = k a) \/ (exists e, x = (Err e, w) /\ pc = PDone (Err e)).
Proof. destruct x as [[a|e] w1]; cbn; intros [= <- <-]; eauto. Qed.

Context (self : TransferService) (peer : PeerId) (d : string) (opts : PullOptions).
Local Abbreviation step := (pull_step self peer d opts).
Local Abbreviation tmp := (tmp_path self d).
Local Abbreviation final := (final_path self d).

Lemma step_handles pc w pc' w' : handles_ok tmp pc -> step pc w = (pc', w') -> handles_ok tmp pc'.
Proof.
  destruct pc as [| | |h|[|r rs] h gl ga|hd b rs h gl|hd b rs h gl|h| |file hs|e| |r];
    cbn [pull_step]; intros Hh Hs;
    try (apply next_inv in Hs as [(a & Hx & ->)|(e' & _ & ->)]; [|exact I]); try exact I.
  - by destruct a.
  - by apply io_map_err_ok, open_truncate_path in Hx.
  - exact Hh.
  - injection Hs as <- <-. unfold after_replies. by destruct ga, gl.
  - by destruct a.
  - apply io_map_err_ok, seek_start_path in Hx. cbn in *. congruence.
  - apply io_map_err_ok, write_all_path in Hx. cbn in *. congruence.
  - by apply io_map_err_ok, open_read_ok in Hx as (-> & _).
  - destruct a as [buf f1]. apply io_map_err_ok, file_read_ok in Hx as (_ & _ & _ & _ & _ & -> & _); [|done].
    unfold after_hash. by repeat case_decide.
  - injection Hs as <- _. exact I.
Qed.

(** Until the rename, only the [.partial] file changes. *)
Lemma step_keeps I pc w pc' w' :
  off_path tmp I -> handles_ok tmp pc -> pc <> PRename ->
  step pc w = (pc', w') -> I (w_files w) -> I (w_files w').
Proof.
  intros HI Hh Hr. assert (forall A (m : io A TransferError) k,
    keeps I m -> next (m w) k = (pc', w') -> I (w_files w) -> I (w_files w')) as Hk.
  { intros A m k Hm [(a & Hx & _)|(e & Hx & _)]%next_inv; eapply Hm; exact Hx. }
  destruct pc as [| | |h|[|r rs] h gl ga|hd b rs h gl|hd b rs h gl|h| |file hs|e| |r];
    cbn [pull_step]; try done; try (apply Hk; eauto with furcate).
  all: by intros [= _ <-].
Qed.

Lemma step_dirs pc w pc' w' : step pc w = (pc', w') -> dirs_within (cache_dir self) w w'.
Proof.
  set (R := dirs_within (cache_dir self)). assert (forall A (m : io A TransferError) k,
    respects R m -> next (m w) k = (pc', w') -> R w w') as Hk.
  { intros A m k Hm [(a & Hx & _)|(e & Hx & _)]%next_inv; eapply Hm; exact Hx. }
  destruct pc as [| | |h|[|r rs] h gl ga|hd b rs h gl|hd b rs h gl|h| |file hs|e| |r];
    cbn [pull_step]; try (apply Hk; eauto with furcate typeclass_instances).
  all: by intros [= _ <-].
Qed.

Lemma step_rename w pc' w' :
  step PRename w = (pc', w') ->
  (exists e, pc' = PDone (Err e) /\ w_files w' = w_files w) \/
  (pc' = PDone (Ok final) /\ exists f, w_files w !! tmp = Some f /\
     w_files w' = <[final := f]> (delete tmp (w_files w))).
Proof.
  intros [([] & Hx & ->)|(e & Hx & ->)]%next_inv.
  - right. apply io_map_err_ok, rename_ok in Hx. eauto.
  - left. exists e. split; [done|]. apply io_map_err_err in Hx as (e' & Hx & _).
    exact (rename_err_keeps (fun m => m = w_files w) tmp final w e' w' Hx eq_refl).
Qed.

(** Any step only touches the two paths of the pull. *)
Lemma step_frame pc w pc' w' q :
  handles_ok tmp pc -> step pc w = (pc', w') -> q <> tmp -> q <> final ->
  w_files w' !! q = w_files w !! q.
Proof.
  intros Hh Hs Ht Hf. destruct (renaming_dec pc) as [->|Hr].
  - apply step_rename in Hs as [(e & _ & ->)|(_ & f & _ & ->)]; [done|].
    by rewrite lookup_insert_ne, lookup_delete_ne.
  - exact (step_keeps _ pc w pc' w' (off_path_lookup tmp q (w_files w !! q) Ht) Hh Hr Hs eq_refl).
Qed.

End StepFacts.

(** ** Integrity, whatever fails and whatever the replies *)

Section Integrity.
Context `{HexCrate, Blake3Laws, JsonCrate} (self : TransferService).

(** Whatever is cached under the digest hashes to it. *)
Definition cache_sound (d : string) (m : gmap string File) : Prop :=
  forall f, m !! final_path self d = Some f -> ChunkVerifier_hash (f_content f) = d.

(** What the state says about the [.partial] file and the cache. *)
Definition pc_sound (d : string) (pc : pull_pc) (w : World) : Prop :=
  match pc with
  | PHash file hasher => exists chunks,
      hasher = fold_left hasher_update chunks hasher_new /\
      concat chunks ++ drop (rd_pos file) (content_of w (tmp_path self d)) =
        content_of w (tmp_path self d)
  | PRename => forall f, w_files w !! tmp_path self d = Some f -> ChunkVerifier_hash (f_content f) = d
  | PDone (Ok p) => p = final_path self d /\ (is_file w p = true \/ is_dir w p = true)
  | _ => True
  end.

Definition task_sound (t : pull_task) (w : World) : Prop :=
  handles_ok (task_tmp self t) (t_pc t) /\ cache_sound (t_digest t) (w_files w) /\
  pc_sound (t_digest t) (t_pc t) w.

Lemma cache_sound_off d : off_path (tmp_path self d) (cache_sound d).
Proof.
  intros m m' Hm Hs f. rewrite <- Hm; [apply Hs|]. intros E. by apply (tmp_ne_final self d).
Qed.

Lemma step_cache_sound peer d opts pc w pc' w' :
  handles_ok (tmp_path self d) pc -> pc_sound d pc w ->
  pull_step self peer d opts pc w = (pc', w') ->
  cache_sound d (w_files w) -> cache_sound d (w_files w').
Proof.
  intros Hh Hp Hs. destruct (renaming_dec pc) as [->|Hr].
  - apply step_rename in Hs as [(e & _ & ->)|(_ & f & Hf & ->)]; [done|].
    intros _ f'. rewrite lookup_insert_eq. intros [= <-]. by apply Hp.
  - exact (step_keeps self peer d opts _ pc w pc' w' (cache_sound_off d) Hh Hr Hs).
Qed.

Lemma hash_step_sound peer d opts file hs w pc' w' :
  rd_path file = tmp_path self d -> pc_sound d (PHash file hs) w ->
  pull_step self peer d opts (PHash file hs) w = (pc', w') -> pc_sound d pc' w'.
Proof.
  intros Hh (chunks & -> & Hc) [([buf f1] & Hx & ->)|(e & Hx & ->)]%next_inv; [|exact I].
  apply io_map_err_ok, file_read_ok in Hx as (Hf & _ & _ & _ & Hrest & -> & _ & Hnil & _); [|done].
  assert (content_of w' (tmp_path self d) = content_of w (tmp_path self d)) as Hcw
    by (unfold content_of; by rewrite Hf).
  rewrite Hh in *. case_decide as Hb.
  - apply nil_length_inv in Hb as ->. rewrite (proj1 Hnil eq_refl), app_nil_r in Hc.
    unfold after_hash. case_decide as Hd; [exact I|]. intros f Hfile.
    rewrite hasher_streams, Hc in Hd. unfold content_of in Hd. rewrite <- Hf, Hfile in Hd.
    destruct (decide (ChunkVerifier_hash (f_content f) = d)); [done|]. by destruct Hd.
  - exists (chunks ++ [buf]). rewrite fold_left_app. split; [done|].
    rewrite Hcw. cbn [rd_pos] in *. rewrite concat_app; cbn.
    by rewrite app_nil_r, <- app_assoc, <- Hrest.
Qed.

Lemma step_pc_sound peer d opts pc w pc' w' :
  handles_ok (tmp_path self d) pc -> pc_sound d pc w ->
  pull_step self peer d opts pc w = (pc', w') -> pc_sound d pc' w'.
Proof.
  destruct pc as [| | |h|[|r rs] h gl ga|hd b rs h gl|hd b rs h gl|h| |file hs|e| |r];
    intros Hh Hp Hs; [..|by injection Hs as <- <-];
    try (by eapply hash_step_sound); cbn [pull_step] in Hs;
    try (apply next_inv in Hs as [(a & Hx & ->)|(e' & _ & ->)]; [|exact I]); try exact I.
  - destruct a; [|exact I]. apply path_exists_ok in Hx as (Hf & Hd & Hex). split; [done|].
    unfold is_file, is_dir, dir_exists in *. rewrite Hf, Hd. by apply Hex.
  - injection Hs as <- <-. unfold after_replies. by destruct ga, gl.
  - by destruct a.
  - apply io_map_err_ok, open_read_ok in Hx as (-> & _). exists []. by rewrite drop_0.
  - destruct a. apply io_map_err_ok, rename_ok in Hx as (f & _ & Hf). split; [done|]. left.
    unfold is_file. rewrite Hf, lookup_insert_eq. by apply bool_decide_eq_true.
Qed.

Lemma sound_guarantee t w t' w' :
  task_sound t w -> task_step self t w = (t', w') ->
  task_sound t' w' /\ dirs_grow w w' /\
  forall q, q <> task_tmp self t -> q <> task_final self t -> w_files w' !! q = w_files w !! q.
Proof.
  intros (Hh & Hc & Hp) (_ & Hd & _ & Hs)%task_step_same.
  split; [|split; [exact (proj1 (step_dirs _ _ _ _ _ _ _ _ Hs))|intros q; by eapply step_frame]].
  unfold task_sound, task_tmp in *. rewrite Hd. split_and!.
  - by eapply step_handles.
  - by eapply step_cache_sound.
  - by eapply step_pc_sound.
Qed.

Lemma sound_rely t w w' :
  task_sound t w -> dirs_grow w w' ->
  w_files w' !! task_tmp self t = w_files w !! task_tmp self t ->
  w_files w' !! task_final self t = w_files w !! task_final self t -> task_sound t w'.
Proof.
  intros (Hh & Hc & Hp) HR Ht Hf. unfold task_tmp, task_final in *.
  split_and!; [done|unfold cache_sound; by rewrite Hf|].
  destruct (t_pc t) as [| | | | | | | | |file hs|e| |[p|e]]; try done; cbn [pc_sound] in *.
  - unfold content_of in *. by rewrite Ht.
  - by rewrite Ht.
  - destruct Hp as [-> [Hp|Hp]]; (split; [done|]); [left|right; by eapply is_dir_grows].
    unfold is_file in *. by rewrite Hf.
Qed.

Lemma sound_initially ts w :
  separated self ts -> Forall fresh ts ->
  Forall (fun t => cache_sound (t_digest t) (w_files w)) ts ->
  all_tasks self task_sound (ts, w).
Proof.
  intros Hsep Hfr Hc. split; [done|]. rewrite Forall_forall in *. intros t Ht.
  unfold task_sound. rewrite (Hfr t Ht). split_and!; [exact I|by apply Hc|exact I].
Qed.

Lemma sound_reachable ts w s :
  separated self ts -> Forall fresh ts ->
  Forall (fun t => cache_sound (t_digest t) (w_files w)) ts ->
  rtc (pulls_step self) (ts, w) s -> all_tasks self task_sound s.
Proof.
  intros Hsep Hfr Hc Hr. eapply all_tasks_reachable; [exact sound_guarantee|exact sound_rely|exact Hr|].
  by apply sound_initially.
Qed.

(** C3: concurrent pulls never corrupt the cache. Let a service run any number of
    pulls of different paths at once, from a cache whose entries for their digests
    hash to them. In every state any interleaving of their operations reaches,
    whatever the replies and whatever I/O fails, each entry under one of the digests
    still hashes to it, and a pull that has succeeded returned its cache path, where
    an entry is. *)
Theorem concurrent_pulls_sound ts w ts' w' :
  separated self ts -> Forall fresh ts ->
  Forall (fun t => cache_sound (t_digest t) (w_files w)) ts ->
  rtc (pulls_step self) (ts, w) (ts', w') ->
  Forall (fun t => cache_sound (t_digest t) (w_files w') /\
    forall p, t_pc t = PDone (Ok p) ->
      p = task_final self t /\ (is_file w' p = true \/ is_dir w' p = true)) ts'.
Proof.
  intros Hsep Hfr Hc Hr. destruct (sound_reachable _ _ _ Hsep Hfr Hc Hr) as [_ Hall].
  eapply Forall_impl; [exact Hall|]. cbn. intros t (_ & Hs & Hp). split; [done|].
  intros p Hd. by rewrite Hd in Hp.
Qed.

End Integrity.

(** ** Termination *)

Section Termination.
Context `{HexCrate, Blake3Crate, JsonCrate} (self : TransferService).

(** The end of a reply's chunk in the file. *)
Definition chunk_end (r : Reply) : nat :=
  match check_reply r with
  | Ok (hd, b) => Z.to_nat (offset hd) + length b
  | Err _ => 0
  end.

(** The length the file can reach from [n] with the replies still to come. *)
Definition reach (n : nat) (rs : list Reply) : nat := fold_left Nat.max (chunk_end <$> rs) n.

(** An upper bound on the operations still to perform. *)
Definition recv_weight (n : nat) (rs : list Reply) : nat := 5 + 3 * length rs + reach n rs.

Definition pc_weight (d : string) (opts : PullOptions) (pc : pull_pc) (w : World) : nat :=
  let n := length (content_of w (tmp_path self d)) in
  let rs := match replies_of self d opts with Ok rs => rs | Err _ => [] end in
  match pc with
  | PStart => 4 + recv_weight 0 rs
  | PCheck => 3 + recv_weight 0 rs
  | POpen => 2 + recv_weight 0 rs
  | PGet _ => 1 + recv_weight n rs
  | PRecv rs _ _ _ => recv_weight n rs
  | PSeek hd b rs _ _ => 2 + recv_weight (Nat.max n (Z.to_nat (offset hd) + length b)) rs
  | PWrite _ b rs h _ => 1 + recv_weight (Nat.max n (Z.to_nat (wr_pos h) + length b)) rs
  | PFlush _ => 4 + n
  | PHashOpen => 3 + n
  | PHash file _ => 2 + (n - rd_pos file)
  | PCleanup _ | PRename => 1
  | PDone _ => 0
  end.

Definition weight (t : pull_task) (w : World) : nat := pc_weight (t_digest t) (t_opts t) (t_pc t) w.

Definition total (s : list pull_task * World) : nat := sum_list_with (fun t => weight t s.2) s.1.

Lemma reach_mono n m rs : n <= m -> reach n rs <= reach m rs.
Proof.
  unfold reach. revert n m; induction (chunk_end <$> rs) as [|k ks IH]; intros n m Hnm; cbn; [done|].
  apply IH. lia.
Qed.

Lemma reach_ge n rs : n <= reach n rs.
Proof.
  unfold reach. revert n; induction (chunk_end <$> rs) as [|k ks IH]; intros n; cbn; [done|].
  etransitivity; [|apply IH]. lia.
Qed.

Lemma put_at_length h data w :
  length (content_of (put_at h data w) (wr_path h)) <=
    Nat.max (length (content_of w (wr_path h))) (Z.to_nat (wr_pos h) + length data).
Proof.
  unfold content_of, put_at. cbn. rewrite lookup_alter_eq.
  destruct (w_files w !! wr_path h) as [f|]; cbn; [|lia].
  destruct data as [|b data]; [cbn; lia|]. rewrite splice_length by done. lia.
Qed.

Lemma write_all_length h data w h' w' :
  write_all h data w = (Ok h', w') ->
  length (content_of w' (wr_path h)) <=
    Nat.max (length (content_of w (wr_path h))) (Z.to_nat (wr_pos h) + length data).
Proof.
  unfold write_all. destruct data as [|b data]; [intros [= _ <-]; lia|].
  destruct (wr_err h); [done|]. intros (o & w1 & Hn & Hk)%io_bind_ok.
  apply next_outcome_inv in Hn as (_ & _ & Hf & _).
  assert (content_of w1 (wr_path h) = content_of w (wr_path h)) as <-
    by (unfold content_of; by rewrite Hf).
  destruct o as [|e n []]; injection Hk; intros <- _ || idtac; [apply put_at_length| |done].
  etransitivity; [apply put_at_length|]. rewrite length_take. lia.
Qed.

Lemma open_truncate_empty p w h w' : open_truncate p w = (Ok h, w') -> content_of w' p = [].
Proof.
  intros ([] & w1 & Hg & [= _ <-])%io_bind_ok. apply guarded_ok in Hg as (w2 & Hc & _).
  revert Hc. unfold create_truncate. repeat case_match; intros [= <-].
  unfold content_of. cbn. by rewrite lookup_insert_eq.
Qed.

Lemma same_length w w' p :
  w_files w' = w_files w -> length (content_of w' p) = length (content_of w p).
Proof. unfold content_of. by intros ->. Qed.

(** Every operation brings a running pull closer to its end. *)
Lemma step_weight peer d opts pc w pc' w' :
  handles_ok (tmp_path self d) pc -> running pc = true ->
  pull_step self peer d opts pc w = (pc', w') ->
  pc_weight d opts pc' w' < pc_weight d opts pc w.
Proof.
  destruct pc as [| | |h|[|r rs] h gl ga|hd b rs h gl|hd b rs h gl|h| |file hs|e| |r];
    intros Hh Hrun Hs; try done; cbn [pull_step] in Hs;
    try (apply next_inv in Hs as [(a & Hx & ->)|(e' & _ & ->)]; [|cbn; lia]);
    cbn [handles_ok] in Hh.
  - cbn. lia.
  - destruct a; cbn; lia.
  - apply io_map_err_ok in Hx. pose proof (open_truncate_empty _ _ _ _ Hx) as He.
    cbn [pc_weight]. rewrite He. cbn [length]. lia.
  - injection Hx as Hx <-. cbn [pc_weight]. rewrite Hx. lia.
  - injection Hs as <- <-. unfold after_replies. destruct ga, gl; cbn; lia.
  - destruct a as [hd b]. injection Hx as Hx <-. cbn [pc_weight]. unfold recv_weight, reach.
    cbn [fmap list_fmap fold_left length].
    assert (chunk_end r = Z.to_nat (offset hd) + length b) as -> by (unfold chunk_end; by rewrite Hx).
    lia.
  - apply io_map_err_ok in Hx. apply seek_start_ok in Hx as (-> & Hf & _). cbn [pc_weight wr_pos].
    rewrite (same_length w w') by done. lia.
  - apply io_map_err_ok in Hx. apply write_all_length in Hx. rewrite Hh in Hx. cbn [pc_weight].
    unfold recv_weight. pose proof (reach_mono _ _ rs Hx). lia.
  - apply io_map_err_ok in Hx. cbn [pc_weight].
    rewrite (same_length w w'); [lia|]. by refine (keeps_flush (fun m => m = w_files w) h w _ w' Hx eq_refl).
  - apply io_map_err_ok, open_read_ok in Hx as (-> & Hf & _). cbn [pc_weight rd_pos].
    rewrite (same_length w w') by done. lia.
  - destruct a as [buf f1].
    apply io_map_err_ok, file_read_ok in Hx as (Hf & _ & _ & _ & Hrest & -> & _ & _ & _); [|done].
    case_decide as Hb; [unfold after_hash; case_decide; cbn; lia|].
    cbn [pc_weight rd_pos]. rewrite (same_length w w') by done.
    rewrite Hh in Hrest. apply (f_equal length) in Hrest. rewrite length_app, !length_drop in Hrest.
    cbn [rd_pos] in Hrest. lia.
  - cbn. lia.
  - cbn. lia.
Qed.

Lemma weight_rely t w w' :
  w_files w' !! task_tmp self t = w_files w !! task_tmp self t -> weight t w' = weight t w.
Proof.
  unfold weight, pc_weight, content_of, task_tmp. by intros ->.
Qed.

Lemma sum_list_with_lt {A} (f g : A -> nat) l i x y :
  l !! i = Some x -> g y < f x ->
  (forall j z, j <> i -> l !! j = Some z -> g z = f z) ->
  sum_list_with g (<[i := y]> l) < sum_list_with f l.
Proof.
  intros Hi Hlt. revert i Hi; induction l as [|z l IH]; intros [|i]; cbn; try done.
  - intros [= ->] Hrest. enough (sum_list_with g l = sum_list_with f l) by lia.
    clear IH. assert (forall j z, l !! j = Some z -> g z = f z) as Hl
      by (intros j z; by apply (Hrest (S j))).
    clear Hrest. induction l as [|z l IH]; cbn; [done|]. rewrite (Hl 0 z eq_refl), IH; [done|].
    intros j. apply (Hl (S j)).
  - intros Hi Hrest. rewrite (Hrest 0 z) by done.
    apply Nat.add_lt_mono_l, IH; [done|]. intros j u Hj. apply (Hrest (S j)). lia.
Qed.

(** The part of the invariant that termination needs. *)
Definition handled (t : pull_task) (w : World) : Prop := handles_ok (task_tmp self t) (t_pc t).

Lemma handled_guarantee t w t' w' :
  handled t w -> task_step self t w = (t', w') ->
  handled t' w' /\ True /\
  forall q, q <> task_tmp self t -> q <> task_final self t -> w_files w' !! q = w_files w !! q.
Proof.
  intros Hh (_ & Hd & _ & Hs)%task_step_same. unfold handled, task_tmp in *. rewrite Hd.
  split; [by eapply step_handles|]. split; [done|]. intros q. by eapply step_frame.
Qed.

Lemma handled_initially ts w :
  separated self ts -> Forall fresh ts -> all_tasks self handled (ts, w).
Proof.
  intros Hsep Hfr. split; [done|]. eapply Forall_impl; [exact Hfr|].
  unfold handled. cbn. by intros t ->.
Qed.

Lemma total_decreases s s' :
  all_tasks self handled s -> pulls_step self s s' -> total s' < total s.
Proof.
  intros Hinv Hstep0. revert Hinv. destruct Hstep0 as [ts i t t' w w' Hi Hrun Hstep].
  intros [Hsep Hall]. cbn [fst snd] in *. unfold total; cbn [fst snd].
  pose proof (Forall_lookup_1 _ _ _ _ Hall Hi) as Hh. cbn in Hh.
  destruct (handled_guarantee t w t' w' Hh Hstep) as (_ & _ & Hframe).
  assert (weight t' w' < weight t w) as Hlt.
  { apply task_step_same in Hstep as (_ & Hd & Ho & Hs). unfold weight. rewrite Hd, Ho.
    by eapply step_weight. }
  eapply sum_list_with_lt; [exact Hi|exact Hlt|]. intros j u Hj Hu. apply weight_rely.
  pose proof (Hsep j i u t Hj Hu Hi) as (Htt & Htf & _). by apply Hframe.
Qed.

Lemma nsteps_total n s s' :
  all_tasks self handled s -> nsteps (pulls_step self) n s s' -> n + total s' <= total s.
Proof.
  intros Hinv Hn. induction Hn as [s|n s s1 s' Hstep Hn IH]; [lia|].
  pose proof (total_decreases _ _ Hinv Hstep).
  enough (all_tasks self handled s1) as Hinv1 by (specialize (IH Hinv1); lia).
  eapply all_tasks_step; [exact handled_guarantee|by intros|done..].
Qed.

Lemma can_complete s :
  all_tasks self handled s ->
  exists s', rtc (pulls_step self) s s' /\ Forall (fun t => running (t_pc t) = false) s'.1.
Proof.
  induction s as [[ts w] IH] using (well_founded_induction (Nat.lt_wf_0_projected total)). intros Hinv.
  destruct (decide (Forall (fun t => running (t_pc t) = false) ts)) as [Hd|Hn];
    [by exists (ts, w)|].
  apply not_Forall_Exists in Hn; [|apply _]. apply Exists_exists in Hn as (t & [i Hi]%list_elem_of_lookup & Hrun).
  cbn in Hrun. apply not_false_is_true in Hrun.
  destruct (task_step self t w) as [t' w'] eqn:Hstep.
  pose proof (pulls_step_task self ts i t t' w w' Hi Hrun Hstep) as Hst.
  destruct (IH _ (total_decreases _ _ Hinv Hst)) as (s' & Hr & Hd).
  { eapply all_tasks_step; [exact handled_guarantee|by intros|done..]. }
  exists s'. split; [by eapply rtc_l|done].
Qed.

(** C10: concurrent pulls terminate. From any start of pulls of different paths,
    every interleaving has at most [total] operations, a number computed from the
    replies of the session alone, so no run is infinite; and as long as some pull
    has not returned it can perform its next operation, so every run can be
    completed, to a state in which all pulls have returned. *)
Theorem concurrent_pulls_terminate ts w :
  separated self ts -> Forall fresh ts ->
  (forall n s, nsteps (pulls_step self) n (ts, w) s -> n <= total (ts, w)) /\
  (forall s, rtc (pulls_step self) (ts, w) s ->
     exists s', rtc (pulls_step self) s s' /\ Forall (fun t => running (t_pc t) = false) s'.1).
Proof.
  intros Hsep Hfr. pose proof (handled_initially ts w Hsep Hfr) as Hinv. split.
  - intros n s Hn. enough (n + total s <= total (ts, w)) by lia. by eapply nsteps_total.
  - intros s Hr. apply can_complete. eapply all_tasks_reachable; [|by intros|exact Hr|exact Hinv].
    exact handled_guarantee.
Qed.

End Termination.

(** ** Isolation: when no I/O fails, each pull does what it would do alone *)

Section Isolation.
Context `{HexLaws, Blake3Laws, JsonCrate} (self : TransferService) (w0 : World).

(** The directories that [create_dir_all] walks over. *)
Definition route : list string := strip_slashes (cache_dir self) :: ancestors (cache_dir self).
Definition cache_dirs : gset string := w_dirs w0 ∪ list_to_set (ancestors (cache_dir self)).

Definition task_fate (t : pull_task) : fate :=
  pull_fate (t_peer t) (t_digest t)
    (session_get (session self) (TRANSFER_ROOT +:+ "/" +:+ t_digest t) (timeout (t_opts t))).

(** The fate decided by the outcome of the receive loop, and by the assembled bytes. *)
Definition verdict (d : string) (c : list u8) : fate :=
  if decide (ChunkVerifier_hash c = d) then Cached c
  else Refused (RootVerify d (ChunkVerifier_hash c)) None.

Definition settle (peer : PeerId) (d : string)
    (x : result (list u8 * bool * bool) (TransferError * list u8)) : fate :=
  match x with
  | Err (e, c) => Refused e (Some c)
  | Ok (_, _, false) => Refused (PeerMissing peer d) None
  | Ok (_, false, true) => Refused (MalformedReply "stream ended without a final chunk") None
  | Ok (c, true, true) => verdict d c
  end.

(** What is known of a pull's [.partial] file, and how it decides the fate. *)
Definition pc_fate (t : pull_task) (pc : pull_pc) (w : World) : Prop :=
  let tmp := task_tmp self t in
  let settled := settle (t_peer t) (t_digest t) in
  match pc with
  | PStart | PCheck | POpen => True
  | PGet h => h = mk_writer tmp 0 None /\
      exists f, w_files w !! tmp = Some f /\ f_content f = []
  | PRecv rs h gl ga => exists f pos, w_files w !! tmp = Some f /\ h = mk_writer tmp pos None /\
      task_fate t = settled (assemble (f_content f) gl ga rs)
  | PSeek hd b rs h gl => exists f pos, w_files w !! tmp = Some f /\ h = mk_writer tmp pos None /\
      task_fate t = settled
        (if (offset hd <? 2 ^ 63)%Z then
           assemble (splice (f_content f) (Z.to_nat (offset hd)) b) (if last hd then true else gl) true rs
         else Err (Io InvalidInput, f_content f))
  | PWrite hd b rs h gl => exists f, w_files w !! tmp = Some f /\ h = mk_writer tmp (offset hd) None /\
      task_fate t = settled
        (assemble (splice (f_content f) (Z.to_nat (offset hd)) b) (if last hd then true else gl) true rs)
  | PFlush h => exists f pos, w_files w !! tmp = Some f /\ h = mk_writer tmp pos None /\
      task_fate t = verdict (t_digest t) (f_content f)
  | PHashOpen => exists f, w_files w !! tmp = Some f /\
      task_fate t = verdict (t_digest t) (f_content f)
  | PHash file hasher => exists f chunks, w_files w !! tmp = Some f /\ rd_path file = tmp /\
      task_fate t = verdict (t_digest t) (f_content f) /\
      hasher = fold_left hasher_update chunks hasher_new /\
      concat chunks ++ drop (rd_pos file) (f_content f) = f_content f
  | PCleanup e => is_Some (w_files w !! tmp) /\ task_fate t = Refused e None
  | PRename => exists f, w_files w !! tmp = Some f /\ task_fate t = Cached (f_content f)
  | PDone r =>
      match task_fate t with
      | Cached c => r = Ok (task_final self t) /\ w_files w !! tmp = None /\
          (f_content <$> w_files w !! task_final self t) = Some c
      | Refused e leftover => r = Err e /\ (f_content <$> w_files w !! tmp) = leftover
      end
  end.

Definition final_absent (t : pull_task) (pc : pull_pc) (w : World) : Prop :=
  match pc with
  | PDone (Ok _) => True
  | _ => w_files w !! task_final self t = None
  end.

Record isolated (t : pull_task) (w : World) : Prop := {
  iso_ready : ready self (t_digest t) w0;
  iso_paths : task_tmp self t ∉ route /\ task_final self t ∉ route;
  iso_quiet : quiet w;
  iso_route : existsb (is_file w) route = false;
  iso_dirs : w_dirs w = cache_dirs \/ (t_pc t = PStart /\ w_dirs w = w_dirs w0);
  iso_final : final_absent t (t_pc t) w;
  iso_fate : pc_fate t (t_pc t) w;
}.

Lemma pc_fate_handles t pc w : pc_fate t pc w -> handles_ok (task_tmp self t) pc.
Proof. destruct pc; cbn; naive_solver. Qed.

(** The conditions of [ready] that concern directories, once the cache exists. *)
Lemma ready_dirs d w :
  ready self d w0 -> w_dirs w = cache_dirs ->
  is_dir w (tmp_path self d) = false /\ is_dir w (final_path self d) = false /\
  dir_exists w (parent_dir (tmp_path self d)) = true /\
  dir_exists w (parent_dir (final_path self d)) = true.
Proof.
  intros [_ Ha Ht [Hp1 Hp2]%andb_true_iff] Hd. apply orb_false_iff in Ha as [_ Ha].
  unfold is_dir, dir_exists, with_cache in *. cbn in *. rewrite Hd. done.
Qed.

(** A step's effect: nothing fails, no directory changes, and the pull knows as
    much about its files as before. *)
Definition advances (t : pull_task) (w : World) (pc : pull_pc) (w' : World) : Prop :=
  quiet w' /\ w_dirs w' = w_dirs w /\ final_absent t pc w' /\ pc_fate t pc w'.

Section TaskStep.
Context (t : pull_task) (w : World).
Context (Hready : ready self (t_digest t) w0) (Hquiet : quiet w) (Hdirs : w_dirs w = cache_dirs).
Local Abbreviation step := (pull_step self (t_peer t) (t_digest t) (t_opts t)).
Local Abbreviation tmp := (task_tmp self t).
Local Abbreviation final := (task_final self t).

Lemma final_ne_tmp : final <> tmp.
Proof. intros E. by apply (tmp_ne_final self (t_digest t)). Qed.

(** Writing the [.partial] file leaves the cache entry absent. *)
Lemma tmp_write_absent (f : File) :
  w_files w !! final = None -> <[tmp := f]> (w_files w) !! final = None.
Proof. intros Hf. by rewrite lookup_insert_ne by (apply not_eq_sym, final_ne_tmp). Qed.

Lemma opening_advances pc :
  pc = PCheck \/ pc = POpen \/ (exists h, pc = PGet h) ->
  w_files w !! final = None -> pc_fate t pc w ->
  let (pc', w') := step pc w in advances t w pc' w'.
Proof.
  pose proof (ready_dirs _ w Hready Hdirs) as (Hd1 & Hd2 & Hp1 & Hp2).
  intros [->|[->|[h ->]]] Hfin Hfate; cbn [pull_step].
  - rewrite path_exists_quiet by done. unfold is_file.
    change (final_path self (t_digest t)) with final in *. rewrite Hfin, Hd2. cbn. by split_and!.
  - unfold io_map_err. rewrite open_truncate_quiet by done. cbn [map_err next].
    split_and!; [done..|by apply tmp_write_absent|]. split; [done|].
    exists (truncated w tmp). split; [apply lookup_insert_eq|done].
  - destruct Hfate as [-> (f & Hf & Hc)]. unfold io_lift, replies_of.
    destruct (session_get _ _ _) as [rs|msg] eqn:Eg; cbn [map_err next].
    + split_and!; [done..|]. exists f, 0%Z. split_and!; [done..|].
      unfold task_fate. rewrite Eg, Hc. done.
    + split_and!; [done..|]. cbn [pc_fate]. unfold task_fate. rewrite Eg. cbn [pull_fate].
      split; [done|]. by rewrite Hf; cbn; rewrite Hc.
Qed.

Lemma receiving_advances pc :
  (exists rs h gl ga, pc = PRecv rs h gl ga) \/
  (exists hd b rs h gl, pc = PSeek hd b rs h gl \/ pc = PWrite hd b rs h gl) ->
  w_files w !! final = None -> pc_fate t pc w ->
  let (pc', w') := step pc w in advances t w pc' w'.
Proof.
  intros [([|r rs] & h & gl & ga & ->)|(hd & b & rs & h & gl & [->| ->])] Hfin Hfate; cbn [pull_step].
  - destruct Hfate as (f & pos & Hf & -> & Hfate). cbn [assemble] in Hfate.
    unfold after_replies. split_and!; [done..| |]; destruct ga, gl; try done; cbn [negb pc_fate];
      cbn [settle] in Hfate; eauto.
  - destruct Hfate as (f & pos & Hf & -> & Hfate). cbn [assemble] in Hfate. unfold io_lift.
    destruct (check_reply r) as [[hd b]|e]; cbn [next]; (split_and!; [done..|]).
    + by exists f, pos.
    + cbn [pc_fate]. rewrite Hfate. cbn [settle]. by rewrite Hf.
  - destruct Hfate as (f & pos & Hf & -> & Hfate). unfold io_map_err. rewrite seek_start_quiet by done.
    destruct (offset hd <? 2 ^ 63)%Z; cbn [map_err next]; (split_and!; [done..|]).
    + by exists f.
    + cbn [pc_fate]. rewrite Hfate. cbn [settle]. by rewrite Hf.
  - destruct Hfate as (f & Hf & -> & Hfate). unfold io_map_err.
    destruct (write_all_quiet tmp (offset hd) b w f Hquiet Hf) as [pos ->]. cbn [map_err next].
    split_and!; [done..|by apply tmp_write_absent|]. eexists _, pos.
    split_and!; [apply lookup_insert_eq|done|done].
Qed.

Lemma finishing_advances pc :
  (exists h, pc = PFlush h) \/ pc = PHashOpen \/ (exists e, pc = PCleanup e) \/ pc = PRename ->
  w_files w !! final = None -> pc_fate t pc w ->
  let (pc', w') := step pc w in advances t w pc' w'.
Proof.
  pose proof (ready_dirs _ w Hready Hdirs) as (Hd1 & Hd2 & Hp1 & Hp2).
  intros [[h ->]|[->|[[e ->]| ->]]] Hfin Hfate; cbn [pull_step]; unfold io_map_err, io_ignore.
  - destruct Hfate as (f & pos & Hf & -> & Hfate). rewrite flush_quiet by done. cbn.
    split_and!; [done..|]. by exists f.
  - destruct Hfate as (f & Hf & Hfate). unfold open_read. rewrite guarded_quiet by done.
    change (tmp_path self (t_digest t)) with tmp.
    assert (is_file w tmp = true) as -> by (apply is_file_true; eauto). cbn.
    split_and!; [done..|]. exists f, []. by rewrite drop_0.
  - destruct Hfate as ([f Hf] & Hfate). rewrite (remove_file_quiet _ _ f) by done. cbn [next].
    split_and!; [done..| |].
    + cbn. by rewrite lookup_delete_ne by (apply not_eq_sym, final_ne_tmp).
    + cbn [pc_fate]. rewrite Hfate. split; [done|]. cbn. by rewrite lookup_delete_eq.
  - destruct Hfate as (f & Hf & Hfate). rewrite (rename_quiet _ _ _ f) by done. cbn [map_err next].
    split_and!; [done..|]. cbn [pc_fate]. rewrite Hfate. cbn. split_and!; [done| |].
    + rewrite lookup_insert_ne by apply final_ne_tmp. apply lookup_delete_eq.
    + by rewrite lookup_insert_eq.
Qed.

Lemma hashing_advances file hs :
  w_files w !! final = None -> pc_fate t (PHash file hs) w ->
  let (pc', w') := step (PHash file hs) w in advances t w pc' w'.
Proof.
  intros Hfin (f & chunks & Hf & Hp & Hfate & -> & Hc). cbn [pull_step].
  destruct (io_map_err Io (file_read file CHUNK_SIZE) w) as [[[buf f1]|e] w'] eqn:Er; cbn [next].
  2:{ exfalso. apply io_map_err_err in Er as (e' & Er & _).
      apply file_read_err in Er as [Ha|[_ Hn]]; [by apply (quiet_allows w e')|].
      rewrite Hp in Hn. assert (is_file w tmp = true) by (apply is_file_true; eauto). congruence. }
  apply io_map_err_ok, file_read_ok in Er as (Hfl & Hd & _ & Hcon & Hrest & -> & _ & Hnil & _); [|done].
  rewrite Hp in *. unfold content_of in Hrest, Hnil. rewrite Hf in Hrest, Hnil. cbn in Hrest, Hnil.
  assert (quiet w') as Hq' by (by eapply consumed_quiet).
  case_decide as Hb.
  - apply nil_length_inv in Hb as ->. rewrite (proj1 Hnil eq_refl), app_nil_r in Hc.
    rewrite hasher_streams, Hc. change (hex_encode (blake3_hash (f_content f)))
      with (ChunkVerifier_hash (f_content f)). unfold after_hash, verdict in *.
    split_and!; [done..| |]; repeat case_decide; try done; cbn; rewrite ?Hfl; eauto.
    all: by destruct (decide (ChunkVerifier_hash (f_content f) = t_digest t)).
  - split_and!; [done..|cbn; by rewrite Hfl|]. exists f, (chunks ++ [buf]).
    rewrite Hfl, fold_left_app. split_and!; [done..|]. rewrite concat_app; cbn.
    by rewrite app_nil_r, <- app_assoc, <- Hrest.
Qed.

End TaskStep.

(** Digests as senders announce them: 64 characters that do not start with a
    separator. *)
Definition digest_shaped (d : string) : Prop := String.length d = 64 /\ is_absolute d = false.

Lemma route_length q : q ∈ route -> String.length q <= String.length (cache_dir self).
Proof.
  pose proof (strip_slashes_length (cache_dir self)).
  intros [->|[_ Hq%prefixes_length]%list_elem_of_filter]%elem_of_cons; [done|]. cbn in Hq. lia.
Qed.

Lemma off_route d :
  digest_shaped d -> tmp_path self d ∉ route /\ final_path self d ∉ route.
Proof.
  intros [Hl Hrel]. destruct (path_join_relative (cache_dir self)) as (pre & Hpre & Hj).
  assert (String.length (cache_dir self) < String.length (final_path self d)) as Hlt.
  { unfold final_path, final_path_of. rewrite Hj by done. rewrite str_length_app. lia. }
  assert (String.length (final_path self d) <= String.length (tmp_path self d)) as Hle.
  { unfold tmp_path. rewrite tmp_path_partial. unfold final_path. rewrite str_length_app. lia. }
  split; intros Hq%route_length; lia.
Qed.

(** What the other pulls may change. *)
Definition quiet_change (w w' : World) : Prop :=
  quiet w' /\
  (w_dirs w' = w_dirs w \/ w_dirs w' = w_dirs w ∪ list_to_set (ancestors (cache_dir self))) /\
  forall q, q ∈ route -> w_files w' !! q = w_files w !! q.

Lemma route_change w w' :
  (forall q, q ∈ route -> w_files w' !! q = w_files w !! q) ->
  existsb (is_file w) route = false -> existsb (is_file w') route = false.
Proof.
  induction route as [|q l IH]; cbn; [done|]. intros Hq [Hw Hl]%orb_false_iff.
  apply orb_false_iff. unfold is_file in *. rewrite Hq by left. split; [done|].
  apply IH; [|done]. intros q' Hq'. apply Hq. by right.
Qed.

Lemma isolated_rely t w w' :
  isolated t w -> quiet_change w w' ->
  w_files w' !! task_tmp self t = w_files w !! task_tmp self t ->
  w_files w' !! task_final self t = w_files w !! task_final self t -> isolated t w'.
Proof.
  intros [Hr Hp Hq Hro Hd Hfin Hfate] (Hq' & Hd' & Hro') Ht Hf. split; try done.
  - by eapply route_change.
  - unfold cache_dirs in *. destruct Hd as [Hd|[Hs Hd]], Hd' as [Hd'|Hd']; rewrite Hd', Hd; try (by auto);
      left; set_solver.
  - unfold final_absent in *. rewrite Hf. done.
  - unfold pc_fate in *. cbn zeta in *. rewrite Hf, Ht. done.
Qed.

(** Once the cache directory exists, every step advances the pull. *)
Lemma running_advances t w :
  isolated t w -> w_dirs w = cache_dirs -> t_pc t <> PStart ->
  let (pc', w') := pull_step self (t_peer t) (t_digest t) (t_opts t) (t_pc t) w in advances t w pc' w'.
Proof.
  intros [Hr _ Hq _ _ Hfin Hfate] Hd Hs.
  destruct (t_pc t) as [| | |h|rs h gl ga|hd b rs h gl|hd b rs h gl|h| |file hs|e| |r]; [done|..].
  1-3: apply opening_advances; [done..|by eauto|exact Hfin|exact Hfate].
  1-3: apply receiving_advances; [done..|by eauto 10|exact Hfin|exact Hfate].
  1-2: apply finishing_advances; [done..|by eauto|exact Hfin|exact Hfate].
  1: apply hashing_advances; [done..|exact Hfin|exact Hfate].
  1-2: apply finishing_advances; [done..|by eauto|exact Hfin|exact Hfate].
  by split_and!.
Qed.

Lemma starting_dec (pc : pull_pc) : {pc = PStart} + {pc <> PStart}.
Proof. destruct pc; (left; reflexivity) || (right; discriminate). Qed.

Lemma start_step t w :
  isolated t w -> t_pc t = PStart ->
  pull_step self (t_peer t) (t_digest t) (t_opts t) PStart w =
    (PCheck, set_dirs (w_dirs w ∪ list_to_set (ancestors (cache_dir self))) w).
Proof.
  intros [_ _ Hq Hro _ _ _] Hs. cbn [pull_step]. unfold io_map_err.
  by rewrite create_dir_all_quiet.
Qed.

Lemma isolated_guarantee t w t' w' :
  isolated t w -> task_step self t w = (t', w') ->
  isolated t' w' /\ quiet_change w w' /\
  forall q, q <> task_tmp self t -> q <> task_final self t -> w_files w' !! q = w_files w !! q.
Proof.
  intros Hi Hstep. pose proof Hi as [Hr [Hp1 Hp2] Hq Hro Hd Hfin Hfate].
  assert (forall q, q <> task_tmp self t -> q <> task_final self t -> w_files w' !! q = w_files w !! q)
    as Hframe.
  { intros q. pose proof Hstep as (_ & _ & _ & Hs)%task_step_same.
    eapply step_frame; [|exact Hs]. by eapply pc_fate_handles. }
  assert (forall q, q ∈ route -> w_files w' !! q = w_files w !! q) as Hro'.
  { intros q Hin. apply Hframe; intros ->; contradiction. }
  assert (quiet_change w w' /\ isolated t' w') as [Hch Hi'];
    [|by split_and!].
  unfold task_step in Hstep.
  destruct (pull_step self (t_peer t) (t_digest t) (t_opts t) (t_pc t) w) as [pc w1] eqn:Es.
  injection Hstep as <- <-.
  destruct (starting_dec (t_pc t)) as [Hs|Hs].
  - rewrite Hs, (start_step t w Hi Hs) in Es. injection Es as <- <-. rewrite Hs in Hfin.
    split; [split_and!; [done|by right|done]|]. split; cbn; try done.
    left. unfold cache_dirs. destruct Hd as [->|[_ ->]]; [|done]. unfold cache_dirs. set_solver.
  - destruct Hd as [Hd|[? _]]; [|done]. pose proof (running_advances t w Hi Hd Hs) as Ha.
    rewrite Es in Ha. destruct Ha as (Hq' & Hd' & Hfin' & Hfate').
    split; [split_and!; [done|by left|done]|]. split; try done.
    + by eapply route_change.
    + left. congruence.
Qed.

Lemma isolated_initially ts :
  quiet w0 -> Forall fresh ts -> Forall (fun t => digest_shaped (t_digest t)) ts ->
  Forall (fun t => ready self (t_digest t) w0) ts -> Forall (fun t => isolated t w0) ts.
Proof.
  intros Hq Hfr Hd Hr. rewrite Forall_forall in *. intros t Ht.
  pose proof (Hr t Ht) as [Hc [Ha _]%orb_false_iff _ _]. destruct (Hd t Ht) as [Hl Hrel].
  split; rewrite ?(Hfr t Ht); try done; [by apply Hr| | |].
  - by apply off_route.
  - by right.
  - unfold is_file in Ha. apply bool_decide_eq_false in Ha. cbn.
    by apply eq_None_not_Some.
Qed.

(** Different digests use different paths. *)
Lemma distinct_separate t u :
  t_digest t <> t_digest u -> digest_shaped (t_digest t) -> digest_shaped (t_digest u) ->
  separate self t u.
Proof.
  intros Hne [Hlt Hrt] [Hlu Hru]. unfold separate, task_tmp, task_final, tmp_path, final_path.
  rewrite !tmp_path_partial. unfold final_path_of.
  destruct (path_join_relative (cache_dir self)) as (pre & _ & Hj). rewrite !Hj by done.
  assert (pre +:+ t_digest t <> pre +:+ t_digest u) as Hpre by (by intros E%str_app_inj_l).
  assert (String.length (pre +:+ t_digest t) = String.length (pre +:+ t_digest u)) as Hlen
    by (rewrite !str_length_app; lia).
  split_and!; try done; intros E.
  - by apply str_app_inj_length in E as [].
  - apply (f_equal String.length) in E. rewrite (str_length_app _ ".partial") in E. cbn in E. lia.
  - apply (f_equal String.length) in E. rewrite (str_length_app _ ".partial") in E. cbn in E. lia.
Qed.

Lemma distinct_separated ts :
  NoDup (t_digest <$> ts) -> Forall (fun t => digest_shaped (t_digest t)) ts -> separated self ts.
Proof.
  intros Hnd Hd i j t u Hij Ht Hu. rewrite Forall_forall in Hd.
  apply distinct_separate; [|apply Hd; by eapply list_elem_of_lookup_2..].
  intros E. apply Hij. eapply NoDup_lookup; [exact Hnd|rewrite list_lookup_fmap, Ht; done|].
  by rewrite list_lookup_fmap, Hu, E.
Qed.

(** What a pull that has returned did, next to what it does alone. *)
Lemma returned_as_alone t w r :
  quiet w0 -> isolated t w -> t_pc t = PDone r ->
  exists w1, pull_with_options self (t_peer t) (t_digest t) (t_opts t) w0 = (r, w1) /\
    (f_content <$> w_files w !! task_tmp self t) = (f_content <$> w_files w1 !! task_tmp self t) /\
    (f_content <$> w_files w !! task_final self t) = (f_content <$> w_files w1 !! task_final self t).
Proof.
  intros Hq0 [Hr _ _ _ _ Hfin Hfate] Hpc. rewrite Hpc in *. cbn [pc_fate final_absent] in *.
  pose proof Hr as [_ [Ha _]%orb_false_iff _ _]. unfold is_file in Ha.
  apply bool_decide_eq_false, eq_None_not_Some in Ha.
  change (final_path_of self (t_digest t)) with (task_final self t) in Ha.
  destruct (pull_quiet self (t_peer t) (t_digest t) (t_opts t) w0 Hq0 Hr) as (w1 & _ & _ & Hp).
  unfold task_fate in Hfate. pose proof (final_ne_tmp t) as Hne.
  change (tmp_path_of self (t_digest t)) with (task_tmp self t) in Hp.
  change (final_path_of self (t_digest t)) with (task_final self t) in Hp.
  destruct (pull_fate _ _ _) as [c|e leftover]; destruct Hp as [Hp Hf].
  - destruct Hfate as (-> & Ht & Hc). exists w1. split; [done|]. rewrite Hf, Ht, Hc.
    by rewrite lookup_insert_eq, lookup_insert_ne, lookup_delete_eq.
  - destruct Hfate as (-> & Ht). exists w1. split; [done|]. rewrite Hf, Ht, Hfin.
    destruct leftover as [c|].
    + by rewrite lookup_insert_eq, lookup_insert_ne, Ha by (by apply not_eq_sym).
    + by rewrite lookup_delete_eq, lookup_delete_ne, Ha by (by apply not_eq_sym).
Qed.

End Isolation.

Section Concurrency.
Context `{HexLaws, Blake3Laws, JsonCrate} (self : TransferService).

(** C9: the machine is [pull_with_options]: run alone from its first state, it
    reaches its end after finitely many operations, with the result and the world
    the function computes. So the fuel of the hashing loop is never exhausted: the
    loop of the source ends by itself, whatever I/O fails. *)
Theorem pull_machine_complete peer d opts w :
  exists n, pull_run self peer d opts n (PStart, w) =
    (PDone (pull_with_options self peer d opts w).1, (pull_with_options self peer d opts w).2).
Proof. apply pull_computes. Qed.

(** C8: concurrent pulls of different digests do not interfere. When no I/O
    fails, whatever the interleaving, every pull that has returned has the result it
    has when run alone in the initial world, and left the same bytes in its cache
    entry and its [.partial] file. *)
Theorem concurrent_pulls_isolated ts w ts' w' :
  quiet w -> NoDup (t_digest <$> ts) -> Forall (fun t => digest_shaped (t_digest t)) ts ->
  Forall fresh ts -> Forall (fun t => ready self (t_digest t) w) ts ->
  rtc (pulls_step self) (ts, w) (ts', w') ->
  Forall (fun t => forall r, t_pc t = PDone r ->
    exists w1, pull_with_options self (t_peer t) (t_digest t) (t_opts t) w = (r, w1) /\
      (f_content <$> w_files w' !! task_tmp self t) = (f_content <$> w_files w1 !! task_tmp self t) /\
      (f_content <$> w_files w' !! task_final self t) = (f_content <$> w_files w1 !! task_final self t))
    ts'.
Proof.
  intros Hq Hnd Hd Hfr Hr Hrun.
  assert (all_tasks self (isolated self w) (ts', w')) as [_ Hall].
  { eapply all_tasks_reachable; [exact (isolated_guarantee self w)|exact (isolated_rely self w)|exact Hrun|].
    split; [by apply distinct_separated|by apply isolated_initially]. }
  eapply Forall_impl; [exact Hall|]. cbn. intros t Hi r Hpc. by eapply returned_as_alone.
Qed.

End Concurrency.

(** ** Two pulls of one digest *)

Section Race.
Context `{HexLaws, Blake3Laws, JsonCrate} (self : TransferService) (w0 : World).

Lemma first_steps a a' b w w' :
  running (t_pc a) = true -> task_step self a w = (a', w') ->
  pulls_step self ([a; b], w) ([a'; b], w').
Proof. exact (pulls_step_task self [a; b] 0 a a' w w' eq_refl). Qed.

Lemma second_steps a b b' w w' :
  running (t_pc b) = true -> task_step self b w = (b', w') ->
  pulls_step self ([a; b], w) ([a; b'], w').
Proof. exact (pulls_step_task self [a; b] 1 b b' w w' eq_refl). Qed.

(** Before its rename, a pull that will succeed has not returned. *)
Lemma cached_runs_on t w t' w' c :
  isolated self w0 t w -> task_fate self t = Cached c -> running (t_pc t) = true ->
  t_pc t <> PRename -> task_step self t w = (t', w') -> running (t_pc t') = true.
Proof.
  intros Hi Hc Hrun Hn Hs. destruct (isolated_guarantee self w0 t w t' w' Hi Hs) as (Hi' & _ & _).
  apply task_step_same in Hs as (Hp & Hd & Ho & Hs).
  destruct (t_pc t') as [| | | | | | | | | | | |r] eqn:Epc; try done. exfalso.
  pose proof (iso_fate _ _ _ _ Hi') as Hf. rewrite Epc in Hf. cbn [pc_fate] in Hf.
  assert (task_fate self t' = Cached c) as Hc' by (unfold task_fate; by rewrite Hp, Hd, Ho).
  rewrite Hc' in Hf. destruct Hf as (_ & _ & Hf).
  assert (w_files w !! task_final self t = None) as Hnone.
  { pose proof (iso_final _ _ _ _ Hi) as Ha. by destruct (t_pc t). }
  enough (w_files w' !! task_final self t = None) as Hnone'.
  { unfold task_final in *. rewrite Hd, Hnone' in Hf. done. }
  refine (step_keeps self _ _ _ (fun m => m !! task_final self t = None) _ _ _ _ _ _ Hn Hs Hnone).
  - apply off_path_lookup, final_ne_tmp.
  - eapply pc_fate_handles, iso_fate, Hi.
Qed.

(** It reaches its rename, whatever waits beside it. *)
Lemma reaches_rename t u w c :
  isolated self w0 t w -> task_fate self t = Cached c -> running (t_pc t) = true ->
  exists w1, rtc (pulls_step self) ([t; u], w) ([set_pc PRename t; u], w1) /\
    isolated self w0 (set_pc PRename t) w1.
Proof.
  remember (weight self t w) as k eqn:Ek. revert t w Ek.
  induction k as [k IH] using (well_founded_induction Nat.lt_wf_0). intros t w -> Hi Hc Hrun.
  destruct (renaming_dec (t_pc t)) as [Hr|Hn].
  { exists w. replace (set_pc PRename t) with t by (destruct t; cbn in *; by subst). done. }
  destruct (task_step self t w) as [t' w'] eqn:Hs.
  pose proof (cached_runs_on t w t' w' c Hi Hc Hrun Hn Hs) as Hrun'.
  destruct (isolated_guarantee self w0 t w t' w' Hi Hs) as (Hi' & _ & _).
  pose proof (task_step_same self _ _ _ _ Hs) as (Hp & Hd & Ho & Hstep).
  destruct (IH (weight self t' w')) with (t := t') (w := w') as (w1 & Hr & Hi1); try done.
  - unfold weight. rewrite Hd, Ho. eapply step_weight; [|done|exact Hstep].
    eapply pc_fate_handles, iso_fate, Hi.
  - unfold task_fate. by rewrite Hp, Hd, Ho.
  - assert (set_pc PRename t' = set_pc PRename t) as <- by (unfold set_pc; by rewrite Hp, Hd, Ho).
    exists w1. split; [|done]. eapply rtc_l; [|exact Hr].
    by apply first_steps.
Qed.

(** The steps of the second pull up to its open, which empties the [.partial] file. *)
Lemma second_opens t u w :
  isolated self w0 (set_pc PRename t) w -> t_digest u = t_digest t -> fresh u ->
  exists u' w', rtc (pulls_step self) ([set_pc PRename t; u], w) ([set_pc PRename t; u'], w') /\
    quiet w' /\ w_dirs w' = cache_dirs self w0 /\
    w_files w' = <[task_tmp self t := truncated w (task_tmp self t)]> (w_files w).
Proof.
  intros [Hr Hp Hq Hro Hd Hfin Hfate] Hdig Hfr. cbn [t_pc set_pc] in *.
  destruct Hd as [Hd|[? _]]; [|done]. cbn [t_digest set_pc final_absent] in *.
  set (w1 := set_dirs (w_dirs w ∪ list_to_set (ancestors (cache_dir self))) w).
  assert (w_dirs w1 = cache_dirs self w0) as Hd1.
  { cbn. rewrite Hd. unfold cache_dirs. set_solver. }
  pose proof (ready_dirs self w0 _ w1 Hr Hd1) as (Hi1 & Hi2 & Hp1 & Hp2).
  change (final_path self (t_digest t)) with (task_final self t) in *.
  change (tmp_path self (t_digest t)) with (task_tmp self t) in *.
  change (task_final self (set_pc PRename t)) with (task_final self t) in Hfin.
  eexists (set_pc _ u), (set_files (<[task_tmp self t := truncated w (task_tmp self t)]> (w_files w)) w1).
  split; [|by split_and!].
  eapply rtc_l; [eapply second_steps; [by rewrite Hfr|]|].
  { unfold task_step. rewrite Hfr. cbn [pull_step]. unfold io_map_err.
    rewrite create_dir_all_quiet by done. cbn. fold w1. reflexivity. }
  eapply rtc_l; [eapply second_steps; [done|]|].
  { unfold task_step. cbn [pull_step t_pc set_pc]. rewrite path_exists_quiet by done.
    cbn [t_digest set_pc]. rewrite Hdig. change (final_path self (t_digest t)) with (task_final self t).
    rewrite Hi2. unfold is_file. cbn [w_files w1 set_dirs]. rewrite Hfin. cbn. reflexivity. }
  apply rtc_once.
  eapply second_steps; [done|].
  unfold task_step. cbn [pull_step t_pc set_pc t_digest]. rewrite Hdig.
  change (tmp_path self (t_digest t)) with (task_tmp self t). unfold io_map_err.
  rewrite open_truncate_quiet by done. cbn. reflexivity.
Qed.

(** C20: two pulls of the same digest can corrupt the cache. They share one
    [.partial] file, so a second pull that opens it between the root-hash check and
    the rename of a first one truncates what was verified: the first pull then
    returns success and the cache holds an empty file, which does not hash to the
    digest. It happens without any I/O failure and with honest replies. *)
Theorem same_digest_race t u c :
  quiet w0 -> ready self (t_digest t) w0 -> digest_shaped (t_digest t) ->
  fresh t -> fresh u -> t_digest u = t_digest t ->
  task_fate self t = Cached c -> ChunkVerifier_hash [] <> t_digest t ->
  exists ts w, rtc (pulls_step self) ([t; u], w0) (ts, w) /\
    t_pc <$> ts !! 0 = Some (PDone (Ok (task_final self t))) /\
    exists f, w_files w !! task_final self t = Some f /\ f_content f = [] /\
      ChunkVerifier_hash (f_content f) <> t_digest t.
Proof.
  intros Hq Hr Hd Hft Hfu Hdig Hc Hne.
  assert (isolated self w0 t w0) as Hi.
  { pose proof (isolated_initially self w0 [t]) as Hall. rewrite !Forall_singleton in Hall. by apply Hall. }
  destruct (reaches_rename t u w0 c Hi Hc) as (w1 & Hr1 & Hi1); [by rewrite Hft|].
  destruct (second_opens t u w1 Hi1 Hdig Hfu) as (u' & w2 & Hr2 & Hq2 & Hd2 & Hf2).
  pose proof (ready_dirs self w0 _ w2 Hr Hd2) as (_ & Hi2 & _ & Hp2).
  eexists _, _. split; [|split].
  - etransitivity; [exact Hr1|]. etransitivity; [exact Hr2|]. apply rtc_once.
    eapply first_steps; [done|].
    unfold task_step. cbn [pull_step t_pc set_pc]. unfold io_map_err.
    erewrite rename_quiet; [cbn; reflexivity|done| |done|done].
    rewrite Hf2. apply lookup_insert_eq.
  - done.
  - eexists. split; [apply lookup_insert_eq|]. by split.
Qed.

End Race.

(** ** Concrete runs *)

Module PullsWitness.
#[local] Existing Instances RefHex.crate RefHex.laws RefBlake3.crate RefBlake3.laws
  RefJson.crate RefJson.laws.

Definition blob_reply : Reply :=
  ReplyOk TransferWitness.blob
    (Some (str_bytes (RefJson.text (ser_header (mk_ChunkHeader 0 TransferWitness.digest 3 true))))).

(** A mesh on which one digest is hosted. *)
Definition hub : TransferService :=
  TransferService_new "/cache"
    (mk_Session
       (fun key _ => Ok (if decide (key = TRANSFER_ROOT +:+ "/" +:+ TransferWitness.digest)
                         then [blob_reply] else []))
       (fun _ => Ok tt)).

Definition other_digest : string := ChunkVerifier_hash [Byte.x7a].

Definition pull_of (d : string) : pull_task :=
  mk_task TransferWitness.peer d PullOptions_default PStart.

Definition duo : list pull_task := [pull_of TransferWitness.digest; pull_of other_digest].

(** Both pulls in turn, to their ends. *)
Definition in_turn : list nat := concat (repeat [0; 1] 14).
Definition finish : list pull_task * World :=
  schedule hub in_turn (duo, TransferWitness.receiver_world).

Example finish_results :
  t_pc <$> finish.1 = [PDone (Ok (final_path hub TransferWitness.digest));
                       PDone (Err (PeerMissing TransferWitness.peer other_digest))].
Proof. vm_compute. reflexivity. Qed.

Lemma finish_reached :
  rtc (pulls_step hub) (duo, TransferWitness.receiver_world) (finish.1, finish.2).
Proof. rewrite <- surjective_pairing. apply schedule_reachable. Qed.

Lemma duo_shaped : Forall (fun t => digest_shaped (t_digest t)) duo.
Proof. repeat constructor; vm_compute; reflexivity. Qed.

Lemma duo_distinct : NoDup (t_digest <$> duo).
Proof. apply (bool_decide_unpack _). vm_compute. exact I. Qed.

Lemma duo_fresh : Forall fresh duo.
Proof. by repeat constructor. Qed.

Lemma duo_ready : Forall (fun t => ready hub (t_digest t) TransferWitness.receiver_world) duo.
Proof. repeat constructor; vm_compute; reflexivity. Qed.

Lemma concurrent_pulls_sound_witness :
  Forall (fun t => cache_sound hub (t_digest t) (w_files finish.2)) finish.1.
Proof.
  eapply Forall_impl;
    [apply (concurrent_pulls_sound hub duo TransferWitness.receiver_world finish.1 finish.2)|].
  - apply distinct_separated; [apply duo_distinct|apply duo_shaped].
  - apply duo_fresh.
  - repeat constructor; intros f; unfold TransferWitness.receiver_world; cbn [w_files];
      rewrite lookup_empty; discriminate.
  - apply finish_reached.
  - intros t [Hs _]. exact Hs.
Defined.

Lemma concurrent_pulls_terminate_witness :
  exists s', rtc (pulls_step hub) (finish.1, finish.2) s' /\
    Forall (fun t => running (t_pc t) = false) s'.1.
Proof.
  apply (concurrent_pulls_terminate hub duo TransferWitness.receiver_world).
  - apply distinct_separated; [apply duo_distinct|apply duo_shaped].
  - apply duo_fresh.
  - apply finish_reached.
Defined.

Lemma concurrent_pulls_isolated_witness :
  exists w1, pull_with_options hub TransferWitness.peer TransferWitness.digest PullOptions_default
               TransferWitness.receiver_world
             = (Ok (final_path hub TransferWitness.digest), w1).
Proof.
  assert (finish.1 !! 0 = Some (set_pc (PDone (Ok (final_path hub TransferWitness.digest)))
    (pull_of TransferWitness.digest))) as Hfin by (vm_compute; reflexivity).
  pose proof (Forall_lookup_1 _ _ _ _
    (concurrent_pulls_isolated hub duo TransferWitness.receiver_world finish.1 finish.2 eq_refl
       duo_distinct duo_shaped duo_fresh duo_ready finish_reached) Hfin) as Hres.
  destruct (Hres _ eq_refl) as (w1 & Hp & _). by exists w1.
Defined.

Lemma same_digest_race_witness :
  exists ts w,
    rtc (pulls_step hub) ([pull_of TransferWitness.digest; pull_of TransferWitness.digest],
                          TransferWitness.receiver_world) (ts, w) /\
    t_pc <$> ts !! 0 = Some (PDone (Ok (final_path hub TransferWitness.digest))) /\
    exists f, w_files w !! final_path hub TransferWitness.digest = Some f /\ f_content f = [].
Proof.
  destruct (same_digest_race hub TransferWitness.receiver_world
    (pull_of TransferWitness.digest) (pull_of TransferWitness.digest) TransferWitness.blob)
    as (ts & w & Hr & Hpc & f & Hf & He & _); try reflexivity.
  - exact (Forall_inv duo_ready).
  - exact (Forall_inv duo_shaped).
  - vm_compute. discriminate.
  - exists ts, w. split; [exact Hr|]. split; [exact Hpc|]. by exists f.
Defined.

End PullsWitness.
