(* ===== verification/Recovery.v ===== *)
(** * Restarts

    A node is killed and started again. What survives is the disk: whatever
    files and directories the interrupted pulls left, complete or not. Here a
    [lifetime] is one run of a service, with any pulls of different digests, any
    interleaving, any failures and any end, the middle of an operation included;
    [lifetimes] puts any number of them one after the other on one disk. *)

From S2P Require Import Prelude RustStd Codecs Core Wire Event Json Fs Transfer Pulls.

Section Recovery.
Context `{HexLaws, Blake3Laws, JsonCrate}.

(** The disk as the next process finds it; what will fail is up to its own run. *)
Definition reboot (outcomes : list outcome) (reads : list nat) (w : World) : World :=
  mk_world (w_files w) (w_dirs w) (w_default_mode w) [] outcomes reads.

Section Cache.
(** The cache directory, and the digests that are pulled into it. *)
Context (cache : string) (D : string -> Prop) (Dshaped : forall d, D d -> digest_shaped d).

(** One run, up to the moment it is killed. *)
Inductive lifetime : World -> World -> Prop :=
| lifetime_run self ts outcomes reads w ts' w' :
    cache_dir self = cache -> Forall fresh ts -> NoDup (t_digest <$> ts) ->
    Forall (fun t => D (t_digest t)) ts ->
    rtc (pulls_step self) (ts, reboot outcomes reads w) (ts', w') ->
    lifetime w w'.

Definition lifetimes : World -> World -> Prop := rtc lifetime.

(** A disk on which pulls can work: no file in the way of the cache directory, no
    directory in the way of its files, and every entry under its hash. *)
Record healthy (self : TransferService) (w : World) : Prop := {
  healthy_cache : existsb (is_file w) (route self) = false;
  healthy_dirs d : D d ->
    is_dir (with_cache self w) (final_path_of self d) = false /\
    is_dir (with_cache self w) (tmp_path_of self d) = false /\
    dir_exists (with_cache self w) (parent_dir (final_path_of self d)) = true /\
    dir_exists (with_cache self w) (parent_dir (tmp_path_of self d)) = true;
  healthy_entries d : D d -> cache_sound self d (w_files w);
}.

(** It only matters where the cache is. *)
Lemma healthy_service self self' w :
  cache_dir self = cache_dir self' -> healthy self w -> healthy self' w.
Proof.
  intros E [Hc Hd He]. split.
  - revert Hc. unfold route. by rewrite E.
  - intros d HD. specialize (Hd d HD). revert Hd. unfold with_cache, final_path_of, tmp_path_of. by rewrite E.
  - intros d HD. specialize (He d HD). revert He.
    unfold cache_sound, final_path, final_path_of. by rewrite E.
Qed.

Lemma with_cache_within self w w' p :
  dirs_within (cache_dir self) w w' ->
  is_dir (with_cache self w') p = is_dir (with_cache self w) p /\
  dir_exists (with_cache self w') p = dir_exists (with_cache self w) p.
Proof.
  intros [Hl Hu]. assert (w_dirs (with_cache self w') = w_dirs (with_cache self w)) as E.
  { cbn. set_solver. }
  unfold is_dir, dir_exists. by rewrite E.
Qed.

(** One operation of one pull: the entries of the other digests do not change. *)
Lemma healthy_step self t w t' w' :
  D (t_digest t) -> task_sound self t w -> task_step self t w = (t', w') ->
  healthy self w -> healthy self w'.
Proof.
  intros HD Hs Hstep [Hc Hd He].
  destruct (sound_guarantee self t w t' w' Hs Hstep) as ((_ & Hown & _) & _ & Hframe).
  apply task_step_same in Hstep as (_ & Hdig & _ & Hstep). rewrite Hdig in Hown.
  apply step_dirs in Hstep as Hdirs. split.
  - eapply route_change; [|exact Hc]. intros q Hq.
    destruct (off_route self _ (Dshaped _ HD)) as [Ht Hf].
    apply Hframe; intros ->; [by apply Ht|by apply Hf].
  - intros d HDd. specialize (Hd d HDd).
    destruct (with_cache_within self w w' (final_path_of self d) Hdirs) as [-> _].
    destruct (with_cache_within self w w' (tmp_path_of self d) Hdirs) as [-> _].
    destruct (with_cache_within self w w' (parent_dir (final_path_of self d)) Hdirs) as [_ ->].
    by destruct (with_cache_within self w w' (parent_dir (tmp_path_of self d)) Hdirs) as [_ ->].
  - intros d HDd. destruct (decide (d = t_digest t)) as [->|Hne]; [done|].
    intros f Hf. apply (He d HDd). rewrite <- Hf. symmetry.
    destruct (distinct_separate self (mk_task (t_peer t) d (t_opts t) PStart) t Hne)
      as (_ & _ & Htf & Hff); [exact (Dshaped _ HDd)|exact (Dshaped _ HD)|]. by apply Hframe.
Qed.

Lemma healthy_run self ts w s :
  Forall fresh ts -> NoDup (t_digest <$> ts) -> Forall (fun t => D (t_digest t)) ts ->
  healthy self w -> rtc (pulls_step self) (ts, w) s -> healthy self s.2.
Proof.
  intros Hfr Hnd HD Hw Hr.
  assert (Forall (fun t => digest_shaped (t_digest t)) ts) as Hsh
    by (eapply Forall_impl; [exact HD|]; cbn; intros t; apply Dshaped).
  assert (all_tasks self (task_sound self) (ts, w)) as Hall.
  { apply sound_initially; [by apply distinct_separated|done|].
    eapply Forall_impl; [exact HD|]. cbn. intros t. apply (healthy_entries _ _ Hw). }
  change ts with (ts, w).1 in HD. change w with (ts, w).2 in Hw. clear Hfr Hnd Hsh.
  induction Hr as [|s0 s1 s2 Hstep _ IH]; [done|]. apply IH.
  - destruct Hstep as [us i t t' v v' Hi _ Hstep]. cbn in *.
    apply Forall_insert; [done|]. apply task_step_same in Hstep as (_ & -> & _).
    exact (Forall_lookup_1 _ _ _ _ HD Hi).
  - destruct Hstep as [us i t t' v v' Hi _ Hstep]. cbn in *. destruct Hall as [_ Hall].
    eapply healthy_step; [|exact (Forall_lookup_1 _ _ _ _ Hall Hi)|done..].
    exact (Forall_lookup_1 _ _ _ _ HD Hi).
  - eapply all_tasks_step; [apply sound_guarantee|apply sound_rely|done..].
Qed.

Lemma healthy_lifetimes self w w' :
  cache_dir self = cache -> lifetimes w w' -> healthy self w -> healthy self w'.
Proof.
  intros Hs Hl. induction Hl as [|w1 w2 w3 Hrun _ IH]; [done|]. intros Hw. apply IH. clear IH.
  destruct Hrun as [self' ts os rs w ts' w' Hs' Hfr Hnd HD Hr].
  apply (healthy_service self' self); [congruence|].
  change w' with (ts', w').2. eapply healthy_run; [done..| |exact Hr].
  apply (healthy_service self self') in Hw as [Hc Hd He]; [|congruence]. by split.
Qed.

(** A healthy disk without an entry is ready for one. *)
Lemma healthy_ready self d w :
  D d -> healthy self w -> w_files w !! final_path_of self d = None -> ready self d w.
Proof.
  intros HD [Hc Hd He] Hn. destruct (Hd d HD) as (Hf & Ht & Hp1 & Hp2).
  split; [done| |done|by rewrite Hp1, Hp2].
  rewrite Hf. unfold is_file. by rewrite Hn.
Qed.

End Cache.

(** C4: a node recovers from every crash. Let it be killed any number of times,
    each time while it runs any pulls of different digests, at any point of any
    interleaving, after any failures and with any replies. When it is started once
    more and asked for one of the digests, with a disk that works and replies that
    carry the bytes, the pull succeeds, and the file it returns hashes to the digest,
    whatever files the interrupted pulls had left behind. *)
Theorem crash_recovery cache D w w' self peer d opts reads c :
  (forall d, D d -> digest_shaped d) -> cache_dir self = cache ->
  healthy D self w -> lifetimes cache D w w' -> D d ->
  pull_fate peer d (session_get (session self) (TRANSFER_ROOT +:+ "/" +:+ d) (timeout opts)) = Cached c ->
  exists w1 f, pull_with_options self peer d opts (reboot [] reads w') = (Ok (final_path_of self d), w1) /\
    w_files w1 !! final_path_of self d = Some f /\ ChunkVerifier_hash (f_content f) = d.
Proof.
  intros Hsh Hs Hw Hl HD Hfate. eapply healthy_lifetimes in Hl; [|done..].
  assert (healthy D self (reboot [] reads w')) as Hh by (by destruct Hl; split).
  clear Hl Hw. revert Hh. generalize (reboot [] reads w') (eq_refl : quiet (reboot [] reads w')).
  intros w1 Hq Hh. destruct (w_files w1 !! final_path_of self d) as [f|] eqn:Ef.
  - destruct (pull_cached_unverified self peer d opts w1 f) as (w2 & Hp & Hf); [done..|apply Hh|].
    exists w2, f. rewrite Hf. split_and!; [done..|]. by apply (healthy_entries _ _ _ Hh).
  - destruct (pull_quiet self peer d opts w1 Hq (healthy_ready _ _ _ _ HD Hh Ef)) as (w2 & _ & _ & Hp).
    rewrite Hfate in Hp. destruct Hp as [Hp Hf]. eexists w2, _. split; [exact Hp|].
    rewrite Hf, lookup_insert_eq. split; [done|]. cbn. revert Hfate.
    unfold pull_fate. repeat case_match; naive_solver.
Qed.

End Recovery.

(** ** A concrete crash *)

Module RecoveryWitness.
#[local] Existing Instances RefHex.crate RefHex.laws RefBlake3.crate RefBlake3.laws
  RefJson.crate RefJson.laws.
Import PullsWitness.

Definition pulled (d : string) : Prop := d ∈ t_digest <$> duo.

(** Two pulls are under way, one has an unfinished [.partial] file, when the process
    is killed. *)
Definition killed : list pull_task * World :=
  schedule hub [0; 1; 0; 0; 0; 0; 0] (duo, reboot [Pass; Pass] [] TransferWitness.receiver_world).

Example killed_midway :
  t_pc <$> killed.1 !! 0 <> Some PStart /\
  is_file killed.2 (tmp_path hub TransferWitness.digest) = true /\
  is_file killed.2 (final_path hub TransferWitness.digest) = false.
Proof. vm_compute. split_and!; [discriminate|reflexivity..]. Qed.

Lemma killed_disk : lifetimes "/cache" pulled TransferWitness.receiver_world killed.2.
Proof.
  apply rtc_once. apply (lifetime_run _ _ hub duo [Pass; Pass] [] _ killed.1); [done|..].
  - apply duo_fresh.
  - apply duo_distinct.
  - apply Forall_forall. intros t Ht. by apply list_elem_of_fmap_2.
  - rewrite <- surjective_pairing. apply schedule_reachable.
Qed.

Lemma crash_recovery_witness :
  exists w1 f, pull_with_options hub TransferWitness.peer TransferWitness.digest PullOptions_default
      (reboot [] [] killed.2) = (Ok (final_path_of hub TransferWitness.digest), w1) /\
    w_files w1 !! final_path_of hub TransferWitness.digest = Some f /\
    ChunkVerifier_hash (f_content f) = TransferWitness.digest.
Proof.
  apply (crash_recovery "/cache" pulled TransferWitness.receiver_world killed.2 hub
    TransferWitness.peer TransferWitness.digest PullOptions_default [] TransferWitness.blob).
  - intros d (t & -> & Ht)%list_elem_of_fmap. pose proof duo_shaped as Hd.
    rewrite Forall_forall in Hd. by apply Hd.
  - done.
  - split; [reflexivity| |intros d _ f; unfold TransferWitness.receiver_world; cbn [w_files];
      rewrite lookup_empty; discriminate].
    intros d (t & -> & Ht)%list_elem_of_fmap. pose proof duo_ready as Hr. rewrite Forall_forall in Hr.
    destruct (Hr t Ht) as [_ [_ Ha]%orb_false_iff Htm [Hp1 Hp2]%andb_true_iff]. done.
  - apply killed_disk.
  - exact (list_elem_of_fmap_2 t_digest duo (pull_of TransferWitness.digest) (list_elem_of_here _ _)).
  - vm_compute. reflexivity.
Defined.

End RecoveryWitness.
