(* ===== verification/Identity.v ===== *)
(** * furcate-mesh-identity/src/lib.rs: the peer's keypair

    [PeerIdentity] with its persistence over Fs.v (Tls.v has the rest of the crate).
    Ed25519 and PKCS#8 are third-party: their functions are a class, what their
    documentation promises is a class of laws, and [RefKeys] is an instance of both.
    The Unix branch of the [cfg]s is the one modelled. *)

From Stdlib Require Import Ascii.
From S2P Require Import Prelude RustStd Codecs Core Fs.

(** ** UTF-8, for [read_to_string] *)

Definition in_N (lo hi : N) (b : u8) : bool := (lo <=? Byte.to_N b)%N && (Byte.to_N b <=? hi)%N.

(** [str::from_utf8(..).is_ok()]: well-formed sequences of one to four bytes. *)
Fixpoint valid_utf8 (l : list u8) : bool :=
  match l with
  | [] => true
  | a :: l1 =>
      if in_N 0 127 a then valid_utf8 l1
      else match l1 with
           | [] => false
           | b :: l2 =>
               if in_N 194 223 a then in_N 128 191 b && valid_utf8 l2
               else match l2 with
                    | [] => false
                    | c :: l3 =>
                        if in_N 224 239 a then
                          in_N (if in_N 224 224 a then 160 else 128)
                               (if in_N 237 237 a then 159 else 191) b &&
                          in_N 128 191 c && valid_utf8 l3
                        else match l3 with
                             | [] => false
                             | d :: l4 =>
                                 in_N 240 244 a &&
                                 in_N (if in_N 240 240 a then 144 else 128)
                                      (if in_N 244 244 a then 143 else 191) b &&
                                 in_N 128 191 c && in_N 128 191 d && valid_utf8 l4
                             end
                    end
           end
  end.

(** [fs::read_to_string]. *)
Definition read_to_string (p : string) : io string IoError :=
  let! bs := fs_read p in
  if valid_utf8 bs then io_ret (bytes_str bs) else io_fail InvalidData.

Definition is_ascii (c : ascii) : bool := nat_of_ascii c <? 128.

Lemma valid_utf8_ascii s : str_all is_ascii s = true -> valid_utf8 (str_bytes s) = true.
Proof.
  induction s as [|c s IH]; [done|]. cbn [str_all]. rewrite andb_true_iff. intros [Hc Hs].
  change (str_bytes (String c s)) with (byte_of_ascii c :: str_bytes s). cbn [valid_utf8].
  replace (in_N 0 127 (byte_of_ascii c)) with true; [by apply IH|].
  revert Hc. by destruct c as [[] [] [] [] [] [] [] []].
Qed.

(** ** The key crates *)

Class KeyCrates := {
  SigningKey : Type;
  (** [from_pkcs8_pem], [to_pkcs8_pem]; errors carry their text. *)
  from_pkcs8_pem : string -> result SigningKey string;
  to_pkcs8_pem : SigningKey -> result string string;
  (** [signing.verifying_key().to_bytes()]. *)
  verifying_key : SigningKey -> array32;
}.

(** PEM is ASCII text that decodes to the key it encodes; the empty text is not a
    PEM document. *)
Class KeyLaws `{KeyCrates} : Prop := {
  pem_ascii sk pem : to_pkcs8_pem sk = Ok pem -> str_all is_ascii pem = true;
  pem_roundtrip sk pem : to_pkcs8_pem sk = Ok pem -> from_pkcs8_pem pem = Ok sk;
  pem_not_empty : is_ok (from_pkcs8_pem "") = false;
}.

Inductive IdentityError :=
| Io (e : IoError)
| Pkcs8 (msg : string)
| Tls (msg : string).

Section Identity.
Context `{KeyCrates}.

(** ** [PeerIdentity] *)

Record PeerIdentity := mk_PeerIdentity { signing : SigningKey }.

(** [generate]: the key drawn from the OS generator. *)
Definition generate (drawn : SigningKey) : PeerIdentity := mk_PeerIdentity drawn.

Definition identity_path (config_dir : string) : string := path_join config_dir "identity.pem".

Definition load (config_dir : string) : io PeerIdentity IdentityError :=
  let path := identity_path config_dir in
  let! pem := io_map_err Io (read_to_string path) in
  let! signing := io_lift (map_err (fun e => Pkcs8 ("decoding " +:+ path +:+ ": " +:+ e))
                             (from_pkcs8_pem pem)) in
  io_ret (mk_PeerIdentity signing).

(** [0o600]. *)
Definition mode_600 : Z := 384.

(** [std::fs::metadata(&path)], of which only the failure matters here. *)
Definition metadata (p : string) : io unit IoError :=
  guarded (fun w => if is_file w p || is_dir w p then (Ok tt, w) else (Err NotFound, w)).

Definition save (self : PeerIdentity) (config_dir : string) : io unit IdentityError :=
  let! _ := io_map_err Io (create_dir_all config_dir) in
  let path := identity_path config_dir in
  let! pem := io_lift (map_err (fun e => Pkcs8 ("encoding: " +:+ e)) (to_pkcs8_pem (signing self))) in
  let! _ := io_map_err Io (fs_write path (str_bytes pem)) in
  let! _ := io_map_err Io (metadata path) in
  io_map_err Io (set_mode path mode_600).

Definition load_or_generate (drawn : SigningKey) (config_dir : string)
    : io PeerIdentity IdentityError :=
  let path := identity_path config_dir in
  let! present := path_exists path in
  if (present : bool) then load config_dir
  else
    let! _ := io_map_err Io (create_dir_all config_dir) in
    let id := generate drawn in
    let! _ := save id config_dir in
    io_ret id.

Definition peer_id (self : PeerIdentity) : PeerId := PeerId.from_bytes (verifying_key (signing self)).

(** ** The default directory, from the environment variables *)

Definition unix_uid_zero (env : gmap string string) : bool :=
  bool_decide (is_Some (env !! "SUDO_UID") \/ env !! "USER" = Some "root").

Definition home_dir (env : gmap string string) : option string := env !! "HOME".

Definition default_config_dir (env : gmap string string) : string :=
  if unix_uid_zero env then "/var/lib/furcate-mesh"
  else match home_dir env with
       | Some home => path_join (path_join home ".config") "furcate-mesh"
       | None => ".furcate-mesh"
       end.

End Identity.

Section Facts.
Context `{KeyLaws}.

(** ** Persistence *)

Lemma fs_write_ok p data w w' :
  fs_write p data w = (Ok tt, w') -> exists mode, w_files w' !! p = Some (mk_file data mode).
Proof.
  intros ([] & w1 & (w2 & Hc & _)%guarded_ok & ([|] & w3 & Hn & Hk)%io_bind_ok)%io_bind_ok; [|done].
  injection Hk as <-. apply next_outcome_inv in Hn as (_ & _ & Hf & _).
  unfold create_truncate in Hc. repeat case_match; simplify_eq. eexists. cbn.
  rewrite lookup_alter_eq, Hf. cbn. by rewrite lookup_insert_eq.
Qed.

Lemma set_mode_ok p mode w w' f :
  set_mode p mode w = (Ok tt, w') -> w_files w !! p = Some f ->
  w_files w' !! p = Some (mk_file (f_content f) mode).
Proof.
  intros (w1 & Hs & Hf & _)%guarded_ok Hp. rewrite Hf, Hp in Hs. injection Hs as <-.
  cbn. by rewrite lookup_insert_eq.
Qed.

Lemma keeps_metadata I p : keeps I (metadata p).
Proof. apply keeps_guarded. intros w r w'. case_match; by intros [= _ <-]. Qed.

Lemma save_ok id dir w w' :
  save id dir w = (Ok tt, w') ->
  exists pem, to_pkcs8_pem (signing id) = Ok pem /\
    w_files w' !! identity_path dir = Some (mk_file (str_bytes pem) mode_600).
Proof.
  intros (u1 & w1 & _ & (pem & w2 & Hp & Hk)%io_bind_ok)%io_bind_ok.
  apply io_bind_ok in Hk as ([] & w3 & Hw%io_map_err_ok & ([] & w4 & Hm%io_map_err_ok & Hs%io_map_err_ok)%io_bind_ok).
  exists pem. injection Hp as Hp _. apply map_err_ok in Hp. split; [done|].
  apply fs_write_ok in Hw as [mode Hw].
  pose proof (keeps_metadata (fun m => m !! identity_path dir = _) _ _ _ _ Hm Hw) as Hw4.
  by apply (set_mode_ok _ _ _ _ _ Hs) in Hw4.
Qed.

Lemma keeps_save I id dir : off_path (identity_path dir) I -> keeps I (save id dir).
Proof.
  intros HI. apply keeps_bind; [auto with furcate|]. intros _.
  apply keeps_bind; [auto with furcate|]. intros pem.
  apply keeps_bind; [eauto with furcate|]. intros _.
  apply keeps_bind; [auto using keeps_metadata with furcate|]. intros _. eauto with furcate.
Qed.

Lemma load_saved sk pem mode dir w :
  quiet w -> to_pkcs8_pem sk = Ok pem ->
  w_files w !! identity_path dir = Some (mk_file (str_bytes pem) mode) ->
  load dir w = (Ok (mk_PeerIdentity sk), w).
Proof.
  intros Hq Hp Hf. unfold load, read_to_string.
  erewrite io_bind_step; [|apply io_map_err_ok; erewrite io_bind_step;
    [|unfold fs_read; rewrite guarded_quiet by done; rewrite Hf; reflexivity];
    cbn [f_content]; rewrite (valid_utf8_ascii _ (pem_ascii _ _ Hp)); reflexivity].
  rewrite bytes_str_bytes, (pem_roundtrip _ _ Hp). by erewrite io_bind_step.
Qed.

(** C19: whatever I/O fails, after a successful [save] the key file has mode
    0600 and every other file is untouched, and loading it back gives the same
    identity. *)
Theorem save_load_roundtrip id dir w w' :
  save id dir w = (Ok tt, w') ->
  (exists f, w_files w' !! identity_path dir = Some f /\ f_mode f = mode_600) /\
  (forall q, q <> identity_path dir -> w_files w' !! q = w_files w !! q) /\
  forall w2, quiet w2 -> w_files w2 = w_files w' -> load dir w2 = (Ok id, w2).
Proof.
  intros Hs. pose proof (save_ok _ _ _ _ Hs) as (pem & Hp & Hf). split_and!; [eauto| |].
  - intros q Hq. set (I := fun m : gmap string File => m !! q = w_files w !! q).
    exact (keeps_save I id dir (off_path_lookup _ _ _ Hq) _ _ _ Hs eq_refl).
  - intros w2 Hq2 Hf2. rewrite <- Hf2 in Hf. destruct id. by eapply load_saved.
Qed.

(** Loading or generating an identity sends nothing and removes no directory. *)
Lemma respects_load_or_generate R sk dir `{!FsEffect R, !DirEffect R dir} : respects R (load_or_generate sk dir).
Proof.
  assert (forall p, respects R (metadata p)) as Hm.
  { intros p. apply respects_guarded; [done|]. intros w r w'. case_match; intros [= _ <-]; done. }
  apply respects_bind; [done|auto with furcate|]. intros [].
  - unfold load, read_to_string. repeat (apply respects_bind; [done|..]; auto with furcate; intros).
    apply respects_map_err, respects_bind; [done|auto with furcate|]. intros bs.
    destruct (valid_utf8 bs); auto with furcate.
  - apply respects_bind; [done|auto with furcate|]. intros _.
    apply respects_bind; [done| |auto with furcate]. unfold save.
    apply respects_bind; [done|auto with furcate|]. intros _.
    apply respects_bind; [done|auto with furcate|]. intros pem.
    apply respects_bind; [done|auto with furcate|]. intros _.
    apply respects_bind; [done|auto with furcate|auto with furcate].
Qed.

(** A peer's identity survives restarts: once [load_or_generate] has created
    the key file, every later run that can read the disk returns the same peer id,
    whatever key the generator would draw, and does not touch the file. *)
Lemma identity_stable sk sk' dir w id w1 w2 :
  is_file w (identity_path dir) = false -> is_dir w (identity_path dir) = false ->
  load_or_generate sk dir w = (Ok id, w1) ->
  quiet w2 -> w_files w2 = w_files w1 ->
  id = generate sk /\ load_or_generate sk' dir w2 = (Ok id, w2).
Proof.
  intros Hnf Hnd Hrun Hq2 Hf2.
  apply io_bind_ok in Hrun as (b & w3 & (_ & _ & Hb)%path_exists_ok & Hrun).
  destruct b; [destruct Hb; congruence|].
  apply io_bind_ok in Hrun as (? & w4 & _ & ([] & w5 & (pem & Hp & Hf)%save_ok & [= <- <-])%io_bind_ok).
  split; [done|]. unfold load_or_generate.
  erewrite io_bind_step; [|by apply path_exists_quiet].
  assert (is_file w2 (identity_path dir) = true) as -> by (apply is_file_true; rewrite Hf2; eauto).
  cbn [orb]. rewrite <- Hf2 in Hf. by eapply load_saved.
Qed.

(** The directory is usable: nothing on the way to it is a file, and the key path
    is not a directory. *)
Definition dir_ready (dir : string) (w : World) : Prop :=
  existsb (is_file w) (strip_slashes dir :: ancestors dir) = false /\
  is_dir (set_dirs (w_dirs w ∪ list_to_set (ancestors dir)) w) (identity_path dir) = false /\
  dir_exists (set_dirs (w_dirs w ∪ list_to_set (ancestors dir)) w)
    (parent_dir (identity_path dir)) = true.

(** Creating the directory leaves it usable. *)
Lemma dir_ready_created dir w os :
  dir_ready dir w -> dir_ready dir (set_dirs (w_dirs w ∪ list_to_set (ancestors dir)) (set_outcomes os w)).
Proof.
  intros (Hc & Hd & Hpar). split_and!; [done| |];
    unfold is_dir, dir_exists in *; cbn [w_dirs set_dirs set_outcomes] in *;
    by rewrite <- (assoc_L (∪)), union_idemp_L.
Qed.

(** [save] up to the final chmod. *)
Lemma save_until_chmod id dir w pem :
  let path := identity_path dir in
  dir_ready dir w -> to_pkcs8_pem (signing id) = Ok pem -> passing 4 w ->
  exists w1, save id dir w = io_map_err Io (set_mode path mode_600) w1 /\
    w_outcomes w1 = drop 4 (w_outcomes w) /\
    w_files w1 = <[path := mk_file (str_bytes pem) (f_mode (truncated w path))]> (w_files w).
Proof.
  intros path (Hc & Hd & Hpar) Hp Hpass.
  pose proof (next_pass _ _ Hpass) as [_ Hpass1]. pose proof (next_pass _ _ Hpass1) as [_ Hpass2].
  pose proof (next_pass _ _ Hpass2) as [_ Hpass3].
  unfold save. erewrite io_bind_step by (apply io_map_err_ok; by eapply create_dir_all_pass).
  cbn zeta. rewrite Hp. cbn [map_err]. erewrite io_bind_step by reflexivity.
  erewrite io_bind_step by (apply io_map_err_ok; eapply fs_write_pass; [exact Hpass1|exact Hd|exact Hpar]).
  set (w3 := set_files _ _).
  assert (passing 1 w3) as Hp3 by exact Hpass3.
  erewrite io_bind_step.
  2:{ apply io_map_err_ok. unfold metadata. rewrite (guarded_pass _ _ _ Hp3).
      replace (is_file (tick w3) _) with true; [reflexivity|]. symmetry. apply is_file_true.
      eexists. apply lookup_insert_eq. }
  eexists. split_and!; [reflexivity| |done]. cbn. by destruct (w_outcomes w) as [|? [|? [|? [|? ?]]]].
Qed.

(** The key file is not created with mode 0600: [save] writes it with the
    process's default mode and tightens it afterwards, so when the chmod fails the
    private key stays on disk with the default mode. *)
Theorem save_chmod_failure_exposes_key id dir w pem e n d :
  let path := identity_path dir in
  dir_ready dir w -> to_pkcs8_pem (signing id) = Ok pem ->
  w_outcomes w = [Pass; Pass; Pass; Pass; Fault e n d] -> w_files w !! path = None ->
  exists w', save id dir w = (Err (Io e), w') /\
    w_files w' !! path = Some (mk_file (str_bytes pem) (w_default_mode w)).
Proof.
  intros path Hr Hp Ho Hn.
  destruct (save_until_chmod id dir w pem Hr Hp) as (w1 & -> & Ho1 & Hf1).
  { unfold passing. rewrite Ho. by repeat constructor. }
  rewrite Ho in Ho1. exists (set_outcomes [] w1). split.
  - unfold io_map_err, set_mode, guarded, io_bind, next_outcome. by rewrite Ho1.
  - cbn. rewrite Hf1. fold path. rewrite lookup_insert_eq. unfold truncated. by rewrite Hn.
Qed.

(** C40: [load_or_generate] takes a key file whose metadata cannot be read for a missing
    one. When the existence check is the only operation that fails, the identity that
    was on disk, and that [load] would have returned, is overwritten: the call returns
    the freshly drawn identity, and so does every later load. *)
Theorem stat_failure_replaces_identity sk old dir w pem old_pem mode e n d :
  let path := identity_path dir in
  dir_ready dir w -> to_pkcs8_pem sk = Ok pem -> to_pkcs8_pem old = Ok old_pem ->
  w_files w !! path = Some (mk_file (str_bytes old_pem) mode) ->
  w_outcomes w = [Fault e n d] ->
  load dir (set_outcomes [] w) = (Ok (generate old), set_outcomes [] w) /\
  exists w', load_or_generate sk dir w = (Ok (generate sk), w') /\
    forall w2, quiet w2 -> w_files w2 = w_files w' -> load dir w2 = (Ok (generate sk), w2).
Proof.
  intros path Hr Hp Hold Hfile Ho. split; [by eapply load_saved|].
  unfold load_or_generate. set (w0 := set_outcomes [] w).
  assert (path_exists (E := IdentityError) path w = (Ok false, w0)) as He
    by (unfold path_exists, guarded, io_bind, next_outcome; by rewrite Ho).
  fold path. erewrite io_bind_step by exact He. destruct Hr as (Hc & Hd & Hpar).
  erewrite io_bind_step by (apply io_map_err_ok; by apply create_dir_all_quiet). cbn zeta.
  set (w1 := set_dirs _ w0).
  destruct (save_until_chmod (generate sk) dir w1 pem) as (w2 & Hs & Ho2 & Hf2);
    [exact (dir_ready_created dir w [] (conj Hc (conj Hd Hpar)))|done|by apply passing_quiet|].
  assert (quiet w2) as Hq2 by done.
  erewrite io_bind_step.
  2:{ rewrite Hs. apply io_map_err_ok. unfold set_mode. rewrite guarded_quiet by done.
      rewrite Hf2, lookup_insert_eq. reflexivity. }
  eexists. split; [reflexivity|]. intros w3 Hq3 Hf3. eapply load_saved; [done|exact Hp|].
  rewrite Hf3. apply lookup_insert_eq.
Qed.

(** A key file that is not a PEM document is never repaired: [load_or_generate]
    reports it and leaves it. *)
Lemma load_undecodable sk dir w f err :
  quiet w -> w_files w !! identity_path dir = Some f -> valid_utf8 (f_content f) = true ->
  from_pkcs8_pem (bytes_str (f_content f)) = Err err ->
  load_or_generate sk dir w =
    (Err (Pkcs8 ("decoding " +:+ identity_path dir +:+ ": " +:+ err)), w).
Proof.
  intros Hq Hf Hv He. unfold load_or_generate. erewrite io_bind_step by (by apply path_exists_quiet).
  assert (is_file w (identity_path dir) = true) as -> by (apply is_file_true; eauto). cbn [orb].
  unfold load, read_to_string.
  erewrite io_bind_step; [|apply io_map_err_ok; erewrite io_bind_step;
    [|unfold fs_read; rewrite guarded_quiet by done; rewrite Hf; reflexivity];
    cbn [f_content]; rewrite Hv; reflexivity].
  by rewrite He.
Qed.

(** [save] whose write fails with nothing written. *)
Lemma save_torn id dir w pem e d :
  dir_ready dir w -> to_pkcs8_pem (signing id) = Ok pem ->
  w_outcomes w = [Pass; Pass; Fault e 0 d] -> w_files w !! identity_path dir = None ->
  exists w', save id dir w = (Err (Io e), w') /\
    w_files w' !! identity_path dir = Some (mk_file [] (w_default_mode w)).
Proof.
  intros (Hc & Hd & Hpar) Hp Ho Hn.
  assert (passing 2 w) as Hp2 by (unfold passing; rewrite Ho; by repeat constructor).
  pose proof (next_pass _ _ Hp2) as [_ Hp1].
  unfold save. erewrite io_bind_step by (apply io_map_err_ok; by eapply create_dir_all_pass).
  cbn zeta. rewrite Hp. cbn [map_err]. erewrite io_bind_step by reflexivity.
  set (w1 := set_dirs _ _).
  assert (guarded (create_truncate (identity_path dir)) w1 =
    (Ok tt, set_files (<[identity_path dir := mk_file [] (w_default_mode w)]> (w_files w)) (tick w1))) as Hg.
  { rewrite (guarded_pass _ 0 w1 Hp1). unfold create_truncate.
    change (is_dir (tick w1)) with (is_dir (set_dirs (w_dirs w ∪ list_to_set (ancestors dir)) w)).
    change (dir_exists (tick w1)) with (dir_exists (set_dirs (w_dirs w ∪ list_to_set (ancestors dir)) w)).
    rewrite Hd, Hpar. unfold truncated. cbn [w_files w_default_mode tick set_outcomes set_dirs w1].
    by rewrite Hn. }
  eexists. split.
  - apply io_bind_stop. unfold io_map_err, fs_write. erewrite io_bind_step by exact Hg.
    unfold io_bind, next_outcome. cbn. rewrite Ho. cbn. reflexivity.
  - cbn. by rewrite lookup_alter_eq, lookup_insert_eq.
Qed.

(** C39: a disk that fills up while the first identity is written bricks the
    peer: [load_or_generate] reports the failure but leaves an empty key file, and
    every later run, on a disk that works again, fails to decode it instead of
    generating an identity. *)
Theorem torn_save_bricks_identity sk sk' dir w pem e d :
  dir_ready dir w -> to_pkcs8_pem sk = Ok pem -> w_files w !! identity_path dir = None ->
  is_dir w (identity_path dir) = false ->
  w_outcomes w = [Pass; Pass; Pass; Pass; Fault e 0 d] ->
  exists w1, load_or_generate sk dir w = (Err (Io e), w1) /\
    forall w2, quiet w2 -> w_files w2 = w_files w1 ->
      exists msg, load_or_generate sk' dir w2 = (Err (Pkcs8 msg), w2).
Proof.
  intros Hr Hp Hn Hnd Ho. unfold load_or_generate at 1.
  assert (passing 4 w) as Hp4 by (unfold passing; rewrite Ho; by repeat constructor).
  pose proof (next_pass _ _ Hp4) as [_ Hp3]. pose proof (next_pass _ _ Hp3) as [_ Hp2].
  assert (is_file w (identity_path dir) = false) as Hnf by (unfold is_file; by rewrite Hn).
  erewrite io_bind_step.
  2:{ unfold path_exists. rewrite (guarded_pass _ _ _ Hp4).
      change (is_file (tick w)) with (is_file w). change (is_dir (tick w)) with (is_dir w).
      rewrite Hnf, Hnd. reflexivity. }
  destruct Hr as (Hc & Hd & Hpar). cbn [orb].
  erewrite io_bind_step by (apply io_map_err_ok; by eapply create_dir_all_pass).
  set (w1 := set_dirs _ _).
  destruct (dir_ready_created dir w (w_outcomes w1) (conj Hc (conj Hd Hpar))) as (Hc1 & Hd1 & Hpar1).
  change (set_dirs _ (set_outcomes (w_outcomes w1) w)) with w1 in Hc1, Hd1, Hpar1.
  assert (w_outcomes w1 = [Pass; Pass; Fault e 0 d]) as Ho1 by (cbn; by rewrite Ho).
  assert (passing 2 w1) as Hp1 by (unfold passing; rewrite Ho1; by repeat constructor).
  pose proof (next_pass _ _ Hp1) as [_ Hp0].
  destruct (save_torn (generate sk) dir w1 pem e d) as (w3 & Hs & Hf3); [done..|].
  eexists. split; [by apply io_bind_stop|].
  intros w2 Hq2 Hf2. destruct (from_pkcs8_pem "") as [k|err] eqn:Ee.
  { pose proof pem_not_empty as Hx. by rewrite Ee in Hx. }
  eexists. apply (load_undecodable _ _ _ (mk_file [] (w_default_mode w)) err); [done| |done|done].
  by rewrite Hf2.
Qed.
End Facts.

(** ** A reference instance, and concrete runs *)

Module RefKeys.

(** Not Ed25519: the public key is the secret, the PEM its hex. It has the laws. *)
Definition of_pem (s : string) : result array32 string :=
  match RefHex.decode s with
  | Ok bs => ok_or "wrong length" (array32_try_from bs)
  | Err _ => Err "not hex"
  end.

#[export] Instance crate : KeyCrates := {|
  SigningKey := array32;
  from_pkcs8_pem := of_pem;
  to_pkcs8_pem sk := Ok (Rfc4648.base16 (arr_bytes sk));
  verifying_key sk := sk |}.

Lemma lower_hex_ascii c : is_lower_hex c = true -> is_ascii c = true.
Proof. by destruct c as [[] [] [] [] [] [] [] []]. Qed.

#[export] Instance laws : KeyLaws.
Proof.
  split; cbn.
  - intros sk pem [= <-]. eapply str_all_impl; [exact lower_hex_ascii|].
    exact (@hex_encode_lower RefHex.crate RefHex.laws (arr_bytes sk)).
  - intros sk pem [= <-]. unfold of_pem.
    pose proof (hex_decode_encode (HexLaws := RefHex.laws) (arr_bytes sk)) as Hd. cbn in Hd.
    rewrite Hd. apply ok_or_ok. by apply array32_try_from_ok.
  - reflexivity.
Qed.

End RefKeys.

Module IdentityWitness.
#[local] Existing Instances RefKeys.crate RefKeys.laws.

Definition alice : PeerIdentity := mk_PeerIdentity (array32_repeat Byte.x01).
Definition bob : PeerIdentity := mk_PeerIdentity (array32_repeat Byte.x02).
Definition dir : string := "/etc/mesh".
Definition disk (os : list outcome) : World := mk_world ∅ ∅ 420 [] os [].

Lemma save_load_roundtrip_witness :
  exists w', save alice dir (disk []) = (Ok tt, w') /\
    load dir (set_outcomes [] w') = (Ok alice, set_outcomes [] w').
Proof.
  assert (is_ok (save alice dir (disk [])).1 = true) as Hok by (vm_compute; reflexivity).
  destruct (save alice dir (disk [])) as [[[]|e] w'] eqn:Hs; [|discriminate Hok].
  exists w'. split; [reflexivity|].
  apply (proj2 (proj2 (save_load_roundtrip alice dir (disk []) w' Hs))); reflexivity.
Defined.

Lemma identity_stable_witness :
  exists w1, load_or_generate (signing alice) dir (disk []) = (Ok alice, w1) /\
    load_or_generate (signing bob) dir (set_outcomes [] w1) = (Ok alice, set_outcomes [] w1).
Proof.
  assert (is_ok (load_or_generate (signing alice) dir (disk [])).1 = true) as Hok
    by (vm_compute; reflexivity).
  destruct (load_or_generate (signing alice) dir (disk [])) as [[id|e] w1] eqn:Hs; [|discriminate Hok].
  destruct (identity_stable (signing alice) (signing bob) dir (disk []) id w1 (set_outcomes [] w1))
    as [-> Hr]; [vm_compute; reflexivity..|exact Hs|reflexivity|reflexivity|].
  exists w1. by split.
Defined.

Lemma disk_ready os : dir_ready dir (disk os).
Proof. split; [|split]; vm_compute; reflexivity. Qed.

Lemma save_chmod_failure_exposes_key_witness :
  exists pem w', save alice dir (disk [Pass; Pass; Pass; Pass; Fault InvalidInput 0 false]) =
      (Err (Io InvalidInput), w') /\
    w_files w' !! identity_path dir = Some (mk_file (str_bytes pem) 420).
Proof.
  exists (Rfc4648.base16 (arr_bytes (signing alice))).
  exact (save_chmod_failure_exposes_key alice dir
    (disk [Pass; Pass; Pass; Pass; Fault InvalidInput 0 false]) _ InvalidInput 0 false
    (disk_ready _) eq_refl eq_refl eq_refl).
Defined.

(** Alice's key is on disk; bob's replaces it. *)
Definition alices_disk : World :=
  mk_world {[ identity_path dir := mk_file (str_bytes (Rfc4648.base16 (arr_bytes (signing alice)))) 384 ]}
    ∅ 420 [] [Fault InvalidInput 0 false] [].

Lemma stat_failure_replaces_identity_witness :
  load dir (set_outcomes [] alices_disk) = (Ok alice, set_outcomes [] alices_disk) /\
  exists w', load_or_generate (signing bob) dir alices_disk = (Ok bob, w') /\
    load dir (set_outcomes [] w') = (Ok bob, set_outcomes [] w').
Proof.
  destruct (stat_failure_replaces_identity (signing bob) (signing alice) dir alices_disk
    (Rfc4648.base16 (arr_bytes (signing bob))) (Rfc4648.base16 (arr_bytes (signing alice))) 384
    InvalidInput 0 false) as (Hl & w' & Hr & Hlater);
    [split; [|split]; vm_compute; reflexivity|reflexivity..|].
  split; [exact Hl|]. exists w'. split; [exact Hr|]. by apply Hlater.
Defined.

Lemma torn_save_bricks_identity_witness :
  exists w1 msg, load_or_generate (signing alice) dir
      (disk [Pass; Pass; Pass; Pass; Fault InvalidInput 0 false]) = (Err (Io InvalidInput), w1) /\
    load_or_generate (signing bob) dir (set_outcomes [] w1) = (Err (Pkcs8 msg), set_outcomes [] w1).
Proof.
  destruct (torn_save_bricks_identity (signing alice) (signing bob) dir
    (disk [Pass; Pass; Pass; Pass; Fault InvalidInput 0 false])
    (Rfc4648.base16 (arr_bytes (signing alice))) InvalidInput false (disk_ready _) eq_refl eq_refl
    ltac:(vm_compute; reflexivity) eq_refl) as (w1 & Hr & Hlater).
  destruct (Hlater (set_outcomes [] w1) eq_refl eq_refl) as [msg Hm].
  by exists w1, msg.
Defined.

End IdentityWitness.
