(* ===== verification/Tls.v ===== *)
(** * furcate-mesh-identity/src/lib.rs: raw-public-key TLS

    The rustls config builders and the two certificate verifiers. The key formats
    and rustls are third-party: their functions are a class, what their
    documentation promises a class of laws, and [RefTls] is an instance of both.
    The traits [ServerCertVerifier] and [ClientCertVerifier] of rustls are classes
    which the verifiers of the crate instantiate; [client_checks] and
    [server_checks] are the calls rustls documents to make through them when the
    other side presents its certificate and its signature over the transcript. *)

From S2P Require Import Prelude RustStd Codecs Core Fs Identity.

(** ** The crates *)

Class TlsCrates `{KeyCrates} := {
  VerifyingKey : Type;
  ProviderKey : Type;
  SignatureScheme : Type;
  DigitallySignedStruct : Type;
  WebPkiSupportedAlgorithms : Type;
  (** [to_pkcs8_der], [VerifyingKey::from_bytes], [to_public_key_der]. *)
  to_pkcs8_der : SigningKey -> result (list u8) string;
  vk_from_bytes : array32 -> result VerifyingKey string;
  to_public_key_der : VerifyingKey -> result (list u8) string;
  (** [PrivateKeyDer::try_from], the provider's [load_private_key], and
      [public_key] and signing of the loaded key. *)
  private_key_der : list u8 -> result (list u8) string;
  load_private_key : list u8 -> result ProviderKey string;
  public_key : ProviderKey -> option (list u8);
  sign : ProviderKey -> list u8 -> DigitallySignedStruct;
  (** [aws_lc_rs::default_provider().signature_verification_algorithms], its
      [supported_schemes], and [verify_tls13_signature_with_raw_key]. *)
  signature_verification_algorithms : WebPkiSupportedAlgorithms;
  supported_schemes : WebPkiSupportedAlgorithms -> list SignatureScheme;
  verify_tls13_signature_with_raw_key :
    list u8 -> list u8 -> DigitallySignedStruct -> WebPkiSupportedAlgorithms -> result unit string;
}.

(** A public key has one SubjectPublicKeyInfo; the provider derives the same
    public key; its signatures verify under that key. *)
Class TlsLaws `{TlsCrates} : Prop := {
  spki_inj a b va vb der :
    vk_from_bytes a = Ok va -> to_public_key_der va = Ok der ->
    vk_from_bytes b = Ok vb -> to_public_key_der vb = Ok der -> a = b;
  provider_public sk d p k spki :
    to_pkcs8_der sk = Ok d -> private_key_der d = Ok p -> load_private_key p = Ok k ->
    public_key k = Some spki ->
    exists v, vk_from_bytes (verifying_key sk) = Ok v /\ to_public_key_der v = Ok spki;
  sign_verifies k spki m :
    public_key k = Some spki ->
    verify_tls13_signature_with_raw_key m spki (sign k m) signature_verification_algorithms = Ok tt;
}.

(** [rustls::Error], as far as the verifiers build it. *)
Inductive RustlsError :=
| InvalidCertificate_UnknownIssuer
| PeerIncompatible_Tls12NotOffered
| RustlsOther (msg : string).

Inductive TlsVersion := TLS12 | TLS13.

(** ** The traits of rustls *)

Class ServerCertVerifier `{TlsCrates} (Self : Type) := {
  verify_server_cert : Self -> list u8 -> result unit RustlsError;
  server_tls12_signature :
    Self -> list u8 -> list u8 -> DigitallySignedStruct -> result unit RustlsError;
  server_tls13_signature :
    Self -> list u8 -> list u8 -> DigitallySignedStruct -> result unit RustlsError;
  server_verify_schemes : Self -> list SignatureScheme;
  server_requires_raw_public_keys : Self -> bool;
}.

Class ClientCertVerifier `{TlsCrates} (Self : Type) := {
  root_hint_subjects : Self -> list (list u8);
  verify_client_cert : Self -> list u8 -> result unit RustlsError;
  client_tls12_signature :
    Self -> list u8 -> list u8 -> DigitallySignedStruct -> result unit RustlsError;
  client_tls13_signature :
    Self -> list u8 -> list u8 -> DigitallySignedStruct -> result unit RustlsError;
  client_verify_schemes : Self -> list SignatureScheme;
  client_requires_raw_public_keys : Self -> bool;
}.

Section Tls.
Context `{TlsCrates}.

(** ** Key material *)

(** A SubjectPublicKeyInfo in DER. *)
Definition peer_id_to_spki (peer : PeerId) : result (list u8) IdentityError :=
  let? vk := map_err (fun e => Tls ("invalid peer pubkey: " +:+ e))
               (vk_from_bytes (PeerId.as_bytes peer)) in
  map_err (fun e => Tls ("encoding peer SPKI: " +:+ e)) (to_public_key_der vk).

(** [CertifiedKey]: the certificate chain and the key. *)
Record CertifiedKey := mk_CertifiedKey { certs : list (list u8); provider_key : ProviderKey }.

Definition certified_key_from (sk : SigningKey) : result CertifiedKey IdentityError :=
  let? pkcs8_der := map_err (fun e => Tls ("encoding private PKCS#8: " +:+ e)) (to_pkcs8_der sk) in
  let? priv_key := map_err (fun e => Tls ("rustls private key parse: " +:+ e))
                     (private_key_der pkcs8_der) in
  let? signing_key := map_err (fun e => Tls ("rustls load_private_key: " +:+ e))
                        (load_private_key priv_key) in
  let? public_spki := ok_or (Tls "signing key has no public key") (public_key signing_key) in
  Ok (mk_CertifiedKey [public_spki] signing_key).

(** ** The verifiers *)

Record RpkServerCertVerifier := mk_RpkServer {
  server_trusted : list (list u8);
  server_algs : WebPkiSupportedAlgorithms;
}.

Record RpkClientCertVerifier := mk_RpkClient {
  client_trusted : list (list u8);
  open : bool;
  client_algs : WebPkiSupportedAlgorithms;
}.

Definition RpkServerCertVerifier_new (trusted : list (list u8)) : RpkServerCertVerifier :=
  mk_RpkServer trusted signature_verification_algorithms.

Definition RpkClientCertVerifier_new (trusted : list (list u8)) : RpkClientCertVerifier :=
  mk_RpkClient trusted (bool_decide (trusted = [])) signature_verification_algorithms.

Definition rpk_verify_server_cert (self : RpkServerCertVerifier) (end_entity : list u8)
    : result unit RustlsError :=
  if decide (end_entity ∈ server_trusted self) then Ok tt
  else Err InvalidCertificate_UnknownIssuer.

Definition rpk_server_tls12_signature (self : RpkServerCertVerifier) (message cert : list u8)
    (dss : DigitallySignedStruct) : result unit RustlsError :=
  Err PeerIncompatible_Tls12NotOffered.

Definition rpk_server_tls13_signature (self : RpkServerCertVerifier) (message cert : list u8)
    (dss : DigitallySignedStruct) : result unit RustlsError :=
  map_err RustlsOther (verify_tls13_signature_with_raw_key message cert dss (server_algs self)).

#[export] Instance RpkServer_verifier : ServerCertVerifier RpkServerCertVerifier := {|
  verify_server_cert := rpk_verify_server_cert;
  server_tls12_signature := rpk_server_tls12_signature;
  server_tls13_signature := rpk_server_tls13_signature;
  server_verify_schemes self := supported_schemes (server_algs self);
  server_requires_raw_public_keys self := true |}.

Definition rpk_verify_client_cert (self : RpkClientCertVerifier) (end_entity : list u8)
    : result unit RustlsError :=
  if open self then Ok tt
  else if decide (end_entity ∈ client_trusted self) then Ok tt
  else Err InvalidCertificate_UnknownIssuer.

Definition rpk_client_tls12_signature (self : RpkClientCertVerifier) (message cert : list u8)
    (dss : DigitallySignedStruct) : result unit RustlsError :=
  Err PeerIncompatible_Tls12NotOffered.

Definition rpk_client_tls13_signature (self : RpkClientCertVerifier) (message cert : list u8)
    (dss : DigitallySignedStruct) : result unit RustlsError :=
  map_err RustlsOther (verify_tls13_signature_with_raw_key message cert dss (client_algs self)).

#[export] Instance RpkClient_verifier : ClientCertVerifier RpkClientCertVerifier := {|
  root_hint_subjects self := [];
  verify_client_cert := rpk_verify_client_cert;
  client_tls12_signature := rpk_client_tls12_signature;
  client_tls13_signature := rpk_client_tls13_signature;
  client_verify_schemes self := supported_schemes (client_algs self);
  client_requires_raw_public_keys self := true |}.

(** ** The config builders *)

Record ServerTlsConfig := mk_ServerTlsConfig {
  server_identity : PeerIdentity;
  allowed : list PeerId;
}.

Record ClientTlsConfig := mk_ClientTlsConfig {
  client_identity : PeerIdentity;
  expected_server : PeerId;
}.

(** [rustls::ServerConfig] and [ClientConfig]: protocol versions, verifier of the
    other side, and the resolver, which always presents the one key. *)
Record ServerConfig := mk_ServerConfig {
  sc_versions : list TlsVersion;
  sc_verifier : RpkClientCertVerifier;
  sc_key : CertifiedKey;
}.

Record ClientConfig := mk_ClientConfig {
  cc_versions : list TlsVersion;
  cc_verifier : RpkServerCertVerifier;
  cc_key : CertifiedKey;
}.

Definition ServerTlsConfig_build (self : ServerTlsConfig) : result ServerConfig IdentityError :=
  let? allowed_spki := collect_results peer_id_to_spki (allowed self) in
  let? certified_key := certified_key_from (signing (server_identity self)) in
  Ok (mk_ServerConfig [TLS13] (RpkClientCertVerifier_new allowed_spki) certified_key).

Definition ClientTlsConfig_build (self : ClientTlsConfig) : result ClientConfig IdentityError :=
  let? server_spki := peer_id_to_spki (expected_server self) in
  let? certified_key := certified_key_from (signing (client_identity self)) in
  Ok (mk_ClientConfig [TLS13] (RpkServerCertVerifier_new [server_spki]) certified_key).

(** ** Handshakes *)

(** What one side sends: its end-entity certificate and its signature over the
    handshake transcript. *)
Definition credentials : Type := list u8 * DigitallySignedStruct.

Definition present (k : CertifiedKey) (transcript : list u8) : credentials :=
  (default [] (head (certs k)), sign (provider_key k) transcript).

(** The other side's checks, through its verifier, for the negotiated version. *)
Definition client_checks {V} `{!ServerCertVerifier V} (v : V) (version : TlsVersion)
    (transcript : list u8) (cr : credentials) : result unit RustlsError :=
  let? _ := verify_server_cert v cr.1 in
  match version with
  | TLS12 => server_tls12_signature v transcript cr.1 cr.2
  | TLS13 => server_tls13_signature v transcript cr.1 cr.2
  end.

Definition server_checks {V} `{!ClientCertVerifier V} (v : V) (version : TlsVersion)
    (transcript : list u8) (cr : credentials) : result unit RustlsError :=
  let? _ := verify_client_cert v cr.1 in
  match version with
  | TLS12 => client_tls12_signature v transcript cr.1 cr.2
  | TLS13 => client_tls13_signature v transcript cr.1 cr.2
  end.

(** Two configured sides meet: the client checks the server, then the server the
    client. *)
Definition handshake (c : ClientConfig) (s : ServerConfig) (transcript : list u8)
    : result unit RustlsError :=
  let? _ := client_checks (cc_verifier c) TLS13 transcript (present (sc_key s) transcript) in
  server_checks (sc_verifier s) TLS13 transcript (present (cc_key c) transcript).

End Tls.

Section Facts.
Context `{TlsLaws}.

Lemma peer_id_to_spki_inj p q der :
  peer_id_to_spki p = Ok der -> peer_id_to_spki q = Ok der -> p = q.
Proof.
  unfold peer_id_to_spki. intros Hp Hq. inv_ok.
  destruct p as [a], q as [b]. f_equal. by eapply spki_inj.
Qed.

(** A built key presents the SPKI of the identity's peer id, with a signature
    that verifies under it. *)
Lemma certified_key_presents id k m :
  certified_key_from (signing id) = Ok k ->
  peer_id_to_spki (peer_id id) = Ok (present k m).1 /\
  verify_tls13_signature_with_raw_key m (present k m).1 (present k m).2
    signature_verification_algorithms = Ok tt.
Proof.
  unfold certified_key_from. intros Hk. inv_ok. cbn. split; [|by apply sign_verifies].
  edestruct provider_public as (vk & Hv & Hd); [done..|].
  unfold peer_id_to_spki, peer_id. cbn [PeerId.as_bytes]. rewrite Hv. cbn [map_err rbind]. by rewrite Hd.
Qed.

Lemma collected_spki ps ders der :
  collect_results peer_id_to_spki ps = Ok ders ->
  der ∈ ders <-> exists p, p ∈ ps /\ peer_id_to_spki p = Ok der.
Proof.
  intros HF%collect_results_ok. split.
  - intros (i & Hi)%list_elem_of_lookup. destruct (Forall2_lookup_r _ _ _ _ _ HF Hi) as (q & Hq & Hd).
    exists q. split; [by eapply list_elem_of_lookup_2|done].
  - intros (p & (i & Hi)%list_elem_of_lookup & Hp).
    destruct (Forall2_lookup_l _ _ _ _ _ HF Hi) as (d & Hd & Hq).
    rewrite Hp in Hq. injection Hq as <-. by eapply list_elem_of_lookup_2.
Qed.

Lemma collected_nil ps ders :
  collect_results peer_id_to_spki ps = Ok ders -> ders = [] <-> ps = [].
Proof.
  intros HF%collect_results_ok%Forall2_length. by rewrite <- !length_zero_iff_nil, HF.
Qed.

(** What a built client accepts, from whoever is on the other side. *)
Lemma client_checks_iff cfg cc version m cr :
  ClientTlsConfig_build cfg = Ok cc ->
  client_checks (cc_verifier cc) version m cr = Ok tt <->
  version = TLS13 /\ peer_id_to_spki (expected_server cfg) = Ok cr.1 /\
  verify_tls13_signature_with_raw_key m cr.1 cr.2 signature_verification_algorithms = Ok tt.
Proof.
  unfold ClientTlsConfig_build. intros Hc. inv_ok. unfold client_checks. cbn.
  unfold rpk_verify_server_cert. rewrite rbind_tt_ok.
  cbn [server_trusted RpkServerCertVerifier_new].
  destruct version; [naive_solver|]. unfold rpk_server_tls13_signature. rewrite map_err_ok_iff. cbn [server_algs].
  case_decide as Hd; rewrite list_elem_of_singleton in Hd; naive_solver.
Qed.

(** What a built server accepts. *)
Lemma server_checks_iff cfg sc version m cr :
  ServerTlsConfig_build cfg = Ok sc ->
  server_checks (sc_verifier sc) version m cr = Ok tt <->
  version = TLS13 /\
  (allowed cfg = [] \/ exists p, p ∈ allowed cfg /\ peer_id_to_spki p = Ok cr.1) /\
  verify_tls13_signature_with_raw_key m cr.1 cr.2 signature_verification_algorithms = Ok tt.
Proof.
  unfold ServerTlsConfig_build. intros Hs. inv_ok. unfold server_checks. cbn.
  unfold rpk_verify_client_cert. rewrite rbind_tt_ok.
  cbn [client_trusted open RpkClientCertVerifier_new].
  match goal with Hr : collect_results _ _ = Ok ?l |- _ =>
    pose proof (collected_spki _ _ cr.1 Hr) as Hin; pose proof (collected_nil _ _ Hr) as Hnil end.
  destruct version; [naive_solver|]. unfold rpk_client_tls13_signature. rewrite map_err_ok_iff. cbn [client_algs].
  case_bool_decide; [naive_solver|]. case_decide; naive_solver.
Qed.

(** What two built sides make of each other. *)
Lemma checks_ok_iff ccfg cc scfg sc m :
  ClientTlsConfig_build ccfg = Ok cc -> ServerTlsConfig_build scfg = Ok sc ->
  (client_checks (cc_verifier cc) TLS13 m (present (sc_key sc) m) = Ok tt <->
   peer_id (server_identity scfg) = expected_server ccfg) /\
  (server_checks (sc_verifier sc) TLS13 m (present (cc_key cc) m) = Ok tt <->
   allowed scfg = [] \/ peer_id (client_identity ccfg) ∈ allowed scfg).
Proof.
  intros Hc Hs.
  assert (certified_key_from (signing (client_identity ccfg)) = Ok (cc_key cc)) as Hck
    by (unfold ClientTlsConfig_build in Hc; by inv_ok).
  assert (certified_key_from (signing (server_identity scfg)) = Ok (sc_key sc)) as Hsk
    by (unfold ServerTlsConfig_build in Hs; by inv_ok).
  apply (certified_key_presents _ _ m) in Hck as [Hcp Hcs], Hsk as [Hsp Hss].
  rewrite (client_checks_iff _ _ _ _ _ Hc), (server_checks_iff _ _ _ _ _ Hs). split; split.
  - intros (_ & He & _). by eapply peer_id_to_spki_inj.
  - intros He. by rewrite <- He.
  - intros (_ & Ha & _). destruct Ha as [Ha|(p & Hp & Hd)]; [by left|right].
    by rewrite (peer_id_to_spki_inj _ _ _ Hcp Hd).
  - intros Ha. split_and!; try done. destruct Ha as [Ha|Ha]; eauto.
Qed.

Lemma handshake_ok_iff ccfg cc scfg sc m :
  ClientTlsConfig_build ccfg = Ok cc -> ServerTlsConfig_build scfg = Ok sc ->
  handshake cc sc m = Ok tt <->
  peer_id (server_identity scfg) = expected_server ccfg /\
  (allowed scfg = [] \/ peer_id (client_identity ccfg) ∈ allowed scfg).
Proof.
  intros Hc Hs. destruct (checks_ok_iff ccfg cc scfg sc m Hc Hs) as [<- <-].
  unfold handshake. apply rbind_tt_ok.
Qed.

(** C15: authentication. Whoever is on the other side and whatever it presents, a
    built client accepts exactly the SPKI of the expected peer with a signature over
    the transcript that verifies under it, and a built server, unless its allow-list
    is empty, exactly the SPKI of an allowed peer with such a signature; an open
    server still demands the signature. Nothing is accepted over TLS 1.2. *)
Theorem tls_authenticates ccfg cc scfg sc version m cr :
  ClientTlsConfig_build ccfg = Ok cc -> ServerTlsConfig_build scfg = Ok sc ->
  let proves_possession := verify_tls13_signature_with_raw_key m cr.1 cr.2
    signature_verification_algorithms = Ok tt in
  (client_checks (cc_verifier cc) version m cr = Ok tt <->
     version = TLS13 /\ peer_id_to_spki (expected_server ccfg) = Ok cr.1 /\ proves_possession) /\
  (server_checks (sc_verifier sc) version m cr = Ok tt <->
     version = TLS13 /\
     (allowed scfg = [] \/ exists p, p ∈ allowed scfg /\ peer_id_to_spki p = Ok cr.1) /\
     proves_possession).
Proof. intros Hc Hs. split; [by apply client_checks_iff|by apply server_checks_iff]. Qed.

(** C16: two peers with built TLS configs accept each other exactly when the
    server's key is the one the client expects and the server's allow-list is empty
    or contains the client's; both sides offer TLS 1.3 only and insist on raw
    public keys. *)
Theorem handshake_iff ccfg cc scfg sc m :
  ClientTlsConfig_build ccfg = Ok cc -> ServerTlsConfig_build scfg = Ok sc ->
  cc_versions cc = [TLS13] /\ sc_versions sc = [TLS13] /\
  server_requires_raw_public_keys (cc_verifier cc) = true /\
  client_requires_raw_public_keys (sc_verifier sc) = true /\
  (handshake cc sc m = Ok tt <->
   peer_id (server_identity scfg) = expected_server ccfg /\
   (allowed scfg = [] \/ peer_id (client_identity ccfg) ∈ allowed scfg)).
Proof.
  intros Hc Hs. pose proof (handshake_ok_iff ccfg cc scfg sc m Hc Hs) as Hi.
  unfold ClientTlsConfig_build in Hc. unfold ServerTlsConfig_build in Hs. inv_ok. by split_and!.
Qed.

End Facts.

(** ** A reference instance, and concrete runs *)

Module RefTls.
#[local] Existing Instances RefKeys.crate RefKeys.laws.

(** A signature is the signer's SPKI with the message: it verifies under the SPKI
    it names. *)
Definition spki_prefix : list u8 := [Byte.x30; Byte.x2a].
Definition spki (k : array32) : list u8 := spki_prefix ++ arr_bytes k.

#[export] Instance crate : TlsCrates := {|
  VerifyingKey := array32; ProviderKey := array32; SignatureScheme := Z;
  DigitallySignedStruct := list u8 * list u8; WebPkiSupportedAlgorithms := list Z;
  to_pkcs8_der sk := Ok (arr_bytes (sk : array32));
  vk_from_bytes a := Ok a;
  to_public_key_der v := Ok (spki v);
  private_key_der d := Ok d;
  load_private_key d := ok_or "bad key" (array32_try_from d);
  public_key k := Some (spki k);
  sign k m := (spki k, m);
  signature_verification_algorithms := [2055]%Z;
  supported_schemes algs := algs;
  verify_tls13_signature_with_raw_key m key dss algs :=
    if decide (dss = (key, m)) then Ok tt else Err "bad signature" |}.

#[export] Instance laws : TlsLaws.
Proof.
  split; cbn.
  - intros a b va vb der [= <-] [= <-] [= <-] [= Hd]. by apply array32_ext.
  - intros sk d p k key [= <-] [= <-] Hk [= <-]. exists sk. split; [done|].
    apply ok_or_ok, array32_try_from_ok in Hk. unfold spki. by rewrite Hk.
  - intros k key m [= <-]. by rewrite decide_True.
Qed.

End RefTls.

Module TlsWitness.
#[local] Existing Instances RefKeys.crate RefKeys.laws RefTls.crate RefTls.laws.
Import IdentityWitness.

Definition transcript : list u8 := [Byte.x01; Byte.x02].
Definition client : ClientTlsConfig := mk_ClientTlsConfig alice (peer_id bob).
Definition server : ServerTlsConfig := mk_ServerTlsConfig bob [peer_id alice].

Lemma handshake_iff_witness :
  exists cc sc, ClientTlsConfig_build client = Ok cc /\
    ServerTlsConfig_build server = Ok sc /\ handshake cc sc transcript = Ok tt.
Proof.
  destruct (ClientTlsConfig_build client) as [cc|e] eqn:Hc; [|discriminate Hc].
  destruct (ServerTlsConfig_build server) as [sc|e] eqn:Hs; [|discriminate Hs].
  exists cc, sc. split; [done|]. split; [done|].
  apply (handshake_iff client cc server sc transcript Hc Hs).
  split; [reflexivity|]. right. by left.
Defined.

(** A server that replays bob's certificate without a signature is refused. *)
Lemma tls_authenticates_witness :
  exists cc, ClientTlsConfig_build client = Ok cc /\
    client_checks (cc_verifier cc) TLS13 transcript (RefTls.spki (signing bob), ([], [])) <> Ok tt.
Proof.
  destruct (ClientTlsConfig_build client) as [cc|e] eqn:Hc; [|discriminate Hc].
  destruct (ServerTlsConfig_build server) as [sc|e] eqn:Hs; [|discriminate Hs].
  exists cc. split; [done|].
  destruct (tls_authenticates client cc server sc TLS13 transcript
    (RefTls.spki (signing bob), ([], [])) Hc Hs) as [Hi _].
  intros (_ & _ & Hv)%Hi. discriminate Hv.
Defined.

End TlsWitness.
