(* ===== verification/Transport.v ===== *)
(** * furcate-mesh-transport/src/lib.rs: event keys, publish and subscribe

    The key expression of each event, the wildcard subscriptions, and the JSON
    path of an event from [publish] to a subscriber's stream. Zenoh is
    third-party: its configuration and session are operations of a class, its
    key-expression matching a class with the documented wildcard semantics as
    law. [key_for] has arms for five of the ten variants of [MeshEvent]; the
    model returns [None] where the source has no arm. *)

From Stdlib Require Import Ascii SpecFloat.
From stdpp Require Import relations.
From S2P Require Import Prelude RustStd Codecs Core Wire Serde Event Json Fs Channel.

(** ** Key expressions *)

Definition ROOT : string := "furcate/mesh".
Definition SUB_ALL_HEARTBEATS : string := "furcate/mesh/*/heartbeat".
Definition SUB_ALL_MODELS : string := "furcate/mesh/*/model/**".
Definition SUB_ALL_AGENT_STATE : string := "furcate/mesh/*/agent/**".

Inductive TransportError :=
| Zenoh (msg : string)
| Encoding (msg : string).

Record TransportConfig := mk_TransportConfig {
  listen : option string;
  connect : list string;
}.

Definition TransportConfig_default : TransportConfig :=
  mk_TransportConfig (Some "tcp/0.0.0.0:7447") [].

(** Zenoh's configuration and session opening. *)
Class ZenohCrate := {
  Config : Type;
  Config_default : Config;
  insert_json5 : Config -> string -> string -> result Config string;
  ZSession : Type;
  zenoh_open : Config -> result ZSession string;
  (** [declare_subscriber], of which only the failure matters here. *)
  declare_subscriber : ZSession -> string -> result unit string;
}.

Section Transport.
Context `{HexCrate, Base64Crate, JsonCrate}.

(** [format!("{ROOT}/{peer}/..")]: a [PeerId] displays as its full hex. *)
Definition peer_key (p : PeerId) (tail : string) : string :=
  ROOT +:+ "/" +:+ PeerId.fmt_display p +:+ "/" +:+ tail.

Definition key_for (event : MeshEvent) : option string :=
  match event with
  | Heartbeat peer _ _ => Some (peer_key peer "heartbeat")
  | ModelAnnounce peer _ model_name _ _ => Some (peer_key peer ("model/" +:+ model_name))
  | WorkOffer _ to _ _ => Some (peer_key to "work-offer")
  | WorkResult _ to _ => Some (peer_key to "work-result")
  | AgentState peer _ agent_id _ => Some (peer_key peer ("agent/" +:+ agent_id))
  | _ => None
  end.

Definition key_work_offer (to : PeerId) (request_id : string) : string :=
  peer_key to ("work-offer/" +:+ request_id).

Definition key_work_result (to : PeerId) (request_id : string) : string :=
  peer_key to ("work-result/" +:+ request_id).

(** ** [Transport::new] *)

Section Session.
Context `{ZenohCrate}.

(** [serde_json::to_string] of a list of strings. *)
Definition endpoints_json (what : string) (l : list string) : result string TransportError :=
  map_ok bytes_str
    (map_err (fun e => Encoding (what +:+ " endpoints: " +:+ e)) (json_to_vec (VArr (VStr <$> l)))).

Definition insert (config : Config) (key json : string) : result Config TransportError :=
  map_err (fun e => Zenoh (key +:+ ": " +:+ e)) (insert_json5 config key json).

Definition Transport_new (cfg : TransportConfig) : result ZSession TransportError :=
  let? config := insert Config_default "mode" (String "034" ("peer" +:+ String "034" "")) in
  let? config :=
    match listen cfg with
    | Some l => let? j := endpoints_json "listen" [l] in insert config "listen/endpoints" j
    | None => Ok config
    end in
  let? config :=
    match connect cfg with
    | [] => Ok config
    | c => let? j := endpoints_json "connect" c in insert config "connect/endpoints" j
    end in
  map_err (fun e => Zenoh ("open: " +:+ e)) (zenoh_open config).

End Session.

(** ** [publish] *)

(** [None]: the event has no arm in [key_for]. *)
Definition publish (event : MeshEvent) : option (io unit TransportError) :=
  match key_for event with
  | None => None
  | Some key => Some (
      let! bytes := io_lift (map_err (fun e => Encoding ("encoding event: " +:+ e))
                               (json_to_vec (ser_event event))) in
      io_map_err (fun e => Zenoh ("put " +:+ key +:+ ": " +:+ fmt_io_error e))
        (send (mk_sample key bytes None)))
  end.

(** ** [subscribe] *)

Definition decode_sample (sample : Sample) : result MeshEvent TransportError :=
  map_err (fun e => Encoding ("decoding event on " +:+ s_key sample +:+ ": " +:+ e))
    (from_slice_as de_event (s_payload sample)).

(** The forwarding task, on the samples that arrive before the subscriber's
    channel closes; the consumer drops its stream after [room] items, or never. *)
Fixpoint forward (room : option nat) (samples : list Sample)
    : list (result MeshEvent TransportError) :=
  match samples with
  | [] => []
  | sample :: samples =>
      let decoded := decode_sample sample in
      match room with
      | None => decoded :: forward None samples
      | Some 0 => []
      | Some (S n) => decoded :: forward (Some n) samples
      end
  end.

Definition subscribe `{ZenohCrate} (session : ZSession) (key_expr : string) (room : option nat)
    (samples : list Sample) : result (list (result MeshEvent TransportError)) TransportError :=
  let? _ := map_err (fun e => Zenoh ("declare_subscriber " +:+ key_expr +:+ ": " +:+ e))
              (declare_subscriber session key_expr) in
  Ok (forward room samples).

End Transport.

(** ** Key-expression matching *)

(** The chunks between the separators. *)
Fixpoint chunks (s : string) : list string :=
  match s with
  | "" => [""]
  | String c s' =>
      if Ascii.eqb c "/" then "" :: chunks s'
      else match chunks s' with
           | [] => [String c ""]
           | k :: ks => String c k :: ks
           end
  end.

(** A chunk that starts with [@] is verbatim: no wildcard stands for it. *)
Definition verbatim (c : string) : bool := starts_with "@" c.

(** [*] stands for exactly one chunk, [**] for any number of chunks. *)
Inductive chunks_match : list string -> list string -> Prop :=
| cm_nil : chunks_match [] []
| cm_lit c ps ks : c <> "*" -> c <> "**" -> chunks_match ps ks -> chunks_match (c :: ps) (c :: ks)
| cm_star k ps ks : verbatim k = false -> chunks_match ps ks -> chunks_match ("*" :: ps) (k :: ks)
| cm_stars_none ps ks : chunks_match ps ks -> chunks_match ("**" :: ps) ks
| cm_stars_one k ps ks :
    verbatim k = false -> chunks_match ("**" :: ps) ks -> chunks_match ("**" :: ps) (k :: ks).

(** A key to publish on: no wildcard or reserved character, no empty chunk. *)
Definition valid_key (k : string) : bool :=
  str_all (fun c => negb (existsb (Ascii.eqb c) ["*"; "$"; "?"; "#"]%char)) k &&
  forallb (fun c => negb (String.eqb c "")) (chunks k).

(** A pattern whose wildcards are whole chunks. *)
Definition whole_chunk_pattern (p : string) : bool :=
  forallb (fun c => String.eqb c "*" || String.eqb c "**" || valid_key c) (chunks p).

Class KeyExprCrate := { ke_includes : string -> string -> bool }.

Class KeyExprLaws `{KeyExprCrate} : Prop := {
  ke_includes_spec p k :
    whole_chunk_pattern p = true -> valid_key k = true ->
    ke_includes p k = true <-> chunks_match (chunks p) (chunks k);
}.

(** ** Keys identify their events' topics *)

Section Keys.
Context `{HexLaws}.

Lemma peer_key_inj p q a b : peer_key p a = peer_key q b -> p = q /\ a = b.
Proof.
  unfold peer_key, PeerId.fmt_display. intros Hk. do 2 apply str_app_inj_l in Hk.
  apply str_app_inj_length in Hk as [Hp Hab]; [|by rewrite !to_hex_length].
  apply str_app_inj_l in Hab. split; [by apply to_hex_inj|done].
Qed.

(** The topic of an event: its kind, the peer it is filed under, and the name
    below it. *)
Definition topic (e : MeshEvent) : variant * option PeerId * string :=
  (variant_of e,
   match e with
   | Heartbeat p _ _ | ModelAnnounce p _ _ _ _ | AgentState p _ _ _ => Some p
   | WorkOffer _ to _ _ | WorkResult _ to _ => Some to
   | _ => None
   end,
   match e with
   | ModelAnnounce _ _ n _ _ => n
   | AgentState _ _ a _ => a
   | _ => ""
   end).

(** C34: two events are published on the same key only if they have the same
    kind, the same peer and the same model or agent name, and keys of distinct
    requests or peers differ; no event's key is a request key. *)
Theorem keys_injective :
  (forall e1 e2 k, key_for e1 = Some k -> key_for e2 = Some k -> topic e1 = topic e2) /\
  (forall p q a b, key_work_offer p a = key_work_offer q b -> p = q /\ a = b) /\
  (forall p q a b, key_work_result p a = key_work_result q b -> p = q /\ a = b) /\
  (forall p q a b, key_work_offer p a <> key_work_result q b) /\
  (forall e p a, key_for e <> Some (key_work_offer p a) /\ key_for e <> Some (key_work_result p a)).
Proof.
  split_and!.
  - intros e1 e2 k Hk1 Hk2.
    destruct e1; try discriminate Hk1; destruct e2; try discriminate Hk2;
      cbn [key_for] in Hk1, Hk2; rewrite <- Hk2 in Hk1; apply (inj Some) in Hk1 as Hk;
      apply peer_key_inj in Hk as [-> Ht];
      try discriminate Ht; try (apply str_app_inj_l in Ht as ->); done.
  - intros p q a b [-> Ht]%peer_key_inj. by apply str_app_inj_l in Ht.
  - intros p q a b [-> Ht]%peer_key_inj. by apply str_app_inj_l in Ht.
  - intros p q a b [_ Ht]%peer_key_inj. discriminate Ht.
  - intros e p a. split; destruct e; cbn [key_for]; try discriminate;
      intros Hk%(inj Some); apply peer_key_inj in Hk as [_ Ht]; discriminate Ht.
Qed.

(** ** Subscriptions *)

Lemma chunks_no_slash s r :
  str_all (fun c => negb (Ascii.eqb c "/")) s = true -> chunks (s +:+ "/" +:+ r) = s :: chunks r.
Proof.
  induction s as [|c s IH]; [done|]. cbn [str_all]. rewrite andb_true_iff. intros [Hc Hs].
  rewrite str_app_cons. cbn [chunks]. rewrite IH by done. by destruct (Ascii.eqb c "/").
Qed.

Lemma lower_hex_no_slash s :
  str_all is_lower_hex s = true -> str_all (fun c => negb (Ascii.eqb c "/")) s = true.
Proof. apply str_all_impl. by intros [[] [] [] [] [] [] [] []]. Qed.

Lemma chunks_peer_key p t :
  chunks (peer_key p t) = "furcate" :: "mesh" :: PeerId.fmt_display p :: chunks t.
Proof.
  unfold peer_key, ROOT. change ("furcate/mesh" +:+ ?r) with ("furcate" +:+ "/" +:+ ("mesh" +:+ r)).
  rewrite !chunks_no_slash; [done|apply lower_hex_no_slash, to_hex_lower|done|done].
Qed.

Lemma match_lit c ps k ks :
  c <> "*" -> c <> "**" -> chunks_match (c :: ps) (k :: ks) <-> k = c /\ chunks_match ps ks.
Proof.
  intros H1 H2. split; [inversion 1; by subst|]. intros [-> Hm]. by apply cm_lit.
Qed.

Lemma match_star ps k ks :
  chunks_match ("*" :: ps) (k :: ks) <-> verbatim k = false /\ chunks_match ps ks.
Proof. split; [by inversion 1; subst|]. intros [Hv Hm]. by apply cm_star. Qed.

Lemma match_stars ks : chunks_match ["**"] ks <-> forallb (fun c => negb (verbatim c)) ks = true.
Proof.
  split.
  - remember ["**"] as ps eqn:E. induction 1 as [| | |ps ks Hm _|k ps ks Hv _ IH]; try congruence.
    + injection E as ->. by inversion Hm.
    + cbn [forallb]. by rewrite Hv, IH.
  - induction ks as [|k ks IH]; [intros _; by apply cm_stars_none, cm_nil|].
    cbn [forallb]. rewrite andb_true_iff, negb_true_iff. intros [Hv Hks]. apply cm_stars_one; auto.
Qed.

Lemma match_nil ks : chunks_match [] ks <-> ks = [].
Proof. split; [by inversion 1|]. intros ->. apply cm_nil. Qed.

Lemma lower_hex_not_verbatim s : str_all is_lower_hex s = true -> verbatim s = false.
Proof.
  destruct s as [|c s]; [done|]. cbn [str_all]. intros [Hc _]%andb_true_iff. revert Hc.
  by destruct c as [[] [] [] [] [] [] [] []].
Qed.

(** The two shapes of the subscription patterns, on a peer's key. *)
Lemma match_peer_topic lit p c cs :
  lit <> "*" -> lit <> "**" -> verbatim p = false ->
  (chunks_match ["furcate"; "mesh"; "*"; lit] ("furcate" :: "mesh" :: p :: c :: cs) <->
   c = lit /\ cs = []) /\
  (chunks_match ["furcate"; "mesh"; "*"; lit; "**"] ("furcate" :: "mesh" :: p :: c :: cs) <->
   c = lit /\ forallb (fun c => negb (verbatim c)) cs = true).
Proof.
  intros H1 H2 Hp. split; rewrite !match_lit, match_star, match_lit by done;
    [rewrite match_nil|rewrite match_stars]; naive_solver.
Qed.

Lemma key_chunks e k :
  key_for e = Some k -> exists p c cs, chunks k = "furcate" :: "mesh" :: p :: c :: cs /\
    verbatim p = false /\
    match e with
    | Heartbeat _ _ _ => c = "heartbeat" /\ cs = []
    | ModelAnnounce _ _ _ _ _ => c = "model" /\ cs = chunks (topic e).2
    | WorkOffer _ _ _ _ => c = "work-offer"
    | WorkResult _ _ _ => c = "work-result"
    | AgentState _ _ _ _ => c = "agent" /\ cs = chunks (topic e).2
    | _ => False
    end.
Proof.
  destruct e; cbn [key_for]; intros Hk; try discriminate Hk; apply (inj Some) in Hk as <-;
    rewrite chunks_peer_key;
    match goal with |- context [PeerId.fmt_display ?p] =>
      pose proof (lower_hex_not_verbatim _ (to_hex_lower p) : verbatim (PeerId.fmt_display p) = false) end.
  - by eexists _, _, _.
  - rewrite (chunks_no_slash "model" model_name eq_refl : chunks ("model/" +:+ model_name) = _).
    by eexists _, _, _.
  - by eexists _, _, _.
  - by eexists _, _, _.
  - rewrite (chunks_no_slash "agent" agent_id eq_refl : chunks ("agent/" +:+ agent_id) = _).
    by eexists _, _, _.
Qed.

Context `{KeyExprLaws}.

(** A name without verbatim chunks, which wildcards can stand for. *)
Definition plain_name (name : string) : bool := forallb (fun c => negb (verbatim c)) (chunks name).

(** C35: for every event with a well-formed key, the three wildcard subscriptions
    select exactly the heartbeats, the model announcements and the agent states; but
    of the latter two only those whose name has no chunk that starts with [@], so that
    the announcement of a model called [@x] reaches no subscriber. *)
Theorem subscriptions_select e k :
  key_for e = Some k -> valid_key k = true ->
  (ke_includes SUB_ALL_HEARTBEATS k = true <-> variant_of e = KHeartbeat) /\
  (ke_includes SUB_ALL_MODELS k = true <->
   variant_of e = KModelAnnounce /\ plain_name (topic e).2 = true) /\
  (ke_includes SUB_ALL_AGENT_STATE k = true <->
   variant_of e = KAgentState /\ plain_name (topic e).2 = true).
Proof.
  intros Hk Hv. rewrite !ke_includes_spec by done.
  change (chunks SUB_ALL_HEARTBEATS) with ["furcate"; "mesh"; "*"; "heartbeat"].
  change (chunks SUB_ALL_MODELS) with ["furcate"; "mesh"; "*"; "model"; "**"].
  change (chunks SUB_ALL_AGENT_STATE) with ["furcate"; "mesh"; "*"; "agent"; "**"].
  apply key_chunks in Hk as (p & c & cs & -> & Hp & He).
  destruct (match_peer_topic "heartbeat" p c cs) as [-> _]; [done..|].
  destruct (match_peer_topic "model" p c cs) as [_ ->]; [done..|].
  destruct (match_peer_topic "agent" p c cs) as [_ ->]; [done..|].
  destruct e; try done; cbn [variant_of]; naive_solver.
Qed.
End Keys.

(** ** From publisher to subscriber *)

Section Pipe.
Context `{HexLaws, Base64Laws, JsonLaws}.

(** Floats that have a JSON form. *)
Definition floats_finite (e : MeshEvent) : bool :=
  match e with
  | Heartbeat _ _ load => is_finite load
  | SensorReading _ _ _ _ value _ _ => is_finite value
  | _ => true
  end.

(** The event a reader gets from the event's JSON text: its float is what the crate
    reads from the digits it wrote, everything else is as it was. *)
Definition reread_event (e : MeshEvent) : MeshEvent :=
  match e with
  | Heartbeat p c load => Heartbeat p c (reread_float load)
  | SensorReading p c id metric value unit raw => SensorReading p c id metric (reread_float value) unit raw
  | _ => e
  end.

Lemma reread_ser e : reread reread_float (ser_event e) = ser_event (reread_event e).
Proof. by destruct e as [| | | | |? ? ? ? ? ? []| | | |]. Qed.

Lemma json_ok_int n max : (max <= u64_max)%Z -> (0 <= n <= max)%Z -> json_ok (VInt n) = true.
Proof. intros Hm Hn. unfold u64_max in *. cbn. rewrite andb_true_iff, !Z.leb_le. unfold u64_max. lia. Qed.

Lemma json_ok_clock c : Hlc.wf c -> json_ok (ser_clock c) = true.
Proof.
  intros [Hw Hc]. unfold ser_clock. cbn [json_ok forallb snd].
  pose proof (json_ok_int _ _ (Z.le_refl _) Hw) as Hj1.
  pose proof (json_ok_int (Hlc.counter c) u32_max ltac:(done) Hc) as Hj2.
  cbn [json_ok] in Hj1, Hj2. by rewrite Hj1, Hj2.
Qed.

Lemma json_ok_event e : event_wf e -> floats_finite e = true -> json_ok (ser_event e) = true.
Proof.
  intros Hwf Hfin. unfold ser_event.
  destruct e as [| | | | |? ? ? ? ? ? []| | | |]; cbn [event_wf floats_finite ser_fields] in *;
    cbn [app json_ok forallb snd andb]; rewrite ?json_ok_clock by tauto; cbn; rewrite ?Hfin; try done.
  - rewrite !andb_true_r, andb_true_iff, !Z.leb_le. unfold u8_max, u64_max in *. lia.
  - rewrite !andb_true_r, !andb_true_iff, !Z.leb_le. unfold u32_max, u64_max in *. lia.
Qed.

(** JSON carries every event with finite floats, also the variants without a key. *)
Lemma event_text_roundtrip e :
  event_wf e -> floats_finite e = true ->
  exists bs, json_to_vec (ser_event e) = Ok bs /\ from_slice_as de_event bs = Ok (reread_event e).
Proof.
  intros Hwf Hfin. destruct (json_roundtrip _ (json_ok_event e Hwf Hfin) (event_shallow e)) as (bs & Hb & Hr).
  exists bs. split; [done|]. unfold from_slice_as. rewrite Hr, reread_ser. cbn [rbind].
  rewrite de_event_ser; [done|]. by destruct e.
Qed.

(** The text of an event starts with its tag. *)
Lemma event_text_tag fmt e :
  starts_with ("{" +:+ quoted "kind" +:+ ":" +:+ quoted (kind e)) (json_text fmt (ser_event e)) = true.
Proof.
  assert (exists y l, ser_fields e = y :: l) as (y & l & Hf)
    by (destruct e as [| | | | |? ? ? ? ? ? []| | | |]; by eexists _, _).
  unfold ser_event. rewrite Hf. cbn [json_text map fst snd]. rewrite join_cons, !str_app_assoc.
  rewrite (escape_plain (kind e)) by (by destruct e).
  change (escape "kind") with "kind". eapply starts_with_app. rewrite !str_app_assoc. reflexivity.
Qed.

(** Publishing sends one sample, the JSON text of the event, which decodes to it. *)
Lemma publish_sends e k :
  key_for e = Some k -> event_wf e -> floats_finite e = true ->
  exists run s, publish e = Some run /\ s_key s = k /\
    s_payload s = str_bytes (json_text json_float (ser_event e)) /\
    (forall w, run w = io_map_err (fun err => Zenoh ("put " +:+ k +:+ ": " +:+ fmt_io_error err)) (send s) w) /\
    decode_sample s = Ok (reread_event e).
Proof.
  intros Hk Hwf Hfin. destruct (event_text_roundtrip e Hwf Hfin) as (bs & Hb & Hd).
  unfold publish. rewrite Hk. eexists _, (mk_sample k bs None).
  split_and!; [reflexivity|done| | |].
  - cbn [s_payload]. rewrite json_layout in Hb by (by apply json_ok_event). by injection Hb.
  - intros w. rewrite Hb. cbn [map_err]. by erewrite io_bind_step by reflexivity.
  - unfold decode_sample. cbn [s_payload]. by rewrite Hd.
Qed.

(** A load that is not finite is written as [null], which no subscriber accepts. *)
Lemma nonfinite_beat_decode p c load :
  Hlc.wf c -> is_finite load = false ->
  exists bs, json_to_vec (ser_event (Heartbeat p c load)) = Ok bs /\
    from_slice_as de_event bs = Err (fmt_de_error InvalidType).
Proof.
  intros Hc Hl. set (v := VObj [("kind", VStr "heartbeat"); ("peer", ser_peer p);
    ("clock", ser_clock c); ("load", VNull)]).
  assert (nullify (ser_event (Heartbeat p c load)) = v) as Hv
    by (unfold v, ser_event; cbn; by rewrite Hl).
  destruct (json_roundtrip_exact v) as (bs & Hb & Hr).
  { unfold v. cbn [json_ok forallb snd andb]. by rewrite json_ok_clock. }
  { done. }
  { done. }
  exists bs. rewrite json_nonfinite, Hv. split; [done|]. unfold from_slice_as. rewrite Hr. cbn [rbind].
  change (de_event v) with (visit_struct (variant_fields KHeartbeat)
    (VObj [("peer", ser_peer p); ("clock", ser_clock c); ("load", VNull)]) (de_variant KHeartbeat)).
  unfold visit_struct. change (scan_map _ _ _) with
    (let? _ := check de_peer (ser_peer p) in let? _ := check de_clock (ser_clock c) in
     let? _ := check de_f64 VNull in Ok tt).
  by rewrite (check_ok _ _ _ (de_peer_ser p)), (check_ok _ _ _ (de_clock_ser c Hc)).
Qed.

(** C24: every event that can be published reaches a subscriber: publishing a
    well-formed event with finite floats sends one sample on its key and changes no
    file; the payload is the compact JSON text of the event with its tag first; and the
    forwarder turns that sample into the same event, a heartbeat's load being what the
    JSON crate reads from the digits it writes for it. So the event arrives exactly
    whenever the crate reads that float back. *)
Theorem publish_subscribe_roundtrip e k w :
  key_for e = Some k -> event_wf e -> floats_finite e = true -> quiet w ->
  exists run w' s, publish e = Some run /\ run w = (Ok tt, w') /\
    w_sent w' = w_sent w ++ [s] /\ s_key s = k /\ w_files w' = w_files w /\
    s_payload s = str_bytes (json_text json_float (ser_event e)) /\
    starts_with ("{" +:+ quoted "kind" +:+ ":" +:+ quoted (kind e)) (bytes_str (s_payload s)) = true /\
    forward None [s] = [Ok (reread_event e)] /\
    (Forall (fun f => reread_float f = f) (event_floats e) -> forward None [s] = [Ok e]).
Proof.
  intros Hk Hwf Hfin Hq.
  destruct (publish_sends e k Hk Hwf Hfin) as (run & s & Hp & Hs & Ht & Hr & Hd).
  eexists run, (set_sent (w_sent w ++ [s]) w), s. rewrite Hr. cbn [forward]. rewrite Hd.
  split_and!; try done.
  - unfold io_map_err, send. by rewrite guarded_quiet.
  - by rewrite Ht, bytes_str_bytes, event_text_tag.
  - intros Hf. destruct e; cbn [event_floats reread_event] in *; try done;
      apply Forall_cons in Hf as [Hf _]; by rewrite Hf.
Qed.

(** C38: a heartbeat whose load is not finite is published without an error, but
    its text has [null] for the load: every subscriber gets a decoding error for it
    and never the heartbeat. *)
Theorem nonfinite_load_lost p c load w :
  Hlc.wf c -> is_finite load = false -> quiet w ->
  exists run w' s, publish (Heartbeat p c load) = Some run /\ run w = (Ok tt, w') /\
    w_sent w' = w_sent w ++ [s] /\ s_key s = peer_key p "heartbeat" /\
    forward None [s] =
      [Err (Encoding ("decoding event on " +:+ s_key s +:+ ": " +:+ fmt_de_error InvalidType))].
Proof.
  intros Hc Hl Hq. destruct (nonfinite_beat_decode p c load Hc Hl) as (bs & Hb & Hd).
  set (s := mk_sample (peer_key p "heartbeat") bs None).
  eexists _, (set_sent (w_sent w ++ [s]) w), s. unfold publish. cbn [key_for].
  split_and!; [reflexivity| |done..|].
  - rewrite Hb. cbn [map_err]. erewrite io_bind_step by reflexivity.
    unfold io_map_err, send. by rewrite guarded_quiet.
  - cbn [forward]. unfold decode_sample. cbn [s s_payload]. by rewrite Hd.
Qed.

(** Whatever arrives, no decoded event has a float that is not a number. *)
Lemma decoded_not_nan s e :
  decode_sample s = Ok e -> Forall (fun f => is_nan f = false) (event_floats e).
Proof.
  unfold decode_sample, from_slice_as. intros (v & Hv%json_finite & He%map_err_ok)%map_err_ok%rbind_ok.
  eapply Forall_impl; [by apply de_event_floats|]. intros f (u & Hu & Hf).
  assert (finite_floats u = true) as Hfin.
  { destruct v as [| | | | |vs|es]; cbn in Hu, Hv; try done; rewrite forallb_forall in Hv.
    - by apply Hv, list_elem_of_In.
    - apply list_elem_of_fmap in Hu as (kv & -> & Hkv). by apply Hv, list_elem_of_In. }
  destruct u; try done; cbn in Hf, Hfin; injection Hf as <-; [apply int_as_f64_not_nan|].
  by destruct f0.
Qed.

End Pipe.

(** One malformed publisher cannot disturb the others: what a subscriber
    sees is, item by item, the decoding of the samples in their order, an error for
    exactly those that do not decode, up to where it drops its stream. *)
Theorem forward_isolates `{HexCrate, Base64Crate, JsonCrate} room samples :
  forward room samples =
    match room with
    | None => decode_sample <$> samples
    | Some n => take n (decode_sample <$> samples)
    end.
Proof.
  revert room; induction samples as [|s ss IH]; intros [[|n]|]; cbn [forward]; try done;
    rewrite IH; done.
Qed.

(** ** The forwarding task and its channel

    [forward] is what a consumer sees in the end. The task that [subscribe] spawns
    and the consumer really run side by side over a channel of 256 items. *)

Section Forwarder.
Context `{HexCrate, Base64Crate, JsonCrate}.

Definition SUB_CAPACITY : nat := 256.

(** The loop of the spawned task: the samples still to come. *)
Definition forwarder (samples : list Sample)
    : action (list Sample) (result MeshEvent TransportError) :=
  match samples with
  | [] => Halt
  | sample :: samples => Send (decode_sample sample) samples []
  end.

Lemma forwarder_emits samples xs t :
  emits forwarder samples xs t -> decode_sample <$> samples = xs ++ (decode_sample <$> t).
Proof.
  induction 1 as [|s s' xs t Ht|s x s1 s2 xs t Ht _ IH]; [done|by destruct s|].
  destruct s; [done|]. injection Ht as <- -> _. cbn. by rewrite IH.
Qed.

Lemma forwarder_measure : task_measure forwarder length.
Proof. intros [|s ss]; cbn; lia. Qed.

(** C29: in every interleaving of the forwarding task with a consumer that reads
    or leaves whenever it likes, the consumer has received the first samples,
    decoded, in order, and at most 256 more are waiting; a run cannot go on for ever,
    and where nothing is left to happen but the consumer leaving, everything has been
    received. *)
Theorem subscription_channel samples c n :
  nsteps (chan_step SUB_CAPACITY forwarder) n (start samples) c ->
  n <= 2 * length samples + 1 /\
  (exists k, received c = forward (Some k) samples) /\
  (alive c = true -> length (queue c) <= SUB_CAPACITY) /\
  (idle SUB_CAPACITY forwarder c -> received c = forward None samples).
Proof.
  intros Hn. split; [exact (chan_terminates _ _ _ _ _ _ forwarder_measure Hn)|].
  destruct (chan_reachable_inv _ _ _ _ (rtc_nsteps_2 _ _ _ Hn)) as [Ha (q & t & He)].
  apply forwarder_emits in He. split_and!.
  - exists (length (received c)). rewrite forward_isolates, He, <- app_assoc.
    by rewrite take_app_length.
  - intros Hal. by apply Ha.
  - intros Hid. destruct (chan_idle SUB_CAPACITY forwarder c) as [Hq Ht]; [unfold SUB_CAPACITY; lia|done|].
    destruct (Ha (proj1 Hid)) as [He' _]. rewrite Hq, app_nil_r in He'. apply forwarder_emits in He'.
    rewrite forward_isolates, He'. destruct (task_state c); [by rewrite app_nil_r|].
    by destruct Ht as [Ht|[? Ht]].
Qed.
End Forwarder.

(** ** Reference matching and concrete runs *)

Module RefKeyExpr.

Fixpoint matches (ps ks : list string) : bool :=
  match ps with
  | [] => match ks with [] => true | _ => false end
  | p :: ps' =>
      if String.eqb p "**" then
        (fix skip ks :=
           matches ps' ks || match ks with [] => false | k :: ks' => negb (verbatim k) && skip ks' end) ks
      else match ks with
           | [] => false
           | k :: ks' =>
               (if String.eqb p "*" then negb (verbatim k) else String.eqb p k) && matches ps' ks'
           end
  end.

#[export] Instance crate : KeyExprCrate := {| ke_includes p k := matches (chunks p) (chunks k) |}.

Lemma matches_spec ps ks : matches ps ks = true <-> chunks_match ps ks.
Proof.
  revert ks; induction ps as [|p ps IH]; intros ks; cbn [matches].
  { rewrite match_nil. by destruct ks. }
  destruct (String.eqb_spec p "**") as [->|Hp].
  - induction ks as [|k ks IHk]; rewrite orb_true_iff, IH.
    + split; [intros [?|?]; [by apply cm_stars_none|done]|inversion 1; subst; (by left || done)].
    + rewrite andb_true_iff, negb_true_iff, IHk.
      split; [intros [?|[? ?]]; [by apply cm_stars_none|by apply cm_stars_one]|].
      inversion 1; subst; (congruence || (by left) || (by right)).
  - destruct ks as [|k ks]; [split; [done|by inversion 1; subst]|].
    rewrite andb_true_iff, IH. destruct (String.eqb_spec p "*") as [->|Hs].
    + by rewrite negb_true_iff, match_star.
    + rewrite String.eqb_eq, match_lit by done. naive_solver.
Qed.

#[export] Instance laws : KeyExprLaws.
Proof. split. intros p k _ _. apply matches_spec. Qed.

End RefKeyExpr.

Module TransportWitness.
#[local] Existing Instances RefHex.crate RefHex.laws RefBase64.crate RefBase64.laws
  RefJson.crate RefJson.laws RefKeyExpr.crate RefKeyExpr.laws.

Definition announce : MeshEvent :=
  ModelAnnounce (PeerId.from_bytes (array32_repeat Byte.x07)) (Hlc.mk 5 0) "llama" "aa" "gguf".
Definition announce_key : string :=
  peer_key (PeerId.from_bytes (array32_repeat Byte.x07)) "model/llama".
Definition beat : MeshEvent :=
  Heartbeat (PeerId.from_bytes (array32_repeat Byte.x07)) (Hlc.mk 5 0) (S754_finite false 3 (-2)).
Definition beat_key : string := peer_key (PeerId.from_bytes (array32_repeat Byte.x07)) "heartbeat".

Lemma subscriptions_select_witness :
  ke_includes SUB_ALL_MODELS announce_key = true /\ ke_includes SUB_ALL_HEARTBEATS announce_key = false /\
  ke_includes SUB_ALL_MODELS (peer_key (PeerId.from_bytes (array32_repeat Byte.x07)) "model/@x") = false.
Proof.
  destruct (subscriptions_select announce announce_key) as (Hh & Hm & _); [reflexivity..|].
  destruct (subscriptions_select
    (ModelAnnounce (PeerId.from_bytes (array32_repeat Byte.x07)) (Hlc.mk 5 0) "@x" "aa" "gguf")
    (peer_key (PeerId.from_bytes (array32_repeat Byte.x07)) "model/@x")) as (_ & Hx & _); [reflexivity..|].
  split_and!; [by apply Hm|apply not_true_is_false; by intros ?%Hh|apply not_true_is_false; by intros [_ ?]%Hx].
Defined.

Lemma publish_subscribe_roundtrip_witness :
  exists run w' s, publish beat = Some run /\ run (mk_world ∅ ∅ 420 [] [] []) = (Ok tt, w') /\
    w_sent w' = [s] /\ forward None [s] = [Ok beat].
Proof.
  destruct (publish_subscribe_roundtrip beat beat_key (mk_world ∅ ∅ 420 [] [] []))
    as (run & w' & s & H1 & H2 & H3 & _ & _ & _ & _ & _ & H4); [reflexivity| |reflexivity..|].
  { split; vm_compute; split; discriminate. }
  exists run, w', s. split_and!; [done..|]. apply H4. repeat constructor.
Defined.

Lemma subscription_channel_witness :
  let s := mk_sample beat_key [] None in
  exists c, nsteps (chan_step SUB_CAPACITY forwarder) 2 (start [s]) c /\
    received c = forward None [s].
Proof.
  set (s := mk_sample beat_key [] None).
  assert (nsteps (chan_step SUB_CAPACITY forwarder) 2 (start [s])
    (mk_conf [] [] ([] ++ [decode_sample s]) true)) as Hn.
  { eapply nsteps_l; [eapply step_send with (s2 := []); [reflexivity|unfold SUB_CAPACITY; cbn; lia]|].
    eapply nsteps_l; [apply step_recv|]. apply nsteps_O. }
  eexists. split; [exact Hn|].
  destruct (subscription_channel _ _ _ Hn) as (_ & _ & _ & Hall).
  apply Hall. split; [reflexivity|]. intros c' Hs. by inversion Hs; subst.
Defined.

Lemma nonfinite_load_lost_witness :
  exists run w' s, publish (Heartbeat (PeerId.from_bytes (array32_repeat Byte.x07)) (Hlc.mk 5 0) S754_nan)
      = Some run /\ run (mk_world ∅ ∅ 420 [] [] []) = (Ok tt, w') /\ w_sent w' = [s] /\
    forward None [s] = [Err (Encoding ("decoding event on " +:+ s_key s +:+ ": invalid type"))].
Proof.
  destruct (nonfinite_load_lost (PeerId.from_bytes (array32_repeat Byte.x07)) (Hlc.mk 5 0) S754_nan
    (mk_world ∅ ∅ 420 [] [] [])) as (run & w' & s & H1 & H2 & H3 & _ & H4); [|reflexivity..|].
  { split; vm_compute; split; discriminate. }
  by exists run, w', s.
Defined.

(** Keys do not depend on the crates' laws beyond these instances. *)
Lemma keys_injective_witness :
  key_for announce <> Some (key_work_offer (PeerId.from_bytes (array32_repeat Byte.x07)) "r").
Proof. destruct keys_injective as (_ & _ & _ & _ & Hn). apply Hn. Defined.

End TransportWitness.
