(* ===== verification/Net.v ===== *)
(** * [std::net]: [SocketAddr] as text

    The recursive-descent parser of [core::net::parser] behind
    [str::parse::<SocketAddr>], on a [&str] as its remaining text: every reader
    returns its value and the text left, or [None] with nothing consumed; and
    [Display], with the compressed, mapped and scoped forms of IPv6. Reading back
    what is printed gives the address ([parse_fmt_socket_addr]). *)

From Stdlib Require Import Ascii.
From stdpp Require Import pretty.
From S2P Require Import Prelude RustStd.

(** ** Addresses *)

Inductive IpAddr :=
| V4 (a b c d : Z)
| V6 (groups : list Z).

Record SocketAddr := mk_SocketAddr { sa_ip : IpAddr; sa_port : Z; sa_scope : Z }.

(** [SocketAddr::new]. *)
Definition SocketAddr_new (ip : IpAddr) (port : Z) : SocketAddr := mk_SocketAddr ip port 0.

(** ** The parser *)

Definition reader (T : Type) : Type := string -> option (T * string).

Definition read_given_char (target : ascii) : reader unit := fun s =>
  match s with
  | String c s' => if Ascii.eqb c target then Some (tt, s') else None
  | "" => None
  end.

(** The digit loop: the value so far, the digits read and the rest; [None] when
    there are more than [max_digits] digits or, without that bound, when the value
    exceeds [max]. *)
Fixpoint read_digits (radix max : Z) (max_digits : option nat) (acc : Z) (count : nat) (s : string)
    : option (Z * nat * string) :=
  match s with
  | "" => Some (acc, count, "")
  | String c s' =>
      match to_digit radix c with
      | None => Some (acc, count, s)
      | Some d =>
          let acc' := (acc * radix + d)%Z in
          match max_digits with
          | Some m => if Nat.ltb m (S count) then None
                      else read_digits radix max max_digits acc' (S count) s'
          | None => if (acc' <=? max)%Z then read_digits radix max max_digits acc' (S count) s'
                    else None
          end
      end
  end.

Definition read_number (radix max : Z) (max_digits : option nat) (allow_zero_prefix : bool)
    : reader Z := fun s =>
  let has_leading_zero := match s with String "0" _ => true | _ => false end in
  match read_digits radix max max_digits 0 0 s with
  | None => None
  | Some (v, count, rest) =>
      if (count =? 0) then None
      else if negb allow_zero_prefix && has_leading_zero && (1 <? count) then None
      else if (v <=? max)%Z then Some (v, rest) else None
  end.

Definition read_separator {T} (sep : ascii) (index : nat) (inner : reader T) : reader T := fun s =>
  match index with
  | 0 => inner s
  | _ => match read_given_char sep s with Some (_, s') => inner s' | None => None end
  end.

Definition read_ipv4_addr : reader (Z * Z * Z * Z) := fun s =>
  let octet i := read_separator "." i (read_number 10 u8_max (Some 3) false) in
  match octet 0 s with
  | None => None
  | Some (a, s) =>
      match octet 1 s with
      | None => None
      | Some (b, s) =>
          match octet 2 s with
          | None => None
          | Some (c, s) =>
              match octet 3 s with
              | None => None
              | Some (d, s) => Some (a, b, c, d, s)
              end
          end
      end
  end.

(** [read_groups] on a slice of [limit] groups, of which [todo] are left: the
    groups read, whether they end in an embedded IPv4 address, and the rest. *)
Fixpoint read_groups (todo limit : nat) (s : string) : list Z * bool * string :=
  match todo with
  | 0 => ([], false, s)
  | S todo' =>
      let i := limit - todo in
      let embedded := if i <? limit - 1 then read_separator ":" i read_ipv4_addr s else None in
      match embedded with
      | Some (a, b, c, d, s') => ([a * 256 + b; c * 256 + d]%Z, true, s')
      | None =>
          match read_separator ":" i (read_number 16 u16_max (Some 4) true) s with
          | Some (g, s') =>
              let '(gs, v4, r) := read_groups todo' limit s' in (g :: gs, v4, r)
          | None => ([], false, s)
          end
      end
  end.

Definition read_ipv6_addr : reader (list Z) := fun s =>
  let '(head, head_ipv4, s1) := read_groups 8 8 s in
  if (length head =? 8) then Some (head, s1)
  else if head_ipv4 then None
  else match read_given_char ":" s1 with
       | None => None
       | Some (_, s2) =>
           match read_given_char ":" s2 with
           | None => None
           | Some (_, s3) =>
               let limit := 8 - (length head + 1) in
               let '(tail, _, s4) := read_groups limit limit s3 in
               Some (head ++ replicate (8 - length head - length tail) 0%Z ++ tail, s4)
           end
       end.

Definition read_port : reader Z := fun s =>
  match read_given_char ":" s with
  | Some (_, s') => read_number 10 u16_max None true s'
  | None => None
  end.

Definition read_scope_id : reader Z := fun s =>
  match read_given_char "%" s with
  | Some (_, s') => read_number 10 u32_max None true s'
  | None => None
  end.

Definition read_socket_addr_v4 : reader SocketAddr := fun s =>
  match read_ipv4_addr s with
  | None => None
  | Some (a, b, c, d, s') =>
      match read_port s' with
      | Some (port, r) => Some (SocketAddr_new (V4 a b c d) port, r)
      | None => None
      end
  end.

Definition read_socket_addr_v6 : reader SocketAddr := fun s =>
  match read_given_char "[" s with
  | None => None
  | Some (_, s1) =>
      match read_ipv6_addr s1 with
      | None => None
      | Some (ip, s2) =>
          let (scope, s3) := match read_scope_id s2 with Some (n, r) => (n, r) | None => (0%Z, s2) end in
          match read_given_char "]" s3 with
          | None => None
          | Some (_, s4) =>
              match read_port s4 with
              | Some (port, r) => Some (mk_SocketAddr (V6 ip) port scope, r)
              | None => None
              end
          end
      end
  end.

(** [s.parse::<SocketAddr>()]; the error displays as below. *)
Definition addr_parse_error : string := "invalid socket address syntax".

Definition parse_socket_addr (s : string) : result SocketAddr string :=
  let r := match read_socket_addr_v4 s with Some x => Some x | None => read_socket_addr_v6 s end in
  match r with
  | Some (addr, "") => Ok addr
  | _ => Err addr_parse_error
  end.

(** ** Examples *)

Example parse_v4 : parse_socket_addr "192.168.1.50:7447" = Ok (SocketAddr_new (V4 192 168 1 50) 7447).
Proof. reflexivity. Qed.

Example parse_v6 : parse_socket_addr "[fe80::1%3]:80" =
  Ok (mk_SocketAddr (V6 [65152; 0; 0; 0; 0; 0; 0; 1]%Z) 80 3).
Proof. reflexivity. Qed.

Example parse_v6_embedded : parse_socket_addr "[::ffff:10.0.0.1]:1" =
  Ok (mk_SocketAddr (V6 [0; 0; 0; 0; 0; 65535; 2560; 1]%Z) 1 0).
Proof. reflexivity. Qed.

Example parse_rejects : Forall (fun s => is_err (parse_socket_addr s) = true)
  ["localhost:80"; "1.2.3:80"; "01.2.3.4:80"; "1.2.3.4:65536"; "1.2.3.4"; "[1:2]:3"; "256.1.1.1:9"; ""].
Proof. by repeat constructor. Qed.

(** ** Reading back what is printed *)

Definition starts_digit (s : string) : bool :=
  match s with String c _ => is_ascii_digit c | "" => false end.

Lemma to_digit_10 c : is_ascii_digit c = true <-> is_Some (to_digit 10 c).
Proof.
  destruct c as [[] [] [] [] [] [] [] []]; vm_compute; split; intros Hc;
    try discriminate Hc; try (by eexists); by destruct Hc.
Qed.

Lemma read_digits_app max md s r acc n :
  str_all is_ascii_digit s = true -> starts_digit r = false ->
  read_digits 10 max md acc n (s +:+ r) =
    match read_digits 10 max md acc n s with
    | Some (v, k, _) => Some (v, k, r)
    | None => None
    end.
Proof.
  revert acc n; induction s as [|c s IH]; intros acc n Hs Hr.
  - rewrite str_app_nil_l. destruct r as [|c r]; [done|]. cbn [read_digits starts_digit] in *.
    destruct (to_digit 10 c) eqn:Ed; [|done].
    rewrite (proj2 (to_digit_10 c)) in Hr by (by rewrite Ed). done.
  - cbn [str_all] in Hs. apply andb_true_iff in Hs as [Hc Hs]. rewrite str_app_cons. cbn [read_digits].
    apply to_digit_10 in Hc as [d ->]. destruct md as [m|].
    + destruct (m <? S n)%nat; [done|]. by apply IH.
    + destruct (_ <=? max)%Z; [|done]. by apply IH.
Qed.

Lemma read_number_app max md az s r :
  str_all is_ascii_digit s = true -> s <> "" -> starts_digit r = false ->
  read_number 10 max md az (s +:+ r) =
    match read_number 10 max md az s with Some (v, _) => Some (v, r) | None => None end.
Proof.
  intros Hs Hne Hr. unfold read_number. rewrite read_digits_app by done.
  destruct s as [|c s]; [done|]. rewrite str_app_cons.
  destruct (read_digits 10 max md 0 0 (String c s)) as [[[v k] rest]|]; [|done].
  destruct c as [[] [] [] [] [] [] [] []]; repeat case_match; done.
Qed.

(** Every octet reads back; checked exhaustively. *)
Fixpoint upto (k : nat) (from : Z) : list Z :=
  match k with 0 => [] | S k => from :: upto k (from + 1) end.

Lemma elem_of_upto k from n : (from <= n < from + Z.of_nat k)%Z -> In n (upto k from).
Proof.
  revert from; induction k as [|k IH]; intros from Hn; [lia|]. cbn.
  destruct (decide (n = from)) as [->|]; [by left|]. right. apply IH. lia.
Qed.

Definition reads_back (max : Z) (md : option nat) (az : bool) (n : Z) : bool :=
  let s := fmt_uint n in
  str_all is_ascii_digit s && negb (String.eqb s "") &&
  match read_number 10 max md az s with
  | Some (v, "") => (v =? n)%Z
  | _ => false
  end.

Lemma octets_read_back : forallb (reads_back u8_max (Some 3) false) (upto (Z.to_nat 256) 0) = true.
Proof. vm_compute. reflexivity. Qed.

Lemma reads_back_number max md az bound n r :
  forallb (reads_back max md az) (upto (Z.to_nat bound) 0) = true -> (0 <= n < bound)%Z ->
  starts_digit r = false ->
  read_number 10 max md az (fmt_uint n +:+ r) = Some (n, r).
Proof.
  intros Hall Hn Hr. rewrite forallb_forall in Hall.
  specialize (Hall n ltac:(apply elem_of_upto; lia)). unfold reads_back in Hall.
  apply andb_true_iff in Hall as [[Hd He]%andb_true_iff Hrd].
  rewrite read_number_app; [|done| |done].
  - destruct (read_number 10 max md az (fmt_uint n)) as [[v []]|]; [|done..].
    apply Z.eqb_eq in Hrd as ->. done.
  - intros Heq. by rewrite Heq in He.
Qed.

Lemma read_octet n r :
  (0 <= n <= u8_max)%Z -> starts_digit r = false ->
  read_number 10 u8_max (Some 3) false (fmt_uint n +:+ r) = Some (n, r).
Proof. intros Hn. apply (reads_back_number _ _ _ 256); [exact octets_read_back|unfold u8_max in *; lia]. Qed.

Lemma read_digits_value max s acc n :
  str_all is_ascii_digit s = true -> (0 <= acc)%Z -> (dec_value acc s <= max)%Z ->
  read_digits 10 max None acc n s = Some (dec_value acc s, n + String.length s, "").
Proof.
  revert acc n; induction s as [|c s IH]; intros acc n Hs Ha Hm; [cbn; by rewrite Nat.add_0_r|].
  cbn [str_all] in Hs. apply andb_true_iff in Hs as [Hc Hs]. cbn [read_digits dec_value] in *.
  pose proof (to_digit_nonneg c) as Hd. apply to_digit_10 in Hc as [d Ed]. rewrite Ed in *. cbn in Hd, Hm |- *.
  pose proof (dec_value_ge s (acc * 10 + d) ltac:(lia)) as Hge.
  replace (acc * 10 + d <=? max)%Z with true by (symmetry; apply Z.leb_le; lia).
  rewrite IH by (done || lia). by rewrite Nat.add_succ_r.
Qed.

(** ** [Display] of socket addresses *)

(** [{:x}] of a [u16]. *)
Definition hex_digit (d : Z) : ascii := ascii_of_N (Z.to_N (if (d <? 10)%Z then d + 48 else d + 87)).

Definition fmt_hex (n : Z) : string :=
  let d3 := (n / 4096)%Z in let d2 := (n / 256 mod 16)%Z in
  let d1 := (n / 16 mod 16)%Z in let d0 := (n mod 16)%Z in
  let s0 := String (hex_digit d0) "" in
  let s1 := String (hex_digit d1) s0 in
  let s2 := String (hex_digit d2) s1 in
  let s3 := String (hex_digit d3) s2 in
  if (d3 =? 0)%Z then if (d2 =? 0)%Z then if (d1 =? 0)%Z then s0 else s1 else s2 else s3.

(** The first longest run of zero groups: the loop of [Display for Ipv6Addr], with
    spans as start and length. *)
Fixpoint zero_span (i : nat) (longest current : nat * nat) (segments : list Z) : nat * nat :=
  match segments with
  | [] => longest
  | g :: segments =>
      if (g =? 0)%Z then
        let current := (if (current.2 =? 0) then i else current.1, S current.2) in
        zero_span (S i) (if (longest.2 <? current.2) then current else longest) current segments
      else zero_span (S i) longest (0, 0) segments
  end.

(** Groups at positions from [i] on: each but the first of a slice after a colon. *)
Fixpoint fmt_groups (i : nat) (gs : list Z) : string :=
  match gs with
  | [] => ""
  | g :: gs => (if (i =? 0) then "" else ":") +:+ fmt_hex g +:+ fmt_groups (S i) gs
  end.

Definition fmt_ipv4 (a b c d : Z) : string :=
  fmt_uint a +:+ "." +:+ fmt_uint b +:+ "." +:+ fmt_uint c +:+ "." +:+ fmt_uint d.

(** [Ipv6Addr::to_ipv4_mapped]: [::ffff:a.b.c.d]. *)
Definition to_ipv4_mapped (segments : list Z) : option (Z * Z * Z * Z) :=
  if decide (take 6 segments = [0; 0; 0; 0; 0; 65535]%Z) then
    match drop 6 segments with
    | [ab; cd] => Some (ab / 256, ab mod 256, cd / 256, cd mod 256)%Z
    | _ => None
    end
  else None.

Definition fmt_ipv6 (segments : list Z) : string :=
  match to_ipv4_mapped segments with
  | Some (a, b, c, d) => "::ffff:" +:+ fmt_ipv4 a b c d
  | None =>
      let (start, len) := zero_span 0 (0, 0) (0, 0) segments in
      if (1 <? len) then
        fmt_groups 0 (take start segments) +:+ "::" +:+ fmt_groups 0 (drop (start + len) segments)
      else fmt_groups 0 segments
  end.

Definition fmt_socket_addr (a : SocketAddr) : string :=
  match sa_ip a with
  | V4 x y z w => fmt_ipv4 x y z w +:+ ":" +:+ fmt_uint (sa_port a)
  | V6 segments =>
      "[" +:+ fmt_ipv6 segments +:+
      (if (sa_scope a =? 0)%Z then "" else "%" +:+ fmt_uint (sa_scope a)) +:+
      "]:" +:+ fmt_uint (sa_port a)
  end.

(** Addresses as the machine holds them. *)
Definition addr_wf (a : SocketAddr) : Prop :=
  (0 <= sa_port a <= u16_max)%Z /\
  match sa_ip a with
  | V4 x y z w => Forall (fun n => 0 <= n <= u8_max)%Z [x; y; z; w] /\ sa_scope a = 0%Z
  | V6 gs => length gs = 8 /\ Forall (fun g => 0 <= g <= u16_max)%Z gs /\ (0 <= sa_scope a <= u32_max)%Z
  end.

Example fmt_examples :
  fmt_socket_addr (SocketAddr_new (V6 [8193; 3512; 0; 0; 1; 0; 0; 1]%Z) 80) = "[2001:db8::1:0:0:1]:80" /\
  fmt_socket_addr (mk_SocketAddr (V6 [65152; 0; 0; 0; 0; 0; 0; 1]%Z) 7447 3) = "[fe80::1%3]:7447" /\
  fmt_socket_addr (SocketAddr_new (V6 (replicate 8 0%Z)) 1) = "[::]:1" /\
  fmt_socket_addr (SocketAddr_new (V6 [0; 0; 0; 0; 0; 65535; 2560; 1]%Z) 1) = "[::ffff:10.0.0.1]:1" /\
  fmt_socket_addr (SocketAddr_new (V6 [1; 0; 2; 3; 4; 5; 6; 7]%Z) 1) = "[1:0:2:3:4:5:6:7]:1".
Proof. split_and!; reflexivity. Qed.

(** *** Hexadecimal groups *)

Definition is_hex (c : ascii) : bool := bool_decide (is_Some (to_digit 16 c)).

Definition head_is (p : ascii -> bool) (s : string) : bool :=
  match s with String c _ => p c | "" => false end.

Lemma hex_digit_value d : (0 <= d < 16)%Z -> to_digit 16 (hex_digit d) = Some d.
Proof.
  intros Hd. assert (In d (upto 16 0)) as Hin by (apply elem_of_upto; lia).
  assert (forallb (fun d => bool_decide (to_digit 16 (hex_digit d) = Some d)) (upto 16 0) = true)
    as Hall by reflexivity.
  rewrite forallb_forall in Hall. specialize (Hall d Hin). by apply bool_decide_eq_true in Hall.
Qed.

Lemma fmt_hex_digits n : (0 <= n <= u16_max)%Z ->
  exists ds, fmt_hex n = fold_right (fun d s => String (hex_digit d) s) "" ds /\
    Forall (fun d => 0 <= d < 16)%Z ds /\ 1 <= length ds <= 4 /\
    fold_left (fun acc d => acc * 16 + d)%Z ds 0%Z = n.
Proof.
  unfold u16_max. intros Hn. unfold fmt_hex.
  assert (0 <= n / 4096 < 16)%Z as H3 by (split; [apply Z.div_pos; lia|apply Z.div_lt_upper_bound; lia]).
  assert (0 <= n / 256 mod 16 < 16)%Z as H2 by (apply Z.mod_pos_bound; lia).
  assert (0 <= n / 16 mod 16 < 16)%Z as H1 by (apply Z.mod_pos_bound; lia).
  assert (0 <= n mod 16 < 16)%Z as H0 by (apply Z.mod_pos_bound; lia).
  assert (((n / 4096 * 16 + n / 256 mod 16) * 16 + n / 16 mod 16) * 16 + n mod 16 = n)%Z as Hv.
  { replace (n / 4096)%Z with (n / 16 / 16 / 16)%Z by (by rewrite !Z.div_div by lia).
    replace (n / 256)%Z with (n / 16 / 16)%Z by (by rewrite !Z.div_div by lia).
    pose proof (Z.div_mod n 16 ltac:(lia)). pose proof (Z.div_mod (n / 16) 16 ltac:(lia)).
    pose proof (Z.div_mod (n / 16 / 16) 16 ltac:(lia)). lia. }
  set (d3 := (n / 4096)%Z) in *. set (d2 := (n / 256 mod 16)%Z) in *.
  set (d1 := (n / 16 mod 16)%Z) in *. set (d0 := (n mod 16)%Z) in *.
  destruct (Z.eqb_spec d3 0); [destruct (Z.eqb_spec d2 0); [destruct (Z.eqb_spec d1 0)|]|].
  - exists [d0]. split_and!; [done|by rewrite !Forall_cons, Forall_nil|cbn [length]; lia..|cbn [fold_left]; lia].
  - exists [d1; d0]. split_and!; [done|by rewrite !Forall_cons, Forall_nil|cbn [length]; lia..|cbn [fold_left]; lia].
  - exists [d2; d1; d0]. split_and!; [done|by rewrite !Forall_cons, Forall_nil|cbn [length]; lia..|cbn [fold_left]; lia].
  - exists [d3; d2; d1; d0]. split_and!; [done|by rewrite !Forall_cons, Forall_nil|cbn [length]; lia..|cbn [fold_left]; lia].
Qed.

Lemma read_hex_digits ds r max acc k :
  Forall (fun d => 0 <= d < 16)%Z ds -> k + length ds <= 4 -> head_is is_hex r = false ->
  read_digits 16 max (Some 4) acc k (fold_right (fun d s => String (hex_digit d) s) "" ds +:+ r) =
    Some (fold_left (fun acc d => acc * 16 + d)%Z ds acc, k + length ds, r).
Proof.
  intros HF Hk Hr. revert acc k Hk; induction HF as [|d ds Hd HF IH]; intros acc k Hk; cbn [fold_right fold_left].
  - rewrite str_app_nil_l. cbn. rewrite Nat.add_0_r. destruct r as [|c r]; [done|]. cbn in Hr |- *.
    unfold is_hex in Hr. destruct (to_digit 16 c); [|done]. by rewrite bool_decide_true in Hr by done.
  - rewrite str_app_cons. cbn [read_digits]. rewrite hex_digit_value by done. cbn [length] in *.
    replace (4 <? S k)%nat with false by (symmetry; apply Nat.ltb_ge; lia).
    rewrite IH by lia. do 2 f_equal. f_equal. lia.
Qed.

Lemma read_group n r :
  (0 <= n <= u16_max)%Z -> head_is is_hex r = false ->
  read_number 16 u16_max (Some 4) true (fmt_hex n +:+ r) = Some (n, r).
Proof.
  intros Hn Hr. destruct (fmt_hex_digits n Hn) as (ds & -> & HF & Hl & Hv).
  unfold read_number. rewrite read_hex_digits by (done || lia). rewrite Hv. cbn [Nat.add].
  replace (length ds =? 0) with false by (symmetry; apply Nat.eqb_neq; lia). cbn [negb andb].
  by replace (n <=? u16_max)%Z with true by (symmetry; apply Z.leb_le; lia).
Qed.

(** A group is not the beginning of a dotted address. *)
Lemma read_digits_hex_rest radix max md acc k s r v k' rest :
  str_all is_hex s = true -> head_is is_hex r = false -> (radix <= 16)%Z ->
  read_digits radix max md acc k (s +:+ r) = Some (v, k', rest) ->
  exists s', rest = s' +:+ r /\ str_all is_hex s' = true.
Proof.
  intros Hs Hr Hx. revert acc k Hs; induction s as [|c s IH]; intros acc k Hs.
  - rewrite str_app_nil_l. destruct r as [|c r]; cbn; [intros [= <- <- <-]; by exists ""|].
    assert (to_digit radix c = None) as ->.
    { cbn in Hr. unfold is_hex, to_digit in *. revert Hr. repeat case_match; try done.
      all: rewrite bool_decide_true; done || lia. }
    intros [= <- <- <-]. by exists "".
  - pose proof Hs as Hcs. cbn [str_all] in Hs. apply andb_true_iff in Hs as [Hc Hs].
    rewrite str_app_cons. cbn [read_digits]. destruct (to_digit radix c) as [d|].
    + destruct md as [m|].
      * destruct (m <? S k)%nat; [done|]. by apply IH.
      * destruct (_ <=? max)%Z; [|done]. by apply IH.
    + intros [= <- <- <-]. by exists (String c s).
Qed.

Lemma fmt_hex_is_hex n : (0 <= n <= u16_max)%Z -> str_all is_hex (fmt_hex n) = true.
Proof.
  intros Hn. destruct (fmt_hex_digits n Hn) as (ds & -> & HF & _).
  induction HF as [|d ds Hd HF IH]; [done|]. cbn [fold_right str_all]. rewrite IH, andb_true_r.
  unfold is_hex. rewrite hex_digit_value by done. done.
Qed.

Lemma group_not_ipv4 n r :
  (0 <= n <= u16_max)%Z -> head_is is_hex r = false ->
  head_is (fun c => Ascii.eqb c ".") r = false ->
  read_ipv4_addr (fmt_hex n +:+ r) = None.
Proof.
  intros Hn Hr Hd. unfold read_ipv4_addr. cbn [read_separator]. unfold read_number at 1.
  destruct (read_digits _ _ _ _ _ (fmt_hex n +:+ r)) as [[[v k] rest]|] eqn:E; [|done].
  apply read_digits_hex_rest in E as (s' & -> & Hs'); [|by apply fmt_hex_is_hex|done|done].
  assert (read_given_char "." (s' +:+ r) = None) as Hg.
  { destruct s' as [|c s'].
    - rewrite str_app_nil_l. destruct r as [|c r]; [done|]. cbn in Hd |- *. by rewrite Hd.
    - rewrite str_app_cons. cbn. destruct (Ascii.eqb_spec c "."); [by subst|done]. }
  repeat case_match; try done; simplify_eq; cbn [read_separator] in *; by rewrite Hg in *.
Qed.

(** *** Slices of groups *)

(** Text that cannot continue a slice of groups. *)
Definition ends_groups (r : string) : bool :=
  match r with
  | String ":" (String ":" _) | String "]" _ | String "%" _ => true
  | _ => false
  end.

Lemma ends_groups_stop i r :
  ends_groups r = true ->
  read_separator ":" i read_ipv4_addr r = None /\
  read_separator ":" i (read_number 16 u16_max (Some 4) true) r = None.
Proof.
  destruct r as [|c r]; [done|]. intros Hr.
  assert ((c = ":"%char /\ exists r', r = String ":" r') \/ c = "]"%char \/ c = "%"%char) as Hc.
  { cbn in Hr. repeat case_match; subst; try done; eauto. }
  destruct Hc as [[-> [r' ->]]|[-> | ->]]; destruct i as [|i]; by split.
Qed.

Lemma fmt_groups_start i gs r :
  i <> 0 -> ends_groups r = true ->
  head_is is_hex (fmt_groups i gs +:+ r) = false /\
  head_is (fun c => Ascii.eqb c ".") (fmt_groups i gs +:+ r) = false.
Proof.
  intros Hi Hr. destruct i as [|i]; [done|]. destruct gs as [|g gs]; cbn [fmt_groups Nat.eqb].
  - rewrite str_app_nil_l. destruct r as [|c r]; [done|]. cbn in Hr. repeat case_match; subst; done.
  - by rewrite str_app_assoc, !str_app_cons.
Qed.

Lemma read_fmt_groups limit gs todo r :
  Forall (fun g => 0 <= g <= u16_max)%Z gs -> length gs <= todo -> todo <= limit ->
  ends_groups r = true ->
  read_groups todo limit (fmt_groups (limit - todo) gs +:+ r) = (gs, false, r).
Proof.
  intros HF. revert todo; induction HF as [|g gs Hg HF IH]; intros todo Hl Ht Hr.
  - cbn [fmt_groups]. rewrite str_app_nil_l. destruct todo as [|todo]; [done|]. cbn [read_groups].
    destruct (ends_groups_stop (limit - S todo) r Hr) as [-> ->]. by destruct (_ <? _).
  - destruct todo as [|todo]; cbn [length] in Hl; [lia|]. cbn [fmt_groups read_groups].
    rewrite !str_app_assoc. set (rest := fmt_groups (S (limit - S todo)) gs +:+ r).
    destruct (fmt_groups_start (S (limit - S todo)) gs r) as [Hx Hd]; [done..|].
    fold rest in Hx, Hd.
    assert (forall T (inner : reader T), read_separator ":" (limit - S todo) inner
      ((if limit - S todo =? 0 then "" else ":") +:+ fmt_hex g +:+ rest) = inner (fmt_hex g +:+ rest)) as Hsep.
    { intros T inner. destruct (limit - S todo); cbn [Nat.eqb]; [done|]. by rewrite str_app_cons. }
    rewrite !Hsep, group_not_ipv4, read_group by done.
    assert (rest = fmt_groups (limit - todo) gs +:+ r) as ->
      by (unfold rest; by replace (S (limit - S todo)) with (limit - todo) by lia).
    rewrite IH by (done || lia). by destruct (_ <? _).
Qed.

(** *** The compressed run *)

Definition zeros_at (all : list Z) (sp : nat * nat) : Prop :=
  forall j, sp.1 <= j < sp.1 + sp.2 -> all !! j = Some 0%Z.

Lemma zero_span_zeros all segments i longest current :
  drop i all = segments -> zeros_at all longest -> zeros_at all current ->
  (current.2 <> 0 -> current.1 + current.2 = i) ->
  zeros_at all (zero_span i longest current segments).
Proof.
  revert i longest current; induction segments as [|g segments IH]; intros i longest current Ha Hl Hc Hi;
    cbn [zero_span]; [done|].
  assert (all !! i = Some g) as Hg.
  { rewrite <- (Nat.add_0_r i), <- lookup_drop, Ha. done. }
  assert (drop (S i) all = segments) as Hd.
  { rewrite <- Nat.add_1_r, <- drop_drop, Ha. done. }
  destruct (Z.eqb_spec g 0) as [->|_].
  - set (cur := (if current.2 =? 0 then i else current.1, S current.2)).
    assert (zeros_at all cur /\ cur.1 + cur.2 = S i) as [Hz He].
    { unfold cur, zeros_at. cbn [fst snd]. destruct (Nat.eqb_spec current.2 0) as [E|E].
      - rewrite E. split; [intros j Hj; by replace j with i by lia|lia].
      - specialize (Hi E). split; [|lia]. intros j Hj. destruct (decide (j = i)) as [->|]; [done|].
        apply Hc. lia. }
    apply IH; [done| |done|done]. by destruct (longest.2 <? cur.2).
  - apply IH; [done..| |done]. intros j Hj. cbn in Hj. lia.
Qed.

Lemma zeros_at_split all start len :
  zeros_at all (start, len) -> 1 < len ->
  all = take start all ++ replicate len 0%Z ++ drop (start + len) all /\
  start + len <= length all.
Proof.
  intros Hz Hl. assert (start + len <= length all) as Hle.
  { assert (is_Some (all !! (start + len - 1))) as Hs%lookup_lt_is_Some by (rewrite Hz; [done|cbn; lia]). lia. }
  split; [|done]. rewrite <- (take_drop start all) at 1. f_equal.
  rewrite <- (take_drop len (drop start all)) at 1. rewrite drop_drop. f_equal.
  apply list_eq_same_length with len; [by rewrite length_replicate|rewrite length_take, length_drop; lia|].
  intros i x y Hi Hx Hy. rewrite lookup_replicate_2 in Hy by done.
  rewrite lookup_take_lt, lookup_drop in Hx by done. rewrite Hz in Hx by (cbn; lia). congruence.
Qed.

(** *** Addresses *)

Lemma read_dec n max r :
  (0 <= n <= max)%Z -> starts_digit r = false ->
  read_number 10 max None true (fmt_uint n +:+ r) = Some (n, r).
Proof.
  intros Hn Hr. destruct (fmt_uint_value n) as (Hd & Hv & Hl); [lia|].
  rewrite read_number_app; [|done|by intros Heq; rewrite Heq in Hl; cbn in Hl; lia|done].
  unfold read_number. rewrite read_digits_value by (done || lia). rewrite Hv. cbn [negb andb].
  destruct (String.length (fmt_uint n)) as [|k]; [lia|]. cbn [Nat.add Nat.eqb].
  replace (n <=? max)%Z with true by (symmetry; apply Z.leb_le; lia). done.
Qed.

Lemma read_fmt_ipv4 a b c d r :
  Forall (fun n => 0 <= n <= u8_max)%Z [a; b; c; d] -> starts_digit r = false ->
  read_ipv4_addr (fmt_ipv4 a b c d +:+ r) = Some (a, b, c, d, r).
Proof.
  intros HF Hr. rewrite !Forall_cons in HF. destruct HF as (Ha & Hb & Hc & Hd & _).
  unfold read_ipv4_addr, fmt_ipv4. rewrite !str_app_assoc. cbn [read_separator].
  rewrite (read_octet a), str_app_cons, str_app_nil_l by done. cbn [read_given_char].
  rewrite Ascii.eqb_refl, (read_octet b), str_app_cons, str_app_nil_l by done. cbn [read_given_char].
  rewrite Ascii.eqb_refl, (read_octet c), str_app_cons, str_app_nil_l by done. cbn [read_given_char].
  by rewrite Ascii.eqb_refl, (read_octet d).
Qed.

Lemma read_fmt_slice limit gs r :
  Forall (fun g => 0 <= g <= u16_max)%Z gs -> length gs <= limit -> ends_groups r = true ->
  read_groups limit limit (fmt_groups 0 gs +:+ r) = (gs, false, r).
Proof.
  intros HF Hl Hr. pose proof (read_fmt_groups limit gs limit r HF Hl (le_n _) Hr) as Hrd.
  by rewrite Nat.sub_diag in Hrd.
Qed.

Lemma read_fmt_compressed gs tl len r :
  Forall (fun g => 0 <= g <= u16_max)%Z (gs ++ tl) -> length gs + len + length tl = 8 -> 1 < len ->
  ends_groups r = true ->
  read_ipv6_addr (fmt_groups 0 gs +:+ "::" +:+ fmt_groups 0 tl +:+ r) =
    Some (gs ++ replicate len 0%Z ++ tl, r).
Proof.
  intros [Hg Ht]%Forall_app Hl H1 Hr. unfold read_ipv6_addr.
  rewrite (read_fmt_slice 8 gs) by (done || lia).
  replace (length gs =? 8) with false by (symmetry; apply Nat.eqb_neq; lia).
  rewrite str_app_cons. cbn [read_given_char]. rewrite Ascii.eqb_refl.
  rewrite str_app_cons. cbn [read_given_char]. rewrite Ascii.eqb_refl, str_app_nil_l.
  rewrite (read_fmt_slice _ tl) by (done || lia).
  replace (8 - length gs - length tl) with len by lia. done.
Qed.

(** The mapped form ends in a dotted address, which is read as two groups. *)
Lemma read_fmt_mapped ab cd r :
  (0 <= ab <= u16_max)%Z -> (0 <= cd <= u16_max)%Z -> starts_digit r = false ->
  read_ipv6_addr ("::ffff:" +:+ fmt_ipv4 (ab / 256) (ab mod 256) (cd / 256) (cd mod 256) +:+ r) =
    Some ([0; 0; 0; 0; 0; 65535; ab; cd]%Z, r).
Proof.
  intros Ha Hc Hr.
  assert (forall n, 0 <= n <= u16_max -> 0 <= n / 256 <= u8_max /\ 0 <= n mod 256 <= u8_max)%Z as Hb.
  { unfold u16_max, u8_max. intros n Hn. pose proof (Z.mod_pos_bound n 256 ltac:(lia)).
    pose proof (Z.div_mod n 256 ltac:(lia)). lia. }
  set (t := fmt_ipv4 _ _ _ _ +:+ r).
  assert (read_ipv4_addr t = Some (ab / 256, ab mod 256, cd / 256, cd mod 256, r)%Z) as Hv4.
  { apply read_fmt_ipv4; [|done]. rewrite !Forall_cons, Forall_nil.
    destruct (Hb ab Ha), (Hb cd Hc). done. }
  assert (read_groups 7 7 ("ffff:" +:+ t) = ([65535; ab; cd]%Z, true, r)) as Htail.
  { change ("ffff:" +:+ t) with (fmt_hex 65535 +:+ (":" +:+ t)).
    cbn [read_groups]. change (7 - 7) with 0. cbn [read_separator].
    rewrite group_not_ipv4, read_group by done. cbn [Nat.ltb Nat.leb].
    change (7 - 6) with 1. cbn [read_separator]. rewrite str_app_cons, str_app_nil_l. cbn [read_given_char].
    rewrite Ascii.eqb_refl, Hv4. cbn. f_equal. f_equal. f_equal.
    pose proof (Z.div_mod ab 256 ltac:(lia)). pose proof (Z.div_mod cd 256 ltac:(lia)).
    f_equal; [|f_equal]; lia. }
  unfold read_ipv6_addr. change ("::ffff:" +:+ t) with ("::" +:+ ("ffff:" +:+ t)).
  pose proof (read_fmt_slice 8 [] ("::" +:+ ("ffff:" +:+ t)) (Forall_nil_2 _) ltac:(cbn; lia) eq_refl) as Hh.
  cbn [fmt_groups] in Hh. rewrite str_app_nil_l in Hh. rewrite Hh. cbn [length Nat.eqb].
  rewrite str_app_cons. cbn [read_given_char]. rewrite Ascii.eqb_refl.
  rewrite str_app_cons. cbn [read_given_char]. rewrite Ascii.eqb_refl, str_app_nil_l.
  change (8 - (0 + 1)) with 7. by rewrite Htail.
Qed.

Lemma read_fmt_ipv6 gs r :
  length gs = 8 -> Forall (fun g => 0 <= g <= u16_max)%Z gs -> ends_groups r = true ->
  starts_digit r = false -> read_ipv6_addr (fmt_ipv6 gs +:+ r) = Some (gs, r).
Proof.
  intros Hl HF Hr Hd. unfold fmt_ipv6.
  destruct (to_ipv4_mapped gs) as [[[[a b] c] d]|] eqn:Em.
  - unfold to_ipv4_mapped in Em. case_decide as Hm; [|done].
    assert (gs = [0; 0; 0; 0; 0; 65535]%Z ++ drop 6 gs) as Hgs by (by rewrite <- Hm, take_drop).
    destruct (drop 6 gs) as [|ab [|cd [|? ?]]]; try done. injection Em as <- <- <- <-.
    rewrite Hgs in HF |- *. apply Forall_app in HF as [_ HF]. rewrite !Forall_cons in HF.
    rewrite str_app_assoc. apply read_fmt_mapped; [apply HF..|done].
  - pose proof (zero_span_zeros gs gs 0 (0, 0) (0, 0) (drop_0 gs)) as Hz.
    destruct (zero_span 0 (0, 0) (0, 0) gs) as [start len]. destruct (Nat.ltb_spec 1 len) as [H1|H1].
    + destruct (zeros_at_split gs start len) as [Hs Hle]; [|done|].
      { apply Hz; [intros j Hj; cbn in Hj; lia..|done]. }
      rewrite !str_app_assoc, (read_fmt_compressed _ _ len); [by rewrite <- Hs| | |done|done].
      * rewrite Hs in HF. rewrite !Forall_app in HF. apply Forall_app. tauto.
      * rewrite length_take, length_drop. lia.
    + unfold read_ipv6_addr. rewrite read_fmt_slice by (done || lia). by rewrite Hl.
Qed.

(** Reading back a printed address gives the address. *)
Theorem parse_fmt_socket_addr a : addr_wf a -> parse_socket_addr (fmt_socket_addr a) = Ok a.
Proof.
  destruct a as [[x y z w|gs] p sc]; intros [Hp Hip]; cbn [sa_port sa_ip sa_scope] in *.
  - destruct Hip as [HF ->]. unfold parse_socket_addr, fmt_socket_addr, read_socket_addr_v4. cbn [sa_ip sa_port].
    rewrite read_fmt_ipv4 by done. unfold read_port. rewrite str_app_cons, str_app_nil_l. cbn [read_given_char].
    rewrite Ascii.eqb_refl, <- (str_app_nil_r (fmt_uint p)), read_dec by done. done.
  - destruct Hip as (Hl & HF & Hsc). unfold parse_socket_addr, fmt_socket_addr. cbn [sa_ip sa_port sa_scope].
    set (tl := "]:" +:+ fmt_uint p).
    assert (read_port (":" +:+ fmt_uint p) = Some (p, "")) as Hport.
    { unfold read_port. rewrite str_app_cons, str_app_nil_l. cbn [read_given_char].
      by rewrite Ascii.eqb_refl, <- (str_app_nil_r (fmt_uint p)), read_dec. }
    assert (exists r, (if (sc =? 0)%Z then "" else "%" +:+ fmt_uint sc) +:+ tl = r /\
      ends_groups r = true /\ starts_digit r = false /\
      match read_scope_id r with Some (n, r) => (n, r) | None => (0%Z, r) end = (sc, tl)) as (r & -> & He & Hd & Hs).
    { eexists. split; [reflexivity|]. destruct (Z.eqb_spec sc 0) as [->|Hne]; [done|].
      split_and!; [done..|]. rewrite !str_app_assoc, str_app_cons, str_app_nil_l. unfold read_scope_id.
      cbn [read_given_char]. by rewrite Ascii.eqb_refl, read_dec. }
    assert (read_socket_addr_v4 ("[" +:+ fmt_ipv6 gs +:+ r) = None) as -> by done.
    unfold read_socket_addr_v6. rewrite str_app_cons, str_app_nil_l. cbn [read_given_char].
    rewrite Ascii.eqb_refl, read_fmt_ipv6, Hs by done. unfold tl. rewrite str_app_cons. cbn [read_given_char].
    rewrite Ascii.eqb_refl. by rewrite Hport.
Qed.
