(* ===== verification/Discovery.v ===== *)
(** * furcate-mesh-discovery/src/lib.rs: seeds and mDNS

    Seed parsing, the conversion of resolved mDNS services, the local
    registration, and the [run] task. The mDNS daemon is third-party: a record of
    its operations and of the browse events it delivers. The consumer of the
    channel is a [sink]: it accepts some number of items before dropping its
    receiver, or never drops it; [run_task] is the same task as a state machine beside
    a consumer that reads whenever it likes, over the channel of Channel.v. *)

From Stdlib Require Import Ascii.
From stdpp Require Import relations.
From S2P Require Import Prelude RustStd Codecs Core Wire Serde Event Net Channel.

Definition SERVICE_TYPE : string := "_furcate-mesh._tcp.local.".

Inductive DiscoveryError :=
| Mdns (msg : string)
| DiscoveryIo (msg : string)
| BadSeed (entry reason : string).

Record DiscoveredPeer := mk_DiscoveredPeer {
  peer : PeerId;
  addr : SocketAddr;
  zenoh_url : string;
  via_mdns : bool;
}.

Record DiscoveryConfig := mk_DiscoveryConfig {
  local_peer : option PeerId;
  local_zenoh_url : option string;
  port : Z;
  seeds : list string;
  seeds_only : bool;
}.

(** [mdns_sd::ResolvedService]: TXT properties in order (with [val_str] of each),
    addresses in the iteration order of their set. *)
Record ResolvedService := mk_ResolvedService {
  txt_properties : list (string * string);
  addresses : list IpAddr;
  rs_port : Z;
}.

Inductive ServiceEvent :=
| ServiceResolved (svc : ResolvedService)
| OtherEvent.

(** [mdns_sd::ServiceInfo::new(type, instance, host, "", port, props)]. *)
Record ServiceInfo := mk_ServiceInfo {
  si_type : string;
  si_instance : string;
  si_host : string;
  si_port : Z;
  si_props : list (string * string);
}.

(** The daemon: construction, [ServiceInfo] validation, registration, and browsing,
    which delivers events until its channel closes. *)
Record ServiceDaemon := mk_ServiceDaemon {
  daemon_new : result unit string;
  service_info_new : ServiceInfo -> result unit string;
  daemon_register : ServiceInfo -> result unit string;
  daemon_browse : string -> result (list ServiceEvent) string;
}.

(** The channel's consumer: items it still accepts, [None] for no limit. *)
Definition sink : Type := option nat.

Definition sink_send (s : sink) : option sink :=
  match s with
  | None => Some None
  | Some 0 => None
  | Some (S n) => Some (Some n)
  end.

Section Discovery.
Context `{HexCrate}.

(** ** The derived codec of [DiscoveredPeer]

    A socket address is a string in the formats the crates use. *)






(** ** [parse_seed] *)

Definition parse_seed (entry : string) : result DiscoveredPeer DiscoveryError :=
  let? (peer_part, rest) :=
    ok_or (BadSeed entry "expected '<peer-hex>@<host:port>[/<zenoh-url>]'") (split_once "@" entry) in
  let? peer := map_err (fun e => BadSeed entry (PeerId.fmt_error e)) (PeerId.from_hex peer_part) in
  let (host_port, zenoh_url_opt) :=
    match split_once "/" rest with
    | Some (hp, zu) => (hp, Some zu)
    | None => (rest, None)
    end in
  let? addr := map_err (fun e => BadSeed entry ("not a socket addr: " +:+ e))
                 (parse_socket_addr host_port) in
  let zenoh_url := default ("tcp/" +:+ host_port) zenoh_url_opt in
  Ok (mk_DiscoveredPeer peer addr zenoh_url false).

(** ** [resolve_to_peer] *)

Definition txt_step (acc : option string * option string) (p : string * string)
    : option string * option string :=
  let key := to_ascii_lowercase p.1 in
  if decide (key = "peer") then (Some p.2, acc.2)
  else if decide (key = "zenoh") then (acc.1, Some p.2)
  else acc.

Definition resolve_to_peer (svc : ResolvedService) : option DiscoveredPeer :=
  let (peer_hex, zenoh_url) := fold_left txt_step (txt_properties svc) (None, None) in
  match peer_hex, zenoh_url with
  | Some peer_hex, Some zenoh_url =>
      match to_option (PeerId.from_hex peer_hex) with
      | None => None
      | Some peer =>
          match head (addresses svc) with
          | None => None
          | Some ip =>
              Some (mk_DiscoveredPeer peer (SocketAddr_new ip (rs_port svc)) zenoh_url true)
          end
      end
  | _, _ => None
  end.

(** ** [register_local] *)

Definition local_info (local_peer : PeerId) (zenoh_url : string) (port : Z) : ServiceInfo :=
  let peer_hex := PeerId.to_hex local_peer in
  let props := [("peer", peer_hex); ("zenoh", zenoh_url)] in
  let instance := "furcate-" +:+ PeerId.short local_peer in
  let host := instance +:+ ".local." in
  mk_ServiceInfo SERVICE_TYPE instance host port props.

Definition register_local (daemon : ServiceDaemon) (local_peer : PeerId) (zenoh_url : string)
    (port : Z) : result unit DiscoveryError :=
  let info := local_info local_peer zenoh_url port in
  let? _ := map_err (fun e => Mdns ("ServiceInfo: " +:+ e)) (service_info_new daemon info) in
  map_err (fun e => Mdns ("register: " +:+ e)) (daemon_register daemon info).

(** ** [Discovery::run] *)

(** The seeds sent, and the sink that is left: [None] once the consumer is gone. *)
Fixpoint flush_seeds (s : sink) (entries : list string)
    : list DiscoveredPeer * result (option sink) DiscoveryError :=
  match entries with
  | [] => ([], Ok (Some s))
  | entry :: entries =>
      match parse_seed entry with
      | Err e => ([], Err e)
      | Ok p =>
          match sink_send s with
          | None => ([], Ok None)
          | Some s' => let (ps, r) := flush_seeds s' entries in (p :: ps, r)
          end
      end
  end.

Fixpoint browse_loop (local : option PeerId) (s : sink) (events : list ServiceEvent)
    : list DiscoveredPeer :=
  match events with
  | [] => []
  | ServiceResolved svc :: events =>
      match resolve_to_peer svc with
      | None => browse_loop local s events
      | Some p =>
          if decide (Some (peer p) = local) then browse_loop local s events
          else match sink_send s with
               | None => []
               | Some s' => p :: browse_loop local s' events
               end
      end
  | OtherEvent :: events => browse_loop local s events
  end.

(** The daemon, the local registration and the browse request: no await in between. *)
Definition start_mdns (daemon : ServiceDaemon) (cfg : DiscoveryConfig)
    : result (list ServiceEvent) DiscoveryError :=
  let? _ := map_err (fun e => Mdns ("daemon: " +:+ e)) (daemon_new daemon) in
  let? _ :=
    match local_peer cfg, local_zenoh_url cfg with
    | Some lp, Some url => register_local daemon lp url (port cfg)
    | _, _ => Ok tt
    end in
  map_err (fun e => Mdns ("browse: " +:+ e)) (daemon_browse daemon SERVICE_TYPE).

(** What the consumer receives, and what [run] returns. In seeds-only mode it
    returns once the consumer drops its receiver. *)
Definition run (daemon : ServiceDaemon) (cfg : DiscoveryConfig) (s : sink)
    : list DiscoveredPeer * result unit DiscoveryError :=
  match flush_seeds s (seeds cfg) with
  | (ps, Err e) => (ps, Err e)
  | (ps, Ok None) => (ps, Ok tt)
  | (ps, Ok (Some s')) =>
      if seeds_only cfg then (ps, Ok tt)
      else
        match start_mdns daemon cfg with
        | Err e => (ps, Err e)
        | Ok evs => (ps ++ browse_loop (local_peer cfg) s' evs, Ok tt)
        end
  end.

(** ** The task and its channel

    [run] is what the caller sees in the end. The task really runs beside the
    consumer, over the channel that [Discovery::new] creates. *)

Definition CHANNEL_CAPACITY : nat := 32.

Inductive phase :=
| Flushing (entries : list string)
| Awaiting
| Starting
| Browsing (events : list ServiceEvent)
| Finished (r : result unit DiscoveryError).

Definition run_task (daemon : ServiceDaemon) (cfg : DiscoveryConfig) (p : phase)
    : action phase DiscoveredPeer :=
  match p with
  | Flushing (entry :: entries) =>
      match parse_seed entry with
      | Err e => Tau (Finished (Err e))
      | Ok peer => Send peer (Flushing entries) (Finished (Ok tt))
      end
  | Flushing [] => Tau (if seeds_only cfg then Awaiting else Starting)
  | Awaiting => UntilClosed (Finished (Ok tt))
  | Starting =>
      match start_mdns daemon cfg with
      | Err e => Tau (Finished (Err e))
      | Ok events => Tau (Browsing events)
      end
  | Browsing (ServiceResolved svc :: events) =>
      match resolve_to_peer svc with
      | None => Tau (Browsing events)
      | Some p =>
          if decide (Some (peer p) = local_peer cfg) then Tau (Browsing events)
          else Send p (Browsing events) (Finished (Ok tt))
      end
  | Browsing (OtherEvent :: events) => Tau (Browsing events)
  | Browsing [] => Tau (Finished (Ok tt))
  | Finished _ => Halt
  end.

End Discovery.

Section Facts.
Context `{HexLaws}.


(** ** Seeds *)

(** How a seed entry is written. *)
Definition seed_entry (p_hex host_port : string) (url : option string) : string :=
  p_hex +:+ "@" +:+ host_port +:+ match url with Some u => "/" +:+ u | None => "" end.

Definition no_char (c : ascii) (s : string) : bool := str_all (fun d => negb (Ascii.eqb d c)) s.

Lemma parse_seed_written p_hex host_port url dp :
  no_char "@" p_hex = true -> no_char "/" host_port = true ->
  PeerId.from_hex p_hex = Ok (peer dp) -> parse_socket_addr host_port = Ok (addr dp) ->
  zenoh_url dp = default ("tcp/" +:+ host_port) url -> via_mdns dp = false ->
  parse_seed (seed_entry p_hex host_port url) = Ok dp.
Proof.
  intros Hph Hhp Hp Ha Hz Hv. unfold parse_seed, seed_entry.
  rewrite (split_once_app "@" p_hex _ Hph : split_once "@" (p_hex +:+ "@" +:+ _) = _). cbn [ok_or rbind].
  rewrite Hp. cbn [map_err rbind]. destruct dp as [p a z v]; cbn in *. subst.
  destruct url as [u|].
  - rewrite (split_once_app "/" host_port u Hhp : split_once "/" (host_port +:+ "/" +:+ u) = _).
    by rewrite Ha.
  - rewrite str_app_nil_r, (split_once_none "/" host_port Hhp). by rewrite Ha.
Qed.

Lemma split_once_none_inv c s : split_once c s = None -> no_char c s = true.
Proof.
  unfold no_char. induction s as [|d s IH]; cbn; [done|]. destruct (Ascii.eqb d c); [done|].
  destruct (split_once c s) as [[]|]; [done|]. auto.
Qed.

(** C32: [parse_seed] accepts an entry exactly when it is
    [<peer-hex>@<host:port>] or [<peer-hex>@<host:port>/<url>] with a parsable peer
    id and socket address; the result carries those parts, with [tcp/<host:port>]
    as the default URL. Any URL text is taken as it is. *)
Theorem parse_seed_iff entry dp :
  parse_seed entry = Ok dp <->
  exists p_hex host_port url,
    entry = seed_entry p_hex host_port url /\
    no_char "@" p_hex = true /\ no_char "/" host_port = true /\
    PeerId.from_hex p_hex = Ok (peer dp) /\
    parse_socket_addr host_port = Ok (addr dp) /\
    zenoh_url dp = default ("tcp/" +:+ host_port) url /\ via_mdns dp = false.
Proof.
  split; [|by intros (ph & hp & url & -> & ? & ? & ? & ? & ? & ?); apply parse_seed_written].
  - unfold parse_seed, seed_entry. destruct (split_once "@" entry) as [[ph rest]|] eqn:Es; [|done]. cbn [ok_or rbind].
    apply split_once_some in Es as [-> Hph]. intros Hrun.
    apply rbind_ok in Hrun as (p & Hp%map_err_ok & Hrun).
    destruct (split_once "/" rest) as [[hp zu]|] eqn:Eu;
      apply rbind_ok in Hrun as (a & Ha%map_err_ok & [= <-]); cbn.
    + apply split_once_some in Eu as [-> Hhp]. by exists ph, hp, (Some zu).
    + exists ph, rest, None. split_and!; try done; [by rewrite str_app_nil_r|].
      by apply split_once_none_inv.
Qed.

Lemma from_hex_to_hex p : PeerId.from_hex (PeerId.to_hex p) = Ok p.
Proof.
  apply from_hex_of_lower, (str_map_id_on _ is_lower_hex); [|apply to_hex_lower].
  by intros [[] [] [] [] [] [] [] []].
Qed.










(** ** mDNS *)

(** C33: what a peer advertises is what others resolve: from the TXT records of
    the local registration, in either order, any peer recovers its id and URL, with
    the first address and the advertised port. *)
Theorem advertise_resolve_roundtrip p url prt txt ip ips :
  txt ≡ₚ si_props (local_info p url prt) ->
  resolve_to_peer (mk_ResolvedService txt (ip :: ips) (si_port (local_info p url prt))) =
    Some (mk_DiscoveredPeer p (SocketAddr_new ip prt) url true).
Proof.
  intros Ht. cbn [si_props local_info] in Ht. symmetry in Ht. apply Permutation_length_2_inv in Ht.
  destruct Ht as [-> | ->]; unfold resolve_to_peer; cbn [txt_properties];
    replace (fold_left txt_step _ _) with (Some (PeerId.to_hex p), Some url) by reflexivity;
    by rewrite from_hex_to_hex.
Qed.

(** ** The run task *)

(** The seeds before the first malformed one. *)
Fixpoint seed_prefix (entries : list string) : list DiscoveredPeer :=
  match entries with
  | [] => []
  | entry :: entries =>
      match parse_seed entry with
      | Ok p => p :: seed_prefix entries
      | Err _ => []
      end
  end.

(** What a browse event announces, ourselves excluded. *)
Definition announced (local : option PeerId) (ev : ServiceEvent) : option DiscoveredPeer :=
  match ev with
  | ServiceResolved svc =>
      match resolve_to_peer svc with
      | Some p => if decide (Some (peer p) = local) then None else Some p
      | None => None
      end
  | OtherEvent => None
  end.

(** Everything [run] would deliver to a consumer that never leaves. *)
Definition deliverable (daemon : ServiceDaemon) (cfg : DiscoveryConfig) : list DiscoveredPeer :=
  seed_prefix (seeds cfg) ++
  match collect_results parse_seed (seeds cfg), start_mdns daemon cfg with
  | Ok _, Ok evs => if seeds_only cfg then [] else omap (announced (local_peer cfg)) evs
  | _, _ => []
  end.

Definition accepted {A} (s : sink) (l : list A) : list A :=
  match s with None => l | Some n => take n l end.

Lemma browse_loop_spec local s evs :
  browse_loop local s evs = accepted s (omap (announced local) evs).
Proof.
  revert s; induction evs as [|[svc|] evs IH]; intros s; cbn [browse_loop omap list_omap announced].
  - by destruct s as [[]|].
  - destruct (resolve_to_peer svc) as [p|]; [|apply IH]. case_decide; [apply IH|].
    destruct s as [[|n]|]; cbn [sink_send accepted take]; [done|by rewrite IH..].
  - apply IH.
Qed.

Lemma flush_seeds_spec s entries :
  let (ps, r) := flush_seeds s entries in
  ps = accepted s (seed_prefix entries) /\
  match r with
  | Err e => collect_results parse_seed entries = Err e /\ ps = seed_prefix entries
  | Ok None => exists n, s = Some n /\ length ps = n
  | Ok (Some s') => is_ok (collect_results parse_seed entries) = true /\ ps = seed_prefix entries /\
      match s with None => s' = None | Some n => s' = Some (n - length ps) /\ length ps <= n end
  end.
Proof.
  revert s; induction entries as [|entry entries IH]; intros s; cbn [flush_seeds seed_prefix collect_results].
  { destruct s as [n|]; cbn; [|done]. rewrite take_nil, Nat.sub_0_r. split_and!; try done; lia. }
  destruct (parse_seed entry) as [p|e]; cbn [rbind].
  2:{ split; [|done]. destruct s as [[]|]; done. }
  destruct s as [[|n]|]; cbn [sink_send]; [split; [done|by exists 0]|..].
  - specialize (IH (Some n)). destruct (flush_seeds (Some n) entries) as [ps r].
    destruct IH as [-> IH]. cbn [accepted take] in *. split; [done|].
    destruct r as [[s'|]|e].
    + destruct IH as (Hok & Heq & -> & Hle). destruct (collect_results parse_seed entries); [|done].
      split_and!; [done|by rewrite Heq| |cbn; lia]. done.
    + destruct IH as (m & [= ->] & Hl). exists (S m). split; [done|]. cbn. by rewrite Hl.
    + destruct IH as [-> Heq]. by rewrite Heq.
  - specialize (IH None). destruct (flush_seeds None entries) as [ps r].
    destruct IH as [-> IH]. cbn [accepted] in *. split; [done|].
    destruct r as [[s'|]|e].
    + destruct IH as (Hok & Heq & ->). by destruct (collect_results parse_seed entries).
    + by destruct IH as (m & [=] & _).
    + by destruct IH as [-> Heq].
Qed.

Lemma run_delivered daemon cfg s : (run daemon cfg s).1 = accepted s (deliverable daemon cfg).
Proof.
  unfold run, deliverable. fold (start_mdns daemon cfg).
  pose proof (flush_seeds_spec s (seeds cfg)) as Hs.
  destruct (flush_seeds s (seeds cfg)) as [ps r]. destruct Hs as [Hps Hr].
  destruct r as [[s'|]|e].
  - destruct Hr as (Hok & Heq & Hs'). destruct (collect_results parse_seed (seeds cfg)); [|done].
    destruct (seeds_only cfg); [|destruct (start_mdns daemon cfg) as [evs|e]]; cbn [fst].
    + destruct (start_mdns daemon cfg); by rewrite app_nil_r.
    + rewrite browse_loop_spec, Heq. destruct s as [n|]; [|by rewrite Hs'].
      destruct Hs' as [-> Hle]. cbn [accepted]. rewrite Heq in Hle.
      rewrite take_app, (take_ge (seed_prefix _)) by lia. by rewrite Heq.
    + by rewrite app_nil_r.
  - destruct Hr as (n & -> & Hl). cbn [fst accepted] in *. rewrite Hps in Hl |- *.
    rewrite length_take in Hl. rewrite take_app_le by lia. done.
  - destruct Hr as [-> Heq]. cbn [fst]. by rewrite app_nil_r.
Qed.

(** [run] delivers the seeds in their order up to the first malformed one,
    then, if all parse and mDNS is wanted and starts, the resolved services in their
    order without the local peer; a consumer that leaves has received a prefix of
    that. A malformed seed is reported to a consumer that stays. *)
Theorem run_delivers daemon cfg s :
  (run daemon cfg s).1 = accepted s (deliverable daemon cfg) /\
  (forall dp, dp ∈ (run daemon cfg s).1 -> via_mdns dp = true -> Some (peer dp) <> local_peer cfg) /\
  (forall e, collect_results parse_seed (seeds cfg) = Err e -> (run daemon cfg None).2 = Err e).
Proof.
  split_and!; [apply run_delivered| |].
  - intros dp Hin Hv. rewrite run_delivered in Hin.
    assert (dp ∈ deliverable daemon cfg) as Hd.
    { destruct s as [n|]; [|done]. cbn in Hin. by eapply subseteq_take. }
    apply elem_of_app in Hd as [Hd|Hd].
    + exfalso. clear -Hd Hv. induction (seeds cfg) as [|x xs IH]; cbn in Hd; [by apply elem_of_nil in Hd|].
      destruct (parse_seed x) as [p|] eqn:Ep; [|by apply elem_of_nil in Hd].
      apply elem_of_cons in Hd as [->|Hd]; [|auto].
      unfold parse_seed in Ep. inv_ok. repeat case_match; inv_ok; done.
    + destruct (collect_results _ _); [|by apply elem_of_nil in Hd].
      destruct (start_mdns daemon cfg) as [evs|]; [|by apply elem_of_nil in Hd].
      destruct (seeds_only cfg); [by apply elem_of_nil in Hd|].
      apply list_elem_of_omap in Hd as ([svc|] & _ & Ha); [|done]. cbn in Ha.
      destruct (resolve_to_peer svc); [|done]. case_decide; [done|]. by injection Ha as <-.
  - intros e He. unfold run. pose proof (flush_seeds_spec None (seeds cfg)) as Hs.
    destruct (flush_seeds None (seeds cfg)) as [ps [[s'|]|e']]; destruct Hs as [_ Hr].
    + destruct Hr as [Hok _]. by rewrite He in Hok.
    + by destruct Hr as (n & [=] & _).
    + destruct Hr as [Hr _]. cbn. congruence.
Qed.
(** ** The task beside its consumer *)

Section Task.
Variables (daemon : ServiceDaemon) (cfg : DiscoveryConfig).

(** What a phase still has to deliver, and the result it is heading for. *)
Definition outputs (p : phase) : list DiscoveredPeer :=
  let browsed evs := omap (announced (local_peer cfg)) evs in
  let started := match start_mdns daemon cfg with Ok evs => browsed evs | Err _ => [] end in
  match p with
  | Flushing es =>
      seed_prefix es ++
      match collect_results parse_seed es with
      | Ok _ => if seeds_only cfg then [] else started
      | Err _ => []
      end
  | Starting => started
  | Browsing evs => browsed evs
  | Awaiting | Finished _ => []
  end.

Definition outcome_of (p : phase) : result unit DiscoveryError :=
  let started := match start_mdns daemon cfg with Ok _ => Ok tt | Err e => Err e end in
  match p with
  | Flushing es =>
      match collect_results parse_seed es with
      | Ok _ => if seeds_only cfg then Ok tt else started
      | Err e => Err e
      end
  | Starting => started
  | Browsing _ | Awaiting => Ok tt
  | Finished r => r
  end.

Lemma task_tau s s' :
  run_task daemon cfg s = Tau s' -> outputs s = outputs s' /\ outcome_of s = outcome_of s'.
Proof.
  destruct s as [[|e es]| | |[|[svc|] evs]|r]; cbn; try done.
  - intros [= <-]. by destruct (seeds_only cfg).
  - destruct (parse_seed e); [done|]. by intros [= <-].
  - destruct (start_mdns daemon cfg); by intros [= <-].
  - by intros [= <-].
  - destruct (resolve_to_peer svc) as [p|]; [|by intros [= <-]]. case_decide; [by intros [= <-]|done].
  - by intros [= <-].
Qed.

Lemma task_send s x s1 s2 :
  run_task daemon cfg s = Send x s1 s2 -> outputs s = x :: outputs s1 /\ outcome_of s = outcome_of s1.
Proof.
  destruct s as [[|e es]| | |[|[svc|] evs]|r]; cbn; try done.
  - destruct (parse_seed e); [|done]. intros [= -> <- <-]. cbn. by destruct (collect_results parse_seed es).
  - by destruct (start_mdns daemon cfg).
  - destruct (resolve_to_peer svc) as [p|]; [|done]. case_decide; [done|]. by intros [= -> <- <-].
Qed.

Lemma task_emits p xs p' :
  emits (run_task daemon cfg) p xs p' ->
  outputs p = xs ++ outputs p' /\ outcome_of p = outcome_of p'.
Proof.
  induction 1 as [|s s' xs t Ht _ [IH1 IH2]|s x s1 s2 xs t Ht _ [IH1 IH2]]; [done|..].
  - destruct (task_tau _ _ Ht) as [-> ->]. done.
  - destruct (task_send _ _ _ _ Ht) as [-> ->]. by rewrite IH1.
Qed.

Lemma run_outputs : (run daemon cfg None).1 = outputs (Flushing (seeds cfg)).
Proof.
  rewrite run_delivered. cbn. unfold deliverable. f_equal.
  destruct (collect_results _ _); [|done]. by destruct (start_mdns daemon cfg), (seeds_only cfg).
Qed.

Lemma run_outcome : (run daemon cfg None).2 = outcome_of (Flushing (seeds cfg)).
Proof.
  unfold run. cbn. pose proof (flush_seeds_spec None (seeds cfg)) as Hs.
  destruct (flush_seeds None (seeds cfg)) as [ps [[s'|]|e]]; destruct Hs as [_ Hr].
  - destruct Hr as (Hok & _). destruct (collect_results _ _); [|done].
    destruct (seeds_only cfg); [done|]. by destruct (start_mdns daemon cfg).
  - by destruct Hr as (n & [=] & _).
  - destruct Hr as [-> _]. done.
Qed.

(** Leaving the seeds behind takes as many sends as there are seeds. *)
Lemma task_flushing es found xs p' :
  emits (run_task daemon cfg) (Flushing es) xs p' -> collect_results parse_seed es = Ok found ->
  (exists es', p' = Flushing es' /\ length es = length xs + length es') \/ length es <= length xs.
Proof.
  intros He. remember (Flushing es) as p eqn:Hp. revert es found Hp.
  induction He as [|s s' xs t Ht He IH|s x s1 s2 xs t Ht He IH]; intros es found -> Hf.
  - left. by exists es.
  - right. destruct es as [|e es]; cbn in Ht; [cbn; lia|]. cbn in Hf. by destruct (parse_seed e).
  - destruct es as [|e es]; [done|]. cbn in Ht, Hf. destruct (parse_seed e); [|done].
    injection Ht as -> <- <-. cbn in Hf. destruct (collect_results parse_seed es) as [l|] eqn:El; [|done].
    destruct (IH es l eq_refl El) as [(es' & -> & Hl)|Hl]; [left; exists es'|right]; cbn; [split; [done|]|]; lia.
Qed.

(** A bound on the task's own steps. *)
Definition phase_size (p : phase) : nat :=
  let events := match start_mdns daemon cfg with Ok evs => length evs | Err _ => 0 end in
  match p with
  | Flushing es => 3 + events + length es
  | Starting => 2 + events
  | Browsing evs => 1 + length evs
  | Awaiting => 1
  | Finished _ => 0
  end.

Lemma run_task_measure : task_measure (run_task daemon cfg) phase_size.
Proof.
  intros [[|e es]| | |[|[svc|] evs]|r]; cbn; try lia.
  - destruct (seeds_only cfg); cbn; lia.
  - destruct (parse_seed e); cbn; lia.
  - destruct (start_mdns daemon cfg); cbn; lia.
  - destruct (resolve_to_peer svc); [case_decide|]; cbn; lia.
Qed.

(** C28: discovery beside its consumer, in every interleaving: what the consumer
    has received is the beginning of what [run] delivers, with at most 32 more
    waiting; runs are bounded; a task that finishes while the consumer is there has
    sent everything and returns what [run] returns, and where nothing is left to
    happen but the consumer leaving, everything has been received. A consumer that
    never reads holds the task among the seeds when there are more than 32: it never
    gets to its mDNS registration. *)
Theorem discovery_channel c n :
  nsteps (chan_step CHANNEL_CAPACITY (run_task daemon cfg)) n (start (Flushing (seeds cfg))) c ->
  n <= 2 * phase_size (Flushing (seeds cfg)) + 1 /\
  (exists k, received c = (run daemon cfg (Some k)).1) /\
  (alive c = true -> length (queue c) <= CHANNEL_CAPACITY) /\
  (forall r, alive c = true -> task_state c = Finished r ->
     (received c ++ queue c, r) = run daemon cfg None) /\
  (idle CHANNEL_CAPACITY (run_task daemon cfg) c -> received c = (run daemon cfg None).1) /\
  (forall found, alive c = true -> received c = [] ->
     collect_results parse_seed (seeds cfg) = Ok found -> CHANNEL_CAPACITY < length (seeds cfg) ->
     exists e es, task_state c = Flushing (e :: es)).
Proof.
  intros Hn. pose proof (rtc_nsteps_2 _ _ _ Hn) as Hr.
  split; [exact (chan_terminates _ _ _ _ _ _ run_task_measure Hn)|].
  destruct (chan_reachable_inv _ _ _ _ Hr) as [Ha (q & t & He)].
  apply task_emits in He as [He _]. split_and!.
  - exists (length (received c)). rewrite run_delivered. cbn [accepted].
    change (deliverable daemon cfg) with (accepted None (deliverable daemon cfg)).
    rewrite <- run_delivered, run_outputs, He, <- app_assoc. by rewrite take_app_length.
  - intros Hal. by apply Ha.
  - intros r Hal Hf. destruct (Ha Hal) as [[Ho Hc]%task_emits _]. rewrite Hf in Ho, Hc.
    by rewrite (surjective_pairing (run daemon cfg None)), run_outputs, run_outcome, Ho, Hc, app_nil_r.
  - intros Hid. destruct (chan_idle CHANNEL_CAPACITY (run_task daemon cfg) c) as [Hq Ht];
      [unfold CHANNEL_CAPACITY; lia|done|].
    destruct (Ha (proj1 Hid)) as [[Ho _]%task_emits _]. rewrite Hq, app_nil_r in Ho.
    rewrite run_outputs, Ho.
    assert (outputs (task_state c) = []) as ->; [|by rewrite app_nil_r].
    destruct (task_state c) as [[|e es]| | |[|[svc|] evs]|r]; cbn in Ht |- *; try done;
      destruct Ht as [Ht|[? Ht]]; repeat case_match; done.
  - intros found Hal Hrec Hf Hlt. destruct (Ha Hal) as [Hem Hq]. rewrite Hrec in Hem. cbn [app] in Hem.
    destruct (task_flushing _ _ _ _ Hem Hf) as [([|e es] & -> & Hl)|Hl]; [cbn in Hl; lia|eauto|lia].
Qed.
End Task.
End Facts.

Module DiscoveryWitness.
#[local] Existing Instances RefHex.crate RefHex.laws.

Definition pid : PeerId := PeerId.from_bytes (array32_repeat Byte.x0a).

Lemma parse_seed_iff_witness :
  exists dp, parse_seed (seed_entry (PeerId.to_hex pid) "10.0.0.1:7447" None) = Ok dp /\
    zenoh_url dp = "tcp/10.0.0.1:7447".
Proof.
  exists (mk_DiscoveredPeer pid (SocketAddr_new (V4 10 0 0 1) 7447) "tcp/10.0.0.1:7447" false).
  split; [|reflexivity]. apply parse_seed_iff.
  exists (PeerId.to_hex pid), "10.0.0.1:7447", None.
  split; [reflexivity|]. split; [reflexivity|]. split; [reflexivity|].
  split; [apply from_hex_to_hex|]. split; [reflexivity|]. by split.
Defined.


Lemma advertise_resolve_roundtrip_witness :
  resolve_to_peer (mk_ResolvedService [("zenoh", "tcp/h:1"); ("peer", PeerId.to_hex pid)]
    [V4 10 0 0 1] 7447) =
    Some (mk_DiscoveredPeer pid (SocketAddr_new (V4 10 0 0 1) 7447) "tcp/h:1" true).
Proof. apply (advertise_resolve_roundtrip pid "tcp/h:1" 7447). apply Permutation_swap. Defined.

Lemma run_delivers_witness :
  (run (mk_ServiceDaemon (Err "no socket") (fun _ => Ok tt) (fun _ => Ok tt) (fun _ => Ok []))
     (mk_DiscoveryConfig None None 7447 ["bad"] true) None).2 =
    Err (BadSeed "bad" "expected '<peer-hex>@<host:port>[/<zenoh-url>]'").
Proof.
  apply (run_delivers (mk_ServiceDaemon (Err "no socket") (fun _ => Ok tt) (fun _ => Ok tt)
    (fun _ => Ok [])) (mk_DiscoveryConfig None None 7447 ["bad"] true) None). reflexivity.
Defined.

Definition no_mdns : ServiceDaemon :=
  mk_ServiceDaemon (Err "no socket") (fun _ => Ok tt) (fun _ => Ok tt) (fun _ => Ok []).
Definition one_seed : DiscoveryConfig :=
  mk_DiscoveryConfig None None 7447 [PeerId.to_hex pid +:+ "@10.0.0.1:7447"] false.

(** One seed is sent, mDNS does not start, the consumer reads. *)
Lemma discovery_channel_witness :
  exists dp, ([dp], Err (Mdns "daemon: no socket")) = run no_mdns one_seed None.
Proof.
  set (dp := mk_DiscoveredPeer pid (SocketAddr_new (V4 10 0 0 1) 7447) "tcp/10.0.0.1:7447" false).
  assert (nsteps (chan_step CHANNEL_CAPACITY (run_task no_mdns one_seed)) 4
    (start (Flushing (seeds one_seed)))
    (mk_conf (Finished (Err (Mdns "daemon: no socket"))) [] ([] ++ [dp]) true)) as Hn.
  { eapply nsteps_l; [eapply step_send; [vm_compute; reflexivity|unfold CHANNEL_CAPACITY; cbn; lia]|].
    eapply nsteps_l; [eapply step_tau; reflexivity|].
    eapply nsteps_l; [eapply step_tau; reflexivity|].
    eapply nsteps_l; [apply step_recv|]. apply nsteps_O. }
  exists dp. exact (proj1 (proj2 (proj2 (proj2 (discovery_channel _ _ _ _ Hn)))) _ eq_refl eq_refl).
Defined.

End DiscoveryWitness.
