(* ===== verification/BTree.v ===== *)
(** * [std::collections::BTreeMap]

    An ordered map as the strictly sorted list of its entries, over a key type
    with a total order: [btree_insert] replaces the value of a key that is there,
    iteration is the list itself. The interface to the order is a class, with the
    derived orders of the key types the sources use as instances. *)

From S2P Require Import Prelude RustStd Codecs Core.

(** ** Orders *)

(** [Ord::cmp]. *)
Class Ord (K : Type) := ord_cmp : K -> K -> comparison.

Class OrdLaws (K : Type) `{Ord K} : Prop := {
  key_eq a b : ord_cmp a b = Eq <-> a = b;
  key_antisym a b : ord_cmp b a = CompOpp (ord_cmp a b);
  key_trans a b c : ord_cmp a b = Lt -> ord_cmp b c = Lt -> ord_cmp a c = Lt;
}.

#[export] Instance PeerId_Ord : Ord PeerId := PeerId.cmp.
#[export] Instance PeerId_OrdLaws : OrdLaws PeerId.
Proof.
  split; [apply PeerId_cmp_eq|apply PeerId_cmp_antisym|apply PeerId_cmp_lt_trans].
Qed.

(** [String]: by bytes. *)
#[export] Instance string_Ord : Ord string := fun a b => bytes_cmp (str_bytes a) (str_bytes b).
#[export] Instance string_OrdLaws : OrdLaws string.
Proof.
  split; unfold ord_cmp, string_Ord.
  - intros a b. rewrite bytes_cmp_eq. split; [|by intros ->].
    intros E%(f_equal bytes_str). by rewrite !bytes_str_bytes in E.
  - intros a b. apply bytes_cmp_antisym.
  - intros a b c. apply bytes_cmp_lt_trans.
Qed.

(** Tuples: by component. *)
#[export] Instance prod_Ord {A B} `{Ord A, Ord B} : Ord (A * B) := fun x y =>
  then_with (ord_cmp x.1 y.1) (ord_cmp x.2 y.2).
#[export] Instance prod_OrdLaws {A B} `{OrdLaws A, OrdLaws B} : OrdLaws (A * B).
Proof.
  split; unfold ord_cmp, prod_Ord.
  - intros [a1 b1] [a2 b2]; cbn. destruct (ord_cmp a1 a2) eqn:E; cbn.
    + apply key_eq in E as ->. rewrite key_eq. naive_solver.
    + split; [done|]. intros [= -> ->]. by rewrite (proj2 (key_eq a2 a2) eq_refl) in E.
    + split; [done|]. intros [= -> ->]. by rewrite (proj2 (key_eq a2 a2) eq_refl) in E.
  - intros [a1 b1] [a2 b2]; cbn. rewrite (key_antisym a1 a2).
    destruct (ord_cmp a1 a2); cbn; [apply key_antisym|done..].
  - intros [a1 b1] [a2 b2] [a3 b3]; cbn.
    destruct (ord_cmp a1 a2) eqn:E1; cbn; [|destruct (ord_cmp a2 a3) eqn:E2; cbn|done]; intros Hx Hy.
    + apply key_eq in E1 as ->. destruct (ord_cmp a2 a3); cbn in *; [by eapply key_trans|done..].
    + apply key_eq in E2 as ->. by rewrite E1.
    + by rewrite (key_trans _ _ _ E1 E2).
    + done.
Qed.

(** ** The map *)

Section Map.
Context {K V : Type} `{OrdLaws K}.

Fixpoint btree_insert (k : K) (v : V) (m : list (K * V)) : list (K * V) :=
  match m with
  | [] => [(k, v)]
  | (k', v') :: m' =>
      match ord_cmp k k' with
      | Lt => (k, v) :: m
      | Eq => (k', v) :: m'
      | Gt => (k', v') :: btree_insert k v m'
      end
  end.

(** Keys strictly ascending. *)
Definition below (a b : K * V) : Prop := ord_cmp a.1 b.1 = Lt.
Definition btree_wf (m : list (K * V)) : Prop := StronglySorted below m.

(** The map a list of insertions builds. *)
Definition btree_of (l : list (K * V)) : list (K * V) :=
  fold_left (fun m kv => btree_insert kv.1 kv.2 m) l [].

(** The value inserted last under a key. *)
Definition latest (k : K) (l : list (K * V)) : option V :=
  fold_left (fun o kv => match ord_cmp k kv.1 with Eq => Some kv.2 | _ => o end) l None.

Lemma key_refl k : ord_cmp k k = Eq.
Proof. by apply key_eq. Qed.

Lemma key_gt a b : ord_cmp a b = Gt -> ord_cmp b a = Lt.
Proof. intros E. by rewrite key_antisym, E. Qed.

Lemma btree_insert_elem k v m kv :
  kv ∈ btree_insert k v m -> kv = (k, v) \/ kv ∈ m.
Proof.
  induction m as [|[k' v'] m IH]; cbn; [rewrite list_elem_of_singleton; by left|].
  destruct (ord_cmp k k') eqn:E.
  - apply key_eq in E as ->. rewrite !elem_of_cons. naive_solver.
  - rewrite !elem_of_cons. naive_solver.
  - rewrite !elem_of_cons. naive_solver.
Qed.

Lemma btree_insert_wf k v m : btree_wf m -> btree_wf (btree_insert k v m).
Proof.
  unfold btree_wf. induction m as [|[k' v'] m IH]; cbn; [by repeat constructor|].
  intros [Hm Hk]%StronglySorted_inv. rewrite Forall_forall in Hk.
  destruct (ord_cmp k k') eqn:E.
  - apply key_eq in E as ->. constructor; [done|]. by rewrite Forall_forall.
  - constructor; [constructor; [done|by rewrite Forall_forall]|]. rewrite Forall_forall.
    intros x [->|Hx]%elem_of_cons; [done|]. eapply key_trans; [exact E|]. by apply Hk.
  - constructor; [by apply IH|]. rewrite Forall_forall.
    intros x [->|Hx]%btree_insert_elem; [by apply key_gt|by apply Hk].
Qed.

Lemma btree_of_wf l : btree_wf (btree_of l).
Proof.
  unfold btree_of. assert (forall m, btree_wf m ->
    btree_wf (fold_left (fun m kv => btree_insert kv.1 kv.2 m) l m)) as Hl; [|apply Hl; constructor].
  induction l as [|kv l IH]; cbn; [done|]. intros m Hm. by apply IH, btree_insert_wf.
Qed.

(** Inserting sets the value of the key and no other. *)
Lemma btree_insert_spec k v m k' v' :
  btree_wf m ->
  (k', v') ∈ btree_insert k v m <-> (k' = k /\ v' = v) \/ (k' <> k /\ (k', v') ∈ m).
Proof.
  unfold btree_wf. induction m as [|[a b] m IH]; cbn.
  { intros _. rewrite list_elem_of_singleton. split; [naive_solver|].
    intros [[-> ->]|[_ []%elem_of_nil]]; done. }
  intros [Hm Hk]%StronglySorted_inv. rewrite Forall_forall in Hk.
  assert (forall x y, (x, y) ∈ m -> x <> a) as Hna.
  { intros x y Hx%Hk ->. unfold below in Hx; cbn in Hx. by rewrite key_refl in Hx. }
  destruct (ord_cmp k a) eqn:E.
  - apply key_eq in E as ->. rewrite !elem_of_cons. naive_solver.
  - rewrite !elem_of_cons. assert ((k', v') = (a, b) \/ (k', v') ∈ m -> k' <> k) as Hne.
    { intros [[= -> ->]|Hx] ->; [by rewrite key_refl in E|].
      apply Hk in Hx. unfold below in Hx; cbn in Hx.
      pose proof (key_trans _ _ _ E Hx) as Ht. by rewrite key_refl in Ht. }
    naive_solver.
  - rewrite !elem_of_cons, (IH Hm). assert (a <> k) as Hne by (intros ->; by rewrite key_refl in E).
    naive_solver.
Qed.

(** A map built by insertions holds the latest value of each key. *)
Lemma btree_of_spec l k v : (k, v) ∈ btree_of l <-> latest k l = Some v.
Proof.
  induction l as [|[a b] l IH] using rev_ind.
  { cbn. split; [by intros ?%elem_of_nil|done]. }
  unfold btree_of, latest in *. rewrite !fold_left_app. cbn [fold_left fst snd].
  rewrite btree_insert_spec by apply btree_of_wf. rewrite IH.
  destruct (ord_cmp k a) eqn:E.
  - apply key_eq in E as ->. naive_solver.
  - assert (k <> a) by (intros ->; by rewrite key_refl in E). naive_solver.
  - assert (k <> a) by (intros ->; by rewrite key_refl in E). naive_solver.
Qed.

Lemma latest_elem_of l k v : latest k l = Some v -> (k, v) ∈ l.
Proof.
  induction l as [|[a b] l IH] using rev_ind; [done|].
  unfold latest in *. rewrite fold_left_app. cbn [fold_left fst snd].
  rewrite elem_of_app, list_elem_of_singleton. destruct (ord_cmp k a) eqn:E; [|auto..].
  apply key_eq in E as ->. intros [= ->]. by right.
Qed.

Lemma latest_is_Some l k v : (k, v) ∈ l -> is_Some (latest k l).
Proof.
  induction l as [|[a b] l IH] using rev_ind; [by intros ?%elem_of_nil|].
  unfold latest in *. rewrite fold_left_app. cbn [fold_left fst snd].
  rewrite elem_of_app, list_elem_of_singleton. intros [Hl|[= -> ->]].
  - apply IH in Hl. destruct (ord_cmp k a); [by eexists|done..].
  - rewrite key_refl. by eexists.
Qed.

End Map.
