(* ===== verification/Cli.v ===== *)
(** * furcate-mesh-cli/src/main.rs: the command line

    The commands as compositions of the other crates' models: identity, transport,
    discovery and transfer, with the lines they print, the contexts they wrap
    around errors and the tables they build. Argument parsing is clap's: the
    model starts from the parsed [Cli] value, with the declared defaults as
    constants.

    What a process meets while it runs (environment variables, the key drawn from
    the OS, the mDNS daemon, arriving samples and queries, clock readings, the end
    of the wait for Ctrl-C) is a [Surroundings] record that the theorems quantify
    over. Background tasks act when their events arrive; the model lists their
    effects after the foreground command has started them. *)

From Stdlib Require Import SpecFloat.
From S2P Require Import Prelude RustStd Codecs Core Wire Event Json Fs Transfer Identity Transport Net Discovery BTree.

(** ** Arguments *)

Inductive PeerCmd :=
| Up (seeds : list string) (seeds_only : bool) (port heartbeat_secs : Z)
| Id.

Inductive ModelCmd :=
| Push (name path format : string) (port : Z) (seeds : list string) (seeds_only : bool)
| Pull (peer digest : string) (cache_dir : option string) (port : Z) (seeds : list string)
    (seeds_only : bool)
| List (for_secs : Z).

Inductive RouteCmd := Inspect.

Inductive Cmd :=
| Peer (sub : PeerCmd)
| Peers (for_secs : Z)
| Model (sub : ModelCmd)
| Route (sub : RouteCmd).

Record Cli := mk_Cli { config_dir : option string; cmd : Cmd }.

(** The [default_value]s of the arguments. *)
Definition default_port : Z := 7447.
Definition default_for_secs : Z := 5.
Definition default_heartbeat_secs : Z := 5.
Definition default_format : string := "gguf".

(** ** Errors, output and effects *)

(** [anyhow::Error]: a cause under contexts; a panic ends the process too. *)
Inductive CliError :=
| EIdentity (e : IdentityError)
| ETransport (e : TransportError)
| ETransfer (e : TransferError)
| EPeerId (e : PeerId.PeerIdError)
| EIo (e : IoError)
| EOs (msg : string)
| Context (msg : string) (cause : CliError)
| Panicked (msg : string).

Inductive out :=
| Stdout (text : string)
| Stderr (text : string)
| Advertised (info : ServiceInfo)
| LogDiscovered (p : DiscoveredPeer)
| LogWarn (msg : string)
| TaskPanicked (msg : string).

(** A command: the output so far, its result and the world. *)
Definition cli (A : Type) : Type := World -> list out * (result A CliError * World).

Definition cli_ret {A} (a : A) : cli A := fun w => ([], (Ok a, w)).

Definition cli_bind {A B} (m : cli A) (k : A -> cli B) : cli B := fun w =>
  match m w with
  | (o, (Ok a, w1)) => let (o', x) := k a w1 in (o ++ o', x)
  | (o, (Err e, w1)) => (o, (Err e, w1))
  end.

Definition emit (o : list out) : cli unit := fun w => (o, (Ok tt, w)).

Definition run_io {A E} (f : E -> CliError) (m : io A E) : cli A := fun w =>
  match m w with (r, w') => ([], (map_err f r, w')) end.

Definition of_result {A} (r : result A CliError) : cli A := fun w => ([], (r, w)).

Notation "'let^' x ':=' m 'in' k" := (cli_bind m (fun x => k))
  (at level 10, x pattern, m at level 100, k at level 200,
   format "'[v' 'let^'  x  ':='  m  'in' '/' k ']'") : rust_scope.

(** ** What a process meets *)

(** The session handed to the transfer service. *)
Class ZenohQueries `{ZenohCrate} := { queries : ZSession -> Session }.

(** A sample delivered to a subscription: the monotonic instant in nanoseconds,
    the seconds since the epoch, the sample. *)
Record Arrival := mk_Arrival { a_instant : Z; a_wall_secs : Z; a_sample : Sample }.

Record Surroundings `{KeyCrates} := mk_Surroundings {
  env : gmap string string;
  drawn : SigningKey;
  (** [TcpListener::bind("127.0.0.1:0")], then its [local_addr]. *)
  bind_ephemeral : result (result Z string) string;
  daemon : ServiceDaemon;
  (** The instant at which a listening window opens. *)
  started : Z;
  arrivals : list Arrival;
  (** Clock readings: of an announcement, and of each heartbeat tick. *)
  clock : option Z;
  ticks : list (option Z);
  (** Keys queried while a pushed model is served. *)
  incoming : list string;
  ctrl_c : result unit string;
  (** What [metadata] reports as the length of a directory. *)
  dir_len : string -> Z;
}.

Section Commands.
Context `{HexCrate, Base64Crate, JsonCrate, Blake3Crate, KeyCrates, ZenohCrate}.
Context `{!ZenohQueries} (sur : Surroundings).

(** ** Helpers *)

Definition pick_free_port : result Z CliError :=
  let? l := map_err (fun e => Context "bind ephemeral" (EOs e)) (bind_ephemeral sur) in
  map_err (fun e => Context "local_addr" (EOs e)) l.

Definition listen_on (port : Z) : string := "tcp/0.0.0.0:" +:+ fmt_uint port.

Definition open_transport (listen_url : string) : result ZSession CliError :=
  map_err (fun e => Context "opening zenoh session" (ETransport e))
    (Transport_new (mk_TransportConfig (Some listen_url) [])).

Definition identity (config_dir : string) : cli PeerIdentity :=
  run_io EIdentity (load_or_generate (drawn sur) config_dir).

(** [transport.publish]; every event the commands publish has a key. *)
Definition publish_event (e : MeshEvent) : io unit TransportError :=
  match publish e with
  | Some m => m
  | None => io_fail (Encoding "event without key")
  end.

Definition wait_ctrl_c : cli unit :=
  of_result (map_err (fun e => Context "waiting for Ctrl-C" (EOs e)) (ctrl_c sur)).

(** ** The discovery task

    [Discovery::new] makes a channel of 32 places. [peer up] reads it and logs what
    it receives; [model push] and [model pull] keep the receiver and never read it,
    so the task stops at the first item that finds the channel full. *)

(** The service the task registers with the daemon, if it gets there. *)
Definition registration (drained : bool) (cfg : DiscoveryConfig) : list out :=
  match collect_results parse_seed (seeds cfg) with
  | Err _ => []
  | Ok found =>
      if seeds_only cfg then []
      else if negb drained && (CHANNEL_CAPACITY <? length found) then []
      else
        match daemon_new (daemon sur), local_peer cfg, local_zenoh_url cfg with
        | Ok _, Some lp, Some url =>
            match register_local (daemon sur) lp url (port cfg) with
            | Ok _ => [Advertised (local_info lp url (port cfg))]
            | Err _ => []
            end
        | _, _, _ => []
        end
  end.

(** The discovery task of [peer up], and the one that logs what it finds. *)
Definition discovery_task (cfg : DiscoveryConfig) : list out :=
  let (found, r) := Discovery.run (daemon sur) cfg None in
  registration true cfg ++ (LogDiscovered <$> found) ++
  match r with Ok _ => [] | Err _ => [LogWarn "discovery loop exited with error"] end.

(** ** [peer id] *)

Definition peer_id (config_dir : string) : cli unit :=
  let^ id := identity config_dir in
  emit [Stdout (PeerId.fmt_display (Identity.peer_id id))].

(** ** [peer up] *)

Definition heartbeat (peer : PeerId) (reading : option Z) : MeshEvent :=
  Heartbeat peer (Hlc.now reading) f64_zero.

(** One tick of the heartbeat loop. *)
Definition heartbeat_tick (peer : PeerId) (reading : option Z) : cli unit :=
  let^ r := run_io EIo (io_try (publish_event (heartbeat peer reading))) in
  match r with
  | Ok _ => cli_ret tt
  | Err _ => emit [LogWarn "heartbeat publish failed"]
  end.

Fixpoint heartbeat_loop (peer : PeerId) (readings : list (option Z)) : cli unit :=
  match readings with
  | [] => cli_ret tt
  | reading :: readings =>
      let^ _ := heartbeat_tick peer reading in heartbeat_loop peer readings
  end.

(** [tokio::time::interval] panics on a zero period, which ends the task. *)
Definition heartbeat_task (peer : PeerId) (heartbeat_secs : Z) : cli unit :=
  if (heartbeat_secs =? 0)%Z then emit [TaskPanicked "`period` must be non-zero."]
  else heartbeat_loop peer (ticks sur).

Definition peer_up (config_dir : string) (seeds : list string) (seeds_only : bool)
    (port heartbeat_secs : Z) : cli unit :=
  let^ id := identity config_dir in
  let peer := Identity.peer_id id in
  let listen_url := listen_on port in
  let^ _ := of_result (open_transport listen_url) in
  let^ _ := emit (discovery_task
              (mk_DiscoveryConfig (Some peer) (Some listen_url) port seeds seeds_only)) in
  let^ _ := heartbeat_task peer heartbeat_secs in
  wait_ctrl_c.

(** ** Listening windows *)

(** The items of a subscription with their instants. *)
Definition open_window (key_expr what : string) (session : ZSession)
    : result (list (Z * Z * result MeshEvent TransportError)) CliError :=
  let? items := map_err (fun e => Context what (ETransport e))
                  (subscribe session key_expr None (a_sample <$> arrivals sur)) in
  Ok (zip_with (fun a item => (a_instant a, a_wall_secs a, item)) (arrivals sur) items).

(** [Instant::now() + Duration::from_secs(for_secs)]: instants have [i64] seconds. *)
Definition deadline_of (for_secs : Z) : result Z CliError :=
  let deadline := (started sur + Duration_from_secs for_secs)%Z in
  if (deadline <? 2 ^ 63 * 1000000000)%Z then Ok deadline
  else Err (Panicked "overflow when adding duration to instant").

(** The loop: until the deadline, or the end of the stream. *)
Fixpoint observe {S} (deadline : Z) (on : S -> Z -> MeshEvent -> S)
    (stream : list (Z * Z * result MeshEvent TransportError)) (seen : S) : S :=
  match stream with
  | [] => seen
  | (now, wall, item) :: stream =>
      if (deadline <=? now)%Z then seen
      else match item with
           | Ok e => observe deadline on stream (on seen wall e)
           | Err _ => observe deadline on stream seen
           end
  end.

(** ** [peers] *)

Definition on_heartbeat (seen : list (PeerId * (f64 * Z))) (wall : Z) (e : MeshEvent) :=
  match e with
  | Heartbeat peer _ load => btree_insert peer (load, wall) seen
  | _ => seen
  end.

Definition peers_header : string :=
  "PEER                                                             LOAD  LAST_SEEN".

Definition peer_row (row : PeerId * (f64 * Z)) : string :=
  let '(p, (load, ts)) := row in
  PeerId.fmt_display p +:+ "  " +:+ pad_left 4 (fmt_fixed2 load) +:+ "  " +:+ fmt_uint ts.

Definition print_peers (for_secs : Z) (seen : list (PeerId * (f64 * Z))) : list out :=
  match seen with
  | [] => [Stdout ("(no peers seen in " +:+ fmt_uint for_secs +:+ "s)")]
  | _ => Stdout peers_header :: (Stdout <$> (peer_row <$> seen))
  end.

Definition peers_list (config_dir : string) (for_secs : Z) : cli unit :=
  let^ port := of_result pick_free_port in
  let^ _ := identity config_dir in
  let^ session := of_result (open_transport (listen_on port)) in
  let^ stream := of_result (open_window SUB_ALL_HEARTBEATS "subscribing to heartbeats" session) in
  let^ deadline := of_result (deadline_of for_secs) in
  emit (print_peers for_secs (observe deadline on_heartbeat stream [])).

(** ** [model list] *)

Definition on_announce (seen : list (PeerId * string * (string * string))) (wall : Z) (e : MeshEvent) :=
  match e with
  | ModelAnnounce peer _ model_name digest_blake3 format =>
      btree_insert (peer, model_name) (digest_blake3, format) seen
  | _ => seen
  end.

Definition model_row (row : PeerId * string * (string * string)) : string :=
  let '((peer, name), (digest, format)) := row in
  PeerId.fmt_display peer +:+ "  " +:+ name +:+ "  " +:+ format +:+ "  " +:+ digest.

Definition print_models (for_secs : Z) (seen : list (PeerId * string * (string * string))) : list out :=
  match seen with
  | [] => [Stdout ("(no model announcements in " +:+ fmt_uint for_secs +:+ "s)")]
  | _ => Stdout "PEER  MODEL  FORMAT  DIGEST" :: (Stdout <$> (model_row <$> seen))
  end.

Definition model_list (config_dir : string) (for_secs : Z) : cli unit :=
  let^ _ := identity config_dir in
  let^ port := of_result pick_free_port in
  let^ session := of_result (open_transport (listen_on port)) in
  let^ stream := of_result (open_window SUB_ALL_MODELS "subscribing to model announcements" session) in
  let^ deadline := of_result (deadline_of for_secs) in
  emit (print_models for_secs (observe deadline on_announce stream [])).

(** ** [model push] *)

Definition newline : string := String (Ascii.ascii_of_nat 10) "".

(** From the announcement on: publish it, print, answer queries until Ctrl-C. *)
Definition announce_and_serve (peer : PeerId) (name format digest : string) (transfer : TransferService)
    : cli unit :=
  let announce := ModelAnnounce peer (Hlc.now (clock sur)) name digest format in
  let^ _ := run_io (fun e => Context "publishing ModelAnnounce" (ETransport e))
              (publish_event announce) in
  let^ _ := emit [Stdout ("pushed " +:+ name +:+ " (" +:+ format +:+ ") digest=" +:+ digest +:+
                          newline +:+ "listening for pulls — Ctrl-C to stop")] in
  let^ _ := run_io ETransfer (serve_loop (artefacts transfer) (Query <$> incoming sur)) in
  wait_ctrl_c.

Definition model_push (config_dir name path format : string) (port : Z) (seeds : list string)
    (seeds_only : bool) : cli unit :=
  let^ id := identity config_dir in
  let peer := Identity.peer_id id in
  let^ digest := run_io (fun e => Context ("hashing " +:+ path) (ETransfer e)) (root_hash path) in
  let^ session := of_result (open_transport (listen_on port)) in
  let cache_dir := path_join config_dir "cache" in
  let^ _ := run_io EIo (io_ignore (create_dir_all cache_dir)) in
  let transfer := register (TransferService_new cache_dir (queries session)) digest path in
  let^ transfer := run_io (fun e => Context "declaring transfer queryable" (ETransfer e))
                     (serve transfer []) in
  let^ _ := emit (registration false
              (mk_DiscoveryConfig (Some peer) (Some (listen_on port)) port seeds seeds_only)) in
  announce_and_serve peer name format digest transfer.

(** ** [model pull] *)

(** [tokio::fs::metadata(&path)], then [len]. *)
Definition path_len (p : string) : io Z IoError := guarded (fun w =>
  match w_files w !! p with
  | Some f => (Ok (Z.of_nat (length (f_content f))), w)
  | None => if is_dir w p then (Ok (dir_len sur p), w) else (Err NotFound, w)
  end).

Definition model_pull (config_dir peer_hex digest : string) (cache_dir : option string) (port : Z)
    (seeds : list string) (seeds_only : bool) : cli unit :=
  let^ _ := identity config_dir in
  let^ session := of_result (open_transport (listen_on port)) in
  let^ _ := emit (registration false (mk_DiscoveryConfig None None port seeds seeds_only)) in
  let cache_dir := default (path_join config_dir "cache") cache_dir in
  let transfer := TransferService_new cache_dir (queries session) in
  let^ peer := of_result (map_err (fun e => Context ("parsing peer-hex " +:+ peer_hex) (EPeerId e))
                            (PeerId.from_hex peer_hex)) in
  let^ path := run_io (fun e => Context ("pulling digest " +:+ digest) (ETransfer e))
                 (pull transfer peer digest) in
  let^ n := run_io EIo (path_len path) in
  emit [Stdout ("pulled " +:+ fmt_uint n +:+ " bytes into " +:+ path)].

(** ** [route inspect] and the dispatch *)

Definition route_inspect : cli unit :=
  emit [Stderr "route inspect: in-memory router has no persistent state yet"].

Definition main (args : Cli) : cli unit :=
  let dir := default (default_config_dir (env sur)) (config_dir args) in
  match cmd args with
  | Peer (Up seeds seeds_only port heartbeat_secs) => peer_up dir seeds seeds_only port heartbeat_secs
  | Peer Id => peer_id dir
  | Peers for_secs => peers_list dir for_secs
  | Model (Push name path format port seeds seeds_only) =>
      model_push dir name path format port seeds seeds_only
  | Model (Pull peer digest cache_dir port seeds seeds_only) =>
      model_pull dir peer digest cache_dir port seeds seeds_only
  | Model (List for_secs) => model_list dir for_secs
  | Route Inspect => route_inspect
  end.

End Commands.

(** ** Reasoning about commands *)

Lemma cli_bind_ok {A B} (m : cli A) (k : A -> cli B) w o b w' :
  cli_bind m k w = (o, (Ok b, w')) <->
  exists o1 a w1 o2, m w = (o1, (Ok a, w1)) /\ k a w1 = (o2, (Ok b, w')) /\ o = o1 ++ o2.
Proof.
  unfold cli_bind. destruct (m w) as [o1 [[a|e] w1]].
  - destruct (k a w1) as [o2 x] eqn:E. split.
    + intros [= <- ->]. by exists o1, a, w1, o2.
    + intros (o1' & a' & w1' & o2' & [= <- <- <-] & Hk & ->). rewrite E in Hk. by injection Hk as -> ->.
  - split; [done|]. intros (o1' & a' & w1' & o2' & [=] & _).
Qed.

Lemma cli_bind_step {A B} (m : cli A) (k : A -> cli B) w o a w1 :
  m w = (o, (Ok a, w1)) -> cli_bind m k w = (o ++ (k a w1).1, (k a w1).2).
Proof. unfold cli_bind. intros ->. by destruct (k a w1). Qed.

Lemma run_io_step {A E} (f : E -> CliError) (m : io A E) w a w1 :
  m w = (Ok a, w1) -> run_io f m w = ([], (Ok a, w1)).
Proof. unfold run_io. by intros ->. Qed.

Lemma run_io_inv {A E} (f : E -> CliError) (m : io A E) w o r w1 :
  run_io f m w = (o, (r, w1)) -> o = [] /\ exists r', m w = (r', w1) /\ r = map_err f r'.
Proof. unfold run_io. destruct (m w) as [r' w']. intros [= <- <- <-]. eauto. Qed.

(** Steps of a command that succeed without output. *)
Lemma cli_bind_quietly {A B} (m : cli A) (k : A -> cli B) w a w1 :
  m w = ([], (Ok a, w1)) -> cli_bind m k w = k a w1.
Proof. intros Hm. rewrite (cli_bind_step _ _ _ _ _ _ Hm). cbn. by destruct (k a w1). Qed.

Lemma of_result_ok {A} (r : result A CliError) w o a w1 :
  of_result r w = (o, (Ok a, w1)) -> o = [] /\ r = Ok a /\ w1 = w.
Proof. by intros [= <- -> <-]. Qed.

Lemma identity_silent `{KeyCrates} sur dir w o r w' :
  identity sur dir w = (o, (r, w')) -> o = [] /\ w_sent w' = w_sent w.
Proof.
  intros (-> & r' & Hr & _)%run_io_inv. split; [done|].
  by apply (respects_load_or_generate same_sent _ _) in Hr.
Qed.

(** Take a successful command apart. *)
Ltac cli_inv :=
  repeat match goal with
  | Hr : cli_bind _ _ _ = (_, (Ok _, _)) |- _ =>
      let Hm := fresh "Hm" in apply cli_bind_ok in Hr as (? & ? & ? & ? & Hm & Hr & ->)
  | Hr : of_result _ _ = (_, (Ok _, _)) |- _ => apply of_result_ok in Hr as (-> & Hr & ->)
  | Hr : wait_ctrl_c _ _ = (_, (Ok _, _)) |- _ => apply of_result_ok in Hr as (-> & Hr & ->)
  | Hr : identity _ _ _ = (?o, _) |- _ =>
      first [ is_var o; pose proof (identity_silent _ _ _ _ _ _ Hr) as [-> ?] ]
  | Hr : emit _ _ = _ |- _ => injection Hr as <- <-
  end.

(** ** Listings *)

Section Listings.
Context `{HexCrate, Base64Crate, JsonCrate}.

(** What the arrivals before the deadline say, in order. *)
Definition heard {T} (sel : Z -> MeshEvent -> option T) (deadline : Z) (l : list Arrival) : list T :=
  omap (fun a => match decode_sample (a_sample a) with
                 | Ok e => sel (a_wall_secs a) e
                 | Err _ => None
                 end)
       (filter (fun a => (a_instant a < deadline)%Z) l).

Definition heartbeat_of (wall : Z) (e : MeshEvent) : option (PeerId * (f64 * Z)) :=
  match e with Heartbeat p _ load => Some (p, (load, wall)) | _ => None end.

Definition announce_of (wall : Z) (e : MeshEvent) : option (PeerId * string * (string * string)) :=
  match e with ModelAnnounce p _ n d f => Some ((p, n), (d, f)) | _ => None end.

Lemma forward_all samples : forward None samples = decode_sample <$> samples.
Proof. induction samples as [|s ss IH]; cbn; [done|]. by rewrite IH. Qed.

Lemma sorted_after deadline (l : list Arrival) a :
  StronglySorted Z.le (a_instant <$> (a :: l)) -> (deadline <= a_instant a)%Z ->
  filter (fun a => (a_instant a < deadline)%Z) (a :: l) = [].
Proof.
  intros [_ Ha]%StronglySorted_inv Hd. rewrite filter_cons_False by lia.
  induction l as [|b l IH]; [done|]. apply Forall_cons in Ha as [Hb Ha].
  rewrite filter_cons_False by lia. by apply IH.
Qed.

(** The loop inserts what was heard before the deadline. *)
Lemma observe_heard {K V} `{Ord K} (sel : Z -> MeshEvent -> option (K * V)) on deadline l :
  (forall seen wall e, on seen wall e =
     match sel wall e with Some kv => btree_insert kv.1 kv.2 seen | None => seen end) ->
  StronglySorted Z.le (a_instant <$> l) ->
  forall seen,
  observe deadline on (zip_with (fun a item => (a_instant a, a_wall_secs a, item)) l
                         (decode_sample <$> (a_sample <$> l))) seen =
  fold_left (fun m kv => btree_insert kv.1 kv.2 m) (heard sel deadline l) seen.
Proof.
  intros Hon. induction l as [|a l IH]; intros Hs seen; [done|].
  cbn [fmap list_fmap zip_with observe]. destruct (deadline <=? a_instant a)%Z eqn:Ed.
  - apply Z.leb_le in Ed. unfold heard. by rewrite sorted_after.
  - apply Z.leb_gt in Ed. pose proof (StronglySorted_inv Hs) as [Hs' _].
    unfold heard. rewrite filter_cons_True by done. cbn [omap list_omap].
    destruct (decode_sample (a_sample a)) as [e|]; [|by apply IH].
    rewrite Hon. destruct (sel (a_wall_secs a) e) as [kv|]; cbn [fold_left]; by apply IH.
Qed.

End Listings.

Section CommandFacts.
Context `{HexLaws, Base64Laws, JsonLaws, Blake3Laws, KeyLaws, ZenohCrate}.
Context `{!ZenohQueries} (sur : Surroundings).

(** The instants of the arrivals do not decrease. *)
Definition in_order : Prop := StronglySorted Z.le (a_instant <$> arrivals sur).

Lemma window_heard {K V} `{OrdLaws K} (sel : Z -> MeshEvent -> option (K * V)) on key what session for_secs
    stream deadline :
  (forall seen wall e, on seen wall e =
     match sel wall e with Some kv => btree_insert kv.1 kv.2 seen | None => seen end) ->
  in_order -> open_window sur key what session = Ok stream -> deadline_of sur for_secs = Ok deadline ->
  let rows := observe deadline on stream [] in
  deadline = (started sur + for_secs * 1000000000)%Z /\ btree_wf rows /\
  forall k v, (k, v) ∈ rows <-> latest k (heard sel deadline (arrivals sur)) = Some v.
Proof.
  intros Hon Ho Hw Hd. unfold open_window, subscribe in Hw. inv_ok.
  unfold deadline_of in Hd. destruct (_ <? _)%Z; [|done]. injection Hd as <-.
  rewrite forward_all, (observe_heard sel) by done. split; [done|].
  split; [apply btree_of_wf|]. intros k v. apply btree_of_spec.
Qed.

Lemma peers_list_rows dir for_secs w o w' :
  in_order -> peers_list sur dir for_secs w = (o, (Ok tt, w')) ->
  exists rows, o = print_peers for_secs rows /\ btree_wf rows /\
    forall p v, (p, v) ∈ rows <->
      latest p (heard heartbeat_of (started sur + for_secs * 1000000000) (arrivals sur)) = Some v.
Proof.
  intros Ho Hr. unfold peers_list in Hr. cli_inv. subst. eexists. split; [reflexivity|].
  match goal with Hw : open_window _ _ _ _ = _, Hd : deadline_of _ _ = _ |- _ =>
    destruct (window_heard heartbeat_of on_heartbeat _ _ _ _ _ _ ltac:(by intros ? ? []) Ho Hw Hd)
      as (-> & Hwf & Hrows) end.
  by split.
Qed.

Lemma model_list_rows dir for_secs w o w' :
  in_order -> model_list sur dir for_secs w = (o, (Ok tt, w')) ->
  exists rows, o = print_models for_secs rows /\ btree_wf rows /\
    forall k v, (k, v) ∈ rows <->
      latest k (heard announce_of (started sur + for_secs * 1000000000) (arrivals sur)) = Some v.
Proof.
  intros Ho Hr. unfold model_list in Hr. cli_inv. subst. eexists. split; [reflexivity|].
  match goal with Hw : open_window _ _ _ _ = _, Hd : deadline_of _ _ = _ |- _ =>
    destruct (window_heard announce_of on_announce _ _ _ _ _ _ ltac:(by intros ? ? []) Ho Hw Hd)
      as (-> & Hwf & Hrows) end.
  by split.
Qed.

(** C21: [peers] and [model list] print one snapshot: a row per peer (per peer and
    model) heard before the deadline, with what its last message in the window
    said, in ascending order and without duplicates; undecodable samples and other
    events leave no trace. *)
Theorem listings_correct dir for_secs w o w' :
  let deadline := (started sur + for_secs * 1000000000)%Z in
  in_order ->
  (peers_list sur dir for_secs w = (o, (Ok tt, w')) ->
   exists rows, o = print_peers for_secs rows /\ btree_wf rows /\
     forall p v, (p, v) ∈ rows <-> latest p (heard heartbeat_of deadline (arrivals sur)) = Some v) /\
  (model_list sur dir for_secs w = (o, (Ok tt, w')) ->
   exists rows, o = print_models for_secs rows /\ btree_wf rows /\
     forall k v, (k, v) ∈ rows <-> latest k (heard announce_of deadline (arrivals sur)) = Some v).
Proof. intros deadline Ho. split; [by apply peers_list_rows|by apply model_list_rows]. Qed.

Lemma identity_ok dir w o id w1 :
  identity sur dir w = (o, (Ok id, w1)) -> load_or_generate (drawn sur) dir w = (Ok id, w1).
Proof. intros (_ & [id'|e] & Hid & Hr)%run_io_inv; [by injection Hr as ->|done]. Qed.

(** *** Heartbeats *)

(** A sample that says that [p] is alive. *)
Definition is_beat (p : PeerId) (s : Sample) : Prop :=
  s_key s = peer_key p "heartbeat" /\ exists c load, decode_sample s = Ok (Heartbeat p c load).

(** Clock readings are not negative. *)
Definition readings_ok (l : list (option Z)) : Prop :=
  Forall (fun r => forall d, r = Some d -> (0 <= d)%Z) l.

Lemma heartbeat_publishes p reading :
  (forall d, reading = Some d -> (0 <= d)%Z) ->
  exists s f, is_beat p s /\ forall w, publish_event (heartbeat p reading) w = io_map_err f (send s) w.
Proof.
  intros Hr. pose proof (HlcFacts.now_wf reading Hr) as [Hwf _].
  destruct (publish_sends (heartbeat p reading) (peer_key p "heartbeat") eq_refl Hwf eq_refl)
    as (run & s & Hp & Hk & _ & Hrun & Hd).
  exists s. eexists. split; [by split; [|eexists _, _; exact Hd]|].
  intros w. unfold publish_event. rewrite Hp. apply Hrun.
Qed.

Lemma heartbeat_tick_spec p reading w o r w' :
  (forall d, reading = Some d -> (0 <= d)%Z) ->
  heartbeat_tick p reading w = (o, (r, w')) ->
  r = Ok tt /\ exists ss, w_sent w' = w_sent w ++ ss /\ Forall (is_beat p) ss /\
    (quiet w -> quiet w' /\ length ss = 1).
Proof.
  intros Hr. destruct (heartbeat_publishes p reading Hr) as (s & f & Hs & Hp).
  unfold heartbeat_tick, cli_bind, run_io, io_try. rewrite Hp.
  destruct (io_map_err f (send s) w) as [[[]|e] w1] eqn:E; cbn; intros [= <- <- <-]; (split; [done|]).
  - apply io_map_err_ok, send_ok in E as (_ & Hs1 & Hc). exists [s].
    split_and!; [done|by constructor|]. intros Hq. split; [by eapply consumed_quiet|done].
  - apply io_map_err_err in E as (e' & E & _). apply send_err in E as [Ha Hs1].
    exists []. rewrite app_nil_r. split_and!; [done|constructor|].
    intros Hq. by destruct (quiet_allows w e' Hq).
Qed.

Lemma heartbeat_loop_spec p readings w o r w' :
  readings_ok readings -> heartbeat_loop p readings w = (o, (r, w')) ->
  r = Ok tt /\ exists ss, w_sent w' = w_sent w ++ ss /\ Forall (is_beat p) ss /\
    (quiet w -> length ss = length readings).
Proof.
  revert w o; induction readings as [|x xs IH]; intros w o Hr; cbn [heartbeat_loop].
  { intros [= <- <- <-]. split; [done|]. exists []. by rewrite app_nil_r. }
  apply Forall_cons in Hr as [Hx Hxs]. unfold cli_bind.
  destruct (heartbeat_tick p x w) as [o1 [r1 w1]] eqn:E1.
  apply heartbeat_tick_spec in E1 as (-> & s1 & Hs1 & HF1 & Hq1); [|done].
  destruct (heartbeat_loop p xs w1) as [o2 [r2 w2]] eqn:E2. intros [= <- <- <-].
  apply IH in E2 as (-> & s2 & Hs2 & HF2 & Hq2); [|done]. split; [done|].
  exists (s1 ++ s2). rewrite Hs2, Hs1, app_assoc, length_app. split_and!; [done|by apply Forall_app|].
  intros Hq. destruct (Hq1 Hq) as [Hq' ->]. rewrite (Hq2 Hq'). done.
Qed.

Lemma beat_heard p a deadline l :
  is_beat p (a_sample a) -> a ∈ l -> (a_instant a < deadline)%Z ->
  exists v, (p, v) ∈ heard heartbeat_of deadline l.
Proof.
  intros (_ & c & load & Hd) Ha Hi. exists (load, a_wall_secs a). apply list_elem_of_omap.
  exists a. rewrite list_elem_of_filter, Hd. done.
Qed.
End CommandFacts.

Section Liveness.
Context `{HexLaws, Base64Laws, JsonLaws, Blake3Laws, KeyLaws, ZenohCrate} `{!ZenohQueries}.

(** C22: a peer that is up shows in [peers]. Whatever I/O fails, [peer up] sends
    nothing but heartbeats of its own identity, one per tick when nothing fails, and
    any [peers] command, anywhere, that is delivered one of them within its window
    prints a row for that peer. *)
Theorem heartbeats_listed sur dir seeds seeds_only port secs w o w' :
  readings_ok (ticks sur) -> (secs <> 0)%Z ->
  peer_up sur dir seeds seeds_only port secs w = (o, (Ok tt, w')) ->
  exists id w1 ss, load_or_generate (drawn sur) dir w = (Ok id, w1) /\
    let p := Identity.peer_id id in
    w_sent w' = w_sent w ++ ss /\ Forall (is_beat p) ss /\
    (quiet w1 -> length ss = length (ticks sur)) /\
    forall sur2 dir2 for_secs w2 o2 w2' a,
      in_order sur2 -> peers_list sur2 dir2 for_secs w2 = (o2, (Ok tt, w2')) ->
      a ∈ arrivals sur2 -> a_sample a ∈ ss ->
      (a_instant a < started sur2 + for_secs * 1000000000)%Z ->
      exists load ts, Stdout (peer_row (p, (load, ts))) ∈ o2.
Proof.
  intros Ht Hsecs Hup. unfold peer_up in Hup.
  apply cli_bind_ok in Hup as (o1 & id & w1 & o2 & Hid & Hup & ->).
  pose proof (identity_silent _ _ _ _ _ _ Hid) as [-> Hsent].
  apply identity_ok in Hid.
  apply cli_bind_ok in Hup as (? & s & ? & ? & Hm & Hup & ->). apply of_result_ok in Hm as (-> & _ & ->).
  apply cli_bind_ok in Hup as (? & [] & ? & ? & [= <- <-] & Hup & ->).
  apply cli_bind_ok in Hup as (o3 & [] & w3 & o4 & Hb & Hup & ->). apply of_result_ok in Hup as (-> & _ & ->).
  unfold heartbeat_task in Hb. rewrite (proj2 (Z.eqb_neq _ _) Hsecs) in Hb.
  apply heartbeat_loop_spec in Hb as (_ & ss & Hs & HF & Hlen); [|done].
  exists id, w1, ss. split; [done|]. cbn zeta. split_and!; [by rewrite Hs, Hsent|done|done|].
  intros sur2 dir2 for_secs w2 o5 w2' a Ho Hl Ha Hin Hi.
  apply peers_list_rows in Hl as (rows & -> & _ & Hrows); [|done]. rewrite Forall_forall in HF.
  destruct (beat_heard _ a _ (arrivals sur2) (HF _ Hin) Ha Hi) as [v Hv].
  apply latest_is_Some in Hv as [[load ts] Hv%Hrows]. exists load, ts.
  unfold print_peers. destruct rows as [|row rows]; [by apply elem_of_nil in Hv|].
  right. apply list_elem_of_fmap. eexists. split; [done|]. apply list_elem_of_fmap. by eexists.
Qed.

(** A heartbeat interval of 0 silences the peer: the heartbeat task panics on
    its first line, and [peer up] goes on as if nothing had happened, sends no
    heartbeat, and ends in success. *)
Theorem zero_period_silences sur dir seeds seeds_only port w o w' :
  peer_up sur dir seeds seeds_only port 0 w = (o, (Ok tt, w')) ->
  w_sent w' = w_sent w /\ TaskPanicked "`period` must be non-zero." ∈ o.
Proof.
  intros Hup. unfold peer_up in Hup. cli_inv.
  match goal with Hm : heartbeat_task _ _ _ _ = _ |- _ => injection Hm as <- <- end.
  split; [congruence|]. set_solver.
Qed.

(** A listening window that ends beyond the range of [Instant] panics: the
    arguments of [peers] and [model list] are [u64] seconds, and from [2^63] on the
    deadline cannot be computed, after the session has been opened and subscribed. *)
Theorem long_window_panics sur dir for_secs w id w1 port session s1 s2 :
  (0 <= started sur)%Z -> (2 ^ 63 <= for_secs <= u64_max)%Z ->
  pick_free_port sur = Ok port -> load_or_generate (drawn sur) dir w = (Ok id, w1) ->
  open_transport (listen_on port) = Ok session ->
  open_window sur SUB_ALL_HEARTBEATS "subscribing to heartbeats" session = Ok s1 ->
  open_window sur SUB_ALL_MODELS "subscribing to model announcements" session = Ok s2 ->
  let panic := ([], (Err (Panicked "overflow when adding duration to instant"), w1)) in
  peers_list sur dir for_secs w = panic /\ model_list sur dir for_secs w = panic.
Proof.
  intros Hs Hf Hp Hid Ht Hw1 Hw2 panic.
  assert (deadline_of sur for_secs = Err (Panicked "overflow when adding duration to instant")) as Hd.
  { unfold deadline_of. replace (_ <? _)%Z with false; [done|]. symmetry. apply Z.ltb_ge.
    unfold Duration_from_secs, nanos_per_sec. lia. }
  assert (identity sur dir w = ([], (Ok id, w1))) as Hi by (by apply run_io_step).
  split.
  - unfold peers_list. rewrite Hp. erewrite cli_bind_quietly by done.
    erewrite cli_bind_quietly by exact Hi. rewrite Ht. erewrite cli_bind_quietly by done.
    rewrite Hw1. erewrite cli_bind_quietly by done. by rewrite Hd.
  - unfold model_list. erewrite cli_bind_quietly by exact Hi. rewrite Hp.
    erewrite cli_bind_quietly by done. rewrite Ht. erewrite cli_bind_quietly by done.
    rewrite Hw2. erewrite cli_bind_quietly by done. by rewrite Hd.
Qed.

(** [peer id] prints the same address on every run: the first run creates
    the identity, and every later one that can read the disk prints the same line,
    whatever key would be drawn, and changes nothing. *)
Theorem peer_id_stable sur sur' dir w o w1 w2 :
  let args := mk_Cli (Some dir) (Peer Id) in
  is_file w (identity_path dir) = false -> is_dir w (identity_path dir) = false ->
  main sur args w = (o, (Ok tt, w1)) -> quiet w2 -> w_files w2 = w_files w1 ->
  main sur' args w2 = (o, (Ok tt, w2)).
Proof.
  intros args Hnf Hnd Hrun Hq Hf. cbn [main args cmd config_dir default] in *.
  unfold peer_id in Hrun. apply cli_bind_ok in Hrun as (o1 & id & w3 & o2 & Hid & Ho & ->).
  injection Ho as <- ->. pose proof (identity_silent _ _ _ _ _ _ Hid) as [-> _].
  apply identity_ok in Hid.
  destruct (identity_stable _ (drawn sur') dir w id w1 w2 Hnf Hnd Hid Hq Hf) as [_ Hid'].
  cbn [default]. unfold peer_id. by erewrite cli_bind_quietly by (by apply run_io_step).
Qed.

(** *** What a command prints *)

(** [says P m]: every output of [m] satisfies [P]. *)
Definition says {A} (P : out -> Prop) (m : cli A) : Prop :=
  forall w o x, m w = (o, x) -> Forall P o.

Lemma says_bind {A B} P (m : cli A) (k : A -> cli B) :
  says P m -> (forall a, says P (k a)) -> says P (cli_bind m k).
Proof.
  intros Hm Hk w o x. unfold cli_bind. destruct (m w) as [o1 [[a|e] w1]] eqn:E1.
  - destruct (k a w1) as [o2 y] eqn:E2. intros [= <- _]. apply Forall_app. split; [by eapply Hm|by eapply Hk].
  - intros [= <- _]. by eapply Hm.
Qed.

Lemma says_run_io {A E} P (f : E -> CliError) (m : io A E) : says P (run_io f m).
Proof. intros w o [r w1] [-> _]%run_io_inv. constructor. Qed.

Lemma says_of_result {A} P (r : result A CliError) : says P (of_result r).
Proof. intros w o x [= <- _]. constructor. Qed.

Lemma says_emit P o : Forall P o -> says P (emit o).
Proof. by intros Ho w o' x [= <- _]. Qed.

#[local] Hint Resolve says_bind says_run_io says_of_result says_emit : furcate.

Definition not_advertised (o : out) : Prop := forall info, o <> Advertised info.

(** [model push] with more than 32 seeds never advertises itself. Its
    discovery task sends the seeds into a channel of 32 places that nobody reads, so
    it stops before it registers the peer with mDNS, while [peer up] with the same
    seeds registers it. *)
Theorem undrained_push_unadvertised sur dir name path format port seeds found w o x :
  collect_results parse_seed seeds = Ok found -> 32 < length found ->
  model_push sur dir name path format port seeds false w = (o, x) ->
  Forall not_advertised o /\
  forall p, daemon_new (daemon sur) = Ok tt ->
    register_local (daemon sur) p (listen_on port) port = Ok tt ->
    Advertised (local_info p (listen_on port) port) ∈
      discovery_task sur (mk_DiscoveryConfig (Some p) (Some (listen_on port)) port seeds false).
Proof.
  intros Hs Hlen Hrun. split.
  - revert Hrun. generalize w o x. change (says not_advertised (model_push sur dir name path format port seeds false)).
    unfold model_push, announce_and_serve, wait_ctrl_c, identity. repeat (apply says_bind; [auto with furcate|intros ?]);
      auto with furcate.
    + apply says_emit. unfold registration. cbn [Discovery.seeds Discovery.seeds_only].
      rewrite Hs. replace (CHANNEL_CAPACITY <? length found) with true
        by (symmetry; by apply Nat.ltb_lt). constructor.
    + apply says_emit. constructor; [by intros info|constructor].
  - intros p Hn Hr. unfold discovery_task. destruct (run _ _ _) as [ps r].
    apply elem_of_app. left. unfold registration. cbn [Discovery.seeds Discovery.seeds_only].
    rewrite Hs. cbn [negb andb local_peer local_zenoh_url Discovery.port]. rewrite Hn, Hr.
    by apply list_elem_of_singleton.
Qed.

End Liveness.

(** ** Pushing and pulling *)

Lemma cli_bind_inv {A B} (m : cli A) (k : A -> cli B) w o r w' :
  cli_bind m k w = (o, (r, w')) ->
  (exists e, m w = (o, (Err e, w')) /\ r = Err e) \/
  (exists o1 a w1 o2, m w = (o1, (Ok a, w1)) /\ k a w1 = (o2, (r, w')) /\ o = o1 ++ o2).
Proof.
  unfold cli_bind. destruct (m w) as [o1 [[a|e] w1]].
  - destruct (k a w1) as [o2 x] eqn:E. intros [= <- ->]. right. by exists o1, a, w1, o2.
  - intros [= <- <- <-]. left. eauto.
Qed.

Section PushPull.
Context `{HexLaws, Base64Laws, JsonLaws, Blake3Laws, KeyLaws, ZenohCrate} `{!ZenohQueries}.

Lemma serve_declares self w :
  serve self [] w =
    match declare_queryable (session self) (TRANSFER_ROOT +:+ "/*") with
    | Ok _ => (Ok self, w)
    | Err e => (Err (Transfer.Transport ("declare_queryable " +:+ (TRANSFER_ROOT +:+ "/*") +:+ ": " +:+ e)), w)
    end.
Proof. unfold serve, io_bind, io_lift. destruct (declare_queryable _ _); cbn; [by destruct self|done]. Qed.

(** Queries are answered under the registered digest only. *)
Lemma serve_queries d path keys w :
  exists w' ss, serve_loop {[ d := path ]} (Query <$> keys) w = (Ok {[ d := path ]}, w') /\
    w_sent w' = w_sent w ++ ss /\ Forall (fun s => s_key s = TRANSFER_ROOT +:+ "/" +:+ d) ss.
Proof.
  revert w; induction keys as [|key keys IH]; intros w; cbn [fmap list_fmap serve_loop].
  { exists w, []. by rewrite app_nil_r. }
  destruct (handle_query_spec {[ d := path ]} key w) as (w1 & s1 & Hq & _ & Hs1 & HF1).
  destruct (IH w1) as (w2 & s2 & Hl & Hs2 & HF2). exists w2, (s1 ++ s2).
  split_and!; [by erewrite io_bind_step|by rewrite Hs2, Hs1, app_assoc|].
  apply Forall_app. split; [|done]. eapply Forall_impl; [exact HF1|].
  intros s (-> & d' & -> & Hd'%lookup_singleton_is_Some). by subst.
Qed.

(** The announcement of a model is one sample that decodes to it exactly. *)
Lemma announce_publishes p reading name d format :
  (forall t, reading = Some t -> (0 <= t)%Z) ->
  exists s f, decode_sample s = Ok (ModelAnnounce p (Hlc.now reading) name d format) /\
    forall w, publish_event (ModelAnnounce p (Hlc.now reading) name d format) w = io_map_err f (send s) w.
Proof.
  intros Hr. pose proof (HlcFacts.now_wf reading Hr) as [Hwf _].
  destruct (publish_sends (ModelAnnounce p (Hlc.now reading) name d format) _ eq_refl Hwf eq_refl)
    as (run & s & Hp & _ & _ & Hrun & Hd).
  exists s. eexists. split; [done|]. intros w. unfold publish_event. rewrite Hp. apply Hrun.
Qed.

(** What the second half of a push sends. *)
Lemma announce_and_serve_sends sur p name path format d transfer w o r w' :
  (forall t, clock sur = Some t -> (0 <= t)%Z) -> artefacts transfer = {[ d := path ]} ->
  announce_and_serve sur p name format d transfer w = (o, (r, w')) ->
  exists ss, w_sent w' = w_sent w ++ ss /\
    (ss = [] \/ exists s rest, ss = s :: rest /\
       decode_sample s = Ok (ModelAnnounce p (Hlc.now (clock sur)) name d format) /\
       Forall (fun s => s_key s = TRANSFER_ROOT +:+ "/" +:+ d) rest).
Proof.
  intros Hc Harts Hrun. unfold announce_and_serve in Hrun.
  destruct (announce_publishes p (clock sur) name d format Hc) as (smp & f & Hdec & Hpub).
  apply cli_bind_inv in Hrun as [(e & Hp & ->)|(o1 & [] & w1 & o2 & Hp & Hrun & ->)];
    apply run_io_inv in Hp as (_ & r1 & Hp & Hr1); rewrite Hpub in Hp; destruct r1 as [[]|]; try done.
  { apply io_map_err_err in Hp as (e' & [_ Hs]%send_err & _). exists []. rewrite app_nil_r. auto. }
  apply io_map_err_ok, send_ok in Hp as (_ & Hs1 & _).
  apply cli_bind_inv in Hrun as [(e & [=] & ->)|(o3 & [] & w2 & o4 & [= <- <-] & Hrun & ->)].
  rewrite Harts in Hrun. destruct (serve_queries d path (incoming sur) w1) as (w3 & rest & Hl & Hs3 & HF).
  assert (w' = w3) as ->.
  { apply cli_bind_inv in Hrun as [(e & Hq & ->)|(? & ? & ? & ? & Hq & Hw & ->)];
      apply run_io_inv in Hq as (_ & r7 & Hq & _); rewrite Hl in Hq; injection Hq as _ <-; [done|].
    by injection Hw as _ _ <-. }
  exists (smp :: rest). rewrite Hs3, Hs1, <- app_assoc. split; [done|]. right. by exists smp, rest.
Qed.

(** C23: [model push] announces what it serves. Whatever I/O fails, it sends
    nothing, or first one announcement of the name and format given, under its own
    peer id, whose digest is the BLAKE3 of the file's bytes, and then only replies to
    queries for that digest. *)
Theorem push_announces_what_it_serves sur dir name path format port seeds seeds_only w o r w' :
  (forall t, clock sur = Some t -> (0 <= t)%Z) ->
  model_push sur dir name path format port seeds seeds_only w = (o, (r, w')) ->
  exists ss, w_sent w' = w_sent w ++ ss /\
    (ss = [] \/ exists id w1 s rest, load_or_generate (drawn sur) dir w = (Ok id, w1) /\
       let d := ChunkVerifier_hash (content_of w1 path) in
       ss = s :: rest /\
       decode_sample s = Ok (ModelAnnounce (Identity.peer_id id) (Hlc.now (clock sur)) name d format) /\
       Forall (fun s => s_key s = TRANSFER_ROOT +:+ "/" +:+ d) rest).
Proof.
  intros Hc Hrun.
  assert (forall w2 (P : list Sample -> Prop), w_sent w2 = w_sent w ->
    exists ss, w_sent w2 = w_sent w ++ ss /\ (ss = [] \/ P ss)) as Hquit.
  { intros w2 P Hw2. exists []. rewrite app_nil_r. auto. }
  unfold model_push in Hrun.
  apply cli_bind_inv in Hrun as [(e & Hid & ->)|(o1 & id & w1 & o2 & Hid & Hrun & ->)].
  { apply identity_silent in Hid as [_ Hs]. by apply Hquit. }
  pose proof (identity_silent _ _ _ _ _ _ Hid) as [_ Hs1]. apply identity_ok in Hid.
  apply cli_bind_inv in Hrun as [(e & Hh & ->)|(o3 & d & w2 & o4 & Hh & Hrun & ->)];
    apply run_io_inv in Hh as (_ & r2 & Hh & Hr2);
    pose proof (respects_root_hash same_sent path _ _ _ Hh) as Hs2; unfold same_sent in Hs2.
  { apply Hquit. congruence. }
  destruct r2 as [d'|]; [|done]. injection Hr2 as <-. apply root_hash_ok in Hh as (-> & _).
  set (d := ChunkVerifier_hash (content_of w1 path)) in *.
  apply cli_bind_inv in Hrun as [(e & [= _ _ <-] & ->)|(o5 & s & w3 & o6 & [= <- Hse <-] & Hrun & ->)].
  { apply Hquit. congruence. }
  apply cli_bind_inv in Hrun as [(e & Hcd & ->)|(o7 & [] & w4 & o8 & Hcd & Hrun & ->)];
    apply run_io_inv in Hcd as (_ & r4 & Hcd & _);
    apply (respects_ignore same_sent _ (respects_create_dir_all same_sent _)) in Hcd as Hs4; unfold same_sent in Hs4.
  { apply Hquit. congruence. }
  apply cli_bind_inv in Hrun as [(e & Hsv & ->)|(o9 & tr & w5 & o10 & Hsv & Hrun & ->)];
    apply run_io_inv in Hsv as (_ & r5 & Hsv & Hr5); rewrite serve_declares in Hsv.
  { apply Hquit. destruct (declare_queryable _ _); injection Hsv as _ <-; congruence. }
  assert (w5 = w4 /\ artefacts tr = {[ d := path ]}) as [-> Harts].
  { destruct (declare_queryable _ _); injection Hsv as <- <-; [|done]. by injection Hr5 as ->. }
  apply cli_bind_inv in Hrun as [(e & [=] & ->)|(o11 & [] & w6 & o12 & [= <- <-] & Hrun & ->)].
  apply announce_and_serve_sends with (path := path) in Hrun as (ss & Hss & Hshape); [|done..].
  exists ss. rewrite Hss, Hs4, Hs2, Hs1. split; [done|].
  destruct Hshape as [->|(smp & rest & Heq & Hdec & HF)]; [by left|right]. by exists id, w1, smp, rest.
Qed.

(** *** End to end *)

Lemma ignored_create_dir_all {E} c w :
  quiet w -> exists w', io_ignore (F := E) (create_dir_all c) w = (Ok tt, w') /\ quiet w' /\
    w_files w' = w_files w /\ w_sent w' = w_sent w.
Proof.
  intros Hq. unfold io_ignore, create_dir_all, io_bind, next_outcome. rewrite Hq.
  repeat case_match; simplify_eq; by eexists.
Qed.

(** Announcing and answering one query when nothing fails. *)
Lemma announce_and_serve_quiet sur p name path format d transfer w f :
  let key := TRANSFER_ROOT +:+ "/" +:+ d in
  (forall t, clock sur = Some t -> (0 <= t)%Z) -> incoming sur = [key] -> ctrl_c sur = Ok tt ->
  artefacts transfer = {[ d := path ]} ->
  quiet w -> w_files w !! path = Some f -> (Z.of_nat (length (f_content f)) <= u64_max)%Z ->
  exists w' s ss,
    announce_and_serve sur p name format d transfer w =
      ([Stdout ("pushed " +:+ name +:+ " (" +:+ format +:+ ") digest=" +:+ d +:+
                newline +:+ "listening for pulls — Ctrl-C to stop")], (Ok tt, w')) /\
    w_sent w' = w_sent w ++ s :: ss /\
    decode_sample s = Ok (ModelAnnounce p (Hlc.now (clock sur)) name d format) /\
    streams key (Z.of_nat (length (f_content f))) 0 (f_content f) ss [].
Proof.
  intros key Hc Hin Hctrl Harts Hq Hf Hlen.
  destruct (announce_publishes p (clock sur) name d format Hc) as (s & g & Hdec & Hpub).
  set (w1 := set_sent (w_sent w ++ [s]) w).
  assert (publish_event (ModelAnnounce p (Hlc.now (clock sur)) name d format) w = (Ok tt, w1)) as Hp.
  { rewrite Hpub. unfold io_map_err, send. by rewrite guarded_quiet. }
  destruct (stream_quiet key path w1 f Hq Hf Hlen) as (w2 & ss & Hst & Hs2 & Hstr).
  exists w2, s, ss. split_and!; [|by rewrite Hs2; cbn; rewrite <- app_assoc|done|done].
  unfold announce_and_serve. erewrite cli_bind_quietly by (by apply run_io_step).
  erewrite cli_bind_step by reflexivity. rewrite Harts, Hin. cbn [fmap list_fmap].
  erewrite cli_bind_quietly.
  2:{ apply run_io_step. cbn [serve_loop]. erewrite io_bind_step; [reflexivity|].
      pose proof (handle_query_hosted {[ d := path ]} d path w1 (lookup_singleton_eq _ _)) as Hh.
      cbn zeta in Hh. fold key in Hh. rewrite Hst in Hh. exact Hh. }
  unfold wait_ctrl_c. by rewrite Hctrl.
Qed.

(** The receiving side. *)
Lemma model_pull_quiet sur dir rid session w p d port seeds seeds_only content ss replies :
  let key := TRANSFER_ROOT +:+ "/" +:+ d in
  let service := TransferService_new (path_join dir "cache") (queries session) in
  quiet w -> load_or_generate (drawn sur) dir w = (Ok rid, w) ->
  open_transport (listen_on port) = Ok session ->
  content <> [] -> (Z.of_nat (length content) < 2 ^ 63)%Z -> d = ChunkVerifier_hash content ->
  streams key (Z.of_nat (length content)) 0 content ss [] ->
  session_get (queries session) key DEFAULT_PULL_TIMEOUT = Ok replies ->
  (forall r, r ∈ replies <-> r ∈ (reply_of <$> ss)) -> ready service d w ->
  exists w' mode,
    model_pull sur dir (PeerId.to_hex p) d None port seeds seeds_only w =
      ([Stdout ("pulled " +:+ fmt_uint (Z.of_nat (length content)) +:+ " bytes into " +:+
                final_path_of service d)], (Ok tt, w')) /\
    w_files w' !! final_path_of service d = Some (mk_file content mode).
Proof.
  intros key service Hq Hid Hs Hne Hmax Hd Hst Hget Hrep Hready.
  destruct (pull_stream content ss d service p PullOptions_default replies w) as (w' & mode & Hp & Hq' & Hf); try done.
  exists w', mode. split; [|done]. unfold model_pull, identity.
  erewrite cli_bind_quietly by (by apply run_io_step). rewrite Hs.
  erewrite cli_bind_quietly by reflexivity.
  assert (registration sur false (mk_DiscoveryConfig None None port seeds seeds_only) = []) as ->.
  { unfold registration. cbn. by repeat case_match. }
  erewrite cli_bind_quietly by reflexivity. cbn zeta. cbn [default].
  assert (PeerId.from_hex (PeerId.to_hex p) = Ok p) as -> by (apply from_hex_inv, hex_decode_encode).
  erewrite cli_bind_quietly by reflexivity.
  erewrite cli_bind_quietly by (apply run_io_step; exact Hp).
  erewrite cli_bind_quietly; [reflexivity|]. apply run_io_step. unfold path_len.
  rewrite guarded_quiet by done. fold service. by rewrite Hf.
Qed.

(** C7: [model push] and [model pull] end to end. A pusher whose file is not empty
    prints its digest, announces it, and answers a query with chunks such that a
    puller anywhere, given the printed digest and peer id and delivered those chunks
    in any order and number, prints the number of bytes and has them in its cache. *)
Theorem push_then_pull sur dir id session w name path format port seeds seeds_only f :
  let d := ChunkVerifier_hash (f_content f) in
  let key := TRANSFER_ROOT +:+ "/" +:+ d in
  quiet w -> load_or_generate (drawn sur) dir w = (Ok id, w) ->
  open_transport (listen_on port) = Ok session ->
  declare_queryable (queries session) (TRANSFER_ROOT +:+ "/*") = Ok tt ->
  (forall t, clock sur = Some t -> (0 <= t)%Z) -> incoming sur = [key] -> ctrl_c sur = Ok tt ->
  w_files w !! path = Some f -> f_content f <> [] -> (Z.of_nat (length (f_content f)) < 2 ^ 63)%Z ->
  exists o w' s ss,
    main sur (mk_Cli (Some dir) (Model (Push name path format port seeds seeds_only))) w = (o, (Ok tt, w')) /\
    Stdout ("pushed " +:+ name +:+ " (" +:+ format +:+ ") digest=" +:+ d +:+
            newline +:+ "listening for pulls — Ctrl-C to stop") ∈ o /\
    w_sent w' = w_sent w ++ s :: ss /\
    decode_sample s = Ok (ModelAnnounce (Identity.peer_id id) (Hlc.now (clock sur)) name d format) /\
    forall sur2 dir2 id2 session2 port2 seeds2 only2 replies w2,
      let service := TransferService_new (path_join dir2 "cache") (queries session2) in
      quiet w2 -> load_or_generate (drawn sur2) dir2 w2 = (Ok id2, w2) ->
      open_transport (listen_on port2) = Ok session2 ->
      session_get (queries session2) key DEFAULT_PULL_TIMEOUT = Ok replies ->
      (forall r, r ∈ replies <-> r ∈ (reply_of <$> ss)) -> ready service d w2 ->
      exists w2' mode,
        main sur2 (mk_Cli (Some dir2) (Model (Pull (PeerId.to_hex (Identity.peer_id id)) d None port2
                                                 seeds2 only2))) w2 =
          ([Stdout ("pulled " +:+ fmt_uint (Z.of_nat (length (f_content f))) +:+ " bytes into " +:+
                    final_path_of service d)], (Ok tt, w2')) /\
        w_files w2' !! final_path_of service d = Some (mk_file (f_content f) mode).
Proof.
  intros d key Hq Hid Hs Hdq Hc Hin Hctrl Hf Hne Hmax.
  destruct (root_hash_quiet path w f Hq Hf) as (w1 & Hh & Hf1 & _ & Hq1).
  pose proof (respects_root_hash same_sent _ _ _ _ Hh) as Hs1. unfold same_sent in Hs1. fold d in Hh.
  destruct (ignored_create_dir_all (E := IoError) (path_join dir "cache") w1 Hq1) as (w2 & Hcd & Hq2 & Hf2 & Hs2).
  destruct (announce_and_serve_quiet sur (Identity.peer_id id) name path format d
    (register (TransferService_new (path_join dir "cache") (queries session)) d path) w2 f)
    as (w3 & s & ss & Hrun & Hs3 & Hdec & Hstr); try done;
    [by rewrite Hf2, Hf1|unfold u64_max; lia|].
  eexists _, w3, s, ss. split_and!; [|..|done|].
  - cbn [main cmd config_dir from_option Datatypes.id]. unfold model_push, identity.
    erewrite cli_bind_quietly by (by apply run_io_step).
    erewrite cli_bind_quietly by (by apply run_io_step). rewrite Hs.
    erewrite cli_bind_quietly by reflexivity.
    erewrite cli_bind_quietly by (by apply run_io_step).
    erewrite cli_bind_quietly.
    2:{ apply run_io_step. rewrite serve_declares. cbn [Transfer.session register TransferService_new]. by rewrite Hdq. }
    erewrite cli_bind_step by reflexivity. cbv beta. rewrite Hrun. reflexivity.
  - apply elem_of_app. right. left.
  - by rewrite Hs3, Hs2, Hs1.
  - intros sur2 dir2 id2 session2 port2 seeds2 only2 replies w4 service Hq4 Hid4 Hs4 Hget Hrep Hready.
    by eapply model_pull_quiet.
Qed.

End PushPull.

(** ** Concrete runs *)

Module RefZenoh.

(** A network on which every query for anything is answered with one chunk. *)
Definition blob_reply : Reply :=
  ReplyOk TransferWitness.blob
    (Some (str_bytes (RefJson.text (ser_header (mk_ChunkHeader 0 TransferWitness.digest 3 true))))).

#[export] Instance crate : ZenohCrate := {|
  Config := list (string * string); Config_default := [];
  insert_json5 c k j := Ok ((k, j) :: c);
  ZSession := unit; zenoh_open c := Ok tt;
  declare_subscriber s k := Ok tt |}.

#[export] Instance sessions : ZenohQueries :=
  {| queries _ := mk_Session (fun _ _ => Ok [blob_reply]) (fun _ => Ok tt) |}.

End RefZenoh.

Module CliWitness.
#[local] Existing Instances RefHex.crate RefHex.laws RefBase64.crate RefBase64.laws
  RefBlake3.crate RefBlake3.laws RefJson.crate RefJson.laws RefKeys.crate RefKeys.laws
  RefZenoh.crate RefZenoh.sessions.

Definition dir : string := "/etc/mesh".
Definition alice : PeerIdentity := mk_PeerIdentity (array32_repeat Byte.x01).
Definition transfer_key : string := TRANSFER_ROOT +:+ "/" +:+ TransferWitness.digest.

Definition net : ZSession := tt.

(** A disk with an identity and a model, and one with nothing. *)
Definition disk : World :=
  mk_world {[ "/etc/mesh/identity.pem" := mk_file (str_bytes (PeerId.to_hex (Identity.peer_id alice))) 384;
              "/models/m" := mk_file TransferWitness.blob 420 ]}
    {[ "/etc"; "/etc/mesh"; "/models" ]} 420 [] [] [].
Definition empty_disk : World := mk_world ∅ ∅ 420 [] [] [].

Definition beat_sample : Sample :=
  mk_sample (peer_key (Identity.peer_id alice) "heartbeat")
    (str_bytes (RefJson.text (ser_event (heartbeat (Identity.peer_id alice) (Some 5%Z))))) None.

Definition around : Surroundings := {|
  env := ∅; drawn := array32_repeat Byte.x09; bind_ephemeral := Ok (Ok 40000%Z);
  daemon := mk_ServiceDaemon (Ok tt) (fun _ => Ok tt) (fun _ => Ok tt) (fun _ => Ok []);
  started := 0;
  arrivals := [mk_Arrival 10 1700000000 (mk_sample "k" [] None);
               mk_Arrival 20 1700000001 beat_sample;
               mk_Arrival 9000000000 1700000009 beat_sample];
  clock := Some 5%Z; ticks := [Some 5%Z; None]; incoming := [transfer_key]; ctrl_c := Ok tt;
  dir_len := fun _ => 4096%Z |}.

Example peers_prints :
  (peers_list around dir 5 disk).1 =
    [Stdout peers_header;
     Stdout (PeerId.fmt_display (Identity.peer_id alice) +:+ "  0.00  1700000001")].
Proof. vm_compute. reflexivity. Qed.

Lemma in_order_around : in_order around.
Proof. repeat constructor; vm_compute; discriminate. Qed.

Lemma listings_correct_witness :
  exists rows w', peers_list around dir 5 disk =
      ([Stdout peers_header;
        Stdout (PeerId.fmt_display (Identity.peer_id alice) +:+ "  0.00  1700000001")], (Ok tt, w')) /\
    print_peers 5 rows = [Stdout peers_header;
      Stdout (PeerId.fmt_display (Identity.peer_id alice) +:+ "  0.00  1700000001")] /\ btree_wf rows.
Proof.
  assert (is_ok (peers_list around dir 5 disk).2.1 = true) as Hok by (vm_compute; reflexivity).
  pose proof peers_prints as Hout.
  destruct (peers_list around dir 5 disk) as [o [[[]|e] w']] eqn:Hrun; [|discriminate Hok].
  destruct (listings_correct around dir 5 disk o w' in_order_around) as [Hp _].
  destruct (Hp Hrun) as (rows & Ho & Hwf & _). cbn [fst] in Hout. subst o.
  exists rows, w'. by rewrite <- Ho.
Defined.

Lemma identity_on_disk : load_or_generate (drawn around) dir disk = (Ok alice, disk).
Proof.
  unfold load_or_generate. erewrite io_bind_step by (by apply path_exists_quiet).
  replace (is_file disk (identity_path dir)) with true by (vm_compute; reflexivity). cbn [orb].
  eapply load_saved; [reflexivity|reflexivity|]. apply lookup_insert_eq.
Qed.

(** Two ticks, two heartbeats; the listing that hears one of them prints its peer. *)
Lemma heartbeats_listed_witness :
  exists o w', peer_up around dir [] false 7447 5 disk = (o, (Ok tt, w')) /\
    length (w_sent w') = 2 /\ Forall (is_beat (Identity.peer_id alice)) (w_sent w') /\
    exists load ts, Stdout (peer_row (Identity.peer_id alice, (load, ts))) ∈ (peers_list around dir 5 disk).1.
Proof.
  assert (is_ok (peer_up around dir [] false 7447 5 disk).2.1 = true) as Hok by (vm_compute; reflexivity).
  assert (head (w_sent (peer_up around dir [] false 7447 5 disk).2.2) = Some beat_sample) as Hbeat
    by (vm_compute; reflexivity).
  destruct (peer_up around dir [] false 7447 5 disk) as [o [[[]|e] w']] eqn:Hrun; [|discriminate Hok].
  destruct (heartbeats_listed around dir [] false 7447 5 disk o w')
    as (id & w1 & ss & Hid & Hs & HF & Hn & Hl);
    [repeat constructor; intros d Hd; by simplify_eq|discriminate|exact Hrun|].
  pose proof identity_on_disk as Hdisk. rewrite Hdisk in Hid. injection Hid as <- <-.
  change (w_sent w' = ss) in Hs. subst ss. cbn [snd] in Hbeat.
  exists o, w'. split; [reflexivity|]. split; [by apply Hn|]. split; [exact HF|].
  assert (is_ok (peers_list around dir 5 disk).2.1 = true) as Hok2 by (vm_compute; reflexivity).
  destruct (peers_list around dir 5 disk) as [o2 [[[]|e] w2]] eqn:Hrun2; [|discriminate Hok2].
  apply (Hl around dir 5%Z disk o2 w2 (mk_Arrival 20 1700000001 beat_sample));
    [exact in_order_around|exact Hrun2|right; left| |vm_compute; reflexivity].
  apply head_Some_elem_of in Hbeat. exact Hbeat.
Defined.

Lemma zero_period_silences_witness :
  exists o w', peer_up around dir [] false 7447 0 disk = (o, (Ok tt, w')) /\ w_sent w' = [].
Proof.
  assert (is_ok (peer_up around dir [] false 7447 0 disk).2.1 = true) as Hok by (vm_compute; reflexivity).
  destruct (peer_up around dir [] false 7447 0 disk) as [o [[[]|e] w']] eqn:Hrun; [|discriminate Hok].
  exists o, w'. split; [reflexivity|].
  exact (proj1 (zero_period_silences around dir [] false 7447 disk o w' Hrun)).
Defined.

Lemma long_window_panics_witness :
  peers_list around dir (2 ^ 63) disk =
    ([], (Err (Panicked "overflow when adding duration to instant"), disk)).
Proof.
  eapply (long_window_panics around dir (2 ^ 63) disk alice disk 40000 net).
  - vm_compute; discriminate.
  - split; vm_compute; discriminate.
  - reflexivity.
  - exact identity_on_disk.
  - reflexivity.
  - reflexivity.
  - reflexivity.
Defined.

Lemma peer_id_stable_witness :
  exists o w1, main around (mk_Cli (Some dir) (Peer Id)) empty_disk = (o, (Ok tt, w1)) /\
    main around (mk_Cli (Some dir) (Peer Id)) w1 = (o, (Ok tt, w1)).
Proof.
  assert (is_ok (main around (mk_Cli (Some dir) (Peer Id)) empty_disk).2.1 = true /\
          w_outcomes (main around (mk_Cli (Some dir) (Peer Id)) empty_disk).2.2 = [])
    as [Hok Hq] by (split; vm_compute; reflexivity).
  destruct (main around (mk_Cli (Some dir) (Peer Id)) empty_disk) as [o [[[]|e] w1]] eqn:Hrun;
    [|discriminate Hok].
  exists o, w1. split; [reflexivity|].
  apply (peer_id_stable around around dir empty_disk o w1 w1);
    [vm_compute; reflexivity..|exact Hrun|exact Hq|reflexivity].
Defined.

Definition many_seeds : list string :=
  repeat (PeerId.to_hex (Identity.peer_id alice) +:+ "@10.0.0.1:7447") 33.

Lemma undrained_push_unadvertised_witness :
  Forall not_advertised (model_push around dir "m" "/models/m" "gguf" 7447 many_seeds false disk).1.
Proof.
  assert (is_ok (collect_results parse_seed many_seeds) = true) as Hok by (vm_compute; reflexivity).
  destruct (collect_results parse_seed many_seeds) as [found|e] eqn:Hs; [|discriminate Hok].
  destruct (model_push around dir "m" "/models/m" "gguf" 7447 many_seeds false disk) as [o x] eqn:Hrun.
  apply (undrained_push_unadvertised around dir "m" "/models/m" "gguf" 7447 many_seeds found disk o x Hs);
    [|exact Hrun].
  assert (length found = 33) as ->; [|lia].
  apply (f_equal (fun r => match r with Ok l => length l | Err _ => 0 end)) in Hs.
  rewrite <- Hs. vm_compute. reflexivity.
Defined.

Lemma push_announces_what_it_serves_witness :
  exists s chunk, w_sent (model_push around dir "m" "/models/m" "gguf" 7447 [] true disk).2.2 = [s; chunk] /\
    decode_sample s = Ok (ModelAnnounce (Identity.peer_id alice) (Hlc.now (Some 5%Z)) "m"
                            TransferWitness.digest "gguf") /\
    s_key chunk = TRANSFER_ROOT +:+ "/" +:+ TransferWitness.digest /\
    s_payload chunk = TransferWitness.blob.
Proof.
  assert (s_payload <$> tail (w_sent (model_push around dir "m" "/models/m" "gguf" 7447 [] true disk).2.2) =
    [TransferWitness.blob]) as Hsent by (vm_compute; reflexivity).
  destruct (model_push around dir "m" "/models/m" "gguf" 7447 [] true disk) as [o [r w']] eqn:Hrun.
  cbn [snd] in *.
  destruct (push_announces_what_it_serves around dir "m" "/models/m" "gguf" 7447 [] true disk o r w')
    as (ss & Hs & Hss); [intros t [= <-]; lia|exact Hrun|].
  change (w_sent w' = ss) in Hs. rewrite Hs in Hsent |- *. destruct Hss as [->|Hss]; [discriminate Hsent|].
  destruct Hss as (id & w1 & s & rest & Hid & -> & Hd & HF).
  pose proof identity_on_disk as Hdisk. rewrite Hdisk in Hid. injection Hid as <- <-.
  change (ChunkVerifier_hash (content_of disk "/models/m")) with TransferWitness.digest in *.
  destruct rest as [|chunk [|? ?]]; [discriminate Hsent| |discriminate Hsent].
  exists s, chunk. split; [reflexivity|]. split; [exact Hd|].
  split; [exact (Forall_inv HF)|]. by injection Hsent.
Defined.

Lemma model_on_disk : w_files disk !! "/models/m" = Some (mk_file TransferWitness.blob 420).
Proof. vm_compute. reflexivity. Qed.

Lemma cache_ready :
  ready (TransferService_new (path_join dir "cache") (queries net)) TransferWitness.digest disk.
Proof. split; vm_compute; reflexivity. Qed.

(** The chunk the pusher sends is the reply of the network. *)
Lemma pushed_chunk o w' s ss :
  main around (mk_Cli (Some dir) (Model (Push "m" "/models/m" "gguf" 7447 [] true))) disk =
    (o, (Ok tt, w')) ->
  w_sent w' = w_sent disk ++ s :: ss -> reply_of <$> ss = [RefZenoh.blob_reply].
Proof.
  intros Hrun Hs. apply (f_equal (fun x => reply_of <$> tail (w_sent x.2.2))) in Hrun.
  cbn [snd] in Hrun. rewrite Hs in Hrun. cbn in Hrun. rewrite <- Hrun. vm_compute. reflexivity.
Qed.

Lemma push_then_pull_witness :
  exists w2' mode,
    main around (mk_Cli (Some dir) (Model (Pull (PeerId.to_hex (Identity.peer_id alice))
      TransferWitness.digest None 7448 [] true))) disk =
      ([Stdout ("pulled 3 bytes into /etc/mesh/cache/" +:+ TransferWitness.digest)], (Ok tt, w2')) /\
    w_files w2' !! ("/etc/mesh/cache/" +:+ TransferWitness.digest) =
      Some (mk_file TransferWitness.blob mode).
Proof.
  destruct (push_then_pull around dir alice net disk "m" "/models/m" "gguf" 7447 [] true
    (mk_file TransferWitness.blob 420)) as (o & w' & s & ss & Hrun & _ & Hsent & _ & Hpull);
    [reflexivity|exact identity_on_disk|reflexivity|reflexivity|intros t [= <-]; lia|reflexivity|
     reflexivity|exact model_on_disk|discriminate|vm_compute; reflexivity|].
  pose proof (pushed_chunk o w' s ss Hrun Hsent) as Hss.
  destruct (Hpull around dir alice net 7448%Z [] true [RefZenoh.blob_reply] disk)
    as (w2' & mode & Hp & Hf);
    [reflexivity|exact identity_on_disk|reflexivity|reflexivity|by rewrite Hss|exact cache_ready|].
  exists w2', mode. split; [exact Hp|exact Hf].
Defined.

End CliWitness.
