(* ===== verification/Tests.v ===== *)
(** * The repository's own tests

    Every [#[test]] function is the computation the source writes: it returns, or it
    panics with a message. The theorems say that the tests pass, for every instance of
    the third-party crates that obeys its laws, every clock reading, every drawn key and
    every disk on which nothing fails. So the model agrees with what the authors of the
    code check of it. The loopback test of the transport compares a float that went
    through JSON: it passes exactly when the crate's text moves the float by less than an
    epsilon. The tests of tests/tls_handshake.rs run two tasks, as programs of Duplex.v. *)

From Stdlib Require Import Ascii SpecFloat.
From S2P Require Import Prelude RustStd Codecs Core Wire Serde Event Routing Json Cbor Fs.
From S2P Require Import Duplex Transfer Identity Tls Transport Net Discovery.

(** ** Panics *)

Definition test : Type := result unit string.

Definition expect {T E} (msg : string) (r : result T E) : result T string := map_err (fun _ => msg) r.

Definition expect_err {T E} (msg : string) (r : result T E) : result E string :=
  match r with Ok _ => Err msg | Err e => Ok e end.

Definition assert_that (b : bool) : test := if b then Ok tt else Err "assertion failed".

Definition assert_eq {T} `{EqDecision T} (a b : T) : test := assert_that (bool_decide (a = b)).

Lemma assert_eq_refl {T} `{EqDecision T} (a b : T) : a = b -> assert_eq a b = Ok tt.
Proof. intros ->. unfold assert_eq. by rewrite bool_decide_true. Qed.

(** [str::repeat]; the literal [n / d] as the nearest [f64]. *)
Fixpoint str_repeat (s : string) (n : nat) : string :=
  match n with O => "" | S n' => s +:+ str_repeat s n' end.

Definition f64_lit (n d : Z) : f64 := SFdiv 53 1024 (int_as_f64 n) (int_as_f64 d).

Example f64_lit_quarter : f64_lit 1 4 = S754_finite false 4503599627370496 (-54).
Proof. reflexivity. Qed.

(** [str::ends_with] and [contains]. *)
Fixpoint ends_with (p s : string) : bool :=
  bool_decide (s = p) || match s with "" => false | String _ s' => ends_with p s' end.

Lemma ends_with_app p s : ends_with p (s +:+ p) = true.
Proof.
  induction s as [|c s IH]; [|rewrite str_app_cons; cbn; by rewrite IH, orb_true_r].
  rewrite str_app_nil_l. destruct p; cbn; [done|]. by rewrite bool_decide_true.
Qed.

Fixpoint str_contains (w s : string) : bool :=
  starts_with w s || match s with "" => false | String _ s' => str_contains w s' end.

Lemma str_contains_app a w b : str_contains w (a +:+ w +:+ b) = true.
Proof.
  induction a as [|c a IH]; [|rewrite str_app_cons; cbn [str_contains]; by rewrite IH, orb_true_r].
  rewrite str_app_nil_l. pose proof (starts_with_app w b _ eq_refl) as Hs.
  destruct (w +:+ b); cbn [str_contains]; by rewrite Hs.
Qed.

(** A word is not found across a character it does not have. *)
Lemma starts_with_sep w c a b :
  no_char c w = true -> starts_with w (a +:+ String c b) = starts_with w a.
Proof.
  revert a. induction w as [|d w IH]; intros a Hw; [by destruct a|]. unfold no_char in Hw. cbn [str_all] in Hw.
  apply andb_true_iff in Hw as [Hd Hw]. unfold starts_with. destruct a as [|e a].
  - rewrite str_app_nil_l. cbn [strip_prefix]. by destruct (Ascii.eqb d c).
  - rewrite str_app_cons. cbn [strip_prefix]. destruct (Ascii.eqb d e); [by apply IH|done].
Qed.

Lemma str_contains_sep w c a b :
  w <> "" -> no_char c w = true ->
  str_contains w (a +:+ String c b) = str_contains w a || str_contains w b.
Proof.
  intros Hne Hw. induction a as [|d a IH]; cbn [str_contains].
  - rewrite str_app_nil_l. cbn [str_contains]. rewrite <- (str_app_nil_l (String c b)), starts_with_sep by done.
    by rewrite orb_false_r.
  - rewrite str_app_cons. cbn [str_contains]. rewrite <- str_app_cons, starts_with_sep, IH by done.
    by rewrite orb_assoc.
Qed.

Lemma str_contains_missing c w t : no_char c t = true -> str_contains (String c w) t = false.
Proof.
  induction t as [|d t IH]; [done|]. unfold no_char in *. cbn [str_all str_contains].
  intros [Hd Ht]%andb_true_iff. rewrite IH by done. unfold starts_with. cbn [strip_prefix].
  rewrite Ascii.eqb_sym. by destruct (Ascii.eqb d c).
Qed.

(** [serde_json::to_string] and [from_str]. *)
Definition to_string `{JsonCrate} (v : Value) : result string string := map_ok bytes_str (json_to_vec v).
Definition from_str `{JsonCrate} {T} (de : Value -> result T DeError) (s : string) : result T string :=
  from_slice_as de (str_bytes s).

Definition pid (b : u8) : PeerId := PeerId.from_bytes (array32_repeat b).

(** ** furcate-mesh-core *)

Section CoreTests.
Context `{HexCrate, Base64Crate, JsonCrate, CborCrate}.

Definition peer_id_hex_roundtrip : test :=
  let id := pid Byte.x07 in
  let? parsed := expect "parse" (PeerId.from_hex (PeerId.to_hex id)) in
  assert_eq id parsed.

Definition peer_id_short_is_six_chars : test :=
  let id := pid Byte.xab in
  assert_eq (String.length (PeerId.short id)) 6.

Definition peer_id_rejects_wrong_length : test :=
  assert_that (match PeerId.from_hex "deadbeef" with Err PeerId.WrongLength => true | _ => false end).

Definition peer_id_rejects_bad_hex : test :=
  assert_that (match PeerId.from_hex (str_repeat "zz" 32) with Err PeerId.Malformed => true | _ => false end).

Definition hlc_bump_past_advances : test :=
  let a := Hlc.mk 100 0 in
  let b := Hlc.mk 200 0 in
  let a := Hlc.bump_past a b in
  let? _ := assert_eq (Hlc.wall_ms a) 200%Z in
  assert_eq (Hlc.counter a) 1%Z.

(** The two lines that three tests share. *)
Definition encode_then_decode (ev : MeshEvent) : test :=
  let? s := expect "encode" (to_string (ser_event ev)) in
  let? _ := expect "decode" (from_str de_event s) in
  Ok tt.

Definition mesh_event_roundtrips_via_json (now : option Z) : test :=
  encode_then_decode (Heartbeat (pid Byte.x01) (Hlc.now now) (f64_lit 42 100)).

Definition peer_id_wire_form_is_lowercase_hex_string : test :=
  let id := pid Byte.xab in
  let? s := expect "encode" (to_string (ser_peer id)) in
  assert_eq s (quoted (str_repeat "ab" 32)).

Definition sensor_reading_roundtrips_via_json_without_raw (now : option Z) : test :=
  let ev := SensorReading (pid Byte.x03) (Hlc.now now) "bme280-0" "temperature_c" (f64_lit 215 10) "C" None in
  let? s := expect "encode" (to_string (ser_event ev)) in
  let? _ := assert_that (negb (str_contains "raw" s)) in
  let? _ := assert_that (str_contains (quoted "kind" +:+ ":" +:+ quoted "sensor-reading") s) in
  let? _ := expect "decode" (from_str de_event s) in
  Ok tt.

Definition command_and_attestation_roundtrip_via_json (now1 now2 : option Z) : test :=
  let? _ := encode_then_decode (Command (pid Byte.x04) (Hlc.now now1) "set-interval"
    (str_bytes ("{" +:+ quoted "secs" +:+ ":30}"))) in
  encode_then_decode (Attestation (pid Byte.x05) (Hlc.now now2) "esp-secure-boot-v2"
    [Byte.xde; Byte.xad; Byte.xbe; Byte.xef]).

Definition cbor_cases : list MeshEvent :=
  [Heartbeat (pid Byte.x01) (Hlc.mk 42 7) (f64_lit 1 2);
   SensorReading (pid Byte.x02) (Hlc.mk 99 0) "sht41" "humidity_pct" (f64_lit 4725 100) "%"
     (Some [Byte.x01; Byte.x02; Byte.x03]);
   OtaStatus (pid Byte.x06) (Hlc.mk 1 1) "fw-1.2.3" "valid" ""].

Fixpoint for_each {A} (f : A -> test) (l : list A) : test :=
  match l with [] => Ok tt | x :: l' => let? _ := f x in for_each f l' end.

Definition mesh_event_roundtrips_via_cbor : test :=
  for_each (fun ev =>
    let? bytes := expect "cbor encode" (cbor.to_vec ev) in
    let? back := expect "cbor decode" (cbor.from_slice bytes) in
    let? a := expect "unwrap" (to_string (ser_event ev)) in
    let? b := expect "unwrap" (to_string (ser_event back)) in
    assert_eq a b) cbor_cases.

Definition work_offer_payload_is_base64url_string : test :=
  let ev := WorkOffer (pid Byte.x01) (pid Byte.x02) [Byte.x01; Byte.x02; Byte.x03; Byte.x04; Byte.x05] 0 in
  let? s := expect "encode" (to_string (ser_event ev)) in
  assert_that (str_contains (quoted "request" +:+ ":" +:+ quoted "AQIDBAU") s).

(** core/src/wire.rs: newtype structs with the codecs as their serde form. *)

Definition hex_array_roundtrips : test :=
  let v := array32_repeat Byte.xab in
  let? j := expect "unwrap" (to_string (hex_array.serialize v)) in
  let? _ := assert_eq j (quoted (str_repeat "ab" 32)) in
  let? back := expect "unwrap" (from_str hex_array.deserialize j) in
  assert_eq back v.

Definition hex_array_rejects_uppercase : test :=
  assert_that (is_err (from_str hex_array.deserialize (quoted (str_repeat "AB" 32)))).

Definition hex_array_rejects_wrong_length : test :=
  assert_that (is_err (from_str hex_array.deserialize (quoted "abcd"))).

Definition one_to_five : list u8 := [Byte.x01; Byte.x02; Byte.x03; Byte.x04; Byte.x05].

Definition base64url_unpadded_roundtrips : test :=
  let? j := expect "unwrap" (to_string (base64url_bytes_bytes.serialize one_to_five)) in
  let? _ := assert_eq j (quoted "AQIDBAU") in
  let? back := expect "unwrap" (from_str base64url_bytes_bytes.deserialize j) in
  assert_eq back one_to_five.

Definition base64url_accepts_padded_input : test :=
  let? back := expect "unwrap" (from_str base64url_bytes_bytes.deserialize (quoted "AQIDBAU=")) in
  assert_eq back one_to_five.

Definition base64url_rejects_standard_alphabet : test :=
  assert_that (is_err (from_str base64url_bytes_bytes.deserialize (quoted "+/=="))).

End CoreTests.

Section CorePass.
Context `{HexLaws, Base64Laws, JsonLaws, CborLaws}.

(** The quoted texts of the tests are read as the strings they quote. *)
Lemma from_quoted {T} (de : Value -> result T DeError) s :
  str_all plain_char s = true -> from_str de (quoted s) = map_err fmt_de_error (de (VStr s)).
Proof.
  intros Hs. destruct (json_roundtrip_exact (VStr s)) as (bs & Hb & Hf); [done..|].
  rewrite json_string in Hb by done. injection Hb as <-.
  unfold from_str, from_slice_as. by rewrite Hf.
Qed.

Lemma to_string_plain s : str_all plain_char s = true -> to_string (VStr s) = Ok (quoted s).
Proof.
  intros Hs. unfold to_string. rewrite json_string by done. cbn [map_ok]. f_equal.
  apply String.string_of_list_byte_of_string.
Qed.

Lemma hex_ab : hex_encode (arr_bytes (array32_repeat Byte.xab)) = str_repeat "ab" 32.
Proof. rewrite hex_encode_text. vm_compute. reflexivity. Qed.

Lemma event_json_passes ev :
  event_wf ev -> floats_finite ev = true ->
  encode_then_decode ev = Ok tt.
Proof.
  intros Hwf Hf. unfold encode_then_decode. destruct (event_text_roundtrip ev Hwf Hf) as (bs & Hb & Hd).
  unfold to_string, from_str. rewrite Hb. cbn. by rewrite str_bytes_str, Hd.
Qed.

Lemma to_string_text v : json_ok v = true -> to_string v = Ok (json_text json_float v).
Proof.
  intros Hok. unfold to_string. rewrite json_layout by done. cbn [map_ok]. by rewrite bytes_str_bytes.
Qed.

(** The whole text of the sensor reading: the clock and the value are its only open parts. *)
Definition sensor_text (ms value : string) : string :=
  let member k v := quoted k +:+ ":" +:+ v in
  ("{" +:+ member "kind" (quoted "sensor-reading") +:+ "," +:+
   member "peer" (quoted (str_repeat "03" 32)) +:+ "," +:+
   member "clock" ("{" +:+ quoted "wall_ms")) +:+ String ":" (ms +:+ String ","
  ((member "counter" "0" +:+ "}," +:+ member "sensor_id" (quoted "bme280-0") +:+ "," +:+
    member "metric" (quoted "temperature_c") +:+ "," +:+ quoted "value") +:+ String ":" (value +:+ String ","
  (member "unit" (quoted "C") +:+ "}")))).

Lemma sensor_reading_text ms x :
  json_text json_float (ser_event (SensorReading (pid Byte.x03) (Hlc.mk ms 0) "bme280-0" "temperature_c" x "C" None)) =
  sensor_text (fmt_int ms) (json_float x).
Proof.
  cbn [ser_event ser_fields app json_text map fst snd]. unfold ser_peer, hex_array.serialize.
  rewrite hex_encode_text. lazy -[fmt_int json_float String.append].
  rewrite ?str_app_assoc, ?str_app_cons, ?str_app_nil_l. reflexivity.
Qed.

Lemma number_has_no_r t : str_all is_number_char t = true -> no_char "r" t = true.
Proof. apply str_all_impl. by intros [[] [] [] [] [] [] [] []]. Qed.

Lemma sensor_text_no_raw ms value :
  str_all is_number_char ms = true -> str_all is_number_char value = true ->
  str_contains "raw" (sensor_text ms value) = false.
Proof.
  intros Hm%number_has_no_r Hv%number_has_no_r. unfold sensor_text. cbv zeta.
  rewrite !str_contains_sep by done.
  by rewrite (str_contains_missing "r" _ ms), (str_contains_missing "r" _ value) by done.
Qed.

Lemma sensor_text_kind ms value :
  exists r, sensor_text ms value = "{" +:+ (quoted "kind" +:+ ":" +:+ quoted "sensor-reading") +:+ r.
Proof. eexists. unfold sensor_text. cbv zeta. rewrite !str_app_assoc. reflexivity. Qed.

Lemma now_in_range now : (forall t, now = Some t -> (0 <= t)%Z) -> Hlc.wf (Hlc.now now).
Proof. intros Hn. by apply HlcFacts.now_wf. Qed.

Lemma wrong_length_refused : PeerId.from_hex "deadbeef" = Err PeerId.WrongLength.
Proof. by apply from_hex_errors. Qed.

Lemma bad_hex_refused : PeerId.from_hex (str_repeat "zz" 32) = Err PeerId.Malformed.
Proof. apply from_hex_errors. by intros []. Qed.

Lemma cbor_passes ev :
  event_wf ev -> floats_finite ev = true ->
  (let? bytes := expect "cbor encode" (cbor.to_vec ev) in
   let? back := expect "cbor decode" (cbor.from_slice bytes) in
   let? a := expect "unwrap" (to_string (ser_event ev)) in
   let? b := expect "unwrap" (to_string (ser_event back)) in
   assert_eq a b) = Ok tt.
Proof.
  intros Hwf Hf. destruct (cbor_item_roundtrip _ (cbor_event ev Hwf) (event_shallow ev)) as (bs & Hw & Hr).
  unfold cbor.to_vec, cbor.from_slice. rewrite Hw. cbn. rewrite Hr. cbn. rewrite de_event_ser by done.
  destruct (event_text_roundtrip ev Hwf Hf) as (js & Hj & _). unfold to_string. cbn.
  rewrite Hj. cbn. by apply assert_eq_refl.
Qed.

Lemma for_each_passes {A} (f : A -> test) l : Forall (fun x => f x = Ok tt) l -> for_each f l = Ok tt.
Proof. induction 1 as [|x l Hx _ IH]; [done|]. cbn. by rewrite Hx. Qed.

Lemma sensor_test_passes now :
  (forall t, now = Some t -> (0 <= t)%Z) -> sensor_reading_roundtrips_via_json_without_raw now = Ok tt.
Proof.
  intros Hn. unfold sensor_reading_roundtrips_via_json_without_raw. cbv zeta.
  set (ev := SensorReading _ _ _ _ _ _ _).
  assert (event_wf ev) as Hwf by (by apply now_in_range).
  pose proof (event_json_passes ev Hwf eq_refl) as Hp. revert Hp. unfold encode_then_decode.
  rewrite to_string_text by (by apply json_ok_event). cbn [expect map_err rbind].
  intros Hp. rewrite Hp. subst ev. unfold Hlc.now at 1 2. rewrite sensor_reading_text, sensor_text_no_raw.
  - cbn [assert_that negb rbind].
    destruct (sensor_text_kind (fmt_int (Hlc.wall_ms (Hlc.now now))) (json_float (f64_lit 215 10))) as [r Hr].
    cbn [Hlc.wall_ms Hlc.now] in Hr. by rewrite Hr, str_contains_app.
  - apply RefJson.fmt_int_chars.
  - by apply json_float_text.
Qed.

Lemma work_offer_test_passes : work_offer_payload_is_base64url_string = Ok tt.
Proof.
  unfold work_offer_payload_is_base64url_string. cbv zeta. rewrite to_string_text by done.
  cbn [expect map_err rbind ser_event ser_fields json_text map fst snd join ser_bytes].
  unfold ser_bytes, base64url_bytes_bytes.serialize, ser_peer, hex_array.serialize.
  rewrite no_pad_encode_text, !hex_encode_text. vm_compute. reflexivity.
Qed.

(** The tests of core/src/lib.rs. *)
Lemma core_lib_tests_pass now now1 now2 :
  (forall t, now = Some t -> (0 <= t)%Z) -> (forall t, now1 = Some t -> (0 <= t)%Z) ->
  (forall t, now2 = Some t -> (0 <= t)%Z) ->
  Forall (fun t : test => t = Ok tt)
    [peer_id_hex_roundtrip; peer_id_short_is_six_chars; peer_id_rejects_wrong_length;
     peer_id_rejects_bad_hex; hlc_bump_past_advances; mesh_event_roundtrips_via_json now;
     peer_id_wire_form_is_lowercase_hex_string; sensor_reading_roundtrips_via_json_without_raw now;
     command_and_attestation_roundtrip_via_json now1 now2; mesh_event_roundtrips_via_cbor;
     work_offer_payload_is_base64url_string].
Proof.
  intros Hn Hn1 Hn2. repeat apply Forall_cons_2; try apply Forall_nil_2.
  - unfold peer_id_hex_roundtrip. rewrite from_hex_to_hex. by apply assert_eq_refl.
  - unfold peer_id_short_is_six_chars, PeerId.short. rewrite hex_encode_length. done.
  - unfold peer_id_rejects_wrong_length. by rewrite wrong_length_refused.
  - unfold peer_id_rejects_bad_hex. by rewrite bad_hex_refused.
  - reflexivity.
  - apply event_json_passes; [by apply now_in_range|reflexivity].
  - unfold peer_id_wire_form_is_lowercase_hex_string, ser_peer, hex_array.serialize.
    change (arr_bytes _) with (arr_bytes (array32_repeat Byte.xab)).
    rewrite hex_ab, to_string_plain by reflexivity. by apply assert_eq_refl.
  - by apply sensor_test_passes.
  - unfold command_and_attestation_roundtrip_via_json.
    by rewrite !event_json_passes by (by apply now_in_range || reflexivity).
  - apply for_each_passes. repeat apply Forall_cons_2; [apply cbor_passes..|done]; done.
  - exact work_offer_test_passes.
Qed.

(** A text that starts outside the alphabet is no base64. *)
Lemma base64_refuses c s :
  is_base64url c = false -> is_err (base64url_bytes_bytes.deserialize (VStr (String c s))) = true.
Proof.
  intros Hc. destruct (base64url_bytes_bytes.deserialize _) as [b|] eqn:E; [|done]. exfalso.
  apply base64url_accepts in E. pose proof (no_pad_alphabet b) as Ha.
  unfold base64url_bytes_bytes.serialize in E.
  destruct (no_pad_encode b) as [|c' r]; [by destruct E|].
  assert (c' = c) as -> by (destruct E as [[= -> _]|[= -> _]]; done).
  cbn in Ha. by rewrite Hc in Ha.
Qed.

Lemma is_err_map_err {T E F} (f : E -> F) (r : result T E) : is_err (map_err f r) = is_err r.
Proof. by destruct r. Qed.

(** The tests of core/src/wire.rs. *)
Lemma wire_tests_pass :
  Forall (fun t : test => t = Ok tt)
    [hex_array_roundtrips; hex_array_rejects_uppercase; hex_array_rejects_wrong_length;
     base64url_unpadded_roundtrips; base64url_accepts_padded_input;
     base64url_rejects_standard_alphabet].
Proof.
  assert (no_pad_encode one_to_five = "AQIDBAU") as H15 by (by rewrite no_pad_encode_text).
  repeat apply Forall_cons_2; try apply Forall_nil_2.
  - unfold hex_array_roundtrips. unfold hex_array.serialize at 1. cbn zeta.
    rewrite hex_ab, to_string_plain by reflexivity. cbn [expect map_err rbind].
    rewrite assert_eq_refl by done. cbn [rbind]. rewrite from_quoted by reflexivity.
    rewrite <- hex_ab. fold (hex_array.serialize (array32_repeat Byte.xab)).
    rewrite hex_array_roundtrip. by apply assert_eq_refl.
  - unfold hex_array_rejects_uppercase. by rewrite from_quoted by reflexivity.
  - unfold hex_array_rejects_wrong_length. by rewrite from_quoted by reflexivity.
  - unfold base64url_unpadded_roundtrips. unfold base64url_bytes_bytes.serialize at 1.
    rewrite H15, to_string_plain by reflexivity. cbn [expect map_err rbind].
    rewrite assert_eq_refl by done. cbn [rbind]. rewrite from_quoted, <- H15 by reflexivity.
    fold (base64url_bytes_bytes.serialize one_to_five). rewrite base64_roundtrip. by apply assert_eq_refl.
  - unfold base64url_accepts_padded_input. rewrite from_quoted by reflexivity.
    rewrite (proj2 (base64url_accepts _ one_to_five)); [by apply assert_eq_refl|].
    right. by rewrite H15.
  - unfold base64url_rejects_standard_alphabet. rewrite from_quoted, is_err_map_err by reflexivity.
    by rewrite base64_refuses.
Qed.

End CorePass.

(** ** furcate-mesh-routing

    [t] gives the successive clock readings of a test, [order] the order in which the
    hash map yields its entries. *)

Section RoutingTests.
Context (t : nat -> Z) (order : Router -> list (PeerId * PeerState)).

Definition new_router : Router := Router_new (pid Byte.x00) MeshConfig_default.

Definition route_now (r : Router) (hops now : Z) : result Decision RoutingError :=
  route r "llama" false hops now (order r).

Definition local_has_short_circuits : test :=
  let r := new_router in
  let? d := expect "ok" (route r "any" true 0 (t 0) (order r)) in
  assert_eq d Local.

Definition no_peers_yields_no_such_model : test :=
  let? err := expect_err "no model" (route_now new_router 0 (t 0)) in
  assert_that (match err with NoSuchModel _ => true | _ => false end).

Definition least_loaded_router : Router :=
  let r := new_router in
  let r := record_announce r (pid Byte.x01) "llama" (t 0) (t 1) in
  let r := record_announce r (pid Byte.x02) "llama" (t 2) (t 3) in
  let r := record_heartbeat r (pid Byte.x01) (f64_lit 9 10) (t 4) (t 5) in
  record_heartbeat r (pid Byte.x02) (f64_lit 1 10) (t 6) (t 7).

Definition picks_least_loaded_peer : test :=
  let? d := expect "ok" (route_now least_loaded_router 0 (t 8)) in
  assert_eq d (Forward (pid Byte.x02)).

Definition hop_budget_blocks_further_forwards : test :=
  let c := MeshConfig_default in
  let cfg := {| heartbeat_interval_secs := heartbeat_interval_secs c;
    peer_dead_after_secs := peer_dead_after_secs c; max_hops := 1; mdns_domain := mdns_domain c |} in
  let r := record_announce (Router_new (pid Byte.x00) cfg) (pid Byte.x01) "llama" (t 0) (t 1) in
  let? err := expect_err "budget" (route_now r 1 (t 2)) in
  assert_that (match err with HopBudget _ => true | _ => false end).

Definition self_announcements_are_ignored : test :=
  let r := record_announce new_router (pid Byte.x00) "llama" (t 0) (t 1) in
  let? err := expect_err "ignored" (route_now r 0 (t 2)) in
  assert_that (match err with NoSuchModel _ => true | _ => false end).

Hypothesis order_perm : forall r, order r ≡ₚ map_to_list (state r).
(** No test takes as long as the liveness window. *)
Hypothesis quick : forall i j, (t j - t i < Duration_from_secs 30)%Z.

Lemma empty_table_refuses now : route_now new_router 0 now = Err (NoSuchModel "llama").
Proof using order_perm.
  apply route_none; [apply order_perm|done|]. intros p s (Hp & _). exact (lookup_empty_Some p s Hp).
Qed.

Lemma pid_ne a b : a <> b -> pid a <> pid b.
Proof. intros Hne [= Hab]. by apply Hne. Qed.

Lemma least_loaded_state :
  state least_loaded_router =
    <[pid Byte.x02 := mk_PeerState (f64_lit 1 10) (t 7) ["llama"]]>
      (<[pid Byte.x01 := mk_PeerState (f64_lit 9 10) (t 5) ["llama"]]> ∅).
Proof.
  pose proof (pid_ne Byte.x01 Byte.x00 ltac:(done)) as H10.
  pose proof (pid_ne Byte.x02 Byte.x00 ltac:(done)) as H20.
  pose proof (pid_ne Byte.x01 Byte.x02 ltac:(done)) as H12.
  unfold least_loaded_router, record_heartbeat, record_announce, new_router, Router_new, with_state.
  cbn [local state cfg]. rewrite !decide_False by done. cbn [state].
  rewrite ?lookup_empty, ?lookup_insert_ne, ?lookup_empty by done. cbn [default models].
  rewrite ?lookup_insert_eq, ?lookup_insert_ne, ?lookup_insert_eq by done. cbn.
  apply map_eq. intros q. destruct (decide (q = pid Byte.x01)) as [->|Hq1];
    [|destruct (decide (q = pid Byte.x02)) as [->|Hq2]]; by simplify_map_eq.
Qed.

Lemma routing_tests_pass :
  Forall (fun t : test => t = Ok tt)
    [local_has_short_circuits; no_peers_yields_no_such_model; picks_least_loaded_peer;
     hop_budget_blocks_further_forwards; self_announcements_are_ignored].
Proof using order_perm quick.
  repeat apply Forall_cons_2; try apply Forall_nil_2; [done|..].
  - unfold no_peers_yields_no_such_model. by rewrite empty_table_refuses.
  - unfold picks_least_loaded_peer, route_now.
    assert (forall p s, state least_loaded_router !! p = Some s ->
      (p = pid Byte.x01 /\ s = mk_PeerState (f64_lit 9 10) (t 5) ["llama"]) \/
      (p = pid Byte.x02 /\ s = mk_PeerState (f64_lit 1 10) (t 7) ["llama"])) as Hl.
    { intros p s. rewrite least_loaded_state, !lookup_insert_Some, lookup_empty. naive_solver. }
    rewrite (proj2 (route_forward_iff least_loaded_router "llama" 0 (t 8) _ (order_perm _)
      (fun p s Hp => ltac:(destruct (Hl p s Hp) as [[_ ->]|[_ ->]]; done)) (pid Byte.x02) eq_refl));
      [by apply assert_eq_refl|].
    exists (mk_PeerState (f64_lit 1 10) (t 7) ["llama"]). split.
    + split; [by rewrite least_loaded_state, lookup_insert_eq|]. split; [|done].
      apply Z.ltb_lt. change (duration_since (t 8) (t 7) < Duration_from_secs 30)%Z.
      unfold duration_since, Duration_from_secs, nanos_per_sec in *. specialize (quick 7 8). lia.
    + intros q s' (Hq & _). apply Hl in Hq as [[-> ->]|[-> ->]]; [by left|].
      right. split; [done|]. rewrite (ord_refl PeerId.cmp). done.
  - done.
  - unfold self_announcements_are_ignored, record_announce. rewrite decide_True by done.
    by rewrite empty_table_refuses.
Qed.

End RoutingTests.

(** ** furcate-mesh-transfer

    The directories of [tempfile::tempdir] are arguments, as are the ports the OS
    hands out and what a Zenoh session does for queries: [queries] for one alone,
    [linked] for one whose peer has sent the samples given. *)

Definition io_expect {T E} (msg : string) (m : io T E) : io T string := io_map_err (fun _ => msg) m.

Section TransferTests.
Context `{HexCrate, Blake3Crate, JsonCrate}.

Definition chunk_verifier_accepts_valid_chunk : test :=
  let bytes := str_bytes "hello mesh" in
  let hdr := mk_ChunkHeader 0 (ChunkVerifier_hash bytes) (Z.of_nat (length bytes)) true in
  expect "ok" (ChunkVerifier_verify hdr bytes).

Definition chunk_verifier_rejects_corrupt_chunk : test :=
  let hdr := mk_ChunkHeader 1024 (ChunkVerifier_hash (str_bytes "original")) 8 false in
  let? err := expect_err "should fail" (ChunkVerifier_verify hdr (str_bytes "tampered")) in
  match err with
  | ChunkVerify offset => assert_eq offset 1024%Z
  | _ => Err "wrong variant"
  end.

Definition root_hash_matches_blake3_of_file_bytes (dir : string) : io unit string :=
  let path := path_join dir "blob.bin" in
  let! f := io_expect "create" (open_truncate path) in
  let payload := replicate (Z.to_nat (3 * CHUNK_SIZE + 17)) Byte.xab in
  let! f := io_expect "write" (write_all f payload) in
  let! _ := io_expect "flush" (flush f) in
  let! actual := io_expect "hash" (root_hash path) in
  let expected := hex_encode (blake3_hash payload) in
  io_lift (assert_eq actual expected).

Definition pick_free_tcp_port (bound : result (result Z string) string) : result Z string :=
  let? listener := expect "bind ephemeral" bound in
  expect "local_addr" listener.

Context `{ZenohCrate}.

Definition loopback_endpoint (port : Z) : string :=
  "[" +:+ quoted ("tcp/127.0.0.1:" +:+ fmt_uint port) +:+ "]".

Definition open_session (listen_port peer_port : Z) : result ZSession string :=
  let? config := expect "mode" (insert_json5 Config_default "mode" (quoted "peer")) in
  let? config := expect "listen" (insert_json5 config "listen/endpoints" (loopback_endpoint listen_port)) in
  let? config := expect "connect" (insert_json5 config "connect/endpoints" (loopback_endpoint peer_port)) in
  expect "open zenoh" (zenoh_open config).

Definition open_solo_session (listen_port : Z) : result ZSession string :=
  let? config := expect "mode" (insert_json5 Config_default "mode" (quoted "peer")) in
  let? config := expect "listen" (insert_json5 config "listen/endpoints" (loopback_endpoint listen_port)) in
  expect "open zenoh" (zenoh_open config).

Context (queries : ZSession -> Session) (linked : ZSession -> list Sample -> Session).

(** A little more than two chunks. *)
Definition loopback_payload : list u8 :=
  (fun i => byte_of_N (N.of_nat (i mod 251))) <$> seq 0 (Z.to_nat (2 * CHUNK_SIZE + 4096)).

(** The serving task answers the receiver's query; the receiver reads the replies. *)
Definition serve_and_pull_roundtrip_on_loopback (bound_a bound_b : result (result Z string) string)
    (sender_dir recv_dir : string) : io unit string :=
  let! port_a := io_lift (pick_free_tcp_port bound_a) in
  let! port_b := io_lift (pick_free_tcp_port bound_b) in
  let! session_a := io_lift (open_session port_a port_b) in
  let! session_b := io_lift (open_session port_b port_a) in
  let payload := loopback_payload in
  let src_path := path_join sender_dir "model.bin" in
  let! _ := io_expect "write src" (fs_write src_path payload) in
  let! digest := io_expect "hash src" (root_hash src_path) in
  let sender := register (TransferService_new sender_dir (queries session_a)) digest src_path in
  let! _ := io_expect "serve" (serve sender [Query (TRANSFER_ROOT +:+ "/" +:+ digest)]) in
  let! pulled := fun w =>
    let receiver := TransferService_new recv_dir (linked session_b (w_sent w)) in
    io_expect "pull ok" (pull_with_options receiver (pid Byte.x00) digest
      (mk_PullOptions (Duration_from_secs 10))) w in
  let! pulled_bytes := io_expect "read pulled" (fs_read pulled) in
  let! _ := io_lift (assert_eq pulled_bytes payload) in
  io_lift (assert_eq pulled (path_join recv_dir digest)).

Definition pull_missing_digest_returns_peer_missing (bound : result (result Z string) string)
    (dir : string) : io unit string :=
  let! port := io_lift (pick_free_tcp_port bound) in
  let! session := io_lift (open_solo_session port) in
  let receiver := TransferService_new dir (queries session) in
  fun w =>
    match pull_with_options receiver (pid Byte.x00) (str_repeat "a" 64) (mk_PullOptions 500000000) w with
    | (Ok _, w') => (Err "should fail with no peer hosting", w')
    | (Err (PeerMissing _ _), w') => (Ok tt, w')
    | (Err _, w') => (Err "assertion failed", w')
    end.

End TransferTests.

Section TransferPass.
Context `{HexLaws, Blake3Laws, JsonLaws}.

Lemma verifier_tests_pass :
  chunk_verifier_accepts_valid_chunk = Ok tt /\
  (chunk_verifier_rejects_corrupt_chunk = Ok tt <->
   blake3_hash (str_bytes "original") <> blake3_hash (str_bytes "tampered")).
Proof.
  split; [unfold chunk_verifier_accepts_valid_chunk, ChunkVerifier_verify; by rewrite decide_True|].
  unfold chunk_verifier_rejects_corrupt_chunk, ChunkVerifier_verify, ChunkVerifier_hash. cbn [chunk_hash].
  case_decide as E; cbn.
  - split; [done|]. intros Hne. apply (f_equal hex_decode) in E. rewrite !hex_decode_encode in E.
    injection E as E. symmetry in E. by destruct (Hne E).
  - split; [|done]. intros _ Eh. apply E. f_equal. by symmetry.
Qed.

Lemma root_hash_test_passes dir w :
  let path := path_join dir "blob.bin" in
  quiet w -> is_dir w path = false -> dir_exists w (parent_dir path) = true ->
  (root_hash_matches_blake3_of_file_bytes dir w).1 = Ok tt.
Proof.
  intros path Hq Hd Hp. unfold root_hash_matches_blake3_of_file_bytes, io_expect. cbv zeta. fold path.
  generalize (replicate (Z.to_nat (3 * CHUNK_SIZE + 17)) Byte.xab). intros payload.
  erewrite io_bind_step by (apply io_map_err_ok, open_truncate_quiet; done).
  set (w1 := set_files _ w).
  destruct (write_all_quiet path 0 payload w1 (truncated w path)) as (pos & Hw);
    [done|apply lookup_insert_eq|].
  erewrite io_bind_step by (apply io_map_err_ok; exact Hw).
  erewrite io_bind_step by (by apply io_map_err_ok, flush_quiet).
  match goal with |- context [flush _] => idtac | |- context [io_bind _ _ ?v] => set (w2 := v) end.
  destruct (root_hash_quiet path w2 (mk_file (splice [] 0 payload) (f_mode (truncated w path)))) as (w3 & Hr & _);
    [done|apply lookup_insert_eq|].
  erewrite io_bind_step by (apply io_map_err_ok; exact Hr).
  cbn [io_lift fst f_content]. apply assert_eq_refl. unfold ChunkVerifier_hash. do 2 f_equal.
  unfold splice. destruct payload; [done|]. rewrite drop_nil, app_nil_r. done.
Qed.

Context `{ZenohCrate} (queries : ZSession -> Session) (linked : ZSession -> list Sample -> Session).

Lemma missing_digest_test_passes port sess dir w :
  open_solo_session port = Ok sess ->
  quiet w -> ready (TransferService_new dir (queries sess)) (str_repeat "a" 64) w ->
  session_get (queries sess) (TRANSFER_ROOT +:+ "/" +:+ str_repeat "a" 64) 500000000 = Ok [] ->
  (pull_missing_digest_returns_peer_missing queries (Ok (Ok port)) dir w).1 = Ok tt.
Proof.
  intros Ho Hq Hr Hg. unfold pull_missing_digest_returns_peer_missing.
  erewrite io_bind_step by reflexivity. rewrite Ho. erewrite io_bind_step by reflexivity. cbv zeta.
  destruct (pull_quiet _ (pid Byte.x00) _ (mk_PullOptions 500000000) _ Hq Hr) as (w' & _ & _ & Hp).
  cbn [session TransferService_new timeout] in Hp. rewrite Hg in Hp. cbn [pull_fate assemble] in Hp.
  destruct Hp as [-> _]. done.
Qed.

(** [ready] looks at the files and directories only. *)
Lemma ready_same self d w w' :
  w_files w' = w_files w -> w_dirs w' = w_dirs w -> ready self d w -> ready self d w'.
Proof.
  intros Hf Hd [Hc Ha Ht Hp]. split.
  - revert Hc. unfold is_file. by rewrite Hf.
  - revert Ha. unfold is_file, is_dir, dir_exists, with_cache. cbn. by rewrite Hf, Hd.
  - revert Ht. unfold is_dir, dir_exists, with_cache. cbn. by rewrite Hd.
  - revert Hp. unfold dir_exists, with_cache. cbn. by rewrite Hd.
Qed.

Lemma loopback_payload_length : Z.of_nat (length loopback_payload) = (2 * CHUNK_SIZE + 4096)%Z.
Proof. unfold loopback_payload. rewrite length_fmap, length_seq. apply Z2Nat.id. done. Qed.

(** What the serving task leaves behind: the replies, and nothing else. *)
Lemma serve_one sess dir d src f w :
  let key := TRANSFER_ROOT +:+ "/" +:+ d in
  declare_queryable sess (TRANSFER_ROOT +:+ "/*") = Ok tt -> quiet w -> w_sent w = [] ->
  w_files w !! src = Some f -> (Z.of_nat (length (f_content f)) < 2 ^ 63)%Z ->
  exists sv w' ss, serve (register (TransferService_new dir sess) d src) [Query key] w = (Ok sv, w') /\
    w_sent w' = ss /\ w_files w' = w_files w /\ w_dirs w' = w_dirs w /\ quiet w' /\
    streams key (Z.of_nat (length (f_content f))) 0 (f_content f) ss [].
Proof.
  intros key Hdq Hq Hs Hf Hmax.
  destruct (stream_quiet key src w f Hq Hf) as (w' & ss & Hrun & Hsent & Hst); [unfold u64_max; lia|].
  destruct (respects_stream steady key src _ _ _ Hrun) as [Hd Hc].
  apply emits_stream in Hrun as Hem. destruct Hem as [Hfiles _].
  unfold serve. cbn [session register TransferService_new]. rewrite Hdq.
  erewrite io_bind_step by reflexivity. cbn [artefacts register TransferService_new serve_loop].
  assert (handle_query (<[d := src]> ∅) key w = (Ok tt, w')) as Hh.
  { rewrite (handle_query_hosted (<[d := src]> ∅) d src w (lookup_insert_eq _ _ _)). fold key. by rewrite Hrun. }
  erewrite io_bind_step by (erewrite io_bind_step by exact Hh; reflexivity).
  eexists _, w', ss. split_and!; try done.
  - by rewrite Hsent, Hs.
  - by eapply consumed_quiet.
Qed.

(** The loopback test passes on every mesh that delivers the replies of a peer, in any
    order and number. *)
Lemma loopback_test_passes pa pb sa sb sdir rdir w :
  let src := path_join sdir "model.bin" in
  let digest := ChunkVerifier_hash loopback_payload in
  let key := TRANSFER_ROOT +:+ "/" +:+ digest in
  open_session pa pb = Ok sa -> open_session pb pa = Ok sb ->
  quiet w -> w_sent w = [] -> is_dir w src = false -> dir_exists w (parent_dir src) = true ->
  declare_queryable (queries sa) (TRANSFER_ROOT +:+ "/*") = Ok tt ->
  (forall ss, ready (TransferService_new rdir (linked sb ss)) digest
    (set_files (<[src := mk_file loopback_payload (f_mode (truncated w src))]> (w_files w)) w)) ->
  (forall ss, exists replies, session_get (linked sb ss) key (Duration_from_secs 10) = Ok replies /\
     forall r, r ∈ replies <-> r ∈ (reply_of <$> ss)) ->
  (serve_and_pull_roundtrip_on_loopback queries linked (Ok (Ok pa)) (Ok (Ok pb)) sdir rdir w).1 = Ok tt.
Proof.
  cbv zeta. unfold serve_and_pull_roundtrip_on_loopback, io_expect. cbv zeta.
  pose proof loopback_payload_length as Hlen. revert Hlen. generalize loopback_payload. intros payload Hlen.
  set (src := path_join sdir "model.bin"). intros Ha Hb Hq Hs Hd Hp Hdq Hr Hnet.
  assert (payload <> [] /\ (Z.of_nat (length payload) < 2 ^ 63)%Z) as [Hne Hmax].
  { unfold CHUNK_SIZE in Hlen. split; [by intros ->|lia]. }
  do 2 erewrite io_bind_step by reflexivity. rewrite Ha. erewrite io_bind_step by reflexivity.
  rewrite Hb. erewrite io_bind_step by reflexivity.
  erewrite io_bind_step by (apply io_map_err_ok, (fs_write_pass 0); [by apply passing_quiet|done..]).
  rewrite !tick_quiet by (by rewrite ?tick_quiet).
  set (w1 := set_files _ w). set (f := mk_file payload _) in *.
  assert (w_files w1 !! src = Some f) as Hf1 by apply lookup_insert_eq.
  destruct (root_hash_quiet src w1 f Hq Hf1) as (w2 & Hh & Hf2 & Hd2 & Hq2).
  pose proof (respects_root_hash same_sent src _ _ _ Hh) as Hs2. unfold same_sent in Hs2.
  erewrite io_bind_step by (apply io_map_err_ok; exact Hh). cbn [f_content f]. fold src.
  destruct (serve_one (queries sa) sdir (ChunkVerifier_hash payload) src f w2) as
    (sv & w3 & ss & Hsv & Hss & Hf3 & Hd3 & Hq3 & Hst); [done|done|by rewrite Hs2|by rewrite Hf2|done|].
  erewrite io_bind_step by (apply io_map_err_ok; exact Hsv).
  destruct (Hnet ss) as (replies & Hg & Hrep).
  destruct (pull_stream payload ss (ChunkVerifier_hash payload) (TransferService_new rdir (linked sb ss))
    (pid Byte.x00) (mk_PullOptions (Duration_from_secs 10)) replies w3) as (w4 & mode & Hpull & Hq4 & Hf4);
    try done.
  { eapply ready_same; [..|exact (Hr ss)]; [by rewrite Hf3, Hf2|by rewrite Hd3, Hd2]. }
  erewrite io_bind_step by (apply io_map_err_ok; rewrite Hss; exact Hpull).
  erewrite io_bind_step.
  2:{ apply io_map_err_ok. unfold fs_read. rewrite guarded_quiet, Hf4 by done. reflexivity. }
  cbn [f_content]. erewrite io_bind_step by (unfold io_lift; by rewrite assert_eq_refl).
  by apply assert_eq_refl.
Qed.

End TransferPass.

(** ** furcate-mesh-identity

    The keys that [generate] draws are arguments, as is the directory. *)

Section IdentityTests.
Context `{TlsCrates}.

Definition generate_yields_a_32_byte_peer_id (drawn : SigningKey) : test :=
  let id := generate drawn in
  assert_eq (length (arr_bytes (PeerId.as_bytes (peer_id id)))) 32.

Definition save_then_load_roundtrips_the_keypair (drawn : SigningKey) (dir : string) : io unit string :=
  let id := generate drawn in
  let pid := peer_id id in
  let! _ := io_expect "save ok" (save id dir) in
  let! loaded := io_expect "load ok" (load dir) in
  io_lift (assert_eq (peer_id loaded) pid).

Definition load_or_generate_is_idempotent (drawn drawn' : SigningKey) (dir : string) : io unit string :=
  let! a := io_expect "first call" (load_or_generate drawn dir) in
  let! b := io_expect "second call" (load_or_generate drawn' dir) in
  io_lift (assert_eq (peer_id a) (peer_id b)).

Definition server_tls_build_open_mode_succeeds (drawn : SigningKey) : test :=
  let cfg := mk_ServerTlsConfig (generate drawn) [] in
  let? _ := expect "open-mode server config builds" (ServerTlsConfig_build cfg) in
  Ok tt.

Definition server_tls_build_with_allowlist_succeeds (drawn drawn' : SigningKey) : test :=
  let allowed := peer_id (generate drawn) in
  let cfg := mk_ServerTlsConfig (generate drawn') [allowed] in
  let? _ := expect "allow-listed server config builds" (ServerTlsConfig_build cfg) in
  Ok tt.

Definition client_tls_build_succeeds (drawn drawn' : SigningKey) : test :=
  let server_id := peer_id (generate drawn) in
  let cfg := mk_ClientTlsConfig (generate drawn') server_id in
  let? _ := expect "client config builds" (ClientTlsConfig_build cfg) in
  Ok tt.

(** tests/tls_handshake.rs. What the operating system and the name parser return is
    given; both sides then run as the programs of Duplex.v. *)













End IdentityTests.

Section IdentityPass.
Context `{KL : KeyLaws, TC : !TlsCrates, TL : !TlsLaws}.

(** The crates can encode the key and load it into the provider. *)
Definition usable (sk : SigningKey) : Prop := is_ok (certified_key_from sk) = true.

Lemma usable_spki sk : usable sk -> exists der, peer_id_to_spki (peer_id (generate sk)) = Ok der.
Proof using TL.
  unfold usable. destruct (certified_key_from sk) as [k|] eqn:E; [|done]. intros _.
  eexists. exact (proj1 (certified_key_presents (generate sk) k [] E)).
Qed.

Lemma server_builds sk (allowed : list SigningKey) :
  usable sk -> Forall usable allowed ->
  exists sc, ServerTlsConfig_build (mk_ServerTlsConfig (generate sk)
    ((fun k => peer_id (generate k)) <$> allowed)) = Ok sc.
Proof using TL.
  intros Hsk Ha. unfold ServerTlsConfig_build. cbn [Tls.allowed server_identity].
  assert (exists ders, collect_results peer_id_to_spki ((fun k => peer_id (generate k)) <$> allowed) = Ok ders)
    as [ders ->].
  { induction Ha as [|k ks Hk _ [ders IH]]; [by exists []|]. cbn.
    destruct (usable_spki k Hk) as [der ->]. cbn. rewrite IH. cbn. eauto. }
  cbn [rbind]. unfold usable in Hsk. cbn [signing generate].
  destruct (certified_key_from sk) as [k|]; [cbn; eauto|done].
Qed.

Lemma client_builds sk server :
  usable sk -> usable server ->
  exists cc, ClientTlsConfig_build (mk_ClientTlsConfig (generate sk) (peer_id (generate server))) = Ok cc.
Proof using TL.
  intros Hsk Hs. unfold ClientTlsConfig_build. cbn [expected_server client_identity].
  destruct (usable_spki server Hs) as [der ->]. cbn [rbind signing generate]. unfold usable in Hsk.
  destruct (certified_key_from sk) as [k|]; [cbn; eauto|done].
Qed.






(** The tests on TLS pass for all keys the crates can encode; the rejections, when the
    drawn keys differ. *)
Lemma tls_build_tests_pass a b :
  usable a -> usable b ->
  Forall (fun t : test => t = Ok tt)
    [server_tls_build_open_mode_succeeds a; server_tls_build_with_allowlist_succeeds a b;
     client_tls_build_succeeds a b].
Proof using TL.
  intros Ha Hb. assert (Forall usable [a]) as Fa by (by repeat constructor).
  repeat apply Forall_cons_2; try apply Forall_nil_2.
  - unfold server_tls_build_open_mode_succeeds. destruct (server_builds a [] Ha) as [sc Hs]; [done|].
    cbn [fmap list_fmap] in Hs. by rewrite Hs.
  - unfold server_tls_build_with_allowlist_succeeds. destruct (server_builds b [a] Hb Fa) as [sc Hs].
    cbn [fmap list_fmap] in Hs. by rewrite Hs.
  - unfold client_tls_build_succeeds. destruct (client_builds b a Hb Ha) as [cc Hs]. by rewrite Hs.
Qed.


Lemma save_quiet sk dir w pem :
  dir_ready dir w -> to_pkcs8_pem sk = Ok pem -> quiet w ->
  exists w1 mode, save (generate sk) dir w = (Ok tt, w1) /\ quiet w1 /\
    w_files w1 !! identity_path dir = Some (mk_file (str_bytes pem) mode).
Proof using Type.
  intros Hd Hp Hq.
  destruct (save_until_chmod (generate sk) dir w pem Hd Hp (passing_quiet 4 w Hq)) as (w1 & Hs & Ho & Hf).
  assert (quiet w1) as Hq1 by (unfold quiet in *; by rewrite Ho, Hq).
  rewrite Hs. unfold io_map_err, set_mode. rewrite guarded_quiet by done.
  rewrite Hf, lookup_insert_eq. cbn [map_err]. eexists _, _. split_and!; [done|done|].
  cbn. by rewrite lookup_insert_eq.
Qed.

Lemma identity_tests_pass sk sk' dir w pem :
  to_pkcs8_pem sk = Ok pem -> dir_ready dir w -> quiet w ->
  is_file w (identity_path dir) = false -> is_dir w (identity_path dir) = false ->
  generate_yields_a_32_byte_peer_id sk = Ok tt /\
  (save_then_load_roundtrips_the_keypair sk dir w).1 = Ok tt /\
  (load_or_generate_is_idempotent sk sk' dir w).1 = Ok tt.
Proof using KL.
  intros Hp Hd Hq Hnf Hnd. split_and!.
  - apply assert_eq_refl, array32_length.
  - unfold save_then_load_roundtrips_the_keypair, io_expect. cbv zeta.
    destruct (save_quiet sk dir w pem Hd Hp Hq) as (w1 & mode & Hs & Hq1 & Hf).
    erewrite io_bind_step by (by apply io_map_err_ok).
    erewrite io_bind_step by (apply io_map_err_ok; by eapply load_saved).
    by apply assert_eq_refl.
  - unfold load_or_generate_is_idempotent, io_expect.
    assert (exists w1, load_or_generate sk dir w = (Ok (generate sk), w1) /\ quiet w1) as (w1 & Hl & Hq1).
    { unfold load_or_generate. erewrite io_bind_step by (by apply path_exists_quiet).
      rewrite Hnf, Hnd. cbn [orb].
      erewrite io_bind_step by (apply io_map_err_ok, create_dir_all_quiet; [done|apply Hd]). cbv zeta.
      destruct (save_quiet sk dir (set_dirs (w_dirs w ∪ list_to_set (ancestors dir)) (set_outcomes (w_outcomes w) w))
        pem (dir_ready_created dir w (w_outcomes w) Hd) Hp Hq) as (w2 & mode & Hs & Hq2 & _).
      exists w2. split; [|done]. erewrite io_bind_step; [reflexivity|]. by destruct w. }
    erewrite io_bind_step by (by apply io_map_err_ok).
    destruct (identity_stable sk sk' dir w (generate sk) w1 w1 Hnf Hnd Hl Hq1 eq_refl) as [_ H2].
    erewrite io_bind_step by (by apply io_map_err_ok).
    by apply assert_eq_refl.
Qed.

End IdentityPass.

Module HandshakeWitness.
#[local] Existing Instances RefKeys.crate RefKeys.laws RefTls.crate RefTls.laws.


End HandshakeWitness.

(** ** furcate-mesh-transport *)

Section TransportTests.
Context `{HexCrate}.

(** A key that the match of [key_for] does not produce is a panic. *)
Definition heartbeat_key_uses_peer_hex (now : option Z) : test :=
  let ev := Heartbeat (pid Byte.xaa) (Hlc.now now) f64_zero in
  let? key := ok_or "no key" (key_for ev) in
  let? _ := assert_that (starts_with "furcate/mesh/" key) in
  assert_that (ends_with "/heartbeat" key).

Definition model_announce_key_includes_model_name (now : option Z) : test :=
  let ev := ModelAnnounce (pid Byte.xbb) (Hlc.now now) "llama-3-8b-q4" (str_repeat "0" 64) "gguf" in
  let? key := ok_or "no key" (key_for ev) in
  assert_that (ends_with "/model/llama-3-8b-q4" key).

Definition work_offer_key_with_request_id : test :=
  let key := key_work_offer (pid Byte.xcc) "req-123" in
  assert_that (ends_with "/work-offer/req-123" key).

Lemma peer_key_ends p tail : ends_with ("/" +:+ tail) (peer_key p tail) = true.
Proof. unfold peer_key. rewrite <- !str_app_assoc, str_app_assoc. apply ends_with_app. Qed.

Lemma transport_tests_pass now now' :
  Forall (fun t : test => t = Ok tt)
    [heartbeat_key_uses_peer_hex now; model_announce_key_includes_model_name now';
     work_offer_key_with_request_id].
Proof.
  repeat apply Forall_cons_2; try apply Forall_nil_2.
  - unfold heartbeat_key_uses_peer_hex. cbn [key_for ok_or rbind].
    rewrite (peer_key_ends _ "heartbeat" : ends_with "/heartbeat" _ = true).
    by rewrite (starts_with_app "furcate/mesh/" _ _ eq_refl : starts_with _ (peer_key _ _) = true).
  - unfold model_announce_key_includes_model_name. cbn [key_for ok_or rbind].
    by rewrite (peer_key_ends _ "model/llama-3-8b-q4" : ends_with "/model/llama-3-8b-q4" _ = true).
  - unfold work_offer_key_with_request_id, key_work_offer.
    by rewrite (peer_key_ends _ "work-offer/req-123" : ends_with "/work-offer/req-123" _ = true).
Qed.

End TransportTests.

(** [f64::EPSILON], and the tests' way to compare floats. *)
Definition F64_EPSILON : f64 := S754_finite false 4503599627370496 (-104).

Definition within_epsilon (a b : f64) : bool := SFltb (SFabs (SFsub 53 1024 a b)) F64_EPSILON.

Section LoopbackTest.
Context `{HexCrate, Base64Crate, JsonCrate, ZenohCrate}.

Definition loopback_config (listen_port peer_port : Z) : TransportConfig :=
  mk_TransportConfig (Some ("tcp/127.0.0.1:" +:+ fmt_uint listen_port))
    ["tcp/127.0.0.1:" +:+ fmt_uint peer_port].

(** [arriving] is what reaches the subscriber within its three seconds, of what has been
    sent. The stream yields what its forwarding task makes of that. *)
Definition pub_sub_roundtrip_on_loopback (arriving : list Sample -> list Sample)
    (bound_a bound_b : result (result Z string) string) (now : option Z) : io unit string :=
  let! port_a := io_lift (pick_free_tcp_port bound_a) in
  let! port_b := io_lift (pick_free_tcp_port bound_b) in
  let! a := io_lift (expect "open transport a" (Transport_new (loopback_config port_a port_b))) in
  let! b := io_lift (expect "open transport b" (Transport_new (loopback_config port_b port_a))) in
  let! _ := io_lift (expect "subscribe on b" (subscribe b SUB_ALL_HEARTBEATS None [])) in
  let ev := Heartbeat (pid Byte.x01) (Hlc.now now) (f64_lit 1 4) in
  let! _ := match publish ev with
            | Some run => io_expect "publish on a" run
            | None => io_lift (Err "no key")
            end in
  fun w =>
    let test :=
      let? received := ok_or "subscribe timed out" (head (forward None (arriving (w_sent w)))) in
      let? decoded := expect "decode ok" received in
      match decoded with
      | Heartbeat peer _ load =>
          let? _ := assert_eq peer (pid Byte.x01) in
          assert_that (within_epsilon load (f64_lit 1 4))
      | _ => Err "unexpected event"
      end in
    (test, w).

End LoopbackTest.

Section LoopbackPass.
Context `{HexLaws, Base64Laws, JsonLaws, KeyExprLaws, ZenohCrate}.

(** The sessions that the transfer test configures by hand are those of the transport. *)
Lemma endpoints_text what port :
  (0 <= port)%Z ->
  endpoints_json what ["tcp/127.0.0.1:" +:+ fmt_uint port] = Ok (loopback_endpoint port).
Proof.
  intros Hp. unfold endpoints_json. cbn [fmap list_fmap]. rewrite json_layout by done.
  cbn [map_err map_ok json_text map join]. rewrite bytes_str_bytes, escape_plain; [done|].
  rewrite str_all_app. destruct (fmt_uint_value port Hp) as (Hd & _).
  rewrite (str_all_impl is_ascii_digit plain_char (fmt_uint port)); [done| |done].
  by intros [[] [] [] [] [] [] [] []].
Qed.

Lemma sessions_agree pa pb session :
  (0 <= pa)%Z -> (0 <= pb)%Z ->
  open_session pa pb = Ok session <-> Transport_new (loopback_config pa pb) = Ok session.
Proof.
  intros Ha Hb. unfold open_session, Transport_new, loopback_config. cbn [listen Transport.connect].
  rewrite !endpoints_text by done. cbn [rbind]. unfold insert, expect.
  change (String "034" ("peer" +:+ String "034" "")) with (quoted "peer").
  repeat (destruct (insert_json5 _ _ _); cbn [map_err rbind]; [|naive_solver]).
  destruct (zenoh_open _); naive_solver.
Qed.

Definition beat_key : string := peer_key (pid Byte.x01) "heartbeat".

Lemma beat_selected : ke_includes SUB_ALL_HEARTBEATS beat_key = true.
Proof.
  assert (valid_key beat_key = true) as Hv.
  { unfold beat_key, peer_key, PeerId.fmt_display, PeerId.to_hex. rewrite hex_encode_text. vm_compute. reflexivity. }
  apply ke_includes_spec; [done..|]. unfold beat_key. rewrite chunks_peer_key.
  by apply (match_peer_topic "heartbeat"); [..|apply lower_hex_not_verbatim, to_hex_lower|].
Qed.

(** On a mesh that delivers what the subscription selects, the test passes exactly when the
    JSON crate reads the load back from its own digits within an epsilon. *)
Lemma pub_sub_test_passes arriving pa pb sa sb now w :
  Transport_new (loopback_config pa pb) = Ok sa -> Transport_new (loopback_config pb pa) = Ok sb ->
  declare_subscriber sb SUB_ALL_HEARTBEATS = Ok tt ->
  (forall s, ke_includes SUB_ALL_HEARTBEATS (s_key s) = true -> arriving [s] = [s]) ->
  (forall t, now = Some t -> (0 <= t)%Z) -> quiet w -> w_sent w = [] ->
  (pub_sub_roundtrip_on_loopback arriving (Ok (Ok pa)) (Ok (Ok pb)) now w).1 = Ok tt <->
  within_epsilon (reread_float (f64_lit 1 4)) (f64_lit 1 4) = true.
Proof.
  intros Ha Hb Hd Harr Hn Hq Hs. unfold pub_sub_roundtrip_on_loopback. set (ev := Heartbeat _ _ _).
  destruct (publish_sends ev beat_key eq_refl (now_in_range now Hn) eq_refl) as (run & s & Hp & Hk & _ & Hr & Hdec).
  do 2 erewrite io_bind_step by reflexivity. rewrite Ha. erewrite io_bind_step by reflexivity.
  rewrite Hb. erewrite io_bind_step by reflexivity. unfold subscribe. rewrite Hd.
  erewrite io_bind_step by reflexivity. cbv zeta. rewrite Hp.
  erewrite io_bind_step.
  2:{ apply io_map_err_ok. rewrite Hr. apply io_map_err_ok. unfold send. by rewrite guarded_quiet. }
  cbn [w_sent set_sent fst]. rewrite Hs. cbn [app].
  rewrite Harr by (rewrite Hk; apply beat_selected).
  cbn [forward head ok_or rbind]. rewrite Hdec. cbn [reread_event ev map_err expect rbind].
  rewrite assert_eq_refl by done. cbn [rbind]. unfold assert_that. by destruct (within_epsilon _ _).
Qed.

End LoopbackPass.

(** ** furcate-mesh-discovery *)

Section DiscoveryTests.
Context `{HexCrate}.

Definition parse_seed_with_explicit_zenoh_url : test :=
  let hex := str_repeat "ab" 32 in
  let seed := hex +:+ "@10.0.0.5:7447/tcp/10.0.0.5:7447" in
  let? peer := expect "parse ok" (parse_seed seed) in
  let? _ := assert_eq (zenoh_url peer) "tcp/10.0.0.5:7447" in
  let? _ := assert_eq (fmt_socket_addr (addr peer)) "10.0.0.5:7447" in
  assert_that (negb (via_mdns peer)).

Definition parse_seed_defaults_zenoh_url_when_missing : test :=
  let hex := str_repeat "cd" 32 in
  let seed := hex +:+ "@192.168.1.10:7447" in
  let? peer := expect "parse ok" (parse_seed seed) in
  assert_eq (zenoh_url peer) "tcp/192.168.1.10:7447".

Definition is_bad_seed {T} (r : result T DiscoveryError) : bool :=
  match r with Err (BadSeed _ _) => true | _ => false end.

Definition parse_seed_rejects_bad_peer_hex : test :=
  assert_that (is_bad_seed (parse_seed "not-hex@10.0.0.1:7447")).

Definition parse_seed_rejects_missing_at_sign : test :=
  assert_that (is_bad_seed (parse_seed "10.0.0.1:7447")).

(** The consumer takes two peers and drops its receiver. *)
Definition seeds_only_flushes_then_idles_until_receiver_drops (daemon : ServiceDaemon) : test :=
  let hex_a := str_repeat "ab" 32 in
  let hex_b := str_repeat "cd" 32 in
  let cfg := mk_DiscoveryConfig None None 0
    [hex_a +:+ "@10.0.0.5:7447"; hex_b +:+ "@10.0.0.6:7447"] true in
  let '(received, task) := run daemon cfg (Some 2) in
  let? first := ok_or "first seed" (received !! 0) in
  let? _ := assert_eq (fmt_socket_addr (addr first)) "10.0.0.5:7447" in
  let? second := ok_or "second seed" (received !! 1) in
  let? _ := assert_eq (fmt_socket_addr (addr second)) "10.0.0.6:7447" in
  assert_that (is_ok task).

Definition seeds_only_with_bad_seed_returns_bad_seed_error (daemon : ServiceDaemon) : test :=
  let cfg := mk_DiscoveryConfig None None 0 ["this-is-not-a-seed"] true in
  let? err := expect_err "must reject" (run daemon cfg None).2 in
  assert_that (is_bad_seed (T := unit) (Err err)).

End DiscoveryTests.

Section DiscoveryPass.
Context `{HexLaws}.

Lemma from_hex_repeat (s : string) b :
  Rfc4648.base16 (arr_bytes (array32_repeat b)) = s -> PeerId.from_hex s = Ok (pid b).
Proof.
  intros <-. rewrite <- hex_encode_text. exact (from_hex_to_hex (pid b)).
Qed.

(** The seeds of the tests, from their parts. *)
Lemma test_seed hex b rest host_port url a :
  Rfc4648.base16 (arr_bytes (array32_repeat b)) = hex ->
  rest = "@" +:+ host_port +:+ match url with Some u => "/" +:+ u | None => "" end ->
  no_char "@" hex = true -> no_char "/" host_port = true -> parse_socket_addr host_port = Ok a ->
  parse_seed (hex +:+ rest) = Ok (mk_DiscoveredPeer (pid b) a (default ("tcp/" +:+ host_port) url) false).
Proof. intros Hh -> Hat Hs Ha. apply parse_seed_written; try done. by apply from_hex_repeat. Qed.

Lemma not_hex_refused : is_bad_seed (parse_seed "not-hex@10.0.0.1:7447") = true.
Proof.
  unfold parse_seed.
  change (split_once "@" "not-hex@10.0.0.1:7447") with (Some ("not-hex", "10.0.0.1:7447")). cbn [ok_or rbind].
  by rewrite (proj2 (proj1 (from_hex_errors "not-hex"))) by (by intros []).
Qed.

Lemma discovery_tests_pass daemon :
  Forall (fun t : test => t = Ok tt)
    [parse_seed_with_explicit_zenoh_url; parse_seed_defaults_zenoh_url_when_missing;
     parse_seed_rejects_bad_peer_hex; parse_seed_rejects_missing_at_sign;
     seeds_only_flushes_then_idles_until_receiver_drops daemon;
     seeds_only_with_bad_seed_returns_bad_seed_error daemon].
Proof.
  repeat apply Forall_cons_2; try apply Forall_nil_2.
  - unfold parse_seed_with_explicit_zenoh_url. cbv zeta.
    erewrite (test_seed (str_repeat "ab" 32) Byte.xab _ "10.0.0.5:7447" (Some "tcp/10.0.0.5:7447"))
      by (vm_compute; reflexivity). reflexivity.
  - unfold parse_seed_defaults_zenoh_url_when_missing. cbv zeta.
    erewrite (test_seed (str_repeat "cd" 32) Byte.xcd _ "192.168.1.10:7447" None)
      by (vm_compute; reflexivity). reflexivity.
  - unfold parse_seed_rejects_bad_peer_hex. by rewrite not_hex_refused.
  - reflexivity.
  - unfold seeds_only_flushes_then_idles_until_receiver_drops, run. cbv zeta. cbn [seeds seeds_only flush_seeds].
    erewrite (test_seed (str_repeat "ab" 32) Byte.xab _ "10.0.0.5:7447" None) by (vm_compute; reflexivity).
    erewrite (test_seed (str_repeat "cd" 32) Byte.xcd _ "10.0.0.6:7447" None) by (vm_compute; reflexivity).
    reflexivity.
  - reflexivity.
Qed.

End DiscoveryPass.
