(* ===== verification/Vectors.v ===== *)
(** * The protocol vectors

    core/tests/protocol_vectors.rs: every [.json] file of a directory, if it is there, is
    read and parsed as a [serde_json::Value], read again and parsed as a [MeshEvent], and
    the event's own value is compared with the file's. The objects of a [serde_json::Value] are [BTreeMap]s, so that
    the comparison cannot see the order of fields. *)

From Stdlib Require Import Ascii SpecFloat.
From S2P Require Import Prelude RustStd Codecs Core Wire Serde Event Json Fs Identity BTree Tests.

(** ** [serde_json::Value] *)

(** [to_value], and the value that [from_str] builds from a tree: the last entry of a
    key counts, and the entries are sorted. *)
Fixpoint to_value (v : Value) : Value :=
  match v with
  | VFloat f => if is_finite f then VFloat f else VNull
  | VArr l => VArr (map to_value l)
  | VObj l => VObj (btree_of (map (fun kv => (kv.1, to_value kv.2)) l))
  | _ => v
  end.

(** [PartialEq]: floats by [==]. *)
Fixpoint value_eqb (a b : Value) {struct a} : bool :=
  match a, b with
  | VNull, VNull => true
  | VBool x, VBool y => Bool.eqb x y
  | VInt x, VInt y => Z.eqb x y
  | VFloat x, VFloat y => SFeqb x y
  | VStr x, VStr y => String.eqb x y
  | VArr l, VArr l' =>
      (fix go (l l' : list Value) : bool :=
         match l, l' with
         | [], [] => true
         | x :: l, y :: l' => value_eqb x y && go l l'
         | _, _ => false
         end) l l'
  | VObj l, VObj l' =>
      (fix go (l l' : list (string * Value)) : bool :=
         match l, l' with
         | [], [] => true
         | (k, x) :: l, (k', y) :: l' => String.eqb k k' && value_eqb x y && go l l'
         | _, _ => false
         end) l l'
  | _, _ => false
  end.

Lemma SFeqb_refl f : is_finite f = true -> SFeqb f f = true.
Proof.
  unfold SFeqb. destruct f as [| | |[] m e]; try done; intros _; cbn;
    by rewrite Z.compare_refl, Pos.compare_cont_refl.
Qed.

Lemma value_eqb_refl v : finite_floats v = true -> value_eqb v v = true.
Proof.
  induction v as [|b|n|f|s|l IH|l IH] using Value_ind_nested; cbn; intros Hf; try done.
  - by destruct b.
  - apply Z.eqb_refl.
  - by apply SFeqb_refl.
  - apply String.eqb_refl.
  - induction IH as [|x l Hx _ IHl]; cbn in *; [done|]. apply andb_true_iff in Hf as [Hf Hl].
    by rewrite Hx, IHl.
  - induction IH as [|[k x] l Hx _ IHl]; cbn in *; [done|]. apply andb_true_iff in Hf as [Hf Hl].
    by rewrite String.eqb_refl, Hx, IHl.
Qed.

Lemma to_value_finite v : finite_floats (to_value v) = true.
Proof.
  induction v as [|b|n|f|s|l IH|l IH] using Value_ind_nested; cbn; try done.
  - destruct (is_finite f) eqn:Ef; [exact Ef|done].
  - induction IH as [|x l Hx _ IHl]; cbn; [done|]. by rewrite Hx, IHl.
  - apply forallb_forall. intros [k v] Hin%list_elem_of_In%btree_of_spec.
    apply latest_elem_of in Hin. change (map ?f l) with (f <$> l) in Hin.
    apply list_elem_of_fmap in Hin as ([k' v'] & [= -> ->] & Hin).
    rewrite Forall_forall in IH. exact (IH _ Hin).
Qed.

(** ** The test *)

(** [Path::extension]: what follows the last dot, unless the name starts with it. *)
Fixpoint after_last_dot (s : string) : option string :=
  match s with
  | "" => None
  | String c s' =>
      match after_last_dot s' with
      | Some e => Some e
      | None => if Ascii.eqb c "." then Some s' else None
      end
  end.

Definition extension (name : string) : option string :=
  match name with "" => None | String _ rest => after_last_dot rest end.

(** [Path::parent]. *)
Definition path_parent (p : string) : option string :=
  match strip_slashes p with
  | "" => None
  | q => Some match before_last_slash q with
              | None => ""
              | Some "" => "/"
              | Some r => r
              end
  end.

(** [Path::is_dir]: false also when the metadata cannot be read. *)
Definition path_is_dir {E} (p : string) : io bool E := fun w =>
  match guarded (fun w => (Ok (is_dir w p), w)) w with
  | (Ok b, w') => (Ok b, w')
  | (Err _, w') => (Ok false, w')
  end.

(** [manifest] is the directory of the crate at build time. *)
Definition mesh_event_vectors (manifest : string) : io (option string) string :=
  match (path_parent manifest ≫= path_parent) ≫= path_parent with
  | None => io_ret None
  | Some base =>
      let candidate := path_join (path_join (path_join base "furcate-protocol") "test-vectors") "mesh-event" in
      let! there := path_is_dir candidate in
      io_ret (if there then Some candidate else None)
  end.

Section Vectors.
Context `{HexCrate, Base64Crate, JsonCrate}.

Definition read_value (path : string) : io Value string :=
  let! body := io_map_err (fun e => "read " +:+ path +:+ ": " +:+ fmt_io_error e) (read_to_string path) in
  io_lift (map_err (fun e => "parse " +:+ path +:+ ": " +:+ e)
             (map_ok to_value (json_from_slice (str_bytes body)))).

Definition check_vector (path : string) : io unit string :=
  let! original := read_value path in
  let! body := io_expect "re-read" (read_to_string path) in
  let! parsed := io_lift (map_err (fun e => "deserialise " +:+ path +:+ ": " +:+ e) (from_str de_event body)) in
  let reencoded := to_value (ser_event parsed) in
  io_lift (assert_that (value_eqb original reencoded)).

(** The entries of [dir], by name; one that cannot be read is an error. *)
Fixpoint check_vectors (dir : string) (entries : list (result string string)) (checked : nat)
    : io nat string :=
  match entries with
  | [] => io_ret checked
  | entry :: entries =>
      let! name := io_lift (expect "dir entry" entry) in
      if decide (extension name <> Some "json") then check_vectors dir entries checked
      else
        let! _ := check_vector (path_join dir name) in
        check_vectors dir entries (S checked)
  end.

(** [read_dir]: what the directory lists, in the order of the file system. *)
Definition mesh_event_vectors_roundtrip (manifest : string)
    (read_dir : string -> result (list (result string string)) string) : io unit string :=
  let! found := mesh_event_vectors manifest in
  match found with
  | None => io_ret tt
  | Some dir =>
      let! entries := io_lift (expect "read mesh-event dir" (read_dir dir)) in
      let! checked := check_vectors dir entries 0 in
      io_lift (assert_that (5 <=? checked))
  end.

End Vectors.

Example vectors_path w :
  quiet w -> "/src/furcate-protocol/test-vectors/mesh-event" ∈ w_dirs w ->
  mesh_event_vectors "/src/furcate-mesh/crates/furcate-mesh-core" w =
    (Ok (Some "/src/furcate-protocol/test-vectors/mesh-event"), w).
Proof.
  intros Hq Hd. unfold mesh_event_vectors. cbn. unfold io_bind, path_is_dir. rewrite guarded_quiet by done.
  unfold is_dir, dir_exists. rewrite bool_decide_true by (right; exact Hd). reflexivity.
Qed.

Example json_extension :
  extension "heartbeat.json" = Some "json" /\ extension ".json" = None /\ extension "a.json.md" = Some "md".
Proof. done. Qed.

(** ** Order does not matter *)

#[local] Instance below_anti_symm {K V} `{OrdLaws K} : AntiSymm (=) (below (K := K) (V := V)).
Proof.
  intros a b Hab Hba. unfold below in *. rewrite key_antisym, Hab in Hba. done.
Qed.

Lemma latest_elem {K V} `{OrdLaws K} (l : list (K * V)) k v :
  NoDup l.*1 -> latest k l = Some v <-> (k, v) ∈ l.
Proof.
  induction l as [|[a b] l IH] using rev_ind; [intros _; split; [done|by intros ?%elem_of_nil]|].
  rewrite fmap_app, NoDup_app. intros (Hl & Hn & _). unfold latest in *. rewrite fold_left_app.
  cbn [fold_left fst snd]. rewrite elem_of_app, list_elem_of_singleton.
  destruct (ord_cmp k a) eqn:E.
  - apply key_eq in E as ->. split; [intros [= ->]; by right|]. intros [Hin|[= ->]]; [|done].
    exfalso. apply (Hn a); [by apply (list_elem_of_fmap_2 fst _ (a, v))|left].
  - rewrite (IH Hl). assert (k <> a) by (intros ->; by rewrite key_refl in E). naive_solver.
  - rewrite (IH Hl). assert (k <> a) by (intros ->; by rewrite key_refl in E). naive_solver.
Qed.

Lemma btree_of_perm {K V} `{OrdLaws K} (l l' : list (K * V)) :
  NoDup l.*1 -> l ≡ₚ l' -> btree_of l = btree_of l'.
Proof.
  intros Hnd E. assert (NoDup l'.*1) as Hnd' by (by rewrite <- E).
  assert (forall m : list (K * V), btree_wf m -> NoDup m) as Hwf.
  { intros m. unfold btree_wf. induction 1 as [|x m _ IH Hx]; constructor; [|done].
    intros Hin. rewrite Forall_forall in Hx. specialize (Hx x Hin). unfold below in Hx. by rewrite key_refl in Hx. }
  apply (StronglySorted_unique below); [apply btree_of_wf..|].
  apply NoDup_Permutation; [apply Hwf, btree_of_wf..|]. intros [k v].
  rewrite !btree_of_spec, !latest_elem by done. by rewrite E.
Qed.

Section Facts.
Context `{HexLaws, Base64Laws, JsonLaws}.

Lemma event_keys_distinct e : NoDup (("kind", VStr (kind e)) :: ser_fields e).*1.
Proof.
  apply (bool_decide_unpack _). destruct e as [| | | | |? ? ? ? ? ? []| | | |]; vm_compute; exact I.
Qed.

Lemma to_value_perm es es' : NoDup es.*1 -> es ≡ₚ es' -> to_value (VObj es) = to_value (VObj es').
Proof.
  intros Hnd E. cbn. f_equal. apply btree_of_perm; [|by rewrite E].
  change (map ?f es) with (f <$> es). rewrite <- list_fmap_compose. exact Hnd.
Qed.

(** A text with the fields of an event in some order: the same value and the same event. *)
Definition vector_file (w : World) (path : string) : Prop :=
  exists f e es, w_files w !! path = Some f /\ valid_utf8 (f_content f) = true /\ event_wf e /\
    es ≡ₚ ("kind", VStr (kind e)) :: ser_fields e /\ json_from_slice (f_content f) = Ok (VObj es).

Lemma read_to_string_quiet path w f :
  quiet w -> w_files w !! path = Some f -> valid_utf8 (f_content f) = true ->
  read_to_string path w = (Ok (bytes_str (f_content f)), w).
Proof.
  intros Hq Hf Hu. unfold read_to_string.
  erewrite io_bind_step by (unfold fs_read; rewrite guarded_quiet, Hf by done; reflexivity). by rewrite Hu.
Qed.

Lemma vector_accepted path w : quiet w -> vector_file w path -> check_vector path w = (Ok tt, w).
Proof.
  intros Hq (f & e & es & Hf & Hu & Hwf & E & Hb). pose proof (read_to_string_quiet path w f Hq Hf Hu) as Hr.
  unfold check_vector, io_expect.
  erewrite io_bind_step.
  2:{ unfold read_value. erewrite io_bind_step by (by apply io_map_err_ok).
      rewrite str_bytes_str, Hb. reflexivity. }
  erewrite io_bind_step by (by apply io_map_err_ok).
  unfold from_str, from_slice_as. rewrite str_bytes_str, Hb. cbn [rbind].
  rewrite (de_event_field_order (("kind", VStr (kind e)) :: ser_fields e) es e);
    [|by symmetry|by apply de_event_ser].
  erewrite io_bind_step by reflexivity. cbv zeta. unfold ser_event.
  rewrite (to_value_perm es _) by (try done; rewrite E; apply event_keys_distinct).
  by rewrite value_eqb_refl by apply to_value_finite.
Qed.

Lemma check_vectors_accepts dir names w n :
  quiet w -> Forall (fun name => extension name = Some "json" -> vector_file w (path_join dir name)) names ->
  check_vectors dir (Ok <$> names) n w =
    (Ok (n + length (filter (fun name => extension name = Some "json") names)), w).
Proof.
  intros Hq Hall. revert n. induction Hall as [|name names Hv _ IH]; intros n.
  { by rewrite filter_nil, Nat.add_0_r. }
  cbn [fmap list_fmap check_vectors]. erewrite io_bind_step by reflexivity. rewrite filter_cons.
  case_decide as Ed; case_decide as Ed'; try done.
  erewrite io_bind_step by (by apply vector_accepted, Hv).
  change (list_fmap _ _ Ok names) with (Ok (E := string) <$> names). rewrite IH. cbn. do 2 f_equal. lia.
Qed.

(** The file says that differences in field order fail the test. They do not: the
    test passes on every directory with at least five [.json] files whose texts are
    the fields of events in any order. *)
Theorem vectors_ignore_field_order manifest read_dir dir names w :
  quiet w -> mesh_event_vectors manifest w = (Ok (Some dir), w) -> read_dir dir = Ok (Ok <$> names) ->
  Forall (fun name => extension name = Some "json" -> vector_file w (path_join dir name)) names ->
  5 <= length (filter (fun name => extension name = Some "json") names) ->
  mesh_event_vectors_roundtrip manifest read_dir w = (Ok tt, w).
Proof.
  intros Hq Hm Hd Hall Hn. unfold mesh_event_vectors_roundtrip.
  erewrite io_bind_step by exact Hm. cbv beta iota. rewrite Hd. erewrite io_bind_step by reflexivity.
  erewrite io_bind_step by (by apply check_vectors_accepts).
  unfold assert_that. apply Nat.leb_le in Hn. cbn [Nat.add]. by rewrite Hn.
Qed.

End Facts.
